(* ===== verification/_CoqProject ===== *)
-Q . S2P
Prelude.v
Utf8.v
Cbor.v
Format.v
Codec.v
Sign.v
Challenge.v
Merkle.v
Note.v
Crypto.v
Epoch.v
Identity.v
Bindings.v
Mls.v
Stream.v
Agent.v
Records.v
Object.v
Forge.v
Keyring.v
Armor.v
Vectors.v
Frozen.v
EpochStore.v
EpochCli.v
FileSystem.v
FileCli.v
Transport.v
Cli.v
Abi.v
Ffi.v
FfiClient.v
FfiOwner.v
Wasm.v
FfiWasm.v
FfiFlows.v
Desktop.v
