(* ===== verification/Prelude.v ===== *)
(** * HIDE: a verification development

    HIDE encrypts files for several recipients with hybrid post-quantum keys,
    signs them with hybrid signatures, and keeps the identities behind those
    keys: a hash-linked log of a person's devices, a chain of epoch keys that
    gives forward security by erasure, a transparency log of both, challenges,
    key files, an ssh-agent and the admission of devices to MLS groups. This
    library models the Rust crates under [src/crates/], the stateful commands of
    [src/apps/hide-cli/], the commands of [src/apps/hide-desktop/], and the C and
    JavaScript libraries built from the crates.

    ** Parts and files

    Each file opens with what it holds; definitions keep the names of the code,
    with a prefix or suffix where one Rust name serves several types.

    - Prelude.v (this file): bytes as lists, machine integers as [N] with their
      width where it matters, the error monad [result] and its automation
      ([inv_ok], [pass], [b2p], [len]), big-endian encodings, slices, prefix
      codes, and [collide].
    - Utf8.v, Cbor.v, Stream.v: what the sources use of [str], of [minicbor]
      and of [Read] and [Write]. Cbor.v and the classes named below are the
      interfaces to third-party code; each has laws and a concrete instance.
    - Format.v, Codec.v: [hide-format], the preamble, and the canonical codecs
      of header and metadata.
    - Sign.v, Challenge.v: [hide-sign]. Sign.v has the interface
      [SignatureScheme] that identities, notes and containers are proved
      against, and the hybrid scheme that discharges it.
    - Crypto.v: [hide-crypto], with the interface [RecipientKeys] that the epoch
      chain is proved against.
    - Records.v, Object.v: [hide-object]. Records.v is the payload, a stream of
      sealed records; Object.v writes and reads whole containers, using Codec.v,
      Crypto.v, Records.v and Sign.v. Forge.v has the forgers and the vector
      writers behind the feature [test-vectors].
    - Vectors.v, Frozen.v: the generators in [hide-object/examples/]. Vectors.v
      makes the vectors, the rejections with the error each one is; Frozen.v is
      the [Writer] that may not change one, and the rejection index.
    - Merkle.v, Note.v: [hide-transparency], the log and signed checkpoints.
    - Epoch.v: [hide-epoch], the chain as a state machine over its public
      records and the secrets still held.
    - Identity.v, Bindings.v: [hide-identity], the log replayed to a membership,
      and the statements that bind a recovery key or an epoch chain to it.
    - Mls.v: [hide-mls], the credentials and the shared provider that let an
      identity's membership decide who is in a group.
    - Keyring.v, EpochStore.v: [hide-keyring], key files and the sealed store of
      epoch secrets.
    - Armor.v: the text forms of public keys ([hide-keyring]) and of sealed
      messages ([hide-cli]).
    - EpochCli.v, Agent.v: [hide-cli], the epoch commands over two files that
      are replaced one after the other, and the ssh-agent.
    - FileSystem.v, FileCli.v: [hide-cli], the commands on whole files.
      FileSystem.v has paths, the files, the state and error monad [Cmd] and
      what reading, publishing and replacing do; FileCli.v composes the crates
      into keygen, passwd, encrypt, open, sign, verify, seal, unseal and the
      identity commands.
    - Cli.v: [hide-cli], the command line as it is parsed and dispatched, the
      commands that report, and the epoch commands and the agent on those files; what any
      command may touch is one theorem by a small calculus ([touches]).
    - Transport.v: [hide-cli], the directory and the socket of the agent in a
      tree of nodes with owners and modes, and the loop over connections.
    - Abi.v, Ffi.v: [hide-ffi]. Abi.v is the memory the C interface works on
      (pointers, buffers, handles, the caller's variables, an allocator as a
      class with laws), the early returns and the panic guard of an entry point
      as a monad whose outcomes include a panic and undefined behaviour, and
      triples for it ([wp]); Ffi.v is every exported function.
    - FfiClient.v, FfiOwner.v, FfiFlows.v: what a C caller may rely on. A call as
      data with its documented contract; a caller's program as a step relation
      and who owns each block in it; containers and challenges passed from one
      call to another.
    - Wasm.v, FfiWasm.v: [hide-wasm], every binding as a function to a value or a
      thrown error; the questions both libraries answer, and that they answer
      alike.
    - Desktop.v: [hide-desktop], its commands on the files of FileSystem.v.

    State is passed explicitly: a log, a chain, a store, a record of nonces, a
    disk of two files, the files of a machine, a heap of shared memberships, the
    memory of a C program, a source and a sink. What
    [getrandom] gives is an argument, [None] when it fails.

    ** What is proved

    - Containers. Every recipient reads back what was written, whatever pieces
      the streams come in; what is accepted is a container in full, with its
      header authenticated, its payload untruncated and nothing after it, and a
      reported signer signed this header, metadata and plaintext; transcripts
      of the two signed forms determine what they sign; nonces do not repeat.
    - Forgeries. A recipient holds the content key and can make every
      authenticator right again: what is left is the verdict of the signature,
      and a signature admits one object, up to a SHA-256 collision or one
      signature its key accepts for two messages. The rejections of the
      conformance suite are refused for the reasons they give, whatever the
      primitives; where keys or a signature decide, unless a header gives the
      secret two content keys under one MAC or one signature is valid for two
      given containers. On the toy primitives each is made and refused
      ([sample_rejections]).
    - Vectors. A run of the generator changes no vector and loses no row of an
      index; merging rows is idempotent; a check writes nothing but an index
      that is missing.
    - Codecs. A decoder accepts exactly the encodings of well-typed values: for
      the preamble, header, metadata, records, log entries, proofs, notes,
      challenges, bindings and the epoch store's file.
    - Identities. Every entry of a log that verifies was signed by a device
      trusted at that point, a revoked device is silent, a head commits to the
      whole log, owner operations do what was asked; bindings pin the recovery
      key and name one chain; an MLS group admits a device exactly while the
      identity trusts it, and an update reaches every clone of a provider.
    - Epochs. The chain invariant; erasure is final in the chain, in the store,
      and on disk across any commands and crashes, from the store's file up to
      the command line; a crash between the two writes is never silent;
      restoring loses nothing.
    - Key files. A sealed seed opens under every spelling of its passphrase and
      only as what it is; Argon2 sees bounded parameters only; the store refines
      a finite map, its type invariant holds of whatever file it came from.
    - Transparency. Proofs verify for what is in the log and bind it; witnessed
      checkpoints carry the signatures they claim; descent terminates.
    - Files. Whatever fails, a command that makes new files changed nothing, or
      had every output ready and whole and published them in order at free
      names; one that renews a file replaces it whole; what keygen writes belongs together;
      what encrypt writes, open reads back; a detached signature determines its
      file; a store opens with the newest key that fits; a log file loads as the
      log. Two commands do less than they mean to: passwd refuses the identities
      keygen seals and changes the key of a raw one, and a log or a history can
      be grown past the size its readers accept.
    - The command line. A command changes no existing file but the few it renews
      and two it should leave alone, the output of identity-create and what
      stands at the agent's endpoint, and makes none but its
      outputs, whatever the outcome; info tells what
      encrypt and keygen made, except a container that happens to have the
      length of a key. No other user but root reaches the agent's socket from
      the moment it is bound; a file at its place is removed, a wide directory
      is closed.
    - Text. What is armoured decodes from any text it is pasted into.
    - The C library. Within its contract every call is defined, never panics,
      and changes its outputs only when it succeeds; in a caller's program every
      block has one owner, frees are defined and wipe, and nothing leaks; what
      one call seals another opens, and a challenge is accepted once. The
      library cannot open the container of the largest plaintext it accepts.
    - Surfaces. The C and JavaScript libraries answer every question they share
      alike, within the browser's bounds. Files and messages cross between the
      window and the command line; the window publishes only what was
      authenticated, and a key pair it makes belongs together. Unlike the
      command line it replaces an existing output, leaves a partial one when
      encryption fails, and a secret key when the public file is in the way.
    - Liveness. The agent answers every request on a connection that works, and
      its loop ends on any.

    Hashes are never assumed injective. A theorem about commitment ends in "or
    [collide]": two distinct strings, both among those hashed, with one hash.

    ** Recursion and bounds

    Loops over a finite list recurse on it. Where the code's loop has no such
    measure the model takes fuel, and a lemma gives how much is enough: the
    descent in the Merkle tree takes at most 64 turns ([descent_terminates]);
    a payload is decrypted with one unit for each byte left
    ([decrypt_loop_enough]); the agent turns at most once for each byte
    received ([serve_enough]). Integers are [N]; a theorem states the bound
    under which a [u64] or [u32] does not wrap, and the limits are the code's
    own: 2^32 records of 64 KiB in a payload, a million epochs, 100000 log
    entries, 65536 secrets in a store. A [usize] is 64 bits.

    ** Not modelled

    Memory wiping and the [Debug] printers; the parsing of the command line by
    [clap], what is printed to standard error, and the terminal prompt of the
    agent; the Windows pipe of transport.rs; the version strings of the two
    libraries and the folder a portable desktop build keeps its keys in;
    the text of the vectors' manifest and the walk over their directory, the
    generators of signature and subsystem vectors, the differential oracle and
    the fuzz targets, which are programs about this one.
    A path names a file by its components, as on Unix: [..] is not followed, and
    links only where Transport.v says so. A C caller runs one call at a time. *)

(** Shared vocabulary of the development: bytes and machine integers, the
    error monad in which every fallible function is written, big-endian
    encodings, slicing, and the automation the component files use. *)
From Stdlib Require Export NArith Lia ZifyBool.
From Stdlib Require Import Strings.Byte Strings.String.
From stdpp Require Export base tactics numbers option countable list.

(** * Bytes *)

Abbreviation byte := Corelib.Init.Byte.byte.
Abbreviation bytes := (list byte).

#[export] Instance byte_eq_dec : EqDecision byte.
Proof.
  refine (λ a b, match Byte.eqb a b as r return Byte.eqb a b = r → _ with
                 | true => λ H, left _
                 | false => λ H, right _
                 end eq_refl).
  - by apply Byte.byte_dec_bl.
  - by apply Byte.eqb_false.
Defined.

#[export] Program Instance byte_countable : Countable byte :=
  inj_countable Byte.to_N Byte.of_N _.
Next Obligation. intros b. apply Byte.of_to_N. Qed.

(** ASCII text of the source, as the bytes the compiler emits for it. *)
Export Strings.String.StringSyntax.
Definition text (s : string) : bytes := list_byte_of_string s.
Arguments text s%_string_scope.

Abbreviation lenN l := (N.of_nat (length l)).

(** The byte [x as u8]. *)
Definition byte_of (x : N) : byte :=
  match Byte.of_N (x mod 256)%N with Some b => b | None => Byte.x00 end.

Lemma to_N_byte_of x : Byte.to_N (byte_of x) = (x mod 256)%N.
Proof.
  unfold byte_of. destruct (Byte.of_N (x mod 256)) eqn:E.
  - by apply Byte.to_of_N.
  - apply Byte.of_N_None_iff in E.
    pose proof (N.mod_upper_bound x 256 ltac:(lia)). lia.
Qed.

Lemma byte_of_to_N b : byte_of (Byte.to_N b) = b.
Proof.
  unfold byte_of. rewrite N.mod_small; [by rewrite Byte.of_to_N|].
  pose proof (Byte.to_N_bounded b). lia.
Qed.

Lemma to_N_inj b c : Byte.to_N b = Byte.to_N c → b = c.
Proof. intros H. by rewrite <- (byte_of_to_N b), H, byte_of_to_N. Qed.

(** * The error monad *)

Inductive result (E A : Type) : Type :=
| Ok (a : A)
| Err (e : E).
Arguments Ok {E A} a.
Arguments Err {E A} e.

Definition result_bind {E A B} (f : A → result E B) (m : result E A) : result E B :=
  match m with Ok a => f a | Err e => Err e end.

#[export] Instance result_mret E : MRet (result E) := λ A a, Ok a.
#[export] Instance result_mbind E : MBind (result E) := λ A B f m, result_bind f m.
#[export] Instance result_fmap E : FMap (result E) :=
  λ A B f m, result_bind (λ a, Ok (f a)) m.

#[export] Instance result_eq_dec {E A} `{EqDecision E, EqDecision A} :
  EqDecision (result E A).
Proof. solve_decision. Defined.

Definition is_ok {E A} (m : result E A) : bool :=
  match m with Ok _ => true | Err _ => false end.

(** [if bad { return Err(e) }] *)
Definition refuse_if {E} (bad : bool) (e : E) : result E unit :=
  if bad then Err e else Ok tt.

(** [option.ok_or(e)?] *)
Definition ok_or {E A} (o : option A) (e : E) : result E A :=
  match o with Some a => Ok a | None => Err e end.

(** [result.map_err(f)?] *)
Definition map_err {E F A} (f : E → F) (m : result E A) : result F A :=
  match m with Ok a => Ok a | Err e => Err (f e) end.

(** [iter.map(f).collect::<Result<Vec<_>, _>>()] *)
Fixpoint collect {E A B} (f : A → result E B) (l : list A) : result E (list B) :=
  match l with
  | [] => Ok []
  | x :: xs => y ← f x; ys ← collect f xs; Ok (y :: ys)
  end.

(** [for _ in 0..n { push(step(&mut state)?) }]: [n] results of a reader
    that threads its input. *)
Fixpoint repeat_read {E S A} (step : S → result E (A * S)) (n : nat) (s : S)
  : result E (list A * S) :=
  match n with
  | O => Ok ([], s)
  | S n =>
      '(a, s) ← step s;
      '(rest, s) ← repeat_read step n s;
      Ok (a :: rest, s)
  end.

Section result_lemmas.
Context {E : Type}.

Lemma bind_Ok_iff {A B} (m : result E A) (f : A → result E B) b :
  (m ≫= f) = Ok b ↔ ∃ a, m = Ok a ∧ f a = Ok b.
Proof. destruct m; cbn; naive_solver. Qed.

Lemma bind_of_Ok {A B} (a : A) (f : A → result E B) : (Ok a ≫= f) = f a.
Proof. done. Qed.

Lemma bind_of_Err {A B} e (f : A → result E B) : (Err e ≫= f) = Err e.
Proof. done. Qed.

Lemma Ok_inj {A} (a b : A) : Ok (E:=E) a = Ok b → a = b.
Proof. congruence. Qed.

Lemma refuse_if_Ok_iff b (e : E) u : refuse_if b e = Ok u ↔ b = false.
Proof. destruct b, u; cbn; naive_solver. Qed.

Lemma ok_or_Ok_iff {A} (o : option A) (e : E) a : ok_or o e = Ok a ↔ o = Some a.
Proof. destruct o; cbn; naive_solver. Qed.

Lemma map_err_Ok_iff {F A} (f : E → F) (m : result E A) a :
  map_err f m = Ok a ↔ m = Ok a.
Proof. destruct m; cbn; naive_solver. Qed.

Lemma is_ok_true_iff {A} (m : result E A) : is_ok m = true ↔ ∃ a, m = Ok a.
Proof. destruct m; cbn; naive_solver. Qed.

Lemma collect_Ok_iff {A B} (f : A → result E B) l k :
  collect f l = Ok k ↔ Forall2 (λ x y, f x = Ok y) l k.
Proof.
  revert k. induction l as [|x l IH]; intros k; cbn [collect].
  - split; [intros [= <-]; constructor | by inversion 1].
  - rewrite bind_Ok_iff. split.
    + intros (y & Hy & H). apply bind_Ok_iff in H as (ys & Hys & [= <-]).
      constructor; [done|by apply IH].
    + inversion 1; subst. eexists; split; [eassumption|].
      apply bind_Ok_iff. eexists; split; [by apply IH|done].
Qed.

Lemma refuse_if_pass b (e : E) : b = false → refuse_if b e = Ok tt.
Proof. by intros ->. Qed.

(** A reader that inverts an encoder element by element reads back a whole
    concatenation. *)
Lemma repeat_read_concat {A} (step : bytes → result E (A * bytes)) l es r :
  Forall2 (λ x e, ∀ r, step (e ++ r) = Ok (x, r)) l es →
  repeat_read step (length l) (concat es ++ r) = Ok (l, r).
Proof.
  induction 1 as [|x e l es Hx _ IH]; [done|].
  cbn [length concat repeat_read]. rewrite <- app_assoc, Hx. cbn. by rewrite IH.
Qed.

Lemma repeat_read_length {S A} (step : S → result E (A * S)) n s l s' :
  repeat_read step n s = Ok (l, s') → length l = n.
Proof.
  revert s l. induction n as [|n IH]; intros s l; cbn.
  - by intros [= <- _].
  - rewrite bind_Ok_iff. intros ([a t] & _ & H).
    apply bind_Ok_iff in H as ([k t'] & H & [= <- <-]). cbn. f_equal. by eapply IH.
Qed.

(** Every element a reader returned came out of one of its steps. *)
Lemma repeat_read_Forall {S A} (step : S → result E (A * S)) (P : A → Prop) n s l s' :
  (∀ t a t', step t = Ok (a, t') → P a) → repeat_read step n s = Ok (l, s') → Forall P l.
Proof.
  intros HP. revert s l. induction n as [|n IH]; intros s l; cbn.
  - intros [= <- _]. constructor.
  - rewrite bind_Ok_iff. intros ([a t] & Ha & H).
    apply bind_Ok_iff in H as ([k t'] & H & [= <- <-]). constructor; eauto.
Qed.
End result_lemmas.

(** Turns a hypothesis that a monadic computation succeeded into the
    successes of its steps. *)
Ltac inv_ok_step :=
  match goal with
  | H : Ok _ = Ok _ |- _ => apply Ok_inj in H
  | H : Err _ = Ok _ |- _ => discriminate H
  | H : Ok _ = Err _ |- _ => discriminate H
  | H : mret _ = Ok _ |- _ => change (Ok _ = Ok _) in H
  | H : (_ ≫= _) = Ok _ |- _ =>
      let a := fresh "a" in let Ha := fresh "Hok" in
      apply bind_Ok_iff in H as (a & Ha & H)
  | H : refuse_if _ _ = Ok _ |- _ => apply refuse_if_Ok_iff in H
  | H : ok_or _ _ = Ok _ |- _ => apply ok_or_Ok_iff in H
  | H : map_err _ _ = Ok _ |- _ => apply map_err_Ok_iff in H
  | H : (let '(_, _) := ?p in _) = Ok _ |- _ =>
      is_var p; destruct p
  | a : unit |- _ => destruct a
  end.
Ltac inv_ok := repeat (inv_ok_step; cbn beta iota in *); simplify_eq.

(** Passes a guard of the code whose condition arithmetic refutes. *)
Ltac pass :=
  first
    [ match goal with |- (refuse_if ?b ?e ≫= _) = _ => rewrite (refuse_if_pass b e) by lia end
    | match goal with |- (refuse_if ?b ?e ≫= _) ≫= _ = _ =>
        rewrite (refuse_if_pass b e) by lia end
    | rewrite refuse_if_pass by lia ];
  cbn [mbind result_mbind result_bind].

(** * Slicing and lengths *)

(** [slice.split_at_checked(n)] *)
Definition split_at_checked {A} (n : N) (l : list A) : option (list A * list A) :=
  if (n <=? lenN l)%N then Some (take (N.to_nat n) l, drop (N.to_nat n) l) else None.

(** [&l[from..to]] for bounds already known to be in range. *)
Definition slice {A} (from to : N) (l : list A) : list A :=
  take (N.to_nat (to - from)) (drop (N.to_nat from) l).

(** [l[i]] as an integer, for an index already known to be in range. *)
Definition byte_at (i : nat) (l : bytes) : N := Byte.to_N (nth i l Byte.x00).

(** [l.starts_with(p)] *)
Fixpoint starts_with {A} `{EqDecision A} (p l : list A) : bool :=
  match p, l with
  | [], _ => true
  | x :: p, y :: l => bool_decide (x = y) && starts_with p l
  | _ :: _, [] => false
  end.

Lemma starts_with_true_iff {A} `{EqDecision A} (p l : list A) :
  starts_with p l = true ↔ ∃ r, l = p ++ r.
Proof.
  revert l. induction p as [|x p IH]; intros [|y l]; cbn.
  - naive_solver.
  - naive_solver.
  - naive_solver.
  - rewrite andb_true_iff, bool_decide_eq_true, IH. naive_solver.
Qed.

Lemma starts_with_app {A} `{EqDecision A} (p l : list A) : starts_with p (p ++ l) = true.
Proof. apply starts_with_true_iff. eauto. Qed.

Lemma split_at_checked_Some_iff {A} n (l a b : list A) :
  split_at_checked n l = Some (a, b) ↔ l = a ++ b ∧ lenN a = n.
Proof.
  unfold split_at_checked. destruct (N.leb_spec n (lenN l)) as [Hle|Hlt].
  - split.
    + intros [= <- <-]. rewrite take_drop, length_take. split; [done|lia].
    + intros [-> Hn]. f_equal. replace (N.to_nat n) with (length a) by lia.
      by rewrite take_app_length, drop_app_length.
  - split; [done|]. intros [-> Hn]. rewrite length_app in Hlt. lia.
Qed.

Lemma split_at_checked_app {A} n (a b : list A) :
  lenN a = n → split_at_checked n (a ++ b) = Some (a, b).
Proof. intros. by apply split_at_checked_Some_iff. Qed.

Lemma take_app_len {A} n (a b : list A) : length a = n → take n (a ++ b) = a.
Proof. intros <-. apply take_app_length. Qed.

Lemma drop_app_len {A} n (a b : list A) : length a = n → drop n (a ++ b) = b.
Proof. intros <-. apply drop_app_length. Qed.

Lemma app_inj_len_1 {A} (a b c d : list A) :
  length a = length c → a ++ b = c ++ d → a = c ∧ b = d.
Proof. apply app_inj_1. Qed.

Lemma app_inj_len_2 {A} (a b c d : list A) :
  length b = length d → a ++ b = c ++ d → a = c ∧ b = d.
Proof. apply app_inj_2. Qed.

Lemma slice_drop {A} (i j : N) (l : list A) :
  (i <= j)%N → slice i j l ++ drop (N.to_nat j) l = drop (N.to_nat i) l.
Proof.
  intros H. unfold slice. rewrite <- (take_drop (N.to_nat (j - i)) (drop (N.to_nat i) l)) at 2.
  rewrite drop_drop. do 2 f_equal. lia.
Qed.

Lemma length_slice {A} (i j : N) (l : list A) :
  (i <= j)%N → (j <= lenN l)%N → lenN (slice i j l) = (j - i)%N.
Proof. intros. unfold slice. rewrite length_take, length_drop. lia. Qed.

(** A field between what is before and after it. *)
Lemma slice_app {A} (i j : N) (a b c l : list A) :
  l = a ++ b ++ c → lenN a = i → lenN b = (j - i)%N → slice i j l = b.
Proof.
  intros -> Ha Hb. unfold slice. rewrite drop_app_len by lia. by rewrite take_app_len by lia.
Qed.

Lemma existsb_false_elem {A} (f : A → bool) l x :
  existsb f l = false → x ∈ l → f x = false.
Proof.
  intros H Hx. apply not_true_iff_false in H. apply not_true_iff_false.
  intros Hf. apply H, existsb_exists. exists x. by rewrite <- list_elem_of_In.
Qed.

Lemma existsb_true_elem {A} (f : A → bool) l :
  existsb f l = true ↔ ∃ x, x ∈ l ∧ f x = true.
Proof. rewrite existsb_exists. by setoid_rewrite <- list_elem_of_In. Qed.

Lemma length_nil_iff {A} (l : list A) : lenN l = 0%N ↔ l = [].
Proof. destruct l; cbn; [naive_solver|]. split; [lia|done]. Qed.

(** * Big-endian integers *)

(** [(x as uN).to_be_bytes()], [n] bytes wide. *)
Fixpoint be (n : nat) (x : N) : bytes :=
  match n with
  | O => []
  | S n => be n (x / 256)%N ++ [byte_of x]
  end.

(** [uN::from_be_bytes(l)] *)
Definition unbe (l : bytes) : N :=
  fold_left (λ acc b, (acc * 256 + Byte.to_N b)%N) l 0%N.

Definition u32be : N → bytes := be 4.
Definition u64be : N → bytes := be 8.

Definition u16_max : N := 65535.
Definition u32_max : N := 4294967295.
Definition u64_max : N := 18446744073709551615.
Definition u64_bound : N := 18446744073709551616.

Lemma length_be n x : length (be n x) = n.
Proof. revert x. induction n; intros; cbn; [done|]. rewrite length_app, IHn. cbn. lia. Qed.

Lemma unbe_snoc l b : unbe (l ++ [b]) = (unbe l * 256 + Byte.to_N b)%N.
Proof. unfold unbe. by rewrite fold_left_app. Qed.

Lemma unbe_bound l : (unbe l < 256 ^ lenN l)%N.
Proof.
  induction l as [|b l IH] using rev_ind; [done|].
  rewrite unbe_snoc, length_app. cbn [length].
  pose proof (Byte.to_N_bounded b).
  replace (N.of_nat (length l + 1)) with (N.succ (lenN l)) by lia.
  rewrite N.pow_succ_r'. nia.
Qed.

Lemma unbe_be n x : unbe (be n x) = (x mod 256 ^ N.of_nat n)%N.
Proof.
  revert x. induction n as [|n IH]; intros x.
  - cbn. by rewrite N.mod_1_r.
  - cbn [be]. rewrite unbe_snoc, IH, to_N_byte_of.
    replace (N.of_nat (S n)) with (N.succ (N.of_nat n)) by lia.
    rewrite N.pow_succ_r', N.Div0.mod_mul_r by lia. lia.
Qed.

Lemma unbe_be_small n x : (x < 256 ^ N.of_nat n)%N → unbe (be n x) = x.
Proof. intros. rewrite unbe_be. by apply N.mod_small. Qed.

Lemma be_unbe l : be (length l) (unbe l) = l.
Proof.
  induction l as [|b l IH] using rev_ind; [done|].
  rewrite length_app, Nat.add_comm, unbe_snoc. cbn [Nat.add length be].
  pose proof (Byte.to_N_bounded b) as Hb.
  replace ((unbe l * 256 + Byte.to_N b) / 256)%N with (unbe l).
  - rewrite IH. do 2 f_equal. apply to_N_inj. rewrite to_N_byte_of.
    rewrite N.add_comm, N.Div0.mod_add. apply N.mod_small. lia.
  - rewrite N.add_comm, N.div_add by lia. rewrite N.div_small; lia.
Qed.

Lemma be_inj n x y :
  (x < 256 ^ N.of_nat n)%N → (y < 256 ^ N.of_nat n)%N → be n x = be n y → x = y.
Proof. intros Hx Hy H. by rewrite <- (unbe_be_small n x), H, unbe_be_small. Qed.

Lemma be_unbe_len n l : length l = n → be n (unbe l) = l.
Proof. intros <-. apply be_unbe. Qed.

Lemma u64be_inj x y : (x < u64_bound)%N → (y < u64_bound)%N → u64be x = u64be y → x = y.
Proof. apply (be_inj 8). Qed.

Lemma unbe_u64be x : (x < u64_bound)%N → unbe (u64be x) = x.
Proof. apply (unbe_be_small 8). Qed.

Lemma unbe_u32be x : (x <= u32_max)%N → unbe (u32be x) = x.
Proof. intros H. apply (unbe_be_small 4). unfold u32_max in H. cbn. lia. Qed.

Lemma unbe_u64_bound l : length l = 8 → (unbe l < u64_bound)%N.
Proof. intros H. pose proof (unbe_bound l) as B. rewrite H in B. exact B. Qed.

Lemma length_u64be x : length (u64be x) = 8.
Proof. apply length_be. Qed.
Lemma length_u32be x : length (u32be x) = 4.
Proof. apply length_be. Qed.

#[global] Arguments be : simpl never.
#[global] Arguments u32be : simpl never.
#[global] Arguments u64be : simpl never.
#[global] Arguments unbe : simpl never.
#[global] Arguments byte_of : simpl never.
#[global] Arguments text : simpl never.

(** * Prefix codes

    An encoder is injective in front of anything: what it wrote and what
    follows can be told apart. *)
Definition prefix_code {A} (ok : A → Prop) (f : A → bytes) : Prop :=
  ∀ a b r s, ok a → ok b → f a ++ r = f b ++ s → a = b ∧ r = s.

Lemma prefix_code_list {A} (ok : A → Prop) f l k r s :
  prefix_code ok f → length l = length k → Forall ok l → Forall ok k →
  concat (map f l) ++ r = concat (map f k) ++ s → l = k ∧ r = s.
Proof.
  intros Hf. revert k. induction l as [|a l IH]; intros [|b k] Hlen Hl Hk; [done..|].
  inversion Hl; inversion Hk; subst. cbn [map concat]. rewrite <- !app_assoc.
  intros E. apply Hf in E as [-> E]; [|done..].
  destruct (IH k) as [-> ->]; [cbn in Hlen; lia|done..].
Qed.

Lemma prefix_code_fixed {A} (ok : A → Prop) (f : A → bytes) n :
  (∀ a, ok a → length (f a) = n) → (∀ a b, ok a → ok b → f a = f b → a = b) → prefix_code ok f.
Proof.
  intros Hn Hf a b r s Ha Hb E. apply app_inj_len_1 in E as [E ->]; [|by rewrite !Hn].
  split; [by apply Hf|done].
Qed.

(** A count in front of that many codes. *)
Lemma prefix_code_counted {A} (ok : A → Prop) f l k r s :
  prefix_code ok f → (lenN l < u64_bound)%N → (lenN k < u64_bound)%N → Forall ok l → Forall ok k →
  u64be (lenN l) ++ concat (map f l) ++ r = u64be (lenN k) ++ concat (map f k) ++ s →
  l = k ∧ r = s.
Proof.
  intros Hf Bl Bk Hl Hk E. apply app_inj_len_1 in E as [En E]; [|by rewrite !length_u64be].
  apply u64be_inj in En; [|done..]. eapply prefix_code_list; [done| |done..]. lia.
Qed.

(** * Hash collisions

    The protocol hashes; what its theorems promise is relative to nobody
    producing a collision. A theorem never assumes a hash injective (no
    32-byte hash is): it concludes that either the promised equality holds or
    two distinct strings, both among the inputs that were really hashed, have
    the same hash. *)
Definition collide (H : bytes → bytes) (A B : bytes → Prop) : Prop :=
  ∃ x y, A x ∧ B y ∧ x ≠ y ∧ H x = H y.

Lemma collide_mono H (A A' B B' : bytes → Prop) :
  (∀ x, A x → A' x) → (∀ x, B x → B' x) → collide H A B → collide H A' B'.
Proof. intros HA HB (x & y & ? & ? & ? & ?). exists x, y. naive_solver. Qed.

Lemma hash_eq_or_collide H x y (A B : bytes → Prop) :
  A x → B y → H x = H y → x = y ∨ collide H A B.
Proof. intros. destruct (decide (x = y)); [by left|right]. by exists x, y. Qed.

Lemma map_hash_eq_or_collide H l k :
  map H l = map H k → l = k ∨ collide H (λ x, x ∈ l) (λ x, x ∈ k).
Proof.
  revert k. induction l as [|x l IH]; intros [|y k]; try done; [by left|].
  cbn. intros [= Hx Hl].
  destruct (hash_eq_or_collide H x y (λ z, z ∈ x :: l) (λ z, z ∈ y :: k)) as [->|];
    [left|left|done| |by right].
  destruct (IH k Hl) as [->|HC]; [by left|right].
  eapply collide_mono; [..|exact HC]; by right.
Qed.

(** A stand-in for SHA-256 that is cheap to evaluate; only the witnesses,
    which run theorems on concrete inputs, use it. *)
Definition toy_hash (x : bytes) : bytes :=
  be 32 (unbe (take 32 x) + unbe (take 32 (drop 32 x)) * 7
         + fold_left (λ acc b, acc + Byte.to_N b) x 0 * 13 + lenN x)%N.

Lemma toy_hash_length x : length (toy_hash x) = 32.
Proof. apply length_be. Qed.

Module Padded.
Local Open Scope N_scope.

Definition pad (n : N) (l : bytes) : bytes :=
  take (N.to_nat n) (l ++ replicate (N.to_nat n) Byte.x00).

Lemma pad_length n l : lenN (pad n l) = n.
Proof. unfold pad. rewrite length_take, length_app, length_replicate. lia. Qed.

Lemma pad_id n l : lenN l = n → pad n l = l.
Proof. intros. unfold pad. apply take_app_len. lia. Qed.

Lemma take_pad n k l :
  (k <= N.to_nat n)%nat → take k (pad n l) = pad (N.of_nat k) l.
Proof.
  intros. unfold pad. rewrite take_take, Nat.min_l, Nat2N.id by lia.
  rewrite !take_app, !take_replicate. do 2 f_equal. lia.
Qed.

(** Fixed-length byte strings. *)
Definition fixed (n : N) : Type := { l : bytes | lenN l = n }.

Definition fix_to (n : N) (l : bytes) : fixed n := exist _ (pad n l) (pad_length n l).

Lemma fixed_eq n (a b : fixed n) : proj1_sig a = proj1_sig b → a = b.
Proof.
  destruct a as [a Ha], b as [b Hb]. cbn. intros <-. f_equal.
  apply Eqdep_dec.UIP_dec, N.eq_dec.
Qed.

Lemma fix_to_id n (a : fixed n) : fix_to n (proj1_sig a) = a.
Proof. apply fixed_eq. cbn. apply pad_id, (proj2_sig a). Qed.
End Padded.

(** * Automation *)

Create HintDb hide discriminated.
#[export] Hint Resolve starts_with_app length_be length_u64be length_u32be : hide.

Create Rewrite HintDb lens.
#[export] Hint Rewrite @length_app @length_cons @length_nil @length_take @length_drop
  @length_replicate length_be length_u64be length_u32be @length_map : lens.

(** Arithmetic on the lengths of concatenations. *)
Ltac len := unfold u64be, u32be in *; autorewrite with lens in *; cbn [length] in *; lia.

(** Reflects boolean tests of the code into propositions. *)
Ltac b2p :=
  repeat match goal with
  | H : negb _ = true |- _ => apply negb_true_iff in H
  | H : negb _ = false |- _ => apply negb_false_iff in H
  | H : _ || _ = false |- _ => apply orb_false_iff in H as [? ?]
  | H : _ && _ = true |- _ => apply andb_true_iff in H as [? ?]
  | H : bool_decide _ = true |- _ => apply bool_decide_eq_true in H
  | H : bool_decide _ = false |- _ => apply bool_decide_eq_false in H
  | H : (_ <=? _)%N = true |- _ => apply N.leb_le in H
  | H : (_ <=? _)%N = false |- _ => apply N.leb_gt in H
  | H : (_ <? _)%N = true |- _ => apply N.ltb_lt in H
  | H : (_ <? _)%N = false |- _ => apply N.ltb_ge in H
  | H : (_ =? _)%N = true |- _ => apply N.eqb_eq in H
  | H : (_ =? _)%N = false |- _ => apply N.eqb_neq in H
  end.
