(* ===== verification/Utf8.v ===== *)
(** Rust's [str]: UTF-8 text. The standard library's validation and character
    decoding ([str::from_utf8], [str::chars], [char::is_control],
    [to_ascii_uppercase]), over the bytes of the string. *)
From S2P Require Import Prelude.
Local Open Scope N_scope.

Definition continuation (b : byte) : option N :=
  let n := Byte.to_N b in
  if (128 <=? n) && (n <=? 191) then Some (n - 128) else None.

Definition two_byte_char (b0 b1 : byte) : option N :=
  c1 ← continuation b1;
  let cp := (Byte.to_N b0 - 192) * 64 + c1 in
  if 128 <=? cp then Some cp else None.

Definition three_byte_char (b0 b1 b2 : byte) : option N :=
  c1 ← continuation b1; c2 ← continuation b2;
  let cp := (Byte.to_N b0 - 224) * 4096 + c1 * 64 + c2 in
  if (2048 <=? cp) && negb ((55296 <=? cp) && (cp <=? 57343)) then Some cp else None.

Definition four_byte_char (b0 b1 b2 b3 : byte) : option N :=
  c1 ← continuation b1; c2 ← continuation b2; c3 ← continuation b3;
  let cp := (Byte.to_N b0 - 240) * 262144 + c1 * 4096 + c2 * 64 + c3 in
  if (65536 <=? cp) && (cp <=? 1114111) then Some cp else None.

(** The code points of a string; [None] when the bytes are not UTF-8. *)
Fixpoint utf8_chars (l : bytes) : option (list N) :=
  match l with
  | [] => Some []
  | b0 :: l1 =>
      let n := Byte.to_N b0 in
      if n <? 128 then cs ← utf8_chars l1; Some (n :: cs)
      else if n <? 192 then None
      else if n <? 224 then
        match l1 with
        | b1 :: l2 => c ← two_byte_char b0 b1; cs ← utf8_chars l2; Some (c :: cs)
        | _ => None
        end
      else if n <? 240 then
        match l1 with
        | b1 :: b2 :: l3 =>
            c ← three_byte_char b0 b1 b2; cs ← utf8_chars l3; Some (c :: cs)
        | _ => None
        end
      else
        match l1 with
        | b1 :: b2 :: b3 :: l4 =>
            c ← four_byte_char b0 b1 b2 b3; cs ← utf8_chars l4; Some (c :: cs)
        | _ => None
        end
  end.

Definition utf8_valid (l : bytes) : bool :=
  match utf8_chars l with Some _ => true | None => false end.

(** [s.chars()], on a string known to be valid. *)
Definition chars (s : bytes) : list N := default [] (utf8_chars s).

(** [char::is_control]: the general category Cc. *)
Definition is_control (c : N) : bool := (c <=? 31) || ((127 <=? c) && (c <=? 159)).

Definition ascii_uppercase (b : byte) : byte :=
  let n := Byte.to_N b in
  if (97 <=? n) && (n <=? 122) then byte_of (n - 32) else b.

(** [s.to_ascii_uppercase()] *)
Definition to_ascii_uppercase (s : bytes) : bytes := map ascii_uppercase s.

(** [s.is_ascii()] *)
Definition is_ascii (s : bytes) : bool := forallb (λ b, Byte.to_N b <? 128) s.

Lemma utf8_chars_ascii s : is_ascii s = true → utf8_chars s = Some (map Byte.to_N s).
Proof.
  induction s as [|b s IH]; [done|]. cbn. intros [Hb Hs]%andb_true_iff.
  by rewrite Hb, (IH Hs).
Qed.

Lemma utf8_valid_ascii s : is_ascii s = true → utf8_valid s = true.
Proof. intros H. unfold utf8_valid. by rewrite utf8_chars_ascii. Qed.

Lemma is_ascii_app a b : is_ascii (a ++ b) = is_ascii a && is_ascii b.
Proof. apply forallb_app. Qed.

Lemma utf8_chars_app_n n a b xs :
  (length a <= n)%nat → utf8_chars a = Some xs →
  utf8_chars (a ++ b) = ys ← utf8_chars b; Some (xs ++ ys).
Proof.
  revert a xs. induction n as [|n IH]; intros a xs Hn Ha.
  { destruct a; [|cbn in Hn; lia]. injection Ha as <-. cbn. by destruct (utf8_chars b). }
  destruct a as [|b0 a]; [injection Ha as <-; cbn; by destruct (utf8_chars b)|].
  cbn in Ha, Hn. cbn [app utf8_chars].
  destruct (Byte.to_N b0 <? 128).
  { apply bind_Some in Ha as (cs & Hcs & [= <-]).
    rewrite (IH a cs) by (done || lia). by destruct (utf8_chars b). }
  destruct (Byte.to_N b0 <? 192); [done|].
  destruct (Byte.to_N b0 <? 224).
  { destruct a as [|b1 a]; [done|]. cbn [app].
    apply bind_Some in Ha as (c & Hc & Ha). apply bind_Some in Ha as (cs & Hcs & [= <-]).
    rewrite Hc. cbn. rewrite (IH a cs) by (done || cbn in Hn; lia).
    by destruct (utf8_chars b). }
  destruct (Byte.to_N b0 <? 240).
  { destruct a as [|b1 [|b2 a]]; [done..|]. cbn [app].
    apply bind_Some in Ha as (c & Hc & Ha). apply bind_Some in Ha as (cs & Hcs & [= <-]).
    rewrite Hc. cbn. rewrite (IH a cs) by (done || cbn in Hn; lia).
    by destruct (utf8_chars b). }
  destruct a as [|b1 [|b2 [|b3 a]]]; [done..|]. cbn [app].
  apply bind_Some in Ha as (c & Hc & Ha). apply bind_Some in Ha as (cs & Hcs & [= <-]).
  rewrite Hc. cbn. rewrite (IH a cs) by (done || cbn in Hn; lia).
  by destruct (utf8_chars b).
Qed.

(** Validity and decoding distribute over concatenation of valid strings. *)
Lemma utf8_chars_app a b xs :
  utf8_chars a = Some xs →
  utf8_chars (a ++ b) = ys ← utf8_chars b; Some (xs ++ ys).
Proof. by apply (utf8_chars_app_n (length a)). Qed.

Lemma utf8_valid_app a b :
  utf8_valid a = true → utf8_valid b = true → utf8_valid (a ++ b) = true.
Proof.
  unfold utf8_valid. intros Ha Hb.
  destruct (utf8_chars a) eqn:Ea; [|done]. rewrite (utf8_chars_app _ _ _ Ea).
  by destruct (utf8_chars b).
Qed.

Lemma continuation_high b c : continuation b = Some c → 128 <= Byte.to_N b.
Proof. unfold continuation. case_match; [|done]. intros _. b2p. lia. Qed.

Lemma utf8_ascii_bytes_n n s cs b :
  (length s <= n)%nat → utf8_chars s = Some cs → b ∈ s → Byte.to_N b < 128 →
  Byte.to_N b ∈ cs.
Proof.
  revert s cs. induction n as [|n IH]; intros s cs Hn Hs Hb Hlow.
  { destruct s; [by apply not_elem_of_nil in Hb|cbn in Hn; lia]. }
  destruct s as [|b0 s]; [by apply not_elem_of_nil in Hb|].
  cbn in Hs, Hn. apply elem_of_cons in Hb.
  destruct (N.ltb_spec (Byte.to_N b0) 128).
  { apply bind_Some in Hs as (k & Hk & [= <-]). apply elem_of_cons.
    destruct Hb as [->|Hb]; [by left|right]. eapply (IH s); [lia|done..]. }
  destruct (N.ltb_spec (Byte.to_N b0) 192); [done|].
  destruct Hb as [->|Hb]; [lia|].
  assert (∀ x c, continuation x = Some c → b ≠ x) as Hc.
  { intros x c Hx ->. apply continuation_high in Hx. lia. }
  destruct (N.ltb_spec (Byte.to_N b0) 224); [|destruct (N.ltb_spec (Byte.to_N b0) 240)].
  - destruct s as [|b1 s]; [done|].
    apply bind_Some in Hs as (c & E1 & Hs). apply bind_Some in Hs as (k & Hk & [= <-]).
    apply bind_Some in E1 as (c1 & E1 & _). cbn in Hn.
    apply elem_of_cons. right. eapply (IH s); [lia|done| |done].
    apply elem_of_cons in Hb as [->|Hb]; [by destruct (Hc b1 c1)|done].
  - destruct s as [|b1 [|b2 s]]; [done..|].
    apply bind_Some in Hs as (c & E1 & Hs). apply bind_Some in Hs as (k & Hk & [= <-]).
    apply bind_Some in E1 as (c1 & E1 & E2). apply bind_Some in E2 as (c2 & E2 & _).
    cbn in Hn. apply elem_of_cons. right. eapply (IH s); [lia|done| |done].
    apply elem_of_cons in Hb as [->|Hb]; [by destruct (Hc b1 c1)|].
    apply elem_of_cons in Hb as [->|Hb]; [by destruct (Hc b2 c2)|done].
  - destruct s as [|b1 [|b2 [|b3 s]]]; [done..|].
    apply bind_Some in Hs as (c & E1 & Hs). apply bind_Some in Hs as (k & Hk & [= <-]).
    apply bind_Some in E1 as (c1 & E1 & E2). apply bind_Some in E2 as (c2 & E2 & E3).
    apply bind_Some in E3 as (c3 & E3 & _).
    cbn in Hn. apply elem_of_cons. right. eapply (IH s); [lia|done| |done].
    apply elem_of_cons in Hb as [->|Hb]; [by destruct (Hc b1 c1)|].
    apply elem_of_cons in Hb as [->|Hb]; [by destruct (Hc b2 c2)|].
    apply elem_of_cons in Hb as [->|Hb]; [by destruct (Hc b3 c3)|done].
Qed.

(** In a valid string an ASCII byte is always the character itself: no
    multi-byte sequence can hide a separator. *)
Lemma utf8_ascii_byte_is_char s b :
  utf8_valid s = true → b ∈ s → Byte.to_N b < 128 → Byte.to_N b ∈ chars s.
Proof.
  unfold utf8_valid, chars. intros Hv. destruct (utf8_chars s) eqn:E; [|done].
  by apply (utf8_ascii_bytes_n (length s)).
Qed.

#[export] Hint Resolve utf8_valid_app utf8_valid_ascii : hide.
