(* ===== verification/Cbor.v ===== *)
(** The CBOR codec the wire formats are written with. [minicbor] is a
    third-party crate, so it is an interface: the operations of its [Encoder]
    and [Decoder] that the sources call ([Cbor]) and the documented behaviour
    the sources rely on ([CborLaws]). Module [Reference] implements RFC 8949
    heads and discharges the laws, so every theorem stated against the
    interface has a concrete instance to run on. *)
From S2P Require Import Prelude Utf8.
Local Open Scope N_scope.

(** An [Encoder<Vec<u8>>] appends to its buffer and cannot fail
    ([Error<Infallible>]), so an encoding call is the bytes it appends. A
    [Decoder] is the input it has not consumed; a read returns [None] for
    [Err(_)], which every caller maps to its own "malformed" error. [array]
    and [map] return [None] inside for an indefinite length. *)
Class Cbor := {
  enc_array : N → bytes;
  enc_map : N → bytes;
  enc_u8 : N → bytes;
  enc_u16 : N → bytes;
  enc_u64 : N → bytes;
  enc_bytes : bytes → bytes;
  enc_str : bytes → bytes;
  dec_array : bytes → option (option N * bytes);
  dec_map : bytes → option (option N * bytes);
  dec_u8 : bytes → option (N * bytes);
  dec_u16 : bytes → option (N * bytes);
  dec_u64 : bytes → option (N * bytes);
  dec_bytes : bytes → option (bytes * bytes);
  dec_str : bytes → option (bytes * bytes);
}.

Class CborLaws (C : Cbor) : Prop := {
  dec_enc_array n r : n < u64_bound → dec_array (enc_array n ++ r) = Some (Some n, r);
  dec_enc_map n r : n < u64_bound → dec_map (enc_map n ++ r) = Some (Some n, r);
  dec_enc_u8 n r : n <= 255 → dec_u8 (enc_u8 n ++ r) = Some (n, r);
  dec_enc_u16 n r : n <= u16_max → dec_u16 (enc_u16 n ++ r) = Some (n, r);
  dec_enc_u64 n r : n < u64_bound → dec_u64 (enc_u64 n ++ r) = Some (n, r);
  (** An unsigned integer may be read at a wider width than it was written. *)
  dec_u64_enc_u8 n r : n <= 255 → dec_u64 (enc_u8 n ++ r) = Some (n, r);
  dec_u64_enc_u16 n r : n <= u16_max → dec_u64 (enc_u16 n ++ r) = Some (n, r);
  dec_enc_bytes b r : lenN b < u64_bound → dec_bytes (enc_bytes b ++ r) = Some (b, r);
  dec_enc_str s r :
    utf8_valid s = true → lenN s < u64_bound → dec_str (enc_str s ++ r) = Some (s, r);
  (** The Rust types of the results. *)
  dec_u64_range l n r : dec_u64 l = Some (n, r) → n < u64_bound;
  dec_str_valid l s r : dec_str l = Some (s, r) → utf8_valid s = true;
  (** The size of a byte string's encoding depends on its length only. *)
  length_enc_bytes a b : length a = length b → length (enc_bytes a) = length (enc_bytes b);
  (** A byte string is encoded as a head and itself. *)
  enc_bytes_suffix b : ∃ head, enc_bytes b = head ++ b;
}.

(** Heads are written in their shortest form (RFC 8949, preferred
    serialization), which bounds what a file can take. *)
Class CborSizes (C : Cbor) : Prop := {
  length_enc_array_small n : n < 24 → lenN (enc_array n) = 1;
  length_enc_map_small n : n < 24 → lenN (enc_map n) = 1;
  length_enc_array_le n : n <= u32_max → lenN (enc_array n) <= 5;
  length_enc_u64_le n : n < u64_bound → 1 <= lenN (enc_u64 n) <= 9;
  length_enc_bytes_small b : lenN b < 24 → lenN (enc_bytes b) = 1 + lenN b;
  length_enc_bytes_le b : lenN b < 256 → lenN (enc_bytes b) <= 2 + lenN b;
}.

(** Side conditions of the decoding equations. *)
Ltac cbor_side := first [assumption | lia | unfold u16_max, u64_bound in *; lia].

Create Rewrite HintDb cbor.
#[export] Hint Rewrite @dec_enc_array @dec_enc_map @dec_enc_u8 @dec_enc_u16
  @dec_enc_u64 @dec_u64_enc_u8 @dec_u64_enc_u16 @dec_enc_bytes @dec_enc_str
  using cbor_side : cbor.

Lemma enc_bytes_inj `{CborLaws} a b :
  lenN a < u64_bound → lenN b < u64_bound → enc_bytes a = enc_bytes b → a = b.
Proof.
  intros Ha Hb E. pose proof (dec_enc_bytes a [] Ha) as E1.
  rewrite E, (dec_enc_bytes b [] Hb) in E1. congruence.
Qed.

(** [decoder.position()], given what is left of the input. *)
Definition position (input rest : bytes) : N := lenN input - lenN rest.

(** * A reference implementation: RFC 8949 heads, shortest form on output *)
Module Reference.
Definition head (major n : N) : bytes :=
  if n <? 24 then [byte_of (major * 32 + n)]
  else if n <? 256 then byte_of (major * 32 + 24) :: be 1 n
  else if n <? 65536 then byte_of (major * 32 + 25) :: be 2 n
  else if n <? 4294967296 then byte_of (major * 32 + 26) :: be 4 n
  else byte_of (major * 32 + 27) :: be 8 n.

(** The major type, the argument ([None]: indefinite) and the rest. *)
Definition read_head (l : bytes) : option (N * option N * bytes) :=
  match l with
  | [] => None
  | b :: r =>
      let major := Byte.to_N b / 32 in
      let info := Byte.to_N b mod 32 in
      let arg n := '(a, r) ← split_at_checked n r; Some (major, Some (unbe a), r) in
      if info <? 24 then Some (major, Some info, r)
      else if info =? 24 then arg 1
      else if info =? 25 then arg 2
      else if info =? 26 then arg 4
      else if info =? 27 then arg 8
      else if info =? 31 then Some (major, None, r)
      else None
  end.

Definition read_uint (max : N) (l : bytes) : option (N * bytes) :=
  match read_head l with
  | Some (0, Some n, r) => if n <=? max then Some (n, r) else None
  | _ => None
  end.

Definition read_count (major : N) (l : bytes) : option (option N * bytes) :=
  '(m, n, r) ← read_head l;
  if m =? major then Some (n, r) else None.

Definition read_string (major : N) (l : bytes) : option (bytes * bytes) :=
  match read_head l with
  | Some (m, Some n, r) => if m =? major then split_at_checked n r else None
  | _ => None
  end.

Definition read_text (l : bytes) : option (bytes * bytes) :=
  '(s, r) ← read_string 3 l;
  if utf8_valid s then Some (s, r) else None.

#[export] Instance cbor : Cbor := {
  enc_array := head 4;
  enc_map := head 5;
  enc_u8 := head 0;
  enc_u16 := head 0;
  enc_u64 := head 0;
  enc_bytes b := head 2 (lenN b) ++ b;
  enc_str s := head 3 (lenN s) ++ s;
  dec_array := read_count 4;
  dec_map := read_count 5;
  dec_u8 := read_uint 255;
  dec_u16 := read_uint u16_max;
  dec_u64 := read_uint u64_max;
  dec_bytes := read_string 2;
  dec_str := read_text;
}.

Lemma read_head_lead m i :
  m < 8 → i < 32 →
  Byte.to_N (byte_of (m * 32 + i)) / 32 = m ∧ Byte.to_N (byte_of (m * 32 + i)) mod 32 = i.
Proof.
  intros Hm Hi. rewrite to_N_byte_of, N.mod_small by lia. split.
  - symmetry. apply (N.div_unique _ _ _ i); lia.
  - symmetry. apply (N.mod_unique _ _ m); lia.
Qed.

Lemma read_head_head m n r :
  m < 8 → n < u64_bound → read_head (head m n ++ r) = Some (m, Some n, r).
Proof.
  intros Hm Hn. unfold u64_bound in Hn. unfold head.
  destruct (N.ltb_spec n 24).
  { cbn [app read_head]. destruct (read_head_lead m n) as [-> ->]; [lia..|].
    by destruct (N.ltb_spec n 24); [|lia]. }
  repeat match goal with |- context [if n <? ?k then _ else _] =>
    destruct (N.ltb_spec n k) end;
  cbn [app read_head];
  match goal with |- context [byte_of (m * 32 + ?i)] =>
    destruct (read_head_lead m i) as [-> ->]; [lia..|] end;
  cbn [N.ltb N.eqb N.compare Pos.compare Pos.compare_cont Pos.eqb];
  (rewrite split_at_checked_app by (rewrite length_be; done));
  cbn [mbind option_bind]; rewrite unbe_be_small by (cbn; lia); done.
Qed.

#[export] Instance cbor_laws : CborLaws cbor.
Proof.
  assert (∀ max n r, n <= max → max < u64_bound →
    read_uint max (head 0 n ++ r) = Some (n, r)) as Huint.
  { intros max n r Hn Hm. unfold read_uint. rewrite read_head_head by lia.
    by rewrite (proj2 (N.leb_le _ _) Hn). }
  split; cbn; intros; unfold read_count, read_string, read_text, read_string,
    u16_max, u64_max, u64_bound in *.
  all: try (apply Huint; unfold u64_bound; lia).
  - by rewrite read_head_head.
  - by rewrite read_head_head.
  - rewrite <- app_assoc, read_head_head by done. cbn.
    by apply split_at_checked_app.
  - rewrite <- app_assoc, read_head_head by done. cbn.
    rewrite split_at_checked_app by done. cbn. by rewrite H.
  - unfold read_uint in H.
    repeat case_match; simplify_eq. by b2p; lia.
  - repeat case_match; try done. simplify_eq/=.
    apply bind_Some in H as ([s' r'] & Hs & H). by case_match; simplify_eq.
  - rewrite !length_app. congruence.
  - by eexists.
Qed.

Lemma length_head m n :
  n < u64_bound →
  lenN (head m n) = if n <? 24 then 1 else if n <? 256 then 2 else if n <? 65536 then 3
                    else if n <? 4294967296 then 5 else 9.
Proof. intros H. unfold head. by repeat case_match; cbn [length]; rewrite ?length_be. Qed.

#[export] Instance cbor_sizes : CborSizes cbor.
Proof.
  split; cbn -[N.ltb]; intros; rewrite ?length_app, ?Nat2N.inj_add, length_head
    by (unfold u64_bound, u32_max in *; lia); unfold u32_max, u64_bound in *;
    repeat case_match; b2p; lia.
Qed.
End Reference.
