(* ===== verification/Format.v ===== *)
(** [hide-format/src/lib.rs]: protocol limits, the format errors, and the
    16-byte preamble every container starts with. *)
From S2P Require Import Prelude.
Local Open Scope N_scope.

Definition MAGIC : bytes := text "HIDE" ++ map byte_of [13; 10; 26; 10].
Definition PREAMBLE_LEN : N := 16.
Definition MAX_HEADER_LEN : N := 1024 * 1024.
Definition CHUNK_LEN : N := 65536.
Definition SUITE : N := 1.
Definition MAX_RECIPIENTS : N := 64.
Definition MAX_SIGNATURES : N := 1.
Definition MAX_METADATA_LEN : N := 262144.
Definition TAG_LEN : N := 16.
Definition FLAG_SIGNED : N := 1.
Definition LEGACY_SIGNED_MINOR : N := 2.
Definition CURRENT_MINOR : N := 1.
Definition MAX_EXTENSIONS : N := 16.
Definition MAX_EXTENSION_LEN : N := 65536.
Definition FIRST_IGNORABLE_KEY : N := 64.
Definition MAX_STANZA_ITEMS : N := 8.

Inductive FormatError :=
| MalformedHeader
| NonCanonical
| UnsupportedSuite
| InvalidMetadata
| InvalidContainer
| UnsupportedVersion
| UnsupportedFeature
| HeaderTooLarge.

#[export] Instance FormatError_eq_dec : EqDecision FormatError.
Proof. solve_decision. Defined.

Module Preamble.
Record Preamble := {
  header_len : N;  (* u32 *)
  minor : N;       (* u8 *)
  flags : N;       (* u8 *)
}.

#[export] Instance Preamble_eq_dec : EqDecision Preamble.
Proof. solve_decision. Defined.

(** Bits of a [u8] outside the one known flag. *)
Definition unknown_flags (flags : N) : N := N.land flags (N.lxor 255 FLAG_SIGNED).

Definition from_parts (header_len minor flags : N) : result FormatError Preamble :=
  refuse_if (minor =? 0) UnsupportedVersion;;
  refuse_if (negb (unknown_flags flags =? 0)
             || ((minor =? LEGACY_SIGNED_MINOR) && negb (flags =? 0)))
    UnsupportedFeature;;
  refuse_if ((header_len =? 0) || (MAX_HEADER_LEN <? header_len)) HeaderTooLarge;;
  Ok {| header_len := header_len mod 4294967296; minor := minor; flags := flags |}.

Definition with_signed (header_len : N) (signed : bool) : result FormatError Preamble :=
  from_parts header_len CURRENT_MINOR (if signed then FLAG_SIGNED else 0).

Definition new (header_len : N) : result FormatError Preamble :=
  with_signed header_len false.

Definition legacy_signed (header_len : N) : result FormatError Preamble :=
  from_parts header_len LEGACY_SIGNED_MINOR 0.

Definition is_legacy (p : Preamble) : bool := p.(minor) =? LEGACY_SIGNED_MINOR.

Definition is_signed (p : Preamble) : bool :=
  is_legacy p || negb (N.land p.(flags) FLAG_SIGNED =? 0).

Definition encode (p : Preamble) : bytes :=
  MAGIC ++ [byte_of 0; byte_of p.(minor); byte_of 1; byte_of p.(flags)]
    ++ u32be p.(header_len).

Definition signed_prefix (p : Preamble) : bytes := take 12 (encode p).

Definition decode (l : bytes) : result FormatError Preamble :=
  refuse_if (negb (lenN l =? PREAMBLE_LEN) || negb (bool_decide (take 8 l = MAGIC)))
    InvalidContainer;;
  refuse_if (negb (byte_at 8 l =? 0)) UnsupportedVersion;;
  refuse_if (negb (byte_at 10 l =? 1)) UnsupportedFeature;;
  let length := unbe (drop 12 l) in
  from_parts length (byte_at 9 l) (byte_at 11 l).

(** ** What a preamble the protocol admits looks like *)
Record valid (p : Preamble) : Prop := {
  valid_minor : 0 < p.(minor) < 256;
  valid_flags : p.(flags) = 0 ∨ (p.(flags) = FLAG_SIGNED ∧ p.(minor) ≠ LEGACY_SIGNED_MINOR);
  valid_length : 0 < p.(header_len) <= MAX_HEADER_LEN;
}.

Lemma known_flags_iff f : f < 256 → unknown_flags f = 0 ↔ f = 0 ∨ f = FLAG_SIGNED.
Proof.
  intros Hf. unfold unknown_flags, FLAG_SIGNED. split.
  - intros H. destruct (decide (f < 2)) as [|Hge]; [lia|].
    exfalso. revert H. change (N.lxor 255 1) with (N.shiftl (N.ones 7) 1).
    intros H.
    assert (N.land (N.shiftr f 1) (N.ones 7) = 0) as Hz.
    { apply (f_equal (λ x, N.shiftr x 1)) in H.
      rewrite N.shiftr_land, N.shiftr_shiftl_l in H by lia. exact H. }
    rewrite N.land_ones, N.shiftr_div_pow2 in Hz.
    rewrite N.mod_small in Hz by (apply N.Div0.div_lt_upper_bound; cbn; lia).
    apply N.div_small_iff in Hz; cbn in *; lia.
  - intros [-> | ->]; done.
Qed.

Lemma from_parts_Ok_iff l m f p :
  m < 256 → f < 256 →
  from_parts l m f = Ok p ↔
    p = {| header_len := l; minor := m; flags := f |} ∧ valid p.
Proof.
  intros Hm Hf. unfold from_parts, LEGACY_SIGNED_MINOR. split.
  - intros H. inv_ok. b2p.
    assert (l mod 4294967296 = l) as Hl
      by (unfold MAX_HEADER_LEN in *; apply N.mod_small; lia).
    rewrite Hl. split; [done|]. split; cbn; [lia| |lia].
    select (unknown_flags _ = 0) (fun H => apply known_flags_iff in H; [|done]).
    select (_ && _ = false) (fun H => apply andb_false_iff in H as [H|H]); b2p;
      unfold LEGACY_SIGNED_MINOR; naive_solver.
  - intros [-> [V1 V2 V3]]. cbn in *.
    rewrite (proj2 (N.eqb_neq m 0)) by lia.
    rewrite (proj2 (N.eqb_neq l 0)) by lia.
    rewrite (proj2 (N.ltb_ge MAX_HEADER_LEN l)) by lia.
    rewrite N.mod_small by (unfold MAX_HEADER_LEN in *; lia).
    unfold LEGACY_SIGNED_MINOR in *.
    destruct V2 as [-> | [-> V2]]; cbn; [by rewrite andb_false_r|].
    by rewrite (proj2 (N.eqb_neq m 2)).
Qed.

Lemma length_preamble_encode p : lenN (encode p) = PREAMBLE_LEN.
Proof. unfold encode. rewrite !length_app, length_u32be. done. Qed.

Lemma preamble_decode_fields l a b c d len :
  l = MAGIC ++ [a; b; c; d] ++ len → length len = 4%nat →
  decode l = (refuse_if (negb (Byte.to_N a =? 0)) UnsupportedVersion;;
              refuse_if (negb (Byte.to_N c =? 1)) UnsupportedFeature;;
              from_parts (unbe len) (Byte.to_N b) (Byte.to_N d)).
Proof. intros -> Hl. unfold decode. rewrite !length_app, Hl. done. Qed.

Lemma preamble_split l :
  lenN l = PREAMBLE_LEN → take 8 l = MAGIC →
  ∃ a b c d len, l = MAGIC ++ [a; b; c; d] ++ len ∧ length len = 4%nat.
Proof.
  intros Hl Hm. rewrite <- (take_drop 8 l), Hm.
  assert (length (drop 8 l) = 8%nat) as Hd
    by (rewrite length_drop; unfold PREAMBLE_LEN in Hl; lia).
  destruct (drop 8 l) as [|a [|b [|c [|d len]]]]; [done..|].
  exists a, b, c, d, len. split; [done|]. cbn in Hd. lia.
Qed.

Lemma preamble_decode_Ok l p : decode l = Ok p → encode p = l ∧ valid p.
Proof.
  intros H. pose proof H as H'. unfold decode in H'. inv_ok. b2p.
  destruct (preamble_split l) as (a & b & c & d & len & -> & Hlen); [done..|].
  rewrite (preamble_decode_fields _ a b c d len) in H by done. clear H'.
  pose proof (Byte.to_N_bounded b). pose proof (Byte.to_N_bounded d).
  inv_ok. b2p. apply from_parts_Ok_iff in H as [-> V]; [|lia..].
  split; [|done]. unfold encode. cbn [header_len minor flags].
  rewrite !byte_of_to_N. unfold u32be. rewrite (be_unbe_len 4) by done.
  rewrite <- (byte_of_to_N a), <- (byte_of_to_N c). congruence.
Qed.

Lemma preamble_decode_encode p : valid p → decode (encode p) = Ok p.
Proof.
  intros V. pose proof V as [V1 V2 V3].
  assert (p.(flags) < 256) by (unfold FLAG_SIGNED in V2; lia).
  rewrite (preamble_decode_fields _ (byte_of 0) (byte_of p.(minor)) (byte_of 1)
             (byte_of p.(flags)) (u32be p.(header_len))) by (done || apply length_be).
  rewrite !to_N_byte_of. cbn -[from_parts].
  rewrite unbe_u32be by (unfold MAX_HEADER_LEN, u32_max in *; lia).
  rewrite !N.mod_small by lia.
  apply from_parts_Ok_iff; [lia..|]. split; [by destruct p|done].
Qed.

(** A reader accepts a 16-byte string as a preamble exactly when it is
    the encoding of a preamble the protocol admits: magic, major 0, a
    non-zero minor, kind 1, no flag but SIGNED, no flag at all on the legacy
    minor 2, and a header length in 1..=MAX_HEADER_LEN. So decoding and
    encoding are inverse, one preamble has one encoding, and every unknown
    flag bit refuses the container. *)
Theorem preamble_decode_iff (l : bytes) (p : Preamble) :
  decode l = Ok p ↔ encode p = l ∧ valid p.
Proof. split; [apply preamble_decode_Ok|]. intros [<- V]. by apply preamble_decode_encode. Qed.
End Preamble.
