(* ===== verification/Codec.v ===== *)
(** [hide-format/src/codec.rs]: the protected header, the metadata and the
    outer header, encoded as canonical CBOR. Module [Header] models
    [ProtectedHeader], module [Outer] the MAC'd pair around it and module
    [Metadata] the decrypted metadata. *)
From S2P Require Import Prelude Utf8 Cbor Format.
Local Open Scope N_scope.

Definition XWING_TAG : N := 1.
Definition ENCAPSULATION_LEN : N := 1120.
Definition WRAPPED_CEK_LEN : N := 48.
Definition VERIFYING_KEY_LEN : N := 1984.
Definition SIGNATURE_LEN : N := 3373.

Record RecipientStanza := { encapsulation : bytes; wrapped_cek : bytes }.

Record UnknownStanza := { unknown_tag : N; unknown_fields : list bytes }.

Inductive Stanza :=
| XWing (stanza : RecipientStanza)
| Unknown (stanza : UnknownStanza).

Definition tag (s : Stanza) : N :=
  match s with XWing _ => XWING_TAG | Unknown s => s.(unknown_tag) end.

Definition fields (s : Stanza) : list bytes :=
  match s with
  | XWing s => [s.(encapsulation); s.(wrapped_cek)]
  | Unknown s => s.(unknown_fields)
  end.

Definition as_xwing (s : Stanza) : option RecipientStanza :=
  match s with XWing s => Some s | Unknown _ => None end.

Record Extension := { ext_key : N; ext_value : bytes }.

Record SignatureStanza := { verifying_key : bytes; signature : bytes }.

Record ProtectedHeader := {
  object_id : bytes;
  recipients : list Stanza;
  encrypted_metadata : bytes;
  signatures : list SignatureStanza;
  extensions : list Extension;
}.

#[export] Instance RecipientStanza_eq_dec : EqDecision RecipientStanza.
Proof. solve_decision. Defined.
#[export] Instance UnknownStanza_eq_dec : EqDecision UnknownStanza.
Proof. solve_decision. Defined.
#[export] Instance Stanza_eq_dec : EqDecision Stanza.
Proof. solve_decision. Defined.
#[export] Instance Extension_eq_dec : EqDecision Extension.
Proof. solve_decision. Defined.
#[export] Instance SignatureStanza_eq_dec : EqDecision SignatureStanza.
Proof. solve_decision. Defined.
#[export] Instance ProtectedHeader_eq_dec : EqDecision ProtectedHeader.
Proof. solve_decision. Defined.

(** The ranges the Rust types fix: [u16] tags and keys, [[u8; 32]] ids. *)
Definition stanza_typed (s : Stanza) : Prop :=
  match s with XWing _ => True | Unknown s => s.(unknown_tag) <= u16_max end.

Definition extension_typed (e : Extension) : Prop := e.(ext_key) <= u16_max.

Record header_typed (h : ProtectedHeader) : Prop := {
  typed_object_id : length h.(object_id) = 32%nat;
  typed_recipients : Forall stanza_typed h.(recipients);
  typed_extensions : Forall extension_typed h.(extensions);
}.

Section codec.
Context {C : Cbor}.

(** [decoder.read()?], with [From<minicbor::decode::Error>]. *)
Definition rd {A} (o : option (A * bytes)) : result FormatError (A * bytes) :=
  ok_or o MalformedHeader.

(** [key(&mut decoder, expected)] *)
Definition key (d : bytes) (expected : N) : result FormatError bytes :=
  '(k, d) ← rd (dec_u8 d);
  refuse_if (negb (k =? expected)) MalformedHeader;;
  Ok d.

Definition check_header_len (length : N) : result FormatError unit :=
  refuse_if ((length =? 0) || (MAX_HEADER_LEN <? length)) HeaderTooLarge.

Definition canonical (original : bytes) (consumed : N) (encoded : bytes)
  : result FormatError unit :=
  refuse_if (negb (consumed =? lenN original) || negb (bool_decide (original = encoded)))
    NonCanonical.

(** ** Stanzas, extensions and signatures *)

Definition encode_stanza (s : Stanza) : result FormatError bytes :=
  match s with
  | XWing s =>
      refuse_if (negb (lenN s.(encapsulation) =? ENCAPSULATION_LEN)
                 || negb (lenN s.(wrapped_cek) =? WRAPPED_CEK_LEN)) MalformedHeader;;
      Ok (enc_array 3 ++ enc_u64 XWING_TAG
            ++ enc_bytes s.(encapsulation) ++ enc_bytes s.(wrapped_cek))
  | Unknown s =>
      refuse_if ((s.(unknown_tag) <=? XWING_TAG)
                 || (MAX_STANZA_ITEMS <=? lenN s.(unknown_fields))
                 || existsb (λ f, MAX_EXTENSION_LEN <? lenN f) s.(unknown_fields))
        MalformedHeader;;
      Ok (enc_array (1 + lenN s.(unknown_fields)) ++ enc_u16 s.(unknown_tag)
            ++ concat (map enc_bytes s.(unknown_fields)))
  end.

Definition decode_field (d : bytes) : result FormatError (bytes * bytes) :=
  '(field, d) ← rd (dec_bytes d);
  refuse_if (MAX_EXTENSION_LEN <? lenN field) MalformedHeader;;
  Ok (field, d).

Definition decode_stanza (d : bytes) : result FormatError (Stanza * bytes) :=
  '(items, d) ← rd (dec_array d);
  items ← ok_or items MalformedHeader;
  refuse_if (negb ((1 <=? items) && (items <=? MAX_STANZA_ITEMS))) MalformedHeader;;
  '(tag, d) ← rd (dec_u64 d);
  if tag =? XWING_TAG then
    refuse_if (negb (items =? 3)) MalformedHeader;;
    '(encapsulation, d) ← rd (dec_bytes d);
    '(wrapped_cek, d) ← rd (dec_bytes d);
    refuse_if (negb (lenN encapsulation =? ENCAPSULATION_LEN)
               || negb (lenN wrapped_cek =? WRAPPED_CEK_LEN)) MalformedHeader;;
    Ok (XWing {| encapsulation := encapsulation; wrapped_cek := wrapped_cek |}, d)
  else
    refuse_if (u16_max <? tag) MalformedHeader;;
    refuse_if (tag =? 0) MalformedHeader;;
    '(fields, d) ← repeat_read decode_field (N.to_nat (items - 1)) d;
    Ok (Unknown {| unknown_tag := tag; unknown_fields := fields |}, d).

Fixpoint check_extensions_from (previous : N) (l : list Extension)
  : result FormatError unit :=
  match l with
  | [] => Ok tt
  | e :: l =>
      refuse_if ((e.(ext_key) <? FIRST_IGNORABLE_KEY) || (e.(ext_key) <=? previous)
                 || (MAX_EXTENSION_LEN <? lenN e.(ext_value))) MalformedHeader;;
      check_extensions_from e.(ext_key) l
  end.

Definition check_extensions (l : list Extension) : result FormatError unit :=
  refuse_if (MAX_EXTENSIONS <? lenN l) MalformedHeader;;
  check_extensions_from 0 l.

Definition encode_extension (e : Extension) : bytes :=
  enc_u16 e.(ext_key) ++ enc_bytes e.(ext_value).

(** One iteration of the loop of [decode_extensions]; the state is the
    previous key and the decoder. *)
Definition decode_extension (st : N * bytes)
  : result FormatError (Extension * (N * bytes)) :=
  let '(previous, d) := st in
  '(key, d) ← rd (dec_u64 d);
  refuse_if (key <=? previous) MalformedHeader;;
  refuse_if (key <? FIRST_IGNORABLE_KEY) UnsupportedFeature;;
  refuse_if (u16_max <? key) MalformedHeader;;
  '(value, d) ← rd (dec_bytes d);
  refuse_if (MAX_EXTENSION_LEN <? lenN value) MalformedHeader;;
  Ok ({| ext_key := key; ext_value := value |}, (key, d)).

Definition decode_extensions (d : bytes) (count last_core : N)
  : result FormatError (list Extension * bytes) :=
  '(extensions, (_, d)) ← repeat_read decode_extension (N.to_nat count) (last_core, d);
  Ok (extensions, d).

(** The signature items, with the error their length check reports. *)
Definition encode_signature (e : FormatError) (s : SignatureStanza)
  : result FormatError bytes :=
  refuse_if (negb (lenN s.(verifying_key) =? VERIFYING_KEY_LEN)
             || negb (lenN s.(signature) =? SIGNATURE_LEN)) e;;
  Ok (enc_array 3 ++ enc_u8 1 ++ enc_bytes s.(verifying_key) ++ enc_bytes s.(signature)).

Definition decode_signature (d : bytes) : result FormatError (SignatureStanza * bytes) :=
  '(items, d) ← rd (dec_array d);
  refuse_if (negb (bool_decide (items = Some 3))) UnsupportedFeature;;
  '(kind, d) ← rd (dec_u8 d);
  refuse_if (negb (kind =? 1)) UnsupportedFeature;;
  '(verifying_key, d) ← rd (dec_bytes d);
  '(signature, d) ← rd (dec_bytes d);
  refuse_if (negb (lenN verifying_key =? VERIFYING_KEY_LEN)
             || negb (lenN signature =? SIGNATURE_LEN)) MalformedHeader;;
  Ok ({| verifying_key := verifying_key; signature := signature |}, d).
End codec.

(** * The protected header *)
Module Header.
Section header.
Context {C : Cbor}.

Definition encode_with_signatures (h : ProtectedHeader) (include : bool)
  : result FormatError bytes :=
  refuse_if (bool_decide (h.(recipients) = []) || (MAX_RECIPIENTS <? lenN h.(recipients)))
    MalformedHeader;;
  refuse_if (negb ((TAG_LEN <=? lenN h.(encrypted_metadata))
                   && (lenN h.(encrypted_metadata) <=? MAX_METADATA_LEN + TAG_LEN)))
    InvalidMetadata;;
  refuse_if (MAX_SIGNATURES <? lenN h.(signatures)) MalformedHeader;;
  map_err (λ _, MalformedHeader) (check_extensions h.(extensions));;
  stanzas ← collect encode_stanza h.(recipients);
  let signatures := if include then h.(signatures) else [] in
  encoded_signatures ← collect (encode_signature MalformedHeader) signatures;
  let out :=
    enc_map (5 + lenN h.(extensions)) ++ enc_u8 1 ++ enc_u16 SUITE
      ++ enc_u8 2 ++ enc_bytes h.(object_id)
      ++ enc_u8 3 ++ enc_array (lenN h.(recipients)) ++ concat stanzas
      ++ enc_u8 4 ++ enc_bytes h.(encrypted_metadata)
      ++ enc_u8 5 ++ enc_array (lenN signatures) ++ concat encoded_signatures
      ++ concat (map encode_extension h.(extensions)) in
  check_header_len (lenN out);;
  Ok out.

Definition encode (h : ProtectedHeader) : result FormatError bytes :=
  encode_with_signatures h true.

Definition signing_base (h : ProtectedHeader) : result FormatError bytes :=
  encode_with_signatures h false.

Definition decode (input : bytes) : result FormatError ProtectedHeader :=
  check_header_len (lenN input);;
  '(entries, d) ← rd (dec_map input);
  entries ← ok_or entries MalformedHeader;
  refuse_if (negb ((5 <=? entries) && (entries <=? 5 + MAX_EXTENSIONS))) MalformedHeader;;
  d ← key d 1;
  '(suite, d) ← rd (dec_u16 d);
  refuse_if (negb (suite =? SUITE)) UnsupportedSuite;;
  d ← key d 2;
  '(object_id, d) ← rd (dec_bytes d);
  refuse_if (negb (lenN object_id =? 32)) MalformedHeader;;
  d ← key d 3;
  '(count, d) ← rd (dec_array d);
  count ← ok_or count MalformedHeader;
  refuse_if ((count =? 0) || (MAX_RECIPIENTS <? count)) MalformedHeader;;
  '(recipients, d) ← repeat_read decode_stanza (N.to_nat count) d;
  d ← key d 4;
  '(metadata, d) ← rd (dec_bytes d);
  refuse_if (negb ((TAG_LEN <=? lenN metadata)
                   && (lenN metadata <=? MAX_METADATA_LEN + TAG_LEN))) InvalidMetadata;;
  d ← key d 5;
  '(signature_count, d) ← rd (dec_array d);
  signature_count ← ok_or signature_count MalformedHeader;
  refuse_if (MAX_SIGNATURES <? signature_count) MalformedHeader;;
  '(signatures, d) ← repeat_read decode_signature (N.to_nat signature_count) d;
  '(extensions, d) ←
    map_err (λ e, if bool_decide (e = UnsupportedFeature) then e else MalformedHeader)
      (decode_extensions d (entries - 5) 5);
  let header := {| object_id := object_id; recipients := recipients;
                   encrypted_metadata := metadata; signatures := signatures;
                   extensions := extensions |} in
  encoded ← encode header;
  canonical input (position input d) encoded;;
  Ok header.
End header.
End Header.

(** * The outer header: the protected bytes and their MAC *)
Module Outer.
Section outer.
Context {C : Cbor}.

Definition encode_header (protected mac : bytes) : result FormatError bytes :=
  check_header_len (lenN protected);;
  let out := enc_array 2 ++ enc_bytes protected ++ enc_bytes mac in
  check_header_len (lenN out);;
  Ok out.

Definition decode_header (input : bytes) : result FormatError (bytes * bytes) :=
  check_header_len (lenN input);;
  '(items, d) ← rd (dec_array input);
  refuse_if (negb (bool_decide (items = Some 2))) MalformedHeader;;
  '(protected, d) ← rd (dec_bytes d);
  '(mac, d) ← rd (dec_bytes d);
  refuse_if (negb (lenN mac =? 32)) MalformedHeader;;
  encoded ← encode_header protected mac;
  canonical input (position input d) encoded;;
  Ok (protected, mac).
End outer.
End Outer.

(** * The metadata *)
Record Metadata := {
  filename : option bytes;
  media_type : option bytes;
  meta_signature : option SignatureStanza;
  meta_extensions : list Extension;
}.

#[export] Instance Metadata_eq_dec : EqDecision Metadata.
Proof. solve_decision. Defined.

(** [Metadata::default()] *)
Definition default_metadata : Metadata :=
  {| filename := None; media_type := None; meta_signature := None; meta_extensions := [] |}.

(** [String]s are UTF-8 and extension keys are [u16]. *)
Record metadata_typed (m : Metadata) : Prop := {
  typed_filename : ∀ f, m.(filename) = Some f → utf8_valid f = true;
  typed_media_type : ∀ t, m.(media_type) = Some t → utf8_valid t = true;
  typed_meta_extensions : Forall extension_typed m.(meta_extensions);
}.

Module Metadata.
(** The part of a name before its first dot, [filename.split('.').next()]. *)
Fixpoint before_dot (s : bytes) : bytes :=
  match s with
  | [] => []
  | b :: s => if bool_decide (b = byte_of 46) then [] else b :: before_dot s
  end.

Definition reserved_stem (stem : bytes) : bool :=
  bool_decide (stem ∈ [text "CON"; text "PRN"; text "AUX"; text "NUL"])
  || ((lenN stem =? 4)
      && (starts_with (text "COM") stem || starts_with (text "LPT") stem)
      && ((49 <=? byte_at 3 stem) && (byte_at 3 stem <=? 57))).

(** The nine separators and wildcards no portable name may hold. *)
Definition forbidden_chars : list N := [60; 62; 58; 34; 47; 92; 124; 63; 42].

Definition ends_with_dot_or_space (s : bytes) : bool :=
  match last s with
  | Some b => bool_decide (b = byte_of 46 ∨ b = byte_of 32)
  | None => false
  end.

Definition validate_filename (f : bytes) : result FormatError unit :=
  let stem := to_ascii_uppercase (before_dot f) in
  refuse_if
    (bool_decide (f = []) || (255 <? lenN f)
     || bool_decide (f = text "." ∨ f = text "..")
     || ends_with_dot_or_space f
     || reserved_stem stem
     || existsb (λ c, is_control c || bool_decide (c ∈ forbidden_chars)) (chars f))
    InvalidMetadata.

Section metadata.
Context {C : Cbor}.

Definition encode_filename (f : option bytes) : result FormatError bytes :=
  match f with
  | Some f => validate_filename f;; Ok (enc_u8 1 ++ enc_str f)
  | None => Ok []
  end.

Definition encode_media_type (t : option bytes) : result FormatError bytes :=
  match t with
  | Some t =>
      refuse_if (bool_decide (t = []) || (255 <? lenN t)
                 || negb (forallb (λ b, (32 <=? Byte.to_N b) && (Byte.to_N b <=? 126)) t))
        InvalidMetadata;;
      Ok (enc_u8 2 ++ enc_str t)
  | None => Ok []
  end.

Definition encode_meta_signature (s : option SignatureStanza) : result FormatError bytes :=
  match s with
  | Some s => items ← encode_signature InvalidMetadata s; Ok (enc_u8 3 ++ items)
  | None => Ok []
  end.

(** [u64::from(o.is_some())] *)
Definition present {A} (o : option A) : N := match o with Some _ => 1 | None => 0 end.

Definition encode_with_signature (m : Metadata) (include : bool)
  : result FormatError bytes :=
  let signature := if include then m.(meta_signature) else None in
  map_err (λ _, InvalidMetadata) (check_extensions m.(meta_extensions));;
  name ← encode_filename m.(filename);
  media ← encode_media_type m.(media_type);
  sig ← encode_meta_signature signature;
  Ok (enc_map (present m.(filename) + present m.(media_type) + present signature
               + lenN m.(meta_extensions))
        ++ name ++ media ++ sig ++ concat (map encode_extension m.(meta_extensions))).

Definition encode (m : Metadata) : result FormatError bytes :=
  encode_with_signature m true.

Definition signing_base (m : Metadata) : result FormatError bytes :=
  encode_with_signature m false.

(** The core-field loop. Each iteration probes the next key; a key past 3
    starts the extension run and ends the loop. *)
Fixpoint decode_fields (remaining : nat) (previous : N) (m : Metadata) (d : bytes)
  : result FormatError (nat * N * Metadata * bytes) :=
  match remaining with
  | O => Ok (O, previous, m, d)
  | S rest =>
      '(field, _) ← rd (dec_u64 d);
      if 3 <? field then Ok (remaining, previous, m, d) else
      '(_, d) ← rd (dec_u64 d);
      refuse_if ((field <=? previous) || (field =? 0)) InvalidMetadata;;
      if field =? 3 then
        '(s, d) ← map_err (λ _, InvalidMetadata) (decode_signature d);
        decode_fields rest field
          {| filename := m.(filename); media_type := m.(media_type);
             meta_signature := Some s; meta_extensions := m.(meta_extensions) |} d
      else
        '(t, d) ← rd (dec_str d);
        refuse_if (255 <? lenN t) InvalidMetadata;;
        m ← (if field =? 1 then
               Ok {| filename := Some t; media_type := m.(media_type);
                     meta_signature := m.(meta_signature);
                     meta_extensions := m.(meta_extensions) |}
             else if field =? 2 then
               Ok {| filename := m.(filename); media_type := Some t;
                     meta_signature := m.(meta_signature);
                     meta_extensions := m.(meta_extensions) |}
             else Err InvalidMetadata);
        decode_fields rest field m d
  end.

Definition decode (input : bytes) : result FormatError Metadata :=
  refuse_if (MAX_METADATA_LEN <? lenN input) InvalidMetadata;;
  '(count, d) ← rd (dec_map input);
  count ← ok_or count InvalidMetadata;
  refuse_if (3 + MAX_EXTENSIONS <? count) InvalidMetadata;;
  '(remaining, previous, m, d) ← decode_fields (N.to_nat count) 0 default_metadata d;
  '(extensions, d) ←
    map_err (λ e, if bool_decide (e = UnsupportedFeature) then e else InvalidMetadata)
      (decode_extensions d (N.of_nat remaining) previous);
  let m := {| filename := m.(filename); media_type := m.(media_type);
              meta_signature := m.(meta_signature); meta_extensions := extensions |} in
  encoded ← encode m;
  canonical input (position input d) encoded;;
  Ok m.
End metadata.
End Metadata.

(** Unfolds the limits of the format; reads encoded items off the input. *)
Ltac limits := unfold XWING_TAG, ENCAPSULATION_LEN, WRAPPED_CEK_LEN, VERIFYING_KEY_LEN,
  SIGNATURE_LEN, MAX_STANZA_ITEMS, MAX_EXTENSION_LEN, MAX_EXTENSIONS, MAX_RECIPIENTS,
  MAX_SIGNATURES, MAX_METADATA_LEN, TAG_LEN, SUITE, FIRST_IGNORABLE_KEY, u16_max,
  u64_bound in *.
Ltac read := repeat (progress (rewrite <- ?app_assoc; unfold rd; autorewrite with cbor;
  cbn [mbind result_mbind result_bind ok_or])); limits.

(** * Reading back what was written *)
Section codec_laws.
Context {C : Cbor} {L : CborLaws C}.

Lemma key_enc k r : k <= 255 → key (enc_u8 k ++ r) k = Ok r.
Proof. intros. unfold key, rd. autorewrite with cbor. cbn. by rewrite N.eqb_refl. Qed.

Lemma decode_field_enc f r :
  lenN f <= MAX_EXTENSION_LEN → decode_field (enc_bytes f ++ r) = Ok (f, r).
Proof. limits. intros. unfold decode_field. read. limits. by pass. Qed.

Lemma decode_stanza_encode s e r :
  stanza_typed s → encode_stanza s = Ok e → decode_stanza (e ++ r) = Ok (s, r).
Proof.
  destruct s as [[enc cek]|[t fs]]; cbn -[existsb]; intros T H; inv_ok; b2p; limits;
    unfold decode_stanza; read.
  - limits. pass. read. rewrite N.eqb_refl. pass. read. pass. done.
  - limits. pass. read. limits. destruct (N.eqb_spec t 1); [lia|]. pass. pass.
    replace (N.to_nat (1 + lenN fs - 1)) with (length fs) by lia.
    rewrite (repeat_read_concat decode_field fs (map enc_bytes fs)); [done|].
    apply Forall2_fmap_r, Forall_Forall2_diag, Forall_forall.
    intros f Hf r'. apply decode_field_enc.
    select (existsb _ _ = false) (fun H => pose proof (existsb_false_elem _ _ f H Hf)).
    limits. lia.
Qed.

Lemma decode_signature_encode err s e r :
  encode_signature err s = Ok e → decode_signature (e ++ r) = Ok (s, r).
Proof.
  destruct s as [vk sg]. cbn. intros H. unfold encode_signature in H; cbn in H.
  inv_ok. b2p. limits. unfold decode_signature. read.
  rewrite bool_decide_eq_true_2 by done. cbn. read. pass. done.
Qed.

Lemma decode_extension_encode prev e r :
  FIRST_IGNORABLE_KEY <= e.(ext_key) → prev < e.(ext_key) → e.(ext_key) <= u16_max →
  lenN e.(ext_value) <= MAX_EXTENSION_LEN →
  decode_extension (prev, encode_extension e ++ r) = Ok (e, (e.(ext_key), r)).
Proof.
  destruct e as [k v]. cbn. intros. unfold decode_extension, encode_extension.
  cbn [ext_key ext_value]. read. pass. pass. pass. read. pass. done.
Qed.

Lemma decode_extensions_encode prev l r :
  check_extensions_from prev l = Ok tt → Forall extension_typed l →
  ∃ prev', repeat_read decode_extension (length l)
             (prev, concat (map encode_extension l) ++ r) = Ok (l, (prev', r)).
Proof.
  revert prev. induction l as [|e l IH]; intros prev H T; [by eexists|].
  inversion T as [|? ? Tk Tl]; subst. cbn in H. inv_ok. b2p.
  cbn [length repeat_read map concat]. rewrite <- app_assoc.
  rewrite decode_extension_encode by done. cbn [mbind result_mbind result_bind].
  destruct (IH e.(ext_key)) as [prev' ->]; [done..|]. by eexists.
Qed.

Lemma check_extensions_from_core prev prev' l :
  prev' < FIRST_IGNORABLE_KEY →
  check_extensions_from prev l = Ok tt → check_extensions_from prev' l = Ok tt.
Proof.
  intros Hp. destruct l as [|e l]; [done|]. cbn. intros H. inv_ok. b2p.
  limits. by pass.
Qed.

Lemma canonical_refl (e : bytes) : canonical e (position e []) e = Ok tt.
Proof.
  unfold canonical, position. rewrite bool_decide_eq_true_2 by done.
  replace (lenN e - lenN ([] : bytes)) with (lenN e) by (cbn; lia).
  by rewrite N.eqb_refl.
Qed.

Lemma decode_stanzas_encode l es r :
  Forall stanza_typed l → collect encode_stanza l = Ok es →
  repeat_read decode_stanza (length l) (concat es ++ r) = Ok (l, r).
Proof.
  intros T H. apply repeat_read_concat. apply collect_Ok_iff in H.
  induction H; inversion T; subst; constructor; eauto using decode_stanza_encode.
Qed.

Lemma decode_signatures_encode err l es r :
  collect (encode_signature err) l = Ok es →
  repeat_read decode_signature (length l) (concat es ++ r) = Ok (l, r).
Proof.
  intros H. apply repeat_read_concat. apply collect_Ok_iff in H.
  induction H; constructor; eauto using decode_signature_encode.
Qed.

(** The extension run of a map, whatever core key came before it. *)
Lemma decode_extension_run last l r :
  last < FIRST_IGNORABLE_KEY → Forall extension_typed l → check_extensions l = Ok tt →
  decode_extensions (concat (map encode_extension l) ++ r) (lenN l) last = Ok (l, r).
Proof.
  intros Hl T H. unfold check_extensions in H. inv_ok.
  unfold decode_extensions. rewrite Nat2N.id.
  destruct (decode_extensions_encode last l r) as [p ->]; [|done|done].
  by eapply check_extensions_from_core.
Qed.

Lemma header_decode_encode h b :
  header_typed h → Header.encode h = Ok b → Header.decode b = Ok h.
Proof.
  intros [To Tr Te] H. pose proof H as He.
  unfold Header.encode, Header.encode_with_signatures in H. inv_ok. b2p.
  match goal with H : check_extensions _ = Ok _ |- _ => rename H into Hx end.
  match goal with H : check_header_len _ = Ok _ |- _ => rename H into Hlen end.
  match goal with H : collect encode_stanza _ = Ok _ |- _ => rename H into Hst end.
  match goal with H : collect (encode_signature _) _ = Ok _ |- _ => rename H into Hsg end.
  pose proof Hx as Hx'. unfold check_extensions in Hx'. inv_ok. b2p.
  assert (lenN h.(recipients) ≠ 0) by (rewrite length_nil_iff; done).
  unfold Header.decode at 1. rewrite Hlen, bind_of_Ok. limits. read. pass.
  rewrite key_enc by lia. cbn [mbind result_mbind result_bind]. read. pass.
  rewrite key_enc by lia. cbn [mbind result_mbind result_bind]. read. pass.
  rewrite key_enc by lia. cbn [mbind result_mbind result_bind]. read. pass.
  rewrite Nat2N.id, (decode_stanzas_encode _ _ _ Tr Hst), bind_of_Ok.
  rewrite key_enc by lia. cbn [mbind result_mbind result_bind]. read. pass.
  rewrite key_enc by lia. cbn [mbind result_mbind result_bind]. read. pass.
  rewrite Nat2N.id, (decode_signatures_encode _ _ _ _ Hsg), bind_of_Ok.
  replace (5 + lenN (extensions h) - 5) with (lenN (extensions h)) by lia.
  rewrite <- (app_nil_r (concat (map encode_extension _))) at 1.
  rewrite (decode_extension_run 5) by done. cbn [map_err mbind result_mbind result_bind].
  destruct h; cbn [object_id recipients encrypted_metadata signatures extensions] in *.
  rewrite He, bind_of_Ok. by rewrite canonical_refl, bind_of_Ok.
Qed.

(** ** Metadata fields *)

Lemma validate_filename_length f : Metadata.validate_filename f = Ok tt → lenN f <= 255.
Proof. unfold Metadata.validate_filename. intros. inv_ok. b2p. lia. Qed.

Lemma decode_fields_filename rest prev m t r :
  prev < 1 → utf8_valid t = true → lenN t <= 255 →
  Metadata.decode_fields (S rest) prev m (enc_u8 1 ++ enc_str t ++ r) =
  Metadata.decode_fields rest 1
    {| filename := Some t; media_type := m.(media_type);
       meta_signature := m.(meta_signature); meta_extensions := m.(meta_extensions) |} r.
Proof.
  intros. cbn [Metadata.decode_fields]. read.
  rewrite (proj2 (N.ltb_ge 3 1)) by lia. read. pass.
  rewrite (proj2 (N.eqb_neq 1 3)) by lia. read. pass. done.
Qed.

Lemma decode_fields_media_type rest prev m t r :
  prev < 2 → utf8_valid t = true → lenN t <= 255 →
  Metadata.decode_fields (S rest) prev m (enc_u8 2 ++ enc_str t ++ r) =
  Metadata.decode_fields rest 2
    {| filename := m.(filename); media_type := Some t;
       meta_signature := m.(meta_signature); meta_extensions := m.(meta_extensions) |} r.
Proof.
  intros. cbn [Metadata.decode_fields]. read.
  rewrite (proj2 (N.ltb_ge 3 2)) by lia. read. pass.
  rewrite (proj2 (N.eqb_neq 2 3)) by lia. read. pass. done.
Qed.

Lemma decode_fields_signature rest prev m s err e r :
  prev < 3 → encode_signature err s = Ok e →
  Metadata.decode_fields (S rest) prev m (enc_u8 3 ++ e ++ r) =
  Metadata.decode_fields rest 3
    {| filename := m.(filename); media_type := m.(media_type);
       meta_signature := Some s; meta_extensions := m.(meta_extensions) |} r.
Proof.
  intros Hp He. cbn [Metadata.decode_fields]. read.
  rewrite (proj2 (N.ltb_ge 3 3)) by lia. read. pass.
  rewrite N.eqb_refl, (decode_signature_encode _ _ _ _ He). done.
Qed.

Lemma decode_fields_stop prev m l r :
  Forall extension_typed l → check_extensions l = Ok tt →
  Metadata.decode_fields (length l) prev m (concat (map encode_extension l) ++ r) =
  Ok (length l, prev, m, concat (map encode_extension l) ++ r).
Proof.
  intros T H. unfold check_extensions in H. inv_ok.
  destruct l as [|e l]; [done|]. cbn in H. inv_ok. b2p.
  inversion T as [|? ? Te _]; subst. unfold extension_typed in Te.
  cbn [length Metadata.decode_fields map concat]. unfold encode_extension. read.
  by rewrite (proj2 (N.ltb_lt 3 (ext_key e))) by lia.
Qed.

Lemma metadata_decode_encode m b :
  metadata_typed m → Metadata.encode m = Ok b → lenN b <= MAX_METADATA_LEN →
  Metadata.decode b = Ok m.
Proof.
  intros [Tf Tm Te] H Hlen. pose proof H as He.
  unfold Metadata.encode, Metadata.encode_with_signature in H. inv_ok.
  match goal with H : check_extensions _ = Ok _ |- _ => rename H into Hx end.
  pose proof Hx as Hx'. unfold check_extensions in Hx'. inv_ok. b2p.
  unfold Metadata.decode. limits. pass.
  destruct m as [f t sg xs]. cbn [filename media_type meta_signature meta_extensions] in *.
  assert (∀ p x, p < FIRST_IGNORABLE_KEY →
    decode_extensions (concat (map encode_extension xs)) (N.of_nat (length xs)) p
      = Ok (xs, []) ∧
    Metadata.decode_fields (length xs) p x (concat (map encode_extension xs))
      = Ok (length xs, p, x, concat (map encode_extension xs))) as Hrun.
  { intros p x Hp. rewrite <- (app_nil_r (concat _)). split.
    - by apply decode_extension_run.
    - by apply decode_fields_stop. }
  unfold FIRST_IGNORABLE_KEY in Hrun.
  rewrite dec_enc_map by (destruct f, t, sg; unfold Metadata.present, u64_bound; lia).
  cbn [rd ok_or mbind result_mbind result_bind].
  rewrite refuse_if_pass by (destruct f, t, sg; unfold Metadata.present; lia).
  rewrite bind_of_Ok.
  destruct f as [f|], t as [t|], sg as [sg|];
    cbn [Metadata.encode_filename Metadata.encode_media_type
         Metadata.encode_meta_signature Metadata.present] in *; inv_ok; b2p;
    repeat match goal with
    | H : Metadata.validate_filename _ = Ok _ |- _ =>
        apply validate_filename_length in H
    end;
    rewrite <- ?app_assoc in He |- *; rewrite ?app_nil_l in He |- *;
    match goal with |- context [N.to_nat (?a + ?b + ?c + lenN ?l)] =>
      replace (N.to_nat (a + b + c + lenN l))
        with (N.to_nat a + (N.to_nat b + (N.to_nat c + length l)))%nat by lia end;
    change (N.to_nat 1) with 1%nat; change (N.to_nat 0) with 0%nat; cbn [Nat.add];
    repeat first
      [ rewrite decode_fields_filename by (lia || eauto)
      | rewrite decode_fields_media_type by (lia || eauto)
      | erewrite decode_fields_signature by (eassumption || lia) ];
    match goal with |- context [Metadata.decode_fields (length xs) ?p ?x _] =>
      destruct (Hrun p x ltac:(lia)) as [Hext ->] end;
    rewrite bind_of_Ok, Hext;
    cbn [map_err default_metadata filename media_type meta_signature meta_extensions
         mbind result_mbind result_bind];
    (rewrite He, bind_of_Ok); by rewrite canonical_refl, bind_of_Ok.
Qed.

Lemma outer_decode_encode p m b :
  lenN m = 32 → Outer.encode_header p m = Ok b → Outer.decode_header b = Ok (p, m).
Proof.
  intros Hm H. pose proof H as He. unfold Outer.encode_header in H. inv_ok.
  match goal with H : check_header_len (lenN (_ ++ _)) = Ok _ |- _ => rename H into Hlen end.
  match goal with H : check_header_len (lenN p) = Ok _ |- _ => rename H into Hp end.
  unfold check_header_len in Hp. inv_ok. b2p. unfold MAX_HEADER_LEN in *.
  unfold Outer.decode_header at 1. rewrite Hlen, bind_of_Ok. read.
  rewrite bool_decide_eq_true_2 by done. cbn [negb refuse_if mbind result_mbind result_bind].
  rewrite <- (app_nil_r (enc_bytes m)) at 1. read. pass.
  rewrite He, bind_of_Ok. by rewrite canonical_refl, bind_of_Ok.
Qed.

(** ** What a decoder returned came from its encoder *)

Lemma canonical_Ok b n e : canonical b n e = Ok tt → b = e.
Proof. unfold canonical. intros. inv_ok. by b2p. Qed.

Lemma decode_stanza_typed d s d' : decode_stanza d = Ok (s, d') → stanza_typed s.
Proof.
  unfold decode_stanza, rd. intros H. inv_ok. case_match; inv_ok; [done|].
  b2p. done.
Qed.

Lemma decode_extensions_typed d n p l d' :
  decode_extensions d n p = Ok (l, d') → Forall extension_typed l.
Proof.
  unfold decode_extensions. intros H. inv_ok. eapply repeat_read_Forall; [|eassumption].
  intros [prev t] e [prev' t']. unfold decode_extension, rd. intros. inv_ok.
  b2p. done.
Qed.

Lemma header_decode_inv b h :
  Header.decode b = Ok h → header_typed h ∧ Header.encode h = Ok b.
Proof.
  unfold Header.decode, rd. intros H. inv_ok.
  match goal with H : canonical _ _ _ = Ok _ |- _ => apply canonical_Ok in H as -> end.
  split; [|done]. b2p. split; cbn.
  - lia.
  - eapply repeat_read_Forall; [|eassumption]. apply decode_stanza_typed.
  - by eapply decode_extensions_typed.
Qed.

Lemma outer_decode_inv b p m :
  Outer.decode_header b = Ok (p, m) → lenN m = 32 ∧ Outer.encode_header p m = Ok b.
Proof.
  unfold Outer.decode_header, rd. intros H. inv_ok.
  match goal with H : canonical _ _ _ = Ok _ |- _ => apply canonical_Ok in H as -> end.
  by b2p.
Qed.

(** The text fields the core loop stores are what [decoder.str()] returned. *)
Definition texts_valid (m : Metadata) : Prop :=
  (∀ f, m.(filename) = Some f → utf8_valid f = true) ∧
  (∀ t, m.(media_type) = Some t → utf8_valid t = true).

Lemma decode_fields_valid n p m d r :
  texts_valid m → Metadata.decode_fields n p m d = Ok r → texts_valid r.1.2.
Proof.
  revert p m d. induction n as [|n IH]; intros p m d V H; cbn in H; unfold rd in H.
  - by inv_ok.
  - inv_ok. case_match; [by inv_ok|]. inv_ok. case_match; inv_ok.
    + eapply IH; [|eassumption]. destruct V. by split.
    + match goal with H : dec_str _ = Some _ |- _ => apply dec_str_valid in H end.
      eapply IH; [|eassumption]. destruct V as [Vf Vt].
      repeat case_match; inv_ok; split; cbn; naive_solver.
Qed.

Lemma metadata_decode_inv b m :
  Metadata.decode b = Ok m →
  metadata_typed m ∧ lenN b <= MAX_METADATA_LEN ∧ Metadata.encode m = Ok b.
Proof.
  unfold Metadata.decode, rd. intros H. inv_ok.
  match goal with H : canonical _ _ _ = Ok _ |- _ => apply canonical_Ok in H as -> end.
  match goal with H : Metadata.decode_fields _ _ _ _ = Ok _ |- _ =>
    apply decode_fields_valid in H as [Hf Ht]; [|by split] end.
  b2p. split; [|done]. split; [done..|]. by eapply decode_extensions_typed.
Qed.
End codec_laws.

(** * Properties *)

(** A header without its signatures. *)
Definition unsigned (h : ProtectedHeader) : ProtectedHeader :=
  {| object_id := h.(object_id); recipients := h.(recipients);
     encrypted_metadata := h.(encrypted_metadata); signatures := [];
     extensions := h.(extensions) |}.

Definition unsigned_metadata (m : Metadata) : Metadata :=
  {| filename := m.(filename); media_type := m.(media_type); meta_signature := None;
     meta_extensions := m.(meta_extensions) |}.

(** A name that is safe to create in any directory, judged byte by byte: it
    holds no separator, wildcard or control byte and is no relative name. *)
Definition portable_name (f : bytes) : Prop :=
  1 <= lenN f <= 255 ∧
  Forall (λ b, 32 <= Byte.to_N b ∧ Byte.to_N b ≠ 127 ∧
               Byte.to_N b ∉ Metadata.forbidden_chars) f ∧
  f ≠ text "." ∧ f ≠ text ".." ∧ Metadata.ends_with_dot_or_space f = false ∧
  Metadata.reserved_stem (to_ascii_uppercase (Metadata.before_dot f)) = false.

Lemma validate_filename_portable f :
  utf8_valid f = true → Metadata.validate_filename f = Ok tt → portable_name f.
Proof.
  intros V H. unfold Metadata.validate_filename in H. inv_ok.
  repeat match goal with H : _ || _ = false |- _ => apply orb_false_iff in H as [? ?] end.
  b2p. unfold portable_name. split_and!; [|lia| |naive_solver..].
  { destruct f; [done|cbn; lia]. }
  match goal with H : existsb _ _ = false |- _ => rename H into Hc end.
  apply Forall_forall. intros b Hb.
  destruct (N.ltb_spec (Byte.to_N b) 128) as [Hlt|Hge].
  - pose proof (existsb_false_elem _ _ _ Hc (utf8_ascii_byte_is_char _ _ V Hb Hlt)) as Hx.
    cbn beta in Hx. apply orb_false_iff in Hx as [Hx Hf]. b2p.
    unfold is_control in Hx. split_and!; [lia..|done].
  - split_and!; [lia|lia|].
    unfold Metadata.forbidden_chars. rewrite !elem_of_cons, elem_of_nil. lia.
Qed.

Section properties.
Context {C : Cbor} {L : CborLaws C}.

Lemma header_signing_base_unsigned h :
  lenN h.(signatures) <= MAX_SIGNATURES →
  Header.signing_base h = Header.encode (unsigned h).
Proof.
  intros. unfold Header.signing_base, Header.encode, Header.encode_with_signatures.
  cbn [unsigned object_id recipients encrypted_metadata signatures extensions].
  by rewrite (refuse_if_pass (MAX_SIGNATURES <? lenN h.(signatures))) by lia.
Qed.

Lemma header_signing_base_few h b :
  Header.signing_base h = Ok b → lenN h.(signatures) <= MAX_SIGNATURES.
Proof.
  unfold Header.signing_base, Header.encode_with_signatures. intros. inv_ok. b2p. done.
Qed.

Lemma metadata_signing_base_unsigned m :
  Metadata.signing_base m = Metadata.encode (unsigned_metadata m).
Proof. done. Qed.

Lemma unsigned_typed h : header_typed h → header_typed (unsigned h).
Proof. intros []. by split. Qed.

(** C30. The protected header has one encoding: a reader accepts a byte
    string as a header exactly when the header, with fields in the ranges of
    their Rust types, encodes to that string. Non-canonical integers, trailing
    bytes, duplicate or unordered extension keys and every unknown critical
    field are therefore refused, and nothing a writer emits is. *)
Theorem header_decode_iff (b : bytes) (h : ProtectedHeader) :
  Header.decode b = Ok h ↔ header_typed h ∧ Header.encode h = Ok b.
Proof.
  split; [apply header_decode_inv|]. intros []. by apply header_decode_encode.
Qed.

(** Metadata has one encoding: a reader accepts exactly the encodings, no
    longer than MAX_METADATA_LEN, of well-typed metadata. *)
Theorem metadata_decode_iff (b : bytes) (m : Metadata) :
  Metadata.decode b = Ok m ↔
  metadata_typed m ∧ lenN b <= MAX_METADATA_LEN ∧ Metadata.encode m = Ok b.
Proof.
  split; [apply metadata_decode_inv|]. intros (? & ? & ?).
  by apply metadata_decode_encode.
Qed.

(** A filename that leaves the decoder is portable: whatever bytes an
    attacker put in the metadata, an opened file's name has between 1 and 255
    bytes, no separator, wildcard or control byte, is neither . nor .., does
    not end in a dot or a space and is no reserved device name. *)
Theorem decoded_filename_portable (b : bytes) (m : Metadata) (f : bytes) :
  Metadata.decode b = Ok m → m.(filename) = Some f → portable_name f.
Proof.
  intros H Hf. apply metadata_decode_inv in H as (T & _ & He).
  apply validate_filename_portable; [by apply (typed_filename m T)|].
  unfold Metadata.encode, Metadata.encode_with_signature in He. inv_ok.
  rewrite Hf in *. cbn in *. by inv_ok.
Qed.

(** What a public signature covers: two headers have the same signing
    base exactly when they agree on everything but the signatures. So adding
    a signature never changes what the others cover, and no byte of the rest
    can change under a signature. *)
Theorem signing_base_binds_header (h1 h2 : ProtectedHeader) (b : bytes) :
  header_typed h1 → header_typed h2 → lenN h2.(signatures) <= MAX_SIGNATURES →
  Header.signing_base h1 = Ok b →
  Header.signing_base h2 = Ok b ↔ unsigned h1 = unsigned h2.
Proof.
  intros T1 T2 N2 H1. pose proof (header_signing_base_few _ _ H1) as N1.
  rewrite header_signing_base_unsigned in H1 |- * by done. split.
  - intros H2. apply header_decode_encode in H1, H2; try by apply unsigned_typed.
    congruence.
  - by intros <-.
Qed.
End properties.

(** ** Witnesses, on the reference CBOR codec *)
Import Cbor.Reference.

Module Samples.
Definition header (sigs : list SignatureStanza) : ProtectedHeader :=
  {| object_id := replicate 32 (byte_of 7);
     recipients := [Unknown {| unknown_tag := 9; unknown_fields := [text "later"] |}];
     encrypted_metadata := replicate 20 (byte_of 1);
     signatures := sigs;
     extensions := [{| ext_key := 64; ext_value := text "x" |}] |}.

Definition some_signature : SignatureStanza :=
  {| verifying_key := []; signature := [] |}.

Definition metadata : Metadata :=
  {| filename := Some (text "report.pdf"); media_type := Some (text "application/pdf");
     meta_signature := None; meta_extensions := [{| ext_key := 65; ext_value := [] |}] |}.

(** The bytes of an encoding that is known to succeed. *)
Definition ok_bytes (r : result FormatError bytes) : bytes :=
  match r with Ok b => b | Err _ => [] end.
End Samples.

Lemma sample_header_typed sigs : header_typed (Samples.header sigs).
Proof.
  split; [done|..]; cbn; repeat constructor; cbn; unfold extension_typed, u16_max;
    cbn; lia.
Qed.

Lemma sample_metadata_typed : metadata_typed Samples.metadata.
Proof.
  split; cbn; [by intros ? [= <-]..|].
  repeat constructor. unfold extension_typed, u16_max. cbn. lia.
Qed.

Lemma header_decode_iff_witness :
  Header.decode (Samples.ok_bytes (Header.encode (Samples.header [])))
    = Ok (Samples.header []).
Proof.
  apply (proj2 (header_decode_iff _ _)). split; [apply sample_header_typed|].
  vm_compute. reflexivity.
Defined.

Lemma metadata_decode_iff_witness :
  Metadata.decode (Samples.ok_bytes (Metadata.encode Samples.metadata))
    = Ok Samples.metadata.
Proof.
  apply (proj2 (metadata_decode_iff _ _)). split_and!; [apply sample_metadata_typed|..].
  - vm_compute. discriminate.
  - vm_compute. reflexivity.
Defined.

Lemma decoded_filename_portable_witness : portable_name (text "report.pdf").
Proof.
  apply (decoded_filename_portable (Samples.ok_bytes (Metadata.encode Samples.metadata))
           Samples.metadata); [vm_compute; reflexivity|reflexivity].
Defined.

Lemma signing_base_binds_header_witness :
  Header.signing_base (Samples.header [Samples.some_signature])
    = Header.signing_base (Samples.header []).
Proof.
  assert (H : Header.signing_base (Samples.header [])
    = Ok (Samples.ok_bytes (Header.signing_base (Samples.header []))))
    by (vm_compute; reflexivity).
  rewrite H.
  apply (proj2 (signing_base_binds_header (Samples.header [])
    (Samples.header [Samples.some_signature]) _ (sample_header_typed _)
    (sample_header_typed _) ltac:(vm_compute; discriminate) H)).
  reflexivity.
Defined.
