(* ===== verification/Sign.v ===== *)
(** [hide-sign/src/lib.rs]: hybrid Ed25519 + ML-DSA-65 signatures. Class
    [SignatureScheme] is what the other crates use of it, with its laws in
    [SignatureLaws]; module [Hybrid] models the crate over the primitives of
    [ed25519_dalek], [ml_dsa] and [hkdf] (class [Primitives]) and discharges
    the laws; module [Toy] is a small concrete instance of the primitives. *)
From S2P Require Import Prelude.
Local Open Scope N_scope.

Definition SEED_LENGTH : N := 32.
Definition ED25519_PUBLIC_LEN : N := 32.
Definition ED25519_SIGNATURE_LEN : N := 64.
Definition ML_DSA_PUBLIC_LEN : N := 1952.
Definition ML_DSA_SIGNATURE_LEN : N := 3309.
Definition VERIFYING_KEY_LENGTH : N := ED25519_PUBLIC_LEN + ML_DSA_PUBLIC_LEN.
Definition SIGNATURE_LENGTH : N := ED25519_SIGNATURE_LEN + ML_DSA_SIGNATURE_LEN.

Definition ED25519_INFO : bytes := text "HIDE/0.5 identity ed25519".
Definition ML_DSA_INFO : bytes := text "HIDE/0.5 identity ml-dsa-65".
Definition RESERVED_CONTEXT_PREFIX : bytes := text "HIDE/".

Inductive SignError :=
| Verification
| InvalidLength (name : bytes) (expected actual : N)
| MalformedKey
| MalformedChallenge
| ReservedContext
| Random.

#[export] Instance SignError_eq_dec : EqDecision SignError.
Proof. solve_decision. Defined.

Definition require_length (name : bytes) (expected actual : N) : result SignError unit :=
  if expected =? actual then Ok tt else Err (InvalidLength name expected actual).

Definition is_reserved_context (context : bytes) : bool :=
  starts_with RESERVED_CONTEXT_PREFIX context.

(** The signed payload: the context, length-prefixed, then the message. *)
Definition bind (context message : bytes) : bytes :=
  u64be (lenN context) ++ context ++ message.

(** * What the other crates use: an identity that signs, a key that verifies *)
Class SignatureScheme := {
  SK : Type;
  VK : Type;
  verifying_key : SK → VK;
  sign : SK → bytes → bytes → bytes;
  verify : VK → bytes → bytes → bytes → result SignError unit;
  vk_to_bytes : VK → bytes;
  vk_from_bytes : bytes → result SignError VK;
}.

Class SignatureLaws (S : SignatureScheme) : Prop := {
  verify_sign sk c m : verify (verifying_key sk) c m (sign sk c m) = Ok tt;
  length_sign sk c m : lenN (sign sk c m) = SIGNATURE_LENGTH;
  length_vk_to_bytes k : lenN (vk_to_bytes k) = VERIFYING_KEY_LENGTH;
  vk_from_to_bytes k : vk_from_bytes (vk_to_bytes k) = Ok k;
  vk_to_from_bytes b k : vk_from_bytes b = Ok k → vk_to_bytes k = b;
  verify_length k c m s : verify k c m s = Ok tt → lenN s = SIGNATURE_LENGTH;
}.

(** [PartialEq for VerifyingIdentity] compares the encoded bytes. *)
Definition vk_eqb `{SignatureScheme} (a b : VK) : bool :=
  bool_decide (vk_to_bytes a = vk_to_bytes b).

Lemma vk_to_bytes_inj `{SignatureLaws} a b : vk_to_bytes a = vk_to_bytes b → a = b.
Proof.
  intros E. pose proof (vk_from_to_bytes a) as Ha.
  rewrite E, vk_from_to_bytes in Ha. congruence.
Qed.

Lemma vk_eqb_true_iff `{SignatureLaws} a b : vk_eqb a b = true ↔ a = b.
Proof.
  unfold vk_eqb. rewrite bool_decide_eq_true. split; [apply vk_to_bytes_inj|by intros ->].
Qed.

#[export] Instance VK_eq_dec `{SignatureLaws} : EqDecision VK.
Proof.
  intros a b. destruct (decide (vk_to_bytes a = vk_to_bytes b)) as [E|E].
  - left. by apply vk_to_bytes_inj.
  - right. congruence.
Defined.

(** * The hybrid construction *)
Class Primitives := {
  EdVK : Type;
  (** [SigningKey::from_bytes(seed)] is its seed; the key and the signature it gives. *)
  ed_verifying_key : bytes → EdVK;
  ed_sign : bytes → bytes → bytes;
  ed_verify_strict : EdVK → bytes → bytes → bool;
  ed_from_bytes : bytes → option EdVK;
  ed_as_bytes : EdVK → bytes;
  MlVK : Type;
  MlSignature : Type;
  ml_verifying_key : bytes → MlVK;
  ml_sign : bytes → bytes → MlSignature;
  ml_verify : MlVK → bytes → MlSignature → bool;
  ml_signature_encode : MlSignature → bytes;
  ml_signature_decode : bytes → option MlSignature;
  ml_new : bytes → MlVK;
  ml_encode : MlVK → bytes;
  (** [Hkdf::<Sha256>::from_prk(prk).expand(info, &mut [0; n])] *)
  hkdf_expand : bytes → bytes → N → bytes;
}.

Class PrimitivesLaws (P : Primitives) : Prop := {
  ed_correct s m : ed_verify_strict (ed_verifying_key s) m (ed_sign s m) = true;
  ed_sign_length s m : lenN (ed_sign s m) = ED25519_SIGNATURE_LEN;
  ed_bytes_length k : lenN (ed_as_bytes k) = ED25519_PUBLIC_LEN;
  ed_from_as k : ed_from_bytes (ed_as_bytes k) = Some k;
  ed_as_from b k : ed_from_bytes b = Some k → ed_as_bytes k = b;
  ml_correct s m : ml_verify (ml_verifying_key s) m (ml_sign s m) = true;
  ml_sig_roundtrip s : ml_signature_decode (ml_signature_encode s) = Some s;
  ml_sig_length s : lenN (ml_signature_encode s) = ML_DSA_SIGNATURE_LEN;
  ml_key_length k : lenN (ml_encode k) = ML_DSA_PUBLIC_LEN;
  ml_new_encode k : ml_new (ml_encode k) = k;
  ml_encode_new b : lenN b = ML_DSA_PUBLIC_LEN → ml_encode (ml_new b) = b;
}.

Module Hybrid.
Section hybrid.
Context {P : Primitives}.

Definition derive (seed info : bytes) : bytes := hkdf_expand seed info 32.

(** [ed25519] and [ml_dsa] are the seeds the library's signing keys hold. *)
Record SigningIdentity := { seed : bytes; ed25519 : bytes; ml_dsa : bytes }.

Record VerifyingIdentity := { ed25519_key : EdVK; ml_dsa_key : MlVK }.

Definition from_seed (seed : bytes) : SigningIdentity :=
  {| seed := seed; ed25519 := derive seed ED25519_INFO; ml_dsa := derive seed ML_DSA_INFO |}.

Definition from_bytes (b : bytes) : result SignError SigningIdentity :=
  require_length (text "signing seed") SEED_LENGTH (lenN b);;
  Ok (from_seed b).

(** [random] is what [getrandom::fill] gives, if it succeeds. *)
Definition generate (random : option bytes) : result SignError SigningIdentity :=
  seed ← ok_or random Random;
  Ok (from_seed seed).

Definition to_bytes (i : SigningIdentity) : bytes := i.(seed).

Definition verifying_key (i : SigningIdentity) : VerifyingIdentity :=
  {| ed25519_key := ed_verifying_key i.(ed25519);
     ml_dsa_key := ml_verifying_key i.(ml_dsa) |}.

Definition sign (i : SigningIdentity) (context message : bytes) : bytes :=
  let payload := bind context message in
  ed_sign i.(ed25519) payload ++ ml_signature_encode (ml_sign i.(ml_dsa) payload).

Definition sign_application (i : SigningIdentity) (context message : bytes)
  : result SignError bytes :=
  refuse_if (is_reserved_context context) ReservedContext;;
  Ok (sign i context message).

Definition ed25519_seed (i : SigningIdentity) : bytes := i.(ed25519).

Definition key_from_bytes (b : bytes) : result SignError VerifyingIdentity :=
  require_length (text "verifying key") VERIFYING_KEY_LENGTH (lenN b);;
  let ed := take 32 b in
  let ml := drop 32 b in
  ed25519 ← ok_or (ed_from_bytes ed) MalformedKey;
  Ok {| ed25519_key := ed25519; ml_dsa_key := ml_new ml |}.

Definition key_to_bytes (k : VerifyingIdentity) : bytes :=
  ed_as_bytes k.(ed25519_key) ++ ml_encode k.(ml_dsa_key).

Definition ed25519_bytes (k : VerifyingIdentity) : bytes := ed_as_bytes k.(ed25519_key).

Definition verify (k : VerifyingIdentity) (context message signature : bytes)
  : result SignError unit :=
  require_length (text "signature") SIGNATURE_LENGTH (lenN signature);;
  let payload := bind context message in
  let ed := take 64 signature in
  let ml := drop 64 signature in
  let classical := ed_verify_strict k.(ed25519_key) payload ed in
  let quantum :=
    match ml_signature_decode ml with
    | Some parsed => ml_verify k.(ml_dsa_key) payload parsed
    | None => false
    end in
  if classical && quantum then Ok tt else Err Verification.

#[export] Instance scheme : SignatureScheme := {
  SK := SigningIdentity;
  VK := VerifyingIdentity;
  Sign.verifying_key := verifying_key;
  Sign.sign := sign;
  Sign.verify := verify;
  vk_to_bytes := key_to_bytes;
  vk_from_bytes := key_from_bytes;
}.

Context {L : PrimitivesLaws P}.

Lemma require_length_Ok_iff n a b u : require_length n a b = Ok u ↔ a = b.
Proof. unfold require_length. destruct u, (N.eqb_spec a b); split; congruence. Qed.

Lemma sign_halves i c m :
  take 64 (sign i c m) = ed_sign i.(ed25519) (bind c m) ∧
  drop 64 (sign i c m) = ml_signature_encode (ml_sign i.(ml_dsa) (bind c m)).
Proof.
  pose proof (ed_sign_length i.(ed25519) (bind c m)) as E.
  unfold ED25519_SIGNATURE_LEN in E.
  split; [apply take_app_len|apply drop_app_len]; lia.
Qed.

Lemma hybrid_length_sign i c m : lenN (sign i c m) = SIGNATURE_LENGTH.
Proof.
  unfold sign, SIGNATURE_LENGTH. rewrite length_app.
  pose proof (ed_sign_length i.(ed25519) (bind c m)).
  pose proof (ml_sig_length (ml_sign i.(ml_dsa) (bind c m))). lia.
Qed.

Lemma key_halves k :
  take 32 (key_to_bytes k) = ed_as_bytes k.(ed25519_key) ∧
  drop 32 (key_to_bytes k) = ml_encode k.(ml_dsa_key).
Proof.
  pose proof (ed_bytes_length k.(ed25519_key)) as E. unfold ED25519_PUBLIC_LEN in E.
  split; [apply take_app_len|apply drop_app_len]; lia.
Qed.

Lemma hybrid_verify_Ok k c m s :
  verify k c m s = Ok tt ↔
  lenN s = SIGNATURE_LENGTH ∧
  ed_verify_strict k.(ed25519_key) (bind c m) (take 64 s) = true ∧
  ∃ parsed, ml_signature_decode (drop 64 s) = Some parsed ∧
            ml_verify k.(ml_dsa_key) (bind c m) parsed = true.
Proof.
  unfold verify. rewrite bind_Ok_iff. split.
  - intros ([] & Hl & H). apply require_length_Ok_iff in Hl.
    destruct (ed_verify_strict _ _ _); cbn in H; [|done].
    destruct (ml_signature_decode _) as [p|]; cbn in H; [|done].
    case_match; [|done]. split_and!; eauto.
  - intros (Hl & He & p & Hp & Hm). exists tt.
    rewrite require_length_Ok_iff. split; [done|]. by rewrite Hp, He, Hm.
Qed.

Lemma key_from_bytes_Ok b k :
  key_from_bytes b = Ok k ↔ key_to_bytes k = b.
Proof.
  unfold key_from_bytes. rewrite bind_Ok_iff. split.
  - intros ([] & Hl & H). apply require_length_Ok_iff in Hl. inv_ok.
    match goal with H : ed_from_bytes _ = Some _ |- _ => apply ed_as_from in H as E end.
    unfold key_to_bytes. cbn. rewrite E, ml_encode_new, take_drop; [done|].
    rewrite length_drop. unfold VERIFYING_KEY_LENGTH, ED25519_PUBLIC_LEN in *. lia.
  - intros <-. exists tt. destruct (key_halves k) as [-> ->]. split.
    + apply require_length_Ok_iff. unfold key_to_bytes, VERIFYING_KEY_LENGTH.
      rewrite length_app. pose proof (ed_bytes_length k.(ed25519_key)).
      pose proof (ml_key_length k.(ml_dsa_key)). lia.
    + rewrite ed_from_as. cbn. rewrite ml_new_encode. by destruct k.
Qed.

#[export] Instance scheme_laws : SignatureLaws scheme.
Proof.
  split; cbn; intros.
  - apply hybrid_verify_Ok. destruct (sign_halves sk c m) as [-> ->].
    split; [apply hybrid_length_sign|]. split; [apply ed_correct|].
    eexists. split; [apply ml_sig_roundtrip|apply ml_correct].
  - apply hybrid_length_sign.
  - unfold key_to_bytes, VERIFYING_KEY_LENGTH. rewrite length_app.
    pose proof (ed_bytes_length k.(ed25519_key)).
    pose proof (ml_key_length k.(ml_dsa_key)). lia.
  - by apply key_from_bytes_Ok.
  - by apply key_from_bytes_Ok.
  - by apply hybrid_verify_Ok in H as [? _].
Qed.
End hybrid.
End Hybrid.

(** * Domain separation *)

Lemma bind_inj c m c' m' :
  lenN c < u64_bound → lenN c' < u64_bound → bind c m = bind c' m' → c = c' ∧ m = m'.
Proof.
  unfold bind. intros Hc Hc' E.
  apply app_inj_len_1 in E as [El E]; [|by rewrite !length_u64be].
  apply u64be_inj in El; [|done..]. apply app_inj_len_1 in E; [done|lia].
Qed.

Section properties.
Context {P : Primitives} {L : PrimitivesLaws P}.

(** A hybrid signature verifies exactly when it has its exact length and
    both halves verify over the length-prefixed payload: neither algorithm
    alone is enough, and a truncated, extended or unparsable half is refused. *)
Theorem hybrid_verify_iff (k : Hybrid.VerifyingIdentity) (context message s : bytes) :
  Hybrid.verify k context message s = Ok tt ↔
  lenN s = SIGNATURE_LENGTH ∧
  ed_verify_strict (Hybrid.ed25519_key k) (bind context message) (take 64 s) = true ∧
  ∃ parsed, ml_signature_decode (drop 64 s) = Some parsed ∧
            ml_verify (Hybrid.ml_dsa_key k) (bind context message) parsed = true.
Proof. apply Hybrid.hybrid_verify_Ok. Qed.

(** Everything an identity signs verifies under its key, also after the
    identity went through its 32-byte backup and the key through its bytes. *)
Theorem signed_verifies_after_backup (seed context message : bytes) :
  lenN seed = SEED_LENGTH →
  ∃ i, Hybrid.from_bytes seed = Ok i ∧
       Hybrid.from_bytes (Hybrid.to_bytes i) = Ok i ∧
       ∃ k, Hybrid.key_from_bytes (Hybrid.key_to_bytes (Hybrid.verifying_key i)) = Ok k ∧
            Hybrid.verify k context message (Hybrid.sign i context message) = Ok tt.
Proof.
  intros Hl. exists (Hybrid.from_seed seed).
  assert (Hybrid.from_bytes seed = Ok (Hybrid.from_seed seed)) as E.
  { unfold Hybrid.from_bytes, require_length. by rewrite Hl. }
  split_and!; [done|done|]. eexists. split; [by apply Hybrid.key_from_bytes_Ok|].
  apply (@verify_sign _ Hybrid.scheme_laws).
Qed.

(** No signature obtained through [sign_application] signs a payload of
    the protocol: the reserved contexts are refused, and for every context
    that is accepted the signed bytes differ from those of every message
    under every reserved context. *)
Theorem application_never_signs_protocol
    (i : Hybrid.SigningIdentity) (context message s context' message' : bytes) :
  lenN context < u64_bound → lenN context' < u64_bound →
  Hybrid.sign_application i context message = Ok s →
  is_reserved_context context' = true →
  s = Hybrid.sign i context message ∧ bind context message ≠ bind context' message'.
Proof.
  intros Hc Hc' H Hr. unfold Hybrid.sign_application in H. inv_ok. split; [done|].
  intros E. apply bind_inj in E as [-> _]; [|done..]. congruence.
Qed.
End properties.

(** * A concrete instance, for the witnesses

    Keys and signatures are the seed and the message padded to length. *)
Import Padded.

Module Toy.
Definition ed_mac (seed m : bytes) : bytes := pad 64 (take 32 (pad 32 seed) ++ m).
Definition ml_mac (seed m : bytes) : fixed 3309 := fix_to 3309 (pad 32 seed ++ m).

#[export] Instance primitives : Primitives := {
  EdVK := fixed 32;
  ed_verifying_key := fix_to 32;
  ed_sign := ed_mac;
  ed_verify_strict k m s := bool_decide (s = ed_mac (proj1_sig k) m);
  ed_from_bytes b := if lenN b =? 32 then Some (fix_to 32 b) else None;
  ed_as_bytes k := proj1_sig k;
  MlVK := fixed 1952;
  MlSignature := fixed 3309;
  ml_verifying_key s := fix_to 1952 (pad 32 s);
  ml_sign := ml_mac;
  ml_verify k m s := bool_decide (proj1_sig s = proj1_sig (ml_mac (take 32 (proj1_sig k)) m));
  ml_signature_encode s := proj1_sig s;
  ml_signature_decode b := if lenN b =? 3309 then Some (fix_to 3309 b) else None;
  ml_new := fix_to 1952;
  ml_encode k := proj1_sig k;
  hkdf_expand prk info n := pad n (drop 20 info ++ prk);
}.

#[export] Instance primitives_laws : PrimitivesLaws primitives.
Proof.
  split; cbn -[pad N.eqb]; intros.
  - apply bool_decide_eq_true. unfold ed_mac. f_equal. f_equal. f_equal.
    by rewrite (pad_id _ (pad _ _)) by apply pad_length.
  - apply pad_length.
  - by destruct k.
  - rewrite (proj2 (N.eqb_eq _ _) (proj2_sig k)). f_equal. apply fix_to_id.
  - case_match; [|done]. simplify_eq. cbn. apply pad_id. lia.
  - apply bool_decide_eq_true. rewrite take_pad by lia.
    change (N.of_nat 32) with 32. by rewrite !(pad_id 32 (pad 32 s)) by apply pad_length.
  - rewrite (proj2 (N.eqb_eq _ _) (proj2_sig s)). f_equal. apply fix_to_id.
  - by destruct s.
  - by destruct k.
  - apply fix_to_id.
  - apply pad_id. done.
Qed.
End Toy.

(** ** Witnesses *)
Import Toy.

Lemma application_never_signs_protocol_witness :
  bind (text "app/login") [] ≠ bind (text "HIDE/x") [].
Proof.
  apply (application_never_signs_protocol (Hybrid.from_seed (replicate 32 Byte.x07))
    (text "app/login") [] (Hybrid.sign (Hybrid.from_seed (replicate 32 Byte.x07))
    (text "app/login") []) (text "HIDE/x") []);
    [vm_compute; reflexivity..].
Defined.

Lemma signed_verifies_after_backup_witness :
  ∃ i, Hybrid.from_bytes (replicate 32 Byte.x07) = Ok i ∧
       Hybrid.from_bytes (Hybrid.to_bytes i) = Ok i ∧
       ∃ k, Hybrid.key_from_bytes (Hybrid.key_to_bytes (Hybrid.verifying_key i)) = Ok k ∧
            Hybrid.verify k (text "c") (text "m") (Hybrid.sign i (text "c") (text "m")) = Ok tt.
Proof. apply signed_verifies_after_backup. reflexivity. Defined.

Lemma hybrid_verify_iff_witness :
  let i := Hybrid.from_seed (replicate 32 Byte.x07) in
  Hybrid.verify (Hybrid.verifying_key i) [] [] (text "short") ≠ Ok tt.
Proof. intros i H. apply (proj1 (hybrid_verify_iff _ _ _ _)) in H as [H _]. discriminate H. Defined.
