(* ===== verification/Challenge.v ===== *)
(** [hide-sign/src/challenge.rs]: challenges that prove possession of an
    identity to a live verifier, and the verifier's record of spent nonces. *)
From S2P Require Import Prelude Utf8 Sign.
Local Open Scope N_scope.

Definition CHALLENGE_CONTEXT : bytes := text "HIDE/0.5 challenge".
Definition NONCE_LENGTH : N := 32.

Record Challenge := {
  nonce : bytes;
  audience : bytes;
  issued_at : N;
  valid_for : N;
}.

#[export] Instance Challenge_eq_dec : EqDecision Challenge.
Proof. solve_decision. Defined.

(** The ranges of the Rust types. *)
Record challenge_typed (c : Challenge) : Prop := {
  typed_nonce : lenN c.(nonce) = NONCE_LENGTH;
  typed_audience : utf8_valid c.(audience) = true;
  typed_audience_length : lenN c.(audience) < u64_bound;
  typed_issued_at : c.(issued_at) < u64_bound;
  typed_valid_for : c.(valid_for) < u64_bound;
}.

(** [Challenge::new]; [random] is what [getrandom::fill] gives. *)
Definition new (random : option bytes) (audience : bytes) (now valid_for : N)
  : result SignError Challenge :=
  nonce ← ok_or random Random;
  Ok {| nonce := nonce; audience := audience; issued_at := now; valid_for := valid_for |}.

(** [self.issued_at.saturating_add(self.valid_for)] *)
Definition expires_at (c : Challenge) : N := N.min (c.(issued_at) + c.(valid_for)) u64_max.

Definition to_signed_bytes (c : Challenge) : bytes :=
  c.(nonce) ++ u64be (lenN c.(audience)) ++ c.(audience)
    ++ u64be c.(issued_at) ++ u64be c.(valid_for).

Definition encode (c : Challenge) : bytes := to_signed_bytes c.

(** [split_at_checked(n).ok_or(MalformedChallenge)?] *)
Definition split (n : N) (b : bytes) : result SignError (bytes * bytes) :=
  ok_or (split_at_checked n b) MalformedChallenge.

(** On a 64-bit target, where [usize::try_from(u64)] succeeds. *)
Definition decode (b : bytes) : result SignError Challenge :=
  '(nonce, rest) ← split NONCE_LENGTH b;
  '(length, rest) ← split 8 rest;
  '(audience, rest) ← split (unbe length) rest;
  '(issued_at, rest) ← split 8 rest;
  '(valid_for, rest) ← split 8 rest;
  refuse_if (negb (bool_decide (rest = []))) MalformedChallenge;;
  refuse_if (negb (utf8_valid audience)) MalformedChallenge;;
  Ok {| nonce := nonce; audience := audience;
        issued_at := unbe issued_at; valid_for := unbe valid_for |}.

Inductive ChallengeError := NotSigned | Expired | Replayed.

#[export] Instance ChallengeError_eq_dec : EqDecision ChallengeError.
Proof. solve_decision. Defined.

Definition SpentNonces := list (bytes * N).

Definition no_nonces : SpentNonces := [].

Definition forget_expired (now : N) (seen : SpentNonces) : SpentNonces :=
  List.filter (λ e, now <=? e.2) seen.

Section challenge.
Context {S : SignatureScheme}.

Definition answer (c : Challenge) (identity : SK) : bytes :=
  sign identity CHALLENGE_CONTEXT (to_signed_bytes c).

(** Returns the outcome and the record the call leaves. *)
Definition accept (seen : SpentNonces) (c : Challenge) (signature : bytes) (prover : VK)
    (now : N) : result ChallengeError unit * SpentNonces :=
  if expires_at c <? now then (Err Expired, seen) else
  match verify prover CHALLENGE_CONTEXT (to_signed_bytes c) signature with
  | Err _ => (Err NotSigned, seen)
  | Ok _ =>
      let seen := forget_expired now seen in
      if existsb (λ e, bool_decide (e.1 = c.(nonce))) seen then (Err Replayed, seen)
      else (Ok tt, seen ++ [(c.(nonce), expires_at c)])
  end.

(** A verifier over its lifetime: the calls it serves, each with the time on
    its clock, and the outcomes. *)
Record Call := {
  challenge : Challenge; answered : bytes; prover : VK; now : N;
}.

Fixpoint serve (seen : SpentNonces) (calls : list Call)
  : list (result ChallengeError unit) * SpentNonces :=
  match calls with
  | [] => ([], seen)
  | c :: calls =>
      let '(r, seen) := accept seen c.(challenge) c.(answered) c.(prover) c.(now) in
      let '(rs, seen) := serve seen calls in
      (r :: rs, seen)
  end.

(** ** The wire form *)

Lemma challenge_decode_encode c : challenge_typed c → decode (encode c) = Ok c.
Proof.
  intros [Hn Ha Hl Hi Hv]. unfold decode, encode, to_signed_bytes, split.
  rewrite split_at_checked_app by done. cbn [ok_or mbind result_mbind result_bind].
  rewrite split_at_checked_app by (by rewrite length_u64be). cbn [ok_or mbind result_mbind result_bind].
  rewrite split_at_checked_app by (by rewrite unbe_u64be). cbn [ok_or mbind result_mbind result_bind].
  rewrite split_at_checked_app by (by rewrite length_u64be). cbn [ok_or mbind result_mbind result_bind].
  rewrite <- (app_nil_r (u64be c.(valid_for))).
  rewrite split_at_checked_app by (by rewrite length_u64be). cbn [ok_or mbind result_mbind result_bind].
  rewrite bool_decide_eq_true_2 by done. cbn [negb refuse_if mbind result_mbind result_bind].
  rewrite Ha, !unbe_u64be by done. by destruct c.
Qed.

Lemma challenge_decode_inv b c : decode b = Ok c → challenge_typed c ∧ encode c = b.
Proof.
  unfold decode, split. intros H. inv_ok. b2p.
  repeat match goal with
  | H : split_at_checked _ _ = Some _ |- _ => apply split_at_checked_Some_iff in H as [? ?]
  end. subst.
  split.
  - split; cbn; try done; [|apply unbe_u64_bound; lia..].
    match goal with H : lenN ?a = unbe ?l |- _ => rewrite H; apply unbe_u64_bound; lia end.
  - unfold encode, to_signed_bytes. cbn.
    repeat match goal with H : lenN ?a = unbe ?l |- _ => rewrite H end.
    unfold u64be. by rewrite !be_unbe_len, app_nil_r by lia.
Qed.

(** ** The record of spent nonces *)

Lemma forget_expired_elem t seen e : e ∈ forget_expired t seen ↔ e ∈ seen ∧ t <= e.2.
Proof.
  unfold forget_expired. rewrite !list_elem_of_In, filter_In, N.leb_le. done.
Qed.

(** Entries of distinct challenges under one nonce never coexist. *)
Lemma accept_nodup seen c s p t :
  NoDup seen.*1 → NoDup (accept seen c s p t).2.*1.
Proof.
  intros H. unfold accept. case_match; [done|]. case_match; [|done].
  assert (NoDup (forget_expired t seen).*1) as Hf.
  { clear -H. induction seen as [|e seen IH]; [done|]. cbn in *.
    apply NoDup_cons in H as [He H]. case_match; [|by apply IH]. cbn.
    apply NoDup_cons. split; [|by apply IH].
    rewrite list_elem_of_fmap. intros (x & Hx & [Hin _]%forget_expired_elem).
    apply He. rewrite Hx. by apply list_elem_of_fmap_2. }
  case_match; [done|]. cbn. rewrite fmap_app. apply NoDup_app. split_and!; [done| |].
  - intros x Hx. cbn. rewrite list_elem_of_singleton. intros ->.
    apply list_elem_of_fmap in Hx as (e & Hx & He).
    match goal with H : existsb _ _ = false |- _ =>
      pose proof (existsb_false_elem _ _ e H He) as Hb end.
    cbn in Hb. apply bool_decide_eq_false in Hb. congruence.
  - cbn. apply NoDup_singleton.
Qed.

Lemma accept_Ok_iff seen c s p t :
  (accept seen c s p t).1 = Ok tt ↔
  t <= expires_at c ∧ is_ok (verify p CHALLENGE_CONTEXT (to_signed_bytes c) s) = true ∧
  ∀ e, e ∈ seen → e.1 = c.(nonce) → e.2 < t.
Proof.
  unfold accept. destruct (N.ltb_spec (expires_at c) t) as [Hx|Hx]; cbn.
  { split; [done|]. lia. }
  destruct (verify p CHALLENGE_CONTEXT (to_signed_bytes c) s); cbn; [|naive_solver].
  destruct (existsb _ _) eqn:E; cbn.
  - apply existsb_true_elem in E as (e & [He1 He2]%forget_expired_elem & Hn).
    apply bool_decide_eq_true in Hn. split; [done|]. intros (_ & _ & H).
    specialize (H e He1 Hn). lia.
  - split; [|done]. intros _. split_and!; [done..|]. intros e He Hn.
    destruct (N.ltb_spec e.2 t) as [|Hge]; [done|]. exfalso.
    pose proof (existsb_false_elem _ _ e E (proj2 (forget_expired_elem _ _ _) (conj He Hge))) as Hb.
    apply bool_decide_eq_false in Hb. by apply Hb.
Qed.

(** An entry stays until the clock passes its expiry. *)
Lemma accept_keeps seen c s p t e :
  e ∈ seen → t <= e.2 → e ∈ (accept seen c s p t).2.
Proof.
  intros He Ht. unfold accept. case_match; [done|]. case_match; [|done].
  assert (e ∈ forget_expired t seen) by by apply forget_expired_elem.
  case_match; [done|]. cbn. rewrite elem_of_app. by left.
Qed.

Lemma accept_records seen c s p t :
  (accept seen c s p t).1 = Ok tt → (c.(nonce), expires_at c) ∈ (accept seen c s p t).2.
Proof.
  unfold accept. case_match; [done|]. case_match; [|done]. case_match; [done|].
  intros _. cbn. rewrite elem_of_app, list_elem_of_singleton. by right.
Qed.

(** The clock of the calls never runs backwards. *)
Fixpoint clocked (from : N) (calls : list Call) : Prop :=
  match calls with
  | [] => True
  | c :: calls => from <= c.(now) ∧ clocked c.(now) calls
  end.

Lemma clocked_le from calls j c : clocked from calls → calls !! j = Some c → from <= c.(now).
Proof.
  revert from j. induction calls as [|c0 calls IH]; intros from [|j]; cbn; try done.
  - intros [? _] [= ->]. done.
  - intros [H1 H2] Hj. transitivity c0.(now); [done|]. by eapply IH.
Qed.

Lemma serve_cons seen c calls :
  let r := accept seen c.(challenge) c.(answered) c.(prover) c.(now) in
  serve seen (c :: calls) = (r.1 :: (serve r.2 calls).1, (serve r.2 calls).2).
Proof. cbn. destruct (accept _ _ _ _ _) as [r s]. cbn. by destruct (serve s calls). Qed.

(** While an entry is held, its nonce is accepted only after its expiry. *)
Lemma serve_after_entry seen calls e j c from :
  clocked from calls → e ∈ seen → calls !! j = Some c →
  (serve seen calls).1 !! j = Some (Ok tt) → c.(challenge).(nonce) = e.1 → e.2 < c.(now).
Proof.
  revert seen from j. induction calls as [|c0 calls IH]; intros seen from j Hc He Hj Hr Hn; [done|].
  rewrite serve_cons in Hr. destruct (N.lt_ge_cases e.2 c0.(now)) as [Hlt|Hge].
  - destruct Hc as [_ Hc]. destruct j as [|j]; cbn in Hj; simplify_eq; [done|].
    pose proof (clocked_le _ _ _ _ Hc Hj). lia.
  - destruct j as [|j]; cbn in Hr, Hj; simplify_eq.
    + apply (proj1 (accept_Ok_iff _ _ _ _ _)) in Hr as (_ & _ & H). by apply H.
    + destruct Hc as [_ Hc]. eapply (IH _ _ _ Hc); [by apply accept_keeps|done..].
Qed.

Lemma accept_from_empty c s p t :
  t <= expires_at c → verify p CHALLENGE_CONTEXT (to_signed_bytes c) s = Ok tt →
  (accept no_nonces c s p t).2 = [(c.(nonce), expires_at c)].
Proof. intros Ht Hv. unfold accept. rewrite (proj2 (N.ltb_ge _ _) Ht). by rewrite Hv. Qed.

Lemma serve_live seen calls j c :
  calls !! j = Some c → (serve seen calls).1 !! j = Some (Ok tt) →
  c.(now) <= expires_at c.(challenge).
Proof.
  revert seen j. induction calls as [|c0 calls IH]; intros seen j Hj Hr; [done|].
  rewrite serve_cons in Hr. destruct j as [|j]; cbn in Hj, Hr; simplify_eq.
  - by apply (proj1 (accept_Ok_iff _ _ _ _ _)) in Hr as (? & _).
  - by eapply IH.
Qed.

Lemma serve_spent seen calls i j ci cj from :
  clocked from calls → (i < j)%nat →
  calls !! i = Some ci → calls !! j = Some cj →
  (serve seen calls).1 !! i = Some (Ok tt) → (serve seen calls).1 !! j = Some (Ok tt) →
  cj.(challenge).(nonce) = ci.(challenge).(nonce) → expires_at ci.(challenge) < cj.(now).
Proof.
  revert seen from i j. induction calls as [|c0 calls IH]; intros seen from i j Hc Hij Hi Hj Hri Hrj Hn; [done|].
  rewrite serve_cons in Hri, Hrj. destruct Hc as [_ Hc].
  destruct j as [|j]; [lia|]. destruct i as [|i]; cbn in Hi, Hj, Hri, Hrj; simplify_eq.
  - eapply (serve_after_entry _ _ (ci.(challenge).(nonce), expires_at ci.(challenge)));
      [done|by apply accept_records|done..].
  - eapply IH; [done| |done..]. lia.
Qed.
End challenge.

Section properties.
Context {S : SignatureScheme} {L : SignatureLaws S}.

(** A byte string is a challenge exactly when it is the encoding of a
    well-typed one: the wire form is unambiguous, so what prover and verifier
    sign determines nonce, audience, issue time and validity. *)
Theorem challenge_decode_iff (b : bytes) (c : Challenge) :
  decode b = Ok c ↔ challenge_typed c ∧ encode c = b.
Proof.
  split; [apply challenge_decode_inv|]. intros [T <-]. by apply challenge_decode_encode.
Qed.

(** An honest answer is accepted exactly when the challenge has not
    expired and its nonce is not held by an entry that is still live; in every
    case the nonces on record stay distinct. *)
Theorem honest_answer_accepted_iff
    (seen : SpentNonces) (c : Challenge) (identity : SK) (t : N) :
  NoDup seen.*1 →
  ((accept seen c (answer c identity) (verifying_key identity) t).1 = Ok tt ↔
     t <= expires_at c ∧ ∀ e, e ∈ seen → e.1 = c.(nonce) → e.2 < t) ∧
  NoDup (accept seen c (answer c identity) (verifying_key identity) t).2.*1.
Proof.
  intros Hd. split; [|by apply accept_nodup]. rewrite accept_Ok_iff.
  unfold answer. rewrite verify_sign. cbn. naive_solver.
Qed.

(** A challenge is accepted at most once. Whatever calls a verifier whose
    clock does not run backwards has served, from any record, by any provers
    with any signatures: if an answer under a nonce was accepted and a later
    one under the same nonce is accepted too, then the first challenge had
    already expired, so the two challenges differ. *)
Theorem challenge_accepted_once
    (seen : SpentNonces) (calls : list Call) (from : N) (i j : nat) (ci cj : Call) :
  clocked from calls → (i < j)%nat →
  calls !! i = Some ci → calls !! j = Some cj →
  (serve seen calls).1 !! i = Some (Ok tt) → (serve seen calls).1 !! j = Some (Ok tt) →
  nonce (challenge cj) = nonce (challenge ci) →
  expires_at (challenge ci) < now cj ∧ challenge cj ≠ challenge ci.
Proof.
  intros Hc Hij Hi Hj Hri Hrj Hn.
  pose proof (serve_spent _ _ _ _ _ _ _ Hc Hij Hi Hj Hri Hrj Hn) as Hlt.
  split; [done|]. intros E. pose proof (serve_live _ _ _ _ Hj Hrj) as Hle.
  rewrite E in Hle. lia.
Qed.
End properties.

(** ** Witnesses *)
Import Sign.Toy Sign.Hybrid.

Module Samples.
Definition ask (issued : N) : Challenge :=
  {| nonce := replicate 32 Byte.x01; audience := text "a"; issued_at := issued;
     valid_for := 10 |}.
Definition identity : SigningIdentity := from_seed (replicate 32 Byte.x07).
Definition call (issued t : N) : Call :=
  {| challenge := ask issued; answered := answer (ask issued) identity;
     prover := Sign.verifying_key (SignatureScheme := scheme) identity; now := t |}.
End Samples.

Lemma challenge_decode_iff_witness :
  decode (encode (Samples.ask 5)) = Ok (Samples.ask 5).
Proof.
  apply (proj2 (challenge_decode_iff _ _)). split; [|reflexivity]. split; done.
Defined.

Lemma honest_answer_accepted_iff_witness :
  (accept no_nonces (Samples.ask 5) (answer (Samples.ask 5) Samples.identity)
     (Sign.verifying_key (SignatureScheme := scheme) Samples.identity) 7).1 = Ok tt.
Proof.
  apply (proj1 (honest_answer_accepted_iff (L := scheme_laws) no_nonces
    (Samples.ask 5) Samples.identity 7 (NoDup_nil_2))).
  split; [vm_compute; discriminate|]. intros e He. by apply not_elem_of_nil in He.
Defined.

Lemma sample_call_accepted seen issued t :
  t <= issued + 10 → issued < 1000 →
  (∀ e, e ∈ seen → e.1 = replicate 32 Byte.x01 → e.2 < t) →
  (accept seen (Samples.ask issued)
     (answer (Samples.ask issued) Samples.identity)
     (Sign.verifying_key (SignatureScheme := scheme) Samples.identity) t).1 = Ok tt.
Proof.
  intros Ht Hi He. apply accept_Ok_iff. split_and!; [|by unfold answer; rewrite verify_sign|done].
  unfold expires_at, u64_max. cbn. lia.
Qed.

Lemma sample_serve :
  (serve no_nonces [Samples.call 5 7; Samples.call 12 20]).1 = [Ok tt; Ok tt].
Proof.
  rewrite !serve_cons. cbn [fst serve].
  apply (f_equal2 cons); [|apply (f_equal2 cons); [|done]];
    cbn [Samples.call challenge answered prover now].
  - apply sample_call_accepted; [lia..|]. intros e He. by apply not_elem_of_nil in He.
  - apply sample_call_accepted; [lia..|]. intros e He _.
    rewrite accept_from_empty in He; [| |by apply verify_sign].
    + apply list_elem_of_singleton in He as ->. unfold expires_at, u64_max. cbn. lia.
    + unfold expires_at, u64_max. cbn. lia.
Qed.

(** A nonce used again after its first challenge expired at 15. *)
Lemma challenge_accepted_once_witness :
  15 < 20 ∧ Samples.ask 12 ≠ Samples.ask 5.
Proof.
  apply (challenge_accepted_once no_nonces [Samples.call 5 7; Samples.call 12 20] 0 0 1
    (Samples.call 5 7) (Samples.call 12 20));
    [|lia|reflexivity|reflexivity|by rewrite sample_serve|by rewrite sample_serve|reflexivity].
  cbn. lia.
Defined.
