(* ===== verification/Merkle.v ===== *)
(** [hide-transparency/src/lib.rs]: the append-only log. Leaves, roots,
    inclusion and consistency proofs, their verification and their wire forms.
    SHA-256 ([sha2]) is a parameter; every statement about it either follows
    from its being a function or offers an explicit collision. *)
From S2P Require Import Prelude.
Local Open Scope N_scope.

Definition LEAF_PREFIX : N := 0.
Definition NODE_PREFIX : N := 1.
Definition MAX_PROOF_LEN : N := 64.
Definition INCLUSION_TAG : N := 1.
Definition CONSISTENCY_TAG : N := 2.
Definition PROOF_HEADER : N := 18.
Definition IDENTITY_LEAF_LABEL : bytes := text "HIDE/1.0 identity leaf".
Definition EPOCH_LEAF_LABEL : bytes := text "HIDE/1.0 epoch leaf".

(** A [[u8; 32]]. *)
Abbreviation Hash := bytes.
Definition is_hash (h : Hash) : Prop := length h = 32%nat.

Inductive LogError :=
| Empty
| OutOfRange (index size : N)
| NotAPrefix (old new : N)
| BadProof
| ProofTooLong (length : N)
| Malformed
| Unsigned
| BadSignature
| WrongOrigin (found : bytes).

#[export] Instance LogError_eq_dec : EqDecision LogError.
Proof. solve_decision. Defined.

Definition identity_leaf (root recovery_id head : Hash) (entries : N) : bytes :=
  IDENTITY_LEAF_LABEL ++ root ++ recovery_id ++ head ++ u64be entries.

Definition epoch_leaf (identity_root chain_head : Hash) (epochs : N) : bytes :=
  EPOCH_LEAF_LABEL ++ identity_root ++ chain_head ++ u64be epochs.

Record InclusionProof := { index : N; size : N; path : list Hash }.
Record ConsistencyProof := { old_size : N; new_size : N; cpath : list Hash }.

(** ** The wire form of proofs *)

Definition encode_proof (tag first second : N) (path : list Hash) : result LogError bytes :=
  refuse_if (MAX_PROOF_LEN <? lenN path) (ProofTooLong (lenN path));;
  Ok (byte_of tag :: u64be first ++ u64be second ++ [byte_of (lenN path)] ++ concat path).

(** [bytes.chunks_exact(32)], for a length that is [n] times 32. *)
Fixpoint chunks_exact (n : nat) (b : bytes) : list bytes :=
  match n with O => [] | S n => take 32 b :: chunks_exact n (drop 32 b) end.

Definition decode_proof (tag : N) (b : bytes) : result LogError (N * N * list Hash) :=
  refuse_if ((lenN b <? PROOF_HEADER) || negb (byte_at 0 b =? tag)) Malformed;;
  let first := unbe (slice 1 9 b) in
  let second := unbe (slice 9 17 b) in
  let count := byte_at 17 b in
  refuse_if (MAX_PROOF_LEN <? count) (ProofTooLong count);;
  refuse_if (negb (lenN b =? PROOF_HEADER + 32 * count)) Malformed;;
  Ok (first, second, chunks_exact (N.to_nat count) (drop 18 b)).

Definition encode_inclusion (p : InclusionProof) : result LogError bytes :=
  encode_proof INCLUSION_TAG p.(index) p.(size) p.(path).

Definition decode_inclusion (b : bytes) : result LogError InclusionProof :=
  '(index, size, path) ← decode_proof INCLUSION_TAG b;
  Ok {| index := index; size := size; path := path |}.

Definition encode_consistency (p : ConsistencyProof) : result LogError bytes :=
  encode_proof CONSISTENCY_TAG p.(old_size) p.(new_size) p.(cpath).

Definition decode_consistency (b : bytes) : result LogError ConsistencyProof :=
  '(old_size, new_size, path) ← decode_proof CONSISTENCY_TAG b;
  Ok {| old_size := old_size; new_size := new_size; cpath := path |}.

Definition encode_checkpoint (size : N) (root : Hash) : bytes := u64be size ++ root.

Definition decode_checkpoint (b : bytes) : result LogError (N * Hash) :=
  refuse_if (negb (lenN b =? 40)) Malformed;;
  Ok (unbe (take 8 b), drop 8 b).

(** [1 << (n - 1).ilog2()] *)
Definition largest_power_of_two_below (n : N) : N := N.shiftl 1 (N.log2 (n - 1)).

(** ** Hashing and proving *)
Section merkle.
Context (sha256 : bytes → Hash).

Definition leaf_input (data : bytes) : bytes := byte_of LEAF_PREFIX :: data.
Definition node_input (left right : Hash) : bytes := byte_of NODE_PREFIX :: left ++ right.

Definition leaf_hash (data : bytes) : Hash := sha256 (leaf_input data).
Definition node_hash (left right : Hash) : Hash := sha256 (node_input left right).

(** The recursion on subtrees, with a depth bound that the number of leaves
    always meets: see [root_of_node]. *)
Definition split_at (leaves : list Hash) : nat :=
  N.to_nat (largest_power_of_two_below (lenN leaves)).

Fixpoint root_within (depth : nat) (leaves : list Hash) : Hash :=
  match depth, leaves with
  | _, [] => sha256 []
  | _, [leaf] => leaf
  | O, _ => sha256 []
  | S depth, _ =>
      let split := split_at leaves in
      node_hash (root_within depth (take split leaves)) (root_within depth (drop split leaves))
  end.

Definition root_of (leaves : list Hash) : Hash := root_within (length leaves) leaves.

Fixpoint collect_inclusion_within (depth : nat) (leaves : list Hash) (index : nat)
  : list Hash :=
  match depth with
  | O => []
  | S depth =>
      if Nat.leb (length leaves) 1 then [] else
      let split := split_at leaves in
      if Nat.ltb index split then
        collect_inclusion_within depth (take split leaves) index
          ++ [root_of (drop split leaves)]
      else
        collect_inclusion_within depth (drop split leaves) (index - split)
          ++ [root_of (take split leaves)]
  end.

Definition collect_inclusion (leaves : list Hash) (index : nat) : list Hash :=
  collect_inclusion_within (length leaves) leaves index.

Fixpoint collect_consistency_within (depth : nat) (leaves : list Hash) (old : nat)
    (complete : bool) : list Hash :=
  if Nat.eqb old (length leaves) then
    if complete then [] else [root_of leaves]
  else match depth with
  | O => []
  | S depth =>
      let split := split_at leaves in
      if Nat.leb old split then
        collect_consistency_within depth (take split leaves) old complete
          ++ [root_of (drop split leaves)]
      else
        collect_consistency_within depth (drop split leaves) (old - split) false
          ++ [root_of (take split leaves)]
  end.

Definition collect_consistency (leaves : list Hash) (old : nat) (complete : bool)
  : list Hash :=
  collect_consistency_within (length leaves) leaves old complete.

(** ** The log *)
Definition TransparencyLog := list Hash.

Definition new_log : TransparencyLog := [].

Definition append (log : TransparencyLog) (data : bytes) : TransparencyLog * N :=
  (log ++ [leaf_hash data], lenN log).

Definition len (log : TransparencyLog) : N := lenN log.

Definition root (log : TransparencyLog) : Hash := root_of log.

Definition root_at (log : TransparencyLog) (size : N) : result LogError Hash :=
  refuse_if (len log <? size) (OutOfRange size (len log));;
  Ok (root_of (take (N.to_nat size) log)).

Definition prove_inclusion (log : TransparencyLog) (index size : N)
  : result LogError InclusionProof :=
  refuse_if ((len log <? size) || (size <=? index)) (OutOfRange index size);;
  Ok {| index := index; size := size;
        path := collect_inclusion (take (N.to_nat size) log) (N.to_nat index) |}.

Definition prove_consistency (log : TransparencyLog) (old_size new_size : N)
  : result LogError ConsistencyProof :=
  refuse_if (len log <? new_size) (OutOfRange new_size (len log));;
  refuse_if ((new_size <? old_size) || (old_size =? 0)) (NotAPrefix old_size new_size);;
  Ok {| old_size := old_size; new_size := new_size;
        cpath := collect_consistency (take (N.to_nat new_size) log) (N.to_nat old_size) true |}.

(** ** Verifying *)

(** The descent loop of [verify_inclusion]; [turns] root first. The bound on
    its iterations is met for every size: see [descend_step]. *)
Fixpoint descend_within (steps : nat) (index size : N) : list bool :=
  match steps with
  | O => []
  | S steps =>
      if 1 <? size then
        let split := largest_power_of_two_below size in
        if index <? split then true :: descend_within steps index split
        else false :: descend_within steps (index - split) (size - split)
      else []
  end.

Definition descend (index size : N) : list bool :=
  descend_within (N.to_nat (N.log2_up size)) index size.

Definition climb (hash : Hash) (step : Hash * bool) : Hash :=
  let '(sibling, went_left) := step in
  if went_left then node_hash hash sibling else node_hash sibling hash.

Definition verify_inclusion (proof : InclusionProof) (leaf root : Hash)
  : result LogError unit :=
  refuse_if (MAX_PROOF_LEN <? lenN proof.(path)) (ProofTooLong (lenN proof.(path)));;
  refuse_if (proof.(size) <=? proof.(index)) (OutOfRange proof.(index) proof.(size));;
  let turns := descend proof.(index) proof.(size) in
  refuse_if (negb (lenN turns =? lenN proof.(path))) BadProof;;
  let hash := fold_left climb (combine proof.(path) (rev turns)) leaf in
  refuse_if (negb (bool_decide (hash = root))) BadProof.

Fixpoint descend_old_within (steps : nat) (old new : N) (complete : bool)
  : list bool * bool :=
  match steps with
  | O => ([], complete)
  | S steps =>
      if old =? new then ([], complete) else
      let split := largest_power_of_two_below new in
      if old <=? split then
        let '(turns, complete) := descend_old_within steps old split complete in
        (true :: turns, complete)
      else
        let '(turns, complete) :=
          descend_old_within steps (old - split) (new - split) false in
        (false :: turns, complete)
  end.

Definition descend_old (old new : N) : list bool * bool :=
  descend_old_within (N.to_nat (N.log2_up new)) old new true.

Definition climb2 (hashes : Hash * Hash) (step : Hash * bool) : Hash * Hash :=
  let '(old_hash, new_hash) := hashes in
  let '(sibling, went_left) := step in
  if went_left then (old_hash, node_hash new_hash sibling)
  else (node_hash sibling old_hash, node_hash sibling new_hash).

Definition verify_consistency (proof : ConsistencyProof) (old_root new_root : Hash)
  : result LogError unit :=
  refuse_if (MAX_PROOF_LEN <? lenN proof.(cpath)) (ProofTooLong (lenN proof.(cpath)));;
  refuse_if ((proof.(old_size) =? 0) || (proof.(new_size) <? proof.(old_size)))
    (NotAPrefix proof.(old_size) proof.(new_size));;
  if proof.(old_size) =? proof.(new_size) then
    refuse_if (negb (bool_decide (proof.(cpath) = []) && bool_decide (old_root = new_root)))
      BadProof
  else
    let '(turns, complete) := descend_old proof.(old_size) proof.(new_size) in
    refuse_if (negb (lenN proof.(cpath) =? lenN turns + if complete then 0 else 1)) BadProof;;
    '(seed, path) ←
      (if complete then Ok (old_root, proof.(cpath)) else
       match proof.(cpath) with s :: p => Ok (s, p) | [] => Err BadProof end);
    let '(old_hash, new_hash) := fold_left climb2 (combine path (rev turns)) (seed, seed) in
    refuse_if (negb (bool_decide (old_hash = old_root)) || negb (bool_decide (new_hash = new_root)))
      BadProof.

(** * The shape of the tree *)

Lemma split_bounds n :
  2 <= n → 1 <= largest_power_of_two_below n < n ∧ n <= 2 * largest_power_of_two_below n.
Proof.
  intros Hn. unfold largest_power_of_two_below. rewrite N.shiftl_1_l.
  pose proof (N.log2_spec (n - 1) ltac:(lia)) as [H1 H2].
  rewrite N.pow_succ_r' in H2. lia.
Qed.

(** A subtree cut to a size past its own split splits at the same place. *)
Lemma split_same m n :
  largest_power_of_two_below n < m → m <= n →
  largest_power_of_two_below m = largest_power_of_two_below n.
Proof.
  unfold largest_power_of_two_below. rewrite !N.shiftl_1_l. intros H1 H2.
  assert (2 ^ 0 <= 2 ^ N.log2 (n - 1)) by (apply N.pow_le_mono_r; lia).
  rewrite N.pow_0_r in *. f_equal. symmetry.
  pose proof (N.log2_spec (n - 1) ltac:(lia)) as [_ H3].
  symmetry. apply N.log2_unique; lia.
Qed.

Lemma split_pow n k : 2 <= n → n <= 2 ^ N.succ k → largest_power_of_two_below n <= 2 ^ k.
Proof.
  intros Hn H. unfold largest_power_of_two_below. rewrite N.shiftl_1_l.
  apply N.pow_le_mono_r; [lia|]. apply N.lt_succ_r. apply N.log2_lt_pow2; lia.
Qed.

Lemma split_at_bounds (leaves : list Hash) :
  (2 <= length leaves)%nat →
  (1 <= split_at leaves < length leaves)%nat.
Proof. intros. unfold split_at. pose proof (split_bounds (lenN leaves) ltac:(lia)). lia. Qed.

(** Induction on the two subtrees of a list of leaves. *)
Lemma leaves_ind (P : list Hash → Prop) :
  P [] → (∀ h, P [h]) →
  (∀ l, (2 <= length l)%nat → P (take (split_at l) l) → P (drop (split_at l) l) → P l) →
  ∀ l, P l.
Proof.
  intros H0 H1 HS l. remember (length l) as n eqn:E. revert l E.
  induction n as [n IH] using lt_wf_ind. intros l E.
  destruct l as [|h [|h' l]]; [done..|].
  pose proof (split_at_bounds (h :: h' :: l) ltac:(cbn; lia)) as B. subst n.
  apply HS; [cbn; lia|eapply IH; [|done]..].
  - rewrite length_take. lia.
  - rewrite length_drop. lia.
Qed.

Lemma length_take_split l :
  (2 <= length l)%nat → lenN (take (split_at l) l) = largest_power_of_two_below (lenN l).
Proof.
  intros H. pose proof (split_at_bounds l H). rewrite length_take. unfold split_at in *. lia.
Qed.

Lemma length_drop_split l :
  (2 <= length l)%nat →
  lenN (drop (split_at l) l) = lenN l - largest_power_of_two_below (lenN l).
Proof.
  intros H. pose proof (split_at_bounds l H). rewrite length_drop. unfold split_at in *. lia.
Qed.

Lemma root_within_enough l d : (length l <= d)%nat → root_within d l = root_of l.
Proof.
  unfold root_of. revert d. induction l as [|h|l Hl IHt IHd] using leaves_ind; intros d Hd.
  - by destruct d.
  - by destruct d.
  - pose proof (split_at_bounds l Hl) as B.
    assert (∀ d, (length l <= S d)%nat → root_within (S d) l
      = node_hash (root_within (length (take (split_at l) l)) (take (split_at l) l))
          (root_within (length (drop (split_at l) l)) (drop (split_at l) l))) as E.
    { intros d' Hd'. rewrite <- (IHt d'), <- (IHd d') by
        (rewrite ?length_take, ?length_drop; lia).
      destruct l as [|h [|h' l]]; [cbn in Hl; lia..|done]. }
    destruct d as [|d]; [lia|]. rewrite E by done.
    destruct (length l) as [|n] eqn:En; [lia|]. by rewrite E by lia.
Qed.

(** [root_of] satisfies the equation of the source. *)
Lemma root_of_node l :
  (2 <= length l)%nat →
  root_of l = node_hash (root_of (take (split_at l) l)) (root_of (drop (split_at l) l)).
Proof.
  intros Hl. pose proof (split_at_bounds l Hl).
  rewrite <- (root_within_enough l (S (length l))) by lia.
  rewrite <- (root_within_enough (take _ l) (length l)) by (rewrite length_take; lia).
  rewrite <- (root_within_enough (drop _ l) (length l)) by (rewrite length_drop; lia).
  destruct l as [|h [|h' l]]; [cbn in Hl; lia..|done].
Qed.

Lemma descend_within_enough s s' i n :
  n <= 2 ^ N.of_nat s → n <= 2 ^ N.of_nat s' →
  descend_within s i n = descend_within s' i n.
Proof.
  revert s' i n. induction s as [|s IH]; intros s' i n Hs Hs'.
  - cbn in Hs. destruct s'; cbn; [done|]. by rewrite (proj2 (N.ltb_ge 1 n)).
  - destruct s' as [|s']; cbn [descend_within].
    { cbn in Hs'. by rewrite (proj2 (N.ltb_ge 1 n)). }
    rewrite !Nat2N.inj_succ in *. destruct (N.ltb_spec 1 n); [|done].
    pose proof (split_bounds n ltac:(lia)).
    pose proof (split_pow n (N.of_nat s) ltac:(lia) Hs).
    pose proof (split_pow n (N.of_nat s') ltac:(lia) Hs').
    case_match; f_equal; apply IH; lia.
Qed.

Lemma log2_up_pow n : n <= 2 ^ N.of_nat (N.to_nat (N.log2_up n)).
Proof.
  rewrite N2Nat.id. destruct (N.le_gt_cases n 1) as [|Hn].
  - assert (2 ^ 0 <= 2 ^ N.log2_up n) by (apply N.pow_le_mono_r; lia). rewrite N.pow_0_r in *. lia.
  - apply N.log2_up_spec. done.
Qed.

(** The loop's equation, for every size. *)
Lemma descend_step i n :
  1 < n →
  descend i n =
    let split := largest_power_of_two_below n in
    if i <? split then true :: descend i split else false :: descend (i - split) (n - split).
Proof.
  intros Hn. unfold descend at 1.
  rewrite (descend_within_enough _ (S (N.to_nat (N.log2_up n)))).
  - cbn [descend_within]. rewrite (proj2 (N.ltb_lt 1 n)) by done. cbn.
    pose proof (split_bounds n ltac:(lia)). pose proof (log2_up_pow n).
    case_match; f_equal; apply descend_within_enough; try apply log2_up_pow; lia.
  - apply log2_up_pow.
  - rewrite Nat2N.inj_succ, N.pow_succ_r'. pose proof (log2_up_pow n). lia.
Qed.

Lemma descend_leaf i n : n <= 1 → descend i n = [].
Proof. intros H. unfold descend. by rewrite N.log2_up_eqn0. Qed.

Lemma descend_within_length s i n : (length (descend_within s i n) <= s)%nat.
Proof.
  revert i n. induction s as [|s IH]; intros i n; cbn; [lia|].
  repeat case_match; cbn; try lia; apply le_n_S, IH.
Qed.

(** No audit path of a log with a [u64] size is longer than the limit. *)
Lemma descend_length i n k : n <= 2 ^ k → lenN (descend i n) <= k.
Proof.
  intros H. pose proof (descend_within_length (N.to_nat (N.log2_up n)) i n).
  unfold descend. enough (N.log2_up n <= k) by lia.
  destruct (N.le_gt_cases n 1); [rewrite N.log2_up_eqn0 by done; lia|].
  apply N.log2_up_le_pow2; [lia|done].
Qed.

Lemma descend_old_within_enough s s' m n c :
  1 <= m <= n → n <= 2 ^ N.of_nat s → n <= 2 ^ N.of_nat s' →
  descend_old_within s m n c = descend_old_within s' m n c.
Proof.
  revert s' m n c. induction s as [|s IH]; intros s' m n c Hm Hs Hs'.
  - cbn in Hs. assert (m = n) as -> by lia. destruct s'; cbn; [done|]. by rewrite N.eqb_refl.
  - destruct s' as [|s']; cbn [descend_old_within].
    { cbn in Hs'. assert (m = n) as -> by lia. by rewrite N.eqb_refl. }
    rewrite !Nat2N.inj_succ in *. destruct (N.eqb_spec m n); [done|].
    pose proof (split_bounds n ltac:(lia)).
    pose proof (split_pow n (N.of_nat s) ltac:(lia) Hs).
    pose proof (split_pow n (N.of_nat s') ltac:(lia) Hs').
    cbn zeta. destruct (N.leb_spec m (largest_power_of_two_below n)).
    + by rewrite (IH s') by lia.
    + by rewrite (IH s') by lia.
Qed.

Definition descend_old_from (m n : N) (c : bool) : list bool * bool :=
  descend_old_within (N.to_nat (N.log2_up n)) m n c.

Lemma descend_old_step m n c :
  1 <= m < n →
  descend_old_from m n c =
    let split := largest_power_of_two_below n in
    if m <=? split then
      (true :: (descend_old_from m split c).1, (descend_old_from m split c).2)
    else
      (false :: (descend_old_from (m - split) (n - split) false).1,
       (descend_old_from (m - split) (n - split) false).2).
Proof.
  intros Hm. unfold descend_old_from at 1.
  rewrite (descend_old_within_enough _ (S (N.to_nat (N.log2_up n)))).
  - cbn [descend_old_within]. rewrite (proj2 (N.eqb_neq m n)) by lia. cbn zeta.
    pose proof (split_bounds n ltac:(lia)). pose proof (log2_up_pow n).
    destruct (N.leb_spec m (largest_power_of_two_below n)).
    + rewrite (descend_old_within_enough _ (N.to_nat (N.log2_up (largest_power_of_two_below n))))
        by (try apply log2_up_pow; lia).
      unfold descend_old_from. by destruct (descend_old_within _ _ _ _).
    + rewrite (descend_old_within_enough _
        (N.to_nat (N.log2_up (n - largest_power_of_two_below n))))
        by (try apply log2_up_pow; lia).
      unfold descend_old_from. by destruct (descend_old_within _ _ _ _).
  - lia.
  - apply log2_up_pow.
  - rewrite Nat2N.inj_succ, N.pow_succ_r'. pose proof (log2_up_pow n). lia.
Qed.

Lemma descend_old_same m c : descend_old_from m m c = ([], c).
Proof. unfold descend_old_from. destruct (N.to_nat _); cbn; [done|]. by rewrite N.eqb_refl. Qed.

Lemma descend_old_within_length s m n c :
  (length (descend_old_within s m n c).1 <= s)%nat.
Proof.
  revert m n c. induction s as [|s IH]; intros m n c; cbn; [lia|].
  case_match; cbn; [lia|]. case_match.
  - pose proof (IH m (largest_power_of_two_below n) c). case_match. cbn in *. lia.
  - pose proof (IH (m - largest_power_of_two_below n) (n - largest_power_of_two_below n) false).
    case_match. cbn in *. lia.
Qed.

Lemma descend_old_length m n k c : n <= 2 ^ k → lenN (descend_old_from m n c).1 <= k.
Proof.
  intros H. pose proof (descend_old_within_length (N.to_nat (N.log2_up n)) m n c).
  unfold descend_old_from. enough (N.log2_up n <= k) by lia.
  destruct (N.le_gt_cases n 1); [rewrite N.log2_up_eqn0 by done; lia|].
  apply N.log2_up_le_pow2; [lia|done].
Qed.

(** The verifiers' loops consume the siblings deepest first. Read root first,
    they are folds over the descent. *)
Lemma fold_left_deepest_first {A} (f : A → Hash * bool → A) path turns a :
  length path = length turns →
  fold_left f (combine path (rev turns)) a =
  foldr (λ step a, f a step) a (combine (rev path) turns).
Proof.
  intros Hl. rewrite <- (rev_involutive path) at 1.
  assert (∀ (p : list Hash) (t : list bool), length p = length t →
    combine (rev p) (rev t) = rev (combine p t)) as E.
  { clear. intros p. induction p as [|x p IH] using rev_ind; intros t Ht.
    - by destruct t.
    - destruct t as [|b t _] using rev_ind; [rewrite length_app in Ht; cbn in Ht; lia|].
      rewrite !length_app in Ht. cbn in Ht.
      rewrite !rev_app_distr. cbn. rewrite IH by lia.
      assert (∀ (p : list Hash) (t : list bool), length p = length t →
        combine (p ++ [x]) (t ++ [b]) = combine p t ++ [(x, b)]) as E2.
      { clear. intros p. induction p as [|y p IH]; intros [|c t] H; cbn in *; try done; try lia.
        by rewrite IH by lia. }
      by rewrite E2, rev_app_distr by lia. }
  rewrite E by (rewrite length_rev; lia).
  by rewrite <- fold_left_rev_right, rev_involutive.
Qed.

(** * Completeness: the prover's paths verify *)

Definition climb_from (leaf : Hash) (steps : list (Hash * bool)) : Hash :=
  foldr (λ step h, climb h step) leaf steps.

Lemma collect_inclusion_climbs d l i leaf :
  (length l <= d)%nat → l !! i = Some leaf →
  let turns := descend (N.of_nat i) (lenN l) in
  length (collect_inclusion_within d l i) = length turns ∧
  climb_from leaf (combine (rev (collect_inclusion_within d l i)) turns) = root_of l.
Proof.
  revert d i. induction l as [|h|l Hl IHt IHd] using leaves_ind; intros d i Hd Hi.
  - done.
  - cbn zeta. destruct i as [|i]; [|done]. injection Hi as ->.
    rewrite descend_leaf by (cbn; lia). by destruct d.
  - pose proof (split_at_bounds l Hl) as B. destruct d as [|d]; [lia|].
    cbn [collect_inclusion_within]. destruct (Nat.leb_spec (length l) 1); [lia|].
    rewrite descend_step by lia. cbn zeta. rewrite (root_of_node l Hl).
    assert (N.of_nat (split_at l) = largest_power_of_two_below (lenN l)) as Es
      by (unfold split_at; lia).
    destruct (Nat.ltb_spec i (split_at l)) as [Hlt|Hge].
    + rewrite (proj2 (N.ltb_lt _ _)) by lia.
      destruct (IHt d i) as [L C]; [rewrite length_take; lia|by rewrite lookup_take_lt|].
      rewrite length_take_split in L, C by done.
      split; [rewrite length_app, L; cbn; lia|]. rewrite rev_app_distr.
      unfold climb_from in *. cbn [rev app combine foldr]. by rewrite C.
    + rewrite (proj2 (N.ltb_ge _ _)) by lia.
      destruct (IHd d (i - split_at l)%nat) as [L C];
        [rewrite length_drop; lia|rewrite lookup_drop, <- Hi; f_equal; lia|].
      rewrite length_drop_split in L, C by done.
      replace (N.of_nat (i - split_at l)) with (N.of_nat i - largest_power_of_two_below (lenN l))
        in L, C by lia.
      split; [rewrite length_app, L; cbn; lia|]. rewrite rev_app_distr.
      unfold climb_from in *. cbn [rev app combine foldr]. by rewrite C.
Qed.

Lemma climb_from_verify i n p leaf r :
  i < n → length p = length (descend i n) → lenN p <= MAX_PROOF_LEN →
  verify_inclusion {| index := i; size := n; path := p |} leaf r = Ok tt ↔
  climb_from leaf (combine (rev p) (descend i n)) = r.
Proof.
  intros Hi Hl Hp. unfold verify_inclusion. cbn [index size path].
  rewrite (refuse_if_pass (MAX_PROOF_LEN <? lenN p)) by lia.
  rewrite (refuse_if_pass (n <=? i)) by lia.
  rewrite (refuse_if_pass (negb (lenN (descend i n) =? lenN p))) by lia.
  rewrite !bind_of_Ok.
  rewrite fold_left_deepest_first by done. fold (climb_from leaf).
  rewrite refuse_if_Ok_iff, negb_false_iff, bool_decide_eq_true. done.
Qed.

Lemma inclusion_complete log i size leaf :
  lenN log < u64_bound → size <= lenN log → i < size → log !! N.to_nat i = Some leaf →
  ∃ p r, prove_inclusion log i size = Ok p ∧ root_at log size = Ok r ∧
         verify_inclusion p leaf r = Ok tt.
Proof.
  intros Hb Hs Hi Hl. unfold prove_inclusion, root_at, len.
  rewrite refuse_if_pass by lia. rewrite refuse_if_pass by lia. rewrite !bind_of_Ok.
  eexists _, _. split_and!; [done..|].
  assert (lenN (take (N.to_nat size) log) = size) as Et by (rewrite length_take; lia).
  destruct (collect_inclusion_climbs (length (take (N.to_nat size) log))
    (take (N.to_nat size) log) (N.to_nat i) leaf) as [L C];
    [done|rewrite lookup_take_lt by lia; done|].
  rewrite Et, N2Nat.id in L, C. apply climb_from_verify; [done..| |done].
  unfold collect_inclusion. rewrite L. apply (descend_length i size 64).
  change (2 ^ 64) with u64_bound. lia.
Qed.

Definition climb2_from (seeds : Hash * Hash) (steps : list (Hash * bool)) : Hash * Hash :=
  foldr (λ step h, climb2 h step) seeds steps.

(** Cutting the leaves past the first subtree leaves that subtree whole. *)
Lemma root_of_take m l :
  (split_at l < m <= length l)%nat →
  root_of (take m l) = node_hash (root_of (take (split_at l) l))
                                 (root_of (take (m - split_at l) (drop (split_at l) l))).
Proof.
  intros Hm. assert (split_at (take m l) = split_at l) as Es.
  { unfold split_at in *. rewrite length_take, Nat.min_l by lia. f_equal.
    apply split_same; lia. }
  destruct (decide (2 <= length (take m l))%nat) as [H2|H2].
  - rewrite (root_of_node _ H2), Es, take_take, Nat.min_l, skipn_firstn_comm by lia. done.
  - rewrite length_take in H2. destruct (decide (2 <= length l)%nat) as [Hl|Hl].
    + pose proof (split_at_bounds l Hl). lia.
    + assert (lenN l = 1) as E by lia. unfold split_at in Hm. rewrite E in Hm.
      change (largest_power_of_two_below 1) with 1 in Hm. lia.
Qed.

Lemma collect_consistency_climbs d l m c :
  (length l <= d)%nat → (1 <= m <= length l)%nat →
  let '(turns, c') := descend_old_from (N.of_nat m) (lenN l) c in
  ∃ seed sibs,
    collect_consistency_within d l m c = (if c' then [] else [seed]) ++ sibs ∧
    length sibs = length turns ∧
    climb2_from (seed, seed) (combine (rev sibs) turns) = (root_of (take m l), root_of l) ∧
    (c' = true → c = true ∧ seed = root_of (take m l)).
Proof.
  revert d m c. induction l as [|h|l Hl IHt IHd] using leaves_ind; intros d m c Hd Hm.
  - cbn in Hm. lia.
  - cbn in Hm. assert (m = 1%nat) as -> by lia. rewrite descend_old_same.
    exists h, []. destruct d, c; cbn; by split_and!.
  - pose proof (split_at_bounds l Hl) as B. destruct (decide (m = length l)) as [->|Hne].
    { rewrite descend_old_same. exists (root_of l), [].
      rewrite take_ge by lia. destruct d; [lia|]. cbn. rewrite Nat.eqb_refl.
      destruct c; by split_and!. }
    destruct d as [|d]; [lia|]. cbn [collect_consistency_within].
    rewrite (proj2 (Nat.eqb_neq m (length l))) by lia. cbn zeta.
    rewrite descend_old_step by lia. cbn zeta.
    assert (N.of_nat (split_at l) = largest_power_of_two_below (lenN l)) as Es
      by (unfold split_at; lia).
    destruct (Nat.leb_spec m (split_at l)) as [Hle|Hgt].
    + rewrite (proj2 (N.leb_le _ _)) by lia.
      specialize (IHt d m c ltac:(rewrite length_take; lia) ltac:(rewrite length_take; lia)).
      rewrite length_take_split in IHt by done.
      destruct (descend_old_from _ _ _) as [turns c']. cbn [fst snd].
      destruct IHt as (seed & sibs & E & L & C & F). rewrite take_take, Nat.min_l in C, F by lia.
      exists seed, (sibs ++ [root_of (drop (split_at l) l)]). split_and!; [| | |done].
      * by rewrite E, app_assoc.
      * rewrite length_app, L. cbn. lia.
      * rewrite rev_app_distr. cbn [rev app combine]. unfold climb2_from in *. cbn [foldr].
        rewrite C. cbn [climb2]. by rewrite (root_of_node l Hl).
    + rewrite (proj2 (N.leb_gt _ _)) by lia.
      specialize (IHd d (m - split_at l)%nat false ltac:(rewrite length_drop; lia)
                    ltac:(rewrite length_drop; lia)).
      rewrite length_drop_split in IHd by done.
      replace (N.of_nat (m - split_at l)) with (N.of_nat m - largest_power_of_two_below (lenN l))
        in IHd by lia.
      destruct (descend_old_from _ _ false) as [turns c']. cbn [fst snd].
      destruct IHd as (seed & sibs & E & L & C & F).
      destruct c'; [by destruct F|].
      exists seed, (sibs ++ [root_of (take (split_at l) l)]). split_and!; [| | |done].
      * by rewrite E, app_assoc.
      * rewrite length_app, L. cbn. lia.
      * rewrite rev_app_distr. cbn [rev app combine]. unfold climb2_from in *. cbn [foldr].
        rewrite C. cbn [climb2]. by rewrite (root_of_take m l), (root_of_node l Hl) by lia.
Qed.

(** What [verify_consistency] starts from: the seed, and the steps root first. *)
Definition consistency_steps (p : ConsistencyProof) (old_root : Hash)
  : Hash * list (Hash * bool) :=
  let '(turns, complete) := descend_old p.(old_size) p.(new_size) in
  if complete then (old_root, combine (rev p.(cpath)) turns)
  else match p.(cpath) with
       | s :: path => (s, combine (rev path) turns)
       | [] => ([], [])
       end.

Lemma verify_consistency_Ok p o n :
  verify_consistency p o n = Ok tt ↔
  lenN p.(cpath) <= MAX_PROOF_LEN ∧ 1 <= p.(old_size) <= p.(new_size) ∧
  let '(turns, complete) := descend_old p.(old_size) p.(new_size) in
  lenN p.(cpath) = lenN turns + (if complete then 0 else 1) ∧
  let '(seed, steps) := consistency_steps p o in
  climb2_from (seed, seed) steps = (o, n).
Proof.
  unfold verify_consistency, consistency_steps, descend_old.
  destruct p as [m k path]. cbn [old_size new_size cpath].
  fold (descend_old_from m k true).
  destruct (N.leb_spec (lenN path) MAX_PROOF_LEN) as [Hp|Hp].
  2:{ rewrite (proj2 (N.ltb_lt _ _) Hp). cbn. split; [done|lia]. }
  rewrite (refuse_if_pass (MAX_PROOF_LEN <? lenN path)), bind_of_Ok by lia.
  destruct (decide (1 <= m <= k)) as [Hm|Hm].
  2:{ replace ((m =? 0) || (k <? m)) with true by lia. cbn. naive_solver. }
  replace ((m =? 0) || (k <? m)) with false by lia.
  cbn [refuse_if mbind result_mbind result_bind].
  destruct (N.eqb_spec m k) as [->|Hne].
  { rewrite descend_old_same, refuse_if_Ok_iff, negb_false_iff, andb_true_iff,
      !bool_decide_eq_true. split.
    - intros [-> ->]. cbn in *. split_and!; (done || lia).
    - intros (_ & _ & E & C). destruct path; [|cbn in E; lia]. cbn in C. by simplify_eq. }
  destruct (descend_old_from m k true) as [turns complete].
  set (q := lenN turns + _). destruct (N.eqb_spec (lenN path) q) as [Hq|Hq]; cbn [negb].
  2:{ cbn. naive_solver. }
  subst q. cbn [refuse_if mbind result_mbind result_bind].
  assert (∀ (s : Hash) steps, refuse_if (negb (bool_decide
      ((climb2_from (s, s) steps).1 = o))
    || negb (bool_decide ((climb2_from (s, s) steps).2 = n))) BadProof = Ok tt ↔
    climb2_from (s, s) steps = (o, n)) as R.
  { intros s steps. rewrite refuse_if_Ok_iff, orb_false_iff, !negb_false_iff,
      !bool_decide_eq_true. destruct (climb2_from _ _). cbn. naive_solver. }
  destruct complete; [|destruct path as [|s path]; [cbn in Hq; lia|]];
    cbn [mbind result_mbind result_bind]; cbn [length] in Hq;
    rewrite fold_left_deepest_first by lia; rewrite <- R; unfold climb2_from;
    destruct (foldr _ _ _) as [a b]; cbn [fst snd]; (split; [intros ->; split_and!; (done || lia)|by intros (_ & _ & _ & ->)]).
Qed.

Lemma consistency_complete log m k :
  lenN log <= 2 ^ 63 → 1 <= m → m <= k → k <= lenN log →
  ∃ p o n, prove_consistency log m k = Ok p ∧ root_at log m = Ok o ∧ root_at log k = Ok n ∧
           verify_consistency p o n = Ok tt.
Proof.
  intros Hb H1 Hmk Hk. unfold prove_consistency, root_at, len.
  rewrite (refuse_if_pass (lenN log <? k)) by lia.
  rewrite (refuse_if_pass ((k <? m) || (m =? 0))) by lia.
  rewrite (refuse_if_pass (lenN log <? m)) by lia. rewrite !bind_of_Ok.
  eexists _, _, _. split_and!; [done..|]. set (l := take (N.to_nat k) log).
  assert (lenN l = k) as El by (unfold l; rewrite length_take; lia).
  pose proof (collect_consistency_climbs (length l) l (N.to_nat m) true ltac:(done)
                ltac:(lia)) as C.
  replace (take (N.to_nat m) log) with (take (N.to_nat m) l)
    by (unfold l; rewrite take_take; f_equal; lia).
  rewrite N2Nat.id, El in C. apply verify_consistency_Ok.
  unfold consistency_steps, collect_consistency, descend_old. cbn [old_size new_size cpath].
  fold (descend_old_from m k true).
  pose proof (descend_old_length m k 63 true ltac:(lia)) as Hlen.
  destruct (descend_old_from m k true) as [turns c']. cbn [fst] in Hlen.
  destruct C as (seed & sibs & -> & L & C & F). unfold MAX_PROOF_LEN.
  split; [rewrite length_app; destruct c'; cbn; lia|]. split; [done|].
  destruct c'; cbn [app length].
  - destruct (F eq_refl) as [_ E]. rewrite E in C. split; [lia|exact C].
  - split; [lia|done].
Qed.

Create HintDb merkle.

(** * Soundness: what verifies is in the log, or a collision is in hand *)

(** The strings hashed to compute a root. *)
Inductive hashed_in : list Hash → bytes → Prop :=
| hashed_here l :
    (2 <= length l)%nat →
    hashed_in l (node_input (root_of (take (split_at l) l)) (root_of (drop (split_at l) l)))
| hashed_left l x : (2 <= length l)%nat → hashed_in (take (split_at l) l) x → hashed_in l x
| hashed_right l x : (2 <= length l)%nat → hashed_in (drop (split_at l) l) x → hashed_in l x.

(** The strings a verifier hashes on its way up. *)
Fixpoint climbed (leaf : Hash) (steps : list (Hash * bool)) (x : bytes) : Prop :=
  match steps with
  | [] => False
  | (s, b) :: steps =>
      x = (if b then node_input (climb_from leaf steps) s
           else node_input s (climb_from leaf steps)) ∨ climbed leaf steps x
  end.

Fixpoint climbed2 (seed : Hash) (steps : list (Hash * bool)) (x : bytes) : Prop :=
  match steps with
  | [] => False
  | (s, b) :: steps =>
      let '(o, n) := climb2_from (seed, seed) steps in
      (if b then x = node_input n s else x = node_input s o ∨ x = node_input s n)
      ∨ climbed2 seed steps x
  end.

Context (sha256_length : ∀ x, is_hash (sha256 x)).

Lemma root_is_hash l : Forall is_hash l → is_hash (root_of l).
Proof.
  intros H. destruct (decide (2 <= length l)%nat) as [Hl|Hl].
  - rewrite root_of_node by done. apply sha256_length.
  - destruct l as [|h [|h' l]]; [apply sha256_length| |cbn in Hl; lia]. by inversion H.
Qed.

Lemma climb_is_hash leaf steps : is_hash leaf → is_hash (climb_from leaf steps).
Proof. destruct steps as [|[s []] steps]; [done|intros _; apply sha256_length..]. Qed.

Lemma climb2_is_hash seed steps :
  is_hash seed →
  is_hash (climb2_from (seed, seed) steps).1 ∧ is_hash (climb2_from (seed, seed) steps).2.
Proof.
  intros Hs. induction steps as [|[s b] steps [IHo IHn]]; [done|].
  unfold climb2_from in *. cbn [foldr]. destruct (foldr _ _ _) as [o n].
  destruct b; cbn; split; [done|apply sha256_length..].
Qed.

Lemma node_hash_eq a b c d (A B : bytes → Prop) :
  node_hash a b = node_hash c d →
  is_hash a → is_hash c → A (node_input a b) → B (node_input c d) → (a = c ∧ b = d) ∨ collide sha256 A B.
Proof.
  intros E Ha Hc HA HB. destruct (hash_eq_or_collide _ _ _ A B HA HB E) as [Eq|]; [left|by right].
  unfold node_input in Eq. injection Eq as Eq. apply app_inj_len_1 in Eq; [done|].
  by rewrite Ha, Hc.
Qed.

Lemma take_split_hashes l : Forall is_hash l → Forall is_hash (take (split_at l) l).
Proof. apply Forall_take. Qed.
Lemma drop_split_hashes l : Forall is_hash l → Forall is_hash (drop (split_at l) l).
Proof. apply Forall_drop. Qed.
#[local] Hint Resolve take_split_hashes drop_split_hashes root_is_hash climb_is_hash
  hashed_here hashed_left hashed_right : merkle.

Lemma inclusion_sound l i leaf steps :
  steps.*2 = descend (N.of_nat i) (lenN l) → (i < length l)%nat →
  Forall is_hash l → Forall is_hash steps.*1 → is_hash leaf →
  climb_from leaf steps = root_of l →
  l !! i = Some leaf ∨ collide sha256 (climbed leaf steps) (hashed_in l).
Proof.
  revert i steps. induction l as [|h|l Hl IHt IHd] using leaves_ind;
    intros i steps Ht Hi Hh Hs Hleaf E.
  - cbn in Hi. lia.
  - rewrite descend_leaf in Ht by (cbn; lia). destruct steps; [|done].
    destruct i; [|cbn in Hi; lia]. left. cbn in *. congruence.
  - pose proof (split_at_bounds l Hl) as B.
    assert (N.of_nat (split_at l) = largest_power_of_two_below (lenN l)) as Es
      by (unfold split_at; lia).
    rewrite descend_step in Ht by lia. cbn zeta in Ht. rewrite (root_of_node l Hl) in E.
    destruct steps as [|[s b] steps]; [by case_match|].
    inversion Hs as [|? ? Hs1 Hs2]; subst.
    set (C := climbed leaf ((s, b) :: steps)).
    assert (∀ x, climbed leaf steps x → C x) as HC by (intros x Hx; by right).
    destruct (N.ltb_spec (N.of_nat i) (largest_power_of_two_below (lenN l))) as [Hlt|Hge];
      cbn in Ht; simplify_eq.
    + destruct (node_hash_eq (climb_from leaf steps) s _ _ C (hashed_in l) E
        ltac:(eauto with merkle) ltac:(eauto with merkle) ltac:(by left)
        ltac:(eauto with merkle)) as [[Eq _]|]; [|by right].
      destruct (IHt i steps) as [H|H]; eauto with merkle.
      * by rewrite length_take_split.
      * rewrite length_take. lia.
      * left. by rewrite lookup_take_lt in H by lia.
      * right. eapply collide_mono; [exact HC| |exact H]. eauto with merkle.
    + destruct (node_hash_eq s (climb_from leaf steps) _ _ C (hashed_in l) E
        ltac:(done) ltac:(eauto with merkle) ltac:(by left)
        ltac:(eauto with merkle)) as [[_ Eq]|]; [|by right].
      destruct (IHd (i - split_at l)%nat steps) as [H|H]; eauto with merkle.
      * rewrite length_drop_split by done.
        replace (N.of_nat (i - split_at l)) with (N.of_nat i - largest_power_of_two_below (lenN l))
          by lia. done.
      * rewrite length_drop. lia.
      * left. rewrite lookup_drop in H. rewrite <- H. f_equal. lia.
      * right. eapply collide_mono; [exact HC| |exact H]. eauto with merkle.
Qed.

(** Two lists of leaves of one size with one root are one list. *)
Lemma root_inj l k :
  length l = length k → Forall is_hash l → Forall is_hash k → root_of l = root_of k →
  l = k ∨ collide sha256 (hashed_in l) (hashed_in k).
Proof.
  revert k. induction l as [|h|l Hl IHt IHd] using leaves_ind; intros k Hlen Hh Hk E.
  - destruct k; [by left|done].
  - destruct k as [|h' [|]]; [done| |done]. left. cbn in E. congruence.
  - assert (2 <= length k)%nat as Hl' by lia.
    assert (split_at k = split_at l) as Es by (unfold split_at; by rewrite Hlen).
    rewrite (root_of_node l Hl), (root_of_node k Hl') in E.
    destruct (node_hash_eq _ _ _ _ (hashed_in l) (hashed_in k) E
      ltac:(eauto with merkle) ltac:(eauto with merkle)
      ltac:(eauto with merkle) ltac:(eauto with merkle)) as [[E1 E2]|]; [|by right].
    destruct (IHt (take (split_at k) k) ltac:(rewrite !length_take; lia)
      (take_split_hashes l Hh) (take_split_hashes k Hk) E1) as [T|T].
    2:{ right. eapply collide_mono; [..|exact T]; eauto with merkle. }
    destruct (IHd (drop (split_at k) k) ltac:(rewrite !length_drop; lia)
      (drop_split_hashes l Hh) (drop_split_hashes k Hk) E2) as [D|D].
    2:{ right. eapply collide_mono; [..|exact D]; eauto with merkle. }
    left. rewrite <- (take_drop (split_at l) l), <- (take_drop (split_at k) k). congruence.
Qed.

(** A node whose hash is the root of [l] has the roots of its two halves below it. *)
Lemma node_of_root l a b (A : bytes → Prop) :
  (2 <= length l)%nat → Forall is_hash l → is_hash a → A (node_input a b) →
  node_hash a b = root_of l →
  (a = root_of (take (split_at l) l) ∧ b = root_of (drop (split_at l) l)) ∨
  collide sha256 A (hashed_in l).
Proof.
  intros Hl Hh Ha HA E. rewrite (root_of_node l Hl) in E.
  apply (node_hash_eq _ _ _ _ A (hashed_in l) E); eauto with merkle.
Qed.

(** A turn to the right: both lists share the left half whose root is [s]. *)
Lemma right_turn l old s o n (A : bytes → Prop) :
  (split_at l < length old <= length l)%nat → (2 <= length l)%nat →
  Forall is_hash l → Forall is_hash old → is_hash s →
  A (node_input s o) → A (node_input s n) →
  node_hash s o = root_of old → node_hash s n = root_of l →
  (split_at old = split_at l ∧ take (split_at l) old = take (split_at l) l ∧
   o = root_of (drop (split_at l) old) ∧ n = root_of (drop (split_at l) l)) ∨
  collide sha256 (λ x, A x ∨ hashed_in old x) (λ x, hashed_in old x ∨ hashed_in l x).
Proof.
  intros Hm Hl Hh Ho Hs Ao An Eo En. pose proof (split_at_bounds l Hl) as B.
  assert (2 <= length old)%nat as Hl' by lia.
  assert (split_at old = split_at l) as Eso.
  { unfold split_at in *. f_equal. apply split_same; lia. }
  destruct (node_of_root l s n A) as [[En1 En2]|Hx]; [done..| |].
  2:{ right. eapply collide_mono; [..|exact Hx]; eauto. }
  destruct (node_of_root old s o A) as [[Eo1 Eo2]|Hx]; [done..| |].
  2:{ right. eapply collide_mono; [..|exact Hx]; eauto. }
  destruct (root_inj (take (split_at old) old) (take (split_at l) l)) as [T|T];
    [rewrite !length_take; lia|eauto with merkle..|congruence| |].
  2:{ right. eapply collide_mono; [..|exact T]; eauto with merkle. }
  left. rewrite Eso in *. done.
Qed.

(** The last step of a climb, and what it hashes. *)
Lemma climb2_step seed s b steps r r' :
  is_hash seed → climb2_from (seed, seed) ((s, b) :: steps) = (r, r') →
  ∃ o n, climb2_from (seed, seed) steps = (o, n) ∧ is_hash o ∧ is_hash n ∧
    climb2 (o, n) (s, b) = (r, r') ∧
    (∀ x, climbed2 seed steps x → climbed2 seed ((s, b) :: steps) x) ∧
    (∀ x, (if b then x = node_input n s else x = node_input s o ∨ x = node_input s n) →
          climbed2 seed ((s, b) :: steps) x).
Proof.
  intros Hs E. destruct (climb2_is_hash seed steps Hs) as [Lo Ln].
  change (climb2 (climb2_from (seed, seed) steps) (s, b) = (r, r')) in E.
  cbn [climbed2]. destruct (climb2_from (seed, seed) steps) as [o n].
  exists o, n. split_and!; eauto.
Qed.

Lemma consistency_sound l old seed steps c :
  steps.*2 = (descend_old_from (lenN old) (lenN l) c).1 →
  (1 <= length old <= length l)%nat →
  Forall is_hash l → Forall is_hash old → Forall is_hash steps.*1 → is_hash seed →
  climb2_from (seed, seed) steps = (root_of old, root_of l) →
  old = take (length old) l ∨
  collide sha256 (λ x, climbed2 seed steps x ∨ hashed_in old x)
                 (λ x, hashed_in old x ∨ hashed_in l x).
Proof.
  revert old steps c. induction l as [|h|l Hl IHt IHd] using leaves_ind;
    intros old steps c Ht Hm Hh Ho Hs Hseed E.
  - cbn in Hm. lia.
  - destruct old as [|h' [|]]; [cbn in Hm; lia| |cbn in Hm; lia].
    rewrite descend_old_same in Ht. destruct steps; [|done].
    left. cbn in *. congruence.
  - pose proof (split_at_bounds l Hl) as B.
    assert (N.of_nat (split_at l) = largest_power_of_two_below (lenN l)) as Es
      by (unfold split_at; lia).
    destruct (decide (length old = length l)) as [El|El].
    { rewrite El, descend_old_same in Ht. destruct steps; [|done].
      rewrite El, take_ge by lia. cbn in E. simplify_eq.
      destruct (root_inj old l El) as [|HC]; [done..|congruence|by left|right].
      eapply collide_mono; [..|exact HC]; eauto. }
    rewrite descend_old_step in Ht by lia. cbn zeta in Ht.
    destruct steps as [|[s b] steps]; [by case_match|].
    inversion Hs as [|? ? Hs1 Hs2]; subst.
    destruct (climb2_step _ _ _ _ _ _ Hseed E) as (o & n & Eon & Lo & Ln & E' & HC & HC').
    clear E. set (C := climbed2 seed ((s, b) :: steps)) in *.
    destruct (N.leb_spec (lenN old) (largest_power_of_two_below (lenN l))) as [Hle|Hgt];
      cbn [fst snd] in Ht; injection Ht as -> Ht; cbn [climb2] in E'; injection E' as Eo En.
    + destruct (node_of_root l n s C) as [[-> _]|Hx]; [done..|by apply HC'|done| |].
      2:{ right. eapply collide_mono; [..|exact Hx]; eauto. }
      destruct (IHt old steps c) as [H|H]; eauto with merkle.
      * by rewrite length_take_split.
      * rewrite length_take. lia.
      * by rewrite Eo, <- Eon in *.
      * left. rewrite take_take, Nat.min_l in H by lia. done.
      * right. eapply collide_mono; [..|exact H]; naive_solver eauto with merkle.
    + destruct (right_turn l old s o n C) as [(Eso & T & -> & ->)|Hx];
        [lia|done..|apply HC'; by left|apply HC'; by right|done|done| |].
      2:{ right. eapply collide_mono; [..|exact Hx]; naive_solver eauto. }
      destruct (IHd (drop (split_at l) old) steps false) as [H|H]; eauto with merkle.
      * rewrite length_drop_split by done.
        replace (lenN (drop (split_at l) old)) with (lenN old - largest_power_of_two_below (lenN l))
          by (rewrite length_drop; lia). exact Ht.
      * rewrite !length_drop. lia.
      * by apply Forall_drop.
      * left. transitivity (take (split_at l) old ++ drop (split_at l) old);
          [symmetry; apply take_drop|].
        rewrite T, H, length_drop, take_take_drop. f_equal. lia.
      * assert (2 <= length old)%nat by lia.
        assert (∀ x, hashed_in (drop (split_at l) old) x → hashed_in old x)
          by (rewrite <- Eso; eauto with merkle).
        right. eapply collide_mono; [..|exact H]; naive_solver eauto with merkle.
Qed.
End merkle.

(** * The wire form of proofs *)

Lemma chunks_exact_concat l r :
  Forall is_hash l → chunks_exact (length l) (concat l ++ r) = l.
Proof.
  induction 1 as [|h l Hh _ IH]; [done|]. cbn. rewrite <- app_assoc.
  by rewrite take_app_len, drop_app_len, IH.
Qed.

Lemma chunks_exact_spec n b :
  length b = (32 * n)%nat →
  concat (chunks_exact n b) = b ∧ length (chunks_exact n b) = n ∧
  Forall is_hash (chunks_exact n b).
Proof.
  revert b. induction n as [|n IH]; intros b Hb; cbn.
  - destruct b; [done|cbn in Hb; lia].
  - destruct (IH (drop 32 b)) as (E & L & F); [rewrite length_drop; lia|].
    rewrite E, L, take_drop. split_and!; [done..|]. constructor; [|done].
    unfold is_hash. rewrite length_take. lia.
Qed.

Lemma concat_hashes_length l : Forall is_hash l → lenN (concat l) = 32 * lenN l.
Proof. induction 1 as [|h l Hh _ IH]; [done|]. cbn. rewrite length_app. unfold is_hash in Hh. lia. Qed.

(** The fields of an encoding long enough for its header. *)
Lemma proof_fields (b : bytes) :
  PROOF_HEADER <= lenN b →
  ∃ t f s c r, b = t :: f ++ s ++ c :: r ∧ length f = 8%nat ∧ length s = 8%nat.
Proof.
  unfold PROOF_HEADER. intros H. destruct b as [|t b]; [cbn in H; lia|]. cbn [length] in H.
  exists t, (take 8 b), (take 8 (drop 8 b)).
  destruct (drop 16 b) as [|c r] eqn:E.
  { apply (f_equal length) in E. rewrite length_drop in E. cbn in E. lia. }
  exists c, r. rewrite !length_take, length_drop. split_and!; [|lia..].
  f_equal. rewrite <- (take_drop 8 b) at 1. f_equal.
  rewrite <- (take_drop 8 (drop 8 b)) at 1. f_equal. rewrite drop_drop. exact E.
Qed.

Lemma decode_proof_fields tag t f s c r :
  length f = 8%nat → length s = 8%nat →
  decode_proof tag (t :: f ++ s ++ c :: r) =
    (refuse_if (negb (Byte.to_N t =? tag)) Malformed;;
     refuse_if (MAX_PROOF_LEN <? Byte.to_N c) (ProofTooLong (Byte.to_N c));;
     refuse_if (negb (lenN r =? 32 * Byte.to_N c)) Malformed;;
     Ok (unbe f, unbe s, chunks_exact (N.to_nat (Byte.to_N c)) r)).
Proof.
  intros Hf Hs. unfold decode_proof, slice, byte_at.
  assert (lenN (t :: f ++ s ++ c :: r) = 18 + lenN r) as -> by len.
  unfold PROOF_HEADER. rewrite (proj2 (N.ltb_ge (18 + lenN r) 18)) by lia.
  change (N.to_nat (9 - 1)) with 8%nat. change (N.to_nat (17 - 9)) with 8%nat.
  change (N.to_nat 1) with 1%nat. change (N.to_nat 9) with (S 8). cbn [orb nth drop].
  rewrite drop_0, (take_app_len 8 f), (drop_app_len 8 f), (take_app_len 8 s) by done.
  rewrite (app_nth2 f) by lia. rewrite (app_nth2 s) by lia.
  rewrite Hf, Hs. cbn [Nat.sub nth app].
  change 17%nat with (8 + 9)%nat. rewrite <- drop_drop, (drop_app_len 8 f) by done.
  change 9%nat with (8 + 1)%nat. rewrite <- drop_drop, (drop_app_len 8 s) by done.
  cbn [drop].
  replace (18 + lenN r =? 18 + 32 * Byte.to_N c) with (lenN r =? 32 * Byte.to_N c) by lia.
  done.
Qed.

Lemma proof_decode_iff tag b first second path :
  tag < 256 →
  decode_proof tag b = Ok (first, second, path) ↔
  encode_proof tag first second path = Ok b ∧
  first < u64_bound ∧ second < u64_bound ∧ Forall is_hash path.
Proof.
  intros Htag. split.
  - intros H. assert (PROOF_HEADER <= lenN b) as Hb.
    { unfold decode_proof in H. inv_ok. b2p. lia. }
    destruct (proof_fields b Hb) as (t & f & s & c & r & -> & Hf & Hs).
    rewrite decode_proof_fields in H by done. inv_ok. b2p.
    destruct (chunks_exact_spec (N.to_nat (Byte.to_N c)) r) as (E & L & F); [lia|].
    split_and!; [|by apply unbe_u64_bound..|done].
    unfold encode_proof. rewrite L, N2Nat.id.
    rewrite refuse_if_pass by lia. cbn [mbind result_mbind result_bind].
    rewrite E, <- Hok, !byte_of_to_N. unfold u64be.
    by rewrite (be_unbe_len 8 f Hf), (be_unbe_len 8 s Hs).
  - intros (H & Hf & Hs & Hp). unfold encode_proof in H.
    apply bind_Ok_iff in H as ([] & Hc%refuse_if_Ok_iff & <-%Ok_inj). b2p.
    unfold MAX_PROOF_LEN in Hc. cbn [app]. rewrite decode_proof_fields by apply length_u64be.
    rewrite !to_N_byte_of, !N.mod_small by lia.
    rewrite N.eqb_refl, (concat_hashes_length _ Hp), N.eqb_refl. unfold MAX_PROOF_LEN.
    rewrite (proj2 (N.ltb_ge 64 (lenN path))) by lia. cbn [negb refuse_if].
    cbn [mbind result_mbind result_bind]. rewrite !unbe_u64be, Nat2N.id by done.
    do 2 f_equal. rewrite <- (app_nil_r (concat path)). by apply chunks_exact_concat.
Qed.

(** * Properties *)
Section properties.
Context (sha256 : bytes → Hash).

(** The log after a sequence of appends. *)
Definition publish (entries : list bytes) : TransparencyLog :=
  fold_left (λ log data, (append sha256 log data).1) entries new_log.

Lemma publish_eq entries : publish entries = map (leaf_hash sha256) entries.
Proof.
  unfold publish. change (map (leaf_hash sha256) entries)
    with (new_log ++ map (leaf_hash sha256) entries).
  generalize new_log. induction entries as [|e entries IH]; intros log; cbn.
  - by rewrite app_nil_r.
  - rewrite IH. cbn. by rewrite <- app_assoc.
Qed.

(** The strings hashed to build a log and its root. *)
Definition hashed_log (entries : list bytes) (x : bytes) : Prop :=
  x ∈ map leaf_input entries ∨ hashed_in sha256 (publish entries) x.

Lemma publish_hashes entries :
  (∀ x, is_hash (sha256 x)) → Forall is_hash (publish entries).
Proof. intros H. rewrite publish_eq. apply Forall_map, Forall_true. intros. apply H. Qed.

Lemma leaf_hashes_eq es ds (A B : bytes → Prop) :
  map (leaf_hash sha256) es = map (leaf_hash sha256) ds →
  (∀ x, x ∈ map leaf_input es → A x) → (∀ x, x ∈ map leaf_input ds → B x) →
  es = ds ∨ collide sha256 A B.
Proof.
  intros E HA HB. change (leaf_hash sha256) with (λ x, sha256 (leaf_input x)) in E.
  rewrite <- !(map_map leaf_input sha256) in E.
  destruct (map_hash_eq_or_collide _ _ _ E) as [El|HC].
  - left. clear -El. revert ds El. induction es as [|e es IH]; intros [|d ds] E; try done.
    cbn in E. injection E as -> E. f_equal. by apply IH.
  - right. eapply collide_mono; [..|exact HC]; done.
Qed.

(** C11. History cannot be rewritten: if a consistency proof verifies between
    the root of one log and the root of a larger one, the entries of the first
    are exactly the first entries of the second, unless the verifier holds two
    distinct strings with one SHA-256, both hashed in building the two logs or
    in checking the proof. *)
Theorem consistency_binds_history
    (p : ConsistencyProof) (old new : list bytes) :
  (∀ x, is_hash (sha256 x)) →
  p.(old_size) = lenN old → p.(new_size) = lenN new → Forall is_hash p.(cpath) →
  verify_consistency sha256 p (root sha256 (publish old)) (root sha256 (publish new)) = Ok tt →
  old = take (length old) new ∨
  collide sha256
    (λ x, (let '(seed, steps) := consistency_steps p (root sha256 (publish old)) in
           climbed2 sha256 seed steps x) ∨ hashed_log old x)
    (λ x, hashed_log old x ∨ hashed_log new x).
Proof.
  intros Hl Eo En Hp H. apply verify_consistency_Ok in H as (_ & Hm & H).
  unfold consistency_steps in *. rewrite Eo, En in *. unfold descend_old in *.
  fold (descend_old_from (lenN old) (lenN new) true) in *.
  destruct (descend_old_from (lenN old) (lenN new) true) as [turns c] eqn:Ed.
  destruct H as [Hlen H].
  set (q := if c then _ else _) in H |- *.
  assert (q.2.*2 = turns ∧ Forall is_hash q.2.*1 ∧ is_hash q.1) as (Q1 & Q2 & Q3).
  { assert (∀ (p : list Hash) (t : list bool), length p = length t →
      (combine p t).*1 = p ∧ (combine p t).*2 = t) as Hc.
    { clear. induction p as [|x p IH]; intros [|b t] E; try done. cbn in *.
      destruct (IH t) as [-> ->]; [lia|done]. }
    destruct c; [|destruct (cpath p) as [|s path]; [cbn in Hlen; lia|]]; subst q; cbn [fst snd];
      cbn [length] in Hlen;
      match goal with |- context [combine (rev ?p) _] =>
        destruct (Hc (rev p) turns) as [-> ->]; [rewrite length_rev; lia|] end.
    - split_and!; [done|by apply Forall_rev|]. apply root_is_hash; [done|by apply publish_hashes].
    - inversion Hp; subst. split_and!; [done|by apply Forall_rev|done]. }
  destruct q as [seed steps]. cbn [fst snd] in *.
  assert (∀ es, length (publish es) = length es) as Lp
    by (intros es; by rewrite publish_eq, length_map).
  destruct (consistency_sound sha256 Hl (publish new) (publish old) seed steps true) as [E|HC];
    [by rewrite !Lp, Ed|rewrite !Lp; lia|by apply publish_hashes..|done|done|done| |].
  - rewrite Lp, !publish_eq in E.
    change (take (length old) (map ?f new)) with (firstn (length old) (map f new)) in E.
    rewrite firstn_map in E.
    apply (leaf_hashes_eq _ _ _ _ E).
    + intros x Hx. right. by left.
    + intros x Hx. right. left. rewrite list_elem_of_In in *.
      rewrite <- firstn_map in Hx. rewrite <- (firstn_skipn (length old) (map _ new)).
      apply in_or_app. by left.
  - right. eapply collide_mono; [..|exact HC]; unfold hashed_log; naive_solver.
Qed.

(** C26. Inclusion binds the entry: if an audit path verifies for an entry at
    an index against the root of a log of the stated size, that entry is the
    one at that index, or two distinct hashed strings collide. *)
Theorem inclusion_binds_entry (p : InclusionProof) (entries : list bytes) (data : bytes) :
  (∀ x, is_hash (sha256 x)) →
  p.(size) = lenN entries → Forall is_hash p.(path) →
  verify_inclusion sha256 p (leaf_hash sha256 data) (root sha256 (publish entries)) = Ok tt →
  entries !! N.to_nat p.(index) = Some data ∨
  collide sha256
    (λ x, x = leaf_input data ∨
          climbed sha256 (leaf_hash sha256 data)
            (combine (rev p.(path)) (descend p.(index) p.(size))) x)
    (hashed_log entries).
Proof.
  intros Hl Es Hp H. unfold verify_inclusion in H. inv_ok. b2p.
  assert (length p.(path) = length (descend p.(index) p.(size))) as Hlen by lia.
  rewrite fold_left_deepest_first in H by done.
  assert (∀ (p : list Hash) (t : list bool), length p = length t →
    (combine p t).*1 = p ∧ (combine p t).*2 = t) as Hc.
  { clear. induction p as [|x p IH]; intros [|b t] E; try done. cbn in *.
    destruct (IH t) as [-> ->]; [lia|done]. }
  destruct (Hc (rev p.(path)) (descend p.(index) p.(size))) as [Q1 Q2];
    [rewrite length_rev; lia|].
  assert (length (publish entries) = length entries) as Lp
    by (by rewrite publish_eq, length_map).
  destruct (inclusion_sound sha256 Hl (publish entries) (N.to_nat p.(index))
    (leaf_hash sha256 data) (combine (rev p.(path)) (descend p.(index) p.(size))))
    as [E|HC].
  - rewrite Q2, N2Nat.id, Lp. congruence.
  - rewrite Lp. lia.
  - by apply publish_hashes.
  - rewrite Q1. by apply Forall_rev.
  - apply Hl.
  - done.
  - rewrite publish_eq, list_lookup_fmap in E. apply fmap_Some in E as (d & Ed & E).
    rewrite Ed. destruct (hash_eq_or_collide sha256 (leaf_input data) (leaf_input d)
      (λ x, x = leaf_input data) (λ x, x ∈ map leaf_input entries)) as [Eq|HC]; [done| |done|..].
    + by apply list_elem_of_fmap_2, list_elem_of_lookup_2 with (N.to_nat p.(index)).
    + left. by injection Eq as ->.
    + right. eapply collide_mono; [..|exact HC]; unfold hashed_log; naive_solver.
  - right. eapply collide_mono; [..|exact HC]; unfold hashed_log; naive_solver.
Qed.

(** An honest log proves itself: for every log of at most 2^63 entries,
    every entry has an audit path that verifies at every size that holds it,
    and every earlier size has a consistency proof to every later one. *)
Theorem log_proves_itself (entries : list bytes) (i m n : N) (data : bytes) :
  lenN entries <= 2 ^ 63 → 1 <= m → m <= n → n <= lenN entries → i < n →
  entries !! N.to_nat i = Some data →
  ∃ pi pc old_root new_root,
    prove_inclusion sha256 (publish entries) i n = Ok pi ∧
    prove_consistency sha256 (publish entries) m n = Ok pc ∧
    root_at sha256 (publish entries) m = Ok old_root ∧
    root_at sha256 (publish entries) n = Ok new_root ∧
    verify_inclusion sha256 pi (leaf_hash sha256 data) new_root = Ok tt ∧
    verify_consistency sha256 pc old_root new_root = Ok tt.
Proof.
  intros Hb Hm Hmn Hn Hi Hd.
  assert (length (publish entries) = length entries) as Lp
    by (by rewrite publish_eq, length_map).
  destruct (inclusion_complete sha256 (publish entries) i n (leaf_hash sha256 data))
    as (pi & r & E1 & E2 & E3); [rewrite Lp; unfold u64_bound; lia|by rewrite Lp|done| |].
  { rewrite publish_eq, list_lookup_fmap, Hd. done. }
  destruct (consistency_complete sha256 (publish entries) m n)
    as (pc & o & r' & E4 & E5 & E6 & E7); [by rewrite Lp|done|done|by rewrite Lp|].
  assert (r' = r) as -> by congruence. naive_solver.
Qed.
End properties.

(** Proofs have one wire form: a string decodes as an inclusion proof
    exactly when it is the encoding of one whose integers are u64 and whose
    path has at most 64 hashes of 32 bytes. *)
Theorem inclusion_proof_decode_iff (b : bytes) (p : InclusionProof) :
  decode_inclusion b = Ok p ↔
  encode_inclusion p = Ok b ∧
  p.(index) < u64_bound ∧ p.(size) < u64_bound ∧ Forall is_hash p.(path).
Proof.
  unfold decode_inclusion, encode_inclusion. rewrite <- proof_decode_iff by done.
  rewrite bind_Ok_iff. destruct p as [i n pa]. cbn. split.
  - intros ([[i' n'] pa'] & H & E). by simplify_eq.
  - intros H. by exists (i, n, pa).
Qed.

(** C39. The verifier's descent terminates for every size an untrusted proof
    can claim: the split it computes is a power of two strictly inside the
    range, also above 2^63, the loop follows its equation, and it takes at
    most 64 turns. *)
Theorem descent_terminates (i n : N) :
  1 < n → n < u64_bound → i < n →
  let split := largest_power_of_two_below n in
  1 <= split < n ∧ n <= 2 * split ∧
  descend i n =
    (if i <? split then true :: descend i split else false :: descend (i - split) (n - split)) ∧
  lenN (descend i n) <= MAX_PROOF_LEN.
Proof.
  intros H1 H2 Hi. cbn zeta. pose proof (split_bounds n ltac:(lia)) as [H3 H4].
  split_and!; [lia..|by apply descend_step|]. apply (descend_length i n 64).
  change (2 ^ 64) with u64_bound. lia.
Qed.

(** ** Witnesses *)
Module Samples.
Definition two : list bytes := [text "a"; text "b"].
Definition three : list bytes := [text "a"; text "b"; text "c"].
Definition growth : ConsistencyProof :=
  {| old_size := 2; new_size := 3; cpath := [leaf_hash toy_hash (text "c")] |}.
Definition audit : InclusionProof :=
  {| index := 1; size := 2; path := [leaf_hash toy_hash (text "a")] |}.
End Samples.

Lemma consistency_binds_history_witness :
  Samples.two = take 2 Samples.three ∨
  collide toy_hash
    (λ x, (let '(seed, steps) :=
             consistency_steps Samples.growth (root toy_hash (publish toy_hash Samples.two)) in
           climbed2 toy_hash seed steps x) ∨ hashed_log toy_hash Samples.two x)
    (λ x, hashed_log toy_hash Samples.two x ∨ hashed_log toy_hash Samples.three x).
Proof.
  apply (consistency_binds_history toy_hash Samples.growth Samples.two Samples.three);
    [apply toy_hash_length|reflexivity|reflexivity| |vm_compute; reflexivity].
  repeat constructor.
Defined.

Lemma inclusion_binds_entry_witness :
  Samples.two !! 1%nat = Some (text "b") ∨
  collide toy_hash
    (λ x, x = leaf_input (text "b") ∨
          climbed toy_hash (leaf_hash toy_hash (text "b"))
            (combine (rev Samples.audit.(path)) (descend 1 2)) x)
    (hashed_log toy_hash Samples.two).
Proof.
  apply (inclusion_binds_entry toy_hash Samples.audit Samples.two (text "b"));
    [apply toy_hash_length|reflexivity| |vm_compute; reflexivity].
  repeat constructor.
Defined.

Lemma log_proves_itself_witness :
  ∃ pi pc old_root new_root,
    prove_inclusion toy_hash (publish toy_hash Samples.three) 1 3 = Ok pi ∧
    prove_consistency toy_hash (publish toy_hash Samples.three) 2 3 = Ok pc ∧
    root_at toy_hash (publish toy_hash Samples.three) 2 = Ok old_root ∧
    root_at toy_hash (publish toy_hash Samples.three) 3 = Ok new_root ∧
    verify_inclusion toy_hash pi (leaf_hash toy_hash (text "b")) new_root = Ok tt ∧
    verify_consistency toy_hash pc old_root new_root = Ok tt.
Proof. apply (log_proves_itself toy_hash Samples.three); done. Defined.

Lemma descent_terminates_witness :
  let n := 9223372036854775809 in
  1 <= largest_power_of_two_below n < n ∧ lenN (descend 5 n) <= MAX_PROOF_LEN.
Proof.
  destruct (descent_terminates 5 9223372036854775809) as (H1 & _ & _ & H2);
    [reflexivity..|]. by split.
Defined.
