(* ===== verification/Note.v ===== *)
(** [hide-transparency/src/checkpoint.rs]: checkpoints as signed notes, their
    text form, cosignatures and the verification of a log with witnesses.
    SHA-256 and the [base64] engine are parameters. *)
From S2P Require Import Prelude Utf8 Sign Merkle.
Local Open Scope N_scope.

Definition CHECKPOINT_CONTEXT : bytes := text "HIDE/1.0 checkpoint".
Definition SIGNATURE_TYPE : bytes := byte_of 255 :: text "HIDE/1.0 hide-sign".
Definition MAX_ORIGIN_BYTES : N := 256.
Definition MAX_SIGNATURES : N := 32.
Definition MAX_NOTE_BYTES : N := 196608.

(** An em dash and a space. *)
Definition DASH : bytes := [byte_of 226; byte_of 128; byte_of 148; byte_of 32].
Definition newline : byte := byte_of 10.
Definition space : byte := byte_of 32.

Record NoteSignature := { name : bytes; keyid : bytes; note_signature : bytes }.
Record SignedNote := { note_text : bytes; signatures : list NoteSignature }.
Record Checkpoint := { origin : bytes; csize : N; croot : Hash }.

#[export] Instance NoteSignature_eq_dec : EqDecision NoteSignature.
Proof. solve_decision. Defined.
#[export] Instance SignedNote_eq_dec : EqDecision SignedNote.
Proof. solve_decision. Defined.
#[export] Instance Checkpoint_eq_dec : EqDecision Checkpoint.
Proof. solve_decision. Defined.

(** * What the standard library does to strings *)

(** [s.split_terminator('\n')], with the piece read so far. *)
Fixpoint split_terminator_from (piece s : bytes) : list bytes :=
  match s with
  | [] => if bool_decide (piece = []) then [] else [piece]
  | b :: s =>
      if bool_decide (b = newline) then piece :: split_terminator_from [] s
      else split_terminator_from (piece ++ [b]) s
  end.

Definition split_terminator (s : bytes) : list bytes := split_terminator_from [] s.

(** [s.rfind("\n\n")] *)
Fixpoint rfind_blank_line (s : bytes) : option nat :=
  match s with
  | [] => None
  | b :: s =>
      match rfind_blank_line s with
      | Some i => Some (S i)
      | None =>
          match s with
          | c :: _ => if bool_decide (b = newline) && bool_decide (c = newline)
                      then Some 0%nat else None
          | [] => None
          end
      end
  end.

(** [s.split_once(' ')] *)
Fixpoint split_once_space (s : bytes) : option (bytes * bytes) :=
  match s with
  | [] => None
  | b :: s =>
      if bool_decide (b = space) then Some ([], s)
      else '(l, r) ← split_once_space s; Some (b :: l, r)
  end.

(** [s.strip_prefix(p)] *)
Definition strip_prefix (p s : bytes) : option bytes :=
  if starts_with p s then Some (drop (length p) s) else None.

Definition ends_with_newline (s : bytes) : bool := bool_decide (last s = Some newline).

(** [u64]'s [Display], at most [fuel] digits; a [u64] has at most 20. *)
Fixpoint digits (fuel : nat) (n : N) : bytes :=
  match fuel with
  | O => []
  | S fuel => (if n <? 10 then [] else digits fuel (n / 10)) ++ [byte_of (48 + n mod 10)]
  end.

Definition print_u64 (n : N) : bytes := digits 20 n.

Definition is_digit (b : byte) : bool := (48 <=? Byte.to_N b) && (Byte.to_N b <=? 57).

Definition digits_value (s : bytes) : N :=
  fold_left (λ acc b, acc * 10 + (Byte.to_N b - 48)) s 0.

(** [s.parse::<u64>()]: an optional plus sign, then digits, no overflow. *)
Definition parse_u64 (s : bytes) : option N :=
  let s := match s with
           | b :: r => if bool_decide (b = byte_of 43) then r else s
           | [] => s
           end in
  if bool_decide (s = []) || negb (forallb is_digit s) || (u64_max <? digits_value s)
  then None else Some (digits_value s).

(** * Base64, [base64::engine::general_purpose::STANDARD] *)
Class Base64 := {
  b64_encode : bytes → bytes;
  b64_decode : bytes → option bytes;
}.

Definition printable (b : byte) : bool := (33 <=? Byte.to_N b) && (Byte.to_N b <=? 126).

(** The standard alphabet and its padding. *)
Definition base64_char (b : byte) : bool :=
  let n := Byte.to_N b in
  ((65 <=? n) && (n <=? 90)) || ((97 <=? n) && (n <=? 122)) || ((48 <=? n) && (n <=? 57))
  || (n =? 43) || (n =? 47) || (n =? 61).

Class Base64Laws (B : Base64) : Prop := {
  b64_decode_encode b : b64_decode (b64_encode b) = Some b;
  b64_alphabet b : forallb base64_char (b64_encode b) = true;
  b64_empty : b64_encode [] = [];
}.

Lemma b64_printable `{Base64Laws} b : forallb printable (b64_encode b) = true.
Proof.
  apply forallb_forall. intros x Hx. pose proof (b64_alphabet b) as Ha.
  apply forallb_forall with (x := x) in Ha; [|done]. unfold base64_char in Ha. unfold printable. lia.
Qed.

Definition valid_name (name : bytes) : bool :=
  negb (bool_decide (name = [])) && (lenN name <=? MAX_ORIGIN_BYTES)
  && forallb (λ b, (33 <=? Byte.to_N b) && (Byte.to_N b <=? 126) && negb (Byte.to_N b =? 43)) name.

(** * Notes *)
Section note.
Context (sha256 : bytes → Hash) {B : Base64} {S : SignatureScheme}.

Definition key_id (name : bytes) (key : VK) : bytes :=
  take 4 (sha256 (name ++ [byte_of 10] ++ SIGNATURE_TYPE ++ vk_to_bytes key)).

Definition encode_line (s : NoteSignature) : bytes :=
  DASH ++ s.(name) ++ [space] ++ b64_encode (s.(keyid) ++ s.(note_signature)) ++ [newline].

Definition encode (n : SignedNote) : bytes :=
  n.(note_text) ++ [newline] ++ concat (map encode_line n.(signatures)).

Definition parse_line (line : bytes) : result LogError NoteSignature :=
  rest ← ok_or (strip_prefix DASH line) Malformed;
  '(name, encoded) ← ok_or (split_once_space rest) Malformed;
  refuse_if (negb (valid_name name)) Malformed;;
  raw ← ok_or (b64_decode encoded) Malformed;
  refuse_if (lenN raw <? 5) Malformed;;
  Ok {| name := name; keyid := take 4 raw; note_signature := drop 4 raw |}.

Fixpoint parse_lines (signatures : list NoteSignature) (lines : list bytes)
  : result LogError (list NoteSignature) :=
  match lines with
  | [] => Ok signatures
  | line :: lines =>
      refuse_if (lenN signatures =? MAX_SIGNATURES) Malformed;;
      s ← parse_line line;
      parse_lines (signatures ++ [s]) lines
  end.

Definition decode (b : bytes) : result LogError SignedNote :=
  refuse_if (MAX_NOTE_BYTES <? lenN b) Malformed;;
  refuse_if (negb (utf8_valid b)) Malformed;;
  refuse_if (existsb (λ c, is_control c && negb (c =? 10)) (chars b)
             || negb (ends_with_newline b)) Malformed;;
  split ← ok_or (rfind_blank_line b) Malformed;
  let text := take (split + 1) b in
  let block := drop (split + 2) b in
  signatures ← parse_lines [] (split_terminator block);
  refuse_if (bool_decide (signatures = [])) Malformed;;
  let parsed := {| note_text := text; signatures := signatures |} in
  refuse_if (negb (bool_decide (encode parsed = b))) Malformed;;
  Ok parsed.

(** The loop of [signed_by] over the lines that carry this name and key id. *)
Fixpoint check_lines (key : VK) (text : bytes) (found : bool) (lines : list NoteSignature)
  : result LogError bool :=
  match lines with
  | [] => Ok found
  | line :: lines =>
      refuse_if (negb (lenN line.(note_signature) =? SIGNATURE_LENGTH)
                 || negb (is_ok (verify key CHECKPOINT_CONTEXT text line.(note_signature))))
        BadSignature;;
      check_lines key text true lines
  end.

Definition signed_by (n : SignedNote) (who : bytes) (key : VK) : result LogError bool :=
  let id := key_id who key in
  check_lines key n.(note_text) false
    (List.filter (λ s, bool_decide (s.(name) = who) && bool_decide (s.(keyid) = id))
       n.(signatures)).

(** * Checkpoints *)
Definition checkpoint_text (c : Checkpoint) : result LogError bytes :=
  refuse_if (negb (valid_name c.(origin))) Malformed;;
  Ok (c.(origin) ++ [newline] ++ print_u64 c.(csize) ++ [newline]
        ++ b64_encode c.(croot) ++ [newline]).

Definition parse_text (t : bytes) : result LogError Checkpoint :=
  match split_terminator t with
  | [origin; size; root] =>
      refuse_if (negb (valid_name origin)) Malformed;;
      size ← ok_or (parse_u64 size) Malformed;
      root ← ok_or (b64_decode root) Malformed;
      refuse_if (negb (lenN root =? 32)) Malformed;;
      let checkpoint := {| origin := origin; csize := size; croot := root |} in
      text ← checkpoint_text checkpoint;
      refuse_if (negb (bool_decide (text = t))) Malformed;;
      Ok checkpoint
  | _ => Err Malformed
  end.

Definition sign_checkpoint (c : Checkpoint) (log : SK) : result LogError SignedNote :=
  text ← checkpoint_text c;
  Ok {| note_text := text;
        signatures := [{| name := c.(origin); keyid := key_id c.(origin) (verifying_key log);
                          note_signature := sign log CHECKPOINT_CONTEXT text |}] |}.

Definition cosign (n : SignedNote) (name : bytes) (witness : SK)
  : result LogError SignedNote :=
  refuse_if (negb (valid_name name) || (MAX_SIGNATURES <=? lenN n.(signatures))) Malformed;;
  Ok {| note_text := n.(note_text);
        signatures := n.(signatures) ++
          [{| name := name; keyid := key_id name (verifying_key witness);
              note_signature := sign witness CHECKPOINT_CONTEXT n.(note_text) |}] |}.

(** The witness loop: the names and ids counted so far, the number of
    cosignatures found. *)
Fixpoint count_witnesses (n : SignedNote) (counted : list (bytes * bytes)) (cosigned : N)
    (witnesses : list (bytes * VK)) : result LogError N :=
  match witnesses with
  | [] => Ok cosigned
  | (name, key) :: witnesses =>
      let id := key_id name key in
      if existsb (λ e, bool_decide (e.1 = name) || bool_decide (e.2 = id)) counted then
        count_witnesses n counted cosigned witnesses
      else
        signed ← signed_by n name key;
        if (signed : bool) then
          count_witnesses n (counted ++ [(name, id)]) (cosigned + 1) witnesses
        else count_witnesses n counted cosigned witnesses
  end.

Definition verify_witnessed (note expected : bytes) (log : VK)
    (witnesses : list (bytes * VK)) (threshold : N) : result LogError Checkpoint :=
  parsed ← decode note;
  checkpoint ← parse_text parsed.(note_text);
  refuse_if (negb (bool_decide (checkpoint.(origin) = expected)))
    (WrongOrigin checkpoint.(origin));;
  signed ← signed_by parsed expected log;
  refuse_if (negb signed) Unsigned;;
  cosigned ← count_witnesses parsed [(expected, key_id expected log)] 0 witnesses;
  refuse_if (cosigned <? threshold) Unsigned;;
  Ok checkpoint.

Definition verify_note (note expected : bytes) (log : VK) : result LogError Checkpoint :=
  verify_witnessed note expected log [] 0.
End note.

(** * Strings *)

Definition no_newline (s : bytes) : Prop := newline ∉ s.

Lemma split_terminator_line piece l r :
  no_newline l →
  split_terminator_from piece (l ++ newline :: r) = (piece ++ l) :: split_terminator r.
Proof.
  revert piece. induction l as [|b l IH]; intros piece Hl.
  - cbn [app split_terminator_from]. rewrite bool_decide_eq_true_2 by done.
    by rewrite app_nil_r.
  - cbn [app split_terminator_from]. apply not_elem_of_cons in Hl as [Hb Hl].
    rewrite bool_decide_eq_false_2 by done. rewrite IH by done. by rewrite <- app_assoc.
Qed.

Lemma split_terminator_lines ls :
  Forall no_newline ls → split_terminator (concat (map (λ l, l ++ [newline]) ls)) = ls.
Proof.
  induction 1 as [|l ls Hl _ IH]; [done|]. cbn [map concat]. rewrite <- app_assoc.
  cbn [app]. unfold split_terminator. rewrite split_terminator_line by done. by f_equal.
Qed.

Lemma rfind_blank_line_app p s i :
  rfind_blank_line s = Some i → rfind_blank_line (p ++ s) = Some (length p + i)%nat.
Proof. intros H. induction p as [|b p IH]; [done|]. cbn. by rewrite IH. Qed.

(** A block of non-empty lines holds no blank line. *)
Definition solid (s : bytes) : Prop := rfind_blank_line s = None ∧ head s ≠ Some newline.

Lemma solid_line l r : l ≠ [] → no_newline l → solid r → solid (l ++ newline :: r).
Proof.
  intros Hne Hl [Hr Hh]. destruct l as [|b l]; [done|]. clear Hne.
  assert (rfind_blank_line (newline :: r) = None) as Hn.
  { cbn. rewrite Hr. destruct r as [|c r]; [done|]. cbn in Hh.
    rewrite (bool_decide_eq_false_2 (c = newline)) by congruence. by rewrite andb_false_r. }
  apply not_elem_of_cons in Hl as [Hb Hl]. split; [|cbn; congruence].
  revert b Hb. induction l as [|b' l IH]; intros b Hb.
  - cbn [app] in *. cbn -[rfind_blank_line]. change (b :: newline :: r) with ([b] ++ newline :: r).
    cbn. cbn in Hn. rewrite Hn. by rewrite (bool_decide_eq_false_2 (b = newline)).
  - apply not_elem_of_cons in Hl as [Hb' Hl]. specialize (IH Hl b' ltac:(done)).
    cbn [app] in IH |- *. cbn [rfind_blank_line] in IH |- *. rewrite IH.
    by rewrite (bool_decide_eq_false_2 (b = newline)).
Qed.

Lemma solid_lines ls :
  Forall (λ l, l ≠ [] ∧ no_newline l) ls → solid (concat (map (λ l, l ++ [newline]) ls)).
Proof.
  induction 1 as [|l ls [Hn Hl] _ IH]; [by split|]. cbn [map concat]. rewrite <- app_assoc.
  cbn [app]. by apply solid_line.
Qed.

Lemma rfind_blank_line_last t block :
  last t = Some newline → solid block →
  rfind_blank_line (t ++ newline :: block) = Some (length t - 1)%nat.
Proof.
  intros Ht [Hb Hh]. apply last_Some in Ht as [t' ->]. rewrite <- app_assoc.
  rewrite length_app. cbn [length app].
  rewrite (rfind_blank_line_app t' _ 0); [f_equal; lia|].
  cbn. rewrite Hb. destruct block as [|c block]; [done|]. cbn in Hh.
  rewrite (bool_decide_eq_false_2 (c = newline)) by congruence.
  by rewrite andb_false_r.
Qed.

Lemma split_once_space_app l r : space ∉ l → split_once_space (l ++ space :: r) = Some (l, r).
Proof.
  induction l as [|b l IH]; intros Hl; cbn.
  - done.
  - apply not_elem_of_cons in Hl as [Hb Hl].
    rewrite bool_decide_eq_false_2, IH by done. done.
Qed.

Lemma strip_prefix_app p s : strip_prefix p (p ++ s) = Some s.
Proof. unfold strip_prefix. by rewrite starts_with_app, drop_app_length. Qed.

Lemma forallb_elem {A} (f : A → bool) l x : forallb f l = true → x ∈ l → f x = true.
Proof. rewrite forallb_forall. intros H Hx. apply H. by rewrite <- list_elem_of_In. Qed.

Lemma printable_no_newline s : forallb printable s = true → no_newline s.
Proof. intros H Hn. by apply (forallb_elem _ _ _ H) in Hn. Qed.

Lemma printable_ascii s : forallb printable s = true → is_ascii s = true.
Proof.
  unfold is_ascii. rewrite !forallb_forall. intros H b Hb. specialize (H b Hb).
  unfold printable in H. lia.
Qed.

Lemma valid_name_printable n : valid_name n = true → forallb printable n = true.
Proof.
  unfold valid_name. rewrite !andb_true_iff. intros [_ H]. rewrite forallb_forall in *.
  intros b Hb. specialize (H b Hb). unfold printable. b2p. lia.
Qed.

Lemma valid_name_nonempty n : valid_name n = true → n ≠ [].
Proof. unfold valid_name. rewrite !andb_true_iff. intros [[H _] _]. by b2p. Qed.

Lemma valid_name_no_space n : valid_name n = true → space ∉ n.
Proof. intros H Hs. apply valid_name_printable in H. by apply (forallb_elem _ _ _ H) in Hs. Qed.

(** ** Decimal integers *)

Lemma digits_value_snoc s b : digits_value (s ++ [b]) = digits_value s * 10 + (Byte.to_N b - 48).
Proof. unfold digits_value. by rewrite fold_left_app. Qed.

Lemma digit_byte n : Byte.to_N (byte_of (48 + n mod 10)) = 48 + n mod 10.
Proof. rewrite to_N_byte_of. pose proof (N.mod_upper_bound n 10). apply N.mod_small. lia. Qed.

Lemma digit_is_digit n : is_digit (byte_of (48 + n mod 10)) = true.
Proof.
  unfold is_digit. rewrite digit_byte. pose proof (N.mod_upper_bound n 10 ltac:(lia)).
  generalize dependent (n mod 10). intros d Hd. lia.
Qed.

Lemma digits_spec fuel n :
  n < 10 ^ N.of_nat fuel →
  digits_value (digits fuel n) = n ∧ forallb is_digit (digits fuel n) = true ∧
  (fuel ≠ 0%nat → digits fuel n ≠ []).
Proof.
  revert n. induction fuel as [|fuel IH]; intros n Hn.
  - cbn in *. split; [lia|done].
  - cbn [digits]. rewrite digits_value_snoc, digit_byte, forallb_app. cbn [forallb].
    rewrite digit_is_digit, (N.add_comm 48), N.add_sub.
    rewrite Nat2N.inj_succ, N.pow_succ_r' in Hn.
    pose proof (N.div_mod n 10 ltac:(lia)).
    destruct (N.ltb_spec n 10) as [Hlt|Hge].
    + rewrite N.mod_small by done. split_and!; [cbn; lia|done|done].
    + destruct (IH (n / 10)) as (E & F & _); [apply N.Div0.div_lt_upper_bound; lia|].
      rewrite E, F. split_and!; [lia|done|]. intros _ [_ H0]%app_nil. done.
Qed.

Lemma print_u64_spec n :
  n < u64_bound →
  digits_value (print_u64 n) = n ∧ forallb is_digit (print_u64 n) = true ∧ print_u64 n ≠ [].
Proof.
  intros Hn. destruct (digits_spec 20 n) as (E & F & G).
  - unfold u64_bound in Hn. change (10 ^ N.of_nat 20) with 100000000000000000000. lia.
  - split_and!; [done..|by apply G].
Qed.

Lemma parse_print_u64 n : n < u64_bound → parse_u64 (print_u64 n) = Some n.
Proof.
  intros Hn. destruct (print_u64_spec n Hn) as (E & F & G). unfold parse_u64.
  destruct (print_u64 n) as [|b s] eqn:Ep; [done|].
  assert (b ≠ byte_of 43) as Hb.
  { intros ->. cbn in F. discriminate F. }
  rewrite (bool_decide_eq_false_2 _ Hb), (bool_decide_eq_false_2 _ G), F, E.
  unfold u64_bound in Hn. by rewrite (proj2 (N.ltb_ge u64_max n)) by (unfold u64_max; lia).
Qed.

Lemma digits_printable s : forallb is_digit s = true → forallb printable s = true.
Proof.
  rewrite !forallb_forall. intros H b Hb. specialize (H b Hb).
  unfold is_digit, printable in *. lia.
Qed.

(** * Round trips *)
Section note_laws.
Context (sha256 : bytes → Hash) {B : Base64} {BL : Base64Laws B}.
Context {S : SignatureScheme}.

(** A signature line as [encode] and [decode] agree on it. *)
Record line_valid (s : NoteSignature) : Prop := {
  line_name : valid_name s.(name) = true;
  line_keyid : length s.(keyid) = 4%nat;
  line_signature : s.(note_signature) ≠ [];
}.

(** A note that has an encoding. *)
Record note_valid (n : SignedNote) : Prop := {
  note_size : lenN (encode n) <= MAX_NOTE_BYTES;
  note_utf8 : utf8_valid (encode n) = true;
  note_controls : ∀ c, c ∈ chars (encode n) → is_control c = true → c = 10;
  note_text_line : last n.(note_text) = Some newline;
  note_count : 1 <= lenN n.(signatures) <= MAX_SIGNATURES;
  note_lines : Forall line_valid n.(signatures);
}.

(** The line without its newline. *)
Definition line_body (s : NoteSignature) : bytes :=
  DASH ++ s.(name) ++ [space] ++ b64_encode (s.(keyid) ++ s.(note_signature)).

Lemma encode_line_body s : encode_line s = line_body s ++ [newline].
Proof. unfold encode_line, line_body. by rewrite <- !app_assoc. Qed.

Lemma encode_lines_body l :
  concat (map encode_line l) = concat (map (λ l, l ++ [newline]) (map line_body l)).
Proof.
  rewrite map_map. f_equal. apply map_ext. intros. apply encode_line_body.
Qed.

Lemma line_body_no_newline s : valid_name s.(name) = true → no_newline (line_body s).
Proof.
  intros Hn. unfold no_newline, line_body. rewrite !not_elem_of_app. split_and!.
  - by vm_compute; intros H; repeat (apply elem_of_cons in H as [?|H]; [done|]); inversion H.
  - by apply printable_no_newline, valid_name_printable.
  - by intros H%list_elem_of_singleton.
  - apply printable_no_newline, b64_printable.
Qed.

Lemma parse_line_body s : line_valid s → parse_line (line_body s) = Ok s.
Proof.
  intros [Hn Hk Hs]. unfold parse_line, line_body. rewrite strip_prefix_app.
  cbn [ok_or mbind result_mbind result_bind app].
  rewrite split_once_space_app by by apply valid_name_no_space.
  cbn [ok_or mbind result_mbind result_bind]. rewrite Hn.
  rewrite b64_decode_encode. cbn [negb refuse_if ok_or mbind result_mbind result_bind].
  rewrite take_app_len, drop_app_len by done. rewrite refuse_if_pass.
  - by destruct s.
  - rewrite length_app. destruct (note_signature s); [done|]. cbn. lia.
Qed.

Lemma parse_lines_bodies acc l :
  Forall line_valid l → lenN acc + lenN l <= MAX_SIGNATURES →
  parse_lines acc (map line_body l) = Ok (acc ++ l).
Proof.
  intros H. revert acc. induction H as [|s l Hs _ IH]; intros acc Hn; cbn [map parse_lines].
  - by rewrite app_nil_r.
  - cbn [length] in Hn. rewrite refuse_if_pass by (unfold MAX_SIGNATURES in *; lia).
    cbn [mbind result_mbind result_bind]. rewrite parse_line_body by done.
    cbn [mbind result_mbind result_bind]. rewrite IH; [by rewrite <- app_assoc|]. rewrite length_app. cbn. lia.
Qed.

Lemma note_decode_encode n : note_valid n → decode (encode n) = Ok n.
Proof.
  intros [Hsz Hu Hc Ht Hn Hl]. unfold decode. pass. rewrite Hu. cbn [negb refuse_if mbind result_mbind result_bind].
  assert (Forall (λ l, l ≠ [] ∧ no_newline l) (map line_body (signatures n))) as Hb.
  { apply Forall_map. eapply Forall_impl; [exact Hl|]. intros s [Hv _ _].
    split; [done|by apply line_body_no_newline]. }
  pose proof (solid_lines _ Hb) as Hso. rewrite <- encode_lines_body in Hso.
  assert (existsb (λ c, is_control c && negb (c =? 10)) (chars (encode n)) = false) as ->.
  { apply not_true_iff_false. intros (c & Hin & Hx)%existsb_true_elem. b2p.
    apply (Hc c) in Hin; [lia|done]. }
  assert (ends_with_newline (encode n) = true) as ->.
  { unfold ends_with_newline, encode. apply bool_decide_eq_true.
    destruct (signatures n) as [|s0 l0] eqn:E using rev_ind; [cbn in Hn; lia|].
    rewrite map_app, concat_app. cbn [map concat]. rewrite app_nil_r, encode_line_body.
    rewrite !app_assoc. by rewrite last_snoc. }
  cbn [orb negb refuse_if mbind result_mbind result_bind].
  assert (rfind_blank_line (encode n) = Some (length (note_text n) - 1)%nat) as ->
    by by apply rfind_blank_line_last.
  cbn [ok_or mbind result_mbind result_bind].
  assert (0 < length (note_text n))%nat as Hpos by (destruct (note_text n); [done|cbn; lia]).
  replace (length (note_text n) - 1 + 1)%nat with (length (note_text n)) by lia.
  replace (length (note_text n) - 1 + 2)%nat with (length (note_text n ++ [newline]))
    by (rewrite length_app; cbn; lia).
  assert (drop (length (note_text n ++ [newline])) (encode n) = concat (map encode_line (signatures n))) as ->.
  { unfold encode. rewrite app_assoc. apply drop_app_length. }
  assert (take (length (note_text n)) (encode n) = note_text n) as ->
    by (unfold encode; apply take_app_length).
  rewrite encode_lines_body, split_terminator_lines.
  2:{ eapply Forall_impl; [exact Hb|]. by intros ? [? ?]. }
  rewrite parse_lines_bodies by (done || (cbn [length]; lia)). cbn [app mbind result_mbind result_bind].
  rewrite (bool_decide_eq_false_2 (signatures n = []))
    by (intros E; rewrite E in Hn; cbn in Hn; lia).
  cbn [refuse_if mbind result_mbind result_bind]. destruct n as [t l]. cbn.
  by rewrite bool_decide_eq_true_2.
Qed.

Lemma parse_line_valid l s : parse_line l = Ok s → line_valid s.
Proof.
  unfold parse_line. intros H. inv_ok. b2p. split; cbn; [done| |].
  - rewrite length_take. lia.
  - intros E. apply (f_equal length) in E. rewrite length_drop in E. cbn in E. lia.
Qed.

Lemma parse_lines_valid acc ls l :
  Forall line_valid acc → lenN acc <= MAX_SIGNATURES → parse_lines acc ls = Ok l →
  Forall line_valid l ∧ lenN l <= MAX_SIGNATURES.
Proof.
  revert acc. induction ls as [|x ls IH]; intros acc Ha Hn H; cbn in H; inv_ok; [done|].
  b2p. eapply IH; [| |exact H].
  - apply Forall_app. split; [done|]. constructor; [|done]. by eapply parse_line_valid.
  - rewrite length_app. cbn. lia.
Qed.

Lemma rfind_blank_line_spec s i :
  rfind_blank_line s = Some i → ∃ p q, s = p ++ newline :: newline :: q ∧ length p = i.
Proof.
  revert i. induction s as [|b s IH]; intros i; cbn; [done|].
  destruct (rfind_blank_line s) as [j|].
  - intros [= <-]. destruct (IH j eq_refl) as (p & q & -> & <-). by exists (b :: p), q.
  - destruct s as [|c s]; [done|].
    destruct (bool_decide_reflect (b = newline)) as [->|]; [|done].
    destruct (bool_decide_reflect (c = newline)) as [->|]; [|done].
    intros [= <-]. by exists [], s.
Qed.

Lemma note_decode_inv b n : decode b = Ok n → note_valid n ∧ encode n = b.
Proof.
  unfold decode. intros H.
  apply bind_Ok_iff in H as ([] & H1%refuse_if_Ok_iff & H).
  apply bind_Ok_iff in H as ([] & H2%refuse_if_Ok_iff & H).
  apply bind_Ok_iff in H as ([] & H3%refuse_if_Ok_iff & H).
  apply bind_Ok_iff in H as (i & H4%ok_or_Ok_iff & H).
  apply bind_Ok_iff in H as (l & H5 & H).
  apply bind_Ok_iff in H as ([] & H6%refuse_if_Ok_iff & H).
  apply bind_Ok_iff in H as ([] & H7%refuse_if_Ok_iff & H).
  apply Ok_inj in H as <-. b2p. rename H7 into E. split; [|exact E].
  apply parse_lines_valid in H5 as [Hv Hn]; [|constructor|cbn; lia].
  split; rewrite ?E; try done.
  - intros c Hc Hctl. match goal with H : existsb _ _ = false |- _ =>
      pose proof (existsb_false_elem _ _ _ H Hc) as Hx end.
    cbn in Hx. rewrite Hctl in Hx. cbn in Hx. b2p. done.
  - cbn [note_text]. apply rfind_blank_line_spec in H4 as (p & q & -> & <-).
    change (p ++ newline :: newline :: q) with (p ++ [newline] ++ newline :: q).
    rewrite app_assoc, take_app_len by (rewrite length_app; done). apply last_snoc.
  - cbn [signatures]. split; [|done]. destruct l; [done|cbn; lia].
Qed.

(** ** Checkpoint text *)
Record checkpoint_valid (c : Checkpoint) : Prop := {
  checkpoint_origin : valid_name c.(origin) = true;
  checkpoint_size : c.(csize) < u64_bound;
  checkpoint_root : is_hash c.(croot);
}.

Lemma parse_checkpoint_text c t :
  checkpoint_valid c → checkpoint_text c = Ok t → parse_text t = Ok c.
Proof.
  intros [Ho Hs Hr] H. pose proof H as Ht. unfold checkpoint_text in H.
  apply bind_Ok_iff in H as ([] & _ & <-%Ok_inj).
  destruct (print_u64_spec (csize c) Hs) as (_ & Hd & _).
  unfold parse_text.
  assert (origin c ++ [newline] ++ print_u64 (csize c) ++ [newline] ++ b64_encode (croot c) ++ [newline]
    = concat (map (λ l, l ++ [newline]) [origin c; print_u64 (csize c); b64_encode (croot c)])) as E.
  { cbn [map concat]. by rewrite app_nil_r, <- !app_assoc. }
  rewrite E at 1. rewrite split_terminator_lines.
  2:{ repeat constructor; apply printable_no_newline.
      - by apply valid_name_printable.
      - by apply digits_printable.
      - apply b64_printable. }
  rewrite Ho. cbn [negb refuse_if mbind result_mbind result_bind].
  rewrite parse_print_u64 by done. cbn [ok_or mbind result_mbind result_bind].
  rewrite b64_decode_encode. cbn [ok_or mbind result_mbind result_bind].
  unfold is_hash in Hr. rewrite refuse_if_pass by lia.
  cbn [ok_or mbind result_mbind result_bind]. destruct c as [o n r]. cbn [origin csize croot] in *.
  rewrite Ht. cbn [mbind result_mbind result_bind]. by rewrite bool_decide_eq_true_2.
Qed.

Lemma parse_u64_bound s n : parse_u64 s = Some n → n < u64_bound.
Proof.
  unfold parse_u64. case_match; [done|]. intros [= <-].
  unfold u64_max, u64_bound in *.
  repeat match goal with H : _ || _ = false |- _ => apply orb_false_iff in H as [? ?] end. lia.
Qed.

Lemma parse_text_inv t c : parse_text t = Ok c → checkpoint_valid c ∧ checkpoint_text c = Ok t.
Proof.
  unfold parse_text. destruct (split_terminator t) as [|o [|s [|r [|]]]]; try done.
  intros H. inv_ok. b2p. subst. split; [|done]. split; cbn; [done| |unfold is_hash; lia].
  by eapply parse_u64_bound.
Qed.

(** ** Who signed *)

(** A line over this note's text by the holder of [key] under [who]. *)
Definition carries_signature (n : SignedNote) (who : bytes) (key : VK) : Prop :=
  ∃ s, s ∈ n.(signatures) ∧ s.(name) = who ∧ s.(keyid) = key_id sha256 who key ∧
       verify key CHECKPOINT_CONTEXT n.(note_text) s.(note_signature) = Ok tt.

Lemma check_lines_Ok key t f ls r :
  check_lines key t f ls = Ok r →
  Forall (λ s, verify key CHECKPOINT_CONTEXT t s.(note_signature) = Ok tt) ls ∧
  r = f || negb (bool_decide (ls = [])).
Proof.
  revert f. induction ls as [|s ls IH]; intros f H; cbn in H; inv_ok.
  - by rewrite orb_false_r.
  - b2p. destruct (IH true H) as [Hf ->]. split; [|by rewrite orb_true_r].
    constructor; [|done].
    match goal with H : is_ok _ = true |- _ => apply is_ok_true_iff in H as [[] ?] end. done.
Qed.

Lemma signed_by_true n who key :
  signed_by sha256 n who key = Ok true → carries_signature n who key.
Proof.
  unfold signed_by. intros H. apply check_lines_Ok in H as [Hf Hr]. cbn [orb] in Hr.
  destruct (List.filter _ _) as [|s ls] eqn:E; [done|].
  assert (In s (s :: ls)) as Hs by by left. rewrite <- E in Hs.
  apply filter_In in Hs as [Hs Hb]. b2p. inversion Hf; subst.
  exists s. split_and!; [by rewrite list_elem_of_In|done..].
Qed.

Lemma check_lines_pass {L : SignatureLaws S} key t f ls :
  Forall (λ s, verify key CHECKPOINT_CONTEXT t s.(note_signature) = Ok tt) ls → ls ≠ [] →
  check_lines key t f ls = Ok true.
Proof.
  intros H. revert f. induction H as [|s ls Hs Hls IH]; intros f Hne; [done|].
  cbn. rewrite (verify_length _ _ _ _ Hs), N.eqb_refl, Hs. cbn.
  destruct ls; [done|]. by apply IH.
Qed.

Lemma count_witnesses_Ok n counted k ws m :
  count_witnesses sha256 n counted k ws = Ok m →
  NoDup counted.*1 → NoDup counted.*2 →
  ∃ used, sublist used ws ∧ m = k + lenN used ∧
    NoDup (counted.*1 ++ used.*1) ∧
    NoDup (counted.*2 ++ map (λ w, key_id sha256 w.1 w.2) used) ∧
    Forall (λ w, carries_signature n w.1 w.2) used.
Proof.
  revert counted k. induction ws as [|[who key] ws IH]; intros counted k H N1 N2; cbn in H.
  - inv_ok. exists []. cbn. rewrite !app_nil_r. split_and!; [constructor|lia|done..].
  - destruct (existsb _ counted) eqn:E.
    { destruct (IH counted k H N1 N2) as (u & ? & ?). exists u. split; [|done].
      by apply sublist_cons. }
    apply bind_Ok_iff in H as (signed & Hs & H). destruct signed.
    2:{ destruct (IH counted k H N1 N2) as (u & ? & ?). exists u. split; [|done].
        by apply sublist_cons. }
    assert (∀ e, e ∈ counted → e.1 ≠ who ∧ e.2 ≠ key_id sha256 who key) as Hnew.
    { intros e He. pose proof (existsb_false_elem _ _ _ E He) as Hx. cbn in Hx.
      apply orb_false_iff in Hx as [? ?]. by b2p. }
    destruct (IH (counted ++ [(who, key_id sha256 who key)]) (k + 1) H) as (u & Hu & -> & U1 & U2 & U3).
    + rewrite fmap_app. apply NoDup_app. split_and!; [done| |apply NoDup_singleton].
      intros x (e & -> & He)%list_elem_of_fmap Hx%list_elem_of_singleton.
      by destruct (Hnew e He).
    + rewrite fmap_app. apply NoDup_app. split_and!; [done| |apply NoDup_singleton].
      intros x (e & -> & He)%list_elem_of_fmap Hx%list_elem_of_singleton.
      by destruct (Hnew e He).
    + exists ((who, key) :: u). rewrite !fmap_app, <- !app_assoc in *. cbn in *.
      split_and!; [by apply sublist_skip|lia|done..|].
      constructor; [|done]. by apply signed_by_true.
Qed.

Lemma count_witnesses_all n counted k ws :
  (∀ w, w ∈ ws → signed_by sha256 n w.1 w.2 = Ok true) →
  NoDup (counted.*1 ++ ws.*1) →
  NoDup (counted.*2 ++ map (λ w, key_id sha256 w.1 w.2) ws) →
  count_witnesses sha256 n counted k ws = Ok (k + lenN ws).
Proof.
  revert counted k. induction ws as [|[who key] ws IH]; intros counted k Hs N1 N2.
  - cbn. f_equal. lia.
  - cbn [count_witnesses]. destruct (existsb _ counted) eqn:E.
    { exfalso. apply existsb_true_elem in E as (e & He & Hx). cbn in N1, N2.
      apply NoDup_app in N1 as (_ & N1 & _). apply NoDup_app in N2 as (_ & N2 & _).
      apply orb_true_iff in Hx as [Hx|Hx]; b2p.
      - apply (N1 e.1); [by apply list_elem_of_fmap_2|]. rewrite Hx. by left.
      - apply (N2 e.2); [by apply list_elem_of_fmap_2|]. rewrite Hx. by left. }
    pose proof (Hs (who, key) ltac:(by left)) as Hw. cbn [fst snd] in Hw. rewrite Hw.
    cbn [mbind result_mbind result_bind].
    rewrite IH.
    + f_equal. cbn [length]. lia.
    + intros w Hin. apply Hs. by right.
    + rewrite fmap_app, <- app_assoc. done.
    + rewrite fmap_app, <- app_assoc. done.
Qed.

(** ** The note an honest log and its witnesses publish *)

Fixpoint cosign_all (n : SignedNote) (ws : list (bytes * SK)) : result LogError SignedNote :=
  match ws with
  | [] => Ok n
  | (who, witness) :: ws => n ← cosign sha256 n who witness; cosign_all n ws
  end.

Definition line_of (t : bytes) (w : bytes * SK) : NoteSignature :=
  {| name := w.1; keyid := key_id sha256 w.1 (verifying_key w.2);
     note_signature := sign w.2 CHECKPOINT_CONTEXT t |}.

Lemma cosign_all_Ok n ws :
  Forall (λ w, valid_name w.1 = true) ws →
  lenN n.(signatures) + lenN ws <= MAX_SIGNATURES →
  cosign_all n ws = Ok {| note_text := n.(note_text);
    signatures := n.(signatures) ++ map (line_of n.(note_text)) ws |}.
Proof.
  intros H. revert n. induction H as [|[who w] ws Hw _ IH]; intros n Hn; cbn [cosign_all].
  - destruct n. cbn. by rewrite app_nil_r.
  - cbn [length] in Hn. unfold cosign. cbn in Hw. rewrite Hw. unfold MAX_SIGNATURES in *.
    pass. rewrite IH; cbn [note_text signatures].
    + cbn [map]. by rewrite <- app_assoc.
    + rewrite length_app. cbn [length]. lia.
Qed.

(** Text without control characters other than newlines. *)
Definition clean (s : bytes) : Prop :=
  ∃ cs, utf8_chars s = Some cs ∧ Forall (λ c, is_control c = true → c = 10) cs.

Lemma clean_app a b : clean a → clean b → clean (a ++ b).
Proof.
  intros (xs & Ha & Fa) (ys & Hb & Fb). exists (xs ++ ys).
  rewrite (utf8_chars_app _ _ _ Ha), Hb. split; [done|]. by apply Forall_app.
Qed.

Lemma clean_printable s : forallb printable s = true → clean s.
Proof.
  intros H. exists (map Byte.to_N s). split; [by apply utf8_chars_ascii, printable_ascii|].
  apply Forall_map, Forall_forall. intros b Hb Hc.
  apply (forallb_elem _ _ _ H) in Hb. unfold printable, is_control in *. lia.
Qed.

Lemma clean_newline : clean [newline].
Proof. exists [10]. split; [done|]. by repeat constructor. Qed.

Lemma clean_concat l : Forall clean l → clean (concat l).
Proof. induction 1; cbn; [by exists []|by apply clean_app]. Qed.

Lemma clean_line s : valid_name s.(name) = true → clean (encode_line s).
Proof.
  intros Hn. unfold encode_line. repeat apply clean_app.
  - exists [8212; 32]. split; [vm_compute; done|]. repeat constructor; done.
  - by apply clean_printable, valid_name_printable.
  - exists [32]. split; [done|]. repeat constructor; done.
  - apply clean_printable, b64_printable.
  - apply clean_newline.
Qed.

Lemma clean_text c t : checkpoint_valid c → checkpoint_text c = Ok t → clean t ∧ last t = Some newline.
Proof.
  intros [Ho Hs Hr] H. unfold checkpoint_text in H.
  apply bind_Ok_iff in H as ([] & _ & <-%Ok_inj).
  destruct (print_u64_spec (csize c) Hs) as (_ & Hd & _).
  revert Hd. generalize (print_u64 (csize c)). intros size Hd. split.
  - repeat apply clean_app; try apply clean_newline; apply clean_printable.
    + by apply valid_name_printable.
    + by apply digits_printable.
    + apply b64_printable.
  - rewrite !app_assoc. apply last_snoc.
Qed.

Lemma NoDup_fst_inj {A} (l : list (bytes * A)) x y :
  NoDup l.*1 → x ∈ l → y ∈ l → x.1 = y.1 → x = y.
Proof.
  induction l as [|z l IH]; intros Hd Hx Hy E; [by inversion Hx|].
  cbn in Hd. apply NoDup_cons in Hd as [Hz Hd].
  apply elem_of_cons in Hx as [->|Hx], Hy as [->|Hy]; [done| | |by apply IH].
  - destruct Hz. rewrite E. by apply list_elem_of_fmap_2.
  - destruct Hz. rewrite <- E. by apply list_elem_of_fmap_2.
Qed.

Lemma signed_by_line {L : SignatureLaws S} t all w :
  NoDup all.*1 → w ∈ all →
  signed_by sha256 {| note_text := t; signatures := map (line_of t) all |}
    w.1 (verifying_key w.2) = Ok true.
Proof.
  intros Hd Hw. unfold signed_by. cbn [note_text signatures]. apply check_lines_pass.
  - apply Forall_forall. intros s Hs. rewrite list_elem_of_In in Hs.
    apply filter_In in Hs as [Hs Hb]. b2p. apply in_map_iff in Hs as (w' & <- & Hin).
    rewrite <- list_elem_of_In in Hin.
    rewrite (NoDup_fst_inj all w w' Hd Hw Hin) by done. apply verify_sign.
  - intros E. assert (In (line_of t w) []) as []. rewrite <- E. apply filter_In. split.
    + apply in_map. by rewrite <- list_elem_of_In.
    + cbn. by rewrite !bool_decide_eq_true_2.
Qed.

Lemma published_note_valid {L : SignatureLaws S} c t all :
  (∀ x, is_hash (sha256 x)) →
  checkpoint_valid c → checkpoint_text c = Ok t →
  Forall (λ w, valid_name w.1 = true) all → 1 <= lenN all <= MAX_SIGNATURES →
  let n := {| note_text := t; signatures := map (line_of t) all |} in
  lenN (encode n) <= MAX_NOTE_BYTES → note_valid n.
Proof.
  intros H4 Hc Ht Ha Hn n Hlen. destruct (clean_text c t Hc Ht) as [Hclean Hlast].
  assert (clean (encode n)) as (cs & Hcs & Fcs).
  { unfold encode. apply clean_app; [done|]. apply clean_app; [apply clean_newline|].
    apply clean_concat. apply Forall_map, Forall_map. eapply Forall_impl; [exact Ha|].
    intros w Hw. by apply clean_line. }
  split.
  - done.
  - unfold utf8_valid. by rewrite Hcs.
  - unfold chars. rewrite Hcs. cbn. by rewrite Forall_forall in Fcs.
  - done.
  - cbn [signatures n]. by rewrite length_map.
  - apply Forall_map. eapply Forall_impl; [exact Ha|]. intros w Hw. split; cbn.
    + done.
    + unfold key_id. by rewrite length_take, H4.
    + intros E. pose proof (length_sign w.2 CHECKPOINT_CONTEXT t) as Hs. rewrite E in Hs.
      discriminate Hs.
Qed.

Lemma witnessed_complete {L : SignatureLaws S} c log ws n :
  (∀ x, is_hash (sha256 x)) →
  checkpoint_valid c → Forall (λ w, valid_name w.1 = true) ws → lenN ws < MAX_SIGNATURES →
  NoDup (c.(origin) :: ws.*1) →
  NoDup (map (λ w, key_id sha256 w.1 (verifying_key w.2)) ((c.(origin), log) :: ws)) →
  (m ← sign_checkpoint sha256 c log; cosign_all m ws) = Ok n →
  lenN (encode n) <= MAX_NOTE_BYTES →
  verify_witnessed sha256 (encode n) c.(origin) (verifying_key log)
    (map (λ w, (w.1, verifying_key w.2)) ws) (lenN ws) = Ok c.
Proof.
  intros Hh Hc Hw Hn N1 N2 H Hlen. unfold sign_checkpoint in H.
  apply bind_Ok_iff in H as (m & H & Hm).
  apply bind_Ok_iff in H as (t & Ht & <-%Ok_inj). unfold MAX_SIGNATURES in *.
  rewrite cosign_all_Ok in Hm by (done || (cbn [signatures length]; unfold MAX_SIGNATURES; lia)).
  apply Ok_inj in Hm as <-. cbn [note_text signatures] in *.
  set (all := (origin c, log) :: ws).
  change ([{| name := origin c; keyid := key_id sha256 (origin c) (verifying_key log);
              note_signature := sign log CHECKPOINT_CONTEXT t |}] ++ map (line_of t) ws)
    with (map (line_of t) all) in *.
  assert (Forall (λ w, valid_name w.1 = true) all) as Ha.
  { constructor; [|done]. apply Hc. }
  assert (NoDup all.*1) as Nall by exact N1.
  unfold verify_witnessed. rewrite note_decode_encode.
  2:{ eapply published_note_valid; [exact Hh|done|done|done| |done].
      unfold MAX_SIGNATURES. cbn [all length]. lia. }
  cbn [mbind result_mbind result_bind note_text].
  rewrite (parse_checkpoint_text _ _ Hc Ht). cbn [mbind result_mbind result_bind].
  rewrite bool_decide_eq_true_2 by done. cbn [negb refuse_if mbind result_mbind result_bind].
  pose proof (signed_by_line t all (origin c, log) Nall ltac:(by left)) as Hlog.
  cbn [fst snd] in Hlog. rewrite Hlog. cbn [negb refuse_if mbind result_mbind result_bind].
  rewrite count_witnesses_all.
  - cbn [mbind result_mbind result_bind]. rewrite length_map.
    rewrite refuse_if_pass by lia. done.
  - intros x Hx. apply list_elem_of_fmap in Hx as (w & -> & Hin). cbn [fst snd].
    apply signed_by_line; [done|]. by right.
  - cbn. rewrite <- list_fmap_compose. exact N1.
  - cbn in *. rewrite map_map. exact N2.
Qed.
End note_laws.

Section properties.
Context (sha256 : bytes → Hash) {B : Base64} {BL : Base64Laws B}.
Context {S : SignatureScheme} {L : SignatureLaws S}.

(** One note, one encoding: a byte string decodes to a note exactly when
    it is that note's encoding, the text ends in a newline, the lines (1 to
    32) carry valid names, 4-byte key ids and non-empty signatures, and the
    whole is UTF-8 within the size limit with no control character but the
    newline. Padding, stray spaces and other base64 alphabets are refused. *)
Theorem note_decode_iff (b : bytes) (n : SignedNote) :
  decode b = Ok n ↔ note_valid n ∧ encode n = b.
Proof.
  split; [apply note_decode_inv|]. intros [V <-]. by apply note_decode_encode.
Qed.

(** C27. What a witnessed checkpoint guarantees: if verification accepts, the
    note's text is exactly the text of the returned checkpoint, the log's key
    signed that text under its origin, and at least [threshold] of the listed
    witnesses did too, all with names and key ids distinct from each other
    and from the log's. A witness listed twice, or the log listed as its own
    witness, is counted once. *)
Theorem witnessed_checkpoint_sound
    (note expected : bytes) (log : VK) (witnesses : list (bytes * VK)) (threshold : N)
    (c : Checkpoint) :
  verify_witnessed sha256 note expected log witnesses threshold = Ok c →
  ∃ n used,
    encode n = note ∧ checkpoint_text c = Ok n.(note_text) ∧
    c.(origin) = expected ∧ carries_signature sha256 n expected log ∧
    sublist used witnesses ∧ threshold <= lenN used ∧
    Forall (λ w, carries_signature sha256 n w.1 w.2) used ∧
    NoDup (expected :: used.*1) ∧
    NoDup (key_id sha256 expected log :: map (λ w, key_id sha256 w.1 w.2) used).
Proof.
  unfold verify_witnessed. intros H. inv_ok. b2p. subst.
  match goal with H : decode _ = Ok ?n |- _ =>
    apply note_decode_inv in H as [_ <-]; exists n end.
  match goal with H : parse_text _ = Ok _ |- _ => apply parse_text_inv in H as [_ ?] end.
  match goal with H : signed_by _ _ _ _ = Ok true |- _ => apply signed_by_true in H end.
  match goal with H : count_witnesses _ _ _ _ _ = Ok _ |- _ =>
    apply count_witnesses_Ok in H as (used & ? & -> & ? & ? & ?) end;
    [|apply NoDup_singleton..].
  exists used. split_and!; (done || lia).
Qed.

(** An honest log and honest witnesses are believed: sign a checkpoint,
    let up to 31 witnesses with distinct names and key ids cosign it, encode
    the note; a reader who knows the keys and demands every witness gets the
    checkpoint back. *)
Theorem honest_witnessed_checkpoint
    (c : Checkpoint) (log : SK) (ws : list (bytes * SK)) (n : SignedNote) :
  (∀ x, is_hash (sha256 x)) →
  checkpoint_valid c → Forall (λ w, valid_name w.1 = true) ws → lenN ws < MAX_SIGNATURES →
  NoDup (c.(origin) :: ws.*1) →
  NoDup (map (λ w, key_id sha256 w.1 (verifying_key w.2)) ((c.(origin), log) :: ws)) →
  (m ← sign_checkpoint sha256 c log; cosign_all sha256 m ws) = Ok n →
  lenN (encode n) <= MAX_NOTE_BYTES →
  verify_witnessed sha256 (encode n) c.(origin) (verifying_key log)
    (map (λ w, (w.1, verifying_key w.2)) ws) (lenN ws) = Ok c.
Proof. intros. by apply (witnessed_complete sha256 c log ws n). Qed.
End properties.

(** ** Witnesses, on a hexadecimal stand-in for base64 *)
Module HexBase64.
Definition hex (b : byte) : bytes :=
  [byte_of (65 + Byte.to_N b / 16); byte_of (65 + Byte.to_N b mod 16)].

Fixpoint unhex (s : bytes) : option bytes :=
  match s with
  | [] => Some []
  | [_] => None
  | a :: b :: s =>
      r ← unhex s;
      Some (byte_of ((Byte.to_N a - 65) * 16 + (Byte.to_N b - 65)) :: r)
  end.

#[export] Instance base64 : Base64 := {
  b64_encode s := concat (map hex s);
  b64_decode := unhex;
}.

#[export] Instance base64_laws : Base64Laws base64.
Proof.
  split; cbn.
  - induction b as [|x b IH]; [done|]. cbn. rewrite IH. cbn. do 2 f_equal.
    by destruct x.
  - induction b as [|x b IH]; [done|]. cbn [map concat].
    rewrite forallb_app, IH, andb_true_r. by destruct x.
  - done.
Qed.
End HexBase64.

Import HexBase64 Sign.Toy Sign.Hybrid.

Module Samples.
Definition checkpoint : Checkpoint :=
  {| origin := text "log.example"; csize := 42; croot := replicate 32 Byte.x05 |}.
Definition log : SigningIdentity := from_seed (replicate 32 Byte.x07).
Definition witness : SigningIdentity := from_seed (replicate 32 Byte.x08).
Definition the_text : bytes :=
  text "log.example" ++ [newline] ++ print_u64 42 ++ [newline]
    ++ b64_encode (replicate 32 Byte.x05) ++ [newline].
Definition note : SignedNote :=
  {| note_text := the_text;
     signatures := map (line_of toy_hash the_text)
       [(text "log.example", log); (text "w1", witness)] |}.
End Samples.

Lemma sample_note_valid : note_valid Samples.note.
Proof.
  apply (published_note_valid toy_hash Samples.checkpoint Samples.the_text).
  - apply toy_hash_length.
  - by split.
  - done.
  - by repeat constructor.
  - done.
  - vm_compute. discriminate.
Qed.

Lemma sample_signed :
  (m ← sign_checkpoint toy_hash Samples.checkpoint Samples.log;
   cosign_all toy_hash m [(text "w1", Samples.witness)]) = Ok Samples.note.
Proof. reflexivity. Qed.

Lemma sample_names : NoDup [text "log.example"; text "w1"].
Proof. apply (bool_decide_unpack _). vm_compute. exact I. Qed.

Lemma sample_key_ids :
  NoDup (map (λ w, key_id toy_hash w.1 (Sign.verifying_key w.2))
           [(text "log.example", Samples.log); (text "w1", Samples.witness)]).
Proof. apply (bool_decide_unpack _). vm_compute. exact I. Qed.

Lemma sample_note_size : lenN (encode Samples.note) <= MAX_NOTE_BYTES.
Proof. apply sample_note_valid. Qed.

Lemma sample_checkpoint_valid : checkpoint_valid Samples.checkpoint.
Proof. by split. Qed.

Lemma note_decode_iff_witness : decode (encode Samples.note) = Ok Samples.note.
Proof. apply (proj2 (note_decode_iff _ _)). split; [apply sample_note_valid|reflexivity]. Defined.

Lemma honest_witnessed_checkpoint_witness :
  verify_witnessed toy_hash (encode Samples.note) (text "log.example")
    (Sign.verifying_key (SignatureScheme := scheme) Samples.log) [(text "w1", Sign.verifying_key (SignatureScheme := scheme) Samples.witness)] 1
  = Ok Samples.checkpoint.
Proof.
  apply (honest_witnessed_checkpoint (S := scheme) toy_hash Samples.checkpoint Samples.log
           [(text "w1", Samples.witness)] Samples.note toy_hash_length sample_checkpoint_valid);
    [by repeat constructor|reflexivity|apply sample_names|apply sample_key_ids
    |apply sample_signed|apply sample_note_size].
Defined.

Lemma witnessed_checkpoint_sound_witness :
  ∃ n used,
    encode n = encode Samples.note ∧ checkpoint_text Samples.checkpoint = Ok n.(note_text) ∧
    1 <= lenN used ∧
    sublist used [(text "w1", Sign.verifying_key (SignatureScheme := scheme) Samples.witness)] ∧
    Forall (λ w, carries_signature toy_hash n w.1 w.2) used.
Proof.
  destruct (witnessed_checkpoint_sound (S := scheme) toy_hash (encode Samples.note) (text "log.example")
    (Sign.verifying_key (SignatureScheme := scheme) Samples.log) [(text "w1", Sign.verifying_key (SignatureScheme := scheme) Samples.witness)] 1
    Samples.checkpoint) as (n & used & H1 & H2 & _ & _ & H3 & H4 & H5 & _).
  - apply (witnessed_complete (S := scheme) toy_hash Samples.checkpoint Samples.log
             [(text "w1", Samples.witness)] Samples.note toy_hash_length sample_checkpoint_valid);
      [by repeat constructor|reflexivity|apply sample_names|apply sample_key_ids
      |apply sample_signed|apply sample_note_size].
  - exists n, used. done.
Defined.
