(* ===== verification/Crypto.v ===== *)
(** [hide-crypto/src/lib.rs]: recipient keys, key wrapping, derivation, the
    AEAD and MAC of suite 1. The primitives themselves come from third-party
    crates ([hpke], [chacha20poly1305], [hkdf], [hmac], [sha2]): class
    [Primitives] is what the crate calls of them, [PrimitivesLaws] what it
    relies on, module [Toy] a concrete instance. Class [RecipientKeys] is what
    the epoch chain and the keyring use of recipient keys. *)
From S2P Require Import Prelude.
Local Open Scope N_scope.

Definition KEY_LENGTH : N := 32.
Definition TAG_LENGTH : N := 16.
Definition X25519_OFFSET : N := 1184.
Definition ENCAPSULATION_LENGTH : N := 1120.
Definition WRAPPED_KEY_LENGTH : N := 48.
Definition SUITE : bytes := be 2 1.
Definition INFO_PREFIX : bytes := text "HIDE/0.1 object-key".

(** The encoded points of small order. *)
Definition SMALL_ORDER_POINTS : list bytes := map (map byte_of)
  [ replicate 32 0;
    1 :: replicate 31 0;
    [224; 235; 122; 124; 59; 65; 184; 174; 22; 86; 227; 250; 241; 159; 196; 106; 218; 9; 141;
     235; 156; 50; 177; 253; 134; 98; 5; 22; 95; 73; 184; 0];
    [95; 156; 149; 188; 163; 80; 140; 36; 177; 208; 177; 85; 156; 131; 239; 91; 4; 68; 92; 196;
     88; 28; 142; 134; 216; 34; 78; 221; 208; 159; 17; 87];
    236 :: replicate 30 255 ++ [127];
    237 :: replicate 30 255 ++ [127];
    238 :: replicate 30 255 ++ [127] ].

Inductive CryptoError :=
| Authentication
| DegeneratePublicKey
| InvalidParameter
| Random
| Hpke
| InvalidLength (name : bytes) (expected actual : N).

#[export] Instance CryptoError_eq_dec : EqDecision CryptoError.
Proof. solve_decision. Defined.

(** An AEAD message can be at most this long (RFC 8439). *)
Definition AEAD_MAX : N := 274877906880.

Class Primitives := {
  HpkeSecret : Type;
  HpkePublic : Type;
  HpkeEncapsulation : Type;
  hpke_secret_from_bytes : bytes → option HpkeSecret;
  hpke_sk_to_pk : HpkeSecret → HpkePublic;
  hpke_public_from_bytes : bytes → option HpkePublic;
  hpke_public_to_bytes : HpkePublic → bytes;
  hpke_encapsulation_from_bytes : bytes → option HpkeEncapsulation;
  hpke_encapsulation_to_bytes : HpkeEncapsulation → bytes;
  (** [setup_sender_with_rng] on a seeded generator, then [seal_inout_detached]:
      seed, key, info, associated data, plaintext; the ciphertext and its tag. *)
  hpke_seal : bytes → HpkePublic → bytes → bytes → bytes →
    option (HpkeEncapsulation * bytes * bytes);
  (** [setup_receiver], then [open_inout_detached]. *)
  hpke_open : HpkeSecret → HpkeEncapsulation → bytes → bytes → bytes → bytes → option bytes;
  (** ChaCha20-Poly1305: key, nonce, associated data, plaintext. *)
  aead_encrypt : bytes → bytes → bytes → bytes → option (bytes * bytes);
  aead_decrypt : bytes → bytes → bytes → bytes → bytes → option bytes;
  (** [Hkdf::<Sha256>::new(Some(salt), ikm).expand(info, &mut [0; 32])] *)
  hkdf : bytes → bytes → bytes → option bytes;
  hmac_sha256 : bytes → bytes → bytes;
  sha256 : bytes → bytes;
}.

Class PrimitivesLaws (P : Primitives) : Prop := {
  hpke_secret_of_seed b : lenN b = KEY_LENGTH → is_Some (hpke_secret_from_bytes b);
  hpke_public_length k : lenN (hpke_public_to_bytes k) = 1216;
  hpke_public_from_to k : hpke_public_from_bytes (hpke_public_to_bytes k) = Some k;
  hpke_public_to_from b k : hpke_public_from_bytes b = Some k → hpke_public_to_bytes k = b;
  hpke_encapsulation_length e : lenN (hpke_encapsulation_to_bytes e) = ENCAPSULATION_LENGTH;
  hpke_encapsulation_from_to e :
    hpke_encapsulation_from_bytes (hpke_encapsulation_to_bytes e) = Some e;
  hpke_seal_lengths r k i a p e c t :
    hpke_seal r k i a p = Some (e, c, t) → length c = length p ∧ lenN t = TAG_LENGTH;
  hpke_open_seal r sk i a p e c t :
    hpke_seal r (hpke_sk_to_pk sk) i a p = Some (e, c, t) →
    hpke_open sk e i a c t = Some p;
  aead_encrypt_total k n a p : lenN p <= AEAD_MAX → is_Some (aead_encrypt k n a p);
  aead_lengths k n a p c t :
    aead_encrypt k n a p = Some (c, t) → length c = length p ∧ lenN t = TAG_LENGTH;
  aead_decrypt_encrypt k n a p c t :
    aead_encrypt k n a p = Some (c, t) → aead_decrypt k n a c t = Some p;
  aead_decrypt_length k n a c t p : aead_decrypt k n a c t = Some p → length p = length c;
  hkdf_total s k i : ∃ o, hkdf s k i = Some o ∧ lenN o = KEY_LENGTH;
  hmac_length k m : length (hmac_sha256 k m) = 32%nat;
  sha256_length m : length (sha256 m) = 32%nat;
}.

Definition require_length (name : bytes) (expected actual : N) : result CryptoError unit :=
  refuse_if (negb (actual =? expected)) (InvalidLength name expected actual).

(** [is_canonical_x25519], on 32 bytes. *)
Definition is_canonical_x25519 (b : bytes) : bool :=
  if negb (N.land (byte_at 31 b) 128 =? 0) then false else
  negb ((byte_at 31 b =? 127)
        && forallb (λ x, Byte.to_N x =? 255) (slice 1 31 b)
        && (237 <=? byte_at 0 b)).

(** Keys are their 32 bytes. *)
Record ContentKey := { content_key : bytes }.
Record RecipientSecret := { recipient_seed : bytes }.
Record DerivedKey := { derived_key : bytes }.
Record WrappedKey := { encapsulation : bytes; wrapped_cek : bytes }.

#[export] Instance ContentKey_eq_dec : EqDecision ContentKey.
Proof. solve_decision. Defined.
#[export] Instance RecipientSecret_eq_dec : EqDecision RecipientSecret.
Proof. solve_decision. Defined.

Section crypto.
Context {P : Primitives}.

Record RecipientPublic := { hpke_public : HpkePublic }.

(** [random_array::<32>()]: what the system gives. *)
Definition random_array (random : option bytes) : result CryptoError bytes :=
  ok_or random Random.

Definition generate_content_key (random : option bytes) : result CryptoError ContentKey :=
  b ← random_array random; Ok {| content_key := b |}.

Definition content_key_from_bytes (b : bytes) : ContentKey := {| content_key := b |}.

Definition generate_secret (random : option bytes) : result CryptoError RecipientSecret :=
  b ← random_array random; Ok {| recipient_seed := b |}.

Definition secret_from_bytes (b : bytes) : result CryptoError RecipientSecret :=
  require_length (text "recipient seed") KEY_LENGTH (lenN b);;
  Ok {| recipient_seed := b |}.

Definition public_key (s : RecipientSecret) : result CryptoError RecipientPublic :=
  secret ← ok_or (hpke_secret_from_bytes s.(recipient_seed)) Hpke;
  Ok {| hpke_public := hpke_sk_to_pk secret |}.

Definition expose_seed_for_sealing (s : RecipientSecret) : bytes := s.(recipient_seed).

Definition public_from_bytes (b : bytes) : result CryptoError RecipientPublic :=
  key ← ok_or (hpke_public_from_bytes b) Hpke;
  refuse_if (negb ((X25519_OFFSET <=? lenN b) && (lenN (drop 1184 b) =? 32)))
    DegeneratePublicKey;;
  let x25519 := drop 1184 b in
  refuse_if (bool_decide (x25519 ∈ SMALL_ORDER_POINTS)) DegeneratePublicKey;;
  refuse_if (negb (is_canonical_x25519 x25519)) DegeneratePublicKey;;
  Ok {| hpke_public := key |}.

Definition public_to_bytes (k : RecipientPublic) : bytes := hpke_public_to_bytes k.(hpke_public).

(** The HPKE info and the associated data. *)
Definition object_context (object_id : bytes) : bytes * bytes :=
  let aad := object_id ++ SUITE in (INFO_PREFIX ++ aad, aad).

(** [wrap_with_rng], on the generator seeded with [seed]. *)
Definition wrap_with_rng (recipient : RecipientPublic) (cek : ContentKey) (object_id seed : bytes)
  : result CryptoError WrappedKey :=
  let '(info, aad) := object_context object_id in
  '(e, ciphertext, tag) ←
    ok_or (hpke_seal seed recipient.(hpke_public) info aad cek.(content_key)) Hpke;
  Ok {| encapsulation := hpke_encapsulation_to_bytes e; wrapped_cek := ciphertext ++ tag |}.

Definition wrap_cek (recipient : RecipientPublic) (cek : ContentKey) (object_id : bytes)
    (random : option bytes) : result CryptoError WrappedKey :=
  seed ← random_array random;
  wrap_with_rng recipient cek object_id seed.

Definition unwrap_cek (secret : RecipientSecret) (object_id encapsulation wrapped_cek : bytes)
  : result CryptoError ContentKey :=
  require_length (text "encapsulation") ENCAPSULATION_LENGTH (lenN encapsulation);;
  require_length (text "wrapped CEK") WRAPPED_KEY_LENGTH (lenN wrapped_cek);;
  private_key ← ok_or (hpke_secret_from_bytes secret.(recipient_seed)) Hpke;
  e ← ok_or (hpke_encapsulation_from_bytes encapsulation) Hpke;
  let '(info, aad) := object_context object_id in
  plaintext ← ok_or (hpke_open private_key e info aad (take 32 wrapped_cek) (drop 32 wrapped_cek)) Hpke;
  Ok {| content_key := plaintext |}.

Definition derive_key (cek : ContentKey) (salt info : bytes) : result CryptoError DerivedKey :=
  k ← ok_or (hkdf salt cek.(content_key) info) InvalidParameter;
  Ok {| derived_key := k |}.

Definition seal (key : DerivedKey) (nonce aad plaintext : bytes) : result CryptoError bytes :=
  '(c, t) ← ok_or (aead_encrypt key.(derived_key) nonce aad plaintext) Authentication;
  Ok (c ++ t).

(** [decrypt_in_place] refuses a buffer shorter than a tag. *)
Definition open (key : DerivedKey) (nonce aad ciphertext : bytes) : result CryptoError bytes :=
  refuse_if (lenN ciphertext <? TAG_LENGTH) Authentication;;
  let n := (length ciphertext - 16)%nat in
  ok_or (aead_decrypt key.(derived_key) nonce aad (take n ciphertext) (drop n ciphertext))
    Authentication.

(** ** In-place chunks

    The buffer is threaded; it is meaningless after an error. *)
Definition seal_in_place (key : DerivedKey) (nonce aad buffer : bytes) (length : N)
  : result CryptoError (N * bytes) :=
  '(plaintext, tail) ← ok_or (split_at_checked length buffer) InvalidParameter;
  '(c, t) ← ok_or (aead_encrypt key.(derived_key) nonce aad plaintext) Authentication;
  refuse_if (lenN tail <? TAG_LENGTH) InvalidParameter;;
  Ok (length + TAG_LENGTH, c ++ t ++ drop 16 tail).

Definition open_in_place (key : DerivedKey) (nonce aad buffer : bytes)
  : result CryptoError (N * bytes) :=
  refuse_if (lenN buffer <? TAG_LENGTH) InvalidParameter;;
  let n := (List.length buffer - 16)%nat in
  let tag := drop n buffer in
  p ← ok_or (aead_decrypt key.(derived_key) nonce aad (take n buffer) tag) Authentication;
  Ok (N.of_nat n, p ++ tag).

(** ** MACs and hashes *)
Definition mac (key : DerivedKey) (parts : list bytes) : bytes :=
  hmac_sha256 key.(derived_key) (concat parts).

Definition verify_mac (key : DerivedKey) (parts : list bytes) (tag : bytes)
  : result CryptoError unit :=
  refuse_if (negb (bool_decide (mac key parts = tag))) Authentication.

Definition hash (parts : list bytes) : bytes := sha256 (concat parts).

(** [Hasher]: what was fed so far. *)
Definition Hasher := bytes.
Definition hasher_new : Hasher := [].
Definition hasher_update (h : Hasher) (b : bytes) : Hasher := h ++ b.
Definition hasher_finish (h : Hasher) : bytes := sha256 h.
End crypto.

Arguments RecipientPublic : clear implicits.
Arguments RecipientPublic {P}.

(** * What the epoch chain and the keyring use of recipient keys *)
Class RecipientKeys := {
  Secret : Type;
  (** The secret made of what [getrandom] gave. *)
  secret_generate : option bytes → result CryptoError Secret;
  (** [secret.public_key()?.to_bytes()] *)
  secret_public_bytes : Secret → result CryptoError bytes;
  secret_seed : Secret → bytes;
  secret_of_seed : bytes → result CryptoError Secret;
}.

Class RecipientKeysLaws (K : RecipientKeys) : Prop := {
  public_bytes_length s b : secret_public_bytes s = Ok b → lenN b = 1216;
  secret_of_seed_seed s b : secret_of_seed b = Ok s → secret_seed s = b;
  secret_of_seed_length b : is_ok (secret_of_seed b) = true ↔ lenN b = KEY_LENGTH;
}.

#[export] Instance hpke_recipient_keys `{Primitives} : RecipientKeys := {
  Secret := RecipientSecret;
  secret_generate := generate_secret;
  secret_public_bytes s := (k ← public_key s; Ok (public_to_bytes k));
  secret_seed := expose_seed_for_sealing;
  secret_of_seed := secret_from_bytes;
}.

#[export] Instance hpke_recipient_keys_laws `{L : PrimitivesLaws} :
  RecipientKeysLaws hpke_recipient_keys.
Proof.
  split; cbn.
  - intros s b H. unfold public_key in H. inv_ok. unfold public_to_bytes.
    apply hpke_public_length.
  - intros s b H. unfold secret_from_bytes, require_length in H. by inv_ok.
  - intros b. unfold secret_from_bytes, require_length. destruct (N.eqb_spec (lenN b) KEY_LENGTH); done.
Qed.

(** * Lemmas for the clients *)
Section laws.
Context {P : Primitives} {L : PrimitivesLaws P}.

Lemma public_key_of_seed s :
  lenN s.(recipient_seed) = KEY_LENGTH →
  ∃ sk, hpke_secret_from_bytes s.(recipient_seed) = Some sk ∧
        public_key s = Ok {| hpke_public := hpke_sk_to_pk sk |}.
Proof.
  intros H. destruct (hpke_secret_of_seed _ H) as [sk E]. exists sk. split; [done|].
  unfold public_key. by rewrite E.
Qed.

Lemma unwrap_wrap secret k cek object_id random w :
  lenN cek.(content_key) = KEY_LENGTH → public_key secret = Ok k →
  wrap_cek k cek object_id random = Ok w →
  unwrap_cek secret object_id w.(encapsulation) w.(wrapped_cek) = Ok cek.
Proof.
  intros Hc Hk Hw. unfold public_key in Hk. inv_ok.
  unfold wrap_cek, wrap_with_rng, object_context in Hw. cbn [hpke_public] in Hw. inv_ok.
  match goal with H : hpke_seal _ _ _ _ _ = Some (?e, ?c, ?t) |- _ =>
    pose proof (hpke_seal_lengths _ _ _ _ _ _ _ _ H) as [Lc Lt];
    pose proof (hpke_open_seal _ _ _ _ _ _ _ _ H) as Ho end.
  unfold KEY_LENGTH, TAG_LENGTH in *.
  unfold unwrap_cek, require_length, object_context. cbn [encapsulation wrapped_cek].
  rewrite hpke_encapsulation_length, N.eqb_refl. cbn [negb refuse_if mbind result_mbind result_bind].
  rewrite length_app. unfold WRAPPED_KEY_LENGTH. pass.
  match goal with H : hpke_secret_from_bytes _ = Some _ |- _ => rewrite H end.
  cbn [ok_or mbind result_mbind result_bind].
  rewrite hpke_encapsulation_from_to. cbn [ok_or mbind result_mbind result_bind].
  rewrite take_app_len, drop_app_len by lia. rewrite Ho. cbn. by destruct cek.
Qed.

Lemma wrap_lengths k cek object_id random w :
  lenN cek.(content_key) = KEY_LENGTH → wrap_cek k cek object_id random = Ok w →
  lenN w.(encapsulation) = ENCAPSULATION_LENGTH ∧ lenN w.(wrapped_cek) = WRAPPED_KEY_LENGTH.
Proof.
  intros Hc Hw. unfold wrap_cek, wrap_with_rng, object_context in Hw. inv_ok. cbn.
  split; [apply hpke_encapsulation_length|].
  match goal with H : hpke_seal _ _ _ _ _ = Some _ |- _ =>
    apply hpke_seal_lengths in H as [? ?] end.
  rewrite length_app. unfold KEY_LENGTH, TAG_LENGTH, WRAPPED_KEY_LENGTH in *. lia.
Qed.

Lemma derive_key_total cek salt info :
  ∃ k, derive_key cek salt info = Ok k ∧ lenN k.(derived_key) = KEY_LENGTH.
Proof.
  unfold derive_key. destruct (hkdf_total salt cek.(content_key) info) as (o & -> & H).
  eexists. split; [done|done].
Qed.

Lemma seal_total k n a p : lenN p <= AEAD_MAX → ∃ c, seal k n a p = Ok c.
Proof.
  intros H. unfold seal. destruct (aead_encrypt_total k.(derived_key) n a p H) as [[c t] ->].
  by eexists.
Qed.

Lemma seal_length k n a p c : seal k n a p = Ok c → lenN c = lenN p + TAG_LENGTH.
Proof.
  unfold seal. intros H. inv_ok.
  match goal with H : aead_encrypt _ _ _ _ = Some _ |- _ => apply aead_lengths in H as [? ?] end.
  rewrite length_app. lia.
Qed.

Lemma open_seal k n a p c : seal k n a p = Ok c → open k n a c = Ok p.
Proof.
  unfold seal. intros H. inv_ok.
  match goal with H : aead_encrypt _ _ _ _ = Some (?c, ?t) |- _ =>
    pose proof (aead_lengths _ _ _ _ _ _ H) as [Lc Lt];
    apply aead_decrypt_encrypt in H as Hd end.
  unfold TAG_LENGTH in *. unfold open. rewrite length_app.
  unfold TAG_LENGTH. pass. rewrite take_app_len, drop_app_len by lia. by rewrite Hd.
Qed.

Lemma open_length k n a c p : open k n a c = Ok p → lenN c = lenN p + TAG_LENGTH.
Proof.
  unfold open. intros H. inv_ok. b2p. apply aead_decrypt_length in H.
  rewrite length_take in H. unfold TAG_LENGTH in *. lia.
Qed.

(** The in-place operations are [seal] and [open] on a slice of the buffer. *)
Lemma seal_in_place_seal k n a buffer len p tail :
  buffer = p ++ tail → lenN p = len → TAG_LENGTH <= lenN tail →
  seal_in_place k n a buffer len =
    (c ← seal k n a p; Ok (len + TAG_LENGTH, c ++ drop 16 tail)).
Proof.
  intros -> Hp Ht. unfold seal_in_place, seal. rewrite split_at_checked_app by done.
  cbn [ok_or mbind result_mbind result_bind].
  destruct (aead_encrypt _ _ _ _) as [[c t]|]; cbn; [|done].
  rewrite refuse_if_pass by lia. cbn. by rewrite <- app_assoc.
Qed.

Lemma open_in_place_open k n a c :
  TAG_LENGTH <= lenN c →
  open_in_place k n a c =
    (p ← open k n a c; Ok (lenN p, p ++ drop (length p) c)).
Proof.
  intros H. unfold open_in_place, open. rewrite !refuse_if_pass by lia.
  cbn [mbind result_mbind result_bind].
  destruct (aead_decrypt _ _ _ _ _) as [p|] eqn:E; cbn; [|done].
  apply aead_decrypt_length in E. rewrite length_take in E. unfold TAG_LENGTH in H.
  replace (length p) with (length c - 16)%nat by lia. done.
Qed.

Lemma verify_mac_Ok k parts tag : verify_mac k parts tag = Ok tt ↔ mac k parts = tag.
Proof.
  unfold verify_mac. rewrite refuse_if_Ok_iff, negb_false_iff, bool_decide_eq_true. done.
Qed.
End laws.

(** * Canonical X25519 coordinates *)

(** The little-endian value of a string. *)
Definition le_value (b : bytes) : N := unbe (rev b).

Definition field_prime : N := 2 ^ 255 - 19.

Lemma le_value_cons x b : le_value (x :: b) = Byte.to_N x + 256 * le_value b.
Proof. unfold le_value. cbn [rev]. rewrite unbe_snoc. lia. Qed.

Lemma le_value_snoc b x : le_value (b ++ [x]) = le_value b + 256 ^ lenN b * Byte.to_N x.
Proof.
  induction b as [|y b IH].
  - cbn. unfold le_value. cbn. unfold unbe. cbn. lia.
  - cbn [app]. rewrite !le_value_cons, IH. cbn [length].
    rewrite Nat2N.inj_succ, N.pow_succ_r'. lia.
Qed.

Lemma le_value_bound b : le_value b < 256 ^ lenN b.
Proof. unfold le_value. rewrite <- length_rev. apply unbe_bound. Qed.

Lemma le_value_inj (a b : bytes) : length a = length b → le_value a = le_value b → a = b.
Proof.
  unfold le_value. intros Hl E. rewrite <- (rev_involutive a), <- (rev_involutive b). f_equal.
  rewrite <- (be_unbe (rev a)), <- (be_unbe (rev b)), !length_rev. congruence.
Qed.

Lemma le_value_all_ones b :
  forallb (λ x, Byte.to_N x =? 255) b = true ↔ le_value b = 256 ^ lenN b - 1.
Proof.
  induction b as [|x b IH]; [done|].
  cbn [forallb length]. rewrite andb_true_iff, IH, N.eqb_eq, le_value_cons.
  rewrite Nat2N.inj_succ, N.pow_succ_r'.
  pose proof (le_value_bound b). pose proof (Byte.to_N_bounded x). lia.
Qed.

Lemma split_32 (b : bytes) :
  length b = 32%nat → ∃ x m y, b = x :: m ++ [y] ∧ length m = 30%nat.
Proof.
  intros H. destruct b as [|x b]; [done|].
  destruct b as [|y b _] using rev_ind; [done|].
  exists x, b, y. split; [done|]. cbn in H. rewrite length_app in H. cbn in H. lia.
Qed.

Lemma is_canonical_x25519_iff b :
  length b = 32%nat → is_canonical_x25519 b = true ↔ le_value b < field_prime.
Proof.
  intros H. destruct (split_32 b H) as (x & m & y & -> & Hm).
  unfold is_canonical_x25519, byte_at, slice.
  assert (nth 31 (x :: m ++ [y]) Byte.x00 = y) as ->.
  { cbn [nth]. rewrite app_nth2 by lia. by rewrite Hm. }
  change (N.to_nat (31 - 1)) with 30%nat. change (N.to_nat 1) with 1%nat.
  change (drop 1 (x :: m ++ [y])) with (m ++ [y]).
  change (nth 0 (x :: m ++ [y]) Byte.x00) with x. rewrite (take_app_len 30) by done.
  rewrite le_value_cons, le_value_snoc. pose proof (le_value_bound m) as Bm.
  pose proof (le_value_all_ones m) as Am. rewrite Hm in *.
  change (256 ^ N.of_nat 30) with (2 ^ 240) in *.
  assert (N.land (Byte.to_N y) 128 = 0 ↔ Byte.to_N y <= 127) as Hland.
  { destruct y; vm_compute; split; congruence. }
  unfold field_prime.
  pose proof (Byte.to_N_bounded x). pose proof (Byte.to_N_bounded y).
  change (2 ^ 255) with (2 ^ 240 * 32768). set (q := 2 ^ 240) in *.
  assert (1000 < q) as Hq by reflexivity.
  destruct (N.eqb_spec (N.land (Byte.to_N y) 128) 0) as [E|E]; cbn [negb].
  - apply Hland in E. rewrite negb_true_iff, !andb_false_iff.
    rewrite <- (not_true_iff_false (forallb _ m)), Am. rewrite N.eqb_neq, N.leb_gt. nia.
  - split; [done|]. assert (128 <= Byte.to_N y) by lia. nia.
Qed.

(** ** Properties *)
Section properties.
Context {P : Primitives} {L : PrimitivesLaws P}.

(** The coordinates of small order, as numbers modulo p. *)
Definition small_order_values : list N :=
  [0; 1; field_prime - 1;
   325606250916557431795983626356110631294008115727848805560023387167927233504;
   39382357235489614581723060781553021112529911719440698176882885853963445705823].

Lemma small_order_points_values b :
  length b = 32%nat → le_value b < field_prime →
  b ∈ SMALL_ORDER_POINTS ↔ le_value b ∈ small_order_values.
Proof.
  intros Hl Hb.
  assert (Forall (λ p, length p = 32%nat) SMALL_ORDER_POINTS) as Hp by (repeat constructor).
  assert (map le_value SMALL_ORDER_POINTS
    = [0; 1; 325606250916557431795983626356110631294008115727848805560023387167927233504;
       39382357235489614581723060781553021112529911719440698176882885853963445705823;
       field_prime - 1; field_prime; field_prime + 1]) as Hv by (vm_compute; reflexivity).
  transitivity (le_value b ∈ map le_value SMALL_ORDER_POINTS).
  - rewrite list_elem_of_fmap. split; [by eauto|]. intros (p & E & Hin).
    rewrite Forall_forall in Hp. rewrite (le_value_inj b p); [done| |done].
    by rewrite Hl, Hp.
  - rewrite Hv. unfold small_order_values. rewrite !elem_of_cons, !elem_of_nil. lia.
Qed.

(** Which recipient keys are accepted: exactly the 1216-byte strings the
    HPKE library parses whose X25519 half is the canonical encoding, below
    p = 2^255 - 19, of a coordinate that is none of the five of small order.
    A second encoding of the same point is refused, so a key has one. *)
Theorem recipient_key_accepted_iff (b : bytes) (k : RecipientPublic) :
  public_from_bytes b = Ok k ↔
  public_to_bytes k = b ∧
  let u := le_value (drop 1184 b) in u < field_prime ∧ u ∉ small_order_values.
Proof.
  unfold public_from_bytes. cbn zeta. split.
  - intros H. inv_ok.
    match goal with H : hpke_public_from_bytes _ = Some _ |- _ =>
      apply hpke_public_to_from in H as E end.
    unfold X25519_OFFSET in *. b2p. split; [done|].
    assert (length (drop 1184 b) = 32%nat) as Hl by lia.
    match goal with H : is_canonical_x25519 _ = true |- _ =>
      apply (is_canonical_x25519_iff _ Hl) in H as Hc end.
    split; [done|]. by rewrite <- small_order_points_values.
  - intros (<- & Hc & Hs). unfold public_to_bytes in *.
    pose proof (hpke_public_length k.(hpke_public)) as Hlen.
    assert (length (drop 1184 (hpke_public_to_bytes (hpke_public k))) = 32%nat) as Hl
      by (rewrite length_drop; lia).
    rewrite hpke_public_from_to. cbn [ok_or mbind result_mbind result_bind].
    unfold X25519_OFFSET. pass.
    rewrite bool_decide_eq_false_2 by (by rewrite small_order_points_values).
    cbn [refuse_if mbind result_mbind result_bind].
    rewrite (proj2 (is_canonical_x25519_iff _ Hl) Hc). cbn. by destruct k.
Qed.

(** A wrapped content key reaches its recipient: whatever randomness the
    wrapping drew, the holder of the seed unwraps the same key under the same
    object id, and both parts of the stanza have their fixed lengths. *)
Theorem wrapped_key_unwraps
    (secret : RecipientSecret) (k : RecipientPublic) (cek : ContentKey)
    (object_id : bytes) (random : option bytes) (w : WrappedKey) :
  lenN cek.(content_key) = KEY_LENGTH → public_key secret = Ok k →
  wrap_cek k cek object_id random = Ok w →
  unwrap_cek secret object_id w.(encapsulation) w.(wrapped_cek) = Ok cek ∧
  lenN w.(encapsulation) = ENCAPSULATION_LENGTH ∧ lenN w.(wrapped_cek) = WRAPPED_KEY_LENGTH.
Proof.
  intros Hc Hk Hw. split; [by eapply unwrap_wrap|by eapply wrap_lengths].
Qed.

(** Chunks in place: sealing the first [len] bytes of a buffer with room
    for a tag succeeds, writes what [seal] gives over them, leaves the rest of
    the buffer alone, and opening the written part gives the plaintext back. *)
Theorem chunk_in_place_roundtrip
    (key : DerivedKey) (nonce aad p tail : bytes) :
  lenN p <= AEAD_MAX → TAG_LENGTH <= lenN tail →
  ∃ c buffer',
    seal key nonce aad p = Ok c ∧
    seal_in_place key nonce aad (p ++ tail) (lenN p) = Ok (lenN c, buffer') ∧
    buffer' = c ++ drop 16 tail ∧ length buffer' = length (p ++ tail) ∧
    ∃ opened, open_in_place key nonce aad c = Ok (lenN p, opened) ∧
              take (length p) opened = p.
Proof.
  intros Hp Ht. destruct (seal_total key nonce aad p Hp) as [c Hc].
  pose proof (seal_length _ _ _ _ _ Hc) as Lc. pose proof (open_seal _ _ _ _ _ Hc) as Ho.
  exists c, (c ++ drop 16 tail). split_and!; [done| |done| |].
  - rewrite (seal_in_place_seal _ _ _ _ (lenN p) p tail) by done. rewrite Hc. cbn.
    by rewrite Lc.
  - unfold TAG_LENGTH in *. rewrite !length_app, length_drop. lia.
  - rewrite open_in_place_open by (unfold TAG_LENGTH in *; lia). rewrite Ho. cbn.
    eexists. split; [done|]. apply take_app_length.
Qed.
End properties.

(** * A concrete instance, for the witnesses: tags that name their key *)
Import Padded.

Module Toy.
Definition public_of (seed : fixed 32) : fixed 1216 :=
  fix_to 1216 (replicate 1184 Byte.x00 ++ proj1_sig seed).

Definition hpke_tag (pk : fixed 1216) : bytes := pad 16 (drop 1184 (proj1_sig pk)).
Definition aead_tag (k n a : bytes) : bytes := pad 16 (take 4 k ++ n).

#[export] Instance primitives : Primitives := {
  HpkeSecret := fixed 32;
  HpkePublic := fixed 1216;
  HpkeEncapsulation := fixed 1120;
  hpke_secret_from_bytes b := if lenN b =? 32 then Some (fix_to 32 b) else None;
  hpke_sk_to_pk := public_of;
  hpke_public_from_bytes b := if lenN b =? 1216 then Some (fix_to 1216 b) else None;
  hpke_public_to_bytes k := proj1_sig k;
  hpke_encapsulation_from_bytes b := if lenN b =? 1120 then Some (fix_to 1120 b) else None;
  hpke_encapsulation_to_bytes e := proj1_sig e;
  hpke_seal r pk i a p := Some (fix_to 1120 r, p, hpke_tag pk);
  hpke_open sk e i a c t := if bool_decide (t = hpke_tag (public_of sk)) then Some c else None;
  aead_encrypt k n a p := if lenN p <=? AEAD_MAX then Some (p, aead_tag k n a) else None;
  aead_decrypt k n a c t := if bool_decide (t = aead_tag k n a) then Some c else None;
  hkdf s k i := Some (pad 32 (drop 9 i ++ s ++ k));
  hmac_sha256 k m := toy_hash (k ++ m);
  sha256 := toy_hash;
}.

#[export] Instance primitives_laws : PrimitivesLaws primitives.
Proof.
  assert (∀ n (a : fixed n), (if lenN (proj1_sig a) =? n then Some (fix_to n (proj1_sig a)) else None)
    = Some a) as Hf.
  { intros n a. rewrite (proj2 (N.eqb_eq _ _) (proj2_sig a)). f_equal. apply fix_to_id. }
  assert (∀ n b (k : fixed n), (if lenN b =? n then Some (fix_to n b) else None) = Some k →
    proj1_sig k = b) as Hb.
  { intros n b k H. case_match; [|done]. simplify_eq. cbn -[pad]. apply pad_id. lia. }
  split; cbn -[pad N.eqb N.leb toy_hash]; intros.
  - unfold KEY_LENGTH in *. by rewrite (proj2 (N.eqb_eq _ _) H).
  - apply (proj2_sig k).
  - apply Hf.
  - by apply Hb.
  - apply (proj2_sig e).
  - apply Hf.
  - simplify_eq. split; [done|apply pad_length].
  - simplify_eq. by rewrite bool_decide_eq_true_2.
  - by rewrite (proj2 (N.leb_le _ _) H).
  - case_match; simplify_eq. split; [done|apply pad_length].
  - case_match; simplify_eq. by rewrite bool_decide_eq_true_2.
  - by case_match; simplify_eq.
  - eexists. split; [done|apply pad_length].
  - apply toy_hash_length.
  - apply toy_hash_length.
Qed.
End Toy.

Import Toy.

Module Samples.
Definition secret : RecipientSecret := {| recipient_seed := replicate 32 Byte.x09 |}.
Definition cek : ContentKey := {| content_key := replicate 32 Byte.x01 |}.
Definition key : DerivedKey := {| derived_key := replicate 32 Byte.x02 |}.
Definition public : RecipientPublic :=
  {| hpke_public := Toy.public_of (fix_to 32 (replicate 32 Byte.x09)) |}.
End Samples.

Lemma recipient_key_accepted_iff_witness :
  public_from_bytes (replicate 1184 Byte.x00 ++ replicate 32 Byte.x00) ≠ Ok Samples.public ∧
  public_from_bytes (public_to_bytes Samples.public) = Ok Samples.public.
Proof.
  split.
  - intros H. apply (proj1 (recipient_key_accepted_iff _ _)) in H as [_ [_ H]].
    apply H. left.
  - apply (proj2 (recipient_key_accepted_iff _ _)). split; [reflexivity|].
    split; [vm_compute; reflexivity|]. apply (bool_decide_unpack _). vm_compute. exact I.
Defined.

Lemma wrapped_key_unwraps_witness :
  ∃ w, wrap_cek Samples.public Samples.cek (replicate 32 Byte.x03) (Some (replicate 32 Byte.x04))
         = Ok w ∧
       unwrap_cek Samples.secret (replicate 32 Byte.x03) w.(encapsulation) w.(wrapped_cek)
         = Ok Samples.cek.
Proof.
  eexists. split; [reflexivity|].
  apply (wrapped_key_unwraps Samples.secret Samples.public Samples.cek
           (replicate 32 Byte.x03) (Some (replicate 32 Byte.x04))); reflexivity.
Defined.

Lemma chunk_in_place_roundtrip_witness :
  ∃ c buffer',
    seal Samples.key (replicate 12 Byte.x00) [] (text "chunk") = Ok c ∧
    seal_in_place Samples.key (replicate 12 Byte.x00) [] (text "chunk" ++ replicate 20 Byte.xff) 5
      = Ok (lenN c, buffer').
Proof.
  destruct (chunk_in_place_roundtrip Samples.key (replicate 12 Byte.x00) [] (text "chunk")
    (replicate 20 Byte.xff)) as (c & b & H1 & H2 & _); [vm_compute; discriminate..|].
  exists c, b. split; [exact H1|exact H2].
Defined.
