(* ===== verification/Epoch.v ===== *)
(** [hide-epoch/src/lib.rs]: the epoch chain, forward security by erasure. The
    chain is a state machine ([step]) over its public records and the secrets
    it still holds; recipient keys come through the interface [RecipientKeys],
    SHA-256 and CBOR are parameters. *)
From S2P Require Import Prelude Cbor Crypto.
Local Open Scope N_scope.

Definition MAX_CHAIN_ENTRIES : N := 1000000.
Definition MIN_RECORD_BYTES : N := 4.
Definition CHAIN_INFO : bytes := text "HIDE/0.6 epoch chain".
Definition PUBLIC_KEY_LENGTH : N := 1216.

Inductive EpochError :=
| Erased (number : N)
| UnknownEpoch (number : N)
| Malformed
| TooManyEntries (entries : N)
| BrokenLink (expected found : N)
| BrokenHash (number : N)
| WrongKeyLength (number expected actual : N)
| SecretMismatch (number : N)
| DuplicateSecret (number : N)
| CryptoFailed (error : CryptoError).

#[export] Instance EpochError_eq_dec : EqDecision EpochError.
Proof. solve_decision. Defined.

Record EpochRecord := { number : N; public_key : bytes; link : bytes }.

#[export] Instance EpochRecord_eq_dec : EqDecision EpochRecord.
Proof. solve_decision. Defined.

Definition zero_link : bytes := replicate 32 Byte.x00.

(** [records.last().map_or([0; 32], |record| record.link)] *)
Definition last_link (records : list EpochRecord) : bytes :=
  match last records with Some r => r.(link) | None => zero_link end.

(** ** The records and their links *)
Section records.
Context (sha256 : bytes → bytes).

Definition link_input (previous : bytes) (number : N) (public_key : bytes) : bytes :=
  CHAIN_INFO ++ previous ++ u64be number ++ u64be (lenN public_key) ++ public_key.

Definition link_for (previous : bytes) (number : N) (public_key : bytes) : bytes :=
  sha256 (link_input previous number public_key).

(** The loop of [verify]: the index and the link before it. *)
Fixpoint verify_from (index : N) (previous : bytes) (records : list EpochRecord)
  : result EpochError unit :=
  match records with
  | [] => Ok tt
  | r :: records =>
      refuse_if (negb (r.(number) =? index)) (BrokenLink index r.(number));;
      refuse_if (negb (lenN r.(public_key) =? PUBLIC_KEY_LENGTH))
        (WrongKeyLength r.(number) PUBLIC_KEY_LENGTH (lenN r.(public_key)));;
      refuse_if (negb (bool_decide (link_for previous r.(number) r.(public_key) = r.(link))))
        (BrokenHash r.(number));;
      verify_from (index + 1) r.(link) records
  end.

Definition verify (records : list EpochRecord) : result EpochError unit :=
  refuse_if (MAX_CHAIN_ENTRIES <? lenN records) (TooManyEntries (lenN records));;
  verify_from 0 zero_link records.
End records.

(** ** The wire form of the public history *)
Section codec.
Context {C : Cbor}.

Definition encode_record (r : EpochRecord) : bytes :=
  enc_array 3 ++ enc_u64 r.(number) ++ enc_bytes r.(public_key) ++ enc_bytes r.(link).

Definition encode_records (records : list EpochRecord) : bytes :=
  enc_array (lenN records) ++ concat (map encode_record records).

Definition decode_record (d : bytes) : result EpochError (EpochRecord * bytes) :=
  '(fields, d) ← ok_or (dec_array d) Malformed;
  fields ← ok_or fields Malformed;
  refuse_if (negb (fields =? 3)) Malformed;;
  '(number, d) ← ok_or (dec_u64 d) Malformed;
  '(public_key, d) ← ok_or (dec_bytes d) Malformed;
  '(link, d) ← ok_or (dec_bytes d) Malformed;
  refuse_if (negb (lenN link =? 32)) Malformed;;
  Ok ({| number := number; public_key := public_key; link := link |}, d).

Definition decode_records (b : bytes) : result EpochError (list EpochRecord) :=
  '(count, d) ← ok_or (dec_array b) Malformed;
  count ← ok_or count Malformed;
  refuse_if (MAX_CHAIN_ENTRIES <? count) (TooManyEntries count);;
  '(records, d) ← repeat_read decode_record (N.to_nat count) d;
  refuse_if (negb (position b d =? lenN b)) Malformed;;
  refuse_if (negb (bool_decide (encode_records records = b))) Malformed;;
  Ok records.
End codec.

(** * The chain *)
Section chain.
Context (sha256 : bytes → bytes) {K : RecipientKeys}.

Record EpochSecret := { epoch : N; secret_held : option Secret }.
Record EpochChain := { records : list EpochRecord; secrets : list EpochSecret }.

Definition erase_secret (s : EpochSecret) : EpochSecret :=
  {| epoch := s.(epoch); secret_held := None |}.

Definition advance (c : EpochChain) (random : option bytes)
  : result EpochError (EpochChain * N) :=
  let number := lenN c.(records) in
  refuse_if (MAX_CHAIN_ENTRIES <=? lenN c.(records)) (TooManyEntries (lenN c.(records)));;
  secret ← map_err CryptoFailed (secret_generate random);
  public_key ← map_err CryptoFailed (secret_public_bytes secret);
  let previous := last_link c.(records) in
  Ok ({| records := c.(records) ++
           [{| number := number; public_key := public_key;
               link := link_for sha256 previous number public_key |}];
         secrets := c.(secrets) ++ [{| epoch := number; secret_held := Some secret |}] |},
      number).

Definition new (random : option bytes) : result EpochError EpochChain :=
  '(c, _) ← advance {| records := []; secrets := [] |} random;
  Ok c.

(** [saturating_sub] *)
Definition current (c : EpochChain) : N := lenN c.(records) - 1.

Definition chain_public_key (c : EpochChain) (n : N) : result EpochError bytes :=
  r ← ok_or (c.(records) !! N.to_nat n) (UnknownEpoch n);
  Ok r.(public_key).

Definition secret (c : EpochChain) (n : N) : result EpochError Secret :=
  held ← ok_or (c.(secrets) !! N.to_nat n) (UnknownEpoch n);
  ok_or held.(secret_held) (Erased n).

Definition erase (c : EpochChain) (n : N) : result EpochError EpochChain :=
  held ← ok_or (c.(secrets) !! N.to_nat n) (UnknownEpoch n);
  Ok {| records := c.(records); secrets := <[N.to_nat n := erase_secret held]> c.(secrets) |}.

Definition erasable (keep_from : N) (s : EpochSecret) : bool :=
  (s.(epoch) <? keep_from) && match s.(secret_held) with Some _ => true | None => false end.

(** Also returns how many secrets were erased. *)
Definition erase_before (c : EpochChain) (keep_from : N) : EpochChain * N :=
  ({| records := c.(records);
      secrets := map (λ s, if erasable keep_from s then erase_secret s else s) c.(secrets) |},
   lenN (List.filter (erasable keep_from) c.(secrets))).

Definition is_readable (c : EpochChain) (n : N) : bool :=
  match c.(secrets) !! N.to_nat n with
  | Some held => match held.(secret_held) with Some _ => true | None => false end
  | None => false
  end.

Definition head (c : EpochChain) : bytes := last_link c.(records).

(** [EpochChain::secrets]: what is still held, ascending. *)
Definition held_secrets (c : EpochChain) : list (N * Secret) :=
  omap (λ s, k ← s.(secret_held); Some (s.(epoch), k)) c.(secrets).

Fixpoint restore_secrets (records : list EpochRecord) (held : list EpochSecret)
    (given : list (N * Secret)) : result EpochError (list EpochSecret) :=
  match given with
  | [] => Ok held
  | (n, s) :: given =>
      r ← ok_or (records !! N.to_nat n) (UnknownEpoch n);
      public ← map_err CryptoFailed (secret_public_bytes s);
      refuse_if (negb (bool_decide (public = r.(public_key)))) (SecretMismatch n);;
      slot ← ok_or (held !! N.to_nat n) (UnknownEpoch n);
      refuse_if (match slot.(secret_held) with Some _ => true | None => false end)
        (DuplicateSecret n);;
      restore_secrets records
        (<[N.to_nat n := {| epoch := slot.(epoch); secret_held := Some s |}]> held) given
  end.

Definition restore (records : list EpochRecord) (given : list (N * Secret))
  : result EpochError EpochChain :=
  verify sha256 records;;
  refuse_if (bool_decide (records = [])) Malformed;;
  held ← restore_secrets records
    (map (λ r, {| epoch := r.(number); secret_held := None |}) records) given;
  Ok {| records := records; secrets := held |}.

(** [recipient_for], up to the parsing of the key. *)
Definition recipient_bytes (records : list EpochRecord) (n : N) : result EpochError bytes :=
  r ← ok_or (records !! N.to_nat n) (UnknownEpoch n);
  Ok r.(public_key).

(** ** The chain as a state machine *)

Inductive step : EpochChain → EpochChain → Prop :=
| step_advance c random c' n : advance c random = Ok (c', n) → step c c'
| step_erase c n c' : erase c n = Ok c' → step c c'
| step_erase_before c n : step c (erase_before c n).1.

Inductive steps : EpochChain → EpochChain → Prop :=
| steps_refl c : steps c c
| steps_step c c' c'' : step c c' → steps c' c'' → steps c c''.

(** A chain is started afresh or restored from a store. *)
Inductive started : EpochChain → Prop :=
| started_new random c : new random = Ok c → started c
| started_restore rs given c : restore rs given = Ok c → started c.

Definition reachable (c : EpochChain) : Prop := ∃ c0, started c0 ∧ steps c0 c.

(** A slot agrees with the record it is for. *)
Definition slot_ok (r : EpochRecord) (s : EpochSecret) : Prop :=
  s.(epoch) = r.(number) ∧
  ∀ k, s.(secret_held) = Some k → secret_public_bytes k = Ok r.(public_key).

Record chain_ok (c : EpochChain) : Prop := {
  chain_verifies : verify sha256 c.(records) = Ok tt;
  chain_nonempty : c.(records) ≠ [];
  chain_slots : Forall2 slot_ok c.(records) c.(secrets);
}.
End chain.

(** * Links *)
Section link_laws.
Context (sha256 : bytes → bytes) (sha256_length : ∀ x, length (sha256 x) = 32%nat).

Lemma last_link_snoc rs r : last_link (rs ++ [r]) = r.(link).
Proof. unfold last_link. by rewrite last_snoc. Qed.

Lemma last_link_cons r rs : last_link (r :: rs) = match rs with [] => r.(link) | _ => last_link rs end.
Proof. by destruct rs. Qed.

Lemma verify_from_snoc i p rs r :
  verify_from sha256 i p (rs ++ [r]) = Ok tt ↔
  verify_from sha256 i p rs = Ok tt ∧
  r.(number) = i + lenN rs ∧ lenN r.(public_key) = PUBLIC_KEY_LENGTH ∧
  r.(link) = link_for sha256 (match last rs with Some r => r.(link) | None => p end)
               r.(number) r.(public_key).
Proof.
  revert i p. induction rs as [|x rs IH]; intros i p; cbn [app verify_from].
  - cbn. rewrite N.add_0_r. split.
    + intros H. inv_ok. by b2p.
    + intros (_ & <- & Hl & Hk). rewrite N.eqb_refl, Hl, <- Hk. cbn.
      by rewrite bool_decide_eq_true_2.
  - assert (∀ b (e : EpochError) (m : result EpochError unit),
      (refuse_if b e;; m) = Ok tt ↔ b = false ∧ m = Ok tt) as R
      by (intros [] e m; cbn; naive_solver).
    rewrite !R, IH. clear R. cbn [length]. rewrite last_cons.
    replace (i + 1 + lenN rs) with (i + N.of_nat (S (length rs))) by lia.
    destruct (last rs); naive_solver.
Qed.

Lemma epoch_link_input_inj p n k p' n' k' :
  length p = length p' → n < u64_bound → n' < u64_bound →
  link_input p n k = link_input p' n' k' → p = p' ∧ n = n' ∧ k = k'.
Proof.
  unfold link_input. intros Hp Hn Hn' E. apply app_inv_head in E.
  apply app_inj_len_1 in E as [-> E]; [|done].
  apply app_inj_len_1 in E as [En E]; [|by rewrite !length_u64be].
  apply u64be_inj in En; [|done..].
  apply app_inj_len_1 in E as [_ E]; [|by rewrite !length_u64be]. done.
Qed.

(** The strings hashed in linking a history. *)
Fixpoint linked_from (p : bytes) (rs : list EpochRecord) (x : bytes) : Prop :=
  match rs with
  | [] => False
  | r :: rs => x = link_input p r.(number) r.(public_key) ∨ linked_from r.(link) rs x
  end.

Definition linked (rs : list EpochRecord) : bytes → Prop := linked_from zero_link rs.

Lemma epoch_linked_from_snoc p rs r x :
  linked_from p (rs ++ [r]) x ↔
  linked_from p rs x ∨
  x = link_input (match last rs with Some r => r.(link) | None => p end) r.(number) r.(public_key).
Proof.
  revert p. induction rs as [|y rs IH]; intros p; cbn [app linked_from].
  - cbn. naive_solver.
  - rewrite IH, last_cons. destruct (last rs); naive_solver.
Qed.

Lemma verify_links_32 rs : verify_from sha256 0 zero_link rs = Ok tt → length (last_link rs) = 32%nat.
Proof.
  destruct rs as [|r rs _] using rev_ind; [done|].
  rewrite verify_from_snoc, last_link_snoc. intros (_ & _ & _ & ->). apply sha256_length.
Qed.

Lemma head_inj rs ks :
  verify_from sha256 0 zero_link rs = Ok tt → verify_from sha256 0 zero_link ks = Ok tt →
  length rs = length ks → lenN rs <= MAX_CHAIN_ENTRIES → last_link rs = last_link ks →
  rs = ks ∨ collide sha256 (linked rs) (linked ks).
Proof.
  revert ks. induction rs as [|r rs IH] using rev_ind; intros ks Hr Hk Hl Hm E.
  - destruct ks; [by left|done].
  - destruct ks as [|k ks _] using rev_ind; [rewrite length_app in Hl; cbn in Hl; lia|].
    rewrite !length_app in Hl. cbn in Hl. rewrite !last_link_snoc in E.
    rewrite length_app in Hm. cbn in Hm. unfold MAX_CHAIN_ENTRIES in *.
    pose proof (verify_from_snoc 0 zero_link rs r) as [Vr _].
    pose proof (verify_from_snoc 0 zero_link ks k) as [Vk _].
    destruct (Vr Hr) as (Hr' & Nr & Lr & Er), (Vk Hk) as (Hk' & Nk & Lk & Ek).
    fold (last_link rs) in Er. fold (last_link ks) in Ek.
    destruct (hash_eq_or_collide sha256
      (link_input (last_link rs) r.(number) r.(public_key))
      (link_input (last_link ks) k.(number) k.(public_key))
      (linked (rs ++ [r])) (linked (ks ++ [k]))) as [Eq|]; [| | |..|by right].
    { apply epoch_linked_from_snoc. by right. }
    { apply epoch_linked_from_snoc. by right. }
    { unfold link_for in *. congruence. }
    apply epoch_link_input_inj in Eq as (Ep & En & Epk);
      [|by rewrite !verify_links_32 by done|unfold u64_bound; lia..].
    destruct (IH ks) as [->|HC]; [done|done|lia|lia|done| |right].
    + left. f_equal. f_equal. destruct r, k. cbn in *. congruence.
    + eapply collide_mono; [..|exact HC]; intros x Hx; apply epoch_linked_from_snoc; by left.
Qed.
End link_laws.

(** * The chain invariant *)
Section chain_laws.
Context (sha256 : bytes → bytes) (sha256_length : ∀ x, length (sha256 x) = 32%nat).
Context {K : RecipientKeys} {KL : RecipientKeysLaws K}.

Lemma verify_Ok rs :
  verify sha256 rs = Ok tt ↔
  lenN rs <= MAX_CHAIN_ENTRIES ∧ verify_from sha256 0 zero_link rs = Ok tt.
Proof.
  unfold verify. destruct (N.ltb_spec MAX_CHAIN_ENTRIES (lenN rs)); cbn.
  - split; [done|lia].
  - naive_solver.
Qed.

Lemma verify_number rs i r :
  verify_from sha256 0 zero_link rs = Ok tt → rs !! i = Some r → r.(number) = N.of_nat i.
Proof.
  revert i. induction rs as [|x rs IH] using rev_ind; intros i H Hi; [done|].
  apply verify_from_snoc in H as (H & Hn & _ & _).
  apply lookup_app_Some in Hi as [Hi|[Hle Hi]]; [by eapply IH|].
  apply list_lookup_singleton_Some in Hi as [Hz <-]. lia.
Qed.

Lemma advance_ok c random c' n :
  advance sha256 c random = Ok (c', n) →
  n = lenN c.(records) ∧ ∃ r k,
    c' = {| records := c.(records) ++ [r];
            secrets := c.(secrets) ++ [{| epoch := n; secret_held := Some k |}] |} ∧
    secret_generate random = Ok k ∧
    secret_public_bytes k = Ok r.(public_key) ∧ r.(number) = n ∧
    r.(link) = link_for sha256 (last_link c.(records)) n r.(public_key) ∧
    lenN c.(records) < MAX_CHAIN_ENTRIES.
Proof.
  unfold advance. intros H. inv_ok. b2p. split; [done|].
  eexists _, _. split_and!; [done|eassumption|cbn; congruence|done..|done].
Qed.

Lemma chain_ok_advance c random c' n :
  (c.(records) = [] ∧ c.(secrets) = [] ∨ chain_ok sha256 c) →
  advance sha256 c random = Ok (c', n) → chain_ok sha256 c'.
Proof.
  intros Hc H. apply advance_ok in H as (-> & r & k & -> & _ & Hk & Hn & Hl & Hm).
  assert (verify sha256 c.(records) = Ok tt ∧ Forall2 slot_ok c.(records) c.(secrets))
    as [Hv Hs] by (destruct Hc as [[-> ->]|[]]; [by split|done]).
  split; cbn.
  - apply verify_Ok in Hv as [Hle Hv]. apply verify_Ok. split.
    { rewrite length_app. cbn. lia. }
    apply verify_from_snoc. split_and!; [done|by rewrite Hn| |].
    + by eapply public_bytes_length.
    + by rewrite Hn.
  - by intros []%app_nil.
  - apply Forall2_app; [done|]. repeat constructor; cbn; [done|].
    by intros ? [= <-].
Qed.

Lemma slot_ok_erase r s : slot_ok r s → slot_ok r (erase_secret s).
Proof. intros [He Hs]. by split. Qed.

Lemma chain_ok_step c c' : chain_ok sha256 c → step sha256 c c' → chain_ok sha256 c'.
Proof.
  intros Hc H. destruct H as [c random c' n H|c n c' H|c n].
  - eapply chain_ok_advance; [by right|exact H].
  - destruct Hc as [Hv Hn Hs]. unfold erase in H. inv_ok. split; cbn; [done|done|].
    eapply Forall2_lookup_r in Hs as Hl; [|eassumption]. destruct Hl as (r & Hr & Hso).
    rewrite <- (list_insert_id c.(records) (N.to_nat n) r) by done.
    apply Forall2_insert; [done|by apply slot_ok_erase].
  - destruct Hc as [Hv Hn Hs]. split; cbn; [done|done|].
    apply Forall2_fmap_r. eapply Forall2_impl; [exact Hs|].
    intros r s Ho. cbn. case_match; [by apply slot_ok_erase|done].
Qed.

Lemma restore_secrets_slots rs held given held' :
  Forall2 slot_ok rs held → restore_secrets rs held given = Ok held' → Forall2 slot_ok rs held'.
Proof.
  revert held. induction given as [|[n s] given IH]; intros held Hs H; cbn in H; inv_ok; [done|].
  eapply IH; [|exact H]. b2p.
  match goal with Hr : rs !! _ = Some ?r, Hh : held !! _ = Some ?h |- _ =>
    rewrite <- (list_insert_id rs (N.to_nat n) r Hr);
    destruct (Forall2_lookup_lr _ _ _ _ _ _ Hs Hr Hh) as [He _] end.
  apply Forall2_insert; [done|]. split; cbn; [done|]. intros k [= <-]. congruence.
Qed.

Lemma chain_ok_restore rs given c : restore sha256 rs given = Ok c → chain_ok sha256 c.
Proof.
  unfold restore. intros H. inv_ok. b2p. split; cbn; [done|done|].
  eapply restore_secrets_slots; [|eassumption].
  apply Forall2_fmap_r, Forall_Forall2_diag, Forall_true. intros r. by split.
Qed.

Lemma chain_ok_started c : started sha256 c → chain_ok sha256 c.
Proof.
  intros [random c' H|rs given c' H].
  - unfold new in H. inv_ok. eapply chain_ok_advance; [|eassumption]. by left.
  - by eapply chain_ok_restore.
Qed.

Lemma chain_ok_steps c c' : chain_ok sha256 c → steps sha256 c c' → chain_ok sha256 c'.
Proof. intros Hc H. induction H; [done|]. eauto using chain_ok_step. Qed.

(** ** Erasure is final *)

Definition erased_at (c : EpochChain) (n : N) : Prop :=
  ∃ s, c.(secrets) !! N.to_nat n = Some s ∧ s.(secret_held) = None.

Lemma erased_at_step c c' n : erased_at c n → step sha256 c c' → erased_at c' n.
Proof.
  intros (s & Hs & Hn) H. destruct H as [c random c' m H|c m c' H|c m].
  - apply advance_ok in H as (_ & r & k & -> & _). exists s. split; [|done]. cbn.
    by apply lookup_app_l_Some.
  - unfold erase in H. inv_ok. unfold erased_at. cbn.
    destruct (decide (N.to_nat m = N.to_nat n)) as [->|Hne].
    + rewrite list_lookup_insert_eq by (by eapply lookup_lt_Some). by eexists.
    + rewrite list_lookup_insert_ne by done. by exists s.
  - unfold erased_at. cbn. rewrite list_lookup_fmap, Hs. cbn. eexists. split; [done|].
    by case_match.
Qed.

Lemma erased_at_steps c c' n : erased_at c n → steps sha256 c c' → erased_at c' n.
Proof. intros Hc H. induction H; [done|]. eauto using erased_at_step. Qed.

Lemma erased_at_secret c n : erased_at c n → secret c n = Err (Erased n).
Proof. intros (s & Hs & Hn). unfold secret. rewrite Hs. cbn. by rewrite Hn. Qed.

Lemma erase_erases c n c' : erase c n = Ok c' → erased_at c' n.
Proof.
  unfold erase. intros H. inv_ok. unfold erased_at. cbn.
  rewrite list_lookup_insert_eq by (by eapply lookup_lt_Some). by eexists.
Qed.

Lemma held_secrets_elem c n k :
  chain_ok sha256 c → (n, k) ∈ held_secrets c ↔ secret c n = Ok k.
Proof.
  intros [Hv _ Hs]. unfold held_secrets, secret. rewrite list_elem_of_omap. split.
  - intros (s & Hin & Hx). apply list_elem_of_lookup in Hin as [i Hi].
    destruct (Forall2_lookup_r _ _ _ _ _ Hs Hi) as (r & Hr & [He _]).
    apply bind_Some in Hx as (k' & Hk & [= <- <-]).
    apply verify_Ok in Hv as [_ Hv]. rewrite He, (verify_number _ _ _ Hv Hr), Nat2N.id, Hi.
    cbn. by rewrite Hk.
  - intros H. inv_ok.
    match goal with H : secrets c !! _ = Some ?s |- _ => rename H into Hi; exists s end.
    split; [by eapply list_elem_of_lookup_2|].
    destruct (Forall2_lookup_r _ _ _ _ _ Hs Hi) as (r & Hr & [He _]).
    apply verify_Ok in Hv as [_ Hv].
    apply bind_Some. exists k. split; [done|]. rewrite He, (verify_number _ _ _ Hv Hr).
    by rewrite N2Nat.id.
Qed.

(** ** Restoring what survived *)

(** The slots of a chain, with those from [i] on still to be supplied. *)
Definition blank (s : EpochSecret) : EpochSecret := erase_secret s.

Lemma restore_secrets_app rs done todo given0 :
  Forall2 slot_ok rs (done ++ todo) →
  (∀ i r, rs !! i = Some r → r.(number) = N.of_nat i) →
  given0 = omap (λ s, k ← s.(secret_held); Some (s.(epoch), k)) todo →
  restore_secrets rs (done ++ map blank todo) given0 = Ok (done ++ todo).
Proof.
  intros Hs Hn ->. revert done Hs. induction todo as [|s todo IH]; intros done Hs; cbn.
  { done. }
  assert ((done ++ s :: todo) !! length done = Some s) as Hl by by apply list_lookup_middle.
  destruct (Forall2_lookup_r _ _ _ _ _ Hs Hl) as (r & Hr & [He Hk]).
  destruct s as [e [k|]]; cbn in *.
  - pose proof (Hn _ _ Hr) as Hnum. rewrite He, Hnum, Nat2N.id, Hr. cbn.
    rewrite (Hk k eq_refl). cbn. rewrite bool_decide_eq_true_2 by done. cbn.
    rewrite list_lookup_middle by done. cbn.
    rewrite (insert_app_r_alt _ _ (length done)) by lia.
    rewrite Nat.sub_diag. cbn. specialize (IH (done ++ [{| epoch := e; secret_held := Some k |}])).
    rewrite <- !app_assoc in IH. cbn in IH. rewrite <- Hnum, <- He. by apply IH.
  - specialize (IH (done ++ [{| epoch := e; secret_held := None |}])).
    rewrite <- !app_assoc in IH. cbn in IH. by apply IH.
Qed.

Lemma restore_held c :
  chain_ok sha256 c → restore sha256 c.(records) (held_secrets c) = Ok c.
Proof.
  intros [Hv Hne Hs]. unfold restore. rewrite Hv. cbn.
  rewrite bool_decide_eq_false_2 by done. cbn.
  replace (map (λ r, {| epoch := number r; secret_held := None |}) (records c))
    with (map blank (secrets c)).
  - pose proof (restore_secrets_app (records c) [] (secrets c) (held_secrets c) Hs) as R.
    cbn in R. rewrite R; [by destruct c| |done].
    intros i r Hi. apply verify_Ok in Hv as [_ Hv]. by eapply verify_number.
  - clear Hv Hne. induction Hs as [|r s rs ss [He _] _ IH]; [done|]. cbn. f_equal; [|done].
    unfold blank, erase_secret. congruence.
Qed.
End chain_laws.

(** * The wire form *)
Section codec_laws.
Context {C : Cbor} {L : CborLaws C}.

Record record_typed (r : EpochRecord) : Prop := {
  typed_number : r.(number) < u64_bound;
  typed_link : length r.(link) = 32%nat;
}.

Lemma verify_typed sha256 i p rs :
  (∀ x, length (sha256 x) = 32%nat) → verify_from sha256 i p rs = Ok tt → i + lenN rs <= u64_bound →
  Forall record_typed rs ∧ Forall (λ r, lenN r.(public_key) = PUBLIC_KEY_LENGTH) rs.
Proof.
  intros Hs. revert i p. induction rs as [|r rs IH]; intros i p H Hn; [done|].
  cbn [verify_from] in H. inv_ok. b2p. cbn [length] in Hn.
  match goal with H : verify_from _ _ _ _ = Ok _ |- _ => apply IH in H as [F1 F2]; [|lia] end.
  split; constructor; try done. split; [lia|].
  match goal with H : link_for _ _ _ _ = link r |- _ => rewrite <- H end. apply Hs.
Qed.

Lemma decode_record_encode r d :
  record_typed r → lenN r.(public_key) < u64_bound →
  decode_record (encode_record r ++ d) = Ok (r, d).
Proof.
  intros [Hn Hl] Hk. unfold decode_record, encode_record. rewrite <- !app_assoc.
  rewrite dec_enc_array by done. cbn [ok_or mbind result_mbind result_bind negb refuse_if].
  rewrite N.eqb_refl. cbn [ok_or mbind result_mbind result_bind negb refuse_if].
  rewrite dec_enc_u64 by done. cbn [ok_or mbind result_mbind result_bind].
  rewrite dec_enc_bytes by done. cbn [ok_or mbind result_mbind result_bind].
  rewrite dec_enc_bytes by (unfold u64_bound; lia). cbn [ok_or mbind result_mbind result_bind].
  pass. by destruct r.
Qed.

Lemma decode_record_typed d r d' : decode_record d = Ok (r, d') → record_typed r.
Proof.
  unfold decode_record. intros H. inv_ok. b2p. split; cbn; [|lia].
  by eapply dec_u64_range.
Qed.

Lemma encode_records_key rs r :
  r ∈ rs → lenN r.(public_key) <= lenN (encode_records rs).
Proof.
  intros Hr. unfold encode_records. rewrite length_app.
  assert (lenN r.(public_key) <= lenN (concat (map encode_record rs))); [|lia].
  induction rs as [|x rs IH]; [by inversion Hr|]. cbn [map concat]. rewrite length_app.
  apply elem_of_cons in Hr as [->|Hr]; [|specialize (IH Hr); lia].
  unfold encode_record. rewrite !length_app.
  destruct (enc_bytes_suffix (public_key x)) as [h ->]. rewrite length_app. lia.
Qed.

Lemma records_decode_encode rs :
  Forall record_typed rs → Forall (λ r, lenN r.(public_key) < u64_bound) rs →
  lenN rs <= MAX_CHAIN_ENTRIES → decode_records (encode_records rs) = Ok rs.
Proof.
  intros Ht Hk Hn. unfold MAX_CHAIN_ENTRIES in Hn. unfold decode_records.
  assert (dec_array (encode_records rs)
    = Some (Some (lenN rs), concat (map encode_record rs))) as ->
    by (apply dec_enc_array; unfold u64_bound; lia).
  cbn [ok_or mbind result_mbind result_bind]. unfold MAX_CHAIN_ENTRIES. pass.
  rewrite Nat2N.id. rewrite <- (app_nil_r (concat (map encode_record rs))).
  rewrite (repeat_read_concat decode_record rs (map encode_record rs)).
  - cbn [mbind result_mbind result_bind]. unfold position.
    replace (lenN (encode_records rs) - lenN ([] : bytes)) with (lenN (encode_records rs))
      by (cbn; lia).
    rewrite N.eqb_refl. cbn [negb refuse_if mbind result_mbind result_bind].
    by rewrite bool_decide_eq_true_2.
  - apply Forall2_fmap_r, Forall_Forall2_diag. rewrite Forall_forall in *.
    intros r Hr d. by apply decode_record_encode; [apply Ht|apply Hk].
Qed.

Lemma records_decode_inv b rs :
  decode_records b = Ok rs →
  encode_records rs = b ∧ Forall record_typed rs ∧ lenN rs <= MAX_CHAIN_ENTRIES.
Proof.
  unfold decode_records. intros H. inv_ok. b2p. split_and!; [done| |].
  - eapply repeat_read_Forall; [|eassumption]. apply decode_record_typed.
  - match goal with H : repeat_read _ _ _ = Ok _ |- _ => apply repeat_read_length in H end. lia.
Qed.
End codec_laws.

(** * Properties *)
Section properties.
Context (sha256 : bytes → bytes) {K : RecipientKeys} {KL : RecipientKeysLaws K}.

(** Erasure is final: after [erase] of an epoch, no later operation, in
    any number and order, brings its secret back. Reading it reports it as
    erased, it is never listed among the secrets to persist, and it is not
    readable. *)
Theorem erased_forever (c c1 c2 : EpochChain) (n : N) :
  reachable sha256 c → erase c n = Ok c1 → steps sha256 c1 c2 →
  secret c2 n = Err (Erased n) ∧ is_readable c2 n = false ∧
  ∀ k, (n, k) ∉ held_secrets c2.
Proof.
  intros (c0 & Hc0 & Hs) He Hs2.
  assert (chain_ok sha256 c2) as Hok.
  { apply (chain_ok_steps sha256 c1); [|done].
    apply (chain_ok_step sha256 c); [|by apply (step_erase sha256 _ n)].
    apply (chain_ok_steps sha256 c0); [|done]. by apply chain_ok_started. }
  pose proof (erased_at_steps sha256 _ _ _ (erase_erases _ _ _ He) Hs2) as Hx.
  pose proof (erased_at_secret _ _ Hx) as Hsec. split_and!; [done| |].
  - destruct Hx as (s & Hi & Hn). unfold is_readable. by rewrite Hi, Hn.
  - intros k Hk. apply (held_secrets_elem sha256 _ _ _ Hok) in Hk. congruence.
Qed.

(** Every chain that can arise, from a fresh or restored one by any
    operations, verifies as published, keeps one slot per record, and every
    secret it still holds is the one whose public key the record publishes. *)
Theorem chain_invariant (c : EpochChain) :
  reachable sha256 c →
  verify sha256 c.(records) = Ok tt ∧ length c.(secrets) = length c.(records) ∧
  ∀ n k, secret c n = Ok k →
    ∃ public, secret_public_bytes k = Ok public ∧ chain_public_key c n = Ok public.
Proof.
  intros (c0 & Hc0 & Hs).
  pose proof (chain_ok_steps sha256 c0 c (chain_ok_started _ _ Hc0) Hs) as [Hv Hne Hsl].
  split_and!; [done|by symmetry; apply Forall2_length in Hsl|].
  intros n k Hk. unfold secret in Hk. inv_ok.
  match goal with H : secrets c !! _ = Some _ |- _ =>
    destruct (Forall2_lookup_r _ _ _ _ _ Hsl H) as (r & Hr & [_ Hp]) end.
  exists (public_key r). split; [by apply Hp|]. unfold chain_public_key. by rewrite Hr.
Qed.

(** The head commits to the whole history: two non-empty histories that
    verify and end in the same link are equal, or two distinct strings hashed
    in linking them have one SHA-256. *)
Theorem head_commits (rs ks : list EpochRecord) :
  (∀ x, length (sha256 x) = 32%nat) →
  verify sha256 rs = Ok tt → verify sha256 ks = Ok tt → rs ≠ [] → ks ≠ [] →
  last_link rs = last_link ks →
  rs = ks ∨ collide sha256 (linked rs) (linked ks).
Proof.
  intros Hs Hr Hk Nr Nk E. apply verify_Ok in Hr as [Mr Hr], Hk as [Mk Hk].
  destruct (decide (length rs = length ks)) as [Hl|Hl]; [by apply head_inj|].
  right. destruct rs as [|r rs _] using rev_ind; [done|].
  destruct ks as [|k ks _] using rev_ind; [done|].
  rewrite !last_link_snoc in E. rewrite !length_app in Mr, Mk, Hl. cbn in Mr, Mk, Hl.
  unfold MAX_CHAIN_ENTRIES in *.
  apply verify_from_snoc in Hr as (Hr & Nnr & _ & Er), Hk as (Hk & Nnk & _ & Ek).
  fold (last_link rs) in Er. fold (last_link ks) in Ek.
  exists (link_input (last_link rs) r.(number) r.(public_key)),
         (link_input (last_link ks) k.(number) k.(public_key)).
  split_and!; [apply epoch_linked_from_snoc; by right..| |unfold link_for in *; congruence].
  intros Eq. apply epoch_link_input_inj in Eq as (_ & En & _); [len| |unfold u64_bound; lia..].
  by rewrite !(verify_links_32 sha256 Hs) by done.
Qed.

(** A restart loses nothing and invents nothing: restoring a reachable
    chain from its public history and the secrets it still holds gives exactly
    that chain, erased epochs included. *)
Theorem restore_roundtrip (c : EpochChain) :
  reachable sha256 c → restore sha256 c.(records) (held_secrets c) = Ok c.
Proof.
  intros (c0 & Hc0 & Hs). apply restore_held.
  apply (chain_ok_steps sha256 c0); [|done]. by apply chain_ok_started.
Qed.
End properties.

(** One history, one encoding: a byte string decodes as epoch records
    exactly when it is the encoding of at most a million records with u64
    numbers and 32-byte links. *)
Theorem records_decode_iff `{CborLaws} (b : bytes) (rs : list EpochRecord) :
  lenN b < u64_bound →
  decode_records b = Ok rs ↔
  encode_records rs = b ∧ Forall record_typed rs ∧ lenN rs <= MAX_CHAIN_ENTRIES.
Proof.
  intros Hb. split; [apply records_decode_inv|]. intros (<- & Ht & Hn).
  apply records_decode_encode; [done| |done].
  apply Forall_forall. intros r Hr. pose proof (encode_records_key rs r Hr). lia.
Qed.

(** ** Witnesses *)
Import Crypto.Toy Cbor.Reference.

Module Samples.
Definition started_chain : EpochChain :=
  match new toy_hash (Some (replicate 32 Byte.x05)) with
  | Ok c => c
  | Err _ => {| records := []; secrets := [] |}
  end.
Definition advanced : EpochChain :=
  match advance toy_hash started_chain (Some (replicate 32 Byte.x06)) with
  | Ok (c, _) => c
  | Err _ => started_chain
  end.
Definition erased : EpochChain :=
  match erase advanced 0 with Ok c => c | Err _ => advanced end.
Definition published : list EpochRecord :=
  [{| number := 0; public_key := text "short"; link := replicate 32 Byte.x01 |}].
End Samples.

Lemma sample_started : started toy_hash Samples.started_chain.
Proof. by apply (started_new toy_hash (Some (replicate 32 Byte.x05))). Qed.

Lemma sample_advanced : reachable toy_hash Samples.advanced.
Proof.
  exists Samples.started_chain. split; [apply sample_started|].
  eapply steps_step; [|apply steps_refl].
  by apply (step_advance toy_hash _ (Some (replicate 32 Byte.x06)) _ 1).
Qed.

Lemma erased_forever_witness :
  secret (erase_before Samples.erased 1).1 0 = Err (Erased 0).
Proof.
  apply (erased_forever toy_hash Samples.advanced Samples.erased
           (erase_before Samples.erased 1).1 0 sample_advanced);
    [reflexivity|].
  eapply steps_step; [apply step_erase_before|apply steps_refl].
Defined.

Lemma chain_invariant_witness : verify toy_hash (records Samples.advanced) = Ok tt.
Proof. apply (chain_invariant toy_hash Samples.advanced sample_advanced). Defined.

Lemma restore_roundtrip_witness :
  restore toy_hash (records Samples.advanced) (held_secrets Samples.advanced)
    = Ok Samples.advanced.
Proof. apply (restore_roundtrip toy_hash Samples.advanced sample_advanced). Defined.

Lemma sample_verifies : verify toy_hash (records Samples.advanced) = Ok tt.
Proof.
  destruct sample_advanced as (c0 & H & Hs).
  apply (chain_ok_steps toy_hash c0 _ (chain_ok_started _ _ H) Hs).
Qed.

Lemma head_commits_witness :
  records Samples.advanced = records Samples.advanced ∨
  collide toy_hash (linked (records Samples.advanced)) (linked (records Samples.advanced)).
Proof.
  apply (head_commits toy_hash (records Samples.advanced) (records Samples.advanced)
           toy_hash_length sample_verifies sample_verifies); [discriminate..|reflexivity].
Defined.

Lemma records_decode_iff_witness :
  decode_records (encode_records Samples.published) = Ok Samples.published.
Proof.
  assert (Hb : lenN (encode_records (C := cbor) Samples.published) < u64_bound)
    by (vm_compute; reflexivity).
  pose proof (records_decode_iff (C := cbor) (encode_records Samples.published)
                Samples.published Hb) as [_ H]. apply H.
  split; [reflexivity|]. split; [repeat constructor|discriminate].
Defined.
