(* ===== verification/Identity.v ===== *)
(** [hide-identity/src/lib.rs]: the identity log, an append-only, signed and
    hash-linked history of device enrolments, and the membership it implies.
    Signatures come through [SignatureScheme]; SHA-256 and CBOR are
    parameters. *)
From S2P Require Import Prelude Utf8 Cbor Sign.
From stdpp Require Import gmap fin_maps.
Local Open Scope N_scope.

Definition ENTRY_CONTEXT : bytes := text "HIDE/0.6 identity entry".
Definition MAX_ENTRIES : N := 100000.
Definition ENTRY_FIELDS : N := 7.
Definition LEGACY_ENTRY_HEADER : N := 6.
Definition MAX_LABEL_BYTES : N := 256.

Inductive Framing := Current | Legacy.

#[export] Instance Framing_eq_dec : EqDecision Framing.
Proof. solve_decision. Defined.

Definition header (f : Framing) : N :=
  match f with Current => ENTRY_FIELDS | Legacy => LEGACY_ENTRY_HEADER end.

Inductive IdentityError :=
| Empty
| Unauthorised (sequence : N)
| BadSignature (sequence : N)
| OutOfOrder (expected found : N)
| BrokenLink (sequence : N)
| BadRoot (reason : bytes)
| AlreadyEnrolled (sequence : N)
| NotEnrolled (sequence : N)
| WouldOrphan (sequence : N)
| Malformed
| TooManyEntries (entries : N)
| LabelTooLong
| SigningFailed (reason : bytes)
| WrongIdentity
| BadBinding
| StaleBinding.

#[export] Instance IdentityError_eq_dec : EqDecision IdentityError.
Proof. solve_decision. Defined.

Inductive Event :=
| Create (device label : bytes)
| Enrol (device label : bytes)
| Revoke (device : bytes)
| Recover (device label : bytes).

#[export] Instance Event_eq_dec : EqDecision Event.
Proof. solve_decision. Defined.

Definition event_tag (e : Event) : N :=
  match e with Create _ _ => 1 | Enrol _ _ => 2 | Revoke _ => 3 | Recover _ _ => 4 end.

Definition event_label (e : Event) : option bytes :=
  match e with
  | Create _ label | Enrol _ label | Recover _ label => Some label
  | Revoke _ => None
  end.

Definition label_or_empty (e : Event) : bytes :=
  match event_label e with Some label => label | None => [] end.

Record Entry := {
  sequence : N;
  event : Event;
  signer : bytes;
  link : bytes;
  entry_signature : bytes;
}.

#[export] Instance Entry_eq_dec : EqDecision Entry.
Proof. solve_decision. Defined.

Definition zero_link : bytes := replicate 32 Byte.x00.

(** The closure [field]: a length-prefixed field. *)
Definition length_prefixed (b : bytes) : bytes := u64be (lenN b) ++ b.

Definition event_fields (e : Event) : bytes :=
  match e with
  | Create device label | Enrol device label | Recover device label =>
      length_prefixed device ++ length_prefixed label
  | Revoke device => length_prefixed device
  end.

Definition signed_bytes (previous : bytes) (sequence : N) (e : Event) (signer : bytes) : bytes :=
  previous ++ u64be sequence ++ [byte_of (event_tag e)] ++ signer ++ event_fields e.

Definition entry_signed_bytes (e : Entry) (previous : bytes) : bytes :=
  signed_bytes previous e.(sequence) e.(event) e.(signer).

Definition link_input (signed signature : bytes) : bytes :=
  text "HIDE/0.6 identity link" ++ length_prefixed signed ++ length_prefixed signature.

(** [entries.last().map_or([0; 32], |entry| entry.link)] *)
Definition last_link (entries : list Entry) : bytes :=
  match last entries with Some e => e.(link) | None => zero_link end.

Definition check_label (label : bytes) : result IdentityError unit :=
  refuse_if (MAX_LABEL_BYTES <? lenN label) LabelTooLong.

(** [if let Some(label) = event.label() { check_label(label)? }] *)
Definition check_event_label (e : Event) : result IdentityError unit :=
  match event_label e with Some label => check_label label | None => Ok tt end.

Section identity.
Context (sha256 : bytes → bytes) {S : SignatureScheme}.

Definition link_for (signed signature : bytes) : bytes := sha256 (link_input signed signature).

Definition device_id (key : VK) : bytes :=
  sha256 (text "HIDE/0.6 device id" ++ vk_to_bytes key).

Record Device := { id : bytes; key : VK; label : bytes; enrolled_at : N }.

Record Membership := { devices : gmap bytes Device; revoked : gmap bytes N }.

Definition no_members : Membership := {| devices := ∅; revoked := ∅ |}.

Definition contains (m : Membership) (id : bytes) : bool := bool_decide (is_Some (m.(devices) !! id)).

Definition get (m : Membership) (id : bytes) : option Device := m.(devices) !! id.

Definition revoked_at (m : Membership) (id : bytes) : option N := m.(revoked) !! id.

Definition parse_key (b : bytes) (sequence : N) : result IdentityError VK :=
  refuse_if (negb (lenN b =? VERIFYING_KEY_LENGTH)) Malformed;;
  map_err (λ _, BadSignature sequence) (vk_from_bytes b).

(** The author an entry must have been signed by, given the state so far. *)
Definition author_of (m : Membership) (e : Entry) (recovery : VK) : result IdentityError VK :=
  match e.(event) with
  | Create device _ =>
      refuse_if (negb (e.(sequence) =? 0)) (BadRoot (text "a later Create"));;
      key ← parse_key device e.(sequence);
      refuse_if (negb (bool_decide (device_id key = e.(signer)))) (Unauthorised e.(sequence));;
      Ok key
  | Recover _ _ =>
      refuse_if (negb (bool_decide (device_id recovery = e.(signer)))) (Unauthorised e.(sequence));;
      Ok recovery
  | Enrol _ _ | Revoke _ =>
      d ← ok_or (m.(devices) !! e.(signer)) (Unauthorised e.(sequence));
      Ok d.(key)
  end.

(** What the entry then does to the membership. *)
Definition effect (m : Membership) (e : Entry) : result IdentityError Membership :=
  match e.(event) with
  | Create device label =>
      key ← parse_key device e.(sequence);
      let id := device_id key in
      Ok {| devices := <[id := {| id := id; key := key; label := label;
                                  enrolled_at := e.(sequence) |}]> m.(devices);
            revoked := m.(revoked) |}
  | Enrol device label =>
      key ← parse_key device e.(sequence);
      let id := device_id key in
      refuse_if (contains m id) (AlreadyEnrolled e.(sequence));;
      Ok {| devices := <[id := {| id := id; key := key; label := label;
                                  enrolled_at := e.(sequence) |}]> m.(devices);
            revoked := delete id m.(revoked) |}
  | Revoke device =>
      refuse_if (negb (contains m device)) (NotEnrolled e.(sequence));;
      refuse_if (bool_decide (size m.(devices) = 1%nat)) (WouldOrphan e.(sequence));;
      Ok {| devices := delete device m.(devices);
            revoked := <[device := e.(sequence)]> m.(revoked) |}
  | Recover device label =>
      key ← parse_key device e.(sequence);
      let id := device_id key in
      let all_revoked := ((λ _, e.(sequence)) <$> m.(devices)) ∪ m.(revoked) in
      Ok {| devices := {[id := {| id := id; key := key; label := label;
                                  enrolled_at := e.(sequence) |}]};
            revoked := delete id all_revoked |}
  end.

Definition apply (m : Membership) (e : Entry) (recovery : VK) (previous : bytes)
  : result IdentityError Membership :=
  check_event_label e.(event);;
  let signed := signed_bytes previous e.(sequence) e.(event) e.(signer) in
  refuse_if (negb (bool_decide (link_for signed e.(entry_signature) = e.(link))))
    (BrokenLink e.(sequence));;
  refuse_if (negb (lenN e.(entry_signature) =? SIGNATURE_LENGTH)) (BadSignature e.(sequence));;
  author ← author_of m e recovery;
  map_err (λ _, BadSignature e.(sequence))
    (verify author ENTRY_CONTEXT signed e.(entry_signature));;
  effect m e.

(** The loop of [replay]: the index and the link before it. *)
Fixpoint replay_from (index : N) (previous : bytes) (m : Membership) (entries : list Entry)
    (recovery : VK) : result IdentityError Membership :=
  match entries with
  | [] => Ok m
  | e :: entries =>
      refuse_if (negb (e.(sequence) =? index)) (OutOfOrder index e.(sequence));;
      m ← apply m e recovery previous;
      replay_from (index + 1) e.(link) m entries recovery
  end.

Definition is_create (e : Event) : bool := match e with Create _ _ => true | _ => false end.

Definition replay (entries : list Entry) (recovery : VK) : result IdentityError Membership :=
  match entries with
  | [] => Err Empty
  | first :: _ =>
      refuse_if (MAX_ENTRIES <? lenN entries) (TooManyEntries (lenN entries));;
      refuse_if (negb (is_create first.(event))) (BadRoot (text "another event"));;
      replay_from 0 zero_link no_members entries recovery
  end.

(** ** The log *)
Record IdentityLog := { entries : list Entry; recovery : VK }.

(** The entry an author signs at the end of [es]. *)
Definition signed_entry (author : SK) (e : Event) (es : list Entry) : Entry :=
  let sequence := lenN es in
  let previous := last_link es in
  let signer := device_id (verifying_key author) in
  let signed := signed_bytes previous sequence e signer in
  let signature := sign author ENTRY_CONTEXT signed in
  {| sequence := sequence; event := e; signer := signer;
     link := link_for signed signature; entry_signature := signature |}.

Definition create (founder : SK) (label : bytes) (recovery : VK)
  : result IdentityError IdentityLog :=
  check_label label;;
  let e := Create (vk_to_bytes (verifying_key founder)) label in
  Ok {| entries := [signed_entry founder e []]; recovery := recovery |}.

(** [replay(...).unwrap_or_default()] *)
Definition membership (l : IdentityLog) : Membership :=
  match replay l.(entries) l.(recovery) with Ok m => m | Err _ => no_members end.

Definition append (l : IdentityLog) (author : SK) (e : Event)
  : result IdentityError (IdentityLog * N) :=
  refuse_if (MAX_ENTRIES <=? lenN l.(entries)) (TooManyEntries (lenN l.(entries)));;
  check_event_label e;;
  let candidate := signed_entry author e l.(entries) in
  apply (membership l) candidate l.(recovery) (last_link l.(entries));;
  Ok ({| entries := l.(entries) ++ [candidate]; recovery := l.(recovery) |},
      candidate.(sequence)).

Definition enrol (l : IdentityLog) (author : SK) (device : VK) (label : bytes)
  : result IdentityError (IdentityLog * N) :=
  append l author (Enrol (vk_to_bytes device) label).

Definition revoke (l : IdentityLog) (author : SK) (device : bytes)
  : result IdentityError (IdentityLog * N) :=
  append l author (Revoke device).

Definition recover (l : IdentityLog) (recovery_key : SK) (device : VK) (label : bytes)
  : result IdentityError (IdentityLog * N) :=
  append l recovery_key (Recover (vk_to_bytes device) label).

Definition from_entries (es : list Entry) (recovery : VK) : result IdentityError IdentityLog :=
  replay es recovery;;
  Ok {| entries := es; recovery := recovery |}.

Definition head (l : IdentityLog) : bytes := last_link l.(entries).

Definition root (l : IdentityLog) : bytes :=
  match l.(entries) with e :: _ => e.(link) | [] => zero_link end.

Definition verify_log (es : list Entry) (recovery : VK) : result IdentityError Membership :=
  replay es recovery.

(** The logs that can arise. *)
Inductive reachable : IdentityLog → Prop :=
| reachable_create founder label r l : create founder label r = Ok l → reachable l
| reachable_from es r l : from_entries es r = Ok l → reachable l
| reachable_append l author e l' n :
    reachable l → append l author e = Ok (l', n) → reachable l'.
End identity.

(** ** The wire form *)
Section codec.
Context {C : Cbor}.

Definition event_device (e : Event) : bytes :=
  match e with Create d _ | Enrol d _ | Revoke d | Recover d _ => d end.

Definition encode_entry (f : Framing) (e : Entry) : bytes :=
  enc_array (header f) ++ enc_u64 e.(sequence) ++ enc_u8 (event_tag e.(event))
    ++ enc_bytes (event_device e.(event))
    ++ enc_str (label_or_empty e.(event))
    ++ enc_bytes e.(signer) ++ enc_bytes e.(link) ++ enc_bytes e.(entry_signature).

Definition encode_framed (es : list Entry) (f : Framing) : bytes :=
  enc_array (lenN es) ++ concat (map (encode_entry f) es).

Definition encode (es : list Entry) : bytes := encode_framed es Current.

(** One iteration of the loop of [decode]; the state is the framing seen so
    far and the decoder. *)
Definition decode_entry (st : option Framing * bytes)
  : result IdentityError (Entry * (option Framing * bytes)) :=
  let '(framing, d) := st in
  '(h, d) ← ok_or (dec_array d) Malformed;
  h ← ok_or h Malformed;
  this ← (if h =? ENTRY_FIELDS then Ok Current
          else if h =? LEGACY_ENTRY_HEADER then Ok Legacy else Err Malformed);
  refuse_if (match framing with Some seen => negb (bool_decide (seen = this)) | None => false end)
    Malformed;;
  '(sequence, d) ← ok_or (dec_u64 d) Malformed;
  '(tag, d) ← ok_or (dec_u8 d) Malformed;
  '(payload, d) ← ok_or (dec_bytes d) Malformed;
  '(label, d) ← ok_or (dec_str d) Malformed;
  refuse_if (MAX_LABEL_BYTES <? lenN label) LabelTooLong;;
  event ← (if tag =? 1 then Ok (Create payload label)
           else if tag =? 2 then Ok (Enrol payload label)
           else if tag =? 3 then
             refuse_if (negb (lenN payload =? 32)) Malformed;; Ok (Revoke payload)
           else if tag =? 4 then Ok (Recover payload label)
           else Err Malformed);
  '(signer, d) ← ok_or (dec_bytes d) Malformed;
  refuse_if (negb (lenN signer =? 32)) Malformed;;
  '(link, d) ← ok_or (dec_bytes d) Malformed;
  refuse_if (negb (lenN link =? 32)) Malformed;;
  '(signature, d) ← ok_or (dec_bytes d) Malformed;
  refuse_if (negb (lenN signature =? SIGNATURE_LENGTH)) Malformed;;
  Ok ({| sequence := sequence; event := event; signer := signer; link := link;
         entry_signature := signature |}, (Some this, d)).

Definition decode (b : bytes) : result IdentityError (list Entry) :=
  '(count, d) ← ok_or (dec_array b) Malformed;
  count ← ok_or count Malformed;
  refuse_if (MAX_ENTRIES <? count) (TooManyEntries count);;
  '(es, (framing, d)) ← repeat_read decode_entry (N.to_nat count) (None, d);
  refuse_if (negb (position b d =? lenN b)) Malformed;;
  refuse_if (negb (bool_decide (encode_framed es (default Current framing) = b))) Malformed;;
  Ok es.
End codec.

(** * What is signed and linked determines the entry *)

Lemma length_prefixed_inj a b a' b' :
  lenN a < u64_bound → lenN a' < u64_bound →
  length_prefixed a ++ b = length_prefixed a' ++ b' → a = a' ∧ b = b'.
Proof.
  unfold length_prefixed. intros Ha Ha' E. rewrite <- !app_assoc in E.
  apply app_inj_len_1 in E as [El E]; [|by rewrite !length_u64be].
  apply u64be_inj in El; [|done..]. apply app_inj_len_1 in E; [done|lia].
Qed.

Lemma length_prefixed_inj_nil a a' :
  lenN a < u64_bound → lenN a' < u64_bound →
  length_prefixed a = length_prefixed a' → a = a'.
Proof.
  intros Ha Ha' E. apply (length_prefixed_inj a [] a' []); [done..|]. by rewrite E.
Qed.

(** Fields no longer than a [u64] can say. *)
Definition event_sized (e : Event) : Prop :=
  lenN (event_device e) < u64_bound ∧ lenN (label_or_empty e) < u64_bound.

(** The sizes [apply] admits. *)
Definition event_small (e : Event) : Prop :=
  lenN (event_device e) <= VERIFYING_KEY_LENGTH ∧
  lenN (label_or_empty e) <= MAX_LABEL_BYTES.

Lemma event_small_sized e : event_small e → event_sized e.
Proof.
  intros [Hd Hl]. unfold VERIFYING_KEY_LENGTH, ED25519_PUBLIC_LEN, ML_DSA_PUBLIC_LEN,
    MAX_LABEL_BYTES in *. split; unfold u64_bound; lia.
Qed.

Lemma signed_bytes_small p n e s :
  event_small e → length p = 32%nat → length s = 32%nat →
  lenN (signed_bytes p n e s) < u64_bound.
Proof.
  intros [Hd Hl] Hp Hs. unfold VERIFYING_KEY_LENGTH, ED25519_PUBLIC_LEN, ML_DSA_PUBLIC_LEN,
    MAX_LABEL_BYTES, u64_bound, signed_bytes in *.
  destruct e; cbn [event_fields event_device label_or_empty event_label length] in *;
    unfold length_prefixed; rewrite !length_app, !length_u64be, Hp, Hs; cbn [length]; lia.
Qed.

Lemma event_fields_inj e e' :
  event_sized e → event_sized e' → event_tag e = event_tag e' →
  event_fields e = event_fields e' → e = e'.
Proof.
  intros [Hd Hl] [Hd' Hl'] Ht E.
  destruct e as [d l|d l|d|d l], e' as [d' l'|d' l'|d'|d' l']; try discriminate Ht;
    cbn in Hd, Hl, Hd', Hl'; unfold event_fields in E.
  1, 2, 4: apply length_prefixed_inj in E as [-> E]; [|done..];
    by apply length_prefixed_inj_nil in E as ->.
  by apply length_prefixed_inj_nil in E as ->.
Qed.

Lemma signed_bytes_inj p n e s p' n' e' s' :
  length p = length p' → length s = length s' → n < u64_bound → n' < u64_bound →
  event_sized e → event_sized e' →
  signed_bytes p n e s = signed_bytes p' n' e' s' → p = p' ∧ n = n' ∧ e = e' ∧ s = s'.
Proof.
  unfold signed_bytes. intros Hp Hs Hn Hn' He He' E.
  apply app_inj_len_1 in E as [-> E]; [|done].
  apply app_inj_len_1 in E as [En E]; [|by rewrite !length_u64be].
  apply u64be_inj in En; [|done..]. cbn [app] in E. injection E as Et E.
  apply app_inj_len_1 in E as [-> E]; [|done]. split_and!; try done.
  apply event_fields_inj; [done..| |done].
  apply (f_equal Byte.to_N) in Et. rewrite !to_N_byte_of in Et.
  by destruct e, e'.
Qed.

Lemma link_input_inj a b a' b' :
  lenN a < u64_bound → lenN a' < u64_bound → lenN b < u64_bound → lenN b' < u64_bound →
  link_input a b = link_input a' b' → a = a' ∧ b = b'.
Proof.
  unfold link_input. intros Ha Ha' Hb Hb' E. apply app_inv_head in E.
  apply length_prefixed_inj in E as [-> E]; [|done..].
  by apply length_prefixed_inj_nil in E.
Qed.

(** * Replaying *)
Section replay_laws.
Context (sha256 : bytes → bytes) {S : SignatureScheme} {L : SignatureLaws S}.

(** The link an entry after [es] must name, when [p] came before [es]. *)
Definition link_after (p : bytes) (es : list Entry) : bytes :=
  match last es with Some e => e.(link) | None => p end.

Lemma link_after_zero es : link_after zero_link es = last_link es.
Proof. done. Qed.

Lemma replay_from_app i p m es ks r :
  replay_from sha256 i p m (es ++ ks) r =
  (m ← replay_from sha256 i p m es r;
   replay_from sha256 (i + lenN es) (link_after p es) m ks r).
Proof.
  revert i p m. induction es as [|e es IH]; intros i p m.
  - cbn. by rewrite N.add_0_r.
  - cbn [app replay_from]. destruct (refuse_if _ _); cbn; [|done].
    destruct (apply _ _ _ _ _); cbn; [|done]. rewrite IH.
    unfold link_after. rewrite last_cons. cbn [length].
    replace (i + 1 + lenN es) with (i + N.of_nat (Datatypes.S (length es))) by lia.
    by destruct (last es).
Qed.

Lemma replay_Ok_iff es r m :
  replay sha256 es r = Ok m ↔
  es ≠ [] ∧ lenN es <= MAX_ENTRIES ∧
  (∀ e, es !! 0%nat = Some e → is_create e.(event) = true) ∧
  replay_from sha256 0 zero_link no_members es r = Ok m.
Proof.
  unfold replay. destruct es as [|e es]; [naive_solver|].
  destruct (N.ltb_spec MAX_ENTRIES (lenN (e :: es))) as [Hl|Hl].
  { cbn [refuse_if]. rewrite bind_of_Err. split; [done|lia]. }
  cbn [refuse_if]. rewrite bind_of_Ok. destruct (is_create (event e)) eqn:Ec; cbn [negb refuse_if].
  - rewrite bind_of_Ok. split; [|naive_solver]. intros H. split_and!; [done|done| |done].
    by intros ? [= <-].
  - rewrite bind_of_Err. split; [done|]. intros (_ & _ & H & _).
    specialize (H e eq_refl). congruence.
Qed.

Lemma apply_Ok m e r p m' :
  apply sha256 m e r p = Ok m' →
  (∀ l, event_label e.(event) = Some l → lenN l <= MAX_LABEL_BYTES) ∧
  e.(link) = link_for sha256 (entry_signed_bytes e p) e.(entry_signature) ∧
  lenN e.(entry_signature) = SIGNATURE_LENGTH ∧
  (∃ author, author_of sha256 m e r = Ok author ∧
     verify author ENTRY_CONTEXT (entry_signed_bytes e p) e.(entry_signature) = Ok tt) ∧
  effect sha256 m e = Ok m'.
Proof.
  unfold apply. intros H. inv_ok. b2p. split_and!; try done.
  - intros l Hl. unfold check_event_label, check_label in *. rewrite Hl in *. inv_ok. by b2p.
  - by eexists.
Qed.

Lemma parse_key_Ok b n k : parse_key b n = Ok k ↔ vk_to_bytes k = b.
Proof.
  unfold parse_key. rewrite bind_Ok_iff. split.
  - intros ([] & _ & H). apply map_err_Ok_iff in H. by apply vk_to_from_bytes.
  - intros <-. exists tt. rewrite length_vk_to_bytes, vk_from_to_bytes. done.
Qed.

(** ** The membership invariant *)

(** After [n] entries. *)
Record members_ok (n : N) (m : Membership) : Prop := {
  members_disjoint : ∀ i d s, m.(devices) !! i = Some d → m.(revoked) !! i = Some s → False;
  members_device : ∀ i d, m.(devices) !! i = Some d →
    d.(id) = i ∧ i = device_id sha256 d.(key) ∧ lenN d.(label) <= MAX_LABEL_BYTES ∧
    d.(enrolled_at) < n;
  members_revoked : ∀ i s, m.(revoked) !! i = Some s → s < n;
  members_nonempty : n ≠ 0 → m.(devices) ≠ ∅;
}.

Lemma members_ok_empty : members_ok 0 no_members.
Proof. split; cbn; try done; intros *; by rewrite lookup_empty. Qed.

Lemma members_ok_weaken n m : members_ok n m → m.(devices) ≠ ∅ → members_ok (n + 1) m.
Proof.
  intros [H1 H2 H3 H4] Hne. split; [done| | |done].
  - intros i d Hd. destruct (H2 i d Hd) as (? & ? & ? & ?). split_and!; [done..|lia].
  - intros i s Hs. specialize (H3 i s Hs). lia.
Qed.

(** Admitting a device under the hash of its key. *)
Lemma members_ok_admit n m k l :
  members_ok n m → lenN l <= MAX_LABEL_BYTES →
  members_ok (n + 1)
    {| devices := <[device_id sha256 k := {| id := device_id sha256 k; key := k; label := l;
                                             enrolled_at := n |}]> m.(devices);
       revoked := delete (device_id sha256 k) m.(revoked) |}.
Proof.
  intros [H1 H2 H3 H4] Hl. split; cbn.
  - intros i d s Hd Hs. apply lookup_delete_Some in Hs as [Hne Hs].
    rewrite lookup_insert_ne in Hd by done. by eapply H1.
  - intros i d Hd. apply lookup_insert_Some in Hd as [[<- <-]|[Hne Hd]].
    + cbn. split_and!; [done..|lia].
    + destruct (H2 i d Hd) as (? & ? & ? & ?). split_and!; [done..|lia].
  - intros i s Hs. apply lookup_delete_Some in Hs as [_ Hs]. specialize (H3 i s Hs). lia.
  - intros _. apply insert_non_empty.
Qed.

Lemma members_ok_apply m e r p m' :
  members_ok e.(sequence) m → apply sha256 m e r p = Ok m' →
  members_ok (e.(sequence) + 1) m'.
Proof.
  intros Hm H. apply apply_Ok in H as (Hl & _ & _ & (a & Ha & _) & H).
  unfold effect, author_of in *. destruct (event e) as [d l|d l|d|d l] eqn:Ee; inv_ok; b2p.
  - (* Create *) specialize (Hl l eq_refl).
    replace (revoked m) with (delete (device_id sha256 a0) (revoked m)).
    + by apply members_ok_admit.
    + apply delete_id. destruct (revoked m !! _) as [s|] eqn:Es; [|done].
      apply (members_revoked _ _ Hm) in Es. lia.
  - (* Enrol *) specialize (Hl l eq_refl). by apply members_ok_admit.
  - (* Revoke *) destruct Hm as [H1 H2 H3 H4]. split; cbn.
    + intros i x s Hx Hs. apply lookup_delete_Some in Hx as [Hne Hx].
      rewrite lookup_insert_ne in Hs by done. by eapply H1.
    + intros i x Hx. apply lookup_delete_Some in Hx as [_ Hx].
      destruct (H2 i x Hx) as (? & ? & ? & ?). split_and!; [done..|lia].
    + intros i s Hs. apply lookup_insert_Some in Hs as [[_ <-]|[_ Hs]]; [lia|].
      specialize (H3 i s Hs). lia.
    + intros _ E. unfold contains in *. b2p.
      match goal with H : is_Some _ |- _ => destruct H as [x Hx] end.
      match goal with H : size _ ≠ 1%nat |- _ => apply H end.
      assert (size (delete d (devices m)) = Nat.pred (size (devices m))) as Hsz
        by (apply map_size_delete_Some; by eexists).
      assert (size (delete d (devices m)) = 0%nat) by (by apply map_size_empty_iff).
      assert (size (devices m) ≠ 0%nat).
      { intros E0. apply map_size_empty_inv in E0. by rewrite E0, lookup_empty in Hx. }
      lia.
  - (* Recover *) specialize (Hl l eq_refl). destruct Hm as [_ _ H3 _]. split; cbn.
    + intros i x s Hx Hs. apply lookup_singleton_Some in Hx as [<- <-].
      by rewrite lookup_delete_eq in Hs.
    + intros i x Hx. apply lookup_singleton_Some in Hx as [<- <-]. cbn.
      split_and!; [done..|lia].
    + intros i s Hs. apply lookup_delete_Some in Hs as [_ Hs].
      apply lookup_union_Some_raw in Hs as [Hs|[_ Hs]].
      * apply lookup_fmap_Some in Hs as (x & <- & _). lia.
      * specialize (H3 i s Hs). lia.
    + intros _. apply map_non_empty_singleton.
Qed.

Lemma replay_from_sequence i p m es r m' j e :
  replay_from sha256 i p m es r = Ok m' → es !! j = Some e → e.(sequence) = i + N.of_nat j.
Proof.
  revert i p m j. induction es as [|x es IH]; intros i p m j H Hj; [done|].
  cbn in H. inv_ok. b2p. destruct j as [|j]; cbn in Hj; simplify_eq; [lia|].
  match goal with H : replay_from _ _ _ _ es _ = _ |- _ => rewrite (IH _ _ _ _ H Hj) end. lia.
Qed.

Lemma members_ok_replay_from i p m es r m' :
  members_ok i m → replay_from sha256 i p m es r = Ok m' → members_ok (i + lenN es) m'.
Proof.
  revert i p m. induction es as [|e es IH]; intros i p m Hm H; cbn in H.
  - inv_ok. by rewrite N.add_0_r.
  - inv_ok. b2p. subst i. match goal with H : apply _ _ _ _ _ = Ok _ |- _ =>
      apply members_ok_apply in H; [|done] end.
    cbn [length]. replace (sequence e + N.of_nat (Datatypes.S (length es)))
      with (sequence e + 1 + lenN es) by lia. by eapply IH.
Qed.

Lemma members_ok_replay es r m : replay sha256 es r = Ok m → members_ok (lenN es) m.
Proof.
  intros (_ & _ & _ & H)%replay_Ok_iff.
  apply members_ok_replay_from in H; [done|apply members_ok_empty].
Qed.

(** A verified log, cut anywhere: the first part verifies, and the second
    replays from its membership. *)
Lemma replay_app es ks r m :
  es ≠ [] → replay sha256 (es ++ ks) r = Ok m →
  ∃ m0, replay sha256 es r = Ok m0 ∧
        replay_from sha256 (lenN es) (last_link es) m0 ks r = Ok m.
Proof.
  intros Hne H. apply replay_Ok_iff in H as (_ & Hl & Hc & H).
  rewrite replay_from_app in H. apply bind_Ok_iff in H as (m0 & H0 & H).
  exists m0. rewrite N.add_0_l, link_after_zero in H. split; [|done].
  apply replay_Ok_iff. rewrite length_app in Hl. split_and!; [done|lia| |done].
  intros e He. apply Hc. destruct es; [done|]. done.
Qed.

Lemma replay_snoc es e r m0 :
  replay sha256 es r = Ok m0 → lenN es < MAX_ENTRIES → e.(sequence) = lenN es →
  replay sha256 (es ++ [e]) r = apply sha256 m0 e r (last_link es).
Proof.
  intros H Hl Hs. apply replay_Ok_iff in H as (Hne & _ & Hc & H).
  destruct (apply sha256 m0 e r (last_link es)) as [m|err] eqn:E.
  - apply replay_Ok_iff. split_and!.
    + by intros []%app_nil.
    + rewrite length_app. cbn. lia.
    + intros x Hx. apply Hc. by destruct es.
    + rewrite replay_from_app, H. cbn [mbind result_mbind result_bind].
      rewrite N.add_0_l, link_after_zero. cbn [replay_from].
      rewrite Hs, N.eqb_refl. cbn [negb refuse_if mbind result_mbind result_bind]. by rewrite E.
  - unfold replay. destruct es as [|x es]; [done|]. cbn [app].
    assert (lenN (x :: es ++ [e]) <= MAX_ENTRIES)
      by (cbn [length] in *; rewrite length_app; cbn [length]; lia).
    rewrite (refuse_if_pass (MAX_ENTRIES <? _)) by lia.
    rewrite bind_of_Ok. rewrite (Hc x eq_refl). cbn [negb refuse_if]. rewrite bind_of_Ok.
    change (x :: es ++ [e]) with ((x :: es) ++ [e]).
    rewrite replay_from_app, H, bind_of_Ok, N.add_0_l, link_after_zero. cbn [replay_from].
    rewrite Hs, N.eqb_refl. cbn [negb refuse_if]. rewrite bind_of_Ok. by rewrite E.
Qed.

(** ** The log object *)

Record log_ok (l : IdentityLog) (m : Membership) : Prop := {
  log_replays : replay sha256 l.(entries) l.(recovery) = Ok m;
  log_members : membership sha256 l = m;
}.

Lemma log_ok_of_replay l m :
  replay sha256 l.(entries) l.(recovery) = Ok m → log_ok l m.
Proof. intros H. split; [done|]. unfold membership. by rewrite H. Qed.

Lemma append_Ok l m author e l' n :
  log_ok l m → append sha256 l author e = Ok (l', n) →
  n = lenN l.(entries) ∧ l'.(recovery) = l.(recovery) ∧
  l'.(entries) = l.(entries) ++ [signed_entry sha256 author e l.(entries)] ∧
  ∃ m', log_ok l' m' ∧
    apply sha256 m (signed_entry sha256 author e l.(entries)) l.(recovery)
      (last_link l.(entries)) = Ok m'.
Proof.
  intros [Hr Hm] H. unfold append in H. rewrite Hm in H. inv_ok. b2p.
  split_and!; [done..|]. eexists. split; [|eassumption].
  apply log_ok_of_replay. cbn. by rewrite (replay_snoc _ _ _ (membership sha256 l)).
Qed.

(** What an author signs passes every check but those on authority. *)
Lemma apply_signed_entry m author e es r m' :
  (∀ l, event_label e = Some l → lenN l <= MAX_LABEL_BYTES) →
  author_of sha256 m (signed_entry sha256 author e es) r = Ok (verifying_key author) →
  effect sha256 m (signed_entry sha256 author e es) = Ok m' →
  apply sha256 m (signed_entry sha256 author e es) r (last_link es) = Ok m'.
Proof.
  intros Hl Ha He. unfold apply. rewrite Ha, He.
  assert (check_event_label (event (signed_entry sha256 author e es)) = Ok tt) as ->.
  { cbn. unfold check_event_label, check_label. destruct (event_label e) as [l|]; [|done].
    specialize (Hl l eq_refl). by apply refuse_if_pass, N.ltb_ge. }
  cbn [mbind result_mbind result_bind signed_entry sequence event signer link entry_signature].
  rewrite bool_decide_eq_true_2 by done. cbn [negb refuse_if mbind result_mbind result_bind].
  rewrite length_sign, N.eqb_refl. cbn [negb refuse_if mbind result_mbind result_bind].
  by rewrite verify_sign.
Qed.

(** The membership a founder starts with. *)
Definition founded (k : VK) (label : bytes) : Membership :=
  {| devices := {[device_id sha256 k := {| id := device_id sha256 k; key := k; label := label;
                                           enrolled_at := 0 |}]};
     revoked := ∅ |}.

Lemma create_replays founder label r l :
  create sha256 founder label r = Ok l → log_ok l (founded (verifying_key founder) label).
Proof.
  unfold create. intros H. inv_ok.
  assert (lenN label <= MAX_LABEL_BYTES) as Hlab.
  { match goal with H : check_label _ = _ |- _ => unfold check_label in H; inv_ok; by b2p end. }
  set (k := verifying_key founder).
  set (e := signed_entry sha256 founder (Create (vk_to_bytes k) label) []).
  assert (apply sha256 no_members e r zero_link = Ok (founded k label)) as Hm.
  { apply (apply_signed_entry _ founder _ []).
    - by intros ? [= <-].
    - unfold author_of. cbn [event signed_entry sequence length].
      change (N.of_nat 0 =? 0) with true. cbn [negb refuse_if].
      rewrite bind_of_Ok, (proj2 (parse_key_Ok (vk_to_bytes k) _ k) eq_refl), bind_of_Ok.
      cbn [signer]. by rewrite bool_decide_eq_true_2.
    - unfold effect. cbn [event signed_entry sequence].
      by rewrite (proj2 (parse_key_Ok (vk_to_bytes k) _ k) eq_refl). }
  apply log_ok_of_replay. cbn [entries recovery].
  apply replay_Ok_iff. split_and!; [done|done| |].
  - intros x Hx. injection Hx as <-. done.
  - cbn [replay_from]. assert (sequence e =? 0 = true) as -> by done.
    cbn [negb refuse_if]. rewrite bind_of_Ok. fold k e. by rewrite Hm.
Qed.

Lemma reachable_ok l : reachable sha256 l → ∃ m, log_ok l m.
Proof.
  induction 1 as [founder label r l H|es r l H|l author e l' n _ [m Hm] H].
  - eexists. by eapply create_replays.
  - unfold from_entries in H. inv_ok. eexists. by apply log_ok_of_replay.
  - apply append_Ok with (m := m) in H as (_ & _ & _ & m' & H & _); [|done]. by exists m'.
Qed.

(** ** Authority *)

(** The key that signed an entry, given the members before it. *)
Definition authorised (m : Membership) (r : VK) (e : Entry) (key : VK) : Prop :=
  match e.(event) with
  | Create device _ => vk_to_bytes key = device ∧ e.(signer) = device_id sha256 key
  | Recover _ _ => key = r ∧ e.(signer) = device_id sha256 r
  | Enrol _ _ | Revoke _ => ∃ d, m.(devices) !! e.(signer) = Some d ∧ key = d.(Identity.key)
  end.

Lemma author_of_authorised m e r a :
  author_of sha256 m e r = Ok a → authorised m r e a.
Proof.
  unfold author_of, authorised. intros H. destruct (event e); inv_ok; b2p; eauto.
  by match goal with H : parse_key _ _ = Ok _ |- _ => apply parse_key_Ok in H end.
Qed.

Lemma replay_split pre e post r m :
  pre ≠ [] → replay sha256 (pre ++ e :: post) r = Ok m →
  ∃ m0 m1, replay sha256 pre r = Ok m0 ∧ e.(sequence) = lenN pre ∧
    apply sha256 m0 e r (last_link pre) = Ok m1 ∧
    replay_from sha256 (lenN pre + 1) e.(link) m1 post r = Ok m.
Proof.
  intros Hne H. apply replay_app in H as (m0 & H0 & H); [|done].
  cbn [replay_from] in H. inv_ok. b2p. by exists m0, a0.
Qed.

Lemma apply_not_create m e r p m' :
  apply sha256 m e r p = Ok m' → e.(sequence) ≠ 0 → is_create e.(event) = false.
Proof.
  intros (_ & _ & _ & (a & Ha & _) & _)%apply_Ok Hs. unfold author_of in Ha.
  destruct (event e); [|done..]. inv_ok. b2p. done.
Qed.

(** ** Revoked devices *)

(** An entry that admits the device named [i]. *)
Definition admits (i : bytes) (e : Entry) : Prop :=
  ∃ k l, (e.(event) = Enrol (vk_to_bytes k) l ∨ e.(event) = Recover (vk_to_bytes k) l) ∧
         device_id sha256 k = i.

Lemma effect_absent m e m' i :
  effect sha256 m e = Ok m' → is_create e.(event) = false → m.(devices) !! i = None →
  m'.(devices) !! i = None ∨ admits i e.
Proof.
  unfold effect, admits. intros H Hc Hi. destruct (event e) as [d l|d l|d|d l] eqn:Ee; [done| | |].
  - inv_ok. match goal with H : parse_key _ _ = Ok _ |- _ => apply parse_key_Ok in H as <- end.
    destruct (decide (device_id sha256 a = i)) as [<-|Hne]; [right; eauto|left].
    cbn. by rewrite lookup_insert_ne.
  - inv_ok. left. cbn. destruct (decide (d = i)) as [->|Hne].
    + apply lookup_delete_eq.
    + by rewrite lookup_delete_ne.
  - inv_ok. match goal with H : parse_key _ _ = Ok _ |- _ => apply parse_key_Ok in H as <- end.
    destruct (decide (device_id sha256 a = i)) as [<-|Hne]; [right; eauto|left].
    cbn. by rewrite lookup_singleton_ne.
Qed.

Lemma replay_absent i n p m es r m' :
  replay_from sha256 n p m es r = Ok m' → n ≠ 0 → m.(devices) !! i = None →
  m'.(devices) !! i = None ∨ ∃ e, e ∈ es ∧ admits i e.
Proof.
  revert n p m. induction es as [|e es IH]; intros n p m H Hn Hi; cbn in H; inv_ok; [by left|].
  b2p. match goal with H : apply _ _ _ _ _ = Ok ?m1 |- _ => rename H into Ha end.
  pose proof (apply_not_create _ _ _ _ _ Ha ltac:(lia)) as Hc.
  apply apply_Ok in Ha as (_ & _ & _ & _ & Ha).
  destruct (effect_absent _ _ _ i Ha Hc Hi) as [H1|H1].
  - destruct (IH _ _ _ H ltac:(lia) H1) as [H2|(x & Hx & H2)]; [by left|right].
    exists x. split; [by right|done].
  - right. exists e. split; [by left|done].
Qed.

(** ** The head *)
Context (sha256_length : ∀ x, length (sha256 x) = 32%nat).

(** Fields of the sizes the Rust types and the checks of [apply] fix. *)
Record entry_wf (e : Entry) : Prop := {
  wf_signer : length e.(signer) = 32%nat;
  wf_event : event_small e.(event);
  wf_signature : lenN e.(entry_signature) = SIGNATURE_LENGTH;
}.

Lemma apply_entry_wf m n e r p m' :
  members_ok n m → apply sha256 m e r p = Ok m' → entry_wf e.
Proof.
  intros Hm (Hl & _ & Hs & (a & Ha & _) & He)%apply_Ok.
  assert (∀ i d, devices m !! i = Some d → length i = 32%nat) as Hid.
  { intros i d Hd. destruct (members_device _ _ Hm i d Hd) as (_ & -> & _). apply sha256_length. }
  apply author_of_authorised in Ha. unfold authorised, effect in *.
  assert (∀ k, lenN (vk_to_bytes k) <= VERIFYING_KEY_LENGTH) as Hk
    by (intros k; by rewrite length_vk_to_bytes).
  split; [| |done].
  - destruct (event e); [destruct Ha as [_ ->]| | |destruct Ha as [_ ->]]; try apply sha256_length.
    + destruct Ha as (d & Hd & _). by eapply Hid.
    + destruct Ha as (d & Hd & _). by eapply Hid.
  - unfold event_small. destruct (event e) as [d l|d l|d|d l];
      cbn [event_device label_or_empty event_label] in *; inv_ok;
      try (match goal with H : parse_key _ _ = Ok _ |- _ => apply parse_key_Ok in H as <- end;
           split; [apply Hk|by apply Hl]).
    unfold contains in *. b2p. match goal with H : is_Some _ |- _ => destruct H as [x Hx] end.
    rewrite (Hid _ _ Hx). done.
Qed.

Lemma replay_from_wf n p m es r m' :
  members_ok n m → replay_from sha256 n p m es r = Ok m' → Forall entry_wf es.
Proof.
  revert n p m. induction es as [|e es IH]; intros n p m Hm H; cbn in H; inv_ok; [constructor|].
  b2p. subst n. constructor; [by eapply apply_entry_wf|].
  eapply IH; [|eassumption]. by eapply members_ok_apply.
Qed.

(** The strings hashed in linking a log. *)
Fixpoint linked_from (p : bytes) (es : list Entry) (x : bytes) : Prop :=
  match es with
  | [] => False
  | e :: es => x = link_input (entry_signed_bytes e p) e.(entry_signature) ∨
               linked_from e.(link) es x
  end.

Definition linked (es : list Entry) : bytes → Prop := linked_from zero_link es.

Lemma linked_from_snoc p es e x :
  linked_from p (es ++ [e]) x ↔
  linked_from p es x ∨ x = link_input (entry_signed_bytes e (link_after p es)) e.(entry_signature).
Proof.
  revert p. induction es as [|y es IH]; intros p; cbn [app linked_from].
  - unfold link_after. cbn. naive_solver.
  - rewrite IH. unfold link_after. rewrite last_cons. destruct (last es); naive_solver.
Qed.

(** What replaying says of the last entry. *)
Lemma replay_from_snoc es e r m :
  replay_from sha256 0 zero_link no_members (es ++ [e]) r = Ok m →
  (∃ m0, replay_from sha256 0 zero_link no_members es r = Ok m0) ∧
  e.(sequence) = lenN es ∧
  e.(link) = link_for sha256 (entry_signed_bytes e (last_link es)) e.(entry_signature) ∧
  entry_wf e.
Proof.
  intros H. pose proof (replay_from_wf _ _ _ _ _ _ members_ok_empty H) as Hwf.
  apply Forall_app in Hwf as [_ Hwf]. inversion Hwf; subst.
  rewrite replay_from_app in H. apply bind_Ok_iff in H as (m0 & H0 & H).
  rewrite N.add_0_l, link_after_zero in H. cbn [replay_from] in H. inv_ok. b2p.
  match goal with H : apply _ _ _ _ _ = Ok _ |- _ => apply apply_Ok in H as (_ & ? & _) end.
  split_and!; eauto.
Qed.

Lemma last_link_32 es r m :
  replay_from sha256 0 zero_link no_members es r = Ok m → length (last_link es) = 32%nat.
Proof.
  destruct es as [|e es _] using rev_ind; [done|]. intros (_ & _ & Hl & _)%replay_from_snoc.
  unfold last_link. rewrite last_snoc, Hl. apply sha256_length.
Qed.

(** Two last entries with one link, each after its own history. *)
Lemma last_entries_eq es e r m ks k r' m' :
  replay_from sha256 0 zero_link no_members (es ++ [e]) r = Ok m →
  replay_from sha256 0 zero_link no_members (ks ++ [k]) r' = Ok m' →
  lenN es < u64_bound → lenN ks < u64_bound →
  e.(link) = k.(link) →
  (last_link es = last_link ks ∧ e = k) ∨ collide sha256 (linked (es ++ [e])) (linked (ks ++ [k])).
Proof.
  intros He Hk Le Lk E.
  pose proof (replay_from_snoc _ _ _ _ He) as ((m0 & H0) & Ne & Ee & We).
  pose proof (replay_from_snoc _ _ _ _ Hk) as ((m0' & H0') & Nk & Ek & Wk).
  pose proof E as E'. rewrite Ee, Ek in E'.
  destruct (hash_eq_or_collide sha256
    (link_input (entry_signed_bytes e (last_link es)) e.(entry_signature))
    (link_input (entry_signed_bytes k (last_link ks)) k.(entry_signature))
    (linked (es ++ [e])) (linked (ks ++ [k]))) as [Eq|]; [| |done| |by right].
  { apply linked_from_snoc. by right. }
  { apply linked_from_snoc. by right. }
  left. destruct We as [We1 We2 We3], Wk as [Wk1 Wk2 Wk3].
  pose proof (last_link_32 _ _ _ H0) as Pe. pose proof (last_link_32 _ _ _ H0') as Pk.
  apply link_input_inj in Eq as [Eq1 Eq2];
    [|by apply signed_bytes_small|by apply signed_bytes_small|by rewrite We3|by rewrite Wk3].
  unfold entry_signed_bytes in Eq1.
  apply signed_bytes_inj in Eq1 as (Ep & En & Eev & Es);
    [|congruence|congruence|by rewrite Ne|by rewrite Nk|by apply event_small_sized..].
  split; [done|]. destruct e, k. cbn in *. congruence.
Qed.
End replay_laws.

(** * The wire form *)
Section codec_laws.
Context {C : Cbor} {L : CborLaws C}.

Record entry_typed (e : Entry) : Prop := {
  typed_sequence : e.(sequence) < u64_bound;
  typed_signer : lenN e.(signer) = 32;
  typed_link : lenN e.(link) = 32;
  typed_signature : lenN e.(entry_signature) = SIGNATURE_LENGTH;
  typed_label : utf8_valid (label_or_empty e.(event)) = true ∧
                lenN (label_or_empty e.(event)) <= MAX_LABEL_BYTES;
  typed_revoke : ∀ d, e.(event) = Revoke d → lenN d = 32;
}.

Ltac step := cbn [ok_or mbind result_mbind result_bind negb refuse_if].
Ltac take_item :=
  first [ rewrite dec_enc_bytes by (assumption || (unfold u64_bound; lia))
        | rewrite dec_enc_str by (assumption || (unfold u64_bound; lia)) ]; step.

Lemma header_cases f : (header f =? ENTRY_FIELDS) = bool_decide (f = Current) ∧
  (header f =? LEGACY_ENTRY_HEADER) = bool_decide (f = Legacy).
Proof. by destruct f. Qed.

Lemma decode_entry_encode f fr e d :
  entry_typed e → lenN (event_device e.(event)) < u64_bound →
  (fr = None ∨ fr = Some f) →
  decode_entry (fr, encode_entry f e ++ d) = Ok (e, (Some f, d)).
Proof.
  intros [Hs Hsg Hl Hsig [Hu Hlab] Hr] Hd Hf. unfold SIGNATURE_LENGTH, ED25519_SIGNATURE_LEN,
    ML_DSA_SIGNATURE_LEN, MAX_LABEL_BYTES in *.
  unfold decode_entry, encode_entry. rewrite <- !app_assoc.
  rewrite dec_enc_array by (by destruct f). step.
  assert ((if header f =? ENTRY_FIELDS then Ok Current
           else if header f =? LEGACY_ENTRY_HEADER then Ok Legacy else Err Malformed) = Ok f) as ->
    by by destruct f.
  step.
  assert ((match fr with Some seen => negb (bool_decide (seen = f)) | None => false end) = false) as ->.
  { destruct Hf as [->| ->]; [done|]. by rewrite bool_decide_eq_true_2. }
  step. rewrite dec_enc_u64 by done. step.
  rewrite dec_enc_u8 by (by destruct (event e)). step.
  take_item. take_item.
  unfold MAX_LABEL_BYTES. pass.
  assert ((if event_tag (event e) =? 1 then Ok (Create (event_device (event e)) (label_or_empty (event e)))
     else if event_tag (event e) =? 2 then Ok (Enrol (event_device (event e)) (label_or_empty (event e)))
     else if event_tag (event e) =? 3 then
       refuse_if (negb (lenN (event_device (event e)) =? 32)) Malformed;;
       Ok (Revoke (event_device (event e)))
     else if event_tag (event e) =? 4 then Ok (Recover (event_device (event e)) (label_or_empty (event e)))
     else Err Malformed) = Ok (event e)) as ->.
  { destruct (event e) as [dv l|dv l|dv|dv l] eqn:Ee; [done|done| |done].
    cbn. by rewrite (Hr dv eq_refl). }
  step. take_item. pass. take_item. pass. take_item.
  unfold SIGNATURE_LENGTH, ED25519_SIGNATURE_LEN, ML_DSA_SIGNATURE_LEN. pass.
  by destruct e.
Qed.

Lemma decode_entries_encode f fr es d :
  Forall entry_typed es → Forall (λ e, lenN (event_device e.(event)) < u64_bound) es →
  (fr = None ∨ fr = Some f) →
  repeat_read decode_entry (length es) (fr, concat (map (encode_entry f) es) ++ d) =
  Ok (es, (if bool_decide (es = []) then fr else Some f, d)).
Proof.
  intros Ht Hd Hf. revert fr Hf. induction Ht as [|e es He _ IH]; intros fr Hf; [done|].
  inversion Hd; subst. cbn [length repeat_read map concat]. rewrite <- app_assoc.
  rewrite (decode_entry_encode f) by done. cbn [mbind result_mbind result_bind].
  rewrite IH by (done || by right). cbn [mbind result_mbind result_bind].
  rewrite (bool_decide_eq_false_2 (e :: es = [])) by done. by case_match.
Qed.

Lemma log_decode_encode f es :
  Forall entry_typed es → Forall (λ e, lenN (event_device e.(event)) < u64_bound) es →
  lenN es <= MAX_ENTRIES → decode (encode_framed es f) = Ok es.
Proof.
  intros Ht Hd Hn. unfold MAX_ENTRIES in Hn. unfold decode.
  assert (dec_array (encode_framed es f)
    = Some (Some (lenN es), concat (map (encode_entry f) es))) as ->
    by (apply dec_enc_array; unfold u64_bound; lia).
  step. unfold MAX_ENTRIES. pass. rewrite Nat2N.id.
  rewrite <- (app_nil_r (concat (map (encode_entry f) es))).
  rewrite decode_entries_encode by (done || by left). step.
  unfold position. rewrite N.sub_0_r, N.eqb_refl. step.
  rewrite bool_decide_eq_true_2; [done|]. by destruct es.
Qed.

Lemma decode_entry_typed st e st' : decode_entry st = Ok (e, st') → entry_typed e.
Proof.
  destruct st as [fr d]. unfold decode_entry. intros H. inv_ok. b2p.
  match goal with H : dec_u64 _ = Some _ |- _ => apply dec_u64_range in H end.
  match goal with H : dec_str _ = Some (?l, _) |- _ => apply dec_str_valid in H;
    rename H into Hu; rename l into label end.
  match goal with H : (if ?t =? 1 then _ else _) = Ok ?ev |- _ =>
    assert ((∃ p, ev = Create p label ∨ ev = Enrol p label ∨ ev = Recover p label) ∨
            (∃ p, ev = Revoke p ∧ lenN p = 32)) as Hev end.
  { repeat case_match; inv_ok; b2p; eauto 6. }
  split; cbn; try done.
  - destruct Hev as [(p & [-> | [-> | ->]])|(p & -> & _)]; cbn; done.
  - intros p ->. destruct Hev as [(q & [E|[E|E]])|(q & E & ?)]; by simplify_eq.
Qed.

Lemma encode_framed_device f es e :
  e ∈ es → lenN (event_device e.(event)) <= lenN (encode_framed es f).
Proof.
  intros He. unfold encode_framed. rewrite length_app.
  assert (lenN (event_device e.(event)) <= lenN (concat (map (encode_entry f) es))); [|lia].
  induction es as [|x es IH]; [by inversion He|]. cbn [map concat]. rewrite length_app.
  apply elem_of_cons in He as [->|He]; [|specialize (IH He); lia].
  unfold encode_entry. rewrite !length_app.
  destruct (enc_bytes_suffix (event_device (event x))) as [h ->]. rewrite length_app. lia.
Qed.

Lemma log_decode_inv b es :
  decode b = Ok es →
  ∃ f, encode_framed es f = b ∧ Forall entry_typed es ∧ lenN es <= MAX_ENTRIES.
Proof.
  unfold decode. intros H. inv_ok. b2p. eexists. split_and!; [done| |].
  - eapply repeat_read_Forall; [|eassumption]. apply decode_entry_typed.
  - match goal with H : repeat_read _ _ _ = Ok _ |- _ => apply repeat_read_length in H end. lia.
Qed.
End codec_laws.

(** * Properties *)
Section properties.
Context (sha256 : bytes → bytes) {S : SignatureScheme} {L : SignatureLaws S}.

Lemma log_operations
    (l : IdentityLog) (author : SK) (k : VK) (label d : bytes) :
  reachable sha256 l → lenN l.(entries) < MAX_ENTRIES → lenN label <= MAX_LABEL_BYTES →
  let m := membership sha256 l in
  let now := lenN l.(entries) in
  let i := device_id sha256 k in
  let device := {| id := i; key := k; label := label; enrolled_at := now |} in
  let trusted := ∃ x, m.(devices) !! device_id sha256 (verifying_key author) = Some x ∧
                      x.(Identity.key) = verifying_key author in
  (trusted → m.(devices) !! i = None →
   ∃ l', enrol sha256 l author k label = Ok (l', now) ∧
     membership sha256 l' = {| devices := <[i := device]> m.(devices);
                               revoked := delete i m.(revoked) |}) ∧
  (trusted → is_Some (m.(devices) !! d) → size m.(devices) ≠ 1%nat →
   ∃ l', revoke sha256 l author d = Ok (l', now) ∧
     membership sha256 l' = {| devices := delete d m.(devices);
                               revoked := <[d := now]> m.(revoked) |}) ∧
  (verifying_key author = l.(recovery) →
   ∃ l', recover sha256 l author k label = Ok (l', now) ∧
     membership sha256 l' = {| devices := {[i := device]};
       revoked := delete i (((λ _, now) <$> m.(devices)) ∪ m.(revoked)) |}).
Proof.
  intros Hr Hroom Hlab. cbn zeta. destruct (reachable_ok _ _ Hr) as [m Hm].
  pose proof (log_members _ _ _ Hm) as Em. rewrite Em.
  assert (∀ e m', (∀ x, event_label e = Some x → lenN x <= MAX_LABEL_BYTES) →
    author_of sha256 m (signed_entry sha256 author e (entries l)) (recovery l)
      = Ok (verifying_key author) →
    effect sha256 m (signed_entry sha256 author e (entries l)) = Ok m' →
    ∃ l', append sha256 l author e = Ok (l', lenN (entries l)) ∧ membership sha256 l' = m') as go.
  { intros e m' He Ha Hf.
    pose proof (apply_signed_entry sha256 m author e (entries l) (recovery l) m' He Ha Hf) as Hap.
    destruct (append sha256 l author e) as [[l' n]|] eqn:E.
    - destruct (append_Ok sha256 l m author e l' n Hm E) as (-> & _ & _ & m2 & Hm2 & Hap2).
      exists l'. split; [done|]. rewrite (log_members _ _ _ Hm2). congruence.
    - unfold append in E. rewrite Em in E. rewrite refuse_if_pass in E by lia.
      rewrite bind_of_Ok in E. unfold check_event_label, check_label in E.
      destruct (event_label e) as [x|]; [rewrite refuse_if_pass in E
        by (specialize (He x eq_refl); lia)|]; rewrite bind_of_Ok, Hap in E; done. }
  split_and!.
  - intros (x & Hx & Hk) Hn. apply go.
    + by intros ? [= <-].
    + unfold author_of. cbn [event signed_entry signer sequence]. rewrite Hx. cbn. by rewrite Hk.
    + unfold effect. cbn [event signed_entry sequence].
      rewrite (proj2 (parse_key_Ok (vk_to_bytes k) _ k) eq_refl), bind_of_Ok.
      unfold contains. rewrite Hn, bool_decide_eq_false_2 by (by intros [? [=]]). done.
  - intros (x & Hx & Hk) Hd Hsz. apply go.
    + by intros ? [=].
    + unfold author_of. cbn [event signed_entry signer sequence]. rewrite Hx. cbn. by rewrite Hk.
    + unfold effect. cbn [event signed_entry sequence]. unfold contains.
      rewrite (bool_decide_eq_true_2 _ Hd), (bool_decide_eq_false_2 _ Hsz). done.
  - intros Hk. apply go.
    + by intros ? [= <-].
    + unfold author_of. cbn [event signed_entry signer sequence]. rewrite <- Hk.
      by rewrite bool_decide_eq_true_2.
    + unfold effect. cbn [event signed_entry sequence].
      by rewrite (proj2 (parse_key_Ok (vk_to_bytes k) _ k) eq_refl).
Qed.

(** C33. A log never needs its fallback: every log that can arise, created,
    received or grown by any authors' appends, replays for a stranger to the
    membership its owner sees. That membership trusts at least one device;
    each device is filed under the hash of its key, with a bounded label; and
    no device is both trusted and revoked. *)
Theorem reachable_log_verifies (l : IdentityLog) :
  reachable sha256 l →
  verify_log sha256 l.(entries) l.(recovery) = Ok (membership sha256 l) ∧
  members_ok sha256 (lenN l.(entries)) (membership sha256 l) ∧
  (membership sha256 l).(devices) ≠ ∅.
Proof.
  intros H. destruct (reachable_ok _ _ H) as (m & [Hr Hm]). rewrite Hm.
  pose proof (members_ok_replay _ _ _ _ Hr) as Hok. split_and!; [done|done|].
  apply (members_nonempty _ _ _ Hok). apply replay_Ok_iff in Hr as [Hne _].
  by destruct (entries l).
Qed.

(** C9. Authority as of each entry: in a log that verifies, every entry after
    the first is no Create, extends the link of its predecessor, and verifies
    under the key of a device trusted by the entries before it, or, for a
    recovery, under the recovery key. *)
Theorem every_entry_authorised (pre post : list Entry) (e : Entry) (r : VK) (m : Membership) :
  pre ≠ [] → verify_log sha256 (pre ++ e :: post) r = Ok m →
  ∃ m0 key,
    verify_log sha256 pre r = Ok m0 ∧ e.(sequence) = lenN pre ∧
    is_create e.(event) = false ∧ authorised sha256 m0 r e key ∧
    verify key ENTRY_CONTEXT (entry_signed_bytes e (last_link pre)) e.(entry_signature) = Ok tt ∧
    e.(link) = link_for sha256 (entry_signed_bytes e (last_link pre)) e.(entry_signature).
Proof.
  intros Hne H. apply replay_split in H as (m0 & m1 & H0 & Hs & Ha & _); [|done].
  assert (e.(sequence) ≠ 0) as Hs0 by (rewrite Hs; destruct pre; [done|cbn; lia]).
  pose proof (apply_not_create _ _ _ _ _ _ Ha Hs0).
  apply apply_Ok in Ha as (_ & Hl & _ & (a & Hau & Hv) & _).
  exists m0, a. split_and!; try done. by apply author_of_authorised.
Qed.

(** C10. A revoked device authors nothing: in a log that verifies, if a device
    signs an enrolment or a revocation after it was revoked, then an entry in
    between enrolled that device again or recovered the identity to it. *)
Theorem revoked_device_is_silent
    (pre mid post : list Entry) (rv e : Entry) (r : VK) (m : Membership) (d : bytes) :
  pre ≠ [] → verify_log sha256 (pre ++ rv :: mid ++ e :: post) r = Ok m →
  rv.(event) = Revoke d → e.(signer) = d →
  (∃ k l, e.(event) = Enrol k l) ∨ (∃ x, e.(event) = Revoke x) →
  ∃ x, x ∈ mid ∧ admits sha256 d x.
Proof.
  intros Hne H Hrv Hs Hev. apply replay_split in H as (m0 & m1 & _ & Hseq & Ha & H); [|done].
  apply apply_Ok in Ha as (_ & _ & _ & _ & Ha). unfold effect in Ha. rewrite Hrv in Ha. inv_ok.
  rewrite replay_from_app in H. apply bind_Ok_iff in H as (m2 & Hmid & H).
  destruct (replay_absent sha256 (signer e) _ _ _ _ _ _ Hmid ltac:(lia) ltac:(apply lookup_delete_eq))
    as [Hd|]; [|done].
  cbn [replay_from] in H. inv_ok.
  match goal with H : apply _ _ e _ _ = Ok _ |- _ =>
    apply apply_Ok in H as (_ & _ & _ & (a & Hau & _) & _) end.
  pose proof (author_of_authorised _ _ _ _ _ Hau) as Hk. unfold authorised in Hk.
  destruct Hev as [(k & l & Ee)|(x & Ee)]; rewrite Ee in Hk;
    destruct Hk as (x' & Hx & _); congruence.
Qed.

(** The head names one history: two logs that verify, each under its own
    recovery key, and end in the same link are the same list of entries, or
    two distinct strings hashed in linking them have one SHA-256. *)
Theorem identity_head_commits (es ks : list Entry) (r r' : VK) (m m' : Membership) :
  (∀ x, length (sha256 x) = 32%nat) →
  verify_log sha256 es r = Ok m → verify_log sha256 ks r' = Ok m' →
  last_link es = last_link ks →
  es = ks ∨ collide sha256 (linked es) (linked ks).
Proof.
  intros Hsha He Hk E. unfold verify_log in *.
  apply replay_Ok_iff in He as (Ne & Le & _ & He), Hk as (Nk & Lk & _ & Hk).
  revert ks m m' Ne Nk Le Lk He Hk E.
  induction es as [|e es IH] using rev_ind; intros ks m m' Ne Nk Le Lk He Hk E; [done|].
  destruct ks as [|k ks _] using rev_ind; [done|].
  unfold last_link in E. rewrite !last_snoc in E.
  rewrite length_app in Le, Lk. cbn [length] in Le, Lk. unfold MAX_ENTRIES in *.
  destruct (last_entries_eq sha256 Hsha es e r m ks k r' m') as [[Ep <-]|]; try done.
  - unfold u64_bound. lia.
  - unfold u64_bound. lia.
  - apply replay_from_snoc in He as ((m0 & He) & Se & _), Hk as ((m0' & Hk) & Sk & _); [|done..].
    assert (lenN es = lenN ks) as Hl by congruence.
    destruct es as [|x es]; [destruct ks; [by left|cbn in Hl; lia]|].
    destruct ks as [|y ks]; [cbn in Hl; lia|].
    destruct (IH (y :: ks) m0 m0') as [->|HC]; try done; [lia|lia|by left|right].
    eapply collide_mono; [..|exact HC]; intros z Hz; apply linked_from_snoc; by left.
  - by right.
Qed.

(** What the operations do: on a log that can arise and has room, a
    trusted device may enrol any device not yet trusted, revoke any trusted
    device but the last, and the holder of the recovery key may replace all
    devices by one; the resulting membership is exactly that change. *)
Theorem operations_take_effect
    (l : IdentityLog) (author : SK) (k : VK) (label d : bytes) :
  reachable sha256 l → lenN l.(entries) < MAX_ENTRIES → lenN label <= MAX_LABEL_BYTES →
  let m := membership sha256 l in
  let now := lenN l.(entries) in
  let i := device_id sha256 k in
  let device := {| id := i; key := k; label := label; enrolled_at := now |} in
  let trusted := ∃ x, m.(devices) !! device_id sha256 (verifying_key author) = Some x ∧
                      x.(Identity.key) = verifying_key author in
  (trusted → m.(devices) !! i = None →
   ∃ l', enrol sha256 l author k label = Ok (l', now) ∧
     membership sha256 l' = {| devices := <[i := device]> m.(devices);
                               revoked := delete i m.(revoked) |}) ∧
  (trusted → is_Some (m.(devices) !! d) → size m.(devices) ≠ 1%nat →
   ∃ l', revoke sha256 l author d = Ok (l', now) ∧
     membership sha256 l' = {| devices := delete d m.(devices);
                               revoked := <[d := now]> m.(revoked) |}) ∧
  (verifying_key author = l.(recovery) →
   ∃ l', recover sha256 l author k label = Ok (l', now) ∧
     membership sha256 l' = {| devices := {[i := device]};
       revoked := delete i (((λ _, now) <$> m.(devices)) ∪ m.(revoked)) |}).
Proof. apply log_operations. Qed.
End properties.

(** One history, one encoding per framing: a string decodes as a log
    exactly when it is the encoding, in the current framing or wholly in the
    legacy one, of at most 100000 well-typed entries. A log that mixes both
    framings, or smuggles a label into a revocation, is refused. *)
Theorem log_decode_iff `{CborLaws} (b : bytes) (es : list Entry) :
  lenN b < u64_bound →
  decode b = Ok es ↔
  ∃ f, encode_framed es f = b ∧ Forall entry_typed es ∧ lenN es <= MAX_ENTRIES.
Proof.
  intros Hb. split; [apply log_decode_inv|]. intros (f & <- & Ht & Hn).
  apply log_decode_encode; [done| |done].
  apply Forall_forall. intros e He. pose proof (encode_framed_device f es e He). lia.
Qed.

(** ** Witnesses: a laptop founds an identity, enrols a phone, revokes it,
    enrols it again, and the phone enrols a tablet *)
Import Sign.Toy Cbor.Reference.
#[local] Existing Instance Hybrid.scheme.
#[local] Existing Instance Hybrid.scheme_laws.

Module Samples.
Definition laptop : SK := Hybrid.from_seed (replicate 32 Byte.x01).
Definition phone : SK := Hybrid.from_seed (replicate 32 Byte.x02).
Definition tablet : SK := Hybrid.from_seed (replicate 32 Byte.x03).
Definition offline : SK := Hybrid.from_seed (replicate 32 Byte.x04).
Definition did (k : SK) : bytes := device_id toy_hash (verifying_key k).
Definition entry (k : SK) (e : Event) (es : list Entry) : Entry := signed_entry toy_hash k e es.
Definition enrolment (k : SK) : Event := Enrol (vk_to_bytes (verifying_key k)) [].
Definition es1 : list Entry :=
  [entry laptop (Create (vk_to_bytes (verifying_key laptop)) []) []].
Definition enrolled : Entry := entry laptop (enrolment phone) es1.
Definition es2 : list Entry := es1 ++ [enrolled].
Definition revocation : Entry := entry laptop (Revoke (did phone)) es2.
Definition es3 : list Entry := es2 ++ [revocation].
Definition again : Entry := entry laptop (enrolment phone) es3.
Definition es4 : list Entry := es3 ++ [again].
Definition by_phone : Entry := entry phone (enrolment tablet) es4.
Definition es5 : list Entry := es4 ++ [by_phone].
Definition log (es : list Entry) : IdentityLog :=
  {| entries := es; recovery := verifying_key offline |}.
End Samples.
Import Samples.

Lemma sample_ids : did laptop ≠ did phone ∧ did laptop ≠ did tablet ∧ did phone ≠ did tablet.
Proof. split_and!; apply (bool_decide_unpack _); vm_compute; exact I. Qed.

Lemma sample_created : create toy_hash laptop [] (verifying_key offline) = Ok (log es1).
Proof. reflexivity. Qed.

Lemma sample_reachable_1 : reachable toy_hash (log es1).
Proof. exact (reachable_create _ _ _ _ _ sample_created). Qed.

Lemma sample_members_1 : membership toy_hash (log es1) = founded toy_hash (verifying_key laptop) [].
Proof. apply (log_members _ _ _ (create_replays _ _ _ _ _ sample_created)). Qed.

(** An append that succeeds appends the author's entry. *)
Lemma sample_append es k e l' n m :
  log_ok toy_hash (log es) m → append toy_hash (log es) k e = Ok (l', n) →
  l' = log (es ++ [entry k e es]).
Proof.
  intros Hm H. destruct (append_Ok _ _ _ _ _ _ _ Hm H) as (_ & Hr & He & _).
  destruct l'. cbn in *. by subst.
Qed.

Lemma sample_grow es k e l' n :
  reachable toy_hash (log es) → append toy_hash (log es) k e = Ok (l', n) →
  l' = log (es ++ [entry k e es]) ∧ reachable toy_hash (log (es ++ [entry k e es])).
Proof.
  intros Hr H. destruct (reachable_ok _ _ Hr) as [m Hm].
  rewrite <- (sample_append _ _ _ _ _ _ Hm H).
  split; [done|]. eapply reachable_append; [exact Hr|exact H].
Qed.

(** The steps, each from the membership before it. *)
Lemma sample_enrol es by_ k m x :
  reachable toy_hash (log es) → lenN es < 1000 → membership toy_hash (log es) = m →
  m.(devices) !! did by_ = Some x → x.(key) = verifying_key by_ →
  m.(devices) !! did k = None →
  reachable toy_hash (log (es ++ [entry by_ (enrolment k) es])) ∧
  membership toy_hash (log (es ++ [entry by_ (enrolment k) es])) =
    {| devices := <[did k := {| id := did k; key := verifying_key k; label := [];
                                enrolled_at := lenN es |}]> m.(devices);
       revoked := delete (did k) m.(revoked) |}.
Proof.
  intros Hr Hl <- Hx Hk Hn.
  destruct (log_operations toy_hash (log es) by_ (verifying_key k) [] [] Hr) as (H & _ & _);
    [cbn [entries log]; unfold MAX_ENTRIES; lia|done|].
  destruct H as (l' & H & Hm); [by exists x|done|].
  destruct (sample_grow _ _ _ _ _ Hr H) as [-> Hr']. by split.
Qed.

Lemma sample_revoke es by_ d m x :
  reachable toy_hash (log es) → lenN es < 1000 → membership toy_hash (log es) = m →
  m.(devices) !! did by_ = Some x → x.(key) = verifying_key by_ →
  is_Some (m.(devices) !! d) → size m.(devices) ≠ 1%nat →
  reachable toy_hash (log (es ++ [entry by_ (Revoke d) es])) ∧
  membership toy_hash (log (es ++ [entry by_ (Revoke d) es])) =
    {| devices := delete d m.(devices); revoked := <[d := lenN es]> m.(revoked) |}.
Proof.
  intros Hr Hl <- Hx Hk Hd Hs.
  destruct (log_operations toy_hash (log es) by_ (verifying_key by_) [] d Hr) as (_ & H & _);
    [cbn [entries log]; unfold MAX_ENTRIES; lia|done|].
  destruct H as (l' & H & Hm); [by exists x|done|done|].
  destruct (sample_grow _ _ _ _ _ Hr H) as [-> Hr']. by split.
Qed.

Lemma sample_log_5 : reachable toy_hash (log es5).
Proof.
  destruct sample_ids as (N1 & N2 & N3).
  destruct (sample_enrol es1 laptop phone _ _ sample_reachable_1 eq_refl sample_members_1
    (lookup_singleton_eq _ _) eq_refl (lookup_singleton_ne _ _ _ N1)) as [R2 M2].
  fold enrolled es2 in R2, M2.
  destruct (sample_revoke es2 laptop (did phone) _ {| id := did laptop; key := verifying_key laptop;
    label := []; enrolled_at := 0 |} R2 eq_refl M2) as [R3 M3].
  { cbn. rewrite lookup_insert_ne by done. apply lookup_singleton_eq. }
  { done. }
  { cbn. rewrite lookup_insert_eq. by eexists. }
  { cbn. rewrite map_size_insert_None by (by rewrite lookup_singleton_ne).
    by rewrite map_size_singleton. }
  fold revocation es3 in R3, M3. cbn in M3.
  destruct (sample_enrol es3 laptop phone _ {| id := did laptop; key := verifying_key laptop;
    label := []; enrolled_at := 0 |} R3 eq_refl M3) as [R4 M4].
  { cbn. rewrite lookup_delete_ne, lookup_insert_ne by done. apply lookup_singleton_eq. }
  { done. }
  { cbn. apply lookup_delete_eq. }
  fold again es4 in R4, M4. cbn in M4.
  destruct (sample_enrol es4 phone tablet _ {| id := did phone; key := verifying_key phone;
    label := []; enrolled_at := 3 |} R4 eq_refl M4) as [R5 _]; [..|exact R5].
  { cbn. apply lookup_insert_eq. }
  { done. }
  { cbn. rewrite lookup_insert_ne, lookup_delete_ne, lookup_insert_ne by done.
    by rewrite lookup_singleton_ne. }
Qed.

Lemma sample_verifies_5 : ∃ m, verify_log toy_hash es5 (verifying_key offline) = Ok m.
Proof. destruct (reachable_ok _ _ sample_log_5) as (m & [H _]). by exists m. Qed.

Lemma reachable_log_verifies_witness :
  verify_log toy_hash es5 (verifying_key offline) = Ok (membership toy_hash (log es5)).
Proof. exact (proj1 (reachable_log_verifies toy_hash (log es5) sample_log_5)). Defined.

Lemma every_entry_authorised_witness :
  ∃ m0 key, authorised toy_hash m0 (verifying_key offline) by_phone key ∧
    verify key ENTRY_CONTEXT (entry_signed_bytes by_phone (last_link es4))
      by_phone.(entry_signature) = Ok tt.
Proof.
  destruct sample_verifies_5 as [m Hm].
  destruct (every_entry_authorised toy_hash es4 [] by_phone (verifying_key offline) m)
    as (m0 & k & _ & _ & _ & Ha & Hv & _); [discriminate|exact Hm|].
  exists m0, k. exact (conj Ha Hv).
Defined.

Lemma revoked_device_is_silent_witness :
  ∃ x, x ∈ [again] ∧ admits toy_hash (did phone) x.
Proof.
  destruct sample_verifies_5 as [m Hm].
  apply (revoked_device_is_silent toy_hash es2 [again] [] revocation by_phone
           (verifying_key offline) m (did phone));
    [discriminate|exact Hm|reflexivity|reflexivity|left].
  eexists _, _. reflexivity.
Defined.

Lemma identity_head_commits_witness :
  es5 = es5 ∨ collide toy_hash (linked es5) (linked es5).
Proof.
  destruct sample_verifies_5 as [m Hm].
  exact (identity_head_commits toy_hash es5 es5 _ _ m m toy_hash_length Hm Hm eq_refl).
Defined.

Lemma operations_take_effect_witness :
  ∃ l', recover toy_hash (log es1) offline (verifying_key tablet) [] = Ok (l', 1).
Proof.
  destruct (operations_take_effect toy_hash (log es1) offline (verifying_key tablet) [] []
    sample_reachable_1 eq_refl ltac:(discriminate)) as (_ & _ & H).
  destruct (H eq_refl) as (l' & H1 & _). exists l'. exact H1.
Defined.

Lemma log_decode_iff_witness : decode (encode_framed [] Legacy) = Ok [].
Proof.
  apply (proj2 (log_decode_iff (encode_framed (C := cbor) [] Legacy) [] ltac:(reflexivity))).
  exists Legacy. split; [reflexivity|]. split; [constructor|discriminate].
Defined.
