(* ===== verification/Bindings.v ===== *)
(** [hide-identity/src/bindings.rs]: signed statements about an identity. A
    recovery binding names the one recovery key the founder chose for a root;
    an epoch binding names the epoch chain a trusted device vouches for. Both
    are fixed-length strings. *)
From stdpp Require Import gmap.
From S2P Require Import Prelude Epoch Sign Identity.
Local Open Scope N_scope.

Definition RECOVERY_BINDING_CONTEXT : bytes := text "HIDE/1.0 recovery binding".
Definition EPOCH_BINDING_CONTEXT : bytes := text "HIDE/1.0 epoch binding".
Definition RECOVERY_BINDING_LENGTH : N := 32 + VERIFYING_KEY_LENGTH + SIGNATURE_LENGTH.
Definition EPOCH_BINDING_LENGTH : N := 32 * 3 + 8 + 32 + SIGNATURE_LENGTH.

Section bindings.
Context (sha256 : bytes → bytes) {Sig : SignatureScheme}.

Record RecoveryBinding := {
  bound_root : bytes;
  recovery_key : VK;
  recovery_signature : bytes;
}.

Definition recovery_message (root : bytes) (recovery : VK) : bytes := root ++ vk_to_bytes recovery.

Definition founder_key (entries : list Entry) : result IdentityError VK :=
  match entries with
  | e :: _ =>
      match e.(event) with
      | Create device _ => map_err (λ _, BadBinding) (vk_from_bytes device)
      | _ => Err (BadRoot (text "another event"))
      end
  | [] => Err Empty
  end.

(** [RecoveryBinding::create] *)
Definition create_recovery (log : IdentityLog) (founder : SK) : result IdentityError RecoveryBinding :=
  let r := root log in
  expected ← founder_key log.(entries);
  refuse_if (negb (vk_eqb (verifying_key founder) expected)) (Unauthorised 0);;
  Ok {| bound_root := r; recovery_key := log.(recovery);
        recovery_signature :=
          sign founder RECOVERY_BINDING_CONTEXT (recovery_message r log.(recovery)) |}.

Definition encode_recovery (b : RecoveryBinding) : bytes :=
  b.(bound_root) ++ vk_to_bytes b.(recovery_key) ++ b.(recovery_signature).

Definition decode_recovery (b : bytes) : result IdentityError RecoveryBinding :=
  refuse_if (negb (lenN b =? RECOVERY_BINDING_LENGTH)) Malformed;;
  let rest := drop 32 b in
  let n := N.to_nat VERIFYING_KEY_LENGTH in
  key ← map_err (λ _, Malformed) (vk_from_bytes (take n rest));
  Ok {| bound_root := take 32 b; recovery_key := key; recovery_signature := drop n rest |}.

(** [RecoveryBinding::verify] *)
Definition verify_recovery (b : RecoveryBinding) (es : list Entry) : result IdentityError IdentityLog :=
  founder ← founder_key es;
  refuse_if (negb (bool_decide ((link <$> hd_error es) = Some b.(bound_root)))) WrongIdentity;;
  map_err (λ _, BadBinding)
    (verify founder RECOVERY_BINDING_CONTEXT (recovery_message b.(bound_root) b.(recovery_key))
       b.(recovery_signature));;
  from_entries sha256 es b.(recovery_key).

Definition verify_pinned (b : RecoveryBinding) (es : list Entry) (pinned_root : bytes)
  : result IdentityError IdentityLog :=
  refuse_if (negb (bool_decide (b.(bound_root) = pinned_root))) WrongIdentity;;
  verify_recovery b es.

(** ** Epoch bindings *)
Record EpochBinding := {
  identity_root : bytes;
  identity_head : bytes;
  bound_chain_head : bytes;
  epochs : N;
  binding_signer : bytes;
  binding_signature : bytes;
}.

Definition chain_head (records : list EpochRecord) : bytes :=
  match last records with Some r => r.(Epoch.link) | None => replicate 32 Byte.x00 end.

Definition message (b : EpochBinding) : bytes :=
  b.(identity_root) ++ b.(identity_head) ++ b.(bound_chain_head) ++ u64be b.(epochs)
    ++ b.(binding_signer).

Definition set_signature (b : EpochBinding) (s : bytes) : EpochBinding :=
  {| identity_root := b.(identity_root); identity_head := b.(identity_head);
     bound_chain_head := b.(bound_chain_head); epochs := b.(epochs);
     binding_signer := b.(binding_signer); binding_signature := s |}.

(** [EpochBinding::create] *)
Definition create_epoch (log : IdentityLog) (device : SK) (records : list EpochRecord)
  : result IdentityError EpochBinding :=
  let signer := device_id sha256 (verifying_key device) in
  refuse_if (negb (contains (membership sha256 log) signer)) (Unauthorised (lenN log.(entries)));;
  map_err (λ _, StaleBinding) (Epoch.verify sha256 records);;
  refuse_if (bool_decide (records = [])) StaleBinding;;
  let binding := {| identity_root := root log; identity_head := Identity.head log;
                    bound_chain_head := chain_head records; epochs := lenN records;
                    binding_signer := signer; binding_signature := [] |} in
  Ok (set_signature binding (sign device EPOCH_BINDING_CONTEXT (message binding))).

Definition encode_epoch (b : EpochBinding) : bytes := message b ++ b.(binding_signature).

Definition decode_epoch (b : bytes) : result IdentityError EpochBinding :=
  refuse_if (negb (lenN b =? EPOCH_BINDING_LENGTH)) Malformed;;
  Ok {| identity_root := slice 0 32 b; identity_head := slice 32 64 b;
        bound_chain_head := slice 64 96 b; epochs := unbe (slice 96 104 b);
        binding_signer := slice 104 136 b; binding_signature := drop 136 b |}.

Definition verify_by_member (m : Membership) (signer message signature : bytes)
  : result IdentityError unit :=
  device ← ok_or (get m signer) (Unauthorised 0);
  map_err (λ _, BadBinding) (verify device.(key) EPOCH_BINDING_CONTEXT message signature).

(** [EpochBinding::verify] *)
Definition verify_epoch (b : EpochBinding) (log : IdentityLog) (records : list EpochRecord)
  : result IdentityError unit :=
  refuse_if (negb (bool_decide (root log = b.(identity_root)))) WrongIdentity;;
  refuse_if (negb (existsb (λ e, bool_decide (e.(link) = b.(identity_head))) log.(entries)))
    StaleBinding;;
  map_err (λ _, StaleBinding) (Epoch.verify sha256 records);;
  refuse_if (bool_decide (records = []) || negb (lenN records =? b.(epochs))
             || negb (bool_decide (chain_head records = b.(bound_chain_head)))) StaleBinding;;
  verify_by_member (membership sha256 log) b.(binding_signer) (message b) b.(binding_signature).
End bindings.

(** * Lemmas *)
Section laws.
Context (sha256 : bytes → bytes) (sha256_length : ∀ x, length (sha256 x) = 32%nat).
Context {Sig : SignatureScheme} {L : SignatureLaws Sig}.

Lemma root_32 l m : log_ok sha256 l m → length (root l) = 32%nat.
Proof.
  intros [H _]. apply replay_Ok_iff in H as (Hne & _ & _ & H).
  unfold root. destruct (entries l) as [|e es]; [done|].
  cbn [replay_from] in H. inv_ok.
  match goal with H : apply _ _ _ _ _ = Ok _ |- _ => apply apply_Ok in H as (_ & -> & _) end.
  apply sha256_length.
Qed.

Lemma verify_recovery_Ok_iff b es l :
  verify_recovery sha256 b es = Ok l ↔
  (∃ k, founder_key es = Ok k ∧
     verify k RECOVERY_BINDING_CONTEXT (recovery_message b.(bound_root) b.(recovery_key))
       b.(recovery_signature) = Ok tt) ∧
  link <$> hd_error es = Some b.(bound_root) ∧
  l = {| entries := es; recovery := b.(recovery_key) |} ∧
  ∃ m, replay sha256 es b.(recovery_key) = Ok m.
Proof.
  unfold verify_recovery, from_entries. split.
  - intros H. inv_ok. b2p. split_and!; [by eexists|done|done|by eexists].
  - intros ((k & Hk & Hv) & Hr & -> & m & Hm). rewrite Hk, bind_of_Ok.
    rewrite bool_decide_eq_true_2 by done. cbn [negb refuse_if]. rewrite bind_of_Ok, Hv.
    cbn [map_err]. by rewrite bind_of_Ok, Hm.
Qed.

Lemma recovery_decode_iff x b :
  decode_recovery x = Ok b ↔
  encode_recovery b = x ∧ lenN b.(bound_root) = 32 ∧ lenN b.(recovery_signature) = SIGNATURE_LENGTH.
Proof.
  unfold decode_recovery, encode_recovery, RECOVERY_BINDING_LENGTH. cbn zeta. split.
  - intros H. inv_ok. b2p. cbn [bound_root recovery_key recovery_signature].
    match goal with H : vk_from_bytes _ = Ok _ |- _ => apply vk_to_from_bytes in H as -> end.
    rewrite take_drop, take_drop, !length_drop, length_take.
    unfold VERIFYING_KEY_LENGTH, SIGNATURE_LENGTH in *. split_and!; [done|lia|lia].
  - intros (<- & Hr & Hs). destruct b as [r k s]. cbn [bound_root recovery_key recovery_signature] in *.
    pose proof (length_vk_to_bytes k) as Hk. rewrite !length_app.
    rewrite refuse_if_pass by lia. rewrite bind_of_Ok.
    rewrite (drop_app_len 32), (take_app_len 32) by lia.
    rewrite drop_app_len, take_app_len by lia. by rewrite vk_from_to_bytes.
Qed.

(** The founder's entry is fixed by its link. *)
Lemma first_entry_eq es ks r r' m m' e k :
  replay sha256 es r = Ok m → replay sha256 ks r' = Ok m' →
  hd_error es = Some e → hd_error ks = Some k → e.(link) = k.(link) →
  e = k ∨ collide sha256 (linked [e]) (linked [k]).
Proof.
  intros He Hk Hde Hdk E. apply replay_Ok_iff in He as (_ & _ & _ & He), Hk as (_ & _ & _ & Hk).
  destruct es as [|e' es]; [done|]. destruct ks as [|k' ks]; [done|].
  cbn in Hde, Hdk. injection Hde as ->. injection Hdk as ->.
  change (e :: es) with ([e] ++ es) in He. change (k :: ks) with ([k] ++ ks) in Hk.
  rewrite replay_from_app in He, Hk. apply bind_Ok_iff in He as (m1 & He & _), Hk as (k1 & Hk & _).
  destruct (last_entries_eq sha256 sha256_length [] e r m1 [] k r' k1) as [[_ ->]|]; try done;
    [by left|by right].
Qed.

(** ** Epoch bindings *)

Lemma verify_epoch_Ok_iff b log rs :
  verify_epoch sha256 b log rs = Ok tt ↔
  root log = b.(identity_root) ∧ (∃ e, e ∈ log.(entries) ∧ e.(link) = b.(identity_head)) ∧
  Epoch.verify sha256 rs = Ok tt ∧ rs ≠ [] ∧ lenN rs = b.(epochs) ∧
  chain_head rs = b.(bound_chain_head) ∧
  ∃ d, get (membership sha256 log) b.(binding_signer) = Some d ∧
    verify d.(key) EPOCH_BINDING_CONTEXT (message b) b.(binding_signature) = Ok tt.
Proof.
  unfold verify_epoch, verify_by_member. split.
  - intros H. inv_ok. b2p.
    match goal with H : existsb _ _ = true |- _ => apply existsb_true_elem in H as (e & He & Hl) end.
    b2p. split_and!; try done; [by exists e|]. by eexists.
  - intros (Hr & (e & He & Hl) & Hv & Hne & Hn & Hc & d & Hd & Hs).
    rewrite (bool_decide_eq_true_2 (root log = b.(identity_root))) by done.
    cbn [negb refuse_if]. rewrite bind_of_Ok.
    rewrite (proj2 (existsb_true_elem _ _)).
    2:{ exists e. split; [done|]. by apply bool_decide_eq_true_2. }
    cbn [negb refuse_if]. rewrite bind_of_Ok, Hv. cbn [map_err]. rewrite bind_of_Ok.
    rewrite (bool_decide_eq_false_2 (rs = [])), Hn, N.eqb_refl by done.
    rewrite (bool_decide_eq_true_2 (chain_head rs = b.(bound_chain_head))) by done.
    cbn [negb orb refuse_if]. rewrite bind_of_Ok, Hd. cbn [ok_or]. by rewrite bind_of_Ok, Hs.
Qed.

Lemma epoch_decode_iff x b :
  decode_epoch x = Ok b ↔
  encode_epoch b = x ∧ length b.(identity_root) = 32%nat ∧ length b.(identity_head) = 32%nat ∧
  length b.(bound_chain_head) = 32%nat ∧ b.(epochs) < u64_bound ∧
  length b.(binding_signer) = 32%nat ∧ lenN b.(binding_signature) = SIGNATURE_LENGTH.
Proof.
  unfold decode_epoch, encode_epoch, message, EPOCH_BINDING_LENGTH, SIGNATURE_LENGTH. split.
  - intros H. inv_ok. b2p.
    cbn [identity_root identity_head bound_chain_head epochs binding_signer binding_signature].
    assert (∀ i j, i <= j → j <= 136 → lenN (slice i j x) = j - i) as Hl
      by (intros; apply length_slice; lia).
    rewrite (be_unbe_len 8) by (specialize (Hl 96 104); lia).
    rewrite <- !app_assoc, (slice_drop 104 136), (slice_drop 96 104), (slice_drop 64 96),
      (slice_drop 32 64), (slice_drop 0 32), drop_0 by lia.
    split_and!; [done|specialize (Hl 0 32); lia|specialize (Hl 32 64); lia|specialize (Hl 64 96); lia
      |apply unbe_u64_bound; specialize (Hl 96 104); lia|specialize (Hl 104 136); lia|].
    rewrite length_drop. lia.
  - intros (<- & H1 & H2 & H3 & H4 & H5 & H6). destruct b as [a c d n s g].
    cbn [identity_root identity_head bound_chain_head epochs binding_signer binding_signature] in *.
    rewrite <- !app_assoc. rewrite refuse_if_pass by (rewrite !length_app, length_u64be; lia).
    rewrite bind_of_Ok. f_equal.
    rewrite (slice_app 0 32 [] a (c ++ d ++ u64be n ++ s ++ g)) by (done || lia).
    rewrite (slice_app 32 64 a c (d ++ u64be n ++ s ++ g)) by (done || lia).
    rewrite (slice_app 64 96 (a ++ c) d (u64be n ++ s ++ g)) by (by rewrite <- ?app_assoc || len).
    rewrite (slice_app 96 104 (a ++ c ++ d) (u64be n) (s ++ g)) by (by rewrite <- ?app_assoc || len).
    rewrite (slice_app 104 136 (a ++ c ++ d ++ u64be n) s g) by (by rewrite <- ?app_assoc || len).
    rewrite unbe_u64be by done. f_equal.
    rewrite !app_assoc, drop_app_len by (rewrite !length_app, length_u64be; lia). done.
Qed.
End laws.

(** * Properties *)
Section properties.
Context (sha256 : bytes → bytes) {Sig : SignatureScheme} {L : SignatureLaws Sig}.

(** C34. A pinned root fixes who may name the recovery key: a log accepted
    under a binding and a pinned root is exactly the entries received, rooted
    there, replayed under the bound key, which the founder signed for that
    root; and any two bindings accepted under one root, with whatever logs,
    carry signatures of one founder, or two distinct strings hashed for the
    founding entries have one SHA-256. *)
Theorem recovery_binding_pins (b b' : RecoveryBinding) (es ks : list Entry) (root : bytes)
    (l l' : IdentityLog) :
  (∀ x, length (sha256 x) = 32%nat) →
  verify_pinned sha256 b es root = Ok l → verify_pinned sha256 b' ks root = Ok l' →
  l = {| entries := es; recovery := b.(recovery_key) |} ∧ Identity.root l = root ∧
  (∃ m, verify_log sha256 es b.(recovery_key) = Ok m) ∧
  ((∃ founder, founder_key es = Ok founder ∧ founder_key ks = Ok founder ∧
     ∀ c, c = b ∨ c = b' →
       verify founder RECOVERY_BINDING_CONTEXT (recovery_message root c.(recovery_key))
         c.(recovery_signature) = Ok tt) ∨
   collide sha256 (linked (take 1 es)) (linked (take 1 ks))).
Proof.
  intros Hs H H'. unfold verify_pinned in H, H'. inv_ok. b2p. subst root.
  apply verify_recovery_Ok_iff in H as ((k & Hk & Hv) & Hr & -> & m & Hm).
  apply verify_recovery_Ok_iff in H' as ((k' & Hk' & Hv') & Hr' & -> & m' & Hm').
  destruct es as [|e es]; [done|]. destruct ks as [|e' ks]; [done|].
  cbn in Hr, Hr'. injection Hr as Hr. injection Hr' as Hr'.
  split_and!; [done|done|by exists m|]. cbn [take]. rewrite !take_0.
  destruct (first_entry_eq sha256 Hs _ _ _ _ _ _ e e' Hm Hm') as [->|]; [done|done|congruence| |by right].
  left. cbn [founder_key] in Hk, Hk'. rewrite Hk in Hk'. apply Ok_inj in Hk' as <-.
  exists k. split_and!; [done|done|]. intros c [-> | ->]; [done|congruence].
Qed.

(** A founder's binding reaches its purpose: made right after the log was
    created and sent as bytes, it makes every verifier that pins the root
    accept that log, and whatever it grows into, under the founder's own
    recovery key. *)
Theorem recovery_binding_roundtrip (founder : SK) (label : bytes) (r : VK) (l0 : IdentityLog) :
  (∀ x, length (sha256 x) = 32%nat) →
  create sha256 founder label r = Ok l0 →
  ∃ b, create_recovery l0 founder = Ok b ∧ decode_recovery (encode_recovery b) = Ok b ∧
    lenN (encode_recovery b) = RECOVERY_BINDING_LENGTH ∧
    ∀ more m, verify_log sha256 (l0.(entries) ++ more) r = Ok m →
      verify_pinned sha256 b (l0.(entries) ++ more) (root l0)
        = Ok {| entries := l0.(entries) ++ more; recovery := r |}.
Proof.
  intros Hs Hc. pose proof (create_replays _ _ _ _ _ Hc) as Hlog. pose proof (root_32 sha256 Hs _ _ Hlog) as H32.
  unfold create in Hc. inv_ok. set (e := signed_entry _ _ _ _) in *.
  unfold create_recovery. cbn [entries founder_key]. subst e. cbn [signed_entry event].
  rewrite vk_from_to_bytes. cbn [map_err]. rewrite bind_of_Ok.
  unfold vk_eqb. rewrite bool_decide_eq_true_2 by done. cbn [negb refuse_if]. rewrite bind_of_Ok.
  eexists. split; [done|]. cbn [recovery]. split_and!.
  - apply recovery_decode_iff. cbn [bound_root recovery_signature]. rewrite length_sign.
    split_and!; [done|lia|done].
  - unfold encode_recovery. cbn [bound_root recovery_key recovery_signature].
    rewrite !length_app. pose proof (length_vk_to_bytes r) as Hr.
    pose proof (length_sign founder RECOVERY_BINDING_CONTEXT (recovery_message
      (root {| entries := [signed_entry sha256 founder
        (Create (vk_to_bytes (verifying_key founder)) label) []]; recovery := r |}) r)) as Hsg.
    unfold RECOVERY_BINDING_LENGTH. cbn [root entries] in *. lia.
  - intros more m Hm. unfold verify_pinned. cbn [bound_root].
    rewrite bool_decide_eq_true_2 by done. cbn [negb refuse_if]. rewrite bind_of_Ok.
    apply verify_recovery_Ok_iff. cbn [bound_root recovery_key recovery_signature].
    split_and!; [|done|done|by exists m]. exists (verifying_key founder).
    cbn [app founder_key event signed_entry]. rewrite vk_from_to_bytes. split; [done|].
    apply verify_sign.
Qed.

(** An epoch binding names one chain: one that verifies points into this
    identity's history, is signed by a device its log trusts now, and matches a
    verified, non-empty chain of the bound length and head; no other chain
    verifies with it, under any log, or two distinct strings hashed in linking
    the chains have one SHA-256. Once the signer is not trusted, the binding is
    refused. *)
Theorem epoch_binding_names_chain (b : EpochBinding) (log : IdentityLog) (rs : list EpochRecord) :
  (∀ x, length (sha256 x) = 32%nat) →
  verify_epoch sha256 b log rs = Ok tt →
  root log = b.(identity_root) ∧ (∃ e, e ∈ log.(entries) ∧ e.(link) = b.(identity_head)) ∧
  Epoch.verify sha256 rs = Ok tt ∧ rs ≠ [] ∧
  (∃ d, (membership sha256 log).(devices) !! b.(binding_signer) = Some d ∧
     verify d.(key) EPOCH_BINDING_CONTEXT (message b) b.(binding_signature) = Ok tt) ∧
  (∀ log' ks, verify_epoch sha256 b log' ks = Ok tt →
     rs = ks ∨ collide sha256 (Epoch.linked rs) (Epoch.linked ks)) ∧
  (∀ log' ks, (membership sha256 log').(devices) !! b.(binding_signer) = None →
     verify_epoch sha256 b log' ks ≠ Ok tt).
Proof.
  intros Hs H. apply verify_epoch_Ok_iff in H as (Hr & He & Hv & Hne & Hn & Hc & d & Hd & Hsig).
  split_and!; [done|done|done|done|by exists d| |].
  - intros log' ks H'. apply verify_epoch_Ok_iff in H' as (_ & _ & Hv' & Hne' & Hn' & Hc' & _).
    apply verify_Ok in Hv as [Mr Hv], Hv' as [Mk Hv']. apply head_inj; [done..|lia|done|].
    unfold Epoch.last_link, chain_head in *. unfold Epoch.zero_link. congruence.
  - intros log' ks Hnone H'. apply verify_epoch_Ok_iff in H' as (_ & _ & _ & _ & _ & _ & d' & Hd' & _).
    unfold get in Hd'. congruence.
Qed.

(** The string a device id is the hash of. *)
Definition id_input (k : VK) : bytes := text "HIDE/0.6 device id" ++ vk_to_bytes k.

(** A fresh epoch binding verifies: made by a trusted device over a
    non-empty verified chain and sent as bytes, it is accepted for that log and
    chain, unless the log trusts another key with the same device id, a SHA-256
    collision. *)
Theorem epoch_binding_fresh (log : IdentityLog) (device : SK) (rs : list EpochRecord) (b : EpochBinding) :
  (∀ x, length (sha256 x) = 32%nat) → Identity.reachable sha256 log →
  create_epoch sha256 log device rs = Ok b →
  decode_epoch (encode_epoch b) = Ok b ∧
  (verify_epoch sha256 b log rs = Ok tt ∨
   collide sha256 (λ x, x = id_input (verifying_key device))
     (λ x, ∃ i d, (membership sha256 log).(devices) !! i = Some d ∧ x = id_input d.(key))).
Proof.
  intros Hs Hreach H. destruct (reachable_ok _ _ Hreach) as [m Hlog].
  pose proof (log_replays _ _ _ Hlog) as Hrep. pose proof (root_32 sha256 Hs _ _ Hlog) as Hroot.
  pose proof (members_ok_replay sha256 _ _ _ Hrep) as Hmem. rewrite <- (log_members _ _ _ Hlog) in Hmem.
  apply replay_Ok_iff in Hrep as (Hne & _ & _ & Hrep).
  pose proof (last_link_32 sha256 Hs _ _ _ Hrep) as Hhead.
  unfold create_epoch in H. inv_ok. b2p.
  match goal with H : Epoch.verify _ _ = Ok ?u |- _ => rename H into Hv end.
  assert (length (chain_head rs) = 32%nat ∧ lenN rs < u64_bound) as [Hch Hln].
  { apply verify_Ok in Hv as [Hm Hv]. unfold MAX_CHAIN_ENTRIES, u64_bound in *. split; [|lia].
    by apply (verify_links_32 sha256 Hs) in Hv. }
  unfold contains in *. b2p.
  match goal with H : is_Some _ |- _ => destruct H as [d Hd] end. split.
  { apply epoch_decode_iff. unfold set_signature.
    cbn [identity_root identity_head bound_chain_head epochs binding_signer binding_signature].
    rewrite length_sign. unfold device_id. rewrite Hs. by split_and!. }
  destruct (members_device _ _ _ Hmem _ _ Hd) as (_ & Hid & _).
  destruct (hash_eq_or_collide sha256 (id_input (verifying_key device)) (id_input d.(key))
    (λ x, x = id_input (verifying_key device))
    (λ x, ∃ i d, (membership sha256 log).(devices) !! i = Some d ∧ x = id_input d.(key)))
    as [Ek|]; [done|by eexists _, d|exact Hid| |by right].
  apply app_inv_head, vk_to_bytes_inj in Ek. left.
  apply verify_epoch_Ok_iff. cbn. split_and!; try done.
  - destruct (last (entries log)) as [e|] eqn:El; [|by apply last_None in El].
    exists e. split; [by apply last_Some_elem_of|]. unfold Identity.head, last_link. by rewrite El.
  - exists d. split; [done|]. rewrite <- Ek. apply verify_sign.
Qed.
End properties.

(** ** Witnesses *)
Import Sign.Toy.
Import Identity.Samples.
#[local] Existing Instance Hybrid.scheme.
#[local] Existing Instance Hybrid.scheme_laws.

Module Samples.
Definition binding : RecoveryBinding :=
  {| bound_root := root (log es1); recovery_key := verifying_key offline;
     recovery_signature := sign laptop RECOVERY_BINDING_CONTEXT
       (recovery_message (root (log es1)) (verifying_key offline)) |}.
Definition chain : list EpochRecord := records Epoch.Samples.advanced.
Definition epoch_binding : EpochBinding :=
  match create_epoch toy_hash (log es1) laptop chain with
  | Ok b => b
  | Err _ => {| identity_root := []; identity_head := []; bound_chain_head := []; epochs := 0;
                binding_signer := []; binding_signature := [] |}
  end.
End Samples.

Lemma sample_binding : create_recovery (log es1) laptop = Ok Samples.binding.
Proof. reflexivity. Qed.

Lemma sample_pinned :
  verify_pinned toy_hash Samples.binding es1 (root (log es1)) = Ok (log es1).
Proof. reflexivity. Qed.

Lemma sample_epoch_binding :
  create_epoch toy_hash (log es1) laptop Samples.chain = Ok Samples.epoch_binding.
Proof. reflexivity. Qed.

Lemma sample_epoch_verified :
  verify_epoch toy_hash Samples.epoch_binding (log es1) Samples.chain = Ok tt.
Proof. reflexivity. Qed.

Lemma recovery_binding_pins_witness :
  ∃ m, verify_log toy_hash es1 (verifying_key offline) = Ok m.
Proof.
  destruct (recovery_binding_pins toy_hash Samples.binding Samples.binding es1 es1
    (root (log es1)) (log es1) (log es1) toy_hash_length sample_pinned sample_pinned)
    as (_ & _ & H & _).
  exact H.
Defined.

Lemma recovery_binding_roundtrip_witness :
  ∃ b, create_recovery (log es1) laptop = Ok b ∧ decode_recovery (encode_recovery b) = Ok b.
Proof.
  destruct (recovery_binding_roundtrip toy_hash laptop [] (verifying_key offline) (log es1)
    toy_hash_length sample_created) as (b & H1 & H2 & _).
  exists b. exact (conj H1 H2).
Defined.

Lemma epoch_binding_names_chain_witness :
  root (log es1) = Samples.epoch_binding.(identity_root).
Proof.
  exact (proj1 (epoch_binding_names_chain toy_hash Samples.epoch_binding (log es1) Samples.chain
    toy_hash_length sample_epoch_verified)).
Defined.

Lemma epoch_binding_fresh_witness :
  decode_epoch (encode_epoch Samples.epoch_binding) = Ok Samples.epoch_binding.
Proof.
  exact (proj1 (epoch_binding_fresh toy_hash (log es1) laptop Samples.chain Samples.epoch_binding
    toy_hash_length sample_reachable_1 sample_epoch_binding)).
Defined.
