(* ===== verification/Mls.v ===== *)
(** [hide-mls/src/lib.rs]: which devices an MLS group admits. A member presents
    a credential in which a device's signing key vouches for its MLS key; the
    identity provider checks it against the membership its clones share. The
    protocol is [mls-rs], third-party: a roster, a message and its parser are
    parameters, and so is the key pair it generates. *)
From stdpp Require Import gmap.
From S2P Require Import Prelude Sign Identity.
Local Open Scope N_scope.

Definition HIDE_CREDENTIAL : N := 61469. (* 0xF01D *)
Definition BINDING_CONTEXT : bytes := text "HIDE/0.7 mls binding".
Definition DEVICE_ID_LEN : N := 32.
Definition CREDENTIAL_LEN : N := DEVICE_ID_LEN + VERIFYING_KEY_LENGTH + SIGNATURE_LENGTH.
Definition MAX_MLS_MESSAGE : N := 1024 * 1024.

Inductive MlsError :=
| UntrustedDevice
| MessageTooLarge
| UntrustedSender
| NotADeviceCredential
| ForgedCredential
| Protocol.

#[export] Instance MlsError_eq_dec : EqDecision MlsError.
Proof. solve_decision. Defined.

(** [mls_rs]'s credentials, as far as this crate looks. *)
Inductive Credential :=
| Custom (credential_type : N) (data : bytes)
| Standard.

(** [mls_rs::identity::SigningIdentity] *)
Record SigningIdentity := { credential : Credential; signature_key : bytes }.

(** [mls_rs]'s groups and messages: the roster in order, the member a leaf
    index names, and the sender of an application message. *)
Class MlsGroup := {
  Group : Type;
  members_iter : Group → list SigningIdentity;
  member_at_index : Group → N → option SigningIdentity;
}.

Inductive ReceivedMessage :=
| ApplicationMessage (sender_index : N)
| OtherMessage.

(** The cells providers share. *)
Abbreviation Heap := (gmap nat Membership).

Section mls.
Context (sha256 : bytes → bytes) {Sig : SignatureScheme}.

Definition binding_message (device mls_public_key : bytes) : bytes := device ++ mls_public_key.

Record Binding := { device : bytes; binding_key : VK; binding_signature : bytes }.

(** [as_custom], of the one type this crate issues. *)
Definition as_hide (c : Credential) : option bytes :=
  match c with
  | Custom t data => if t =? HIDE_CREDENTIAL then Some data else None
  | Standard => None
  end.

Definition parse (c : Credential) : result MlsError Binding :=
  data ← ok_or (as_hide c) NotADeviceCredential;
  refuse_if (negb (lenN data =? CREDENTIAL_LEN)) NotADeviceCredential;;
  let device := take 32 data in
  let key_end := DEVICE_ID_LEN + VERIFYING_KEY_LENGTH in
  key ← map_err (λ _, NotADeviceCredential) (vk_from_bytes (slice DEVICE_ID_LEN key_end data));
  refuse_if (negb (bool_decide (device_id sha256 key = device))) ForgedCredential;;
  Ok {| device := device; binding_key := key; binding_signature := drop (N.to_nat key_end) data |}.

Definition verify_binding (b : Binding) (mls_public_key : bytes) : result MlsError unit :=
  map_err (λ _, ForgedCredential)
    (verify b.(binding_key) BINDING_CONTEXT (binding_message b.(device) mls_public_key)
       b.(binding_signature)).

(** ** The provider

    [Arc<RwLock<Membership>>]: a provider is a reference to a cell, a clone of
    it the same reference. A poisoned lock is read and written through. *)
Record HideIdentityProvider := { cell : nat }.

Definition new_provider (h : Heap) (m : Membership) : Heap * HideIdentityProvider :=
  let l := fresh (dom h) in (<[l := m]> h, {| cell := l |}).

Definition clone (p : HideIdentityProvider) : HideIdentityProvider := p.

Definition update (h : Heap) (p : HideIdentityProvider) (m : Membership) : Heap :=
  <[p.(cell) := m]> h.

Definition provider_membership (h : Heap) (p : HideIdentityProvider) : Membership :=
  default no_members (h !! p.(cell)).

Definition validate (h : Heap) (p : HideIdentityProvider) (s : SigningIdentity)
  : result MlsError unit :=
  binding ← parse s.(credential);
  verify_binding binding s.(signature_key);;
  trusted ← ok_or (get (provider_membership h p) binding.(device)) UntrustedDevice;
  refuse_if (negb (vk_eqb trusted.(key) binding.(binding_key))) ForgedCredential.

(** [IdentityProvider]: [validate_member] and [validate_external_sender] are
    [validate]. *)
Definition identity (s : SigningIdentity) : result MlsError bytes :=
  b ← parse s.(credential); Ok b.(device).

Definition valid_successor (h : Heap) (p : HideIdentityProvider) (predecessor successor : SigningIdentity)
  : result MlsError bool :=
  a ← parse predecessor.(credential);
  b ← parse successor.(credential);
  if negb (bool_decide (a.(device) = b.(device))) then Ok false
  else Ok (is_ok (validate h p successor)).

(** [client_with_provider], up to the third-party builder: the identity it is
    given; [generated] is what [signature_key_generate] made. *)
Definition client_with_provider (h : Heap) (p : HideIdentityProvider) (hide : SK)
    (generated : option (bytes * bytes)) : result MlsError (SigningIdentity * bytes) :=
  let m := provider_membership h p in
  let verifying := verifying_key hide in
  let id := device_id sha256 verifying in
  refuse_if (negb (contains m id)) UntrustedDevice;;
  '(secret, public) ← ok_or generated Protocol;
  let signature := sign hide BINDING_CONTEXT (binding_message id public) in
  Ok ({| credential := Custom HIDE_CREDENTIAL (id ++ vk_to_bytes verifying ++ signature);
         signature_key := public |}, secret).

Definition client_for (h : Heap) (m : Membership) (hide : SK) (generated : option (bytes * bytes))
  : Heap * result MlsError (SigningIdentity * bytes) :=
  let '(h, p) := new_provider h m in (h, client_with_provider h p hide generated).

Definition credential_device (s : SigningIdentity) : result MlsError bytes :=
  binding ← parse s.(credential);
  verify_binding binding s.(signature_key);;
  Ok binding.(device).

Section group.
Context {G : MlsGroup}.

(** The loop of [untrusted_members]. *)
Fixpoint stale_among (m : Membership) (stale : list bytes) (roster : list SigningIdentity)
  : result MlsError (list bytes) :=
  match roster with
  | [] => Ok stale
  | s :: roster =>
      d ← credential_device s;
      stale_among m (if contains m d then stale else stale ++ [d]) roster
  end.

Definition untrusted_members (g : Group) (m : Membership) : result MlsError (list bytes) :=
  stale_among m [] (members_iter g).

Definition sender_device (g : Group) (message : ReceivedMessage) : result MlsError (option bytes) :=
  match message with
  | ApplicationMessage sender =>
      member ← ok_or (member_at_index g sender) Protocol;
      d ← credential_device member; Ok (Some d)
  | OtherMessage => Ok None
  end.

Definition accept_from_trusted (g : Group) (message : ReceivedMessage) (m : Membership)
  : result MlsError unit :=
  sender ← sender_device g message;
  match sender with
  | Some d => refuse_if (negb (contains m d)) UntrustedSender
  | None => Ok tt
  end.
End group.

(** [from_bytes] is [MlsMessage::from_bytes]. *)
Definition decode_message {Message} (from_bytes : bytes → option Message) (b : bytes)
  : result MlsError Message :=
  refuse_if (MAX_MLS_MESSAGE <? lenN b) MessageTooLarge;;
  ok_or (from_bytes b) Protocol.
End mls.

(** * Lemmas *)
Section laws.
Context (sha256 : bytes → bytes) {Sig : SignatureScheme} {L : SignatureLaws Sig}.

(** The credential of a device whose key vouched for an MLS key. *)
Definition issued (k : VK) (s : bytes) : Credential :=
  Custom HIDE_CREDENTIAL (device_id sha256 k ++ vk_to_bytes k ++ s).

Context (sha256_length : ∀ x, length (sha256 x) = 32%nat).

Lemma credential_parse_Ok_iff c b :
  parse sha256 c = Ok b ↔
  c = issued b.(binding_key) b.(binding_signature) ∧ b.(device) = device_id sha256 b.(binding_key) ∧
  lenN b.(binding_signature) = SIGNATURE_LENGTH.
Proof.
  unfold parse, as_hide, CREDENTIAL_LEN, DEVICE_ID_LEN, VERIFYING_KEY_LENGTH, SIGNATURE_LENGTH.
  cbn zeta. split.
  - intros H. inv_ok. b2p. cbn [device binding_key binding_signature].
    match goal with H : vk_from_bytes _ = Ok _ |- _ => apply vk_to_from_bytes in H as Hk end.
    destruct c as [t data'|]; [|done]. destruct (N.eqb_spec t HIDE_CREDENTIAL) as [->|]; [|done].
    simplify_eq. split_and!.
    + unfold issued. f_equal. rewrite Hk.
      match goal with H : device_id _ _ = take 32 _ |- _ => rewrite H end.
      rewrite (slice_drop 32) by lia. by rewrite take_drop.
    + done.
    + rewrite length_drop. lia.
  - intros (-> & Hd & Hs). destruct b as [d k s]. cbn [device binding_key binding_signature] in *. subst d.
    unfold issued. rewrite N.eqb_refl. cbn [ok_or]. rewrite bind_of_Ok.
    pose proof (length_vk_to_bytes k) as Hk. unfold VERIFYING_KEY_LENGTH in Hk.
    assert (length (device_id sha256 k) = 32%nat) as Hi by apply sha256_length.
    rewrite refuse_if_pass by (rewrite !length_app; lia). rewrite bind_of_Ok.
    rewrite (slice_app 32 (32 + 1984) (device_id sha256 k) (vk_to_bytes k) s) by (done || lia).
    rewrite vk_from_to_bytes. cbn [map_err]. rewrite bind_of_Ok, (take_app_len 32) by done.
    rewrite bool_decide_eq_true_2 by done. cbn [negb refuse_if]. rewrite bind_of_Ok.
    rewrite app_assoc, drop_app_len by (rewrite length_app; lia). done.
Qed.

Lemma verify_binding_Ok_iff b k : verify_binding b k = Ok tt ↔
  verify b.(binding_key) BINDING_CONTEXT (binding_message b.(device) k) b.(binding_signature) = Ok tt.
Proof. unfold verify_binding. by rewrite map_err_Ok_iff. Qed.

Lemma validate_Ok_iff h p s :
  validate sha256 h p s = Ok tt ↔
  ∃ k sig d, s.(credential) = issued k sig ∧
    verify k BINDING_CONTEXT (binding_message (device_id sha256 k) s.(signature_key)) sig = Ok tt ∧
    (provider_membership h p).(devices) !! device_id sha256 k = Some d ∧ d.(key) = k.
Proof.
  unfold validate, get. split.
  - intros H. inv_ok. b2p.
    match goal with H : parse _ _ = Ok ?b |- _ => apply credential_parse_Ok_iff in H as (Hc & Hd & _); rename b into b end.
    match goal with H : verify_binding _ _ = Ok _ |- _ => apply verify_binding_Ok_iff in H as Hv end.
    rewrite Hd in *. eexists _, _, _. split_and!; [exact Hc|exact Hv|eassumption|].
    match goal with H : vk_eqb _ _ = true |- _ => by apply vk_eqb_true_iff in H end.
  - intros (k & sig & d & Hc & Hv & Hd & Hk).
    pose proof (verify_length _ _ _ _ Hv) as Hs.
    rewrite (proj2 (credential_parse_Ok_iff _ {| device := device_id sha256 k; binding_key := k; binding_signature := sig |}))
      by done.
    rewrite bind_of_Ok, (proj2 (verify_binding_Ok_iff _ _)) by done. rewrite bind_of_Ok.
    cbn [device]. rewrite Hd. cbn [ok_or]. rewrite bind_of_Ok. cbn [binding_key].
    by rewrite (proj2 (vk_eqb_true_iff _ _)).
Qed.

Lemma credential_device_Ok_iff s i :
  credential_device sha256 s = Ok i ↔
  ∃ k sig, s.(credential) = issued k sig ∧ i = device_id sha256 k ∧
    verify k BINDING_CONTEXT (binding_message i s.(signature_key)) sig = Ok tt.
Proof.
  unfold credential_device. split.
  - intros H. inv_ok.
    match goal with H : parse _ _ = Ok ?b |- _ => apply credential_parse_Ok_iff in H as (Hc & Hd & _) end.
    match goal with H : verify_binding _ _ = Ok _ |- _ => apply verify_binding_Ok_iff in H as Hv end.
    eexists _, _. split_and!; [exact Hc|exact Hd|exact Hv].
  - intros (k & sig & Hc & -> & Hv). pose proof (verify_length _ _ _ _ Hv) as Hs.
    rewrite (proj2 (credential_parse_Ok_iff _ {| device := device_id sha256 k; binding_key := k; binding_signature := sig |}))
      by done.
    by rewrite bind_of_Ok, (proj2 (verify_binding_Ok_iff _ _)).
Qed.

(** The roster scan reports exactly the devices the membership lacks. *)
Lemma stale_among_Ok_iff m stale roster l :
  stale_among sha256 m stale roster = Ok l ↔
  ∃ ids, Forall2 (λ s i, credential_device sha256 s = Ok i) roster ids ∧
    l = stale ++ List.filter (λ i, negb (contains m i)) ids.
Proof.
  revert stale. induction roster as [|s roster IH]; intros stale; cbn [stale_among].
  - split.
    + intros H. inv_ok. exists []. split; [constructor|by rewrite app_nil_r].
    + intros (ids & F & ->). inversion F; subst. cbn. by rewrite app_nil_r.
  - split.
    + intros H. inv_ok. apply IH in H as (ids & F & ->). eexists (_ :: ids).
      split; [by constructor|]. cbn [List.filter]. destruct (contains m _); cbn; [done|by rewrite <- app_assoc].
    + intros (ids & F & ->). inversion F as [|? i ? ids' Hi F']; subst. rewrite Hi, bind_of_Ok.
      apply IH. exists ids'. split; [done|]. cbn [List.filter].
      destruct (contains m i); cbn; [done|by rewrite <- app_assoc].
Qed.

(** Revoking takes the device out of the membership. *)
Lemma revoked_not_member log author d log' n :
  Identity.reachable sha256 log → revoke sha256 log author d = Ok (log', n) →
  (membership sha256 log').(devices) !! d = None.
Proof.
  intros Hr H. destruct (reachable_ok _ _ Hr) as [m Hm].
  destruct (append_Ok _ _ _ _ _ _ _ Hm H) as (_ & _ & _ & m' & Hm' & Ha).
  rewrite (log_members _ _ _ Hm'). apply apply_Ok in Ha as (_ & _ & _ & _ & He).
  unfold effect in He. cbn [event signed_entry] in He. inv_ok. apply lookup_delete_eq.
Qed.
End laws.

(** * Properties *)
Section properties.
Context (sha256 : bytes → bytes) {Sig : SignatureScheme} {L : SignatureLaws Sig}.

(** C32. A group admits exactly the devices its identity trusts now: a member
    passes when its credential is a device's id and key with that key's
    signature over this id and this MLS key, and the shared membership holds
    that device under that key. What a trusted device builds for itself
    passes, under any clone of the provider, whatever MLS key was generated,
    unless the membership holds another key of the same id, a SHA-256
    collision. *)
Theorem admitted_member_iff (h : Heap) (p : HideIdentityProvider) (s : SigningIdentity) :
  (∀ x, length (sha256 x) = 32%nat) →
  (validate sha256 h p s = Ok tt ↔
   ∃ k sig d, s.(credential) = Custom HIDE_CREDENTIAL (device_id sha256 k ++ vk_to_bytes k ++ sig) ∧
     verify k BINDING_CONTEXT (device_id sha256 k ++ s.(signature_key)) sig = Ok tt ∧
     (provider_membership h p).(devices) !! device_id sha256 k = Some d ∧ d.(key) = k) ∧
  ∀ log hide generated secret,
    Identity.reachable sha256 log → provider_membership h p = membership sha256 log →
    client_with_provider sha256 h p hide generated = Ok (s, secret) →
    identity sha256 s = Ok (device_id sha256 (verifying_key hide)) ∧
    (validate sha256 h (clone p) s = Ok tt ∨
     collide sha256 (λ x, x = text "HIDE/0.6 device id" ++ vk_to_bytes (verifying_key hide))
       (λ x, ∃ i d, (membership sha256 log).(devices) !! i = Some d ∧
             x = text "HIDE/0.6 device id" ++ vk_to_bytes d.(key))).
Proof.
  intros Hs. split; [by apply validate_Ok_iff|].
  intros log hide generated secret Hreach Hm H. unfold client_with_provider in H. inv_ok. b2p.
  match goal with H : contains _ _ = true |- _ => unfold contains in H; b2p; rename H into Hd end.
  rewrite Hm in Hd. destruct Hd as [d Hd].
  match goal with |- context [binding_message _ ?x] => rename x into public end.
  assert (Hv := verify_sign hide BINDING_CONTEXT
    (binding_message (device_id sha256 (verifying_key hide)) public)). split.
  - unfold identity. cbn [credential].
    rewrite (proj2 (credential_parse_Ok_iff sha256 Hs _ {| device := device_id sha256 (verifying_key hide);
      binding_key := verifying_key hide; binding_signature := sign hide BINDING_CONTEXT
        (binding_message (device_id sha256 (verifying_key hide)) public) |})); [done|].
    cbn. split_and!; [done|done|apply length_sign].
  - destruct (reachable_ok _ _ Hreach) as [m Hlog].
    pose proof (members_ok_replay sha256 _ _ _ (log_replays _ _ _ Hlog)) as Hmem.
    rewrite <- (log_members _ _ _ Hlog) in Hmem.
    destruct (members_device _ _ _ Hmem _ _ Hd) as (_ & Hid & _).
    destruct (hash_eq_or_collide sha256 (text "HIDE/0.6 device id" ++ vk_to_bytes (verifying_key hide))
      (text "HIDE/0.6 device id" ++ vk_to_bytes d.(key))
      (λ x, x = text "HIDE/0.6 device id" ++ vk_to_bytes (verifying_key hide))
      (λ x, ∃ i d, (membership sha256 log).(devices) !! i = Some d ∧
             x = text "HIDE/0.6 device id" ++ vk_to_bytes d.(key))) as [E|];
      [done|by eexists _, d|exact Hid| |by right].
    apply app_inv_head, vk_to_bytes_inj in E. left. apply (validate_Ok_iff sha256 Hs).
    exists (verifying_key hide), (sign hide BINDING_CONTEXT
      (binding_message (device_id sha256 (verifying_key hide)) public)), d.
    split; [done|split; [exact Hv|split; [unfold clone; by rewrite Hm|done]]].
Qed.

(** C31. Revocation reaches every group: once the log revoked a device and one
    handle of a provider was updated with it, every clone refuses that device's
    credential, whatever MLS key it vouches for, while providers made apart
    still enforce theirs; and against the new membership a roster scan reports
    the device wherever it sits, and a message it sent is not accepted. *)
Theorem revocation_reaches_groups {G : MlsGroup} (log log' : IdentityLog) (author : SK) (d : bytes) (n : N)
    (h : Heap) (p q : HideIdentityProvider) :
  (∀ x, length (sha256 x) = 32%nat) → Identity.reachable sha256 log →
  revoke sha256 log author d = Ok (log', n) →
  let m' := membership sha256 log' in
  let h' := update h p m' in
  (q.(cell) = p.(cell) → ∀ s, credential_device sha256 s = Ok d →
     validate sha256 h' q s = Err UntrustedDevice) ∧
  (q.(cell) ≠ p.(cell) → ∀ s, validate sha256 h' q s = validate sha256 h q s) ∧
  (∀ g l, untrusted_members sha256 g m' = Ok l →
     ∀ s, s ∈ members_iter g → credential_device sha256 s = Ok d → d ∈ l) ∧
  (∀ g i s, member_at_index g i = Some s → credential_device sha256 s = Ok d →
     accept_from_trusted sha256 g (ApplicationMessage i) m' = Err UntrustedSender).
Proof.
  intros Hs Hr H m' h'. pose proof (revoked_not_member _ _ _ _ _ _ Hr H) as Hnone. fold m' in Hnone.
  assert (contains m' d = false) as Hc by (unfold contains; rewrite Hnone; by apply bool_decide_eq_false_2; intros [? ?]).
  split_and!.
  - intros Hq s Hd. unfold validate, credential_device in *. inv_ok.
    match goal with H : parse _ _ = Ok _ |- _ => rewrite H end. rewrite bind_of_Ok.
    match goal with H : verify_binding _ _ = Ok _ |- _ => rewrite H end. rewrite bind_of_Ok.
    unfold provider_membership, h', update, get. rewrite Hq, lookup_insert_eq. cbn [from_option]. unfold Datatypes.id. by rewrite Hnone.
  - intros Hq s. unfold validate, provider_membership, h', update. by rewrite lookup_insert_ne.
  - intros g l Hl s Hin Hd. apply stale_among_Ok_iff in Hl as (ids & F & ->). cbn [app].
    apply list_elem_of_lookup in Hin as [i Hi].
    destruct (Forall2_lookup_l _ _ _ _ _ F Hi) as (j & Hj & E). rewrite Hd in E. apply Ok_inj in E as <-.
    apply list_elem_of_In, filter_In. split; [|by rewrite Hc].
    apply list_elem_of_In. by eapply list_elem_of_lookup_2.
  - intros g i s Hi Hd. unfold accept_from_trusted, sender_device. rewrite Hi. cbn [ok_or].
    rewrite bind_of_Ok, Hd, !bind_of_Ok, Hc. done.
Qed.
End properties.

(** * Witnesses: the phone of the sample identity joins and is revoked *)
Import Sign.Toy Identity.Samples.
#[local] Existing Instance Hybrid.scheme.
#[local] Existing Instance Hybrid.scheme_laws.

Module Samples.
#[export] Instance roster : MlsGroup := {
  Group := list SigningIdentity;
  members_iter g := g;
  member_at_index g i := g !! N.to_nat i;
}.
Definition provider : HideIdentityProvider := {| cell := 0 |}.
Definition heap : Heap := {[ 0%nat := membership toy_hash (log es1) ]}.
Definition mls_key : bytes := replicate 32 Byte.x0a.
Definition member : SigningIdentity :=
  {| credential := Custom HIDE_CREDENTIAL (did laptop ++ vk_to_bytes (verifying_key laptop) ++
       sign laptop BINDING_CONTEXT (did laptop ++ mls_key));
     signature_key := mls_key |}.
End Samples.

Lemma sample_heap :
  provider_membership Samples.heap Samples.provider = membership toy_hash (log es1).
Proof.
  unfold provider_membership, Samples.heap, Samples.provider. cbn [cell].
  rewrite lookup_singleton_eq. generalize (membership toy_hash (log es1)). done.
Qed.

Lemma sample_client :
  client_with_provider toy_hash Samples.heap Samples.provider laptop (Some ([], Samples.mls_key))
  = Ok (Samples.member, []).
Proof.
  unfold client_with_provider. rewrite sample_heap, sample_members_1. unfold contains, founded. cbn [devices].
  rewrite bool_decide_eq_true_2 by (eexists; apply lookup_singleton_eq). reflexivity.
Qed.

Lemma sample_revocable :
  Identity.reachable toy_hash (log es2) ∧
  ∃ l', revoke toy_hash (log es2) laptop (did phone) = Ok (l', 2).
Proof.
  destruct sample_ids as (N1 & N2 & N3).
  destruct (sample_enrol es1 laptop phone _ _ sample_reachable_1 eq_refl sample_members_1
    (lookup_singleton_eq _ _) eq_refl (lookup_singleton_ne _ _ _ N1)) as [R2 M2].
  fold enrolled es2 in R2, M2. split; [exact R2|].
  destruct (log_operations toy_hash (log es2) laptop (verifying_key phone) [] (did phone) R2)
    as (_ & H & _); [reflexivity|done|].
  destruct H as (l' & H & _); [| | |exists l'; exact H].
  - exists {| id := did laptop; key := verifying_key laptop; label := []; enrolled_at := 0 |}.
    rewrite M2. cbn. split; [|reflexivity].
    rewrite lookup_insert_ne by done. apply lookup_singleton_eq.
  - rewrite M2. cbn. eexists. apply lookup_insert_eq.
  - rewrite M2. cbn. rewrite map_size_insert_None; [by rewrite map_size_singleton|].
    by apply lookup_singleton_ne.
Qed.

Lemma admitted_member_iff_witness :
  identity toy_hash Samples.member = Ok (did laptop).
Proof.
  destruct (admitted_member_iff toy_hash Samples.heap Samples.provider Samples.member
    toy_hash_length) as [_ H].
  exact (proj1 (H (log es1) laptop _ [] sample_reachable_1 sample_heap sample_client)).
Defined.

Lemma revocation_reaches_groups_witness :
  ∃ l', revoke toy_hash (log es2) laptop (did phone) = Ok (l', 2) ∧
    ∀ s, credential_device toy_hash s = Ok (did phone) →
      validate toy_hash (update Samples.heap Samples.provider (membership toy_hash l'))
        (clone Samples.provider) s = Err UntrustedDevice.
Proof.
  destruct sample_revocable as (R & l' & H). exists l'. split; [exact H|].
  exact (proj1 (revocation_reaches_groups toy_hash (G := Samples.roster) (log es2) l' laptop (did phone) 2
    Samples.heap Samples.provider (clone Samples.provider) toy_hash_length R H) eq_refl).
Defined.
