(* ===== verification/Stream.v ===== *)
(** Readers and writers, as the standard library's [Read] and [Write] traits
    let a caller see them: a source hands out pieces of its own choosing, may be
    interrupted and may fail; a sink takes as much of each write as it likes.
    [read_up_to] is the loop of [read_chunk] and of [read_exact]; [write_all]
    is the trait's provided method. *)
From S2P Require Import Prelude.
Local Open Scope N_scope.

Inductive io_error := UnexpectedEof | WriteZero | OtherIo.

#[export] Instance io_error_eq_dec : EqDecision io_error.
Proof. solve_decision. Defined.

(** * Sources *)

(** What successive calls of [read] meet. A piece longer than the buffer is
    cut and the rest is left for the next call; an empty piece, like the end of
    the list, is a read of zero bytes. *)
Inductive read_event :=
| Piece (b : bytes)
| Interrupted
| Failed.

Abbreviation reader := (list read_event).

(** Reads until [n] bytes arrived or a read returned none. *)
Fixpoint read_up_to (n : N) (r : reader) : result io_error (bytes * reader) :=
  if n =? 0 then Ok ([], r) else
  match r with
  | [] => Ok ([], [])
  | Piece [] :: r => Ok ([], r)
  | Piece b :: r =>
      if n <? lenN b then Ok (take (N.to_nat n) b, Piece (drop (N.to_nat n) b) :: r)
      else '(rest, r) ← read_up_to (n - lenN b) r; Ok (b ++ rest, r)
  | Interrupted :: r => read_up_to n r
  | Failed :: _ => Err OtherIo
  end.

(** [reader.read_exact(&mut [0; n])] *)
Definition read_exact (n : N) (r : reader) : result io_error (bytes * reader) :=
  '(b, r) ← read_up_to n r;
  refuse_if (lenN b <? n) UnexpectedEof;;
  Ok (b, r).

(** Everything the source still holds. *)
Fixpoint contents (r : reader) : bytes :=
  match r with
  | Piece b :: r => b ++ contents r
  | _ :: r => contents r
  | [] => []
  end.

(** A source that neither fails nor pretends to have ended. *)
Definition live_event (e : read_event) : Prop :=
  match e with Piece b => b ≠ [] | Interrupted => True | Failed => False end.

Definition live (r : reader) : Prop := Forall live_event r.

Lemma take_ge_N (n : N) (b : bytes) : lenN b <= n → take (N.to_nat n) b = b.
Proof. intros. apply take_ge. lia. Qed.

Lemma drop_ge_N (n : N) (b : bytes) : lenN b <= n → drop (N.to_nat n) b = [].
Proof. intros. apply drop_ge. lia. Qed.

(** However a live source cuts its contents, the reader sees only them. *)
Lemma read_up_to_live n r :
  live r → ∃ r', read_up_to n r = Ok (take (N.to_nat n) (contents r), r') ∧
                 live r' ∧ contents r' = drop (N.to_nat n) (contents r).
Proof.
  intros L. revert n. induction L as [|e r He L IH]; intros n; cbn [read_up_to].
  - exists []. cbn [contents]. rewrite take_nil, drop_nil.
    destruct (n =? 0); (split_and!; [done|constructor|done]).
  - destruct (N.eqb_spec n 0) as [->|].
    { exists (e :: r). rewrite take_0, drop_0. split_and!; [done|by constructor|done]. }
    destruct e as [[|x b]| |]; [done| |apply IH|done].
    change (contents (Piece (x :: b) :: r)) with ((x :: b) ++ contents r).
    assert (x :: b ≠ []) as Hp by done. revert Hp. generalize (x :: b). intros p Hp.
    destruct (N.ltb_spec n (lenN p)) as [Hn|Hn].
    + exists (Piece (drop (N.to_nat n) p) :: r).
      rewrite (take_app_le p), (drop_app_le p) by lia. split_and!; [done| |done].
      constructor; [|done]. cbn. intros E. apply (f_equal length) in E.
      rewrite length_drop in E. cbn in E. lia.
    + destruct (IH (n - lenN p)) as (r' & -> & L' & C). exists r'. rewrite C.
      rewrite take_app_ge, drop_app_ge by lia.
      replace (N.to_nat (n - lenN p)) with (N.to_nat n - length p)%nat by lia.
      by split_and!.
Qed.

Lemma read_exact_live n r :
  live r → n <= lenN (contents r) →
  ∃ r', read_exact n r = Ok (take (N.to_nat n) (contents r), r') ∧
        live r' ∧ contents r' = drop (N.to_nat n) (contents r).
Proof.
  intros L H. destruct (read_up_to_live n r L) as (r' & E & L' & C). exists r'.
  split_and!; [|done..]. unfold read_exact. rewrite E.
  cbn [mbind result_mbind result_bind]. rewrite refuse_if_pass; [done|].
  rewrite length_take. lia.
Qed.

Lemma read_exact_short n r :
  live r → lenN (contents r) < n → read_exact n r = Err UnexpectedEof.
Proof.
  intros L H. destruct (read_up_to_live n r L) as (r' & E & _). unfold read_exact. rewrite E.
  cbn [mbind result_mbind result_bind]. rewrite length_take.
  replace (N.of_nat (N.to_nat n `min` length (contents r)) <? n) with true by lia. done.
Qed.

(** What was read was there: this needs nothing of the source. *)
Lemma read_up_to_contents n r b r' :
  read_up_to n r = Ok (b, r') → contents r = b ++ contents r' ∧ lenN b <= n.
Proof.
  revert n b. induction r as [|e r IH]; intros n b; cbn [read_up_to];
    destruct (N.eqb_spec n 0) as [->|Hn].
  - intros [= <- <-]. done.
  - intros [= <- <-]. cbn. split; [done|lia].
  - intros [= <- <-]. done.
  - destruct e as [[|x p]| |]; [| |apply IH|done].
    + intros [= <- <-]. cbn. split; [done|lia].
    + cbn [contents]. destruct (N.ltb_spec n (lenN (x :: p))) as [H|H].
      * intros [= <- <-]. cbn [contents]. rewrite app_assoc, take_drop, length_take.
        split; [done|lia].
      * intros E. inv_ok. destruct (IH _ _ ltac:(eassumption)) as [-> ?].
        rewrite <- app_assoc. split; [done|]. rewrite length_app. lia.
Qed.

Lemma read_exact_Ok n r b r' :
  live r → read_exact n r = Ok (b, r') →
  contents r = b ++ contents r' ∧ lenN b = n ∧ live r'.
Proof.
  intros Lr H. destruct (N.ltb_spec (lenN (contents r)) n) as [Hn|Hn].
  - by rewrite read_exact_short in H.
  - destruct (read_exact_live n r Lr Hn) as (r1 & E & L1 & C1). rewrite E in H.
    apply Ok_inj in H. injection H as <- <-. rewrite C1, take_drop, length_take.
    split_and!; [done|lia|done].
Qed.

(** A live source whose contents start with [a] delivers [a]. *)
Lemma read_exact_app n r a b :
  live r → contents r = a ++ b → lenN a = n →
  ∃ r', read_exact n r = Ok (a, r') ∧ live r' ∧ contents r' = b.
Proof.
  intros Lr E Hn. destruct (read_exact_live n r Lr) as (r' & H & L' & C').
  { rewrite E, length_app. lia. }
  exists r'. rewrite H, C', E, take_app_len, drop_app_len by lia. by split_and!.
Qed.

(** Nothing is read at the end of a live source only. *)
Lemma read_up_to_live_nil n r r' :
  live r → 0 < n → read_up_to n r = Ok ([], r') → contents r = [].
Proof.
  intros L Hn H. destruct (read_up_to_live n r L) as (r1 & E & _). rewrite E in H.
  apply Ok_inj in H. injection H as H _.
  destruct (contents r) as [|x b]; [done|]. apply (f_equal length) in H.
  rewrite length_take in H. cbn in H. lia.
Qed.

(** [Read for &[u8]] *)
Definition slice_reader (b : bytes) : reader :=
  match b with [] => [] | _ => [Piece b] end.

Lemma slice_reader_live b : live (slice_reader b) ∧ contents (slice_reader b) = b.
Proof.
  destruct b as [|x b]; [by split; [constructor|]|].
  split; [by repeat constructor|apply app_nil_r].
Qed.

(** * Sinks *)

(** What successive calls of [write] do: take up to [n] bytes, be interrupted,
    fail. After the end of the list a sink takes whatever it is given. *)
Inductive write_event :=
| Accept (n : N)
| WInterrupted
| WFailed.

Record writer := { written : bytes; schedule : list write_event }.

Section write_all.
(** [note] is what a wrapper of the sink does with the bytes each call took. *)
Context {H : Type} (note : H → bytes → H).

Fixpoint write_loop (b : bytes) (out : bytes) (h : H) (s : list write_event)
  : result io_error (writer * H) :=
  match b with
  | [] => Ok ({| written := out; schedule := s |}, h)
  | _ =>
      match s with
      | [] => Ok ({| written := out ++ b; schedule := [] |}, note h b)
      | Accept n :: s =>
          let taken := take (N.to_nat n) b in
          if n =? 0 then Err WriteZero
          else write_loop (drop (N.to_nat n) b) (out ++ taken) (note h taken) s
      | WInterrupted :: s => write_loop b out h s
      | WFailed :: _ => Err OtherIo
      end
  end.

Definition accepting_event (e : write_event) : Prop :=
  match e with Accept n => n ≠ 0 | WInterrupted => True | WFailed => False end.

(** A sink that takes something of every write. *)
Definition accepting (w : writer) : Prop := Forall accepting_event w.(schedule).

Hypothesis note_app : ∀ h a b, note (note h a) b = note h (a ++ b).
Hypothesis note_nil : ∀ h, note h [] = h.

Lemma write_loop_Ok b out h s w h' :
  write_loop b out h s = Ok (w, h') →
  w.(written) = out ++ b ∧ h' = note h b.
Proof.
  revert b out h. induction s as [|e s IH]; intros [|x b] out h; cbn [write_loop].
  1-3: intros [= <- <-]; cbn; rewrite ?app_nil_r, ?note_nil; done.
  destruct e as [n| |]; [|apply IH|done].
  destruct (N.eqb_spec n 0); [done|]. intros [E ->]%IH. rewrite E, note_app, <- app_assoc.
  by rewrite take_drop.
Qed.

Lemma write_loop_accepting b out h s :
  Forall accepting_event s →
  ∃ w, write_loop b out h s = Ok (w, note h b) ∧ w.(written) = out ++ b ∧ accepting w.
Proof.
  intros A. revert b out h. induction A as [|e s He A IH]; intros [|x b] out h;
    cbn [write_loop].
  1-3: eexists; cbn; rewrite ?app_nil_r, ?note_nil; split_and!; try done;
       unfold accepting; cbn; by constructor.
  destruct e as [n| |]; [|apply IH|done].
  destruct (N.eqb_spec n 0); [done|].
  destruct (IH (drop (N.to_nat n) (x :: b)) (out ++ take (N.to_nat n) (x :: b))
    (note h (take (N.to_nat n) (x :: b)))) as (w & -> & Hw & Aw).
  exists w. rewrite Hw, note_app, <- app_assoc, take_drop. done.
Qed.
End write_all.

(** [writer.write_all(b)] *)
Definition write_all (b : bytes) (w : writer) : result io_error writer :=
  '(w, _) ← write_loop (λ u _, u) b w.(written) tt w.(schedule); Ok w.

Lemma write_all_Ok b w w' : write_all b w = Ok w' → w'.(written) = w.(written) ++ b.
Proof.
  unfold write_all. intros H. inv_ok.
  match goal with H : write_loop _ _ _ _ _ = Ok _ |- _ =>
    apply write_loop_Ok in H as [? _]; done end.
Qed.

Lemma write_all_accepting b w :
  accepting w → ∃ w', write_all b w = Ok w' ∧ w'.(written) = w.(written) ++ b ∧ accepting w'.
Proof.
  intros A. unfold write_all.
  destruct (write_loop_accepting (λ (u : unit) _, u) ltac:(done) ltac:(done) b w.(written) tt
    w.(schedule) A) as (w' & -> & H). by exists w'.
Qed.

Lemma write_all_Ok_accepting b w w' :
  accepting w → write_all b w = Ok w' → w'.(written) = w.(written) ++ b ∧ accepting w'.
Proof.
  intros A H. destruct (write_all_accepting b w A) as (w1 & E & Hw). rewrite E in H.
  by apply Ok_inj in H as <-.
Qed.
