(* ===== verification/Agent.v ===== *)
(** [hide-cli/src/agent.rs]: an ssh-agent over the Ed25519 half of an identity.
    Signing is [ed25519_dalek]'s, class [Sign.Primitives]; base64 without
    padding is a parameter; who may be asked to confirm is the trait
    [Approver]. A connection is a source and a sink of [Stream]. *)
From S2P Require Import Prelude Sign Stream.
Local Open Scope N_scope.

Definition REQUEST_IDENTITIES : N := 11.
Definition IDENTITIES_ANSWER : N := 12.
Definition SIGN_REQUEST : N := 13.
Definition SIGN_RESPONSE : N := 14.
Definition FAILURE : N := 5.
Definition KEY_TYPE : bytes := text "ssh-ed25519".
Definition MAX_MESSAGE : N := 256 * 1024.

Inductive AgentError :=
| TruncatedPrefix
| StringTooLong
| EmptyRequest
| Unsupported (kind : N)
| NotOurs
| RefusedByApprover
| LengthOutOfRange (length : N)
| Io (e : io_error).

(** ** RFC 4251 strings *)
Definition read_u32 (d : bytes) : result AgentError (N * bytes) :=
  '(head, rest) ← ok_or (split_at_checked 4 d) TruncatedPrefix;
  Ok (unbe head, rest).

Definition read_string (d : bytes) : result AgentError (bytes * bytes) :=
  '(length, d) ← read_u32 d;
  ok_or (split_at_checked length d) StringTooLong.

(** [value.len() as u32] keeps the low 32 bits, as [u32be] does. *)
Definition put_string (out value : bytes) : bytes := out ++ u32be (lenN value) ++ value.

Definition public_key_blob (public : bytes) : bytes := put_string (put_string [] KEY_TYPE) public.

(** [Approver::approve], with the approver's own state. *)
Class Approver := { Approval : Type; approve : Approval → bytes → bool * Approval }.

(** [--no-confirm] *)
Definition ApproveEverything : Approver := {| Approval := unit; approve s _ := (true, s) |}.

Record Agent := { agent_key : bytes; agent_public : bytes; comment : bytes }.

Section agent.
Context (sha256 : bytes → bytes) (b64_no_pad : bytes → bytes).
Context {P : Primitives} {Ap : Approver}.

Definition fingerprint (public : bytes) : bytes :=
  text "SHA256:" ++ b64_no_pad (sha256 (public_key_blob public)).

Definition new_agent (identity : Hybrid.SigningIdentity) (comment : bytes) : Agent :=
  let key := Hybrid.ed25519_seed identity in
  {| agent_key := key; agent_public := ed_as_bytes (ed_verifying_key key); comment := comment |}.

Definition identities (a : Agent) : bytes :=
  put_string (put_string ([byte_of IDENTITIES_ANSWER] ++ u32be 1) (public_key_blob a.(agent_public)))
    a.(comment).

(** The fields of a sign request: the key asked for and the data. *)
Definition read_sign_request (body : bytes) : result AgentError (bytes * bytes) :=
  '(requested, d) ← read_string body;
  '(data, d) ← read_string d;
  '(_, _) ← read_u32 d;
  Ok (requested, data).

Definition sign_response (a : Agent) (data : bytes) : bytes :=
  let blob := put_string (put_string [] KEY_TYPE) (ed_sign a.(agent_key) data) in
  put_string [byte_of SIGN_RESPONSE] blob.

Definition sign (a : Agent) (body : bytes) (s : Approval) : result AgentError bytes * Approval :=
  match read_sign_request body with
  | Err e => (Err e, s)
  | Ok (requested, data) =>
      if negb (bool_decide (requested = public_key_blob a.(agent_public))) then (Err NotOurs, s)
      else
        let '(allowed, s) := approve s (fingerprint a.(agent_public)) in
        if allowed then (Ok (sign_response a data), s) else (Err RefusedByApprover, s)
  end.

Definition try_respond (a : Agent) (request : bytes) (s : Approval)
  : result AgentError bytes * Approval :=
  match request with
  | [] => (Err EmptyRequest, s)
  | kind :: body =>
      let kind := Byte.to_N kind in
      if kind =? REQUEST_IDENTITIES then (Ok (identities a), s)
      else if kind =? SIGN_REQUEST then sign a body s
      else (Err (Unsupported kind), s)
  end.

Definition respond (a : Agent) (request : bytes) (s : Approval) : bytes * Approval :=
  let '(r, s) := try_respond a request s in
  (match r with Ok b => b | Err _ => [byte_of FAILURE] end, s).

(** [serve], one turn of the loop for each unit of fuel; [None] when it runs
    out. What [flush] does is the sink's. *)
Fixpoint serve (fuel : nat) (a : Agent) (input : reader) (output : writer) (s : Approval)
  : option (result AgentError (writer * Approval)) :=
  match fuel with
  | O => None
  | S fuel =>
      match read_exact 4 input with
      | Err UnexpectedEof => Some (Ok (output, s))
      | Err e => Some (Err (Io e))
      | Ok (header, input) =>
          let length := unbe header in
          if (length =? 0) || (MAX_MESSAGE <? length) then Some (Err (LengthOutOfRange length))
          else
            match read_exact length input with
            | Err e => Some (Err (Io e))
            | Ok (request, input) =>
                let '(response, s) := respond a request s in
                match (output ← write_all (u32be (lenN response)) output; write_all response output) with
                | Err e => Some (Err (Io e))
                | Ok output => serve fuel a input output s
                end
            end
      end
  end.
End agent.

(** * Lemmas *)
Lemma read_string_put v d : lenN v <= u32_max → read_string (put_string [] v ++ d) = Ok (v, d).
Proof.
  intros H. unfold read_string, read_u32, put_string. rewrite app_nil_l, <- app_assoc.
  rewrite split_at_checked_app by (by rewrite length_u32be). cbn [ok_or]. rewrite !bind_of_Ok.
  rewrite unbe_u32be by done. by rewrite split_at_checked_app.
Qed.

Lemma read_u32_Ok d n r : read_u32 d = Ok (n, r) → d = u32be n ++ r ∧ n <= u32_max.
Proof.
  unfold read_u32. intros H. inv_ok.
  match goal with H : split_at_checked _ _ = Some _ |- _ => apply split_at_checked_Some_iff in H as [-> Hl] end.
  pose proof (unbe_bound l) as Hb. rewrite Hl in Hb. unfold u32be.
  rewrite be_unbe_len by lia. split; [done|]. unfold u32_max. cbn in Hb. lia.
Qed.

Lemma read_string_Ok d v r : read_string d = Ok (v, r) → d = put_string [] v ++ r ∧ lenN v <= u32_max.
Proof.
  unfold read_string. intros H. inv_ok.
  match goal with H : read_u32 _ = Ok _ |- _ => apply read_u32_Ok in H as [-> Hn] end.
  match goal with H : split_at_checked _ _ = Some _ |- _ => apply split_at_checked_Some_iff in H as [-> <-] end.
  unfold put_string. by rewrite app_nil_l, <- app_assoc.
Qed.

(** A sign request is two strings and four bytes of flags. *)
Lemma read_sign_request_Ok_iff body requested data :
  read_sign_request body = Ok (requested, data) ↔
  lenN requested <= u32_max ∧ lenN data <= u32_max ∧
  ∃ rest, 4 <= lenN rest ∧ body = put_string [] requested ++ put_string [] data ++ rest.
Proof.
  unfold read_sign_request. split.
  - intros H. inv_ok.
    repeat match goal with H : read_string _ = Ok _ |- _ => apply read_string_Ok in H as [-> ?] end.
    match goal with H : read_u32 _ = Ok _ |- _ => apply read_u32_Ok in H as [-> ?] end.
    split_and!; [done|done|]. eexists. split; [|done]. rewrite length_app, length_u32be. lia.
  - intros (Hr & Hd & rest & Hl & ->). rewrite read_string_put by done. rewrite bind_of_Ok.
    rewrite read_string_put by done. rewrite bind_of_Ok. unfold read_u32, split_at_checked.
    by rewrite (proj2 (N.leb_le _ _) Hl).
Qed.

Section laws.
Context (sha256 : bytes → bytes) (b64_no_pad : bytes → bytes).
Context {P : Primitives} {L : PrimitivesLaws P} {Ap : Approver}.

(** One message on the connection. *)
Definition frame (m : bytes) : bytes := u32be (lenN m) ++ m.

(** The answers to a sequence of requests, and what the approver is left as. *)
Fixpoint answers (a : Agent) (requests : list bytes) (s : Approval) : list bytes * Approval :=
  match requests with
  | [] => ([], s)
  | r :: requests =>
      let '(x, s) := respond sha256 b64_no_pad a r s in
      let '(xs, s) := answers a requests s in (x :: xs, s)
  end.

Definition in_range (m : bytes) : Prop := 1 <= lenN m <= MAX_MESSAGE.

(** Every turn of the loop takes at least five bytes. *)
Lemma serve_enough fuel a input output s :
  (length (contents input) < fuel)%nat → is_Some (serve sha256 b64_no_pad fuel a input output s).
Proof.
  revert input output s. induction fuel as [|fuel IH]; intros input output s H; [lia|]. cbn [serve].
  destruct (read_exact 4 input) as [[header input1]|[]] eqn:E1; [|by eexists..].
  destruct (_ || _) eqn:Eb; [by eexists|].
  destruct (read_exact (unbe header) input1) as [[request input2]|] eqn:E2; [|by eexists].
  destruct (respond _ _ _ _ _) as [response s1]. destruct (_ ≫= _); [|by eexists].
  apply IH. unfold read_exact in E1, E2. inv_ok. b2p.
  repeat match goal with H : read_up_to _ _ = Ok _ |- _ => apply read_up_to_contents in H as [? ?] end.
  match goal with H : contents input = _ |- _ => rewrite H in * end.
  match goal with H : contents input1 = _ |- _ => rewrite H in * end.
  rewrite !length_app in *. lia.
Qed.

Lemma serve_answers requests fuel a input output s tail :
  (length requests < fuel)%nat → Forall in_range requests → live input → accepting output →
  contents input = concat (map frame requests) ++ tail → lenN tail < 4 →
  ∃ output', serve sha256 b64_no_pad fuel a input output s
      = Some (Ok (output', (answers a requests s).2)) ∧ accepting output' ∧
    output'.(written) = output.(written) ++ concat (map frame (answers a requests s).1).
Proof.
  revert fuel input output s. induction requests as [|r requests IH];
    intros [|fuel] input output s Hf F Li Ao E Ht; cbn [length] in Hf; try lia; cbn [serve map concat] in *.
  - rewrite read_exact_short; [|done|rewrite E; done].
    exists output. cbn [answers fst snd]. by rewrite app_nil_r.
  - apply Forall_cons in F as [Hr F]. unfold in_range, MAX_MESSAGE in Hr.
    unfold frame in E at 1. rewrite <- !app_assoc in E.
    destruct (read_exact_app 4 input _ _ Li E) as (i1 & -> & L1 & C1); [by rewrite length_u32be|].
    rewrite unbe_u32be by (unfold u32_max; lia).
    destruct (_ || _) eqn:Eb; [unfold MAX_MESSAGE in *; lia|].
    destruct (read_exact_app (lenN r) i1 _ _ L1 C1) as (i2 & -> & L2 & C2); [done|].
    cbn [answers]. destruct (respond sha256 b64_no_pad a r s) as [x s1] eqn:Ex.
    destruct (write_all_accepting (u32be (lenN x)) output Ao) as (o1 & -> & W1 & A1). rewrite bind_of_Ok.
    destruct (write_all_accepting x o1 A1) as (o2 & -> & W2 & A2).
    destruct (IH fuel i2 o2 s1) as (o' & -> & A' & W'); [lia|done..|].
    destruct (answers a requests s1) as [xs s2]. cbn [fst snd map concat] in *.
    exists o'. split_and!; [done|done|]. rewrite W', W2, W1. unfold frame. by rewrite <- !app_assoc.
Qed.
End laws.

(** * Properties *)
Section properties.
Context (sha256 : bytes → bytes) (b64_no_pad : bytes → bytes).
Context {P : Primitives} {L : PrimitivesLaws P} {Ap : Approver}.

(** C37. The agent signs only what its approver allowed: a request is answered
    by the identity list, or it is a well-formed request to sign with this very
    key, in which case the approver is asked once, with the key's fingerprint,
    and the answer is the signature of exactly the bytes sent, which verifies
    under the Ed25519 half of the identity, when it said yes, and the bare
    failure when it said no; or it is anything else, answered by the same bare
    failure without asking anyone. *)
Theorem signs_only_what_was_approved (identity : Hybrid.SigningIdentity) (label request : bytes)
    (s s' : Approval) (response : bytes) :
  let a := new_agent identity label in
  let key := Hybrid.ed25519_key (Hybrid.verifying_key identity) in
  let blob := public_key_blob (ed_as_bytes key) in
  let asked := approve s (fingerprint sha256 b64_no_pad (ed_as_bytes key)) in
  let sign_request data := ∃ rest, 4 <= lenN rest ∧ lenN data <= u32_max ∧
    request = byte_of SIGN_REQUEST :: put_string [] blob ++ put_string [] data ++ rest in
  respond sha256 b64_no_pad a request s = (response, s') →
  (hd_error request = Some (byte_of REQUEST_IDENTITIES) ∧ response = identities a ∧ s' = s) ∨
  (∃ data, sign_request data ∧ s' = asked.2 ∧
     (asked.1 = true ∧ (∃ signature, response = put_string [byte_of SIGN_RESPONSE]
          (put_string (put_string [] KEY_TYPE) signature) ∧ ed_verify_strict key data signature = true) ∨
      asked.1 = false ∧ response = [byte_of FAILURE])) ∨
  (hd_error request ≠ Some (byte_of REQUEST_IDENTITIES) ∧ (∀ data, ¬ sign_request data) ∧
   response = [byte_of FAILURE] ∧ s' = s).
Proof.
  intros a key blob asked sign_request H. unfold respond, try_respond in H.
  destruct request as [|kind body].
  { injection H as <- <-. right. right. split_and!; [done| |done|done]. intros data (rest & _ & _ & E). done. }
  assert (∀ n, n < 256 → Byte.to_N kind = n ↔ kind = byte_of n) as Hk.
  { intros n Hn. split; [intros <-; by rewrite byte_of_to_N|intros ->].
    rewrite to_N_byte_of. by apply N.mod_small. }
  destruct (N.eqb_spec (Byte.to_N kind) REQUEST_IDENTITIES) as [E|E].
  { injection H as <- <-. left. split_and!; [|done|done]. cbn. f_equal. by apply Hk. }
  assert (hd_error (kind :: body) ≠ Some (byte_of REQUEST_IDENTITIES)) as Hne.
  { cbn. intros [= ->]. by apply E. }
  destruct (N.eqb_spec (Byte.to_N kind) SIGN_REQUEST) as [E'|E'].
  2:{ injection H as <- <-. right. right. split_and!; [done| |done|done].
      intros data (rest & _ & _ & Eq). injection Eq as -> _. by apply E'. }
  apply Hk in E' as ->; [|done]. right. unfold sign in H.
  assert (∀ req data, read_sign_request body = Ok (req, data) → req = blob → sign_request data) as Hfwd.
  { intros req data Hb ->. apply read_sign_request_Ok_iff in Hb as (_ & Hd & rest & Hl & ->). by exists rest. }
  assert (∀ data, sign_request data → lenN blob <= u32_max → read_sign_request body = Ok (blob, data)) as Hbwd.
  { intros data (rest & Hl & Hd & Eq) Hbl. injection Eq as ->. apply read_sign_request_Ok_iff. by eauto. }
  assert (lenN blob <= u32_max) as Hbl.
  { unfold blob, public_key_blob, put_string. rewrite !length_app, !length_u32be.
    pose proof (ed_bytes_length key) as Hl. unfold ED25519_PUBLIC_LEN in Hl.
    change (length KEY_TYPE) with 11%nat. unfold u32_max. cbn [length]. lia. }
  destruct (read_sign_request body) as [[req data]|e] eqn:Er.
  - destruct (decide (req = public_key_blob (agent_public a))) as [Hreq|Hreq].
    + rewrite bool_decide_eq_true_2 in H by done. cbn [negb] in H. left. exists data.
      split; [by apply (Hfwd req)|]. fold asked in H. unfold a in H. cbn [agent_public new_agent] in H.
      change (ed_as_bytes (ed_verifying_key (Hybrid.ed25519_seed identity))) with (ed_as_bytes key) in H.
      fold asked in H. destruct asked as [[] s1]; cbn [fst snd] in *; injection H as <- <-.
      * split; [done|]. left. split; [done|]. eexists. split; [reflexivity|]. apply ed_correct.
      * split; [done|]. by right.
    + rewrite bool_decide_eq_false_2 in H by done. injection H as <- <-. right. split_and!; [done| |done|done].
      intros data' Hd. specialize (Hbwd data' Hd Hbl). injection Hbwd as -> _. by apply Hreq.
  - injection H as <- <-. right. split_and!; [done| |done|done].
    intros data' Hd. specialize (Hbwd data' Hd Hbl). done.
Qed.

(** C38. Every request is answered: on a connection that delivers its bytes and
    takes what it is given, in whatever pieces, each request of an admissible
    length gets its answer, framed, in order, and serving ends well when the
    peer hangs up, even inside a length prefix. On any connection at all the
    loop ends: it turns at most once for each byte received. *)
Theorem every_request_is_answered (a : Agent) (requests : list bytes) (input : reader) (output : writer)
    (s : Approval) (tail : bytes) (fuel : nat) :
  (length (contents input) < fuel)%nat →
  is_Some (serve sha256 b64_no_pad fuel a input output s) ∧
  (Forall in_range requests → live input → accepting output →
   contents input = concat (map frame requests) ++ tail → lenN tail < 4 →
   ∃ output', serve sha256 b64_no_pad fuel a input output s
       = Some (Ok (output', (answers sha256 b64_no_pad a requests s).2)) ∧
     output'.(written) = output.(written) ++
       concat (map frame (answers sha256 b64_no_pad a requests s).1) ∧
     length (answers sha256 b64_no_pad a requests s).1 = length requests).
Proof.
  intros Hf. split; [by apply serve_enough|]. intros F Li Ao E Ht.
  assert (length requests <= length (contents input))%nat as Hn.
  { rewrite E, length_app. assert (length requests <= length (concat (map frame requests)))%nat; [|lia].
    clear. induction requests as [|r rs IH]; [done|]. cbn [map concat length].
    assert (length (frame r) = 4 + length r)%nat by (unfold frame; by rewrite length_app, length_u32be).
    rewrite length_app. lia. }
  destruct (serve_answers sha256 b64_no_pad requests fuel a input output s tail) as (o' & H1 & _ & H2);
    [lia|done..|].
  exists o'. split_and!; [done|done|]. clear. revert s. induction requests as [|r rs IH]; intros s; [done|].
  cbn [answers]. destruct (respond _ _ _ _ _) as [x s1]. specialize (IH s1).
  destruct (answers _ _ _ _ s1). cbn in *. by f_equal.
Qed.
End properties.

(** * Witnesses *)
Import Sign.Toy.
#[local] Existing Instance ApproveEverything.

Module Samples.
Definition identity : Hybrid.SigningIdentity := Hybrid.from_seed (replicate 32 Byte.x07).
Definition agent : Agent := new_agent identity (text "laptop").
Definition challenge : bytes :=
  byte_of SIGN_REQUEST :: put_string [] (public_key_blob agent.(agent_public))
    ++ put_string [] (text "session") ++ u32be 0.
Definition requests : list bytes := [[byte_of REQUEST_IDENTITIES]; challenge; [byte_of 99]].
(** Two pieces, cut in the middle of a prefix, and a hang-up inside one. *)
Definition input : reader :=
  let b := concat (map frame requests) ++ [Byte.x00] in [Piece (take 2 b); Interrupted; Piece (drop 2 b)].
Definition output : writer := {| written := []; schedule := [Accept 3; WInterrupted] |}.
End Samples.

Lemma signs_only_what_was_approved_witness :
  ∃ response, respond (Ap := ApproveEverything) toy_hash (λ b, b) Samples.agent Samples.challenge tt = (response, tt) ∧
    response ≠ [byte_of FAILURE].
Proof.
  destruct (respond (Ap := ApproveEverything) toy_hash (λ b, b) Samples.agent Samples.challenge tt) as [response []] eqn:E.
  exists response. split; [reflexivity|].
  destruct (signs_only_what_was_approved (Ap := ApproveEverything) toy_hash (λ b, b) Samples.identity (text "laptop")
    Samples.challenge tt tt response E) as [(H & _)|[(data & _ & _ & [(_ & sig & -> & _)|[H _]])|(_ & H & _)]].
  - discriminate H.
  - discriminate.
  - discriminate H.
  - exfalso. apply (H (text "session")). exists (u32be 0).
    split; [rewrite length_u32be; discriminate|]. split; [vm_compute; discriminate|reflexivity].
Defined.

Lemma every_request_is_answered_witness :
  ∃ output', serve (Ap := ApproveEverything) toy_hash (λ b, b) 200 Samples.agent Samples.input Samples.output tt
    = Some (Ok (output', tt)).
Proof.
  destruct (every_request_is_answered (Ap := ApproveEverything) toy_hash (λ b, b) Samples.agent Samples.requests Samples.input
    Samples.output tt [Byte.x00] 200) as [_ H].
  - apply Nat.ltb_lt. vm_compute. reflexivity.
  - destruct H as (o & H & _).
    + repeat constructor; vm_compute; discriminate.
    + repeat constructor; discriminate.
    + repeat constructor; discriminate.
    + vm_compute. reflexivity.
    + reflexivity.
    + exists o. rewrite H. destruct (answers _ _ _ _ _) as [xs []]. reflexivity.
Defined.
