(* ===== verification/Records.v ===== *)
(** [hide-object/src/lib.rs], the payload: a stream of sealed records, all of
    them full but the last, each under its own nonce and bound to its place.
    [encrypt_records] and [decrypt_records] run over the sources and sinks of
    Stream.v with the buffers the code reuses; [opens_as] says which byte
    strings are payloads of which chunks. *)
From S2P Require Import Prelude Format Crypto Stream.
Local Open Scope N_scope.

Definition DATA : N := 1.
Definition FINAL : N := 2.
Definition MAX_CHUNKS : N := 4294967296.
Definition RECORD_LEN : N := CHUNK_LEN + TAG_LEN.
Definition CHUNK_AAD_LEN : N := 91.

Inductive ObjectError :=
| Format (e : FormatError)
| Crypto (e : CryptoError)
| Io (e : io_error)
| NoMatchingRecipient
| TruncatedPayload
| InvalidRecord
| TrailingData
| ObjectTooLarge
| InvalidRecipients
| InvalidSignature
| UnexpectedSignature
| MissingSignature.

#[export] Instance ObjectError_eq_dec : EqDecision ObjectError.
Proof. solve_decision. Defined.

(** [u8::from(kind == FINAL)] in the last byte, the counter before it. *)
Definition nonce (counter kind : N) : bytes :=
  replicate 3 Byte.x00 ++ u64be counter ++ [byte_of (if kind =? FINAL then 1 else 0)].

Definition chunk_aad (object_id header_hash : bytes) (counter kind length : N) : bytes :=
  text "HIDE/0.1 chunk" ++ object_id ++ header_hash ++ u64be counter
    ++ [byte_of kind] ++ u32be length.

Definition record_length (kind ciphertext_len counter : N) : result ObjectError N :=
  refuse_if (negb ((TAG_LEN <=? ciphertext_len) && (ciphertext_len <=? CHUNK_LEN + TAG_LEN)))
    InvalidRecord;;
  let length := ciphertext_len - TAG_LEN in
  if (kind =? DATA) && (length =? CHUNK_LEN) then Ok length
  else if (kind =? FINAL) && ((0 <? length) || (counter =? 0)) then Ok length
  else Err InvalidRecord.

Definition read_payload (n : N) (r : reader) : result ObjectError (bytes * reader) :=
  map_err (λ e, if bool_decide (e = UnexpectedEof) then TruncatedPayload else Io e)
    (read_exact n r).

(** Reads into the first [n] bytes of a buffer: how many arrived, the buffer. *)
Definition read_chunk (n : N) (buffer : bytes) (r : reader)
  : result ObjectError (N * bytes * reader) :=
  '(b, r) ← map_err Io (read_up_to n r);
  Ok (lenN b, b ++ drop (length b) buffer, r).

Definition fresh_buffer : bytes := replicate (N.to_nat RECORD_LEN) Byte.x00.

Section records.
Context {P : Primitives}.

(** ** The hashing sink *)
Record PlaintextHasher := { inner : writer; hasher : Hasher }.

Definition plaintext_hasher (staging : writer) : PlaintextHasher :=
  {| inner := staging; hasher := hasher_new |}.

Definition finish (h : PlaintextHasher) : bytes := hasher_finish h.(hasher).

(** [write_all] through [PlaintextHasher::write]: what each call took is
    hashed. *)
Definition hashing_write_all (b : bytes) (h : PlaintextHasher)
  : result ObjectError PlaintextHasher :=
  '(w, s) ← map_err Io
      (write_loop hasher_update b h.(inner).(written) h.(hasher) h.(inner).(schedule));
  Ok {| inner := w; hasher := s |}.

Context (key : DerivedKey) (object_id header_hash : bytes).

(** ** Writing

    The loop of [encrypt_records]; [fuel] bounds its turns, and the arm
    without fuel is never reached ([encrypt_loop_enough]). *)
Fixpoint encrypt_loop (fuel : nat) (counter total length : N) (current next : bytes)
    (input : reader) (output : writer) : result ObjectError (N * writer) :=
  match fuel with
  | O => Err ObjectTooLarge
  | S fuel =>
      refuse_if (MAX_CHUNKS <=? counter) ObjectTooLarge;;
      '(next_length, next, input) ← read_chunk CHUNK_LEN next input;
      let kind := if next_length =? 0 then FINAL else DATA in
      let aad := chunk_aad object_id header_hash counter kind length in
      '(sealed, current) ← map_err Crypto
          (seal_in_place key (nonce counter kind) aad current length);
      output ← map_err Io (write_all (byte_of kind :: u32be sealed) output);
      output ← map_err Io (write_all (take (N.to_nat sealed) current) output);
      let total := total + length in
      if kind =? FINAL then Ok (total, output)
      else encrypt_loop fuel (counter + 1) total next_length next current input output
  end.

Definition encrypt_records (input : reader) (output : writer) : result ObjectError (N * writer) :=
  '(len, current, input) ← read_chunk CHUNK_LEN fresh_buffer input;
  encrypt_loop (S (length (contents input))) 0 0 len current fresh_buffer input output.

(** ** Reading

    [for counter in 0..MAX_CHUNKS], with the same use of [fuel]
    ([decrypt_loop_enough]). *)
Fixpoint decrypt_loop (fuel : nat) (counter total : N) (buffer : bytes) (input : reader)
    (staging : PlaintextHasher) : result ObjectError (N * PlaintextHasher) :=
  match fuel with
  | O => Err ObjectTooLarge
  | S fuel =>
      refuse_if (MAX_CHUNKS <=? counter) ObjectTooLarge;;
      '(record, input) ← read_payload 5 input;
      let kind := byte_at 0 record in
      let ciphertext_len := unbe (drop 1 record) in
      length ← record_length kind ciphertext_len counter;
      '(ciphertext, input) ← read_payload ciphertext_len input;
      let aad := chunk_aad object_id header_hash counter kind length in
      '(opened, plaintext) ← map_err Crypto
          (open_in_place key (nonce counter kind) aad ciphertext);
      let buffer := plaintext ++ drop (N.to_nat ciphertext_len) buffer in
      input ← (if kind =? FINAL
               then '(n, _, input) ← read_chunk 1 [Byte.x00] input;
                    refuse_if (negb (n =? 0)) TrailingData;; Ok input
               else Ok input);
      staging ← hashing_write_all (take (N.to_nat opened) buffer) staging;
      let total := total + opened in
      if kind =? FINAL then Ok (total, staging)
      else decrypt_loop fuel (counter + 1) total buffer input staging
  end.

Definition decrypt_records (input : reader) (staging : PlaintextHasher)
  : result ObjectError (N * PlaintextHasher) :=
  decrypt_loop (S (length (contents input))) 0 0 fresh_buffer input staging.

(** ** What a payload is *)

Definition frame (kind : N) (ciphertext : bytes) : bytes :=
  byte_of kind :: u32be (lenN ciphertext) ++ ciphertext.

(** [opens_as counter s ps]: [s] is a run of records, numbered from
    [counter], that opens to the chunks [ps]. *)
Inductive opens_as : N → bytes → list bytes → Prop :=
| opens_final counter c p :
    open key (nonce counter FINAL) (chunk_aad object_id header_hash counter FINAL (lenN p)) c
      = Ok p →
    lenN p <= CHUNK_LEN → p ≠ [] ∨ counter = 0 →
    opens_as counter (frame FINAL c) [p]
| opens_data counter c p s ps :
    open key (nonce counter DATA) (chunk_aad object_id header_hash counter DATA (lenN p)) c
      = Ok p →
    lenN p = CHUNK_LEN →
    opens_as (counter + 1) s ps →
    opens_as counter (frame DATA c ++ s) (p :: ps).
End records.

(** The one way to cut a plaintext: full chunks, then a last one that is empty
    only when the whole plaintext is. *)
Fixpoint chunks_within (fuel : nat) (p : bytes) : list bytes :=
  match fuel with
  | S fuel =>
      if CHUNK_LEN <? lenN p
      then take (N.to_nat CHUNK_LEN) p :: chunks_within fuel (drop (N.to_nat CHUNK_LEN) p)
      else [p]
  | O => [p]
  end.

Definition chunks (p : bytes) : list bytes := chunks_within (length p) p.

(** A list of chunks as [chunks] cuts them; [first] allows an empty last one. *)
Fixpoint chunked (first : bool) (ps : list bytes) : Prop :=
  match ps with
  | [] => False
  | [p] => lenN p <= CHUNK_LEN ∧ (p ≠ [] ∨ first = true)
  | p :: ps => lenN p = CHUNK_LEN ∧ chunked false ps
  end.

Lemma chunk_len_pos : 0 < CHUNK_LEN.
Proof. done. Qed.

Ltac sizes := unfold RECORD_LEN, TAG_LEN, TAG_LENGTH, MAX_CHUNKS in *;
  pose proof chunk_len_pos as Hpos.

Lemma nonempty_len (p : bytes) : p ≠ [] ↔ 0 < lenN p.
Proof. destruct p; cbn; [naive_solver lia|]. split; [lia|done]. Qed.

Lemma chunks_within_chunked n p first :
  (length p <= n)%nat → p ≠ [] ∨ first = true →
  chunked first (chunks_within n p) ∧ concat (chunks_within n p) = p.
Proof.
  sizes. revert p first. induction n as [|n IH]; intros p first Hn Hp; cbn [chunks_within].
  { cbn. rewrite app_nil_r. split; [split; [lia|done]|done]. }
  destruct (N.ltb_spec CHUNK_LEN (lenN p)) as [H|H].
  - destruct (IH (drop (N.to_nat CHUNK_LEN) p) false) as [Hc Hd].
    { rewrite length_drop. lia. }
    { left. apply nonempty_len. rewrite length_drop. lia. }
    cbn [concat]. rewrite Hd, take_drop. split; [|done].
    cbn [chunked]. destruct (chunks_within n _) eqn:E; [done|].
    split; [|done]. rewrite length_take. lia.
  - cbn. rewrite app_nil_r. split; [split; [lia|done]|done].
Qed.

Lemma chunks_chunked p : chunked true (chunks p) ∧ concat (chunks p) = p.
Proof. apply chunks_within_chunked; [done|by right]. Qed.

(** The chunk a read of [CHUNK_LEN] bytes delivers. *)
Lemma chunked_read first q ps :
  chunked first (q :: ps) →
  take (N.to_nat CHUNK_LEN) (concat (q :: ps)) = q ∧
  drop (N.to_nat CHUNK_LEN) (concat (q :: ps)) = concat ps ∧
  lenN q <= CHUNK_LEN ∧ (q ≠ [] ∨ first = true) ∧ (ps = [] ∨ chunked false ps ∧ lenN q = CHUNK_LEN).
Proof.
  sizes. destruct ps as [|q' ps]; cbn [chunked]; intros [Hq H].
  - cbn. rewrite app_nil_r, take_ge_N, drop_ge_N by done. split_and!; [done..|by left].
  - cbn [concat]. rewrite take_app_len, drop_app_len by lia.
    split_and!; [done|done|lia| |by right]. left. apply nonempty_len. lia.
Qed.

Lemma chunked_nonempty q ps : chunked false (q :: ps) → q ≠ [].
Proof. intros H. destruct (chunked_read _ _ _ H) as (_ & _ & _ & [?|?] & _); done. Qed.

Lemma chunked_length ps : chunked false ps → (length ps <= length (concat ps))%nat.
Proof.
  induction ps as [|p ps IH]; intros H; [done|].
  pose proof (chunked_nonempty _ _ H) as Hp%nonempty_len.
  destruct (chunked_read _ _ _ H) as (_ & _ & _ & _ & [-> | [Hps _]]);
    cbn [length concat]; rewrite length_app; [lia|].
  specialize (IH Hps). lia.
Qed.

(** Chunking is unique. *)
Lemma chunked_unique first ps ks :
  chunked first ps → chunked first ks → concat ps = concat ks → ps = ks.
Proof.
  revert first ks. induction ps as [|p ps IH]; intros first [|k ks] Hp Hk E; [done..|].
  destruct (chunked_read _ _ _ Hp) as (Tp & Dp & _ & _ & Lp).
  destruct (chunked_read _ _ _ Hk) as (Tk & Dk & _ & _ & Lk).
  rewrite E in Tp, Dp. rewrite Tp in Tk. rewrite Dp in Dk. f_equal; [done|].
  destruct Lp as [-> | [Cp _]], Lk as [-> | [Ck _]]; [done| | |by eapply IH].
  - destruct ks as [|q ks]; [done|]. apply chunked_nonempty in Ck. by destruct q.
  - destruct ps as [|q ps]; [done|]. apply chunked_nonempty in Cp. by destruct q.
Qed.

(** * The sealing calls of a payload *)

(** Kind, counter and plaintext of each call. *)
Fixpoint seal_calls (counter : N) (ps : list bytes) : list (N * N * bytes) :=
  match ps with
  | [] => []
  | [p] => [(FINAL, counter, p)]
  | p :: ps => (DATA, counter, p) :: seal_calls (counter + 1) ps
  end.

Definition call_nonce (call : N * N * bytes) : bytes :=
  let '(kind, counter, _) := call in nonce counter kind.

Section record_laws.
Context {P : Primitives} {L : PrimitivesLaws P}.
Context (key : DerivedKey) (object_id header_hash : bytes).

Definition seal_call (call : N * N * bytes) : result CryptoError bytes :=
  let '(kind, counter, p) := call in
  c ← seal key (nonce counter kind) (chunk_aad object_id header_hash counter kind (lenN p)) p;
  Ok (frame kind c).

(** The reference payload of a plaintext: its chunks, each sealed once. *)
Definition payload (p : bytes) : result CryptoError (list bytes) :=
  collect seal_call (seal_calls 0 (chunks p)).

(** ** The loops stop *)

Lemma read_chunk_shrinks n buffer r k buffer' r' :
  read_chunk n buffer r = Ok (k, buffer', r') →
  (length (contents r') + N.to_nat k = length (contents r))%nat.
Proof.
  unfold read_chunk. intros H. inv_ok.
  match goal with H : read_up_to _ _ = Ok _ |- _ =>
    apply read_up_to_contents in H as [-> _] end.
  rewrite length_app. lia.
Qed.

Lemma read_payload_shrinks n r b r' :
  read_payload n r = Ok (b, r') →
  (length (contents r') + N.to_nat n = length (contents r))%nat.
Proof.
  unfold read_payload, read_exact. intros H. inv_ok.
  match goal with H : read_up_to _ _ = Ok _ |- _ =>
    apply read_up_to_contents in H as [-> ?] end.
  rewrite length_app. lia.
Qed.

Lemma bind_ext {E A B} (m : result E A) (f g : A → result E B) :
  (∀ a, m = Ok a → f a = g a) → (m ≫= f) = (m ≫= g).
Proof. destruct m; cbn; auto. Qed.

(** The source's loop has no fuel: any two amounts that cover the input give
    one result. *)
Lemma encrypt_loop_enough f g counter total len current next input output :
  (length (contents input) < f)%nat → (length (contents input) < g)%nat →
  encrypt_loop key object_id header_hash f counter total len current next input output =
  encrypt_loop key object_id header_hash g counter total len current next input output.
Proof.
  revert g counter total len current next input output.
  induction f as [|f IH]; intros [|g] counter total len current next input output Hf Hg;
    [lia..|]; cbn [encrypt_loop].
  apply bind_ext; intros _ _. apply bind_ext; intros [[n next'] input'] Hr.
  apply bind_ext; intros [sealed current'] _. apply bind_ext; intros o1 _.
  apply bind_ext; intros o2 _. apply read_chunk_shrinks in Hr.
  destruct (N.eqb_spec n 0); [done|]. apply IH; lia.
Qed.

Lemma decrypt_loop_enough f g counter total buffer input staging :
  (length (contents input) < f)%nat → (length (contents input) < g)%nat →
  decrypt_loop key object_id header_hash f counter total buffer input staging =
  decrypt_loop key object_id header_hash g counter total buffer input staging.
Proof.
  revert g counter total buffer input staging.
  induction f as [|f IH]; intros [|g] counter total buffer input staging Hf Hg;
    [lia..|]; cbn [decrypt_loop].
  apply bind_ext; intros _ _. apply bind_ext; intros [record input1] H1.
  apply bind_ext; intros len _. apply bind_ext; intros [ct input2] H2.
  apply bind_ext; intros [opened pt] _. apply bind_ext; intros input3 H3.
  apply bind_ext; intros st _. apply read_payload_shrinks in H1, H2.
  destruct (N.eqb_spec (byte_at 0 record) FINAL); [done|].
  apply Ok_inj in H3 as <-. apply IH; lia.
Qed.

(** ** Sealing *)

Lemma seal_call_total kind counter p :
  lenN p <= CHUNK_LEN → ∃ c, seal_call (kind, counter, p) = Ok (frame kind c) ∧
    lenN c = lenN p + TAG_LEN ∧
    seal key (nonce counter kind) (chunk_aad object_id header_hash counter kind (lenN p)) p = Ok c.
Proof.
  intros Hp. unfold seal_call.
  destruct (seal_total key (nonce counter kind)
    (chunk_aad object_id header_hash counter kind (lenN p)) p) as [c Hc].
  { unfold CHUNK_LEN, AEAD_MAX in *. lia. }
  exists c. rewrite Hc. split_and!; [done| |done]. by apply seal_length in Hc.
Qed.

Lemma seal_calls_cons counter p ps :
  ps ≠ [] → seal_calls counter (p :: ps) = (DATA, counter, p) :: seal_calls (counter + 1) ps.
Proof. by destruct ps. Qed.

Lemma seal_calls_total first counter ps :
  chunked first ps → ∃ frames, collect seal_call (seal_calls counter ps) = Ok frames.
Proof.
  revert first counter. induction ps as [|p ps IH]; intros first counter H; [done|].
  destruct (chunked_read _ _ _ H) as (_ & _ & Hp & _ & Hps).
  destruct Hps as [-> | [Hps _]].
  - cbn -[seal_call]. destruct (seal_call_total FINAL counter p Hp) as (c & -> & _). by eexists.
  - rewrite seal_calls_cons by (by intros ->). cbn -[seal_call].
    destruct (seal_call_total DATA counter p Hp) as (c & -> & _).
    destruct (IH false (counter + 1) Hps) as (fs & ->). by eexists.
Qed.

Lemma payload_opens counter first ps frames :
  (first = true → counter = 0) → chunked first ps →
  collect seal_call (seal_calls counter ps) = Ok frames →
  opens_as key object_id header_hash counter (concat frames) ps.
Proof.
  revert first counter frames. induction ps as [|p ps IH]; intros first counter frames Hf Hc H;
    [done|].
  destruct (chunked_read _ _ _ Hc) as (_ & _ & Hp & Hne & Hps).
  destruct Hps as [-> | [Hps Hfull]].
  - cbn -[seal_call] in H. destruct (seal_call_total FINAL counter p Hp) as (c & Ec & _ & Hs).
    rewrite Ec in H. apply Ok_inj in H as <-. cbn [concat]. rewrite app_nil_r.
    apply opens_final; [by apply open_seal|done|naive_solver].
  - rewrite seal_calls_cons in H by (by intros ->). cbn -[seal_call] in H.
    destruct (seal_call_total DATA counter p Hp) as (c & Ec & _ & Hs). rewrite Ec in H.
    inv_ok. cbn [concat]. apply opens_data; [by apply open_seal|done|].
    by eapply (IH false).
Qed.

(** One turn of the writing loop on a buffer that starts with [p]. *)
Lemma seal_buffer kind counter p buffer :
  lenN p <= CHUNK_LEN → take (length p) buffer = p → lenN buffer = RECORD_LEN →
  ∃ c buffer',
    seal_call (kind, counter, p) = Ok (frame kind c) ∧
    seal_in_place key (nonce counter kind)
      (chunk_aad object_id header_hash counter kind (lenN p)) buffer (lenN p)
      = Ok (lenN c, buffer') ∧
    take (N.to_nat (lenN c)) buffer' = c ∧ lenN buffer' = RECORD_LEN.
Proof.
  intros Hp Hb Hl. destruct (seal_call_total kind counter p Hp) as (c & Ec & Lc & Hs).
  sizes. rewrite <- (take_drop (length p) buffer), Hb in Hl |- *.
  rewrite length_app in Hl.
  exists c, (c ++ drop 16 (drop (length p) buffer)). split_and!; [done| | |].
  - rewrite (seal_in_place_seal _ _ _ _ (lenN p) p (drop (length p) buffer));
      [|done|done|unfold TAG_LENGTH; lia].
    rewrite Hs. cbn [mbind result_mbind result_bind]. by rewrite Lc.
  - apply take_app_len. lia.
  - rewrite length_app, (length_drop _ 16). lia.
Qed.

(** Both writes of a record. *)
Lemma write_frame kind c w :
  accepting w →
  ∃ w1 w2, write_all (byte_of kind :: u32be (lenN c)) w = Ok w1 ∧ write_all c w1 = Ok w2 ∧
           w2.(written) = w.(written) ++ frame kind c ∧ accepting w2.
Proof.
  intros A. destruct (write_all_accepting (byte_of kind :: u32be (lenN c)) w A) as (w1 & H1 & E1 & A1).
  destruct (write_all_accepting c w1 A1) as (w2 & H2 & E2 & A2). exists w1, w2.
  split_and!; [done..| |done]. rewrite E2, E1. unfold frame. by rewrite <- app_assoc.
Qed.

Lemma read_chunk_live n buffer r :
  live r → ∃ r', let b := take (N.to_nat n) (contents r) in
    read_chunk n buffer r = Ok (lenN b, b ++ drop (length b) buffer, r') ∧
    live r' ∧ contents r' = drop (N.to_nat n) (contents r).
Proof.
  intros Lr. destruct (read_up_to_live n r Lr) as (r' & E & Lr' & C). exists r'.
  cbn zeta. unfold read_chunk. rewrite E. by split_and!.
Qed.

(** One turn of the writing loop, on a live source and an accepting sink. *)
Lemma encrypt_turn fuel counter total p current next input output :
  live input → accepting output → lenN p <= CHUNK_LEN →
  take (length p) current = p → lenN current = RECORD_LEN →
  let q := take (N.to_nat CHUNK_LEN) (contents input) in
  let kind := if lenN q =? 0 then FINAL else DATA in
  ∃ c current' input' output',
    seal_call (kind, counter, p) = Ok (frame kind c) ∧ lenN current' = RECORD_LEN ∧
    live input' ∧ contents input' = drop (N.to_nat CHUNK_LEN) (contents input) ∧
    accepting output' ∧ output'.(written) = output.(written) ++ frame kind c ∧
    encrypt_loop key object_id header_hash (S fuel) counter total (lenN p) current next input output
      = if MAX_CHUNKS <=? counter then Err ObjectTooLarge
        else if lenN q =? 0 then Ok (total + lenN p, output')
        else encrypt_loop key object_id header_hash fuel (counter + 1) (total + lenN p) (lenN q)
               (q ++ drop (length q) next) current' input' output'.
Proof.
  intros Li Ao Hlp Hp Lc q kind.
  destruct (read_chunk_live CHUNK_LEN next input Li) as (input' & Hr & Li' & Ci).
  fold q in Hr. cbn zeta in Hr.
  destruct (seal_buffer kind counter p current Hlp Hp Lc) as (c & b' & Es & Eb & Et & Lb).
  destruct (write_frame kind c output Ao) as (w1 & w2 & E1 & E2 & Ew & Aw).
  exists c, b', input', w2. split_and!; [done..|].
  cbn [encrypt_loop]. destruct (MAX_CHUNKS <=? counter); [done|].
  cbn [refuse_if]. rewrite bind_of_Ok, Hr, bind_of_Ok. cbn iota zeta. fold kind.
  rewrite Eb. cbn [map_err]. rewrite bind_of_Ok, Et, E1. cbn [map_err].
  rewrite bind_of_Ok, E2. cbn [map_err]. rewrite bind_of_Ok.
  unfold kind. by destruct (lenN q =? 0).
Qed.

Lemma encrypt_loop_seals ps : ∀ fuel first counter total p current next input output,
  (length ps < fuel)%nat → live input → accepting output →
  chunked first (p :: ps) → contents input = concat ps →
  take (length p) current = p → lenN current = RECORD_LEN → lenN next = RECORD_LEN →
  ∃ frames, collect seal_call (seal_calls counter (p :: ps)) = Ok frames ∧
    if counter + lenN ps <? MAX_CHUNKS
    then ∃ output',
      encrypt_loop key object_id header_hash fuel counter total (lenN p) current next input output
        = Ok (total + lenN (concat (p :: ps)), output') ∧
      output'.(written) = output.(written) ++ concat frames ∧ accepting output'
    else
      encrypt_loop key object_id header_hash fuel counter total (lenN p) current next input output
        = Err ObjectTooLarge.
Proof.
  induction ps as [|q ps IH];
    intros [|fuel] first counter total p current next input output Hf Li Ao Hc Hi Hp Lc Ln;
    [lia| |lia|]; destruct (chunked_read _ _ _ Hc) as (_ & _ & Hlp & _ & Hps);
    destruct (encrypt_turn fuel counter total p current next input output Li Ao Hlp Hp Lc)
      as (c & b' & input' & w & Es & Lb & Li' & Ci & Aw & Ew & ->); rewrite Hi in *.
  - cbn [concat] in *. rewrite take_nil in Es, Ew |- *. change (lenN [] =? 0) with true in Es, Ew |- *. cbn iota in Es, Ew |- *.
    exists [frame FINAL c]. cbn [concat]. rewrite !app_nil_r, N.add_0_r.
    split; [cbn -[seal_call]; by rewrite Es|].
    destruct (N.ltb_spec counter MAX_CHUNKS), (N.leb_spec MAX_CHUNKS counter); try lia; [|done].
    by exists w.
  - destruct Hps as [?|[Hps Hfull]]; [done|].
    destruct (chunked_read _ _ _ Hps) as (Tq & Dq & Hlq & _ & _). rewrite Tq in Es, Ew |- *. rewrite Dq in Ci.
    pose proof (proj1 (nonempty_len q) (chunked_nonempty _ _ Hps)) as Hq.
    replace (lenN q =? 0) with false in * by lia. cbn iota in *.
    destruct (IH fuel false (counter + 1) (total + lenN p) q (q ++ drop (length q) next) b' input' w)
      as (frames & Ef & Hout); [cbn in Hf; lia|done|done|done|done| | |done|].
    { by apply take_app_length. }
    { sizes. rewrite length_app, length_drop. lia. }
    exists (frame DATA c :: frames). split.
    { rewrite seal_calls_cons by done. cbn -[seal_call seal_calls]. by rewrite Es, Ef. }
    replace (counter + 1 + lenN ps) with (counter + lenN (q :: ps)) in Hout by (cbn [length]; lia).
    destruct (N.leb_spec MAX_CHUNKS counter).
    { by rewrite (proj2 (N.ltb_ge (counter + lenN (q :: ps)) _)) by lia. }
    destruct (_ <? MAX_CHUNKS); [|done]. destruct Hout as (w3 & E3 & Ew3 & Aw3).
    exists w3. rewrite E3. split_and!; [|by rewrite Ew3, Ew, <- app_assoc|done].
    f_equal. f_equal. cbn [concat]. rewrite !length_app. lia.
Qed.

(** ** Opening *)

Lemma read_payload_live n r :
  live r →
  if lenN (contents r) <? n then read_payload n r = Err TruncatedPayload
  else ∃ r', read_payload n r = Ok (take (N.to_nat n) (contents r), r') ∧
             live r' ∧ contents r' = drop (N.to_nat n) (contents r).
Proof.
  intros Lr. unfold read_payload. destruct (N.ltb_spec (lenN (contents r)) n) as [H|H].
  - by rewrite read_exact_short.
  - destruct (read_exact_live n r Lr H) as (r' & -> & H'). by exists r'.
Qed.

Lemma hashing_write_accepting b h :
  accepting h.(inner) → ∃ h', hashing_write_all b h = Ok h' ∧
    h'.(inner).(written) = h.(inner).(written) ++ b ∧
    h'.(hasher) = h.(hasher) ++ b ∧ accepting h'.(inner).
Proof.
  intros A. unfold hashing_write_all.
  destruct (write_loop_accepting hasher_update (λ h a b, eq_sym (app_assoc h a b))
    (λ h, app_nil_r h)
    b h.(inner).(written) h.(hasher) h.(inner).(schedule) A) as (w & -> & Hw & Aw).
  eexists. split_and!; [done|done|done|done].
Qed.

Lemma hashing_write_Ok b h h' :
  hashing_write_all b h = Ok h' →
  h'.(inner).(written) = h.(inner).(written) ++ b ∧ h'.(hasher) = h.(hasher) ++ b.
Proof.
  unfold hashing_write_all. intros H. inv_ok. cbn.
  match goal with H : write_loop _ _ _ _ _ = Ok _ |- _ =>
    apply write_loop_Ok in H as [? ?]; [done|..] end.
  - intros. apply (eq_sym (app_assoc _ _ _)).
  - apply app_nil_r.
Qed.

(** The shape of a record a reader accepts. *)
Definition record_shape (kind counter : N) (p : bytes) : Prop :=
  kind = DATA ∧ lenN p = CHUNK_LEN ∨
  kind = FINAL ∧ lenN p <= CHUNK_LEN ∧ (p ≠ [] ∨ counter = 0).

Lemma record_length_shape kind counter (p : bytes) :
  record_shape kind counter p → record_length kind (lenN p + TAG_LEN) counter = Ok (lenN p).
Proof.
  unfold record_shape, record_length. rewrite nonempty_len. intros H.
  assert (lenN p <= CHUNK_LEN) by lia. sizes. pass.
  replace (lenN p + 16 - 16) with (lenN p) by lia.
  destruct H as [(-> & ->) | (-> & _ & H)]; [done|].
  change (FINAL =? DATA) with false. change (FINAL =? FINAL) with true. cbn [andb].
  by replace ((0 <? lenN p) || (counter =? 0)) with true by lia.
Qed.

Lemma frame_head kind c rest :
  kind < 256 → lenN c < 4294967296 →
  take 5 (frame kind c ++ rest) = byte_of kind :: u32be (lenN c) ∧
  drop 5 (frame kind c ++ rest) = c ++ rest ∧
  byte_at 0 (byte_of kind :: u32be (lenN c)) = kind ∧
  unbe (drop 1 (byte_of kind :: u32be (lenN c))) = lenN c.
Proof.
  intros Hk Hc. unfold frame. cbn [app]. rewrite <- app_assoc. split_and!.
  - cbn [take]. by rewrite take_app_len by apply length_u32be.
  - cbn [drop]. by rewrite drop_app_len by apply length_u32be.
  - unfold byte_at. cbn [nth]. rewrite to_N_byte_of. by apply N.mod_small.
  - cbn [drop]. apply unbe_u32be. unfold u32_max. lia.
Qed.

Lemma frame_length kind c : length (frame kind c) = (5 + length c)%nat.
Proof. unfold frame. cbn [length]. by rewrite length_app, length_u32be. Qed.

(** What the reader does on a live source that holds less than one record. *)
Lemma decrypt_short fuel counter total buffer input staging kind c p t :
  live input → counter < MAX_CHUNKS → record_shape kind counter p → lenN c = lenN p + TAG_LEN →
  contents input ++ t = frame kind c → t ≠ [] →
  decrypt_loop key object_id header_hash (S fuel) counter total buffer input staging
    = Err TruncatedPayload.
Proof.
  intros Li Hm Hs Hc Hi Ht. apply nonempty_len in Ht.
  pose proof (f_equal length Hi) as Hlen. rewrite length_app, frame_length in Hlen.
  assert (kind < 256 ∧ lenN p <= CHUNK_LEN) as [Hk Hp].
  { unfold record_shape, DATA, FINAL in Hs. lia. }
  assert (lenN c < 4294967296) as Hc32 by (unfold CHUNK_LEN, TAG_LEN in *; lia).
  cbn [decrypt_loop]. rewrite (proj2 (N.leb_gt _ _) Hm). cbn [refuse_if]. rewrite bind_of_Ok.
  pose proof (read_payload_live 5 input Li) as H5. destruct (N.ltb_spec (lenN (contents input)) 5).
  { by rewrite H5. }
  destruct H5 as (input1 & -> & Li1 & Ci1). rewrite bind_of_Ok.
  destruct (frame_head kind c [] Hk Hc32) as (Ft & Fd & Fk & Fl). rewrite app_nil_r, <- Hi in Ft, Fd.
  change (N.to_nat 5) with 5%nat in *. rewrite take_app_le in Ft by lia.
  rewrite drop_app_le, app_nil_r in Fd by lia. rewrite Ft, Fk, Fl, Hc. cbn zeta.
  rewrite record_length_shape by done. rewrite bind_of_Ok.
  pose proof (read_payload_live (lenN p + TAG_LEN) input1 Li1) as H6.
  rewrite Ci1, length_drop in H6. destruct (N.ltb_spec (N.of_nat (length (contents input) - 5)) (lenN p + TAG_LEN)).
  - by rewrite H6.
  - lia.
Qed.

(** The read that looks for bytes after the final record. *)
Lemma read_end input :
  live input → ∃ input', live input' ∧ contents input' = [] ∧
    ('(n, _, input) ← read_chunk 1 [Byte.x00] input;
     refuse_if (negb (n =? 0)) TrailingData;; Ok input) =
    (if bool_decide (contents input = []) then Ok input' else Err TrailingData).
Proof.
  intros Li. destruct (read_chunk_live 1 [Byte.x00] input Li) as (input' & Hr & Li' & Ci).
  cbn zeta in Hr. rewrite Hr, bind_of_Ok. destruct (contents input) as [|x b].
  - exists input'. split_and!; [done|by rewrite Ci, drop_nil|]. rewrite take_nil.
    by rewrite bool_decide_eq_true_2.
  - exists []. split_and!; [constructor|done|]. by rewrite bool_decide_eq_false_2.
Qed.

(** One turn of the reading loop on a record that opens. *)
Lemma decrypt_turn fuel counter total buffer input staging kind c p rest :
  live input → accepting staging.(inner) → counter < MAX_CHUNKS →
  record_shape kind counter p →
  open key (nonce counter kind) (chunk_aad object_id header_hash counter kind (lenN p)) c = Ok p →
  contents input = frame kind c ++ rest →
  ∃ buffer' input' staging',
    live input' ∧ contents input' = rest ∧ accepting staging'.(inner) ∧
    staging'.(inner).(written) = staging.(inner).(written) ++ p ∧
    staging'.(hasher) = staging.(hasher) ++ p ∧
    decrypt_loop key object_id header_hash (S fuel) counter total buffer input staging =
      if kind =? FINAL
      then if bool_decide (rest = []) then Ok (total + lenN p, staging') else Err TrailingData
      else decrypt_loop key object_id header_hash fuel (counter + 1) (total + lenN p)
             buffer' input' staging'.
Proof.
  intros Li Ao Hm Hs Ho Hi. pose proof (open_length _ _ _ _ _ Ho) as Hc.
  change TAG_LENGTH with TAG_LEN in Hc.
  assert (kind < 256 ∧ lenN p <= CHUNK_LEN) as [Hk Hp].
  { unfold record_shape, DATA, FINAL in Hs. lia. }
  assert (lenN c < 4294967296) as Hc32 by (unfold CHUNK_LEN, TAG_LEN in *; lia).
  pose proof (f_equal length Hi) as Hlen. rewrite length_app, frame_length in Hlen.
  destruct (frame_head kind c rest Hk Hc32) as (Ft & Fd & Fk & Fl). rewrite <- Hi in Ft, Fd.
  cbn [decrypt_loop]. rewrite (proj2 (N.leb_gt _ _) Hm). cbn [refuse_if]. rewrite bind_of_Ok.
  pose proof (read_payload_live 5 input Li) as H5.
  rewrite (proj2 (N.ltb_ge (lenN (contents input)) 5)) in H5 by lia.
  destruct H5 as (input1 & -> & Li1 & Ci1). rewrite bind_of_Ok.
  change (N.to_nat 5) with 5%nat in *. rewrite Fd in Ci1. rewrite Ft, Fk, Fl. cbn zeta.
  rewrite Hc, record_length_shape by done. rewrite bind_of_Ok, <- Hc.
  pose proof (read_payload_live (lenN c) input1 Li1) as H6. rewrite Ci1, length_app in H6.
  rewrite (proj2 (N.ltb_ge (N.of_nat (length c + length rest)) (lenN c))) in H6 by lia.
  destruct H6 as (input2 & -> & Li2 & Ci2). rewrite bind_of_Ok.
  rewrite drop_app_len in Ci2 by lia. rewrite take_app_len by lia.
  rewrite open_in_place_open by (unfold TAG_LEN, TAG_LENGTH in *; lia).
  rewrite Ho. cbn [mbind result_mbind result_bind map_err]. cbn zeta.
  rewrite <- (app_assoc p), take_app_len by lia.
  destruct (hashing_write_accepting p staging Ao) as (st' & Ew & Hw & Hh & Aw).
  destruct Hs as [(-> & _) | (-> & _)].
  - eexists _, input2, st'. change (DATA =? FINAL) with false. cbn iota. rewrite bind_of_Ok, Ew, bind_of_Ok. by split_and!.
  - change (FINAL =? FINAL) with true. cbn iota.
    destruct (read_end input2 Li2) as (input3 & Li3 & Ci3 & ->). rewrite Ci2.
    case_bool_decide as Hr.
    + exists buffer, input3, st'. rewrite bind_of_Ok, Ew, bind_of_Ok, Hr. by split_and!.
    + exists buffer, input2, st'. by split_and!.
Qed.

Lemma opens_as_shape counter s ps :
  opens_as key object_id header_hash counter s ps → chunked (counter =? 0) ps.
Proof.
  induction 1 as [counter c p _ Hp Hne|counter c p s ps _ Hp _ IH]; cbn [chunked].
  - split; [done|]. by rewrite N.eqb_eq.
  - destruct ps; [done|]. split; [done|]. by replace (counter + 1 =? 0) with false in IH by lia.
Qed.

(** Complete: a payload opens, however its bytes arrive. Anything after the
    final record is refused. *)
Lemma decrypt_loop_opens counter s ps : opens_as key object_id header_hash counter s ps →
  ∀ fuel total buffer input staging extra,
  (length ps <= fuel)%nat → counter + lenN ps <= MAX_CHUNKS →
  live input → accepting staging.(inner) → contents input = s ++ extra →
  ∃ staging',
    staging'.(inner).(written) = staging.(inner).(written) ++ concat ps ∧
    staging'.(hasher) = staging.(hasher) ++ concat ps ∧ accepting staging'.(inner) ∧
    decrypt_loop key object_id header_hash fuel counter total buffer input staging
      = if bool_decide (extra = []) then Ok (total + lenN (concat ps), staging')
        else Err TrailingData.
Proof.
  induction 1 as [counter c p Ho Hp Hne|counter c p s ps Ho Hp _ IH];
    intros [|fuel] total buffer input staging extra Hf Hm Li Ao Hi; cbn [length] in *; [lia| |lia|].
  - destruct (decrypt_turn fuel counter total buffer input staging FINAL c p extra)
      as (b' & input' & st & _ & _ & Ao' & Hw & Hh & ->); [done..|lia|by right|done|done|].
    exists st. cbn [concat]. rewrite app_nil_r. by split_and!.
  - rewrite <- app_assoc in Hi.
    destruct (decrypt_turn fuel counter total buffer input staging DATA c p (s ++ extra))
      as (b' & input' & st & Li' & Ci' & Ao' & Hw & Hh & ->); [done..|lia|by left|done|done|].
    change (DATA =? FINAL) with false. cbn iota.
    destruct (IH fuel (total + lenN p) b' input' st extra) as (st' & Hw' & Hh' & Ao2 & ->);
      [lia|lia|done..|].
    exists st'. rewrite Hw', Hh', Hw, Hh, <- !app_assoc. cbn [concat]. split_and!; [done..|].
    case_bool_decide; [|done]. f_equal. f_equal. rewrite length_app. lia.
Qed.

(** A payload that was cut anywhere is refused as truncated. *)
Lemma decrypt_loop_truncated counter s ps : opens_as key object_id header_hash counter s ps →
  ∀ fuel total buffer input staging missing,
  (length ps <= fuel)%nat → counter + lenN ps <= MAX_CHUNKS →
  live input → accepting staging.(inner) → contents input ++ missing = s → missing ≠ [] →
  decrypt_loop key object_id header_hash fuel counter total buffer input staging
    = Err TruncatedPayload.
Proof.
  induction 1 as [counter c p Ho Hp Hne|counter c p s ps Ho Hp _ IH];
    intros [|fuel] total buffer input staging missing Hf Hm Li Ao Hi Hmiss;
    cbn [length] in *; [lia| |lia|].
  - eapply decrypt_short; [done|lia|by right|by eapply open_length|done..].
  - destruct (decide (length (frame DATA c) <= length (contents input))%nat) as [Hlong|Hshort].
    + assert (∃ rest, contents input = frame DATA c ++ rest ∧ rest ++ missing = s) as (rest & Hr & Hs).
      { exists (drop (length (frame DATA c)) (contents input)).
        pose proof (f_equal (take (length (frame DATA c))) Hi) as E1.
        pose proof (f_equal (drop (length (frame DATA c))) Hi) as E2.
        rewrite take_app_le, take_app_length in E1 by done.
        rewrite drop_app_le, drop_app_length in E2 by done.
        split; [|done]. rewrite <- E1 at 1. by rewrite take_drop. }
      destruct (decrypt_turn fuel counter total buffer input staging DATA c p rest)
        as (b' & input' & st & Li' & Ci' & Ao' & _ & _ & ->); [done..|lia|by left|done|done|].
      change (DATA =? FINAL) with false. cbn iota.
      eapply IH; [lia|lia|done|done|by rewrite Ci'|done].
    + assert (contents input ++ take (length (frame DATA c) - length (contents input)) missing
        = frame DATA c) as Hi'.
      { pose proof (f_equal (take (length (frame DATA c))) Hi) as E1.
        rewrite take_app_length, take_app_ge in E1 by lia. done. }
      eapply decrypt_short; [done|lia|by left|by eapply open_length|done|].
      intros E. rewrite E, app_nil_r in Hi'. rewrite Hi' in Hshort. lia.
Qed.

Lemma read_payload_Ok n r b r' :
  live r → read_payload n r = Ok (b, r') →
  contents r = b ++ contents r' ∧ lenN b = n ∧ live r'.
Proof.
  unfold read_payload. intros Lr H. apply map_err_Ok_iff in H. by apply read_exact_Ok.
Qed.

Lemma record_length_Ok kind n counter len :
  record_length kind n counter = Ok len →
  n = len + TAG_LEN ∧
  (kind = DATA ∧ len = CHUNK_LEN ∨ kind = FINAL ∧ len <= CHUNK_LEN ∧ (0 < len ∨ counter = 0)).
Proof.
  unfold record_length. intros H. inv_ok. b2p. sizes.
  destruct ((kind =? DATA) && _) eqn:E1; [|destruct ((kind =? FINAL) && _) eqn:E2; [|done]];
    apply Ok_inj in H; b2p; lia.
Qed.

Lemma frame_of_record record c :
  lenN record = 5 → unbe (drop 1 record) = lenN c →
  record ++ c = frame (byte_at 0 record) c.
Proof.
  intros Hr Hc. destruct record as [|k l]; [done|]. cbn [drop] in Hc. unfold frame.
  unfold byte_at. cbn [nth app]. rewrite byte_of_to_N, <- Hc. unfold u32be.
  rewrite drop_0, (be_unbe_len 4); [done|]. cbn [length] in Hr. lia.
Qed.

(** What a turn of the reading loop that does not fail has read. *)
Lemma decrypt_turn_Ok fuel counter total buffer input staging n staging' :
  live input →
  decrypt_loop key object_id header_hash (S fuel) counter total buffer input staging
    = Ok (n, staging') →
  ∃ kind c p buffer' input1 staging1,
    counter < MAX_CHUNKS ∧
    (kind = DATA ∧ lenN p = CHUNK_LEN ∨
     kind = FINAL ∧ lenN p <= CHUNK_LEN ∧ (0 < lenN p ∨ counter = 0)) ∧
    open key (nonce counter kind) (chunk_aad object_id header_hash counter kind (lenN p)) c = Ok p ∧
    contents input = frame kind c ++ contents input1 ∧ live input1 ∧
    staging1.(inner).(written) = staging.(inner).(written) ++ p ∧
    staging1.(hasher) = staging.(hasher) ++ p ∧
    if kind =? FINAL then contents input1 = [] ∧ n = total + lenN p ∧ staging' = staging1
    else decrypt_loop key object_id header_hash fuel (counter + 1) (total + lenN p)
           buffer' input1 staging1 = Ok (n, staging').
Proof.
  intros Li H. cbn [decrypt_loop] in H. inv_ok.
  match goal with
  | H5 : read_payload 5 input = Ok (?record, ?input1), H6 : read_payload _ ?input1 = Ok (?c, ?i2),
    HL : record_length _ _ _ = Ok _, HO : open_in_place _ _ _ _ = Ok _,
    HE : _ = Ok ?input3, HW : hashing_write_all _ _ = Ok ?st,
    HR : _ = Ok (n, staging') |- _ =>
      match type of HE with context [read_chunk 1 _ i2] => idtac end;
      destruct (read_payload_Ok _ _ _ _ Li H5) as (Ci & L5 & Li1);
      destruct (read_payload_Ok _ _ _ _ Li1 H6) as (Ci1 & Lc & Li2);
      pose proof (frame_of_record record c L5 (eq_sym Lc)) as Hframe;
      exists (byte_at 0 record), c; set (kind := byte_at 0 record) in *;
      apply record_length_Ok in HL as [Hlen Hs]; rewrite <- Lc in Hlen;
      rewrite open_in_place_open in HO by (unfold TAG_LEN, TAG_LENGTH in *; lia);
      rename HE into Hend; rename HW into Hwrite; rename HR into Hrest; rename HO into Ho;
      rename i2 into input2; rename input3 into input3; rename st into staging1
  end.
  inv_ok. match goal with HO : open _ _ _ _ = Ok ?q |- _ =>
    rename HO into Ho; rename q into p end.
  pose proof (open_length _ _ _ _ _ Ho) as Lp.
  change TAG_LENGTH with TAG_LEN in Lp.
  match type of Hs with context [?a = CHUNK_LEN] => assert (a = lenN p) as -> by lia end.
  rewrite <- (app_assoc p), take_app_len in Hwrite by lia.
  apply hashing_write_Ok in Hwrite as [Hw Hh].
  rewrite Ci1, app_assoc, Hframe in Ci. exists p. b2p. destruct (kind =? FINAL) eqn:Ek.
  - exists buffer, input2, staging1. destruct (read_end input2 Li2) as (i & _ & _ & E). rewrite E in Hend.
    case_bool_decide; [|done]. apply Ok_inj in Hrest. simplify_eq. by split_and!.
  - eexists _, input2, staging1. simplify_eq. by split_and!.
Qed.

(** Sound: whatever the reader accepts from a live source is a payload, and
    what it staged is its chunks. *)
Lemma decrypt_loop_sound fuel : ∀ counter total buffer input staging n staging',
  live input →
  decrypt_loop key object_id header_hash fuel counter total buffer input staging = Ok (n, staging') →
  ∃ ps, opens_as key object_id header_hash counter (contents input) ps ∧
    counter + lenN ps <= MAX_CHUNKS ∧ n = total + lenN (concat ps) ∧
    staging'.(inner).(written) = staging.(inner).(written) ++ concat ps ∧
    staging'.(hasher) = staging.(hasher) ++ concat ps.
Proof.
  induction fuel as [|fuel IH]; intros counter total buffer input staging n staging' Li H; [done|].
  apply decrypt_turn_Ok in H
    as (kind & c & p & b' & i1 & st1 & Hm & Hs & Ho & Ci & Li1 & Hw & Hh & H); [|done].
  destruct Hs as [(-> & Lp) | (-> & Lp & Hne)].
  - change (DATA =? FINAL) with false in H. cbn iota in H.
    destruct (IH _ _ _ _ _ _ _ Li1 H) as (ps & Hps & Hn & -> & Hw' & Hh').
    exists (p :: ps). cbn [concat length]. rewrite Ci, Hw', Hh', Hw, Hh, <- !app_assoc.
    split_and!; [by apply opens_data|lia| |done|done]. rewrite length_app. lia.
  - change (FINAL =? FINAL) with true in H. cbn iota in H. destruct H as (Ce & -> & ->).
    exists [p]. cbn [concat length]. rewrite !app_nil_r, Ci, Ce, app_nil_r.
    split_and!; [apply opens_final; [done|done|]|lia|done..].
    by rewrite nonempty_len.
Qed.

(** ** Whole payloads *)

Lemma chunked_bounds first ps :
  chunked first ps →
  (lenN ps - 1) * CHUNK_LEN <= lenN (concat ps) <= lenN ps * CHUNK_LEN ∧
  (1 < lenN ps → (lenN ps - 1) * CHUNK_LEN < lenN (concat ps)).
Proof.
  revert first. induction ps as [|p ps IH]; intros first H; [done|].
  destruct (chunked_read _ _ _ H) as (_ & _ & Hp & _ & Hps).
  cbn [concat length]. rewrite length_app. destruct Hps as [-> | [Hps Hfull]].
  - cbn [concat length]. lia.
  - pose proof (IH false Hps) as [Hb Hb'].
    assert (0 < lenN ps) by (destruct ps; [done|cbn [length]; lia]).
    assert (0 < lenN (concat ps)).
    { pose proof (chunked_length _ Hps). lia. }
    destruct (decide (1 < lenN ps)) as [Hl|Hl]; [specialize (Hb' Hl)|]; nia.
Qed.

(** The chunk limit, in bytes: 2^48. *)
Definition MAX_PAYLOAD : N := MAX_CHUNKS * CHUNK_LEN.

Lemma chunks_limit p : lenN p <= MAX_PAYLOAD ↔ lenN (chunks p) <= MAX_CHUNKS.
Proof.
  destruct (chunks_chunked p) as [Hc Hp]. destruct (chunked_bounds _ _ Hc) as [Hb Hb'].
  rewrite Hp in *. unfold MAX_PAYLOAD. sizes.
  split; intros H; [|nia].
  destruct (decide (1 < lenN (chunks p))) as [Hl|Hl]; [specialize (Hb' Hl); nia|lia].
Qed.

Lemma encrypt_records_seals input output :
  live input → accepting output →
  ∃ frames, payload (contents input) = Ok frames ∧
    if lenN (contents input) <=? MAX_PAYLOAD
    then ∃ output', encrypt_records key object_id header_hash input output
                      = Ok (lenN (contents input), output') ∧
                    output'.(written) = output.(written) ++ concat frames ∧ accepting output'
    else encrypt_records key object_id header_hash input output = Err ObjectTooLarge.
Proof.
  intros Li Ao. unfold payload, encrypt_records.
  destruct (chunks_chunked (contents input)) as [Hc Hp].
  pose proof (chunks_limit (contents input)) as Hlim.
  destruct (chunks (contents input)) as [|q ps]; [done|].
  destruct (chunked_read _ _ _ Hc) as (Tq & Dq & Hq & _ & Hps). rewrite Hp in Tq, Dq.
  destruct (read_chunk_live CHUNK_LEN fresh_buffer input Li) as (input' & Hr & Li' & Ci').
  cbn zeta in Hr. rewrite Tq in Hr. rewrite Dq in Ci'. rewrite Hr, bind_of_Ok.
  destruct (encrypt_loop_seals ps (S (length (contents input'))) true 0 0 q
    (q ++ drop (length q) fresh_buffer) fresh_buffer input' output) as (frames & Hf & Ho);
    [|done..| | | |].
  - rewrite Ci'. destruct Hps as [-> | [Hps _]]; [cbn; lia|].
    pose proof (chunked_length _ Hps). lia.
  - by apply take_app_length.
  - unfold fresh_buffer. sizes. rewrite length_app, length_drop, length_replicate. lia.
  - unfold fresh_buffer. rewrite length_replicate. lia.
  - exists frames. split; [done|]. rewrite Hp, !N.add_0_l in Ho.
    replace (lenN (contents input) <=? MAX_PAYLOAD) with (lenN ps <? MAX_CHUNKS); [done|].
    cbn [length] in Hlim. apply eq_true_iff_eq. rewrite N.ltb_lt, N.leb_le. lia.
Qed.

Lemma decrypt_records_enough extra source staging :
  decrypt_records key object_id header_hash source staging =
  decrypt_loop key object_id header_hash (S (length (contents source)) + extra) 0 0 fresh_buffer
    source staging.
Proof. apply decrypt_loop_enough; lia. Qed.

Lemma decrypt_records_opens s ps source staging extra :
  opens_as key object_id header_hash 0 s ps → lenN ps <= MAX_CHUNKS →
  live source → accepting staging.(inner) → contents source = s ++ extra →
  ∃ staging',
    staging'.(inner).(written) = staging.(inner).(written) ++ concat ps ∧
    staging'.(hasher) = staging.(hasher) ++ concat ps ∧ accepting staging'.(inner) ∧
    decrypt_records key object_id header_hash source staging
      = if bool_decide (extra = []) then Ok (lenN (concat ps), staging') else Err TrailingData.
Proof.
  intros Ho Hm Ls As Hs. rewrite (decrypt_records_enough (length ps)).
  rewrite <- (N.add_0_l (lenN (concat ps))). eapply decrypt_loop_opens; [done|lia|lia|done..].
Qed.

Lemma decrypt_records_truncated s ps source staging missing :
  opens_as key object_id header_hash 0 s ps → lenN ps <= MAX_CHUNKS →
  live source → accepting staging.(inner) → contents source ++ missing = s → missing ≠ [] →
  decrypt_records key object_id header_hash source staging = Err TruncatedPayload.
Proof.
  intros Ho Hm Ls As Hs. rewrite (decrypt_records_enough (length ps)).
  eapply decrypt_loop_truncated; [done|lia|lia|done..].
Qed.

Lemma decrypt_records_sound source staging n staging' :
  live source →
  decrypt_records key object_id header_hash source staging = Ok (n, staging') →
  ∃ p, opens_as key object_id header_hash 0 (contents source) (chunks p) ∧
    lenN (chunks p) <= MAX_CHUNKS ∧ n = lenN p ∧
    staging'.(inner).(written) = staging.(inner).(written) ++ p ∧
    staging'.(hasher) = staging.(hasher) ++ p.
Proof.
  intros Ls H. apply decrypt_loop_sound in H as (ps & Ho & Hm & -> & Hw & Hh); [|done].
  exists (concat ps). assert (chunks (concat ps) = ps) as ->.
  { destruct (chunks_chunked (concat ps)) as [Hc Hp]. eapply chunked_unique; [done| |done].
    by apply (opens_as_shape _ _ _ Ho). }
  rewrite N.add_0_l in *. by split_and!.
Qed.

(** What sealing wrote opens to what was sealed. *)
Lemma payload_opens_chunks p frames :
  payload p = Ok frames →
  opens_as key object_id header_hash 0 (concat frames) (chunks p).
Proof. intros H. eapply payload_opens; [done|apply chunks_chunked|done]. Qed.

(** ** Nonces *)

Lemma nonce_inj c1 k1 c2 k2 :
  c1 < u64_bound → c2 < u64_bound → nonce c1 k1 = nonce c2 k2 → c1 = c2.
Proof.
  unfold nonce. intros H1 H2 E. apply app_inj_len_1 in E as [_ E]; [|done].
  apply app_inj_len_1 in E as [E _]; [|by rewrite !length_u64be]. by apply u64be_inj.
Qed.

Lemma seal_calls_counters counter ps call :
  call ∈ seal_calls counter ps → counter <= call.1.2 < counter + lenN ps.
Proof.
  revert counter. induction ps as [|p ps IH]; intros counter H; [by apply elem_of_nil in H|].
  destruct (decide (ps = [])) as [->|Hne].
  - apply list_elem_of_singleton in H as ->. cbn [fst snd length]. lia.
  - rewrite seal_calls_cons in H by done. cbn [length].
    apply elem_of_cons in H as [->|H]; [cbn [fst snd]; lia|]. apply IH in H. lia.
Qed.

Lemma seal_calls_nonces counter ps :
  counter + lenN ps <= u64_bound → NoDup (map call_nonce (seal_calls counter ps)).
Proof.
  revert counter. induction ps as [|p ps IH]; intros counter H; [constructor|].
  cbn [length] in H. destruct (decide (ps = [])) as [->|Hne]; [apply NoDup_singleton|].
  rewrite seal_calls_cons by done. cbn [map]. constructor; [|apply IH; lia].
  rewrite list_elem_of_fmap. intros (call & E & Hc). apply seal_calls_counters in Hc.
  destruct call as [[k c] q]. cbn [call_nonce fst snd] in *.
  apply nonce_inj in E; lia.
Qed.

Lemma seal_calls_plaintexts counter ps : map snd (seal_calls counter ps) = ps.
Proof.
  revert counter. induction ps as [|p ps IH]; intros c; [done|].
  destruct (decide (ps = [])) as [->|]; [done|].
  rewrite seal_calls_cons by done. cbn [map snd]. by rewrite IH.
Qed.

(** ** Properties *)

(** C40. A payload survives the trip: a source of at most 2^48 bytes, however it
    cuts them, is written as a payload that any reader of the same bytes opens
    to the same plaintext, length and hash; a longer one is refused, never
    written under a wrapped counter. *)
Theorem payload_roundtrip (input : reader) (output : writer) :
  live input → accepting output →
  if lenN (contents input) <=? MAX_PAYLOAD
  then ∃ output' sealed,
    encrypt_records key object_id header_hash input output = Ok (lenN (contents input), output') ∧
    output'.(written) = output.(written) ++ sealed ∧
    ∀ source staging, live source → contents source = sealed → accepting staging →
      ∃ staging',
        decrypt_records key object_id header_hash source (plaintext_hasher staging)
          = Ok (lenN (contents input), staging') ∧
        staging'.(inner).(written) = staging.(written) ++ contents input ∧
        finish staging' = hash [contents input]
  else encrypt_records key object_id header_hash input output = Err ObjectTooLarge.
Proof.
  intros Li Ao. destruct (encrypt_records_seals input output Li Ao) as (frames & Hf & H).
  destruct (N.leb_spec (lenN (contents input)) MAX_PAYLOAD) as [Hm|]; [|done].
  destruct H as (output' & He & Hw & _). exists output', (concat frames). split_and!; [done..|].
  intros source staging Ls Hs As. apply payload_opens_chunks in Hf.
  destruct (chunks_chunked (contents input)) as [_ Hp].
  destruct (decrypt_records_opens (concat frames) (chunks (contents input)) source
    (plaintext_hasher staging) [] Hf) as (st & Hw' & Hh & _ & ->);
    [by apply chunks_limit|done|done|by rewrite app_nil_r|].
  rewrite Hp in *. exists st. split_and!; [done|done|].
  unfold finish, hasher_finish, hash. rewrite Hh. cbn. by rewrite app_nil_r.
Qed.

(** C17. All or nothing: when the reader accepts a payload, what it staged is a
    plaintext whose chunks, cut in the one canonical way, each opened under
    the nonce and associated data of its own place. No other byte string that
    starts like it is accepted: cut anywhere it is refused as truncated, and
    with anything after it as trailing. *)
Theorem payload_all_or_nothing (source : reader) (staging : writer) n staging' :
  live source →
  decrypt_records key object_id header_hash source (plaintext_hasher staging) = Ok (n, staging') →
  ∃ p, staging'.(inner).(written) = staging.(written) ++ p ∧ n = lenN p ∧ lenN p <= MAX_PAYLOAD ∧
    opens_as key object_id header_hash 0 (contents source) (chunks p) ∧
    ∀ other sink extra, live other → accepting sink → extra ≠ [] →
      (contents other ++ extra = contents source →
       decrypt_records key object_id header_hash other (plaintext_hasher sink) = Err TruncatedPayload) ∧
      (contents other = contents source ++ extra →
       decrypt_records key object_id header_hash other (plaintext_hasher sink) = Err TrailingData).
Proof.
  intros Ls H. apply decrypt_records_sound in H as (p & Ho & Hm & -> & Hw & _); [|done].
  exists p. split_and!; [done|done|by apply chunks_limit|done|].
  intros other sink extra Lo As Hne. split; intros He.
  - by eapply decrypt_records_truncated.
  - destruct (decrypt_records_opens _ _ other (plaintext_hasher sink) extra Ho Hm Lo As He)
      as (st & _ & _ & _ & ->). by rewrite bool_decide_eq_false_2.
Qed.

(** No nonce repeats: the records a writer emits are one sealing call per
    chunk, in order, and no two calls of a payload share a nonce. *)
Theorem nonces_never_repeat (input : reader) (output output' : writer) (n : N) :
  live input → accepting output →
  encrypt_records key object_id header_hash input output = Ok (n, output') →
  let calls := seal_calls 0 (chunks (contents input)) in
  ∃ frames, collect seal_call calls = Ok frames ∧
    output'.(written) = output.(written) ++ concat frames ∧
    concat (map snd calls) = contents input ∧
    NoDup (map call_nonce calls).
Proof.
  intros Li Ao H calls. destruct (encrypt_records_seals input output Li Ao) as (frames & Hf & E).
  destruct (N.leb_spec (lenN (contents input)) MAX_PAYLOAD) as [Hm|]; [|congruence].
  destruct E as (o & He & Hw & _). rewrite He in H. apply Ok_inj in H. simplify_eq.
  exists frames. split_and!; [done|done| |].
  - unfold calls. rewrite seal_calls_plaintexts. apply chunks_chunked.
  - apply chunks_limit in Hm. apply seal_calls_nonces. unfold MAX_CHUNKS, u64_bound in *. lia.
Qed.
End record_laws.

(** * Witnesses *)
Module Samples.
Import Crypto.Toy.
Definition key : DerivedKey := {| derived_key := replicate 32 Byte.x02 |}.
Definition object_id : bytes := replicate 32 Byte.x0a.
Definition header_hash : bytes := replicate 32 Byte.x0b.
(** A source that dribbles and is interrupted; a sink that takes two bytes. *)
Definition source : reader := [Piece (text "he"); Interrupted; Piece (text "llo")].
Definition sink : writer := {| written := text "x"; schedule := [Accept 2; WInterrupted] |}.
Definition empty_sink : writer := {| written := []; schedule := [] |}.
Definition sealed : bytes :=
  match encrypt_records key object_id header_hash source empty_sink with
  | Ok (_, w) => w.(written)
  | Err _ => []
  end.
End Samples.

Lemma sample_source_live : live Samples.source ∧ accepting Samples.sink.
Proof. split; repeat constructor; done. Qed.

Lemma payload_roundtrip_witness :
  ∃ output' sealed,
    encrypt_records (P:=Crypto.Toy.primitives) Samples.key Samples.object_id Samples.header_hash
      Samples.source Samples.sink = Ok (5, output') ∧
    output'.(written) = text "x" ++ sealed.
Proof.
  destruct (payload_roundtrip (P:=Crypto.Toy.primitives) (L:=Crypto.Toy.primitives_laws) Samples.key Samples.object_id Samples.header_hash Samples.source
    Samples.sink (proj1 sample_source_live) (proj2 sample_source_live)) as (o & s & H1 & H2 & _).
  exists o, s. split; [exact H1|exact H2].
Defined.

Lemma payload_all_or_nothing_witness :
  decrypt_records (P:=Crypto.Toy.primitives) Samples.key Samples.object_id Samples.header_hash
    [Piece (take 20 Samples.sealed)] (plaintext_hasher Samples.empty_sink) = Err TruncatedPayload.
Proof.
  destruct (payload_all_or_nothing (P:=Crypto.Toy.primitives) (L:=Crypto.Toy.primitives_laws) Samples.key Samples.object_id
    Samples.header_hash [Piece Samples.sealed] Samples.empty_sink 5
    {| inner := {| written := text "hello"; schedule := [] |}; hasher := text "hello" |})
    as (p & _ & _ & _ & _ & H); [repeat constructor; vm_compute; discriminate|vm_compute; reflexivity|].
  apply (H [Piece (take 20 Samples.sealed)] Samples.empty_sink (drop 20 Samples.sealed)).
  - repeat constructor. vm_compute. discriminate.
  - constructor.
  - vm_compute. discriminate.
  - vm_compute. reflexivity.
Defined.

Lemma nonces_never_repeat_witness :
  NoDup (map call_nonce (seal_calls 0 (chunks (contents Samples.source)))).
Proof.
  destruct (encrypt_records (P:=Crypto.Toy.primitives) Samples.key Samples.object_id
    Samples.header_hash Samples.source Samples.sink) as [[n o]|e] eqn:E.
  - destruct (nonces_never_repeat (P:=Crypto.Toy.primitives) (L:=Crypto.Toy.primitives_laws) Samples.key Samples.object_id Samples.header_hash Samples.source
      Samples.sink o n (proj1 sample_source_live) (proj2 sample_source_live) E) as (f & _ & _ & _ & H).
    exact H.
  - vm_compute in E. discriminate E.
Defined.
