(* ===== verification/Object.v ===== *)
(** [hide-object/src/lib.rs]: containers. Writing ([encrypt],
    [encrypt_signed], [encrypt_inner]) and reading ([decrypt_to_staging],
    [recover_cek], [verify_signature]) over the codec of Codec.v, the keys of
    Crypto.v, the payload of Records.v and the signatures of Sign.v. *)
From S2P Require Import Prelude Cbor Format Sign Crypto Stream Records Codec.
Local Open Scope N_scope.

Definition MAX_SIGNED_INPUT : N := 1073741824.
Definition SIGNING_CONTEXT : bytes := text "HIDE/1.0 container".
Definition LEGACY_SIGNING_CONTEXT : bytes := text "HIDE/0.5 container".

(** The last two exist only with the feature [test-vectors]. *)
Inductive SignaturePlacement := Public | Confidential | Stripped | LegacyPublic.

#[export] Instance SignaturePlacement_eq_dec : EqDecision SignaturePlacement.
Proof. solve_decision. Defined.

Record ObjectMaterial := { cek : ContentKey; material_id : bytes; payload_salt : bytes }.

(** The wire features a writer may be asked for; production writers use
    [default_shape]. *)
Record VectorShape := {
  shape_minor : N;
  header_extensions : list Extension;
  leading_stanzas : list Stanza;
}.

Definition default_shape : VectorShape :=
  {| shape_minor := CURRENT_MINOR; header_extensions := []; leading_stanzas := [] |}.

(** ** What a signature commits to *)

(** A field with its length in front. *)
Definition sized (b : bytes) : bytes := u64be (lenN b) ++ b.

Definition transcript_stanza (s : Stanza) : bytes :=
  u64be (tag s) ++ u64be (lenN (fields s)) ++ concat (map sized (fields s)).

Definition transcript_extension (e : Extension) : bytes :=
  be 2 e.(ext_key) ++ sized e.(ext_value).

Definition legacy_stanza (s : RecipientStanza) : bytes :=
  s.(encapsulation) ++ s.(wrapped_cek).

Definition legacy_transcript (header : ProtectedHeader) (metadata_base plaintext_hash : bytes)
    (plaintext_len : N) : bytes :=
  text "HIDE/0.5 transcript" ++ be 2 Format.SUITE ++ header.(object_id)
    ++ u64be (lenN header.(recipients))
    ++ concat (map legacy_stanza (omap as_xwing header.(recipients)))
    ++ sized metadata_base ++ plaintext_hash ++ u64be plaintext_len.

Definition transcript (preamble : Preamble.Preamble) (header : ProtectedHeader)
    (metadata_base plaintext_hash : bytes) (plaintext_len : N) : bytes :=
  if Preamble.is_legacy preamble
  then legacy_transcript header metadata_base plaintext_hash plaintext_len
  else
    text "HIDE/1.0 transcript" ++ Preamble.signed_prefix preamble ++ be 2 Format.SUITE
      ++ header.(object_id)
      ++ u64be (lenN header.(recipients)) ++ concat (map transcript_stanza header.(recipients))
      ++ u64be (lenN header.(extensions)) ++ concat (map transcript_extension header.(extensions))
      ++ sized metadata_base ++ plaintext_hash ++ u64be plaintext_len.

Definition signing_context (preamble : Preamble.Preamble) : bytes :=
  if Preamble.is_legacy preamble then LEGACY_SIGNING_CONTEXT else SIGNING_CONTEXT.

Definition metadata_aad (object_id : bytes) : bytes :=
  text "HIDE/0.1 metadata" ++ object_id ++ be 2 Format.SUITE.

Section object.
Context {C : Cbor} {Sig : SignatureScheme} {P : Crypto.Primitives}.

Record VerifiedObject := {
  object_metadata : Metadata;
  plaintext_len : N;
  signer : option VK;
}.

Definition payload_key (cek : ContentKey) (object_id salt : bytes) : result CryptoError DerivedKey :=
  derive_key cek salt (text "HIDE/0.1 payload" ++ object_id).

Definition validate_recipients (recipients : list RecipientPublic) : result ObjectError unit :=
  refuse_if (bool_decide (recipients = []) || (MAX_RECIPIENTS <? lenN recipients))
    InvalidRecipients.

(** ** Writing *)

(** [preamble_for]: the legacy form, or the shape's minor with the flag. *)
Definition preamble_for (signer : option (SK * SignaturePlacement)) (shape : VectorShape)
    (length : N) : result FormatError Preamble.Preamble :=
  match signer with
  | Some (_, LegacyPublic) => Preamble.legacy_signed length
  | Some _ => Preamble.from_parts length shape.(shape_minor) FLAG_SIGNED
  | None => Preamble.from_parts length shape.(shape_minor) 0
  end.

(** What a signer must hold before signing: the whole plaintext, bounded. *)
Definition buffer_plaintext (signer : option (SK * SignaturePlacement)) (input : reader)
  : result ObjectError (bytes * reader) :=
  match signer with
  | None => Ok ([], input)
  | Some _ =>
      '(plaintext, input) ← map_err Io (read_up_to (MAX_SIGNED_INPUT + 1) input);
      refuse_if (MAX_SIGNED_INPUT <? lenN plaintext) ObjectTooLarge;;
      Ok (plaintext, input)
  end.

(** The signature stanza over the transcript. *)
Definition sign_header (identity : SK) (provisional : Preamble.Preamble) (header : ProtectedHeader)
    (base plaintext : bytes) : SignatureStanza :=
  let message := transcript provisional header base (hash [plaintext]) (lenN plaintext) in
  {| Codec.verifying_key := vk_to_bytes (Sign.verifying_key identity);
     signature := sign identity (signing_context provisional) message |}.

Definition set_signatures (h : ProtectedHeader) (l : list SignatureStanza) : ProtectedHeader :=
  {| object_id := h.(object_id); recipients := h.(recipients);
     encrypted_metadata := h.(encrypted_metadata); signatures := l;
     extensions := h.(extensions) |}.

Definition set_encrypted (h : ProtectedHeader) (b : bytes) : ProtectedHeader :=
  {| object_id := h.(object_id); recipients := h.(recipients);
     encrypted_metadata := b; signatures := h.(signatures);
     extensions := h.(extensions) |}.

Definition set_meta_signature (m : Metadata) (s : option SignatureStanza) : Metadata :=
  {| filename := m.(filename); media_type := m.(media_type); meta_signature := s;
     meta_extensions := m.(meta_extensions) |}.

(** Where the signature goes. *)
Definition place (placement : SignaturePlacement) (s : SignatureStanza)
    (h : ProtectedHeader) (m : Metadata) : ProtectedHeader * Metadata :=
  match placement with
  | Public | LegacyPublic => (set_signatures h (h.(signatures) ++ [s]), m)
  | Confidential => (h, set_meta_signature m (Some s))
  | Stripped => (h, m)
  end.

Definition encrypt_inner (input : reader) (output : writer) (metadata : Metadata)
    (material : ObjectMaterial) (stanzas : list RecipientStanza)
    (signer : option (SK * SignaturePlacement)) (shape : VectorShape)
  : result ObjectError (N * writer) :=
  let id := material.(material_id) in
  '(plaintext, input) ← buffer_plaintext signer input;
  metadata_key ← map_err Crypto (derive_key material.(cek) id (text "HIDE/0.1 metadata"));
  base ← map_err Format (Metadata.signing_base metadata);
  let header :=
    {| object_id := id; recipients := shape.(leading_stanzas) ++ map XWing stanzas;
       encrypted_metadata := []; signatures := []; extensions := shape.(header_extensions) |} in
  '(header, metadata) ←
    match signer with
    | None => Ok (header, metadata)
    | Some (identity, placement) =>
        provisional ← map_err Format (preamble_for signer shape 1);
        Ok (place placement (sign_header identity provisional header base plaintext) header metadata)
    end;
  final_metadata ← map_err Format (Metadata.encode metadata);
  encrypted ← map_err Crypto
      (seal metadata_key (replicate 12 Byte.x00) (metadata_aad id) final_metadata);
  let header := set_encrypted header encrypted in
  protected ← map_err Format (Header.encode header);
  sizing ← map_err Format (Outer.encode_header protected (replicate 32 Byte.x00));
  preamble ← map_err Format (preamble_for signer shape (lenN sizing));
  let preamble := Preamble.encode preamble in
  mac_key ← map_err Crypto (derive_key material.(cek) id (text "HIDE/0.1 header-mac"));
  let mac := Crypto.mac mac_key [preamble; protected] in
  output ← map_err Io (write_all preamble output);
  outer ← map_err Format (Outer.encode_header protected mac);
  output ← map_err Io (write_all outer output);
  output ← map_err Io (write_all material.(payload_salt) output);
  key ← map_err Crypto (payload_key material.(cek) id material.(payload_salt));
  let header_hash := hash [protected] in
  match signer with
  | Some _ => encrypt_records key id header_hash (slice_reader plaintext) output
  | None => encrypt_records key id header_hash input output
  end.

Definition encrypt_with_material (input : reader) (output : writer) (metadata : Metadata)
    (material : ObjectMaterial) (stanzas : list RecipientStanza) : result ObjectError (N * writer) :=
  encrypt_inner input output metadata material stanzas None default_shape.

(** The system's randomness, one draw per call in the order of the calls:
    content key, object id, salt, then one per recipient. *)
Definition draw_material (draw : nat → option bytes) : result ObjectError ObjectMaterial :=
  cek ← map_err Crypto (generate_content_key (draw 0%nat));
  id ← map_err Crypto (random_array (draw 1%nat));
  salt ← map_err Crypto (random_array (draw 2%nat));
  Ok {| cek := cek; material_id := id; payload_salt := salt |}.

Definition wrap_stanza (material : ObjectMaterial) (draw : nat → option bytes)
    (r : nat * RecipientPublic) : result CryptoError RecipientStanza :=
  w ← wrap_cek r.2 material.(cek) material.(material_id) (draw r.1);
  Ok {| encapsulation := w.(Crypto.encapsulation); wrapped_cek := w.(Crypto.wrapped_cek) |}.

Definition wrap_stanzas (material : ObjectMaterial) (draw : nat → option bytes)
    (recipients : list RecipientPublic) : result ObjectError (list RecipientStanza) :=
  map_err Crypto
    (collect (wrap_stanza material draw) (zip (seq 3 (length recipients)) recipients)).

Definition encrypt (draw : nat → option bytes) (input : reader) (output : writer)
    (recipients : list RecipientPublic) (metadata : Metadata) : result ObjectError (N * writer) :=
  validate_recipients recipients;;
  material ← draw_material draw;
  stanzas ← wrap_stanzas material draw recipients;
  encrypt_with_material input output metadata material stanzas.

Definition encrypt_signed (draw : nat → option bytes) (input : reader) (output : writer)
    (recipients : list RecipientPublic) (metadata : Metadata) (identity : SK)
    (placement : SignaturePlacement) : result ObjectError (N * writer) :=
  validate_recipients recipients;;
  material ← draw_material draw;
  stanzas ← wrap_stanzas material draw recipients;
  encrypt_inner input output metadata material stanzas (Some (identity, placement)) default_shape.

(** ** Reading *)

(** The first X-Wing stanza that unwraps to a key the header's MAC confirms. *)
Fixpoint recover_from (stanzas : list RecipientStanza) (secret : RecipientSecret)
    (object_id preamble protected mac : bytes) : result ObjectError ContentKey :=
  match stanzas with
  | [] => Err NoMatchingRecipient
  | s :: stanzas =>
      match unwrap_cek secret object_id s.(encapsulation) s.(wrapped_cek) with
      | Ok cek =>
          key ← map_err Crypto (derive_key cek object_id (text "HIDE/0.1 header-mac"));
          if is_ok (verify_mac key [preamble; protected] mac) then Ok cek
          else recover_from stanzas secret object_id preamble protected mac
      | Err _ => recover_from stanzas secret object_id preamble protected mac
      end
  end.

Definition recover_cek (secret : RecipientSecret) (header : ProtectedHeader)
    (preamble protected mac : bytes) : result ObjectError ContentKey :=
  recover_from (omap as_xwing header.(recipients)) secret header.(object_id) preamble protected mac.

Definition verify_signature (preamble : Preamble.Preamble) (header : ProtectedHeader)
    (metadata : Metadata) (plaintext_hash : bytes) (plaintext_len : N)
  : result ObjectError (option VK) :=
  let says_signed := Preamble.is_signed preamble in
  let check (stanza : SignatureStanza) :=
    refuse_if (negb says_signed) UnexpectedSignature;;
    identity ← map_err (λ _, InvalidSignature) (vk_from_bytes stanza.(Codec.verifying_key));
    base ← map_err Format (Metadata.signing_base metadata);
    map_err (λ _, InvalidSignature)
      (verify identity (signing_context preamble)
         (transcript preamble header base plaintext_hash plaintext_len) stanza.(signature));;
    Ok (Some identity) in
  match head header.(signatures), metadata.(meta_signature) with
  | Some _, Some _ => Err InvalidSignature
  | Some stanza, None | None, Some stanza => check stanza
  | None, None => if says_signed then Err MissingSignature else Ok None
  end.

Definition decrypt_to_staging (input : reader) (staging : writer) (secret : RecipientSecret)
  : result ObjectError (VerifiedObject * writer) :=
  '(preamble_bytes, input) ← map_err Io (read_exact PREAMBLE_LEN input);
  preamble ← map_err Format (Preamble.decode preamble_bytes);
  '(header_bytes, input) ← map_err Io (read_exact preamble.(Preamble.header_len) input);
  '(protected, mac) ← map_err Format (Outer.decode_header header_bytes);
  header ← map_err Format (Header.decode protected);
  refuse_if (Preamble.is_legacy preamble
             && (negb (bool_decide (header.(extensions) = []))
                 || existsb (λ s, bool_decide (as_xwing s = None)) header.(recipients)))
    (Format MalformedHeader);;
  cek ← recover_cek secret header preamble_bytes protected mac;
  metadata_key ← map_err Crypto (derive_key cek header.(object_id) (text "HIDE/0.1 metadata"));
  metadata_plaintext ← map_err Crypto
      (open metadata_key (replicate 12 Byte.x00) (metadata_aad header.(object_id))
         header.(encrypted_metadata));
  metadata ← map_err Format (Metadata.decode metadata_plaintext);
  refuse_if (Preamble.is_legacy preamble && negb (bool_decide (metadata.(meta_extensions) = [])))
    (Format InvalidMetadata);;
  '(salt, input) ← read_payload 16 input;
  key ← map_err Crypto (payload_key cek header.(object_id) salt);
  '(len, hasher) ← decrypt_records key header.(object_id) (hash [protected]) input
      (plaintext_hasher staging);
  let plaintext_hash := finish hasher in
  signer ← verify_signature preamble header metadata plaintext_hash len;
  Ok ({| object_metadata := metadata; plaintext_len := len; signer := signer |}, hasher.(inner)).
End object.

Arguments VerifiedObject : clear implicits.
Arguments VerifiedObject {Sig}.

(** * What a transcript determines *)

Lemma sized_code : prefix_code (λ b, lenN b < u64_bound) sized.
Proof.
  intros a b r s Ha Hb E. unfold sized in E. rewrite <- !app_assoc in E.
  apply app_inj_len_1 in E as [En E]; [|by rewrite !length_u64be].
  apply u64be_inj in En; [|done..]. apply app_inj_len_1 in E as [-> ->]; [done|lia].
Qed.

(** A stanza whose parts have their protocol sizes. *)
Definition stanza_sized (s : Stanza) : Prop :=
  match s with
  | XWing s => lenN s.(encapsulation) = ENCAPSULATION_LEN ∧ lenN s.(wrapped_cek) = WRAPPED_CEK_LEN
  | Unknown s => XWING_TAG < s.(unknown_tag) <= u16_max ∧ lenN s.(unknown_fields) < u64_bound ∧
                 Forall (λ f, lenN f < u64_bound) s.(unknown_fields)
  end.

Definition extension_sized (e : Extension) : Prop :=
  e.(ext_key) <= u16_max ∧ lenN e.(ext_value) < u64_bound.

Lemma stanza_sized_bounds s :
  stanza_sized s → tag s < u64_bound ∧ lenN (fields s) < u64_bound ∧
    Forall (λ f, lenN f < u64_bound) (fields s).
Proof.
  destruct s as [[e w]|[t fs]]; cbn [stanza_sized tag fields Codec.encapsulation
    Codec.wrapped_cek unknown_tag unknown_fields];
    unfold XWING_TAG, ENCAPSULATION_LEN, WRAPPED_CEK_LEN, u16_max, u64_bound.
  - intros [He Hw]. split_and!; [done|done|]. repeat constructor; lia.
  - intros (Ht & Hf & Hfs). split_and!; [lia|done|done].
Qed.

Lemma transcript_stanza_code : prefix_code stanza_sized transcript_stanza.
Proof.
  intros a b r s Ha Hb E. unfold transcript_stanza in E. rewrite <- !app_assoc in E.
  destruct (stanza_sized_bounds a Ha) as (Ta & La & Fa).
  destruct (stanza_sized_bounds b Hb) as (Tb & Lb & Fb).
  apply app_inj_len_1 in E as [Et E]; [|by rewrite !length_u64be].
  apply u64be_inj in Et; [|done..].
  apply (prefix_code_counted _ _ _ _ _ _ sized_code) in E as [Ef ->]; [|done..].
  split; [|done]. destruct a as [[e w]|[t fs]], b as [[e' w']|[t' fs']];
    cbn in Et, Ef, Ha, Hb; unfold XWING_TAG in *; try lia; congruence.
Qed.

Lemma transcript_extension_code : prefix_code extension_sized transcript_extension.
Proof.
  intros [k v] [k' v'] r s [Hk Hv] [Hk' Hv'] E. cbn [ext_key ext_value] in *.
  unfold transcript_extension in E. cbn [ext_key ext_value] in E. rewrite <- !app_assoc in E.
  apply app_inj_len_1 in E as [Ek E]; [|by rewrite !length_be].
  apply be_inj in Ek; [|unfold u16_max in *; cbn; lia..].
  apply sized_code in E as [-> ->]; [|done..]. by subst.
Qed.

Lemma legacy_stanza_code :
  prefix_code (λ s, stanza_sized (XWing s)) legacy_stanza.
Proof.
  apply (prefix_code_fixed _ _ 1168).
  - intros s [He Hw]. unfold legacy_stanza, ENCAPSULATION_LEN, WRAPPED_CEK_LEN in *.
    rewrite length_app. lia.
  - intros [e w] [e' w'] [He Hw] [He' Hw'] E. unfold legacy_stanza in E.
    cbn [Codec.encapsulation Codec.wrapped_cek] in *. apply app_inj_len_1 in E as [-> ->]; [done|].
    unfold ENCAPSULATION_LEN in *. lia.
Qed.

Section binding.
Context {C : Cbor} {CL : CborLaws C}.

Record header_sized (h : ProtectedHeader) : Prop := {
  sized_object_id : length h.(object_id) = 32%nat;
  sized_recipients : lenN h.(recipients) < u64_bound;
  sized_stanzas : Forall stanza_sized h.(recipients);
  sized_count : lenN h.(extensions) < u64_bound;
  sized_extensions : Forall extension_sized h.(extensions);
}.

Lemma check_extensions_sized prev l :
  check_extensions_from prev l = Ok tt → Forall extension_typed l → Forall extension_sized l.
Proof.
  revert prev. induction l as [|e l IH]; intros prev H T; [constructor|].
  inversion T; subst. cbn [check_extensions_from] in H. inv_ok. b2p.
  constructor; [|by eapply IH]. split; [done|]. unfold MAX_EXTENSION_LEN, u64_bound in *. lia.
Qed.

Lemma encode_stanza_sized s e : encode_stanza s = Ok e → stanza_typed s → stanza_sized s.
Proof.
  unfold encode_stanza. destruct s as [s|s]; cbn [stanza_typed stanza_sized]; intros H T; inv_ok; b2p.
  - split; lia.
  - unfold MAX_STANZA_ITEMS, u64_bound, XWING_TAG in *. split_and!; [lia|done|lia|].
    apply Forall_forall. intros f Hf.
    match goal with H : existsb _ _ = false |- _ =>
      pose proof (existsb_false_elem _ _ _ H Hf) end.
    b2p. unfold MAX_EXTENSION_LEN in *. lia.
Qed.

Lemma decoded_header_sized b h : Header.decode b = Ok h → header_sized h.
Proof.
  intros H. apply header_decode_inv in H as [[To Tr Te] H].
  unfold Header.encode, Header.encode_with_signatures in H. inv_ok. b2p.
  match goal with H : check_extensions _ = Ok _ |- _ => unfold check_extensions in H end.
  inv_ok. b2p. unfold MAX_RECIPIENTS, MAX_EXTENSIONS, u64_bound in *.
  split; [done|unfold u64_bound; lia| |unfold u64_bound; lia|by eapply check_extensions_sized].
  match goal with H : collect encode_stanza _ = Ok _ |- _ => apply collect_Ok_iff in H; rename H into Hst end.
  clear -Hst Tr. induction Hst; inversion Tr; subst; constructor; eauto using encode_stanza_sized.
Qed.

(** The header of a container a reader goes on with: decoded, and plain when
    the preamble is the legacy one. *)
Definition readable (p : Preamble.Preamble) (h : ProtectedHeader) : Prop :=
  Preamble.valid p ∧ (∃ b, Header.decode b = Ok h) ∧
  (Preamble.is_legacy p = true →
   h.(extensions) = [] ∧ Forall (λ s, is_Some (as_xwing s)) h.(recipients)).

Lemma xwing_only (l : list Stanza) :
  Forall (λ s, is_Some (as_xwing s)) l → map XWing (omap as_xwing l) = l.
Proof.
  induction 1 as [|[s|s] l [x Hx] _ IH]; [done| |done]. cbn. f_equal. exact IH.
Qed.

(** The end both transcripts share. *)
Lemma transcript_end_inj b c H K n m :
  lenN b < u64_bound → lenN c < u64_bound → length H = length K → n < u64_bound → m < u64_bound →
  sized b ++ H ++ u64be n = sized c ++ K ++ u64be m → b = c ∧ H = K ∧ n = m.
Proof.
  intros Hb Hc Hl Hn Hm E. apply sized_code in E as [-> E]; [|done..].
  apply app_inj_len_1 in E as [-> E]; [|done]. by apply u64be_inj in E as ->.
Qed.

Lemma signed_prefix_inj p q :
  Preamble.valid p → Preamble.valid q → Preamble.signed_prefix p = Preamble.signed_prefix q →
  Preamble.minor p = Preamble.minor q ∧ Preamble.flags p = Preamble.flags q.
Proof.
  intros [Mp Fp _] [Mq Fq _] E. unfold Preamble.signed_prefix, Preamble.encode in E.
  apply (f_equal (drop 8)) in E.
  assert (∀ a b, drop 8 (take 12 (MAGIC ++ [byte_of 0; byte_of a; byte_of 1; byte_of b] ++ u32be
    (Preamble.header_len p))) = [byte_of 0; byte_of a; byte_of 1; byte_of b]) as Hp by done.
  assert (∀ a b, drop 8 (take 12 (MAGIC ++ [byte_of 0; byte_of a; byte_of 1; byte_of b] ++ u32be
    (Preamble.header_len q))) = [byte_of 0; byte_of a; byte_of 1; byte_of b]) as Hq by done.
  rewrite Hp, Hq in E. unfold FLAG_SIGNED in *.
  assert (∀ a b, byte_of a = byte_of b → a < 256 → b < 256 → a = b) as Hb.
  { intros a b Eb Ha Hb. apply (f_equal Byte.to_N) in Eb. rewrite !to_N_byte_of in Eb.
    by rewrite !N.mod_small in Eb. }
  split; apply Hb; try lia; congruence.
Qed.

Lemma legacy_transcript_inj h k b c H K n m :
  header_sized h → header_sized k →
  Forall (λ s, is_Some (as_xwing s)) h.(recipients) →
  Forall (λ s, is_Some (as_xwing s)) k.(recipients) →
  lenN b < u64_bound → lenN c < u64_bound → length H = length K → n < u64_bound → m < u64_bound →
  legacy_transcript h b H n = legacy_transcript k c K m →
  h.(object_id) = k.(object_id) ∧ h.(recipients) = k.(recipients) ∧ b = c ∧ H = K ∧ n = m.
Proof.
  intros [Oh Rh Sh _ _] [Ok Rk Sk _ _] Xh Xk Hb Hc Hl Hn Hm E. unfold legacy_transcript in E.
  apply app_inv_head in E. apply app_inv_head in E.
  apply app_inj_len_1 in E as [Eo E]; [|by rewrite Oh].
  rewrite <- (xwing_only _ Xh), <- (xwing_only _ Xk) in *.
  set (xs := omap as_xwing h.(recipients)) in *. set (ys := omap as_xwing k.(recipients)) in *.
  assert (∀ l, omap as_xwing (map XWing l) = l) as Hx.
  { intros l. induction l as [|s l IH]; [done|]. cbn. f_equal. exact IH. }
  rewrite !Hx, !length_map in *.
  apply (prefix_code_counted _ _ _ _ _ _ legacy_stanza_code) in E as [-> E]; [| |done| |].
  - by apply transcript_end_inj in E as (-> & -> & ->).
  - done.
  - rewrite Forall_map in Sh. exact Sh.
  - rewrite Forall_map in Sk. exact Sk.
Qed.

Lemma modern_transcript_inj p q h k b c H K n m :
  Preamble.valid p → Preamble.valid q → header_sized h → header_sized k →
  Preamble.is_legacy p = false → Preamble.is_legacy q = false →
  lenN b < u64_bound → lenN c < u64_bound → length H = length K → n < u64_bound → m < u64_bound →
  transcript p h b H n = transcript q k c K m →
  Preamble.minor p = Preamble.minor q ∧ Preamble.flags p = Preamble.flags q ∧
  h.(object_id) = k.(object_id) ∧ h.(recipients) = k.(recipients) ∧
  h.(extensions) = k.(extensions) ∧ b = c ∧ H = K ∧ n = m.
Proof.
  intros Vp Vq [Oh Rh Sh Ch Xh] [Ok Rk Sk Ck Xk] Lp Lq Hb Hc Hl Hn Hm E.
  unfold transcript in E. rewrite Lp, Lq in E. apply app_inv_head in E.
  apply app_inj_len_1 in E as [Ep E].
  2:{ unfold Preamble.signed_prefix. rewrite !length_take.
      pose proof (Preamble.length_preamble_encode p). pose proof (Preamble.length_preamble_encode q).
      lia. }
  apply signed_prefix_inj in Ep as [Em Ef]; [|done..].
  apply app_inv_head in E. apply app_inj_len_1 in E as [Eo E]; [|by rewrite Oh].
  apply (prefix_code_counted _ _ _ _ _ _ transcript_stanza_code) in E as [Es E]; [|done..].
  apply (prefix_code_counted _ _ _ _ _ _ transcript_extension_code) in E as [Ex E]; [|done..].
  apply transcript_end_inj in E as (-> & -> & ->); [|done..]. by split_and!.
Qed.

Lemma transcript_inj (p q : Preamble.Preamble) (h k : ProtectedHeader)
    (b c H K : bytes) (n m : N) :
  readable p h → readable q k → lenN b < u64_bound → lenN c < u64_bound →
  length H = length K → n < u64_bound → m < u64_bound →
  transcript p h b H n = transcript q k c K m →
  Preamble.minor p = Preamble.minor q ∧ Preamble.flags p = Preamble.flags q ∧
  h.(object_id) = k.(object_id) ∧ h.(recipients) = k.(recipients) ∧
  h.(extensions) = k.(extensions) ∧ b = c ∧ H = K ∧ n = m.
Proof.
  intros (Vp & [bp Dp] & Lp) (Vq & [bq Dq] & Lq) Hb Hc Hl Hn Hm E.
  apply decoded_header_sized in Dp, Dq.
  destruct (Preamble.is_legacy p) eqn:Ep, (Preamble.is_legacy q) eqn:Eq.
  - destruct (Lp eq_refl) as [Xp Rp], (Lq eq_refl) as [Xq Rq].
    unfold transcript in E. rewrite Ep, Eq in E.
    apply legacy_transcript_inj in E as (Eo & Er & -> & -> & ->); [|done..].
    unfold Preamble.is_legacy in *. b2p. destruct Vp as [_ Fp _], Vq as [_ Fq _].
    destruct Fp as [Fp|[_ []]]; [|done]. destruct Fq as [Fq|[_ []]]; [|done].
    split_and!; congruence.
  - exfalso. unfold transcript in E. rewrite Ep, Eq in E. unfold legacy_transcript in E.
    apply app_inj_len_1 in E as [E _]; [|reflexivity]. vm_compute in E. discriminate E.
  - exfalso. unfold transcript in E. rewrite Ep, Eq in E. unfold legacy_transcript in E.
    apply app_inj_len_1 in E as [E _]; [|reflexivity]. vm_compute in E. discriminate E.
  - by apply (modern_transcript_inj p q h k b c H K n m).
Qed.

(** What a signature commits to: two containers a reader goes on with have
    one signed message only if they agree on the version and flags, the object
    id, every stanza with its type and boundaries, every extension, the
    metadata, the plaintext's hash and its length. No HIDE/0.5 message is also a
    HIDE/1.0 message. *)
Theorem transcript_binds (p q : Preamble.Preamble) (h k : ProtectedHeader)
    (b c H K : bytes) (n m : N) :
  readable p h → readable q k →
  lenN b <= MAX_METADATA_LEN → lenN c <= MAX_METADATA_LEN →
  length H = 32%nat → length K = 32%nat → n < u64_bound → m < u64_bound →
  transcript p h b H n = transcript q k c K m →
  Preamble.minor p = Preamble.minor q ∧ Preamble.flags p = Preamble.flags q ∧
  h.(object_id) = k.(object_id) ∧ h.(recipients) = k.(recipients) ∧
  h.(extensions) = k.(extensions) ∧ b = c ∧ H = K ∧ n = m.
Proof.
  intros Rp Rq Hb Hc HH HK Hn Hm.
  apply transcript_inj; try done; [unfold MAX_METADATA_LEN, u64_bound in *; lia..|lia].
Qed.
End binding.

(** * What an accepted container is *)

(** The one signature a container carries. *)
Definition only_signature (h : ProtectedHeader) (m : Metadata) (s : SignatureStanza) : Prop :=
  head h.(signatures) = Some s ∧ m.(meta_signature) = None ∨
  h.(signatures) = [] ∧ m.(meta_signature) = Some s.

Section sound.
Context {C : Cbor} {Sig : SignatureScheme} {P : Crypto.Primitives}.

Lemma recover_from_Ok stanzas secret id preamble protected mac cek :
  recover_from stanzas secret id preamble protected mac = Ok cek →
  ∃ s key, s ∈ stanzas ∧ unwrap_cek secret id s.(encapsulation) s.(wrapped_cek) = Ok cek ∧
    derive_key cek id (text "HIDE/0.1 header-mac") = Ok key ∧
    Crypto.mac key [preamble; protected] = mac.
Proof.
  induction stanzas as [|s stanzas IH]; [done|]. cbn [recover_from].
  destruct (unwrap_cek _ _ _ _) as [k|e] eqn:Eu; intros H.
  - inv_ok. match goal with H : derive_key _ _ _ = Ok ?key |- _ => rename H into Hd; rename key into key end.
    destruct (is_ok _) eqn:Ev.
    + apply Ok_inj in H as ->. apply is_ok_true_iff in Ev as [[] Ev]. apply verify_mac_Ok in Ev.
      exists s. eexists. split_and!; [by left|done|done|done].
    + destruct (IH H) as (s' & key & Hin & Hr). exists s', key. split; [by right|done].
  - destruct (IH H) as (s' & key & Hin & Hr). exists s', key. split; [by right|done].
Qed.

(** The signature check of a signature that covers this content. *)
Definition signs (preamble : Preamble.Preamble) (h : ProtectedHeader) (m : Metadata)
    (plaintext_hash : bytes) (n : N) (s : SignatureStanza) (id : VK) : Prop :=
  ∃ base, vk_from_bytes s.(Codec.verifying_key) = Ok id ∧ Metadata.signing_base m = Ok base ∧
    verify id (signing_context preamble) (transcript preamble h base plaintext_hash n) s.(signature)
      = Ok tt.

Lemma verify_signature_Ok_iff preamble h m hash n signer :
  verify_signature preamble h m hash n = Ok signer ↔
  match signer with
  | None => Preamble.is_signed preamble = false ∧ h.(signatures) = [] ∧ m.(meta_signature) = None
  | Some id => Preamble.is_signed preamble = true ∧
      ∃ s, only_signature h m s ∧ signs preamble h m hash n s id
  end.
Proof.
  unfold verify_signature, only_signature, signs. split.
  - intros H. destruct (head h.(signatures)) as [s|] eqn:Eh, m.(meta_signature) as [s'|] eqn:Em;
      [done| | |]; destruct (Preamble.is_signed preamble); cbn [negb refuse_if] in H; inv_ok; try done.
    + split; [done|]. eauto 10.
    + split; [done|]. apply head_None in Eh. eauto 10.
    + apply head_None in Eh. done.
  - destruct signer as [id|].
    + intros (Hs & s & [[Eh Em] | [Eh Em]] & base & Hk & Hb & Hv); rewrite Hs, Em.
      * rewrite Eh. cbn [negb refuse_if]. rewrite bind_of_Ok, Hk. cbn [map_err].
        rewrite bind_of_Ok, Hb. cbn [map_err]. by rewrite bind_of_Ok, Hv.
      * rewrite Eh. cbn [head negb refuse_if]. rewrite bind_of_Ok, Hk. cbn [map_err].
        rewrite bind_of_Ok, Hb. cbn [map_err]. by rewrite bind_of_Ok, Hv.
    + intros (-> & -> & ->). done.
Qed.

Context {CL : CborLaws C} {L : Crypto.PrimitivesLaws P}.

(** What came before the payload: the container's frame. *)
Record framed (input : reader) (preamble : Preamble.Preamble) (h : ProtectedHeader)
    (protected mac salt : bytes) (rest : reader) : Prop := {
  framed_readable : readable preamble h;
  framed_header : Header.decode protected = Ok h;
  framed_bytes : ∃ outer, Outer.encode_header protected mac = Ok outer ∧
    lenN outer = Preamble.header_len preamble ∧ lenN mac = 32 ∧ lenN salt = 16 ∧
    contents input = Preamble.encode preamble ++ outer ++ salt ++ contents rest;
  framed_rest : live rest;
}.

Lemma readable_checked preamble protected h :
  Preamble.valid preamble → Header.decode protected = Ok h →
  Preamble.is_legacy preamble
    && (negb (bool_decide (h.(extensions) = []))
        || existsb (λ s, bool_decide (as_xwing s = None)) h.(recipients)) = false →
  readable preamble h.
Proof.
  intros V H E. split_and!; [done|by eexists|]. intros El. rewrite El in E. cbn [andb] in E.
  apply orb_false_iff in E as [Ex Ey]. b2p. split; [done|].
  apply Forall_forall. intros s Hs. pose proof (existsb_false_elem _ _ _ Ey Hs) as Hx. cbn beta in Hx. b2p.
  by destruct (as_xwing s).
Qed.

(** What a reader asks of a header and metadata under the legacy preamble. *)
Definition legacy_form (preamble : Preamble.Preamble) (h : ProtectedHeader) (m : Metadata) : Prop :=
  Preamble.is_legacy preamble = true →
  h.(extensions) = [] ∧ Forall (λ s, is_Some (as_xwing s)) h.(recipients) ∧
  m.(meta_extensions) = [].

Lemma legacy_form_checks preamble h m :
  legacy_form preamble h m →
  Preamble.is_legacy preamble
    && (negb (bool_decide (h.(extensions) = []))
        || existsb (λ s, bool_decide (as_xwing s = None)) h.(recipients)) = false ∧
  Preamble.is_legacy preamble && negb (bool_decide (m.(meta_extensions) = [])) = false.
Proof.
  intros F. destruct (Preamble.is_legacy preamble) eqn:El; [|done].
  destruct (F El) as (-> & Fx & ->). split; [|done]. cbn.
  induction Fx as [|s l [x Hx] _ IH]; [done|]. cbn. by rewrite Hx.
Qed.

Lemma legacy_checks_form preamble h m :
  readable preamble h →
  Preamble.is_legacy preamble && negb (bool_decide (m.(meta_extensions) = [])) = false →
  legacy_form preamble h m.
Proof.
  intros (_ & _ & R) E El. destruct (R El). rewrite El in E. cbn [andb] in E. by b2p.
Qed.

Lemma decrypt_Ok input staging secret o staging' :
  live input →
  decrypt_to_staging input staging secret = Ok (o, staging') →
  ∃ preamble h protected mac salt rest cek key payload_key' hasher metadata_key m_plain,
    framed input preamble h protected mac salt rest ∧
    legacy_form preamble h o.(object_metadata) ∧
    recover_cek secret h (Preamble.encode preamble) protected mac = Ok cek ∧
    derive_key cek h.(object_id) (text "HIDE/0.1 header-mac") = Ok key ∧
    derive_key cek h.(object_id) (text "HIDE/0.1 metadata") = Ok metadata_key ∧
    open metadata_key (replicate 12 Byte.x00) (metadata_aad h.(object_id)) h.(encrypted_metadata)
      = Ok m_plain ∧
    Metadata.decode m_plain = Ok o.(object_metadata) ∧
    payload_key cek h.(object_id) salt = Ok payload_key' ∧
    decrypt_records payload_key' h.(object_id) (hash [protected]) rest (plaintext_hasher staging)
      = Ok (o.(plaintext_len), hasher) ∧
    staging' = hasher.(inner) ∧
    verify_signature preamble h o.(object_metadata) (finish hasher) o.(plaintext_len)
      = Ok o.(signer).
Proof.
  intros Li H. unfold decrypt_to_staging in H. inv_ok.
  match goal with
  | H1 : read_exact PREAMBLE_LEN input = Ok (?pb, ?i1), H2 : read_exact _ ?i1 = Ok (?hb, ?i2),
    H3 : read_payload 16 ?i2 = Ok (?sb, ?i3), HP : Preamble.decode ?pb = Ok ?p,
    HO : Outer.decode_header ?hb = Ok _, HH : Header.decode _ = Ok ?h,
    HL : Preamble.is_legacy ?p && (_ || _) = false |- _ =>
      destruct (read_exact_Ok _ _ _ _ Li H1) as (E1 & _ & L1);
      destruct (read_exact_Ok _ _ _ _ L1 H2) as (E2 & N2 & L2);
      destruct (read_payload_Ok _ _ _ _ L2 H3) as (E3 & N3 & L3);
      apply Preamble.preamble_decode_Ok in HP as [EP VP]; subst pb;
      apply outer_decode_inv in HO as [NM HO];
      pose proof (readable_checked _ _ _ VP HH HL) as HR
  end.
  match goal with HC : recover_cek _ ?h _ _ _ = Ok ?cek |- _ =>
    destruct (derive_key_total cek h.(object_id) (text "HIDE/0.1 header-mac")) as (key & Hk & _) end.
  do 12 eexists. split_and!;
    [|eapply legacy_checks_form; [exact HR|eassumption]|eassumption|exact Hk|eassumption..|done|
     eassumption].
  split; [done|done| |done]. eexists. split_and!; [eassumption|done|done|done|].
  by rewrite E1, E2, E3.
Qed.

(** ** Writing, then reading *)

(** A second content key that the same secret unwraps from the same header and
    that authenticates it too: a MAC collision across keys. *)
Definition second_key (secret : RecipientSecret) (h : ProtectedHeader)
    (preamble protected mac : bytes) (cek : ContentKey) : Prop :=
  ∃ s cek' key, s ∈ omap as_xwing h.(recipients) ∧
    unwrap_cek secret h.(object_id) s.(encapsulation) s.(wrapped_cek) = Ok cek' ∧ cek' ≠ cek ∧
    derive_key cek' h.(object_id) (text "HIDE/0.1 header-mac") = Ok key ∧
    Crypto.mac key [preamble; protected] = mac.

(** The header gives the secret two content keys under one MAC: two of its
    stanzas unwrap to different keys, and both authenticate it. *)
Definition two_keys (secret : RecipientSecret) (h : ProtectedHeader)
    (preamble protected mac : bytes) : Prop :=
  ∃ s s' cek cek' key key',
    s ∈ omap as_xwing h.(recipients) ∧ s' ∈ omap as_xwing h.(recipients) ∧ cek' ≠ cek ∧
    unwrap_cek secret h.(object_id) s.(encapsulation) s.(wrapped_cek) = Ok cek ∧
    unwrap_cek secret h.(object_id) s'.(encapsulation) s'.(wrapped_cek) = Ok cek' ∧
    derive_key cek h.(object_id) (text "HIDE/0.1 header-mac") = Ok key ∧
    derive_key cek' h.(object_id) (text "HIDE/0.1 header-mac") = Ok key' ∧
    Crypto.mac key [preamble; protected] = mac ∧ Crypto.mac key' [preamble; protected] = mac.

(** A second key beside one that is known to be right. *)
Lemma second_key_two secret h preamble protected mac cek s key :
  s ∈ omap as_xwing h.(recipients) →
  unwrap_cek secret h.(object_id) s.(encapsulation) s.(wrapped_cek) = Ok cek →
  derive_key cek h.(object_id) (text "HIDE/0.1 header-mac") = Ok key →
  Crypto.mac key [preamble; protected] = mac →
  second_key secret h preamble protected mac cek → two_keys secret h preamble protected mac.
Proof.
  intros Hs Hu Hd Hm (s' & cek' & key' & Hs' & Hu' & Hne & Hd' & Hm').
  by exists s, s', cek, cek', key, key'.
Qed.

Lemma recover_cek_finds secret h preamble protected mac cek key s :
  s ∈ omap as_xwing h.(recipients) →
  unwrap_cek secret h.(object_id) s.(encapsulation) s.(wrapped_cek) = Ok cek →
  derive_key cek h.(object_id) (text "HIDE/0.1 header-mac") = Ok key →
  Crypto.mac key [preamble; protected] = mac →
  recover_cek secret h preamble protected mac = Ok cek ∨
  second_key secret h preamble protected mac cek.
Proof.
  unfold recover_cek, second_key. intros Hin Hu Hd Hm.
  generalize dependent (omap as_xwing h.(recipients)). intros l Hin.
  induction l as [|s' l IH]; [by apply elem_of_nil in Hin|].
  cbn [recover_from]. destruct (unwrap_cek secret h.(object_id) s'.(encapsulation) s'.(wrapped_cek)) as [cek'|e] eqn:Eu.
  - destruct (derive_key_total cek' h.(object_id) (text "HIDE/0.1 header-mac")) as (key' & Hd' & _).
    rewrite Hd'. cbn [map_err]. rewrite bind_of_Ok.
    destruct (is_ok _) eqn:Ev.
    + apply is_ok_true_iff in Ev as [[] Ev]. apply verify_mac_Ok in Ev.
      destruct (decide (cek' = cek)) as [->|Hne]; [by left|right].
      exists s', cek', key'. split_and!; [by left|done..].
    + apply elem_of_cons in Hin as [->|Hin].
      * rewrite Hu in Eu. apply Ok_inj in Eu as <-. rewrite Hd in Hd'. apply Ok_inj in Hd' as <-.
        by rewrite (proj2 (verify_mac_Ok _ _ _) Hm) in Ev.
      * destruct (IH Hin) as [?|(s2 & c2 & k2 & Hs2 & Hr)]; [by left|right].
        exists s2, c2, k2. split; [by right|done].
  - apply elem_of_cons in Hin as [->|Hin]; [congruence|].
    destruct (IH Hin) as [?|(s2 & c2 & k2 & Hs2 & Hr)]; [by left|right].
    exists s2, c2, k2. split; [by right|done].
Qed.

(** Reading a container whose frame, header, metadata and payload are right
    leaves the verdict to its signature. *)
Lemma decrypt_reaches_signature source staging secret preamble h protected mac outer salt payload
    cek metadata_key m_plain m payload_key' p :
  live source → accepting staging →
  contents source = Preamble.encode preamble ++ outer ++ salt ++ payload →
  Preamble.valid preamble → legacy_form preamble h m →
  lenN outer = Preamble.header_len preamble → Outer.decode_header outer = Ok (protected, mac) →
  Header.decode protected = Ok h → lenN salt = 16 →
  recover_cek secret h (Preamble.encode preamble) protected mac = Ok cek →
  derive_key cek h.(object_id) (text "HIDE/0.1 metadata") = Ok metadata_key →
  open metadata_key (replicate 12 Byte.x00) (metadata_aad h.(object_id)) h.(encrypted_metadata)
    = Ok m_plain →
  Metadata.decode m_plain = Ok m →
  payload_key cek h.(object_id) salt = Ok payload_key' →
  opens_as payload_key' h.(object_id) (hash [protected]) 0 payload (chunks p) →
  lenN p <= MAX_PAYLOAD →
  ∃ staging', staging'.(written) = staging.(written) ++ p ∧
    decrypt_to_staging source staging secret
      = (signer ← verify_signature preamble h m (hash [p]) (lenN p);
         Ok ({| object_metadata := m; plaintext_len := lenN p; signer := signer |}, staging')).
Proof.
  intros Ls As Hc V F Hlen Ho Hh Hsalt Hr Hmk Hm Hmd Hpk Hp Hmax.
  destruct (legacy_form_checks _ _ _ F) as [Fh Fm]. unfold decrypt_to_staging.
  destruct (read_exact_app _ _ _ _ Ls Hc (Preamble.length_preamble_encode preamble))
    as (r1 & -> & L1 & C1). cbn [map_err]. rewrite bind_of_Ok, Preamble.preamble_decode_encode by done.
  cbn [map_err]. rewrite bind_of_Ok.
  destruct (read_exact_app _ _ _ _ L1 C1 Hlen) as (r2 & -> & L2 & C2). cbn [map_err].
  rewrite bind_of_Ok, Ho. cbn [map_err]. rewrite bind_of_Ok, Hh. cbn [map_err].
  rewrite bind_of_Ok, Fh. cbn [refuse_if]. rewrite bind_of_Ok, Hr, bind_of_Ok, Hmk.
  cbn [map_err]. rewrite bind_of_Ok, Hm. cbn [map_err]. rewrite bind_of_Ok, Hmd. cbn [map_err].
  rewrite bind_of_Ok, Fm. cbn [refuse_if]. rewrite bind_of_Ok. unfold read_payload.
  destruct (read_exact_app _ _ _ _ L2 C2 Hsalt) as (r3 & -> & L3 & C3). cbn [map_err].
  rewrite bind_of_Ok, Hpk. cbn [map_err]. rewrite bind_of_Ok.
  destruct (decrypt_records_opens _ _ _ _ _ r3 (plaintext_hasher staging) [] Hp)
    as (st & Hw & Hst & _ & E); [by apply chunks_limit|done|done|by rewrite app_nil_r|].
  rewrite E. destruct (chunks_chunked p) as [_ Hcp]. rewrite Hcp in *.
  cbn [bool_decide]. rewrite bool_decide_eq_true_2, bind_of_Ok by done.
  assert (finish st = hash [p]) as ->.
  { unfold finish, hasher_finish, hash. rewrite Hst. cbn. by rewrite app_nil_r. }
  exists st.(inner). by split.
Qed.

Context {SL : SignatureLaws Sig}.

(** The placements of the default build. *)
Definition production (signer : option (SK * SignaturePlacement)) : Prop :=
  match signer with Some (_, Stripped) | Some (_, LegacyPublic) => False | _ => True end.

Definition signer_key (signer : option (SK * SignaturePlacement)) : option VK :=
  match signer with Some (identity, _) => Some (Sign.verifying_key identity) | None => None end.

(** The minor and flags a writer puts in the preamble. *)
Definition written_minor (signer : option (SK * SignaturePlacement)) (shape : VectorShape) : N :=
  match signer with Some (_, LegacyPublic) => LEGACY_SIGNED_MINOR | _ => shape.(shape_minor) end.

Definition written_flags (signer : option (SK * SignaturePlacement)) : N :=
  match signer with Some (_, LegacyPublic) | None => 0 | Some _ => FLAG_SIGNED end.

(** The signer a reader will find, or why it will refuse. *)
Definition verdict (signer : option (SK * SignaturePlacement)) (shape : VectorShape)
  : result ObjectError (option VK) :=
  match signer with
  | Some (_, Stripped) => Err MissingSignature
  | Some (identity, _) => Ok (Some (Sign.verifying_key identity))
  | None => if shape.(shape_minor) =? LEGACY_SIGNED_MINOR then Err MissingSignature else Ok None
  end.

(** A shape within its Rust types; one the legacy reader's extra checks pass,
    where the writer uses the legacy preamble. *)
Record shape_typed (shape : VectorShape) : Prop := {
  typed_minor : shape.(shape_minor) < 256;
  typed_stanzas : Forall stanza_typed shape.(leading_stanzas);
  typed_header_extensions : Forall extension_typed shape.(header_extensions);
}.

Definition legacy_compatible (signer : option (SK * SignaturePlacement)) (shape : VectorShape)
    (metadata : Metadata) : Prop :=
  written_minor signer shape = LEGACY_SIGNED_MINOR →
  shape.(header_extensions) = [] ∧ Forall (λ s, is_Some (as_xwing s)) shape.(leading_stanzas) ∧
  metadata.(meta_extensions) = [].

Lemma production_verdict signer : production signer → verdict signer default_shape = Ok (signer_key signer).
Proof. by destruct signer as [[s []]|]. Qed.

Lemma production_compatible signer metadata :
  production signer → legacy_compatible signer default_shape metadata.
Proof. by destruct signer as [[s []]|]. Qed.

Lemma default_shape_typed : shape_typed default_shape.
Proof. by split. Qed.

Record material_sized (m : ObjectMaterial) : Prop := {
  material_cek : lenN m.(cek).(content_key) = KEY_LENGTH;
  material_object_id : length m.(material_id) = 32%nat;
  material_salt : lenN m.(payload_salt) = 16;
}.

(** What a writer makes of its inputs, in the terms a reader checks. *)
Record container_of (material : ObjectMaterial) (stanzas : list Stanza)
    (metadata : Metadata) (p : bytes) (v : result ObjectError (option VK)) (container : bytes)
    (preamble : Preamble.Preamble) (h : ProtectedHeader) (protected mac : bytes) : Prop := {
  of_bytes : ∃ outer payload key, container
      = Preamble.encode preamble ++ outer ++ material.(payload_salt) ++ payload ∧
    lenN outer = Preamble.header_len preamble ∧ Outer.decode_header outer = Ok (protected, mac) ∧
    payload_key material.(cek) h.(object_id) material.(payload_salt) = Ok key ∧
    opens_as key h.(object_id) (hash [protected]) 0 payload (chunks p);
  of_preamble : Preamble.valid preamble ∧
    ∀ m, unsigned_metadata m = metadata → legacy_form preamble h m;
  of_header : Header.decode protected = Ok h;
  of_object_id : h.(object_id) = material.(material_id);
  of_recipients : h.(recipients) = stanzas;
  of_mac : ∃ key, derive_key material.(cek) h.(object_id) (text "HIDE/0.1 header-mac") = Ok key ∧
    Crypto.mac key [Preamble.encode preamble; protected] = mac;
  of_metadata : ∃ key plain m,
    derive_key material.(cek) h.(object_id) (text "HIDE/0.1 metadata") = Ok key ∧
    open key (replicate 12 Byte.x00) (metadata_aad h.(object_id)) h.(encrypted_metadata) = Ok plain ∧
    Metadata.decode plain = Ok m ∧ unsigned_metadata m = metadata ∧
    verify_signature preamble h m (hash [p]) (lenN p) = v;
  of_length : lenN p <= MAX_PAYLOAD;
}.

Lemma buffer_plaintext_Ok signer input plaintext input' :
  live input → buffer_plaintext signer input = Ok (plaintext, input') →
  let source := match signer with Some _ => slice_reader plaintext | None => input' end in
  live source ∧ contents source = contents input ∧ (is_Some signer → plaintext = contents input).
Proof.
  intros Li H. unfold buffer_plaintext in H. destruct signer as [s|]; cbn zeta.
  - inv_ok. b2p. destruct (slice_reader_live plaintext) as [Ls Cs].
    match goal with H : read_up_to _ _ = Ok _ |- _ => rename H into Hr end.
    destruct (read_up_to_live (MAX_SIGNED_INPUT + 1) input Li) as (r & E & _). rewrite E in Hr.
    apply Ok_inj in Hr. injection Hr as H _.
    assert (plaintext = contents input) as ->; [|done].
    subst plaintext. apply take_ge_N. rewrite length_take in *. lia.
  - apply Ok_inj in H. injection H as <- <-. split_and!; [done|done|]. by intros [? ?].
Qed.

(** The preamble the transcript binds and the one that is written agree. *)
Lemma preamble_for_written signer shape n p :
  shape.(shape_minor) < 256 → preamble_for signer shape n = Ok p →
  Preamble.valid p ∧ Preamble.header_len p = n ∧
  Preamble.minor p = written_minor signer shape ∧ Preamble.flags p = written_flags signer.
Proof.
  unfold preamble_for, Preamble.legacy_signed, written_minor, written_flags, FLAG_SIGNED.
  intros Hm H. destruct signer as [[s []]|];
    apply Preamble.from_parts_Ok_iff in H as [-> V]; unfold LEGACY_SIGNED_MINOR in *;
    try lia; by split_and!.
Qed.

(** Every writer but the unsigned one says it is signed. *)
Lemma written_signed signer shape n p :
  shape.(shape_minor) < 256 → preamble_for signer shape n = Ok p →
  Preamble.is_signed p
    = match signer with None => shape.(shape_minor) =? LEGACY_SIGNED_MINOR | Some _ => true end.
Proof.
  intros Hm H. apply preamble_for_written in H as (_ & _ & Em & Ef); [|done].
  unfold Preamble.is_signed, Preamble.is_legacy. rewrite Em, Ef.
  destruct signer as [[s []]|]; cbn; by rewrite ?orb_true_r, ?orb_false_r.
Qed.

Lemma same_prefix p q :
  Preamble.minor p = Preamble.minor q → Preamble.flags p = Preamble.flags q →
  Preamble.signed_prefix p = Preamble.signed_prefix q.
Proof. intros E F. unfold Preamble.signed_prefix, Preamble.encode. by rewrite E, F. Qed.

(** The transcript reads only these parts of its arguments. *)
Lemma transcript_ext p q h k base hash n :
  Preamble.minor p = Preamble.minor q → Preamble.flags p = Preamble.flags q →
  h.(object_id) = k.(object_id) → h.(recipients) = k.(recipients) →
  h.(extensions) = k.(extensions) →
  transcript p h base hash n = transcript q k base hash n.
Proof.
  intros E F Eo Er Ex. unfold transcript, legacy_transcript, Preamble.is_legacy.
  by rewrite (same_prefix p q E F), E, Eo, Er, Ex.
Qed.

Lemma signing_base_placed m s : Metadata.signing_base (set_meta_signature m s) = Metadata.signing_base m.
Proof. done. Qed.

(** A signature made over the parts verifies over the container, in either
    place. *)
Lemma placed_signature_verifies identity placement shape n provisional preamble header h metadata
    m base p :
  placement ≠ Stripped → shape.(shape_minor) < 256 →
  header.(signatures) = [] → metadata.(meta_signature) = None →
  Metadata.signing_base metadata = Ok base →
  preamble_for (Some (identity, placement)) shape 1 = Ok provisional →
  preamble_for (Some (identity, placement)) shape n = Ok preamble →
  place placement (sign_header identity provisional header base p) header metadata = (h, m) →
  ∀ b, verify_signature preamble (set_encrypted h b) m (hash [p]) (lenN p)
    = Ok (Some (Sign.verifying_key identity)).
Proof.
  intros Hp Hs8 Hs Hm Hb Hq Hn Hpl b. apply verify_signature_Ok_iff.
  split; [by rewrite (written_signed _ _ _ _ Hs8 Hn)|].
  apply preamble_for_written in Hq as (_ & _ & Em' & Ef'); [|done].
  apply preamble_for_written in Hn as (_ & _ & Em & Ef); [|done].
  assert (Preamble.minor preamble = Preamble.minor provisional) as Em2 by congruence.
  assert (Preamble.flags preamble = Preamble.flags provisional) as Ef2 by congruence.
  exists (sign_header identity provisional header base p).
  assert (signing_context preamble = signing_context provisional) as Ec.
  { unfold signing_context, Preamble.is_legacy. by rewrite Em2. }
  assert (∀ k, k.(object_id) = header.(object_id) → k.(recipients) = header.(recipients) →
    k.(extensions) = header.(extensions) →
    verify (Sign.verifying_key identity) (signing_context preamble)
      (transcript preamble k base (hash [p]) (lenN p))
      (sign_header identity provisional header base p).(signature) = Ok tt) as Hv.
  { intros k Eo Er Ex. cbn [sign_header signature]. rewrite Ec.
    rewrite (transcript_ext preamble provisional k header) by done. apply verify_sign. }
  unfold only_signature, signs. destruct placement; try done; injection Hpl as <- <-.
  all: rewrite ?signing_base_placed.
  1,3: rewrite Hs; split; [by left|]; exists base; split_and!; [apply vk_from_to_bytes|done|by apply Hv].
  split; [right; by split|]. exists base. split_and!; [apply vk_from_to_bytes|done|by apply Hv].
Qed.

(** Where a writer put its signature. *)
Definition placed_as (signer : option (SK * SignaturePlacement)) (h : ProtectedHeader) (m : Metadata) : Prop :=
  match signer with
  | Some (_, (Public | LegacyPublic)) => (∃ s, h.(signatures) = [s]) ∧ m.(meta_signature) = None
  | Some (_, Confidential) => h.(signatures) = [] ∧ is_Some m.(meta_signature)
  | Some (_, Stripped) | None => h.(signatures) = [] ∧ m.(meta_signature) = None
  end.

(** The header and metadata of a writer, before its metadata is sealed. *)
Lemma placed_parts signer shape material stanzas metadata p header m :
  shape.(shape_minor) < 256 → metadata.(meta_signature) = None →
  let h0 := {| object_id := material.(material_id);
               recipients := shape.(leading_stanzas) ++ map XWing stanzas;
               encrypted_metadata := []; signatures := [];
               extensions := shape.(header_extensions) |} in
  ∀ base, Metadata.signing_base metadata = Ok base →
  match signer with
  | None => Ok (h0, metadata)
  | Some (identity, placement) =>
      provisional ← map_err Format (preamble_for signer shape 1);
      Ok (place placement (sign_header identity provisional h0 base p) h0 metadata)
  end = Ok (header, m) →
  header.(object_id) = material.(material_id) ∧
  header.(recipients) = shape.(leading_stanzas) ++ map XWing stanzas ∧
  header.(extensions) = shape.(header_extensions) ∧ unsigned_metadata m = metadata ∧
  placed_as signer header m ∧
  (∀ n preamble b, preamble_for signer shape n = Ok preamble →
     verify_signature preamble (set_encrypted header b) m (hash [p]) (lenN p)
       = verdict signer shape).
Proof.
  intros Hs8 Hm h0 base Hb H.
  assert (unsigned_metadata metadata = metadata) as Hu by (destruct metadata; cbn in *; by subst).
  destruct signer as [[identity placement]|].
  - inv_ok. match goal with H : preamble_for _ _ 1 = Ok ?q |- _ =>
      rename H into Hq; rename q into provisional end.
    destruct (place _ _ h0 metadata) as [h' m'] eqn:Hpl. simplify_eq.
    destruct (decide (placement = Stripped)) as [->|Hne].
    + injection Hpl as <- <-. split_and!; try done. intros n preamble b Hn.
      unfold verify_signature. cbn. rewrite Hm.
      by rewrite (written_signed _ _ _ _ Hs8 Hn).
    + assert (∀ n preamble b, preamble_for (Some (identity, placement)) shape n = Ok preamble →
        verify_signature preamble (set_encrypted header b) m (hash [p]) (lenN p)
          = verdict (Some (identity, placement)) shape) as Hv.
      { intros n preamble b Hn.
        rewrite (placed_signature_verifies identity placement shape n provisional preamble h0 header
          metadata m base p) by done. by destruct placement. }
      destruct placement; try done; injection Hpl as <- <-; (split_and!; try done);
        cbn; split_and?; by try eexists.
  - apply Ok_inj in H. simplify_eq. split_and!; try done.
    intros n preamble b Hn. unfold verify_signature. cbn.
    rewrite Hm, (written_signed _ _ _ _ Hs8 Hn). done.
Qed.

Lemma unsigned_metadata_typed m : metadata_typed (unsigned_metadata m) → metadata_typed m.
Proof. intros [Tf Tm Te]. by split. Qed.

Lemma outer_length protected m1 m2 a b :
  length m1 = length m2 → Outer.encode_header protected m1 = Ok a →
  Outer.encode_header protected m2 = Ok b → lenN a = lenN b.
Proof.
  unfold Outer.encode_header. intros Hl Ha Hb. inv_ok.
  pose proof (length_enc_bytes m1 m2 Hl). rewrite !length_app. lia.
Qed.

(** The metadata a header could carry was small enough to be read back. *)
Lemma sealed_metadata_reads h b key nonce aad m plain protected_bytes :
  Header.encode (set_encrypted h b) = Ok protected_bytes →
  seal key nonce aad plain = Ok b → metadata_typed m → Metadata.encode m = Ok plain →
  Metadata.decode plain = Ok m.
Proof.
  intros Hh Hs Tm He. apply metadata_decode_encode; [done|done|].
  unfold Header.encode, Header.encode_with_signatures in Hh. inv_ok. b2p.
  cbn [set_encrypted encrypted_metadata] in *. apply seal_length in Hs.
  unfold TAG_LENGTH, TAG_LEN in *. lia.
Qed.

(** The values a successful write went through. *)
Lemma encrypt_inner_Ok input output metadata material stanzas signer shape n output' :
  live input → accepting output → metadata.(meta_signature) = None → shape.(shape_minor) < 256 →
  encrypt_inner input output metadata material stanzas signer shape = Ok (n, output') →
  ∃ base header m plain sealed protected sizing preamble outer ek mk pk src w,
    Metadata.signing_base metadata = Ok base ∧
    header.(object_id) = material.(material_id) ∧
    header.(recipients) = shape.(leading_stanzas) ++ map XWing stanzas ∧
    header.(extensions) = shape.(header_extensions) ∧ unsigned_metadata m = metadata ∧
    placed_as signer header m ∧
    verify_signature preamble (set_encrypted header sealed) m (hash [contents input])
      (lenN (contents input)) = verdict signer shape ∧
    derive_key material.(cek) material.(material_id) (text "HIDE/0.1 metadata") = Ok ek ∧
    Metadata.encode m = Ok plain ∧
    seal ek (replicate 12 Byte.x00) (metadata_aad material.(material_id)) plain = Ok sealed ∧
    Header.encode (set_encrypted header sealed) = Ok protected ∧
    Outer.encode_header protected (replicate 32 Byte.x00) = Ok sizing ∧
    preamble_for signer shape (lenN sizing) = Ok preamble ∧
    derive_key material.(cek) material.(material_id) (text "HIDE/0.1 header-mac") = Ok mk ∧
    Outer.encode_header protected (Crypto.mac mk [Preamble.encode preamble; protected]) = Ok outer ∧
    payload_key material.(cek) material.(material_id) material.(payload_salt) = Ok pk ∧
    live src ∧ contents src = contents input ∧ accepting w ∧
    w.(written) = output.(written) ++ Preamble.encode preamble ++ outer ++ material.(payload_salt) ∧
    encrypt_records pk material.(material_id) (hash [protected]) src w = Ok (n, output').
Proof.
  intros Li Ao Hm Hp H. unfold encrypt_inner in H. inv_ok.
  match goal with
  | HB : buffer_plaintext _ _ = Ok (?l, ?l0), HM : _ = Ok (?h, ?m), HE : Metadata.encode ?m = Ok _,
    HB' : Metadata.signing_base _ = Ok ?base, HP : preamble_for _ _ _ = Ok ?preamble,
    HO : Outer.encode_header ?protected (Crypto.mac ?mk _) = Ok ?outer,
    W1 : write_all _ output = Ok ?w1, W2 : write_all ?outer ?w1 = Ok ?w2,
    W3 : write_all _ ?w2 = Ok ?w3, HS : seal _ _ _ _ = Ok ?sealed |- _ =>
      destruct (buffer_plaintext_Ok _ _ _ _ Li HB) as (Ls & Cs & Hl);
      destruct (write_all_Ok_accepting _ _ _ Ao W1) as (E1 & A1);
      destruct (write_all_Ok_accepting _ _ _ A1 W2) as (E2 & A2);
      destruct (write_all_Ok_accepting _ _ _ A2 W3) as (E3 & A3);
      destruct (placed_parts signer shape material stanzas metadata (contents input) h m Hp Hm base HB')
        as (Po & Pr & Px & Pu & Pa & Pv);
        [etransitivity; [|exact HM]; destruct signer; [by rewrite Hl by eauto|done]|];
      specialize (Pv _ _ sealed HP)
  end.
  do 14 eexists. split_and!; [eassumption|exact Po|exact Pr|exact Px|exact Pu|exact Pa|exact Pv|
    eassumption..|exact Ls|exact Cs|eassumption| |by destruct signer].
  rewrite E3, E2, E1, <- !app_assoc. done.
Qed.

Lemma encrypt_inner_writes input output metadata material stanzas signer shape n output' :
  live input → accepting output → metadata_typed metadata → metadata.(meta_signature) = None →
  material_sized material → shape_typed shape → legacy_compatible signer shape metadata →
  encrypt_inner input output metadata material stanzas signer shape = Ok (n, output') →
  n = lenN (contents input) ∧
  ∃ container preamble h protected mac, output'.(written) = output.(written) ++ container ∧
    container_of material (shape.(leading_stanzas) ++ map XWing stanzas) metadata (contents input)
      (verdict signer shape) container preamble h protected mac.
Proof.
  intros Li Ao Tm Hm [Hcek Hid Hsalt] [T8 Ts Tx] Hl H.
  destruct (encrypt_inner_Ok _ _ _ _ _ _ _ _ _ Li Ao Hm T8 H)
    as (base & header & m & plain & sealed & protected & sizing & preamble & outer & ek & mk & pk
        & src & w & _ & Po & Pr & Px & Pu & _ & Pv & Hek & Hpl & Hse & Hprot & Hsz & Hpre & Hmk & Hout
        & Hpk & Ls & Cs & Aw & Ew & Hrec).
  apply preamble_for_written in Hpre as (V & Hlen & Em & _); [|done].
  assert (lenN (Crypto.mac mk [Preamble.encode preamble; protected]) = 32) as Hmac
    by (unfold Crypto.mac; by rewrite hmac_length).
  destruct (encrypt_records_seals pk material.(material_id) (hash [protected]) src w Ls Aw)
    as (frames & Hf & Hr). rewrite Cs in *.
  destruct (N.leb_spec (lenN (contents input)) MAX_PAYLOAD) as [Hmax|]; [|congruence].
  destruct Hr as (w' & Er & Ew' & _). rewrite Er in Hrec. apply Ok_inj in Hrec. simplify_eq.
  split; [done|].
  eexists _, preamble, (set_encrypted header sealed), protected, _.
  split; [rewrite Ew', Ew, <- !app_assoc; reflexivity|].
  split; cbn [set_encrypted object_id recipients encrypted_metadata]; rewrite ?Po.
  - exists outer, (concat frames), pk. split_and!; [done| | |done|].
    + rewrite Hlen. eapply outer_length; [|exact Hout|exact Hsz].
      rewrite length_replicate. lia.
    + by apply outer_decode_encode.
    + by apply payload_opens_chunks.
  - split; [done|]. intros k Hk El. unfold Preamble.is_legacy in El. b2p.
    cbn [set_encrypted extensions recipients]. rewrite Pr, Px. rewrite <- Hk in Hl.
    destruct Hl as (-> & Fx & Ex); [congruence|]. split_and!; [done| |exact Ex].
    apply Forall_app. split; [done|]. by apply Forall_map, Forall_true.
  - apply header_decode_encode; [|done]. split; cbn [set_encrypted object_id recipients extensions].
    + by rewrite Po.
    + rewrite Pr. apply Forall_app. split; [done|]. apply Forall_map, Forall_true. done.
    + by rewrite Px.
  - done.
  - done.
  - by exists mk.
  - exists ek, plain, m. split_and!; [done|by apply open_seal| |done|done].
    eapply sealed_metadata_reads; [exact Hprot|exact Hse| |done].
    by apply unsigned_metadata_typed.
  - done.
Qed.

(** [getrandom] fills the arrays it is given. *)
Definition draws_sized (draw : nat → option bytes) : Prop :=
  ∀ b, (draw 0%nat = Some b → lenN b = KEY_LENGTH) ∧ (draw 1%nat = Some b → length b = 32%nat) ∧
       (draw 2%nat = Some b → lenN b = 16).

Lemma draw_material_sized draw m :
  draws_sized draw → draw_material draw = Ok m → material_sized m.
Proof.
  intros D H. unfold draw_material, generate_content_key, random_array in H. inv_ok.
  split; cbn [cek material_id payload_salt content_key]; by eapply D.
Qed.

Lemma wrap_stanzas_reach material draw recipients stanzas secret k :
  material_sized material → wrap_stanzas material draw recipients = Ok stanzas →
  public_key secret = Ok k → k ∈ recipients →
  ∃ s, s ∈ stanzas ∧
    unwrap_cek secret material.(material_id) s.(encapsulation) s.(wrapped_cek) = Ok material.(cek).
Proof.
  intros [Hcek _ _] H Hk Hin. unfold wrap_stanzas in H. inv_ok.
  match goal with H : collect _ _ = Ok _ |- _ => apply collect_Ok_iff in H; rename H into Hw end.
  apply list_elem_of_lookup in Hin as [i Hi].
  assert (zip (seq 3 (length recipients)) recipients !! i = Some (3 + i, k)%nat) as Hz.
  { apply lookup_zip_with_Some. exists (3 + i)%nat, k. split_and!; [done| |done].
    apply lookup_seq_lt. by eapply lookup_lt_Some. }
  destruct (Forall2_lookup_l _ _ _ _ _ Hw Hz) as (s & Hs & Hwrap).
  unfold wrap_stanza in Hwrap. cbn [fst snd] in Hwrap. inv_ok. eexists.
  split; [by eapply list_elem_of_lookup_2|]. cbn [Codec.encapsulation Codec.wrapped_cek].
  by eapply unwrap_wrap.
Qed.

(** A container, whatever its verdict, as a reader sees it. *)
Lemma container_reads material stanzas metadata p v container preamble h protected mac
    secret s source staging :
  material_sized material →
  container_of material stanzas metadata p v container preamble h protected mac →
  XWing s ∈ stanzas →
  unwrap_cek secret material.(material_id) s.(encapsulation) s.(wrapped_cek) = Ok material.(cek) →
  live source → accepting staging → contents source = container →
  (∃ m staging', staging'.(written) = staging.(written) ++ p ∧ unsigned_metadata m = metadata ∧
    decrypt_to_staging source staging secret
      = (id ← v; Ok ({| object_metadata := m; plaintext_len := lenN p; signer := id |}, staging'))) ∨
  second_key secret h (Preamble.encode preamble) protected mac material.(cek).
Proof.
  intros [_ _ Hsalt] [(outer & payload & pk & Hb & Hlen & Ho & Hpk & Hp) [V F] Hh Hi Hrs
    (mk & Hmk & Hmac) (ek & plain & m & Hek & Hop & Hmd & Hum & Hv) Hmax] Hs Hu Ls As Hc.
  rewrite Hb in Hc. rewrite <- Hi in Hu.
  assert (s ∈ omap as_xwing h.(recipients)) as Hx.
  { rewrite Hrs. apply list_elem_of_omap. by exists (XWing s). }
  destruct (recover_cek_finds secret h (Preamble.encode preamble) protected mac material.(cek) mk s)
    as [Hr|]; [done..| |by right]. left.
  destruct (decrypt_reaches_signature source staging secret preamble h protected mac outer
    material.(payload_salt) payload material.(cek) ek plain m pk p) as (st & Hw & E); try done.
  { by apply F. }
  rewrite Hv in E. by exists m, st.
Qed.

Lemma container_opens material stanzas metadata p id container preamble h protected mac
    secret s source staging :
  material_sized material →
  container_of material (map XWing stanzas) metadata p (Ok id) container preamble h protected mac →
  s ∈ stanzas →
  unwrap_cek secret material.(material_id) s.(encapsulation) s.(wrapped_cek) = Ok material.(cek) →
  live source → accepting staging → contents source = container →
  (∃ m staging', decrypt_to_staging source staging secret
      = Ok ({| object_metadata := m; plaintext_len := lenN p; signer := id |}, staging') ∧
    staging'.(written) = staging.(written) ++ p ∧ unsigned_metadata m = metadata) ∨
  second_key secret h (Preamble.encode preamble) protected mac material.(cek).
Proof.
  intros Hms Hc Hs Hu Ls As Hsrc.
  destruct (container_reads _ _ _ _ _ _ _ _ _ _ secret s source staging Hms Hc)
    as [(m & st & Hw & Hum & E)|]; [by apply list_elem_of_fmap_2|done..| |by right].
  left. exists m, st. by rewrite bind_of_Ok in E.
Qed.

Lemma container_two_keys material stanzas metadata p v container preamble h protected mac secret s :
  container_of material (map XWing stanzas) metadata p v container preamble h protected mac →
  s ∈ stanzas →
  unwrap_cek secret material.(material_id) s.(encapsulation) s.(wrapped_cek) = Ok material.(cek) →
  second_key secret h (Preamble.encode preamble) protected mac material.(cek) →
  two_keys secret h (Preamble.encode preamble) protected mac.
Proof.
  intros Hc Hs Hu. destruct (of_mac _ _ _ _ _ _ _ _ _ _ Hc) as (key & Hd & Hm).
  rewrite <- (of_object_id _ _ _ _ _ _ _ _ _ _ Hc) in Hu.
  apply (second_key_two _ _ _ _ _ _ s key); try done.
  rewrite (of_recipients _ _ _ _ _ _ _ _ _ _ Hc). apply list_elem_of_omap. exists (XWing s).
  split; [by apply list_elem_of_fmap_2|done].
Qed.

Definition encrypt_for (draw : nat → option bytes) (input : reader) (output : writer)
    (recipients : list RecipientPublic) (metadata : Metadata)
    (signer : option (SK * SignaturePlacement)) : result ObjectError (N * writer) :=
  match signer with
  | None => encrypt draw input output recipients metadata
  | Some (identity, placement) =>
      encrypt_signed draw input output recipients metadata identity placement
  end.

Lemma encrypt_for_writes draw input output recipients metadata signer n output' :
  live input → accepting output → metadata_typed metadata → metadata.(meta_signature) = None →
  draws_sized draw → production signer →
  encrypt_for draw input output recipients metadata signer = Ok (n, output') →
  ∃ material stanzas container preamble h protected mac,
    draw_material draw = Ok material ∧ material_sized material ∧
    wrap_stanzas material draw recipients = Ok stanzas ∧ n = lenN (contents input) ∧
    output'.(written) = output.(written) ++ container ∧
    container_of material (map XWing stanzas) metadata (contents input) (Ok (signer_key signer))
      container preamble h protected mac.
Proof.
  intros Li Ao Tm Hm D Hp H.
  assert (∃ material stanzas, draw_material draw = Ok material ∧
    wrap_stanzas material draw recipients = Ok stanzas ∧
    encrypt_inner input output metadata material stanzas signer default_shape = Ok (n, output'))
    as (material & stanzas & Hd & Hw & He).
  { unfold encrypt_for, encrypt, encrypt_signed, encrypt_with_material in H.
    destruct signer as [[identity placement]|]; inv_ok; by do 2 eexists. }
  pose proof (draw_material_sized _ _ D Hd) as Hms.
  destruct (encrypt_inner_writes _ _ _ _ _ _ _ _ _ Li Ao Tm Hm Hms default_shape_typed
    (production_compatible _ _ Hp) He) as (-> & container & preamble & h & protected & mac & Ew & Hc).
  rewrite (production_verdict _ Hp) in Hc.
  by exists material, stanzas, container, preamble, h, protected, mac.
Qed.

(** C1. Every recipient reads what was written: a container for these
    recipients, signed or not and wherever the signature is placed, opens under
    the secret of any of them, however its bytes arrive, to exactly the
    plaintext, the metadata and the signer it was made with. The one
    alternative is explicit: the secret also unwraps a second content key from
    this header and the header's MAC is the same under both. *)
Theorem container_roundtrip draw input output recipients metadata signer secret k n output' :
  live input → accepting output → metadata_typed metadata → metadata.(meta_signature) = None →
  draws_sized draw → production signer → public_key secret = Ok k → k ∈ recipients →
  encrypt_for draw input output recipients metadata signer = Ok (n, output') →
  n = lenN (contents input) ∧
  ∃ container preamble outer rest h protected mac c,
    output'.(written) = output.(written) ++ container ∧
    container = Preamble.encode preamble ++ outer ++ rest ∧
    Outer.decode_header outer = Ok (protected, mac) ∧ Header.decode protected = Ok h ∧
    draw 0%nat = Some c ∧
    ∀ source staging, live source → accepting staging → contents source = container →
    (∃ m staging', decrypt_to_staging source staging secret
        = Ok ({| object_metadata := m; plaintext_len := n; signer := signer_key signer |}, staging') ∧
      staging'.(written) = staging.(written) ++ contents input ∧ unsigned_metadata m = metadata) ∨
    second_key secret h (Preamble.encode preamble) protected mac {| content_key := c |}.
Proof.
  intros Li Ao Tm Hm D Hp Hk Hin H.
  destruct (encrypt_for_writes _ _ _ _ _ _ _ _ Li Ao Tm Hm D Hp H)
    as (material & stanzas & container & preamble & h & protected & mac & Hd & Hms & Hw & -> & Ew & Hc).
  split; [done|]. destruct (wrap_stanzas_reach _ _ _ _ _ _ Hms Hw Hk Hin) as (s & Hs & Hu).
  destruct (of_bytes _ _ _ _ _ _ _ _ _ _ Hc) as (outer & payload & pk & Hb & _ & Ho & _).
  unfold draw_material, generate_content_key, random_array in Hd. inv_ok.
  eexists _, preamble, outer, _, h, protected, mac, _.
  split_and!; [exact Ew|reflexivity|done|by eapply of_header|eassumption|].
  intros source staging Ls As Hsrc. exact (container_opens _ _ _ _ _ _ _ _ _ _ _ _ _ _ Hms Hc Hs Hu Ls As Hsrc).
Qed.

(** The values a successful read went through. *)
Lemma accepted_parts input staging secret o staging' :
  live input → decrypt_to_staging input staging secret = Ok (o, staging') →
  ∃ preamble h protected mac salt rest cek ek plain pk p,
    framed input preamble h protected mac salt rest ∧
    legacy_form preamble h o.(object_metadata) ∧
    recover_cek secret h (Preamble.encode preamble) protected mac = Ok cek ∧
    derive_key cek h.(object_id) (text "HIDE/0.1 metadata") = Ok ek ∧
    open ek (replicate 12 Byte.x00) (metadata_aad h.(object_id)) h.(encrypted_metadata)
      = Ok plain ∧
    Metadata.decode plain = Ok o.(object_metadata) ∧
    payload_key cek h.(object_id) salt = Ok pk ∧
    opens_as pk h.(object_id) (hash [protected]) 0 (contents rest) (chunks p) ∧
    lenN p <= MAX_PAYLOAD ∧
    staging'.(written) = staging.(written) ++ p ∧ o.(plaintext_len) = lenN p ∧
    verify_signature preamble h o.(object_metadata) (hash [p]) (lenN p) = Ok o.(signer).
Proof.
  intros Li H. destruct (decrypt_Ok _ _ _ _ _ Li H) as (preamble & h & protected & mac & salt & rest
    & cek & mk & pk & hs & ek & plain & Hf & Hl & Hr & Hmk & Hek & Hop & Hmd & Hpk & Hrec & -> & Hv).
  apply decrypt_records_sound in Hrec as (p & Ho & Hc & Hn & Hw & Hh); [|by eapply framed_rest].
  assert (finish hs = hash [p]) as Eh.
  { unfold finish, hasher_finish, hash. rewrite Hh. cbn. by rewrite app_nil_r. }
  rewrite Eh, Hn in Hv. apply chunks_limit in Hc.
  exists preamble, h, protected, mac, salt, rest, cek, ek, plain, pk, p. by split_and!.
Qed.

(** C2. What an accepted container proves: whenever a reader returns from a
    live source, the source is a preamble, a header with its MAC, a salt and a
    payload, nothing else; the MAC is right under a content key this secret
    unwraps from the header; the staged bytes are the payload's plaintext; and
    the object has a signer exactly when the preamble says it is signed, with
    one signature, which verifies over this header, this metadata and the
    hash and length of the staged bytes. *)
Theorem accepted_container_sound input staging secret o staging' :
  live input → decrypt_to_staging input staging secret = Ok (o, staging') →
  ∃ preamble h protected mac salt rest cek s mk pk p,
    framed input preamble h protected mac salt rest ∧
    s ∈ omap as_xwing h.(recipients) ∧
    unwrap_cek secret h.(object_id) s.(encapsulation) s.(wrapped_cek) = Ok cek ∧
    derive_key cek h.(object_id) (text "HIDE/0.1 header-mac") = Ok mk ∧
    Crypto.mac mk [Preamble.encode preamble; protected] = mac ∧
    payload_key cek h.(object_id) salt = Ok pk ∧
    opens_as pk h.(object_id) (hash [protected]) 0 (contents rest) (chunks p) ∧
    staging'.(written) = staging.(written) ++ p ∧ o.(plaintext_len) = lenN p ∧
    match o.(signer) with
    | None => Preamble.is_signed preamble = false ∧ h.(signatures) = [] ∧
              meta_signature o.(object_metadata) = None
    | Some id => Preamble.is_signed preamble = true ∧
        ∃ sg, only_signature h o.(object_metadata) sg ∧
              signs preamble h o.(object_metadata) (hash [p]) (lenN p) sg id
    end.
Proof.
  intros Li H. destruct (accepted_parts _ _ _ _ _ Li H) as (preamble & h & protected & mac & salt
    & rest & cek & ek & plain & pk & p & Hf & _ & Hr & _ & _ & _ & Hpk & Ho & _ & Hw & Hn & Hv).
  apply recover_from_Ok in Hr as (s & key & Hs & Hu & Hd & Hmac).
  apply verify_signature_Ok_iff in Hv.
  exists preamble, h, protected, mac, salt, rest, cek, s, key, pk, p. by split_and!.
Qed.
End sound.

(** * Witnesses *)
Module Samples.
Import Cbor.Reference.
Definition identity : SK (SignatureScheme := Hybrid.scheme (P := Sign.Toy.primitives)) :=
  Hybrid.from_seed (P := Sign.Toy.primitives) (replicate 32 Byte.x07).
Definition draw (i : nat) : option bytes :=
  Some (replicate (if (i =? 2)%nat then 16 else 32) (byte_of (N.of_nat i))).
Definition source : reader := [Interrupted; Piece (text "hel"); Piece (text "lo")].
Definition sink : writer := {| written := []; schedule := [Accept 7; WInterrupted] |}.
Abbreviation encrypted signer :=
  (encrypt_for (C := cbor) (Sig := Hybrid.scheme (P := Sign.Toy.primitives))
    (P := Crypto.Toy.primitives) draw source sink
    [Crypto.Samples.public; Crypto.Samples.public] default_metadata signer).
Definition signer : option (SK (SignatureScheme := Hybrid.scheme (P := Sign.Toy.primitives))
    * SignaturePlacement) := Some (identity, Confidential).
Definition written_of (r : result ObjectError (N * writer)) : writer :=
  match r with Ok (_, w) => w | Err _ => sink end.
Definition container : bytes := (written_of (encrypted signer)).(written).
Abbreviation opened :=
  (decrypt_to_staging (C := cbor) (Sig := Hybrid.scheme (P := Sign.Toy.primitives))
    (P := Crypto.Toy.primitives) [Piece container] sink Crypto.Samples.secret).

(** Two headers that differ in where a boundary lies. *)
Definition header_with (value : bytes) (tag : N) (fields : list bytes) : ProtectedHeader :=
  {| object_id := replicate 32 Byte.x01;
     recipients := [Unknown {| unknown_tag := tag; unknown_fields := fields |}];
     encrypted_metadata := replicate 16 Byte.x00; signatures := [];
     extensions := [{| ext_key := 70; ext_value := value |}] |}.
Definition preamble : Preamble.Preamble :=
  {| Preamble.header_len := 100; Preamble.minor := 1; Preamble.flags := FLAG_SIGNED |}.
End Samples.

Lemma sample_readable v t fs :
  is_ok (Header.encode (C := Cbor.Reference.cbor) (Samples.header_with v t fs)) = true → t <= u16_max →
  readable (C := Cbor.Reference.cbor) Samples.preamble (Samples.header_with v t fs).
Proof.
  intros H Ht. apply is_ok_true_iff in H as [b H]. split_and!; [| |done].
  - split; cbn; [lia|by right|unfold MAX_HEADER_LEN; lia].
  - exists b. apply (header_decode_encode (L := Cbor.Reference.cbor_laws)); [|done]. split; [done|by repeat constructor|].
    repeat constructor. cbn. unfold extension_typed, u16_max. cbn. lia.
Qed.

Lemma transcript_binds_witness :
  transcript Samples.preamble (Samples.header_with (text "ab") 9 [text "c"]) [] (replicate 32 Byte.x00) 5
  ≠ transcript Samples.preamble (Samples.header_with (text "a") 9 [text "bc"]) [] (replicate 32 Byte.x00) 5.
Proof.
  intros E. apply (transcript_binds (C := Cbor.Reference.cbor)) in E as (_ & _ & _ & E & _).
  - discriminate E.
  - apply sample_readable; [vm_compute; reflexivity|vm_compute; discriminate].
  - apply sample_readable; [vm_compute; reflexivity|vm_compute; discriminate].
  - vm_compute. discriminate.
  - vm_compute. discriminate.
  - reflexivity.
  - reflexivity.
  - reflexivity.
  - reflexivity.
Defined.

Lemma sample_draws : draws_sized Samples.draw.
Proof. intros b. split_and!; intros [= <-]; reflexivity. Qed.

Lemma sample_streams : live Samples.source ∧ accepting Samples.sink.
Proof. split; repeat constructor; done. Qed.

Lemma default_metadata_typed : metadata_typed default_metadata.
Proof. split; [done|done|constructor]. Qed.

Lemma sample_key :
  Crypto.public_key (P := Crypto.Toy.primitives) Crypto.Samples.secret = Ok Crypto.Samples.public.
Proof. reflexivity. Qed.

Lemma sample_encrypted : is_ok (Samples.encrypted Samples.signer) = true.
Proof. vm_compute. reflexivity. Qed.

Lemma sample_opened : is_ok Samples.opened = true.
Proof. vm_compute. reflexivity. Qed.

Lemma container_roundtrip_witness :
  ∃ output', Samples.encrypted Samples.signer = Ok (5, output').
Proof.
  destruct (proj1 (is_ok_true_iff _) sample_encrypted) as [[n o] E]. rewrite E.
  destruct (container_roundtrip (C := Cbor.Reference.cbor)
    (Sig := Hybrid.scheme (P := Sign.Toy.primitives)) (P := Crypto.Toy.primitives)
    (CL := Cbor.Reference.cbor_laws) (L := Crypto.Toy.primitives_laws)
    (SL := Hybrid.scheme_laws (L := Sign.Toy.primitives_laws))
    Samples.draw Samples.source Samples.sink [Crypto.Samples.public; Crypto.Samples.public]
    default_metadata Samples.signer Crypto.Samples.secret Crypto.Samples.public n o
    (proj1 sample_streams) (proj2 sample_streams) default_metadata_typed eq_refl sample_draws I
    sample_key (list_elem_of_here _ _) E) as [-> _].
  exists o. reflexivity.
Defined.

Lemma accepted_container_sound_witness :
  ∃ o w, Samples.opened = Ok (o, w) ∧ ∃ p, written w = p ∧ o.(plaintext_len) = lenN p.
Proof.
  destruct (proj1 (is_ok_true_iff _) sample_opened) as [[o w] E]. rewrite E.
  destruct (accepted_container_sound (C := Cbor.Reference.cbor)
    (Sig := Hybrid.scheme (P := Sign.Toy.primitives)) (P := Crypto.Toy.primitives)
    (L := Crypto.Toy.primitives_laws)
    [Piece Samples.container] Samples.sink Crypto.Samples.secret o w)
    as (_ & _ & _ & _ & _ & _ & _ & _ & _ & _ & p & _ & _ & _ & _ & _ & _ & _ & Hw & Hn & _).
  - repeat constructor. vm_compute. discriminate.
  - exact E.
  - exists o, w. split; [reflexivity|]. exists p. split; [exact Hw|exact Hn].
Defined.
