(* ===== verification/Forge.v ===== *)
(** [hide-object/src/lib.rs], the part built with the feature [test-vectors]:
    the writers of the frozen vectors, which choose every byte a production
    writer draws at random, and the forgers, which play a recipient who holds
    the content key and rewrites the container. The theorems say what a
    signature leaves to such a recipient. *)
From S2P Require Import Prelude Cbor Format Sign Crypto Stream Records Codec Object.
Local Open Scope N_scope.

(** What stops a forger: a refusal, or a slice past the end of the container,
    where the code panics. *)
Inductive Failure :=
| Refused (e : ObjectError)
| OutOfBounds.

#[export] Instance Failure_eq_dec : EqDecision Failure.
Proof. solve_decision. Defined.

(** [&container[from..to]], with [from <= to]. *)
Definition slice (container : bytes) (from to : N) : result Failure bytes :=
  refuse_if (lenN container <? to) OutOfBounds;;
  Ok (take (N.to_nat (to - from)) (drop (N.to_nat from) container)).

(** A [Vec<u8>] written to. *)
Definition vec (b : bytes) : writer := {| written := b; schedule := [] |}.

Section forge.
Context {C : Cbor} {Sig : SignatureScheme} {P : Crypto.Primitives}.

(** What every forger starts from: the container's head, opened. *)
Record Opened := {
  first : bytes;
  preamble : Preamble.Preamble;
  header_end : N;
  protected : bytes;
  header : ProtectedHeader;
  content : ContentKey;
}.

Definition open_head (container : bytes) (secret : RecipientSecret) : result Failure Opened :=
  first ← slice container 0 PREAMBLE_LEN;
  preamble ← map_err (λ e, Refused (Format e)) (Preamble.decode first);
  let header_end := PREAMBLE_LEN + preamble.(Preamble.header_len) in
  outer ← slice container PREAMBLE_LEN header_end;
  '(protected, mac) ← map_err (λ e, Refused (Format e)) (Outer.decode_header outer);
  header ← map_err (λ e, Refused (Format e)) (Header.decode protected);
  cek ← map_err Refused (recover_cek secret header first protected mac);
  Ok {| first := first; preamble := preamble; header_end := header_end; protected := protected;
        header := header; content := cek |}.

(** Seals [plaintext] after [out], as the payload of this header. *)
Definition append_payload (out : bytes) (cek : ContentKey) (object_id salt protected plaintext : bytes)
  : result Failure bytes :=
  key ← map_err (λ e, Refused (Crypto e)) (payload_key cek object_id salt);
  '(_, out) ← map_err Refused
      (encrypt_records key object_id (hash [protected]) (slice_reader plaintext) (vec out));
  Ok out.(written).

(** Another plaintext under the container's own header, byte for byte. *)
Definition forge_payload_for_test (container : bytes) (secret : RecipientSecret)
    (replacement : bytes) : result Failure bytes :=
  head ← open_head container secret;
  salt ← slice container head.(header_end) (head.(header_end) + 16);
  out ← slice container 0 (head.(header_end) + 16);
  append_payload out head.(content) head.(header).(object_id) salt head.(protected) replacement.

(** The whole container, opened. *)
Definition open_payload (container : bytes) (secret : RecipientSecret) : result Failure bytes :=
  '(_, plaintext) ← map_err Refused (decrypt_to_staging (slice_reader container) (vec []) secret);
  Ok plaintext.(written).

(** Authenticates [protected] and the preamble [lead] under the content key,
    and writes them before the container's own salt and [plaintext]'s payload. *)
Definition reauthenticate (container : bytes) (head : Opened)
    (lead object_id protected plaintext : bytes) : result Failure bytes :=
  mac_key ← map_err (λ e, Refused (Crypto e))
      (derive_key head.(content) object_id (text "HIDE/0.1 header-mac"));
  let mac := Crypto.mac mac_key [lead; protected] in
  salt ← slice container head.(header_end) (head.(header_end) + 16);
  outer ← map_err (λ e, Refused (Format e)) (Outer.encode_header protected mac);
  append_payload (lead ++ outer ++ salt) head.(content) object_id salt protected plaintext.

(** [bytes[12..]] set to the length of a header. *)
Definition with_length (lead : bytes) (length : N) : bytes :=
  take 12 lead ++ u32be (length mod 4294967296).

(** What a recipient who opened the container holds when it edits the header:
    the head, the plaintext, and the header with the metadata, edited, sealed
    again. *)
Definition handed_over (container : bytes) (secret : RecipientSecret) (edit_metadata : bytes → bytes)
  : result Failure (Opened * bytes * ProtectedHeader) :=
  head ← open_head container secret;
  plaintext ← open_payload container secret;
  let header := head.(header) in
  metadata_key ← map_err (λ e, Refused (Crypto e))
      (derive_key head.(content) header.(object_id) (text "HIDE/0.1 metadata"));
  let aad := metadata_aad header.(object_id) in
  metadata ← map_err (λ e, Refused (Crypto e))
      (open metadata_key (replicate 12 Byte.x00) aad header.(encrypted_metadata));
  sealed ← map_err (λ e, Refused (Crypto e))
      (seal metadata_key (replicate 12 Byte.x00) aad (edit_metadata metadata));
  Ok (head, plaintext, set_encrypted header sealed).

(** Everything a recipient can do: open, edit the metadata and the header, set
    the minor and the flags, and make every authenticator right again. *)
Definition rewrite_for_test (container : bytes) (secret : RecipientSecret) (minor flags : option N)
    (edit : ProtectedHeader → ProtectedHeader) (edit_metadata : bytes → bytes)
  : result Failure bytes :=
  '(head, plaintext, header) ← handed_over container secret edit_metadata;
  let header := edit header in
  protected ← map_err (λ e, Refused (Format e)) (Header.encode header);
  sizing ← map_err (λ e, Refused (Format e)) (Outer.encode_header protected (replicate 32 Byte.x00));
  let lead := Preamble.encode head.(preamble) in
  let lead := <[9%nat := default (nth 9 lead Byte.x00) (byte_of <$> minor)]> lead in
  let lead := <[11%nat := default (nth 11 lead Byte.x00) (byte_of <$> flags)]> lead in
  reauthenticate container head (with_length lead (lenN sizing)) header.(object_id) protected
    plaintext.

Definition rewrite_header_for_test (container : bytes) (secret : RecipientSecret)
    (minor : option N) (edit : ProtectedHeader → ProtectedHeader) : result Failure bytes :=
  rewrite_for_test container secret minor None edit id.

(** [protected] in the header's place, though it may be no header at all. *)
Definition replace_protected_for_test (container : bytes) (secret : RecipientSecret)
    (protected : bytes) : result Failure bytes :=
  head ← open_head container secret;
  plaintext ← open_payload container secret;
  let header := head.(header) in
  sizing ← map_err (λ e, Refused (Format e)) (Outer.encode_header protected (replicate 32 Byte.x00));
  reauthenticate container head (with_length (Preamble.encode head.(preamble)) (lenN sizing))
    header.(object_id) protected plaintext.

(** ** The writers of the vectors *)

(** [hide_crypto::wrap_cek_for_vector] *)
Definition wrap_cek_for_vector (recipient : RecipientPublic) (cek : ContentKey)
    (object_id seed : bytes) : result CryptoError WrappedKey :=
  wrap_with_rng recipient cek object_id seed.

Definition vector_material : ObjectMaterial :=
  {| cek := content_key_from_bytes (replicate 32 (byte_of 17));
     material_id := replicate 32 (byte_of 34); payload_salt := replicate 16 (byte_of 51) |}.

Definition encrypt_for_vector_inner (input : reader) (output : writer) (recipient : RecipientPublic)
    (metadata : Metadata) (signer : option (SK * SignaturePlacement)) (shape : VectorShape)
  : result ObjectError (N * writer) :=
  let material := vector_material in
  wrapped ← map_err Crypto (wrap_cek_for_vector recipient material.(cek) material.(material_id)
                              (replicate 32 (byte_of 68)));
  encrypt_inner input output metadata material
    [{| encapsulation := wrapped.(Crypto.encapsulation);
        wrapped_cek := wrapped.(Crypto.wrapped_cek) |}]
    signer shape.

Definition encrypt_for_vector (input : reader) (output : writer) (recipient : RecipientPublic)
    (metadata : Metadata) : result ObjectError (N * writer) :=
  encrypt_for_vector_inner input output recipient metadata None default_shape.

Definition encrypt_signed_for_vector (input : reader) (output : writer)
    (recipient : RecipientPublic) (metadata : Metadata) (identity : SK)
    (placement : SignaturePlacement) : result ObjectError (N * writer) :=
  encrypt_for_vector_inner input output recipient metadata (Some (identity, placement)) default_shape.

Definition encrypt_shaped_for_vector (input : reader) (output : writer)
    (recipient : RecipientPublic) (metadata : Metadata) (signer : option (SK * SignaturePlacement))
    (shape : VectorShape) : result ObjectError (N * writer) :=
  encrypt_for_vector_inner input output recipient metadata signer shape.

(** A container whose preamble says signed and which carries no signature. *)
Definition encrypt_stripped_signature_for_test (draw : nat → option bytes) (input : reader)
    (output : writer) (recipients : list RecipientPublic) (metadata : Metadata) (identity : SK)
  : result ObjectError (N * writer) :=
  validate_recipients recipients;;
  material ← draw_material draw;
  stanzas ← wrap_stanzas material draw recipients;
  encrypt_inner input output metadata material stanzas (Some (identity, Stripped)) default_shape.
End forge.

(** ** Signatures *)

(** One signature that its key accepts for two different messages: what the
    signature scheme has to make infeasible. *)
Definition signed_twice `{SignatureScheme} (id : VK) (c m c' m' : bytes) : Prop :=
  (c, m) ≠ (c', m') ∧ ∃ s, verify id c m s = Ok tt ∧ verify id c' m' s = Ok tt.

(** The signed message ends with the plaintext's hash and length. *)
Lemma transcript_plaintext preamble h base H K n m :
  length H = length K →
  transcript preamble h base H n = transcript preamble h base K m → H = K.
Proof.
  intros Hl E. unfold transcript, legacy_transcript in E.
  destruct (Preamble.is_legacy preamble);
    repeat apply app_inv_head in E; by apply app_inj_len_1 in E as [-> _].
Qed.

Section laws.
Context {C : Cbor} {CL : CborLaws C} {CS : CborSizes C}.
Context {Sig : SignatureScheme} {SL : SignatureLaws Sig}.
Context {P : Crypto.Primitives} {L : Crypto.PrimitivesLaws P}.

Lemma slice_mid (a b c : bytes) from to :
  lenN a = from → lenN b = to - from → from <= to → slice (a ++ b ++ c) from to = Ok b.
Proof.
  intros Ha Hb Hle. unfold slice. rewrite !length_app, refuse_if_pass by lia. rewrite bind_of_Ok.
  rewrite drop_app_length' by lia. by rewrite take_app_length' by lia.
Qed.

Lemma hash_length parts : length (hash parts) = 32%nat.
Proof. apply sha256_length. Qed.

(** The base a signature covers is no longer than the metadata itself. *)
Lemma signing_base_length m b base :
  Metadata.encode m = Ok b → Metadata.signing_base m = Ok base → lenN base <= lenN b.
Proof.
  unfold Metadata.encode, Metadata.signing_base, Metadata.encode_with_signature. intros Hb Hs.
  inv_ok. unfold check_extensions in *. inv_ok. b2p.
  match goal with
  | H1 : Metadata.encode_filename _ = Ok ?a, H2 : Metadata.encode_filename _ = Ok ?b,
    H3 : Metadata.encode_media_type _ = Ok ?c, H4 : Metadata.encode_media_type _ = Ok ?d,
    H5 : Metadata.encode_meta_signature None = Ok ?e |- _ =>
      assert (a = b) as <- by congruence; assert (c = d) as <- by congruence; injection H5 as <-
  end.
  rewrite !length_app, !Nat2N.inj_add, !length_enc_map_small;
    unfold MAX_EXTENSIONS, Metadata.present in *; repeat case_match; cbn [length]; lia.
Qed.

Lemma slice_prefix (b c : bytes) to : lenN b = to → slice (b ++ c) 0 to = Ok b.
Proof. intros. by apply (slice_mid [] b c); cbn [length]; lia. Qed.

Lemma append_payload_seals out cek object_id salt protected plaintext :
  ∃ key payload, payload_key cek object_id salt = Ok key ∧
    opens_as key object_id (hash [protected]) 0 payload (chunks plaintext) ∧
    append_payload out cek object_id salt protected plaintext
      = if lenN plaintext <=? MAX_PAYLOAD then Ok (out ++ payload) else Err (Refused ObjectTooLarge).
Proof.
  unfold append_payload, payload_key.
  destruct (derive_key_total cek salt (text "HIDE/0.1 payload" ++ object_id)) as (key & -> & _).
  destruct (slice_reader_live plaintext) as [Ls Cs].
  destruct (encrypt_records_seals key object_id (hash [protected]) (slice_reader plaintext) (vec out))
    as (frames & Hf & E); [done|constructor|]. rewrite Cs in *.
  exists key, (concat frames). split_and!; [done|by apply payload_opens_chunks|].
  cbn [map_err]. rewrite bind_of_Ok. destruct (_ <=? _).
  - destruct E as (w & -> & Ew & _). cbn [map_err]. by rewrite bind_of_Ok, Ew.
  - by rewrite E.
Qed.

(** The head of a container a reader went on with, as a forger sees it. *)
Lemma open_head_framed container secret p h protected mac salt rest cek :
  framed (slice_reader container) p h protected mac salt rest →
  recover_cek secret h (Preamble.encode p) protected mac = Ok cek →
  let head := {| first := Preamble.encode p; preamble := p;
                 header_end := PREAMBLE_LEN + Preamble.header_len p; protected := protected;
                 header := h; content := cek |} in
  open_head container secret = Ok head ∧
  slice container head.(header_end) (head.(header_end) + 16) = Ok salt ∧
  ∃ outer, slice container 0 (head.(header_end) + 16) = Ok (Preamble.encode p ++ outer ++ salt) ∧
    Outer.decode_header outer = Ok (protected, mac) ∧ lenN outer = Preamble.header_len p.
Proof.
  intros [(V & _) Hh (outer & Ho & Hlen & Hmac & Hsalt & Hc) _] Hr head.
  destruct (slice_reader_live container) as [_ Cs]. rewrite Cs in Hc. clear Cs. subst container.
  pose proof (Preamble.length_preamble_encode p) as Hp. unfold PREAMBLE_LEN in *.
  assert (Outer.decode_header outer = Ok (protected, mac)) as Hd by by apply outer_decode_encode.
  split_and!.
  - unfold open_head.
    rewrite slice_prefix by (unfold PREAMBLE_LEN; lia).
    rewrite bind_of_Ok, Preamble.preamble_decode_encode by done. cbn [map_err]. rewrite bind_of_Ok.
    rewrite slice_mid by (unfold PREAMBLE_LEN; lia). rewrite bind_of_Ok, Hd. cbn [map_err].
    rewrite bind_of_Ok, Hh. cbn [map_err]. rewrite bind_of_Ok, Hr. cbn [map_err]. by rewrite bind_of_Ok.
  - rewrite app_assoc. apply slice_mid; cbn [header_end head]; rewrite ?length_app; unfold PREAMBLE_LEN; lia.
  - exists outer. split_and!; [|done|done].
    replace (Preamble.encode p ++ outer ++ salt ++ contents rest)
      with ((Preamble.encode p ++ outer ++ salt) ++ contents rest) by by rewrite <- !app_assoc.
    apply slice_prefix. cbn [header_end head]. rewrite !length_app. unfold PREAMBLE_LEN. lia.
Qed.

(** The verdict on a header with one signature, by that signature alone. *)
Lemma verify_signature_one p h m s id base plaintext_hash n :
  Preamble.is_signed p = true → only_signature h m s → vk_from_bytes s.(Codec.verifying_key) = Ok id →
  Metadata.signing_base m = Ok base →
  verify_signature p h m plaintext_hash n
    = (map_err (λ _, InvalidSignature)
         (verify id (signing_context p) (transcript p h base plaintext_hash n) s.(signature));;
       Ok (Some id)).
Proof.
  intros Hs Ho Hk Hb. unfold verify_signature.
  destruct Ho as [[-> ->]|[-> ->]]; cbn [head]; rewrite Hs; cbn [negb refuse_if];
    by rewrite bind_of_Ok, Hk; cbn [map_err]; rewrite bind_of_Ok, Hb.
Qed.

(** A plaintext is known by its hash, up to a collision. *)
Lemma hash_one_or_collide p q : hash [p] = hash [q] → q = p ∨ collide sha256 (eq p) (eq q).
Proof.
  unfold hash. cbn. rewrite !app_nil_r. intros E.
  destruct (hash_eq_or_collide sha256 p q (eq p) (eq q)) as [->|]; eauto.
Qed.

(** C20. What a recipient can do to the payload. Whoever opens a container can
    seal any plaintext under its header, byte for byte the same, and every
    check but the signature passes again. If nobody signed the container, the
    forgery opens to the forger's plaintext under the same metadata. If it was
    signed, the forgery is refused as [InvalidSignature]; what remains is the
    plaintext that was signed, a SHA-256 collision of the two plaintexts, or
    one signature its key accepts for both messages. A plaintext beyond the
    payload limit cannot be forged. *)
Theorem forged_payload_outcomes container secret replacement o staged :
  decrypt_to_staging (slice_reader container) (vec []) secret = Ok (o, staged) →
  if MAX_PAYLOAD <? lenN replacement
  then forge_payload_for_test container secret replacement = Err (Refused ObjectTooLarge)
  else ∃ forged p h protected mac salt rest,
    forge_payload_for_test container secret replacement = Ok forged ∧
    framed (slice_reader container) p h protected mac salt rest ∧
    ∀ source staging, live source → accepting staging → contents source = forged →
    match o.(signer) with
    | None => ∃ staging', decrypt_to_staging source staging secret
          = Ok ({| object_metadata := o.(object_metadata); plaintext_len := lenN replacement;
                   signer := None |}, staging') ∧
        staging'.(written) = staging.(written) ++ replacement
    | Some id => decrypt_to_staging source staging secret = Err InvalidSignature ∨
        replacement = staged.(written) ∨
        collide sha256 (eq staged.(written)) (eq replacement) ∨
        ∃ base, Metadata.signing_base o.(object_metadata) = Ok base ∧
          let message b := transcript p h base (hash [b]) (lenN b) in
          signed_twice id (signing_context p) (message staged.(written))
            (signing_context p) (message replacement)
    end.
Proof.
  intros H. destruct (slice_reader_live container) as [Ls Cs].
  destruct (accepted_parts _ _ _ _ _ Ls H) as (p & h & protected & mac & salt & rest & cek & ek
    & plain & _ & q & Hf & Hl & Hr & Hek & Hop & Hmd & _ & _ & _ & Hw & _ & Hv).
  cbn [vec written app] in Hw. subst q.
  destruct (open_head_framed _ _ _ _ _ _ _ _ _ Hf Hr) as (Eh & Es & outer & Ep & Ho & Hlen).
  destruct (append_payload_seals (Preamble.encode p ++ outer ++ salt) cek h.(object_id) salt protected
    replacement) as (pk & payload & Hpk & Hpay & Ea).
  unfold forge_payload_for_test. rewrite Eh, bind_of_Ok, Es, bind_of_Ok, Ep, bind_of_Ok.
  cbn [content header Forge.protected]. rewrite Ea.
  destruct (N.ltb_spec MAX_PAYLOAD (lenN replacement)) as [Hbig|Hmax].
  { by rewrite (proj2 (N.leb_gt _ _) Hbig). }
  rewrite (proj2 (N.leb_le _ _) Hmax).
  eexists _, p, h, protected, mac, salt, rest. split_and!; [done|done|].
  intros source staging Lsrc As Hsrc. rewrite <- !app_assoc in Hsrc.
  destruct Hf as [(V & _) Hh (_ & _ & _ & _ & Hsalt & _) _].
  destruct (decrypt_reaches_signature source staging secret p h protected mac outer salt payload cek
    ek plain o.(object_metadata) pk replacement) as (st & Hst & E); try done.
  rewrite E. apply verify_signature_Ok_iff in Hv. destruct o.(signer) as [id|].
  - destruct Hv as (Hs & s & Hone & base & Hk & Hb & Hver).
    rewrite (verify_signature_one p h _ s id base) by done.
    destruct (verify id _ (transcript p h base (hash [replacement]) _) _) as [[]|e] eqn:Ev;
      [right|by left].
    destruct (decide (hash [staged.(written)] = hash [replacement])) as [Eq|Hne].
    + apply hash_one_or_collide in Eq as [->|]; eauto.
    + right. right. exists base. split; [done|]. split; [|by exists s.(signature)].
      intros [= Et]. apply transcript_plaintext in Et; [done|by rewrite !hash_length].
  - assert (verify_signature p h o.(object_metadata) (hash [replacement]) (lenN replacement) = Ok None)
      as -> by (by apply verify_signature_Ok_iff).
    exists st. by rewrite bind_of_Ok.
Qed.

(** A reader that took [input] for a container of this preamble and header,
    and staged [b]. *)
Definition read_as (input : reader) (staging staging' : writer) (p : Preamble.Preamble)
    (h : ProtectedHeader) (b : bytes) : Prop :=
  staging'.(written) = staging.(written) ++ b ∧
  ∃ protected mac salt rest, framed input p h protected mac salt rest.

(** Everything a signature covers. *)
Definition same_object (p q : Preamble.Preamble) (h k : ProtectedHeader) (m n : Metadata)
    (a b : bytes) : Prop :=
  Preamble.minor p = Preamble.minor q ∧ Preamble.flags p = Preamble.flags q ∧
  h.(object_id) = k.(object_id) ∧ h.(recipients) = k.(recipients) ∧
  h.(extensions) = k.(extensions) ∧ unsigned_metadata m = unsigned_metadata n ∧ a = b.

Lemma unsigned_base_inj m n plain plain' base :
  Metadata.decode plain = Ok m → Metadata.decode plain' = Ok n →
  Metadata.signing_base m = Ok base → Metadata.signing_base n = Ok base →
  unsigned_metadata m = unsigned_metadata n.
Proof.
  intros Hm Hn Bm Bn. apply metadata_decode_inv in Hm as ([] & Lm & Em).
  apply metadata_decode_inv in Hn as ([] & _ & _).
  pose proof (signing_base_length _ _ _ Em Bm).
  rewrite metadata_signing_base_unsigned in Bm, Bn.
  apply metadata_decode_encode in Bm; [|by split|lia].
  apply metadata_decode_encode in Bn; [|by split|lia]. congruence.
Qed.

Lemma decoded_base_bound plain m base :
  Metadata.decode plain = Ok m → Metadata.signing_base m = Ok base → lenN base < u64_bound.
Proof.
  intros Hm Hb. apply metadata_decode_inv in Hm as (_ & Lm & Em).
  pose proof (signing_base_length _ _ _ Em Hb). unfold MAX_METADATA_LEN, u64_bound in *. lia.
Qed.

(** C3. A signature admits one object. Take any two containers that readers
    accepted, under any secrets, that carry the same signature: they have the
    same signer, and they agree on the version and flags, the object id, every
    recipient, every extension, the metadata and the plaintext. The exceptions
    are explicit: the two plaintexts collide under SHA-256, or the signer's key
    accepts the one signature for two different messages. *)
Theorem signature_admits_one_object input1 staging1 secret1 o1 w1 input2 staging2 secret2 o2 w2 :
  live input1 → live input2 →
  decrypt_to_staging input1 staging1 secret1 = Ok (o1, w1) →
  decrypt_to_staging input2 staging2 secret2 = Ok (o2, w2) →
  ∃ p h a q k b, read_as input1 staging1 w1 p h a ∧ read_as input2 staging2 w2 q k b ∧
    ∀ s, only_signature h o1.(object_metadata) s → only_signature k o2.(object_metadata) s →
    ∃ id base1 base2, o1.(signer) = Some id ∧ o2.(signer) = Some id ∧
      Metadata.signing_base o1.(object_metadata) = Ok base1 ∧
      Metadata.signing_base o2.(object_metadata) = Ok base2 ∧
      (same_object p q h k o1.(object_metadata) o2.(object_metadata) a b ∨
       collide sha256 (eq a) (eq b) ∨
       signed_twice id (signing_context p) (transcript p h base1 (hash [a]) (lenN a))
         (signing_context q) (transcript q k base2 (hash [b]) (lenN b))).
Proof.
  intros L1 L2 H1 H2.
  destruct (accepted_parts _ _ _ _ _ L1 H1) as (p & h & prot1 & mac1 & salt1 & rest1 & _ & _
    & plain1 & _ & a & F1 & _ & _ & _ & _ & D1 & _ & _ & M1 & W1 & _ & V1).
  destruct (accepted_parts _ _ _ _ _ L2 H2) as (q & k & prot2 & mac2 & salt2 & rest2 & _ & _
    & plain2 & _ & b & F2 & _ & _ & _ & _ & D2 & _ & _ & M2 & W2 & _ & V2).
  exists p, h, a, q, k, b. split_and!; [split; eauto 10..|].
  intros s O1 O2. apply verify_signature_Ok_iff in V1, V2.
  assert (∀ h' m' s' s'', only_signature h' m' s' → only_signature h' m' s'' → s' = s'') as Honly.
  { unfold only_signature. intros h' m' s' s'' [[? ?]|[? ?]] [[? ?]|[? ?]]; congruence. }
  assert (∀ h' m' s', only_signature h' m' s' → ¬ (h'.(signatures) = [] ∧ m'.(meta_signature) = None))
    as Hnone.
  { unfold only_signature. intros h' m' s' Hs [Es Em]. rewrite Es, Em in Hs. naive_solver. }
  destruct o1.(signer) as [id|]; [|exfalso; eapply Hnone; [exact O1|apply V1]].
  destruct o2.(signer) as [id2|]; [|exfalso; eapply Hnone; [exact O2|apply V2]].
  destruct V1 as (_ & s1 & O1' & base1 & K1 & B1 & E1).
  destruct V2 as (_ & s2 & O2' & base2 & K2 & B2 & E2).
  rewrite (Honly _ _ _ _ O1' O1) in *. rewrite (Honly _ _ _ _ O2' O2) in *.
  assert (id2 = id) as -> by congruence.
  exists id, base1, base2. split_and!; [done..|].
  destruct (decide ((signing_context p, transcript p h base1 (hash [a]) (lenN a))
    = (signing_context q, transcript q k base2 (hash [b]) (lenN b)))) as [[= _ Et]|Hne];
    [|right; right; split; [done|by exists s.(signature)]].
  unfold MAX_PAYLOAD in *.
  apply transcript_inj in Et as (Em & Ef & Eo & Er & Ex & -> & Eh & _);
    [|by eapply framed_readable|by eapply framed_readable|exact (decoded_base_bound _ _ _ D1 B1)
     |exact (decoded_base_bound _ _ _ D2 B2)|by rewrite !hash_length
     |unfold MAX_CHUNKS, CHUNK_LEN, u64_bound in *; lia..].
  apply hash_one_or_collide in Eh as [->|]; [left|by right; left].
  repeat (split; [done|]). split; [exact (unsigned_base_inj _ _ _ _ _ D1 D2 B1 B2)|done].
Qed.

(** ** Rewriting *)

Definition rewritten_preamble (p : Preamble.Preamble) (minor flags : option N) (length : N)
  : Preamble.Preamble :=
  {| Preamble.header_len := length; Preamble.minor := default p.(Preamble.minor) minor;
     Preamble.flags := default p.(Preamble.flags) flags |}.

(** The forger's edits of the preamble's bytes are edits of its fields. *)
Lemma rewritten_preamble_bytes p minor flags len :
  len <= MAX_HEADER_LEN →
  let lead := Preamble.encode p in
  let lead := <[9%nat := default (nth 9 lead Byte.x00) (byte_of <$> minor)]> lead in
  let lead := <[11%nat := default (nth 11 lead Byte.x00) (byte_of <$> flags)]> lead in
  with_length lead len = Preamble.encode (rewritten_preamble p minor flags len).
Proof.
  intros Hlen lead lead' lead''. unfold with_length.
  rewrite N.mod_small by (unfold MAX_HEADER_LEN in *; lia).
  unfold lead'', lead', lead, Preamble.encode.
  generalize (u32be (Preamble.header_len p)) as tail. intros tail.
  by destruct minor, flags.
Qed.

Lemma outer_sized protected mac outer :
  Outer.encode_header protected mac = Ok outer → 0 < lenN outer <= MAX_HEADER_LEN.
Proof.
  unfold Outer.encode_header, check_header_len. intros H. inv_ok.
  b2p. lia.
Qed.

(** What re-authenticating a container's head gives: a container again, whose
    MAC and payload are right under the content key. *)
Lemma reauthenticate_Ok container secret p h protected mac salt rest cek head lead id prot plaintext out :
  framed (slice_reader container) p h protected mac salt rest →
  recover_cek secret h (Preamble.encode p) protected mac = Ok cek →
  open_head container secret = Ok head →
  reauthenticate container head lead id prot plaintext = Ok out →
  ∃ key outer pk payload,
    derive_key cek id (text "HIDE/0.1 header-mac") = Ok key ∧
    Outer.encode_header prot (Crypto.mac key [lead; prot]) = Ok outer ∧
    payload_key cek id salt = Ok pk ∧
    opens_as pk id (hash [prot]) 0 payload (chunks plaintext) ∧
    lenN plaintext <= MAX_PAYLOAD ∧ lenN salt = 16 ∧
    out = lead ++ outer ++ salt ++ payload.
Proof.
  intros Hf Hr Eh H. destruct (open_head_framed _ _ _ _ _ _ _ _ _ Hf Hr) as (Eh' & Es & _).
  rewrite Eh in Eh'. apply Ok_inj in Eh' as ->.
  destruct Hf as [_ _ (_ & _ & _ & _ & Hsalt & _) _].
  unfold reauthenticate in H. rewrite Es in H. cbn [content] in H. inv_ok.
  match goal with H : append_payload ?out ?k ?i ?s ?pr ?pl = Ok _ |- _ =>
    destruct (append_payload_seals out k i s pr pl) as (pk & payload & Hpk & Ho & E);
    rewrite E in H; clear E end.
  destruct (N.leb_spec (lenN plaintext) MAX_PAYLOAD); [|done]. simplify_eq.
  do 4 eexists. split_and!; try eassumption. by rewrite <- !app_assoc.
Qed.

(** A container a forger could open, in the terms a reader checks. *)
Lemma forger_opens container secret head plaintext :
  open_head container secret = Ok head → open_payload container secret = Ok plaintext →
  ∃ o staged p h protected mac salt rest ek plain,
    decrypt_to_staging (slice_reader container) (vec []) secret = Ok (o, staged) ∧
    staged.(written) = plaintext ∧ framed (slice_reader container) p h protected mac salt rest ∧
    recover_cek secret h (Preamble.encode p) protected mac = Ok head.(content) ∧
    head.(preamble) = p ∧ head.(header) = h ∧
    derive_key head.(content) h.(object_id) (text "HIDE/0.1 metadata") = Ok ek ∧
    open ek (replicate 12 Byte.x00) (metadata_aad h.(object_id)) h.(encrypted_metadata) = Ok plain ∧
    Metadata.decode plain = Ok o.(object_metadata) ∧
    verify_signature p h o.(object_metadata) (hash [plaintext]) (lenN plaintext) = Ok o.(signer).
Proof.
  intros Eh H. unfold open_payload in H. inv_ok.
  match goal with H : decrypt_to_staging _ _ _ = Ok (?x, ?w) |- _ =>
    rename H into Hd; rename x into o; rename w into staged end.
  destruct (accepted_parts _ _ _ _ _ (proj1 (slice_reader_live container)) Hd) as (p & h & protected
    & mac & salt & rest & cek & ek & plain & pk & body & Hf & _ & Hr & Hek & Hop & Hmd & _ & _ & _ & Hw & _ & Hv).
  cbn [vec written app] in Hw.
  destruct (open_head_framed _ _ _ _ _ _ _ _ _ Hf Hr) as (Eh' & _).
  rewrite Eh in Eh'. apply Ok_inj in Eh' as ->.
  exists o, staged, p, h, protected, mac, salt, rest, ek, plain. rewrite <- Hw in Hv. by split_and!.
Qed.

(** A header no writer would encode is refused for that reason alone: a
    container rebuilt around any bytes in the header's place, under a preamble
    that fits them and with MAC and payload made right, is refused by every
    reader with the error the header decoder gives for those bytes, whatever
    its secret and sink. *)
Theorem malformed_header_refused container secret protected out e :
  replace_protected_for_test container secret protected = Ok out →
  Header.decode protected = Err e →
  ∀ source staging secret', live source → contents source = out →
    decrypt_to_staging source staging secret' = Err (Format e).
Proof.
  intros H He source staging secret' Ls Cs. unfold replace_protected_for_test in H. inv_ok.
  match goal with H1 : open_head _ _ = Ok ?hd, H2 : open_payload _ _ = Ok _,
    H3 : Outer.encode_header _ _ = Ok ?sz |- _ =>
    rename H1 into Eh, H2 into Ep, H3 into Ez; rename hd into head; rename sz into sizing end.
  destruct (forger_opens _ _ _ _ Eh Ep) as (o & staged & p & h & prot & mac & salt & rest & ek & plain
    & _ & _ & Hf & Hr & Hp & _). rewrite Hp in *.
  destruct (outer_sized _ _ _ Ez) as [Hz Hz'].
  pose proof (rewritten_preamble_bytes p None None (lenN sizing) Hz') as El. cbn zeta in El.
  cbn [default from_option id fmap option_fmap option_map] in El.
  rewrite !list_insert_id in El by done.
  match goal with H : reauthenticate _ _ _ _ _ _ = Ok _ |- _ => rename H into Hre end.
  rewrite El in Hre. set (p' := rewritten_preamble p None None (lenN sizing)) in *.
  apply (reauthenticate_Ok _ _ _ _ _ _ _ _ _ _ _ _ _ _ _ Hf Hr Eh) in Hre
    as (key & outer & pk & payload & _ & Ho & _ & _ & _ & _ & Ec).
  assert (Preamble.valid p') as V.
  { destruct (framed_readable _ _ _ _ _ _ _ Hf) as ([V1 V2 _] & _). by split. }
  assert (lenN outer = Preamble.header_len p') as Hl.
  { eapply outer_length; [|exact Ho|exact Ez]. unfold Crypto.mac.
    by rewrite hmac_length, length_replicate. }
  assert (Outer.decode_header outer = Ok (protected, Crypto.mac key [Preamble.encode p'; protected]))
    as Hd by (apply outer_decode_encode; [unfold Crypto.mac; by rewrite hmac_length|done]).
  unfold decrypt_to_staging.
  destruct (read_exact_app _ _ _ _ Ls Ec (Preamble.length_preamble_encode p')) as (r1 & -> & L1 & C1).
  cbn [map_err]. rewrite bind_of_Ok, Preamble.preamble_decode_encode by done. cbn [map_err].
  rewrite bind_of_Ok. destruct (read_exact_app _ _ _ _ L1 C1 Hl) as (r2 & -> & _).
  cbn [map_err]. rewrite bind_of_Ok, Hd. cbn [map_err]. by rewrite bind_of_Ok, He.
Qed.

Lemma mac_length key parts : lenN (Crypto.mac key parts) = 32.
Proof. unfold Crypto.mac. by rewrite hmac_length. Qed.

(** A rewritten container in full: what was opened, what was edited, and the
    parts written, all of them right under the content key. *)
Record rewrites (container : bytes) (secret : RecipientSecret) (minor flags : option N)
    (edit : ProtectedHeader → ProtectedHeader) (edit_metadata : bytes → bytes) (out : bytes)
    (o : VerifiedObject) (staged : writer) (p : Preamble.Preamble) (h : ProtectedHeader)
    (protected mac salt : bytes) (rest : reader) (cek : ContentKey) (plain sealed : bytes)
    (q : Preamble.Preamble) (outer payload protected' mac' : bytes) : Prop := {
  rw_opened : decrypt_to_staging (slice_reader container) (vec []) secret = Ok (o, staged);
  rw_framed : framed (slice_reader container) p h protected mac salt rest;
  rw_recovered : recover_cek secret h (Preamble.encode p) protected mac = Ok cek;
  rw_plain : Metadata.encode o.(object_metadata) = Ok plain ∧ Metadata.decode plain = Ok o.(object_metadata);
  rw_verdict : verify_signature p h o.(object_metadata) (hash [staged.(written)]) (lenN staged.(written))
    = Ok o.(signer);
  rw_sealed : ∃ ek, derive_key cek h.(object_id) (text "HIDE/0.1 metadata") = Ok ek ∧
    open ek (replicate 12 Byte.x00) (metadata_aad h.(object_id)) h.(encrypted_metadata) = Ok plain ∧
    seal ek (replicate 12 Byte.x00) (metadata_aad h.(object_id)) (edit_metadata plain) = Ok sealed;
  rw_minor : Preamble.minor q = default (Preamble.minor p) minor;
  rw_flags : Preamble.flags q = default (Preamble.flags p) flags;
  rw_length : 0 < Preamble.header_len q <= MAX_HEADER_LEN;
  rw_out : out = Preamble.encode q ++ outer ++ salt ++ payload;
  rw_outer : Outer.decode_header outer = Ok (protected', mac') ∧ lenN outer = Preamble.header_len q;
  rw_header : Header.decode protected' = Ok (edit (set_encrypted h sealed));
  rw_mac : ∃ key, derive_key cek (edit (set_encrypted h sealed)).(object_id)
                    (text "HIDE/0.1 header-mac") = Ok key ∧
    mac' = Crypto.mac key [Preamble.encode q; protected'];
  rw_payload : ∃ pk, payload_key cek (edit (set_encrypted h sealed)).(object_id) salt = Ok pk ∧
    lenN salt = 16 ∧ lenN staged.(written) <= MAX_PAYLOAD ∧
    opens_as pk (edit (set_encrypted h sealed)).(object_id) (hash [protected']) 0 payload
      (chunks staged.(written));
}.

Lemma rewrite_Ok container secret minor flags edit edit_metadata out :
  rewrite_for_test container secret minor flags edit edit_metadata = Ok out →
  (∀ h, header_typed h → header_typed (edit h)) →
  ∃ o staged p h protected mac salt rest cek plain sealed q outer payload protected' mac',
    rewrites container secret minor flags edit edit_metadata out o staged p h protected mac salt rest
      cek plain sealed q outer payload protected' mac'.
Proof.
  intros H Te. unfold rewrite_for_test, handed_over in H. inv_ok.
  match goal with H1 : open_head _ _ = Ok ?hd, H2 : open_payload _ _ = Ok ?pl,
    H3 : Outer.encode_header _ _ = Ok ?sz, H4 : seal _ _ _ _ = Ok ?se, H5 : open _ _ _ _ = Ok _,
    H6 : derive_key _ _ (text "HIDE/0.1 metadata") = Ok _, H7 : reauthenticate _ _ _ _ _ _ = Ok _,
    H8 : Header.encode _ = Ok ?pr |- _ =>
    rename H1 into Eh, H2 into Ep, H3 into Ez, H4 into Es, H5 into Eo, H6 into Ek, H7 into Er, H8 into Ew;
    rename hd into head; rename sz into sizing; rename pl into plaintext; rename se into sealed;
    rename pr into prot' end.
  destruct (forger_opens _ _ _ _ Eh Ep) as (o & staged & p & h & prot & mac & salt & rest & ek & plain
    & Hd & <- & Hf & Hr & Hp & Hh & Hek & Hop & Hmd & Hv). rewrite Hp, Hh in *.
  rewrite Hek in Ek. apply Ok_inj in Ek as <-. rewrite Hop in Eo. apply Ok_inj in Eo as <-.
  rewrite rewritten_preamble_bytes in Er by apply (outer_sized _ _ _ Ez).
  set (q := rewritten_preamble p minor flags (lenN sizing)) in *.
  pose proof (metadata_decode_inv _ _ Hmd) as (_ & _ & Hme).
  destruct (reauthenticate_Ok _ _ _ _ _ _ _ _ _ _ _ _ _ _ _ Hf Hr Eh Er)
    as (key & outer & pk & payload & Hk & Ho & Hpk & Hpay & Hmax & Hsalt & Ec).
  assert (lenN outer = Preamble.header_len q) as Hl.
  { eapply outer_length; [|exact Ho|exact Ez]. pose proof (mac_length key [Preamble.encode q; prot']).
    rewrite length_replicate. lia. }
  pose proof (outer_decode_encode _ _ _ (mac_length key [Preamble.encode q; prot']) Ho) as Hod.
  assert (Header.decode prot' = Ok (edit (set_encrypted h sealed))) as Hhd.
  { apply header_decode_encode; [|done]. apply Te.
    destruct (header_decode_inv _ _ (framed_header _ _ _ _ _ _ _ Hf)) as ([] & _). by split. }
  exists o, staged, p, h, prot, mac, salt, rest, head.(content), plain, sealed, q, outer, payload,
    prot', (Crypto.mac key [Preamble.encode q; prot']).
  split; try done; [by exists ek|exact (outer_sized _ _ _ Ez)|by exists key|by exists pk].
Qed.

(** The content key comes out of the edited header, or another one does. *)
Lemma rewrites_recover container secret minor flags edit edit_metadata out o staged p h
    protected mac salt rest cek plain sealed q outer payload protected' mac' :
  rewrites container secret minor flags edit edit_metadata out o staged p h protected mac salt rest
    cek plain sealed q outer payload protected' mac' →
  let k := edit (set_encrypted h sealed) in
  k.(object_id) = h.(object_id) → omap as_xwing k.(recipients) = omap as_xwing h.(recipients) →
  recover_cek secret k (Preamble.encode q) protected' mac' = Ok cek ∨
  second_key secret k (Preamble.encode q) protected' mac' cek.
Proof.
  intros [_ _ Hr _ _ _ _ _ _ _ _ _ (key & Hk & ->) _] k Ei Erec.
  pose proof (recover_from_Ok _ _ _ _ _ _ _ Hr) as (s & key0 & Hin & Hun & _).
  rewrite <- Erec in Hin. rewrite <- Ei in Hun. by eapply recover_cek_finds.
Qed.

(** Such a container brings a reader with the same secret to the signature. *)
Lemma rewrites_reach_signature container secret minor flags edit edit_metadata out o staged p h
    protected mac salt rest cek plain sealed q outer payload protected' mac' m source staging :
  rewrites container secret minor flags edit edit_metadata out o staged p h protected mac salt rest
    cek plain sealed q outer payload protected' mac' →
  let k := edit (set_encrypted h sealed) in
  Preamble.valid q → k.(object_id) = h.(object_id) →
  recover_cek secret k (Preamble.encode q) protected' mac' = Ok cek →
  k.(encrypted_metadata) = sealed → Metadata.decode (edit_metadata plain) = Ok m →
  legacy_form q k m → live source → accepting staging → contents source = out →
  let p := staged.(written) in
  ∃ staging', staging'.(written) = staging.(written) ++ p ∧
    decrypt_to_staging source staging secret
      = (id ← verify_signature q k m (hash [p]) (lenN p);
         Ok ({| object_metadata := m; plaintext_len := lenN p; signer := id |}, staging')).
Proof.
  intros [Hd Hf Hr [Hme _] _ (ek & Hek & Hop & Es) Hmi Hfl Hz Ec [Hod Hl] Hhd (key & Hk & ->)
    (pk & Hpk & Hsalt & Hmax & Hpay)] k V Ei Hrk Eenc Em F Ls As Cs p'.
  destruct (decrypt_reaches_signature source staging secret q k protected'
    (Crypto.mac key [Preamble.encode q; protected']) outer salt payload cek ek
    (edit_metadata plain) m pk staged.(written)) as (st & Hst & E); try done.
  - by rewrite Cs.
  - by rewrite Ei.
  - rewrite Ei, Eenc. by apply open_seal.
  - by exists st.
Qed.

(** C21. What survives a recipient is what a signature must catch. A recipient
    who edits the metadata, the header (all but the object id, the recipients
    and the sealed metadata), the minor and the flags gets a container whose
    preamble, header, MAC and payload are right again: a reader with the same
    secret reaches the signature, and its answer is the verdict of
    [verify_signature] on the edited header and metadata with the plaintext as
    it was. (The one alternative is a second content key under the same MAC.) *)
Theorem rewritten_container_verdict container secret minor flags edit edit_metadata out :
  rewrite_for_test container secret minor flags edit edit_metadata = Ok out →
  (∀ h, header_typed h → header_typed (edit h)) →
  ∃ o staged p h protected mac salt rest cek plain sealed q outer payload protected' mac',
    decrypt_to_staging (slice_reader container) (vec []) secret = Ok (o, staged) ∧
    framed (slice_reader container) p h protected mac salt rest ∧
    recover_cek secret h (Preamble.encode p) protected mac = Ok cek ∧
    Metadata.encode o.(object_metadata) = Ok plain ∧
    Preamble.minor q = default (Preamble.minor p) minor ∧
    Preamble.flags q = default (Preamble.flags p) flags ∧
    out = Preamble.encode q ++ outer ++ salt ++ payload ∧
    Outer.decode_header outer = Ok (protected', mac') ∧
    let k := edit (set_encrypted h sealed) in
    Header.decode protected' = Ok k ∧
    ∀ m source staging,
      Preamble.valid q → k.(object_id) = h.(object_id) → k.(recipients) = h.(recipients) →
      k.(encrypted_metadata) = sealed → Metadata.decode (edit_metadata plain) = Ok m →
      legacy_form q k m → live source → accepting staging → contents source = out →
      let p := staged.(written) in
      (∃ staging', staging'.(written) = staging.(written) ++ p ∧
         decrypt_to_staging source staging secret
           = (id ← verify_signature q k m (hash [p]) (lenN p);
              Ok ({| object_metadata := m; plaintext_len := lenN p; signer := id |}, staging'))) ∨
      second_key secret k (Preamble.encode q) protected' mac' cek.
Proof.
  intros H Te. destruct (rewrite_Ok _ _ _ _ _ _ _ H Te) as (o & staged & p & h & protected & mac & salt
    & rest & cek & plain & sealed & q & outer & payload & protected' & mac' & Hrw).
  exists o, staged, p, h, protected, mac, salt, rest, cek, plain, sealed, q, outer, payload, protected', mac'.
  pose proof Hrw as [? ? ? [? _] _ _ ? ? _ ? [? _] ? _ _]. cbn zeta. split_and!; try done.
  intros m source staging V Ei Erec Eenc Em F Ls As Cs.
  destruct (rewrites_recover _ _ _ _ _ _ _ _ _ _ _ _ _ _ _ _ _ _ _ _ _ _ _ Hrw Ei) as [Hrk|];
    [by rewrite Erec| |by right]. left. by eapply rewrites_reach_signature.
Qed.

(** ** The vectors *)

Lemma vector_material_sized : material_sized vector_material.
Proof. by split. Qed.

(** What a vector is read as. Whatever wire features it is asked for (a
    minor, extensions and stanzas no reader knows, any of the four placements),
    a container the generator wrote for this recipient is read to its verdict
    and nothing else: the plaintext, the metadata and the signer, unsigned when
    nobody signed, and [MissingSignature] where the preamble claims a signature
    the container does not carry. (The one alternative is a second content key
    under the same MAC.) *)
Theorem vector_container_verdict input output recipient metadata signer shape secret n output' :
  live input → accepting output → metadata_typed metadata → metadata.(meta_signature) = None →
  shape_typed shape → legacy_compatible signer shape metadata →
  public_key secret = Ok recipient →
  encrypt_for_vector_inner input output recipient metadata signer shape = Ok (n, output') →
  n = lenN (contents input) ∧ ∃ container p h protected mac,
    output'.(written) = output.(written) ++ container ∧ Header.decode protected = Ok h ∧
    ∀ source staging, live source → accepting staging → contents source = container →
    (∃ m staging', staging'.(written) = staging.(written) ++ contents input ∧
       unsigned_metadata m = metadata ∧
       decrypt_to_staging source staging secret
         = (id ← verdict signer shape;
            Ok ({| object_metadata := m; plaintext_len := n; signer := id |}, staging'))) ∨
    second_key secret h (Preamble.encode p) protected mac vector_material.(cek).
Proof.
  intros Li Ao Tm Hm Ts Hl Hk H. unfold encrypt_for_vector_inner in H. inv_ok.
  match goal with H : encrypt_inner _ _ _ _ [?s] _ _ = Ok _, W : wrap_cek_for_vector _ _ _ _ = Ok ?w |- _ =>
    rename H into He, W into Hw; set (stanza := s) in *; rename w into wrapped end.
  destruct (encrypt_inner_writes _ _ _ _ _ _ _ _ _ Li Ao Tm Hm vector_material_sized Ts Hl He)
    as (-> & container & p & h & protected & mac & Ew & Hc).
  split; [done|]. exists container, p, h, protected, mac.
  split_and!; [done|by eapply of_header|]. intros source staging Ls As Cs.
  eapply (container_reads _ _ _ _ _ _ _ _ _ _ _ stanza); [exact vector_material_sized|exact Hc| | |done..].
  - apply elem_of_app. right. apply list_elem_of_here.
  - exact (unwrap_wrap secret recipient vector_material.(cek) vector_material.(material_id)
      (Some (replicate 32 (byte_of 68))) wrapped eq_refl Hk Hw).
Qed.

(** A stripped signature is noticed by every recipient. *)
Lemma stripped_signature_refused draw input output recipients metadata identity n output' secret k :
  live input → accepting output → metadata_typed metadata → metadata.(meta_signature) = None →
  draws_sized draw → public_key secret = Ok k → k ∈ recipients →
  encrypt_stripped_signature_for_test draw input output recipients metadata identity
    = Ok (n, output') →
  ∃ container p h protected mac material, output'.(written) = output.(written) ++ container ∧
    ∀ source staging, live source → accepting staging → contents source = container →
    decrypt_to_staging source staging secret = Err MissingSignature ∨
    second_key secret h (Preamble.encode p) protected mac material.(cek).
Proof.
  intros Li Ao Tm Hm D Hk Hin H. unfold encrypt_stripped_signature_for_test in H. inv_ok.
  match goal with H1 : draw_material _ = Ok ?m, H2 : wrap_stanzas _ _ _ = Ok ?l,
    H3 : encrypt_inner _ _ _ _ _ _ _ = Ok _ |- _ =>
    rename H1 into Hd, H2 into Hw, H3 into He; rename m into material; rename l into stanzas end.
  pose proof (draw_material_sized _ _ D Hd) as Hms.
  destruct (wrap_stanzas_reach _ _ _ _ _ _ Hms Hw Hk Hin) as (s & Hs & Hu).
  assert (legacy_compatible (Some (identity, Stripped)) default_shape metadata) as Hl by done.
  destruct (encrypt_inner_writes _ _ _ _ _ _ _ _ _ Li Ao Tm Hm Hms default_shape_typed Hl He)
    as (_ & container & p & h & protected & mac & Ew & Hc).
  exists container, p, h, protected, mac, material.
  split; [done|]. intros source staging Ls As Cs.
  destruct (container_reads _ _ _ _ _ _ _ _ _ _ secret s source staging Hms Hc)
    as [(m & st & _ & _ & E)|]; [by apply list_elem_of_fmap_2|done..|by left|by right].
Qed.
End laws.

(** * Witnesses *)
Module Samples.
Import Cbor.Reference Sign.Toy Crypto.Toy.
#[local] Existing Instance Hybrid.scheme.
Abbreviation container := Object.Samples.container.
Abbreviation secret := Crypto.Samples.secret.
Abbreviation opening b :=
  (decrypt_to_staging (C := cbor) (Sig := Hybrid.scheme (P := Sign.Toy.primitives))
    (P := Crypto.Toy.primitives) (slice_reader b) (vec []) secret).
Abbreviation forging replacement :=
  (forge_payload_for_test (C := cbor) (P := Crypto.Toy.primitives) container secret replacement).
Abbreviation rewriting :=
  (rewrite_for_test (C := cbor) (Sig := Hybrid.scheme (P := Sign.Toy.primitives))
    (P := Crypto.Toy.primitives) container secret (Some 3) None id id).
Definition malformed : bytes := [Byte.xff].
Abbreviation rebuilding :=
  (replace_protected_for_test (C := cbor) (Sig := Hybrid.scheme (P := Sign.Toy.primitives))
    (P := Crypto.Toy.primitives) container secret malformed).
(** Features no reader knows: a stanza, an extension, a later minor. *)
Definition grease : VectorShape :=
  {| shape_minor := 9; header_extensions := [{| ext_key := 70; ext_value := text "x" |}];
     leading_stanzas := [Unknown {| unknown_tag := 77; unknown_fields := [text "y"] |}] |}.
Abbreviation writing :=
  (encrypt_for_vector_inner (C := cbor) (Sig := Hybrid.scheme (P := Sign.Toy.primitives))
    (P := Crypto.Toy.primitives) Object.Samples.source Object.Samples.sink Crypto.Samples.public
    default_metadata Object.Samples.signer grease).

Lemma opened_ok : is_ok (opening container) = true.
Proof. vm_compute. reflexivity. Qed.
Lemma forged_ok : is_ok (forging (text "other")) = true.
Proof. vm_compute. reflexivity. Qed.
Lemma rewritten_ok : is_ok rewriting = true.
Proof. vm_compute. reflexivity. Qed.
Lemma rebuilt_ok : is_ok rebuilding = true.
Proof. vm_compute. reflexivity. Qed.
Lemma vector_ok : is_ok writing = true.
Proof. vm_compute. reflexivity. Qed.

(** What became of a container read back. *)
Definition read_back (r : result Failure bytes) : option (result ObjectError (option VK)) :=
  match r with
  | Ok b => Some ('(o, _) ← opening b; Ok o.(signer))
  | Err _ => None
  end.

(** The forgery of a signed container is refused, and so is an edit of its
    minor, which the signature covers. *)
Example forgery_refused : read_back (forging (text "other")) = Some (Err InvalidSignature).
Proof. vm_compute. reflexivity. Qed.

Example rewrite_refused : read_back rewriting = Some (Err InvalidSignature).
Proof. vm_compute. reflexivity. Qed.

Example forgery_of_the_same : is_ok (default (Err InvalidSignature) (read_back (forging (text "hello")))) = true.
Proof. vm_compute. reflexivity. Qed.
End Samples.

Lemma sample_slice_live : live (slice_reader Object.Samples.container).
Proof. apply slice_reader_live. Qed.

Section witnesses.
Import Cbor.Reference Sign.Toy Crypto.Toy.
#[local] Existing Instance Hybrid.scheme.
#[local] Existing Instance Hybrid.scheme_laws.

Lemma forged_payload_outcomes_witness :
  ∃ forged, Samples.forging (text "other") = Ok forged.
Proof.
  destruct (proj1 (is_ok_true_iff _) Samples.opened_ok) as [[o w] E].
  pose proof (forged_payload_outcomes (C := cbor) (CL := cbor_laws)
    (Sig := Hybrid.scheme (P := Sign.Toy.primitives))
    (P := Crypto.Toy.primitives) (L := Crypto.Toy.primitives_laws) Object.Samples.container Crypto.Samples.secret (text "other")
    o w E) as H.
  assert ((MAX_PAYLOAD <? lenN (text "other")) = false) as B by (vm_compute; reflexivity).
  rewrite B in H. destruct H as (forged & _ & _ & _ & _ & _ & _ & Ef & _).
  exists forged. exact Ef.
Defined.

Lemma signature_admits_one_object_witness :
  ∃ o1 w1 o2 w2, Samples.opening Object.Samples.container = Ok (o1, w1) ∧ Object.Samples.opened = Ok (o2, w2) ∧
    ∃ p h a q k b,
      read_as (slice_reader Object.Samples.container) (vec []) w1 p h a ∧
      read_as [Piece Object.Samples.container] Object.Samples.sink w2 q k b.
Proof.
  destruct (proj1 (is_ok_true_iff _) Samples.opened_ok) as [[o1 w1] E1].
  destruct (proj1 (is_ok_true_iff _) sample_opened) as [[o2 w2] E2].
  exists o1, w1, o2, w2. split; [exact E1|]. split; [exact E2|].
  destruct (signature_admits_one_object (C := cbor) (CL := cbor_laws) (CS := cbor_sizes)
    (Sig := Hybrid.scheme (P := Sign.Toy.primitives))
    (P := Crypto.Toy.primitives) (L := Crypto.Toy.primitives_laws) (slice_reader Object.Samples.container) (vec [])
    Crypto.Samples.secret o1 w1 [Piece Object.Samples.container] Object.Samples.sink
    Crypto.Samples.secret o2 w2 sample_slice_live) as (p & h & a & q & k & b & R1 & R2 & _).
  - repeat constructor. vm_compute. discriminate.
  - exact E1.
  - exact E2.
  - exists p, h, a, q, k, b. split; [exact R1|exact R2].
Defined.

Lemma malformed_header_refused_witness :
  ∃ out, Samples.rebuilding = Ok out ∧
    Samples.opening out = Err (Format MalformedHeader).
Proof.
  destruct (proj1 (is_ok_true_iff _) Samples.rebuilt_ok) as [out E].
  exists out. split; [exact E|].
  apply (malformed_header_refused (C := cbor) (CL := cbor_laws)
    (Sig := Hybrid.scheme (P := Sign.Toy.primitives))
    (P := Crypto.Toy.primitives) (L := Crypto.Toy.primitives_laws) Object.Samples.container Crypto.Samples.secret Samples.malformed out
    MalformedHeader E).
  - vm_compute. reflexivity.
  - apply slice_reader_live.
  - apply slice_reader_live.
Defined.

Lemma rewritten_container_verdict_witness :
  ∃ out o staged, Samples.rewriting = Ok out ∧
    Samples.opening Object.Samples.container = Ok (o, staged).
Proof.
  destruct (proj1 (is_ok_true_iff _) Samples.rewritten_ok) as [out E].
  destruct (rewritten_container_verdict (C := cbor) (CL := cbor_laws)
    (Sig := Hybrid.scheme (P := Sign.Toy.primitives))
    (P := Crypto.Toy.primitives) (L := Crypto.Toy.primitives_laws) Object.Samples.container Crypto.Samples.secret (Some 3) None
    id id out E (λ _ T, T)) as (o & staged & H).
  exists out, o, staged. split; [exact E|].
  destruct H as (p & h & prot & mac & salt & rest & cek & plain & sealed & q & outer & payload & prot'
    & mac' & Ho & _). exact Ho.
Defined.

Lemma vector_container_verdict_witness :
  ∃ output', Samples.writing = Ok (5, output').
Proof.
  destruct (proj1 (is_ok_true_iff _) Samples.vector_ok) as [[n o] E]. rewrite E.
  destruct (vector_container_verdict (C := cbor) (CL := cbor_laws)
    (Sig := Hybrid.scheme (P := Sign.Toy.primitives))
    (SL := Hybrid.scheme_laws (L := Sign.Toy.primitives_laws))
    (P := Crypto.Toy.primitives) (L := Crypto.Toy.primitives_laws) Object.Samples.source Object.Samples.sink Crypto.Samples.public
    default_metadata Object.Samples.signer Samples.grease Crypto.Samples.secret n o
    (proj1 sample_streams) (proj2 sample_streams) default_metadata_typed eq_refl) as [-> _].
  - split; [reflexivity|repeat constructor; vm_compute; discriminate|].
    repeat constructor. vm_compute. discriminate.
  - intros H. vm_compute in H. discriminate H.
  - exact sample_key.
  - exact E.
  - exists o. reflexivity.
Defined.
End witnesses.
