(* ===== verification/Keyring.v ===== *)
(** [hide-keyring/src/lib.rs]: key files, a seed sealed under a passphrase.
    Argon2 and Unicode normalisation are third-party: classes [Argon2] and
    [Unicode]. The AEAD is that of suite 1; HKDF expansion of a master seed is
    a parameter. What [getrandom] gives is an argument. *)
From S2P Require Import Prelude Utf8 Crypto.
Local Open Scope N_scope.

Definition MAGIC : bytes := text "HIDE-KEY".
Definition FORMAT_VERSION : N := 2.
Definition LEGACY_VERSION : N := 1.
Definition SALT_LEN : N := 16.
Definition NONCE_LEN : N := 12.
Definition SEED_LEN : N := 32.
Definition TAG_LEN : N := 16.
Definition LEGACY_HEADER_LEN : N := 8 + 1 + 1 + 4 + 4 + SALT_LEN + NONCE_LEN.
Definition HEADER_LEN : N := LEGACY_HEADER_LEN + 1.
Definition SEALED_LEN : N := HEADER_LEN + SEED_LEN + TAG_LEN.
Definition LEGACY_SEALED_LEN : N := LEGACY_HEADER_LEN + SEED_LEN + TAG_LEN.
Definition MEMORY_KIB : N := 19 * 1024.
Definition ITERATIONS : N := 2.
Definition PARALLELISM : N := 1.
Definition MAX_MEMORY_KIB : N := 256 * 1024.
Definition MAX_ITERATIONS : N := 64.
Definition MAX_PARALLELISM : N := 4.
Definition MIN_MEMORY_KIB : N := 8 * 1024.
Definition MIN_ITERATIONS : N := 1.
Definition PARAMS_LEN : N := 9.
Definition MIN_PASSPHRASE_LEN : N := 8.
Definition ENCRYPTION_INFO : bytes := text "HIDE/0.5 identity encryption".
Definition SIGNING_INFO : bytes := text "HIDE/0.5 identity signing".

Inductive KeyPurpose := Identity | Encryption.

#[export] Instance KeyPurpose_eq_dec : EqDecision KeyPurpose.
Proof. solve_decision. Defined.

Definition tag (p : KeyPurpose) : N := match p with Identity => 1 | Encryption => 2 end.

Definition from_tag (t : N) : option KeyPurpose :=
  if t =? 1 then Some Identity else if t =? 2 then Some Encryption else None.

(** The code's [Crypto(String)] keeps only what the cause prints. *)
Inductive Failure :=
| Primitive (error : CryptoError)
| NoRandomness
| Sealing (what : bytes).

#[export] Instance Failure_eq_dec : EqDecision Failure.
Proof. solve_decision. Defined.

Inductive KeyringError :=
| NotAKeyFile
| NotAnEpochStore
| TooManyEntries (limit : N)
| UnsupportedVersion (version : N)
| Malformed
| UnreasonableParameters
| WrongPassphrase
| PassphraseTooShort (least : N)
| WrongPurpose (expected found : KeyPurpose)
| CryptoFailed (why : Failure).

#[export] Instance KeyringError_eq_dec : EqDecision KeyringError.
Proof. solve_decision. Defined.

Record Argon2Params := { parallelism : N; memory : N; iterations : N }.

Definition WRITER : Argon2Params :=
  {| parallelism := PARALLELISM; memory := MEMORY_KIB; iterations := ITERATIONS |}.

Definition encode_params (p : Argon2Params) : bytes :=
  byte_of p.(parallelism) :: u32be p.(memory) ++ u32be p.(iterations).

Definition parse_params (b : bytes) : result KeyringError Argon2Params :=
  refuse_if (negb (lenN b =? PARAMS_LEN)) Malformed;;
  let parallelism := byte_at 0 b in
  let memory := unbe (slice 1 5 b) in
  let iterations := unbe (slice 5 9 b) in
  refuse_if
    ((parallelism =? 0) || (MAX_PARALLELISM <? parallelism)
     || negb ((MIN_MEMORY_KIB <=? memory) && (memory <=? MAX_MEMORY_KIB))
     || negb ((MIN_ITERATIONS <=? iterations) && (iterations <=? MAX_ITERATIONS))
     || (memory / 8 <? parallelism))
    UnreasonableParameters;;
  Ok {| parallelism := parallelism; memory := memory; iterations := iterations |}.

(** ** Third-party code *)

(** [Params::new(memory, iterations, parallelism, Some(32))] succeeds, and
    [Argon2::new(Argon2id, V0x13, params).hash_password_into(password, salt, _)]. *)
Class Argon2 := {
  params_new : Argon2Params → bool;
  hash_password_into : Argon2Params → bytes → bytes → option bytes;
}.

(** [str::nfc] and [str::nfd] of the crate [unicode_normalization]. *)
Class Unicode := { nfc : bytes → bytes; nfd : bytes → bytes }.

(** [Hkdf::<Sha256>::from_prk(seed).expand(info, &mut [0; 32])] *)
Class Expand := { expand_seed : bytes → bytes → bytes }.

(** The derivation accepts what a writer and a bounded reader ask of it. *)
Class Argon2Laws (A : Argon2) : Prop := {
  argon2_accepts p password salt :
    MIN_MEMORY_KIB <= p.(memory) <= MAX_MEMORY_KIB →
    MIN_ITERATIONS <= p.(iterations) <= MAX_ITERATIONS →
    1 <= p.(parallelism) <= MAX_PARALLELISM →
    lenN password <= u32_max → lenN salt = SALT_LEN →
    params_new p = true ∧ ∃ k, hash_password_into p password salt = Some k;
}.

Class ExpandLaws (E : Expand) : Prop := {
  expand_seed_length seed info : lenN (expand_seed seed info) = SEED_LEN;
}.

(** * Key files *)
Section argon.
Context {A : Argon2}.

Definition derive (p : Argon2Params) (passphrase salt : bytes) : result KeyringError DerivedKey :=
  refuse_if (negb (params_new p)) UnreasonableParameters;;
  k ← ok_or (hash_password_into p passphrase salt) UnreasonableParameters;
  Ok {| derived_key := k |}.
End argon.

Section passphrases.
Context {U : Unicode}.

Definition normalize_passphrase (passphrase : bytes) : bytes := nfc passphrase.

(** The NFC, raw and NFD spellings, each kept once. *)
Definition passphrase_candidates (passphrase : bytes) : list bytes :=
  fold_left (λ out c, if existsb (λ seen, bool_decide (seen = c)) out then out else out ++ [c])
    [normalize_passphrase passphrase; passphrase; nfd passphrase] [].
End passphrases.

Inductive KeyFormat := Protected | Raw.

Definition inspect (b : bytes) : KeyFormat := if starts_with MAGIC b then Protected else Raw.

Definition crypto {T} (m : result CryptoError T) : result KeyringError T :=
  map_err (λ e, CryptoFailed (Primitive e)) m.

Section identity.
Context {X : Expand}.

(** The master seed of an identity and the two keys derived from it. *)
Record MasterIdentity := { seed : bytes }.

Definition generate_identity (random : option bytes) : result KeyringError MasterIdentity :=
  s ← ok_or random (CryptoFailed NoRandomness); Ok {| seed := s |}.

Definition derive_seed (i : MasterIdentity) (info : bytes) : bytes := expand_seed i.(seed) info.

Definition recipient_secret (i : MasterIdentity) : result KeyringError RecipientSecret :=
  crypto (secret_from_bytes (derive_seed i ENCRYPTION_INFO)).

Definition signing_seed (i : MasterIdentity) : bytes := derive_seed i SIGNING_INFO.
End identity.

Section files.
Context {P : Primitives} {A : Argon2} {U : Unicode} {X : Expand}.

Definition encode_header (salt nonce : bytes) (purpose : KeyPurpose) : bytes :=
  MAGIC ++ [byte_of FORMAT_VERSION] ++ encode_params WRITER ++ salt ++ nonce ++ [byte_of (tag purpose)].

Definition protect_seed (seed passphrase : bytes) (purpose : KeyPurpose)
    (random_salt random_nonce : option bytes) : result KeyringError bytes :=
  let passphrase := normalize_passphrase passphrase in
  refuse_if (lenN (chars passphrase) <? MIN_PASSPHRASE_LEN) (PassphraseTooShort MIN_PASSPHRASE_LEN);;
  refuse_if (negb (lenN seed =? SEED_LEN)) Malformed;;
  salt ← ok_or random_salt (CryptoFailed NoRandomness);
  nonce ← ok_or random_nonce (CryptoFailed NoRandomness);
  let header := encode_header salt nonce purpose in
  wrapping ← derive WRITER passphrase salt;
  sealed ← crypto (seal wrapping nonce header seed);
  Ok (header ++ sealed).

Definition protect (secret : RecipientSecret) (passphrase : bytes)
    (random_salt random_nonce : option bytes) : result KeyringError bytes :=
  protect_seed (expose_seed_for_sealing secret) passphrase Encryption random_salt random_nonce.

Definition protect_identity (seed passphrase : bytes) (random_salt random_nonce : option bytes)
  : result KeyringError bytes :=
  protect_seed seed passphrase Identity random_salt random_nonce.

(** The loop of [unprotect_seed] over the spellings of the passphrase. *)
Fixpoint try_candidates (params : Argon2Params) (salt nonce header sealed : bytes)
    (candidates : list bytes) : result KeyringError bytes :=
  match candidates with
  | [] => Err WrongPassphrase
  | c :: candidates =>
      wrapping ← derive params c salt;
      match open wrapping nonce header sealed with
      | Ok seed => Ok seed
      | Err _ => try_candidates params salt nonce header sealed candidates
      end
  end.

Definition lengths (version : N) : result KeyringError (N * N) :=
  if version =? FORMAT_VERSION then Ok (HEADER_LEN, SEALED_LEN)
  else if version =? LEGACY_VERSION then Ok (LEGACY_HEADER_LEN, LEGACY_SEALED_LEN)
  else Err (UnsupportedVersion version).

Definition read_purpose (version : N) (b : bytes) : result KeyringError KeyPurpose :=
  if version =? LEGACY_VERSION then Ok Encryption
  else ok_or (from_tag (byte_at (N.to_nat LEGACY_HEADER_LEN) b)) Malformed.

Definition unprotect_seed (b passphrase : bytes) : result KeyringError (bytes * KeyPurpose) :=
  refuse_if (negb (starts_with MAGIC b)) NotAKeyFile;;
  v ← ok_or (b !! 8%nat) Malformed;
  let version := Byte.to_N v in
  '(header_len, expected_len) ← lengths version;
  refuse_if (negb (lenN b =? expected_len)) Malformed;;
  params ← parse_params (slice 9 (9 + PARAMS_LEN) b);
  purpose ← read_purpose version b;
  let salt := slice 18 (18 + SALT_LEN) b in
  let nonce := slice (18 + SALT_LEN) (18 + SALT_LEN + NONCE_LEN) b in
  seed ← try_candidates params salt nonce (take (N.to_nat header_len) b)
           (drop (N.to_nat header_len) b) (passphrase_candidates passphrase);
  Ok (seed, purpose).

Definition unprotect (b passphrase : bytes) : result KeyringError RecipientSecret :=
  '(seed, purpose) ← unprotect_seed b passphrase;
  refuse_if (negb (bool_decide (purpose = Encryption))) (WrongPurpose Encryption purpose);;
  crypto (secret_from_bytes seed).

Definition open_key (b : bytes) (passphrase : option bytes) : result KeyringError RecipientSecret :=
  match inspect b with
  | Raw =>
      refuse_if (negb (lenN b =? SEED_LEN)) Malformed;;
      recipient_secret {| seed := b |}
  | Protected =>
      passphrase ← ok_or passphrase WrongPassphrase;
      '(s, purpose) ← unprotect_seed b passphrase;
      match purpose with
      | Identity => recipient_secret {| seed := s |}
      | Encryption => crypto (secret_from_bytes s)
      end
  end.
End files.

(** * Lemmas *)
Definition in_bounds (p : Argon2Params) : Prop :=
  1 <= p.(parallelism) <= MAX_PARALLELISM ∧ MIN_MEMORY_KIB <= p.(memory) <= MAX_MEMORY_KIB ∧
  MIN_ITERATIONS <= p.(iterations) <= MAX_ITERATIONS.

Ltac key_lengths := unfold LEGACY_SEALED_LEN, SEALED_LEN, HEADER_LEN, LEGACY_HEADER_LEN, PARAMS_LEN,
  SALT_LEN, NONCE_LEN, SEED_LEN, TAG_LEN, TAG_LENGTH, KEY_LENGTH in *.
Ltac argon_bounds := unfold MIN_MEMORY_KIB, MAX_MEMORY_KIB, MIN_ITERATIONS, MAX_ITERATIONS,
  MAX_PARALLELISM in *.

Lemma in_bounds_writer : in_bounds WRITER.
Proof.
  unfold in_bounds, WRITER, PARALLELISM, MEMORY_KIB, ITERATIONS. argon_bounds. cbn. lia.
Qed.

Lemma length_encode_params p : length (encode_params p) = 9%nat.
Proof. unfold encode_params. cbn [length]. by rewrite length_app, !length_u32be. Qed.

Lemma byte_of_byte_at l : (0 < length l)%nat → [byte_of (byte_at 0 l)] ++ drop 1 l = l.
Proof. destruct l as [|b l]; [cbn; lia|]. intros _. unfold byte_at. cbn [nth drop app]. by rewrite byte_of_to_N, ?drop_0. Qed.

Lemma parse_params_Ok_iff b p : parse_params b = Ok p ↔ b = encode_params p ∧ in_bounds p.
Proof.
  unfold parse_params, in_bounds, PARAMS_LEN. cbn zeta. split.
  - intros H. inv_ok. b2p. cbn [parallelism memory iterations].
    split; [|b2p; lia]. unfold encode_params. cbn [parallelism memory iterations].
    unfold u32be. rewrite !(be_unbe_len 4) by (pose proof (length_slice 1 5 b); pose proof (length_slice 5 9 b); lia).
    rewrite <- (byte_of_byte_at b) at 1 by lia. cbn [app]. f_equal.
    rewrite <- (slice_drop 1 5) by lia. f_equal. unfold slice.
    rewrite take_ge; [done|]. rewrite length_drop. lia.
  - intros (-> & H1 & H2 & H3). argon_bounds. destruct p as [p m i]. cbn [parallelism memory iterations] in *.
    rewrite (refuse_if_pass (negb (lenN (encode_params _) =? 9))) by (by rewrite length_encode_params).
    rewrite bind_of_Ok.
    unfold encode_params, byte_at. cbn [parallelism memory iterations nth].
    rewrite to_N_byte_of, (N.mod_small p) by lia.
    rewrite (slice_app 1 5 [byte_of p] (u32be m) (u32be i)) by (done || by rewrite length_u32be).
    rewrite (slice_app 5 9 (byte_of p :: u32be m) (u32be i) []) by
      (by rewrite ?app_nil_r || by cbn [length]; rewrite ?length_u32be).
    rewrite !unbe_u32be by (unfold u32_max; lia).
    assert (p <= m / 8) by (apply N.div_le_lower_bound; lia).
    rewrite refuse_if_pass; [done|]. lia.
Qed.

(** A key file of either version, its header and what it seals. *)
Definition key_header (version : N) (p : Argon2Params) (salt nonce : bytes) (purpose : KeyPurpose)
  : bytes :=
  MAGIC ++ [byte_of version] ++ encode_params p ++ salt ++ nonce
    ++ (if version =? LEGACY_VERSION then [] else [byte_of (tag purpose)]).

Record well_formed (version : N) (p : Argon2Params) (salt nonce : bytes) (purpose : KeyPurpose)
    (sealed : bytes) : Prop := {
  known_version : version = FORMAT_VERSION ∨ version = LEGACY_VERSION ∧ purpose = Encryption;
  bounded : in_bounds p;
  salt_length : lenN salt = SALT_LEN;
  nonce_length : lenN nonce = NONCE_LEN;
  sealed_length : lenN sealed = SEED_LEN + TAG_LEN;
}.

Lemma from_tag_Some_iff t p : from_tag t = Some p ↔ t = tag p.
Proof.
  unfold from_tag. destruct (N.eqb_spec t 1) as [->|]; [by destruct p|].
  destruct (N.eqb_spec t 2) as [->|]; [by destruct p|]. destruct p; naive_solver.
Qed.

Section laws.
Context {P : Primitives} {L : PrimitivesLaws P} {A : Argon2} {U : Unicode}.

Lemma candidates_first pw : ∃ rest, passphrase_candidates pw = nfc pw :: rest ∧ (length rest <= 2)%nat.
Proof.
  unfold passphrase_candidates, normalize_passphrase. cbn [fold_left existsb app].
  repeat case_match; cbn [app]; eexists; (split; [done|cbn; lia]).
Qed.

Lemma try_candidates_Ok p salt nonce header sealed cs s :
  try_candidates p salt nonce header sealed cs = Ok s →
  ∃ c k, c ∈ cs ∧ derive p c salt = Ok k ∧ open k nonce header sealed = Ok s.
Proof.
  induction cs as [|c cs IH]; cbn [try_candidates]; [done|]. intros H. inv_ok.
  destruct (open _ _ _ _) eqn:E; inv_ok.
  - eexists c, _. split; [by left|]. by split; [|rewrite E].
  - destruct (IH H) as (c' & k & ? & ?). exists c', k. split; [by right|done].
Qed.

Lemma length_key_header v p salt nonce purpose :
  lenN salt = SALT_LEN → lenN nonce = NONCE_LEN →
  lenN (key_header v p salt nonce purpose)
    = if v =? LEGACY_VERSION then LEGACY_HEADER_LEN else HEADER_LEN.
Proof.
  intros Hs Hn. unfold key_header. rewrite !length_app, length_encode_params.
  key_lengths. change (length MAGIC) with 8%nat. case_match; cbn [length]; lia.
Qed.

Lemma unprotect_seed_well_formed v p salt nonce purpose sealed pw :
  well_formed v p salt nonce purpose sealed →
  unprotect_seed (key_header v p salt nonce purpose ++ sealed) pw =
  (s ← try_candidates p salt nonce (key_header v p salt nonce purpose) sealed
         (passphrase_candidates pw);
   Ok (s, purpose)).
Proof.
  intros [Hv Hb Hs Hn Hl].
  pose proof (length_key_header v p salt nonce purpose Hs Hn) as Hh.
  set (h := key_header _ _ _ _ _) in *. set (b := h ++ sealed).
  assert (∃ t, h = MAGIC ++ [byte_of v] ++ encode_params p ++ salt ++ nonce ++ t ∧
    (v ≠ LEGACY_VERSION → t = [byte_of (tag purpose)])) as (t & Eh & Et).
  { eexists. split; [done|]. intros. by destruct (N.eqb_spec v LEGACY_VERSION). }
  assert (v = 1 ∨ v = 2) as Hv' by (unfold FORMAT_VERSION, LEGACY_VERSION in *; naive_solver).
  assert (Eb : b = MAGIC ++ [byte_of v] ++ encode_params p ++ salt ++ nonce ++ t ++ sealed)
    by (unfold b; rewrite Eh, <- !app_assoc; done).
  pose proof (length_encode_params p) as Hp. change (length MAGIC) with 8%nat in *.
  assert (b !! 8%nat = Some (byte_of v)) as E8 by (rewrite Eb; reflexivity).
  assert (Byte.to_N (byte_of v) = v) as Ev by (rewrite to_N_byte_of, N.mod_small; lia).
  assert (slice 9 18 b = encode_params p) as E9
    by (apply (slice_app 9 18 (MAGIC ++ [byte_of v]) _ (salt ++ nonce ++ t ++ sealed));
        [by rewrite Eb, <- ?app_assoc|done|lia]).
  assert (slice 18 34 b = salt) as E18
    by (apply (slice_app 18 34 (MAGIC ++ [byte_of v] ++ encode_params p) _ (nonce ++ t ++ sealed));
        [by rewrite Eb, <- ?app_assoc|rewrite !length_app, Hp; done|key_lengths; lia]).
  assert (slice 34 46 b = nonce) as E34
    by (apply (slice_app 34 46 (MAGIC ++ [byte_of v] ++ encode_params p ++ salt) _ (t ++ sealed));
        [by rewrite Eb, <- ?app_assoc|rewrite !length_app, Hp; key_lengths; change (length MAGIC) with 8%nat; cbn [length]; lia|key_lengths; lia]).
  assert (lengths v = Ok (lenN h, lenN b)) as El.
  { unfold b. rewrite length_app, Nat2N.inj_add, Hh, Hl. destruct Hv' as [-> | ->]; reflexivity. }
  assert (read_purpose v b = Ok purpose) as Ep.
  { unfold read_purpose. destruct Hv as [-> |[-> ->]]; [|done]. cbn [N.eqb].
    change (2 =? 1) with false. cbn. rewrite Eb, Et by done.
    unfold byte_at. rewrite !app_assoc, <- (app_assoc _ _ sealed).
    rewrite app_nth2 by (rewrite !length_app, Hp; key_lengths; change (length MAGIC) with 8%nat; cbn [length]; lia).
    replace (_ - _)%nat with 0%nat by (rewrite !length_app, Hp; key_lengths; change (length MAGIC) with 8%nat; cbn [length]; lia).
    cbn [nth app]. apply ok_or_Ok_iff, from_tag_Some_iff. rewrite to_N_byte_of. by destruct purpose. }
  unfold unprotect_seed. rewrite (proj2 (starts_with_true_iff _ b)) by (eexists; exact Eb).
  cbn [negb refuse_if]. rewrite bind_of_Ok, E8. cbn [ok_or]. rewrite bind_of_Ok, Ev, El, bind_of_Ok.
  rewrite N.eqb_refl. cbn [negb refuse_if]. rewrite bind_of_Ok.
  change (9 + PARAMS_LEN) with 18. change (18 + SALT_LEN + NONCE_LEN) with 46.
  change (18 + SALT_LEN) with 34. rewrite E9, E18, E34.
  rewrite (proj2 (parse_params_Ok_iff _ p)) by done. rewrite bind_of_Ok, Ep, bind_of_Ok.
  rewrite Nat2N.id. unfold b. by rewrite take_app_length, drop_app_length.
Qed.

Lemma unprotect_seed_Ok b pw s purpose :
  unprotect_seed b pw = Ok (s, purpose) →
  ∃ v p salt nonce sealed, well_formed v p salt nonce purpose sealed ∧
    b = key_header v p salt nonce purpose ++ sealed ∧
    try_candidates p salt nonce (key_header v p salt nonce purpose) sealed
      (passphrase_candidates pw) = Ok s.
Proof.
  intros H. unfold unprotect_seed in H. inv_ok. b2p.
  match goal with H : starts_with _ _ = true |- _ => apply starts_with_true_iff in H as [r Er] end.
  change (9 + PARAMS_LEN) with 18 in *. change (18 + SALT_LEN + NONCE_LEN) with 46 in *.
  change (18 + SALT_LEN) with 34 in *.
  match goal with H : b !! 8%nat = Some ?a |- _ => rename H into H8; set (v := Byte.to_N a) in *;
    assert (Ea : byte_of v = a) by apply byte_of_to_N end.
  match goal with H : parse_params _ = Ok ?p |- _ => rename p into pa; rename H into Hp end.
  apply parse_params_Ok_iff in Hp as [Hp Hb].
  set (salt := slice 18 34 b) in *. set (nonce := slice 34 46 b) in *.
  assert (46 <= lenN b ∧ (n = 46 ∧ lenN b = 94 ∧ v = 1 ∨ n = 47 ∧ lenN b = 95 ∧ v = 2)) as [Hlb Hn].
  { unfold lengths, FORMAT_VERSION, LEGACY_VERSION in Hok1.
    destruct (N.eqb_spec v 2); [|destruct (N.eqb_spec v 1); [|done]];
      apply Ok_inj, pair_equal_spec in Hok1 as [<- <-]; key_lengths; lia. }
  assert (b = MAGIC ++ [byte_of v] ++ encode_params pa ++ salt ++ nonce ++ drop 46 b) as Eb.
  { rewrite <- Hp. unfold salt, nonce. rewrite (slice_drop 34 46), (slice_drop 18 34), (slice_drop 9 18) by lia.
    destruct r as [|y r]; [rewrite Er in H8; done|].
    assert (y = a0) as -> by (rewrite Er in H8; change (Some y = Some a0) in H8; congruence).
    rewrite Ea. rewrite Er at 2. rewrite Er. done. }
  assert (lenN salt = 16 ∧ lenN nonce = 12) as [Hsl Hnl]
    by (unfold salt, nonce; rewrite !length_slice by lia; done).
  exists v, pa, salt, nonce, (drop (N.to_nat n) b).
  assert (b = key_header v pa salt nonce purpose ++ drop (N.to_nat n) b) as Ek.
  { rewrite Eb at 1. unfold key_header. rewrite <- !app_assoc. do 5 f_equal. unfold read_purpose in Hok4.
    destruct Hn as [(-> & _ & ->)|(-> & Hl & ->)]; [done|].
    change (2 =? LEGACY_VERSION) with false in *. apply ok_or_Ok_iff, from_tag_Some_iff in Hok4 as Ht.
    unfold byte_at in Ht. change (N.to_nat LEGACY_HEADER_LEN) with 46%nat in Ht.
    rewrite <- Ht, byte_of_to_N. change (N.to_nat 47) with 47%nat. cbn [app].
    destruct (lookup_lt_is_Some_2 b 46) as [x Hx]; [lia|].
    rewrite (nth_lookup_Some _ _ _ _ Hx). by apply drop_S. }
  split_and!; [|exact Ek|].
  - split; [|done|done|done|].
    + destruct Hn as [(_ & _ & ->)|(_ & _ & ->)]; [right|by left].
      split; [done|]. by apply Ok_inj in Hok4.
    + rewrite length_drop. key_lengths. lia.
  - assert (take (N.to_nat n) b = key_header v pa salt nonce purpose) as <-; [|done].
    rewrite Ek. apply take_app_len.
    pose proof (length_key_header v pa salt nonce purpose Hsl Hnl) as Hh.
    destruct Hn as [(-> & _ & Hv)|(-> & _ & Hv)]; rewrite Hv in *; cbn in Hh |- *; key_lengths; lia.
Qed.

(** A file that was written opens on the first spelling tried. *)
Lemma unprotect_protect s purpose pw file salt nonce pw' :
  protect_seed s pw purpose (Some salt) (Some nonce) = Ok file →
  lenN salt = SALT_LEN → lenN nonce = NONCE_LEN → nfc pw' = nfc pw →
  lenN file = SEALED_LEN ∧ inspect file = Protected ∧ unprotect_seed file pw' = Ok (s, purpose).
Proof.
  intros H Hs Hn Hpw. unfold protect_seed in H. inv_ok. b2p.
  match goal with Hs : lenN ?x = SALT_LEN, Hn : lenN ?y = NONCE_LEN |- _ =>
    rename x into salt, y into nonce end.
  match goal with H : derive _ _ _ = Ok ?k, H' : crypto (seal ?k _ _ _) = Ok ?c |- _ =>
    rename H into Hd; apply map_err_Ok_iff in H' as Hc; rename k into key, c into sealed end.
  pose proof (seal_length _ _ _ _ _ Hc) as Hl. apply open_seal in Hc.
  assert (encode_header salt nonce purpose = key_header FORMAT_VERSION WRITER salt nonce purpose)
    as Eh by reflexivity.
  rewrite Eh in *. pose proof (length_key_header FORMAT_VERSION WRITER salt nonce purpose Hs Hn) as Hh.
  change (FORMAT_VERSION =? LEGACY_VERSION) with false in Hh.
  split_and!.
  - rewrite length_app. unfold SEALED_LEN. key_lengths. lia.
  - unfold inspect, key_header. rewrite <- !app_assoc. by rewrite starts_with_app.
  - rewrite unprotect_seed_well_formed.
    2:{ split; [by left|apply in_bounds_writer|done|done|key_lengths; lia]. }
    destruct (candidates_first pw') as (rest & -> & _). unfold normalize_passphrase in Hd.
    cbn [try_candidates]. rewrite Hpw, Hd, bind_of_Ok, Hc. done.
Qed.

Lemma derive_total {AL : Argon2Laws A} p pw salt :
  in_bounds p → lenN pw <= u32_max → lenN salt = SALT_LEN → ∃ k, derive p pw salt = Ok k.
Proof.
  intros (H1 & H2 & H3) Hl Hs. destruct (argon2_accepts p pw salt) as (Hp & k & Hk); [done..|].
  unfold derive. rewrite Hp. cbn [negb refuse_if]. rewrite bind_of_Ok, Hk. by eexists.
Qed.

(** What Argon2 and the AEAD accept, a writer asks for. *)
Lemma protect_seed_total {AL : Argon2Laws A} s purpose pw salt nonce :
  lenN s = SEED_LEN → MIN_PASSPHRASE_LEN <= lenN (chars (nfc pw)) → lenN (nfc pw) <= u32_max →
  lenN salt = SALT_LEN →
  ∃ file, protect_seed s pw purpose (Some salt) (Some nonce) = Ok file.
Proof.
  intros Hs Hc Hl Hsalt. unfold protect_seed, normalize_passphrase.
  rewrite (refuse_if_pass (_ <? _)) by lia. rewrite bind_of_Ok.
  rewrite (refuse_if_pass (negb _)) by lia. rewrite bind_of_Ok. cbn [ok_or]. rewrite !bind_of_Ok.
  destruct (derive_total WRITER (nfc pw) salt in_bounds_writer Hl Hsalt) as [k ->]. rewrite bind_of_Ok.
  destruct (seal_total k nonce (encode_header salt nonce purpose) s) as [c Ec];
    [key_lengths; unfold AEAD_MAX; lia|].
  rewrite Ec. cbn [crypto map_err]. rewrite bind_of_Ok. by eexists.
Qed.
End laws.

(** * Properties *)
Section properties.
Context {P : Primitives} {L : PrimitivesLaws P} {A : Argon2} {AL : Argon2Laws A}.
Context {U : Unicode} {X : Expand} {XL : ExpandLaws X}.

(** C35. A sealed key opens: a seed protected under a passphrase of at least
    eight characters gives a file of fixed length from which every spelling
    with the same normal form recovers the seed and its purpose, and nothing
    else: an identity file is refused where an encryption-only key is asked
    for, and yields the derived encryption key where any key will do, the same
    key as the raw seed file. A shorter passphrase or a seed of another length
    writes nothing. *)
Theorem sealed_key_opens (s pw salt nonce : bytes) (purpose : KeyPurpose) :
  lenN s = SEED_LEN → lenN (nfc pw) <= u32_max → lenN salt = SALT_LEN → lenN nonce = NONCE_LEN →
  (lenN (chars (nfc pw)) < MIN_PASSPHRASE_LEN →
     protect_seed s pw purpose (Some salt) (Some nonce) = Err (PassphraseTooShort MIN_PASSPHRASE_LEN)) ∧
  (MIN_PASSPHRASE_LEN <= lenN (chars (nfc pw)) →
   ∃ file, protect_seed s pw purpose (Some salt) (Some nonce) = Ok file ∧
     lenN file = SEALED_LEN ∧ inspect file = Protected ∧
     ∀ pw', nfc pw' = nfc pw →
       unprotect_seed file pw' = Ok (s, purpose) ∧
       match purpose with
       | Encryption =>
           unprotect file pw' = Ok {| recipient_seed := s |} ∧
           open_key file (Some pw') = Ok {| recipient_seed := s |}
       | Identity =>
           unprotect file pw' = Err (WrongPurpose Encryption Identity) ∧
           open_key file (Some pw') =
             Ok {| recipient_seed := expand_seed s ENCRYPTION_INFO |} ∧
           (inspect s = Raw → open_key s None = open_key file (Some pw'))
       end).
Proof.
  intros Hs Hl Hsalt Hnonce. split.
  { intros H. unfold protect_seed, normalize_passphrase. by rewrite (proj2 (N.ltb_lt _ _) H). }
  intros Hc. destruct (protect_seed_total s purpose pw salt nonce) as [file Hf]; [done..|].
  exists file. destruct (unprotect_protect _ _ _ _ _ _ pw Hf Hsalt Hnonce eq_refl) as (Hlen & Hi & _).
  split_and!; [done..|]. intros pw' Hpw.
  destruct (unprotect_protect _ _ _ _ _ _ pw' Hf Hsalt Hnonce Hpw) as (_ & _ & Hu).
  split; [done|]. unfold unprotect, open_key. rewrite Hi, Hu, !bind_of_Ok. cbn [ok_or].
  rewrite !bind_of_Ok, Hu, !bind_of_Ok.
  assert (∀ b, lenN b = SEED_LEN → crypto (secret_from_bytes b) = Ok {| recipient_seed := b |}) as Hb.
  { intros b Hb. unfold secret_from_bytes, require_length, KEY_LENGTH, SEED_LEN in *. by rewrite Hb. }
  destruct purpose; cbn [bool_decide negb refuse_if].
  - unfold recipient_secret, derive_seed. cbn [seed]. rewrite (Hb (expand_seed s ENCRYPTION_INFO)) by apply expand_seed_length.
    split_and!; [done|done|]. intros ->. by rewrite Hs.
  - rewrite bool_decide_eq_true_2 by done. cbn [negb refuse_if]. rewrite bind_of_Ok, Hb by done. done.
Qed.

(** A hostile header costs nothing it does not declare within bounds: a
    file whose parameters are refused is refused without Argon2, whatever it
    computes; any other reaches Argon2 only with its own parameters, which are
    within the ceilings, and its own salt, for at most three spellings of the
    passphrase, one when normalisation leaves it alone. *)
Theorem argon_bounded_by_header (b pw : bytes) :
  (∀ e, parse_params (slice 9 18 b) = Err e →
     ∀ A', unprotect_seed (A := A') b pw = unprotect_seed (A := A) b pw) ∧
  (∀ p, parse_params (slice 9 18 b) = Ok p →
     (1 <= p.(parallelism) <= 4 ∧ 8192 <= p.(memory) <= 262144 ∧ 1 <= p.(iterations) <= 64) ∧
     ∀ A', (∀ c, c ∈ passphrase_candidates pw →
              derive (A := A') p c (slice 18 34 b) = derive (A := A) p c (slice 18 34 b)) →
       unprotect_seed (A := A') b pw = unprotect_seed (A := A) b pw) ∧
  (length (passphrase_candidates pw) <= 3)%nat ∧
  (nfc pw = pw → nfd pw = pw → passphrase_candidates pw = [pw]).
Proof.
  assert (∀ A' p salt nonce h c cs, (∀ x, x ∈ cs → derive (A := A') p x salt = derive (A := A) p x salt) →
    try_candidates (A := A') p salt nonce h c cs = try_candidates (A := A) p salt nonce h c cs) as Htry.
  { intros A' p salt nonce h c cs. induction cs as [|x cs IH]; intros H; [done|]. cbn [try_candidates].
    rewrite H by by left. destruct (derive p x salt); cbn; [|done].
    rewrite IH by (intros; apply H; by right). done. }
  split_and!.
  - intros e He A'. unfold unprotect_seed. change (9 + PARAMS_LEN) with 18. by rewrite He.
  - intros p Hp. pose proof Hp as Hb. apply parse_params_Ok_iff in Hb as (_ & Hb).
    split; [exact Hb|]. intros A' HA. unfold unprotect_seed.
    change (9 + PARAMS_LEN) with 18. change (18 + SALT_LEN) with 34. rewrite Hp.
    destruct (starts_with MAGIC b); [|done]. cbn [negb refuse_if]. rewrite !bind_of_Ok.
    destruct (b !! 8%nat); [|done]. cbn [ok_or]. rewrite !bind_of_Ok.
    destruct (lengths _) as [[hl el]|]; [|done]. rewrite !bind_of_Ok.
    destruct (lenN b =? el); [|done]. cbn [negb refuse_if]. rewrite !bind_of_Ok.
    destruct (read_purpose _ b); [|done]. rewrite !bind_of_Ok. by rewrite Htry.
  - destruct (candidates_first pw) as (rest & -> & H). cbn. lia.
  - intros H1 H2. unfold passphrase_candidates, normalize_passphrase. rewrite H1, H2.
    repeat (cbn [fold_left existsb app orb]; rewrite ?bool_decide_eq_true_2 by done). done.
Qed.

(** Only a sealed seed opens: a file that opens is exactly a version 2
    header with its purpose, or a version 1 header, then an encryption-only
    key, with bounded Argon2 parameters, followed by the seed sealed by the
    AEAD with that whole header as associated data, under the key Argon2
    stretches from one spelling of the passphrase; what it yields is 32 bytes. *)
Theorem opened_key_file_sound (b pw s : bytes) (purpose : KeyPurpose) :
  unprotect_seed b pw = Ok (s, purpose) →
  ∃ version p salt nonce sealed, b = key_header version p salt nonce purpose ++ sealed ∧
    well_formed version p salt nonce purpose sealed ∧ lenN s = SEED_LEN ∧
    ∃ c k, (c = nfc pw ∨ c = pw ∨ c = nfd pw) ∧ hash_password_into p c salt = Some k ∧
      open {| derived_key := k |} nonce (key_header version p salt nonce purpose) sealed = Ok s.
Proof.
  intros H. apply unprotect_seed_Ok in H as (v & p & salt & nonce & sealed & Hw & Hb & H).
  exists v, p, salt, nonce, sealed. apply try_candidates_Ok in H as (c & k & Hc & Hk & Ho).
  split_and!; [done|done| |].
  - apply open_length in Ho. destruct Hw. key_lengths. lia.
  - unfold derive in Hk. inv_ok. eexists c, _. split_and!; [|done|done].
    unfold passphrase_candidates, normalize_passphrase in Hc. cbn [fold_left existsb app] in Hc.
    repeat case_match; cbn [app] in Hc; rewrite ?elem_of_cons, ?elem_of_nil in Hc; naive_solver.
Qed.
End properties.

(** * Witnesses *)
Module Toy.
#[export] Instance argon2 : Argon2 := {
  params_new p := true;
  hash_password_into p password salt :=
    Some (toy_hash (password ++ salt ++ encode_params p));
}.
#[export] Instance argon2_laws : Argon2Laws argon2.
Proof. split. intros. split; [done|]. by eexists. Qed.

(** On ASCII both normal forms are the string itself. *)
#[export] Instance unicode : Unicode := { nfc s := s; nfd s := s }.

#[export] Instance expand : Expand := { expand_seed s info := toy_hash (s ++ info) }.
#[export] Instance expand_laws : ExpandLaws expand.
Proof. split. intros. cbn. by rewrite toy_hash_length. Qed.
End Toy.
Import Crypto.Toy.
Import Keyring.Toy.

Module Samples.
Definition salt : bytes := replicate 16 Byte.x01.
Definition nonce : bytes := replicate 12 Byte.x02.
Definition master : bytes := replicate 32 Byte.x03.
Definition passphrase : bytes := text "correct horse".
Definition file : bytes :=
  match protect_identity master passphrase (Some salt) (Some nonce) with
  | Ok f => f
  | Err _ => []
  end.
End Samples.

Lemma sample_unprotects :
  unprotect_seed Samples.file Samples.passphrase = Ok (Samples.master, Identity).
Proof. vm_compute. reflexivity. Qed.

Lemma sealed_key_opens_witness :
  ∃ file, protect_seed Samples.master Samples.passphrase Identity (Some Samples.salt)
            (Some Samples.nonce) = Ok file ∧
          unprotect file Samples.passphrase = Err (WrongPurpose Encryption Identity).
Proof.
  destruct (sealed_key_opens Samples.master Samples.passphrase Samples.salt Samples.nonce Identity)
    as [_ H]; [reflexivity|vm_compute; discriminate|reflexivity|reflexivity|].
  destruct H as (file & H & _ & _ & Ho); [vm_compute; discriminate|].
  destruct (Ho Samples.passphrase) as (_ & H' & _); [reflexivity|].
  exists file. exact (conj H H').
Defined.

Lemma opened_key_file_sound_witness : lenN Samples.master = SEED_LEN.
Proof.
  destruct (opened_key_file_sound Samples.file Samples.passphrase Samples.master Identity
    sample_unprotects) as (v & p & salt & nonce & sealed & _ & _ & H & _).
  exact H.
Defined.
