(* ===== verification/Armor.v ===== *)
(** Text forms: the base64 armour of public keys in [hide-keyring/src/lib.rs]
    and of messages in [hide-cli/src/main.rs], with what they use of the
    standard library's [str]: [lines], [trim], [contains] and [chunks]. *)
From Stdlib Require Import Strings.Byte.
From S2P Require Import Prelude Utf8 Note Keyring.
Local Open Scope N_scope.

Definition MESSAGE_HEADER : bytes := text "----- BEGIN HIDE MESSAGE -----".
Definition MESSAGE_FOOTER : bytes := text "----- END HIDE MESSAGE -----".
Definition MAX_ARMORED_MESSAGE : N := 1024 * 1024.
Definition PUBLIC_PREFIX : bytes := text "hide-public-key:".

Inductive ArmorError := MessageTooLong | NotUtf8 | NoMessage | NotBase64.

#[export] Instance ArmorError_eq_dec : EqDecision ArmorError.
Proof. solve_decision. Defined.

(** * The standard library *)
Definition carriage : byte := byte_of 13.

Definition strip_cr (line : bytes) : bytes :=
  if bool_decide (last line = Some carriage) then take (length line - 1) line else line.

(** [s.lines()], with the piece read so far: a line end takes a carriage return
    before it along, the end of the string does not. *)
Fixpoint lines_from (piece s : bytes) : list bytes :=
  match s with
  | [] => if bool_decide (piece = []) then [] else [piece]
  | b :: s =>
      if bool_decide (b = newline) then strip_cr piece :: lines_from [] s
      else lines_from (piece ++ [b]) s
  end.

Definition lines (s : bytes) : list bytes := lines_from [] s.

(** The characters of [char::is_whitespace], in UTF-8. *)
Definition WHITE_SPACE : list bytes :=
  map (λ n, [byte_of n]) [9; 10; 11; 12; 13; 32]
  ++ map (λ n, [byte_of 194; byte_of n]) [133; 160]
  ++ [map byte_of [225; 154; 128]]
  ++ map (λ n, map byte_of [226; 128; n])
       [128; 129; 130; 131; 132; 133; 134; 135; 136; 137; 138; 168; 169; 175]
  ++ [map byte_of [226; 129; 159]; map byte_of [227; 128; 128]].

(** Drops what [spaces] lists from the front, at most [fuel] times. *)
Fixpoint trim_with (spaces : list bytes) (fuel : nat) (s : bytes) : bytes :=
  match fuel with
  | O => s
  | S fuel =>
      match List.find (λ w, starts_with w s) spaces with
      | Some w => trim_with spaces fuel (drop (length w) s)
      | None => s
      end
  end.

(** [s.trim()]: the end is trimmed as the front of the reversed string. *)
Definition trim (s : bytes) : bytes :=
  let s := trim_with WHITE_SPACE (length s) s in
  rev (trim_with (map (@rev byte) WHITE_SPACE) (length s) (rev s)).

(** [s.contains(pattern)] *)
Fixpoint contains_text (pattern s : bytes) : bool :=
  starts_with pattern s || match s with [] => false | _ :: s => contains_text pattern s end.

(** [iter.skip_while(p)] and [iter.take_while(p)] *)
Fixpoint skip_while {A} (p : A → bool) (l : list A) : list A :=
  match l with x :: l' => if p x then skip_while p l' else l | [] => [] end.

Fixpoint take_while {A} (p : A → bool) (l : list A) : list A :=
  match l with x :: l => if p x then x :: take_while p l else [] | [] => [] end.

(** [s.chunks(n)]; a string of [length s] bytes has no more pieces than that. *)
Fixpoint pieces_within (fuel n : nat) (s : bytes) : list bytes :=
  match fuel, s with
  | S fuel, _ :: _ => take n s :: pieces_within fuel n (drop n s)
  | _, _ => []
  end.

Definition pieces (n : nat) (s : bytes) : list bytes := pieces_within (length s) n s.

(** [str::from_utf8(chunk).unwrap_or_default()] *)
Definition utf8_or_empty (b : bytes) : bytes := if utf8_valid b then b else [].

(** * The armour *)
Section armor.
Context {B : Base64}.

Definition encode_public (b : bytes) : bytes :=
  PUBLIC_PREFIX
    ++ concat (map (λ chunk, newline :: utf8_or_empty chunk) (pieces 64 (b64_encode b)))
    ++ [newline].

Definition decode_public (s : bytes) : result KeyringError bytes :=
  let body := concat (List.filter
    (λ line, negb (bool_decide (trim line = [])) && negb (starts_with PUBLIC_PREFIX line))
    (lines s)) in
  ok_or (b64_decode (trim body)) Malformed.

Definition armor_message (container : bytes) : bytes :=
  MESSAGE_HEADER ++ [newline]
    ++ concat (map (λ chunk, utf8_or_empty chunk ++ [newline]) (pieces 76 (b64_encode container)))
    ++ MESSAGE_FOOTER ++ [newline].

Definition dearmor_message (s : bytes) : result ArmorError bytes :=
  let body := concat (map trim
    (take_while (λ line, negb (contains_text MESSAGE_FOOTER line))
      (drop 1 (skip_while (λ line, negb (contains_text MESSAGE_HEADER line)) (lines s))))) in
  refuse_if (bool_decide (body = [])) NoMessage;;
  ok_or (b64_decode body) NotBase64.

(** [read_armored_message]: what the file or standard input holds. *)
Definition read_armored_message (input : bytes) : result ArmorError bytes :=
  refuse_if (MAX_ARMORED_MESSAGE <? lenN input) MessageTooLong;;
  refuse_if (negb (utf8_valid input)) NotUtf8;;
  Ok input.
End armor.

(** * Lemmas *)

(** ** Lines *)
Lemma lines_from_line p l r :
  no_newline l → lines_from p (l ++ newline :: r) = strip_cr (p ++ l) :: lines r.
Proof.
  revert p. induction l as [|b l IH]; intros p Hl; cbn [app lines_from].
  - by rewrite bool_decide_eq_true_2, app_nil_r by done.
  - apply not_elem_of_cons in Hl as [Hb Hl].
    rewrite bool_decide_eq_false_2, IH by done. by rewrite <- app_assoc.
Qed.

(** A text of whole lines, [end_of_line] after each. *)
Definition joined (end_of_line : bytes) (ls : list bytes) : bytes :=
  concat (map (λ l, l ++ end_of_line) ls).

Definition line_end (e : bytes) : Prop := e = [newline] ∨ e = [carriage; newline].

Definition clean_line (l : bytes) : Prop := no_newline l ∧ last l ≠ Some carriage.

Lemma strip_cr_clean l : last l ≠ Some carriage → strip_cr l = l.
Proof. intros H. unfold strip_cr. by rewrite bool_decide_eq_false_2. Qed.

Lemma clean_line_check l :
  forallb (λ b, negb (bool_decide (b = newline)) && negb (bool_decide (b = carriage))) l = true →
  clean_line l.
Proof.
  intros H. assert (∀ b, b ∈ l → b ≠ newline ∧ b ≠ carriage) as Hb.
  { intros b Hb%list_elem_of_In. apply forallb_forall with (x := b) in H; [|done]. by b2p. }
  split; [intros Hn%Hb; naive_solver|]. intros Hl%last_Some_elem_of. apply Hb in Hl. naive_solver.
Qed.

Lemma lines_joined e ls r :
  line_end e → Forall clean_line ls → lines (joined e ls ++ r) = ls ++ lines r.
Proof.
  intros He F. induction F as [|l ls [Hn Hc] _ IH]; [done|].
  unfold joined in *. cbn [map concat]. rewrite <- !app_assoc. unfold lines at 1. destruct He as [->| ->].
  - cbn [app]. rewrite lines_from_line by done. rewrite IH.
    cbn [app]. by rewrite strip_cr_clean.
  - change ([carriage; newline] ++ ?x) with ([carriage] ++ newline :: x). rewrite app_assoc.
    rewrite lines_from_line, IH. 2:{ intros [H|H]%elem_of_app; [done|]. by apply list_elem_of_singleton in H. }
    cbn [app]. f_equal. unfold strip_cr. rewrite last_snoc, bool_decide_eq_true_2 by done.
    rewrite length_app. cbn [length]. rewrite Nat.add_sub. apply take_app_length.
Qed.

(** ** The alphabet holds no white space, no dash and no line end *)
Definition alphabet (s : bytes) : Prop := forallb base64_char s = true.

Lemma alphabet_elem s b : alphabet s → b ∈ s → base64_char b = true.
Proof. intros H Hb. unfold alphabet in H. by apply forallb_forall with (x := b) in H; [|apply list_elem_of_In]. Qed.

Lemma alphabet_app a b : alphabet (a ++ b) ↔ alphabet a ∧ alphabet b.
Proof. unfold alphabet. rewrite forallb_app. apply andb_true_iff. Qed.

Lemma alphabet_rev s : alphabet s → alphabet (rev s).
Proof.
  intros H. apply forallb_forall. intros b Hb%in_rev. by apply (alphabet_elem s); [|apply list_elem_of_In].
Qed.

Lemma alphabet_no_newline s : alphabet s → no_newline s.
Proof. intros H Hn. by apply (alphabet_elem _ _ H) in Hn. Qed.

Lemma alphabet_clean s : alphabet s → clean_line s.
Proof.
  intros H. split; [by apply alphabet_no_newline|]. intros Hl.
  apply last_Some_elem_of in Hl. by apply (alphabet_elem _ _ H) in Hl.
Qed.

(** A pattern with a character outside the alphabet is nowhere in it. *)
Definition foreign (w : bytes) : bool := existsb (λ b, negb (base64_char b)) w.

Lemma foreign_prefix w s : foreign w = true → alphabet s → starts_with w s = false.
Proof.
  intros Hw Hs. apply not_true_iff_false. intros (r & ->)%starts_with_true_iff.
  apply alphabet_app in Hs as [Hs _]. apply existsb_exists in Hw as (b & Hb & Hn).
  apply list_elem_of_In, (alphabet_elem _ _ Hs) in Hb. by rewrite Hb in Hn.
Qed.

Lemma foreign_nowhere w s : foreign w = true → alphabet s → contains_text w s = false.
Proof.
  intros Hw. induction s as [|b s IH]; intros Hs; cbn [contains_text].
  - by rewrite foreign_prefix.
  - rewrite foreign_prefix by done. apply IH. change (b :: s) with ([b] ++ s) in Hs.
    by apply alphabet_app in Hs as [_ ?].
Qed.

Lemma trim_with_alphabet ws fuel s :
  forallb foreign ws = true → alphabet s → trim_with ws fuel s = s.
Proof.
  intros Hw Hs. destruct fuel; [done|]. cbn [trim_with].
  destruct (List.find _ ws) as [w|] eqn:E; [|done]. apply find_some in E as [Hin E].
  apply forallb_forall with (x := w) in Hw; [|done]. by rewrite (foreign_prefix w s) in E.
Qed.

Lemma trim_alphabet s : alphabet s → trim s = s.
Proof.
  intros H. unfold trim. rewrite (trim_with_alphabet WHITE_SPACE) by done.
  rewrite trim_with_alphabet; [apply rev_involutive|done|by apply alphabet_rev].
Qed.

Lemma alphabet_utf8 s : alphabet s → utf8_or_empty s = s.
Proof.
  intros H. unfold utf8_or_empty. rewrite utf8_valid_ascii; [done|].
  apply forallb_forall. intros b Hb%list_elem_of_In. apply (alphabet_elem _ _ H) in Hb.
  unfold base64_char in Hb. lia.
Qed.

(** ** Pieces *)
Lemma pieces_spec n s :
  (0 < n)%nat →
  concat (pieces n s) = s ∧
  Forall (λ p, p ≠ [] ∧ (length p <= n)%nat) (pieces n s).
Proof.
  intros Hn. unfold pieces. assert (∀ fuel s, (length s <= fuel)%nat →
    concat (pieces_within fuel n s) = s ∧
    Forall (λ p, p ≠ [] ∧ (length p <= n)%nat) (pieces_within fuel n s)) as H; [|by apply H].
  clear s. induction fuel as [|fuel IH]; intros s Hf.
  { destruct s; [done|cbn in Hf; lia]. }
  destruct s as [|b s]; [done|]. cbn [pieces_within concat].
  destruct (IH (drop n (b :: s))) as [Hc Hp]; [rewrite length_drop; cbn in *; lia|].
  split; [by rewrite Hc, take_drop|]. constructor; [|done]. split.
  - by destruct n; [lia|].
  - rewrite length_take. lia.
Qed.

Lemma pieces_alphabet n s : (0 < n)%nat → alphabet s → Forall alphabet (pieces n s).
Proof.
  intros Hn Hs. destruct (pieces_spec n s Hn) as [Hc _]. rewrite <- Hc in Hs. clear Hc.
  induction (pieces n s) as [|p l IH]; [by constructor|]. cbn [concat] in Hs.
  apply alphabet_app in Hs as [Hp Hl]. by constructor; [|apply IH].
Qed.

Lemma map_id_on {A} (f : A → A) (P : A → Prop) l : (∀ x, P x → f x = x) → Forall P l → map f l = l.
Proof. intros Hf. induction 1; cbn; [done|]. f_equal; auto. Qed.

Lemma skip_while_app {A} (p : A → bool) l x r :
  Forall (λ y, p y = true) l → p x = false → skip_while p (l ++ x :: r) = x :: r.
Proof. induction 1 as [|y l Hy _ IH]; intros Hx; cbn [app skip_while]; [by rewrite Hx|]. rewrite Hy. auto. Qed.

Lemma take_while_app {A} (p : A → bool) l x r :
  Forall (λ y, p y = true) l → p x = false → take_while p (l ++ x :: r) = l.
Proof. induction 1 as [|y l Hy _ IH]; intros Hx; cbn [app take_while]; [by rewrite Hx|]. rewrite Hy. f_equal. auto. Qed.

(** ** The two forms as lines *)

(** A text whose line ends were rewritten, as mail and chat programs do. *)
Definition with_line_ends (e s : bytes) : bytes :=
  concat (map (λ b, if bool_decide (b = newline) then e else [b]) s).

Lemma with_line_ends_app e a b : with_line_ends e (a ++ b) = with_line_ends e a ++ with_line_ends e b.
Proof. unfold with_line_ends. by rewrite map_app, concat_app. Qed.

Lemma with_line_ends_line e l : no_newline l → with_line_ends e l = l.
Proof.
  unfold with_line_ends. induction l as [|b l IH]; [done|]. intros [Hb Hl]%not_elem_of_cons.
  cbn [map concat]. by rewrite bool_decide_eq_false_2, IH by done.
Qed.

Lemma with_line_ends_joined e ls :
  Forall clean_line ls → with_line_ends e (joined [newline] ls) = joined e ls.
Proof.
  unfold joined. induction 1 as [|l ls [Hn _] _ IH]; [done|]. cbn [map concat].
  rewrite !with_line_ends_app, IH, with_line_ends_line by done. f_equal. f_equal.
  cbn. by rewrite app_nil_r.
Qed.

Lemma lines_app pre s : pre = [] ∨ last pre = Some newline → lines (pre ++ s) = lines pre ++ lines s.
Proof.
  intros [->|H]; [done|]. apply last_Some in H as [a ->]. rewrite <- app_assoc.
  assert (∀ p, lines_from p (a ++ [newline] ++ s) = lines_from p (a ++ [newline]) ++ lines s) as E;
    [|exact (E [])].
  induction a as [|b a IH]; intros p; cbn [app lines_from]; [by rewrite bool_decide_eq_true_2|].
  case_bool_decide; cbn [app] in *; [by rewrite IH|apply IH].
Qed.

Lemma joined_app e a b : joined e (a ++ b) = joined e a ++ joined e b.
Proof. unfold joined. by rewrite map_app, concat_app. Qed.

Section forms.
Context {B : Base64} {BL : Base64Laws B}.

Lemma armor_lines c :
  let ls := MESSAGE_HEADER :: pieces 76 (b64_encode c) ++ [MESSAGE_FOOTER] in
  armor_message c = joined [newline] ls ∧ Forall clean_line ls.
Proof.
  pose proof (pieces_alphabet 76 _ ltac:(lia) (b64_alphabet c)) as Ha. cbn zeta. split.
  - unfold armor_message, joined. cbn [map concat]. rewrite map_app, concat_app. cbn [map concat].
    rewrite <- !app_assoc, app_nil_r. do 2 f_equal. f_equal. f_equal. apply map_ext_in.
    intros p Hp%list_elem_of_In. rewrite Forall_forall in Ha. by rewrite alphabet_utf8 by auto.
  - constructor; [by apply clean_line_check|]. apply Forall_app.
    split; [|constructor; [by apply clean_line_check|done]].
    eapply Forall_impl; [exact Ha|apply alphabet_clean].
Qed.

Lemma public_lines b :
  let ls := PUBLIC_PREFIX :: pieces 64 (b64_encode b) in
  encode_public b = joined [newline] ls ∧ Forall clean_line ls.
Proof.
  pose proof (pieces_alphabet 64 _ ltac:(lia) (b64_alphabet b)) as Ha. cbn zeta. split.
  - unfold encode_public, joined. cbn [map concat]. rewrite <- app_assoc. f_equal.
    induction Ha as [|p l Hp _ IH]; [done|]. cbn [map concat]. rewrite alphabet_utf8 by done.
    rewrite <- !app_assoc. cbn [app] in *. f_equal. f_equal. exact IH.
  - constructor; [by apply clean_line_check|]. eapply Forall_impl; [exact Ha|apply alphabet_clean].
Qed.

Lemma b64_encode_inj_nil c : b64_encode c = [] → c = [].
Proof. intros E. pose proof (b64_decode_encode c) as H. rewrite E, <- b64_empty, b64_decode_encode in H. congruence. Qed.

Lemma decode_public_lines e b :
  line_end e → decode_public (joined e (PUBLIC_PREFIX :: pieces 64 (b64_encode b))) = Ok b.
Proof.
  intros He. destruct (public_lines b) as [_ Hc]. unfold decode_public.
  rewrite <- (app_nil_r (joined _ _)), lines_joined, app_nil_r by done.
  pose proof (pieces_alphabet 64 _ ltac:(lia) (b64_alphabet b)) as Ha.
  destruct (pieces_spec 64 (b64_encode b) ltac:(lia)) as [Ec Hp].
  assert (∀ l, Forall alphabet l → Forall (λ p, p ≠ [] ∧ (length p <= 64)%nat) l →
    List.filter (λ line, negb (bool_decide (trim line = [])) && negb (starts_with PUBLIC_PREFIX line)) l = l)
    as Hf.
  { induction 1 as [|p l Hx _ IH]; [done|]. intros [[Hne _] Hl]%Forall_cons. cbn [List.filter].
    rewrite trim_alphabet, bool_decide_eq_false_2, foreign_prefix, IH by done. done. }
  cbn [List.filter]. change (starts_with PUBLIC_PREFIX PUBLIC_PREFIX) with true. rewrite andb_false_r.
  rewrite Hf, Ec, trim_alphabet, b64_decode_encode by (done || apply b64_alphabet). done.
Qed.

Lemma dearmor_lines e c pre post :
  line_end e → c ≠ [] → pre = [] ∨ last pre = Some newline →
  Forall (λ l, contains_text MESSAGE_HEADER l = false) (lines pre) →
  dearmor_message
    (pre ++ joined e (MESSAGE_HEADER :: pieces 76 (b64_encode c) ++ [MESSAGE_FOOTER]) ++ post) = Ok c.
Proof.
  intros He Hne Hpre Hh. destruct (armor_lines c) as [_ Hc]. unfold dearmor_message.
  rewrite lines_app, lines_joined by done. cbn [app]. rewrite <- app_assoc.
  pose proof (pieces_alphabet 76 _ ltac:(lia) (b64_alphabet c)) as Ha.
  destruct (pieces_spec 76 (b64_encode c) ltac:(lia)) as [Ec _].
  rewrite skip_while_app; [| |done].
  2:{ eapply Forall_impl; [exact Hh|]. intros l Hl. cbn beta. by rewrite Hl. }
  change (drop 1 (?x :: ?l)) with l. cbn [app]. rewrite take_while_app; [| |done].
  2:{ eapply Forall_impl; [exact Ha|]. intros l Hl. cbn beta. by rewrite foreign_nowhere. }
  rewrite (map_id_on trim alphabet) by (done || apply trim_alphabet). rewrite Ec.
  rewrite bool_decide_eq_false_2 by (intros E; by apply Hne, b64_encode_inj_nil).
  cbn [refuse_if]. by rewrite bind_of_Ok, b64_decode_encode.
Qed.

Lemma dearmor_nothing s :
  Forall (λ l, contains_text MESSAGE_HEADER l = false) (lines s) → dearmor_message s = Err NoMessage.
Proof.
  intros H. unfold dearmor_message.
  assert (skip_while (λ line, negb (contains_text MESSAGE_HEADER line)) (lines s) = []) as ->; [|done].
  induction H as [|l ls Hl _ IH]; [done|]. cbn [skip_while]. by rewrite Hl.
Qed.

Lemma decode_encode_public b : decode_public (encode_public b) = Ok b.
Proof. destruct (public_lines b) as [-> _]. apply decode_public_lines. by left. Qed.

Lemma encode_public_utf8 b : utf8_valid (encode_public b) = true.
Proof.
  apply utf8_valid_ascii. unfold encode_public, is_ascii. rewrite !forallb_app. cbn -[PUBLIC_PREFIX pieces].
  rewrite andb_true_r. change (forallb _ PUBLIC_PREFIX) with true. cbn [andb].
  pose proof (pieces_alphabet 64 _ ltac:(lia) (b64_alphabet b)) as Ha.
  induction Ha as [|p l Hp _ IH]; [done|]. cbn [map concat]. rewrite alphabet_utf8 by done.
  rewrite forallb_app, IH, andb_true_r. cbn [forallb andb]. apply forallb_forall.
  intros x Hx%list_elem_of_In. apply (alphabet_elem _ _ Hp) in Hx. unfold base64_char in Hx.
  change (Byte.to_N newline <? 128) with true. lia.
Qed.

Lemma starts_with_public b : starts_with PUBLIC_PREFIX (encode_public b) = true.
Proof. apply starts_with_app. Qed.

(** Armoured text survives being pasted. A sealed message is found and
    decoded wherever it stands in a text, whatever comes after it and before
    it (unless an earlier line carries the header mark), with line ends of
    either kind; a text without the mark is refused as holding no message. A
    public key decodes from its armour under either line end. No line is
    longer than 76 or 64 characters. *)
Theorem armour_survives_pasting (e c pre post : bytes) :
  line_end e → c ≠ [] → pre = [] ∨ last pre = Some newline →
  Forall (λ l, contains_text MESSAGE_HEADER l = false) (lines pre) →
  dearmor_message (pre ++ with_line_ends e (armor_message c) ++ post) = Ok c ∧
  dearmor_message pre = Err NoMessage ∧
  decode_public (with_line_ends e (encode_public c)) = Ok c ∧
  Forall (λ l, lenN l <= 76) (lines (with_line_ends e (armor_message c))) ∧
  Forall (λ l, lenN l <= 64) (lines (with_line_ends e (encode_public c))).
Proof.
  intros He Hne Hpre Hh. destruct (armor_lines c) as [-> Hc]. destruct (public_lines c) as [-> Hk].
  rewrite !with_line_ends_joined by done.
  rewrite <- (app_nil_r (joined e (MESSAGE_HEADER :: _))) at 2.
  rewrite <- (app_nil_r (joined e (PUBLIC_PREFIX :: _))) at 2. rewrite !lines_joined, !app_nil_r by done.
  destruct (pieces_spec 76 (b64_encode c) ltac:(lia)) as [_ H1].
  destruct (pieces_spec 64 (b64_encode c) ltac:(lia)) as [_ H2].
  split_and!; [by apply dearmor_lines|by apply dearmor_nothing|by apply decode_public_lines|..].
  - constructor; [done|]. apply Forall_app. split; [|by repeat constructor].
    eapply Forall_impl; [exact H1|]. intros l [_ Hl]. cbn beta. lia.
  - constructor; [done|]. eapply Forall_impl; [exact H2|]. intros l [_ Hl]. cbn beta. lia.
Qed.
End forms.

(** * Witnesses *)
Import HexBase64.

Lemma armour_survives_pasting_witness :
  dearmor_message (text "Here it is:" ++ [newline]
    ++ with_line_ends [carriage; newline] (armor_message (text "sealed")) ++ text "Bye") = Ok (text "sealed").
Proof.
  destruct (armour_survives_pasting [carriage; newline] (text "sealed")
    (text "Here it is:" ++ [newline]) (text "Bye")) as [H _].
  - by right.
  - done.
  - by right.
  - by repeat constructor.
  - rewrite <- app_assoc in H. exact H.
Defined.
