(* ===== verification/Vectors.v ===== *)
(** [hide-object/examples/]: the generators of the conformance vectors. What a
    vector is made of, and that every reader refuses what must be refused, with
    the error its reason is. *)
From Stdlib Require Import Strings.Byte.
From stdpp Require Import gmap.
From S2P Require Import Prelude Utf8 Cbor Format Sign Crypto Stream Records Codec Object Forge.
Local Open Scope N_scope.

(** What stops a generator: a forger, a writer, an encoder, or a failed
    expectation, where it panics. *)
Inductive Trouble :=
| Forging (e : Failure)
| Sealing (e : ObjectError)
| Encoding (e : FormatError)
| Panics.

(** A vector that every reader must refuse: its file name, how it is made, the
    reason the index gives and the error that reason is. *)
Record Rejection := { file : bytes; made : result Trouble bytes; reason : bytes; error : ObjectError }.

(** * Bytes *)

(** [b"...\n"] *)
Definition line (s : bytes) : bytes := s ++ [byte_of 10].

Definition cbor_uint (value : N) : bytes :=
  if value <=? 23 then [byte_of value]
  else if value <=? 255 then [byte_of 24; byte_of value]
  else if value <=? 65535 then byte_of 25 :: be 2 value
  else if value <=? 4294967295 then byte_of 26 :: be 4 value
  else byte_of 27 :: be 8 value.

Definition cbor_bstr (value : bytes) : bytes :=
  match cbor_uint (lenN value) with
  | [] => []
  | b :: t => byte_of (N.lor (Byte.to_N b) 64) :: t
  end ++ value.

(** [bytes[i] = f(bytes[i])] *)
Definition change (i : nat) (f : N → N) (b : bytes) : result Trouble bytes :=
  match b !! i with
  | Some x => Ok (<[i := byte_of (f (Byte.to_N x))]> b)
  | None => Err Panics
  end.

Definition flip (mask n : N) : N := N.lxor n mask.

(** [assert_eq!(bytes[i], n)] *)
Definition expect (i : nat) (n : N) (b : bytes) : result Trouble unit :=
  refuse_if (negb (bool_decide (b !! i = Some (byte_of n)))) Panics.

(** * What the vectors are made of *)
Definition GREASE_HEADER_KEY : N := 64250.
Definition GREASE_METADATA_KEY : N := 19018.
Definition GREASE_STANZA_TAG : N := 31354.

Definition grease_shape (minor : N) : VectorShape :=
  {| shape_minor := minor;
     header_extensions := [{| ext_key := GREASE_HEADER_KEY; ext_value := text "HIDE GREASE header extension" |}];
     leading_stanzas := [Unknown {| unknown_tag := GREASE_STANZA_TAG;
       unknown_fields := [replicate 32 (byte_of 122); text "future recipient type"] |}] |}.

Definition metadata (name : bytes) (grease : bool) : Metadata :=
  {| filename := Some (name ++ text ".txt"); media_type := Some (text "text/plain");
     meta_signature := None;
     meta_extensions := if grease
       then [{| ext_key := GREASE_METADATA_KEY; ext_value := text "HIDE GREASE metadata extension" |}]
       else [] |}.

(** A map's bytes with entries appended and the count in its head raised. *)
Definition metadata_with_raw (base : bytes) (extra_entries : N) (raw : bytes) : result Trouble bytes :=
  match base with
  | [] => Err Panics
  | b :: rest =>
      let count := N.land (Byte.to_N b) 31 + extra_entries in
      refuse_if (24 <=? count) Panics;;
      Ok (byte_of (N.lor 160 count) :: rest ++ raw)
  end.

(** The edits of the header, as closures over [&mut ProtectedHeader]. *)
Definition with_extensions (h : ProtectedHeader) (l : list Extension) : ProtectedHeader :=
  {| object_id := h.(object_id); recipients := h.(recipients);
     encrypted_metadata := h.(encrypted_metadata); signatures := h.(signatures); extensions := l |}.
Definition with_recipients (h : ProtectedHeader) (l : list Stanza) : ProtectedHeader :=
  {| object_id := h.(object_id); recipients := l;
     encrypted_metadata := h.(encrypted_metadata); signatures := h.(signatures);
     extensions := h.(extensions) |}.

(** [value[0] ^= 1], of a value that is not empty. *)
Definition flip_first (value : bytes) : bytes :=
  match value with [] => [] | b :: v => byte_of (flip 1 (Byte.to_N b)) :: v end.

Definition clear_signatures (h : ProtectedHeader) : ProtectedHeader := set_signatures h [].
Definition rewrite_extension (h : ProtectedHeader) : ProtectedHeader :=
  match h.(extensions) with
  | [] => h
  | e :: l => with_extensions h ({| ext_key := e.(ext_key); ext_value := flip_first e.(ext_value) |} :: l)
  end.
Definition remove_stanza (h : ProtectedHeader) : ProtectedHeader :=
  with_recipients h (drop 1 h.(recipients)).
Definition push_extension (h : ProtectedHeader) : ProtectedHeader :=
  with_extensions h (h.(extensions) ++ [{| ext_key := GREASE_HEADER_KEY; ext_value := [] |}]).
Definition keep_unknown (h : ProtectedHeader) : ProtectedHeader :=
  with_recipients h (List.filter (λ s, bool_decide (as_xwing s = None)) h.(recipients)).

Section generator.
Context {C : Cbor} {Sig : SignatureScheme} {P : Crypto.Primitives}.

Definition seal (public : RecipientPublic) (plaintext : bytes) (m : Metadata)
    (signer : option (SK * SignaturePlacement)) (shape : VectorShape) : result Trouble bytes :=
  '(_, out) ← map_err Sealing
      (encrypt_shaped_for_vector (slice_reader plaintext) (vec []) public m signer shape);
  Ok out.(written).

(** ** Headers the encoder refuses to write *)

(** [header.encode().expect(...)] *)
Definition encodable (h : ProtectedHeader) : result Trouble bytes :=
  map_err (λ _, Panics) (Header.encode h).

(** One more entry, as raw CBOR. *)
Definition raw_header (h : ProtectedHeader) (key : N) (value : bytes) : result Trouble bytes :=
  b ← encodable h;
  b ← change 0 (λ n, n + 1) b;
  Ok (b ++ cbor_uint key ++ cbor_bstr value).

Definition raw_not_bstr (h : ProtectedHeader) : result Trouble bytes :=
  b ← encodable h;
  b ← change 0 (λ n, n + 1) b;
  Ok (b ++ cbor_uint 64250 ++ cbor_uint 1).

(** map(22): five core entries and seventeen extensions. *)
Definition raw_too_many (h : ProtectedHeader) : result Trouble bytes :=
  b ← encodable h;
  b ← change 0 (λ _, 182) b;
  Ok (b ++ concat (map (λ k, cbor_uint (1000 + N.of_nat k) ++ cbor_bstr []) (seq 0 17))).

Definition stanza_len : nat := 1 + 1 + 3 + 1984 + 3 + 3373.

(** Where the last stanza begins; [usize] does not go below zero. *)
Definition last_stanza (b : bytes) : result Trouble nat :=
  refuse_if (length b <? stanza_len)%nat Panics;;
  Ok (length b - stanza_len)%nat.

Definition raw_two_signatures (h : ProtectedHeader) : result Trouble bytes :=
  b ← encodable h;
  at_ ← last_stanza b;
  expect (at_ - 1) 129 b;;
  out ← change (at_ - 1) (λ _, 130) b;
  Ok (out ++ drop at_ b).

Definition raw_signature_tag (h : ProtectedHeader) : result Trouble bytes :=
  b ← encodable h;
  at_ ← last_stanza b;
  expect (at_ + 1) 1 b;;
  change (at_ + 1) (λ _, 2) b.

(** Builds new protected bytes from the header a recipient sees, which may be
    ones the encoder refuses, and makes MAC and payload right again. *)
Definition rewrite_raw_header (container : bytes) (secret : RecipientSecret)
    (build : ProtectedHeader → result Trouble bytes) : result Trouble bytes :=
  '(_, header) ← map_err Forging (handed_over container secret id);
  protected ← build header;
  rebuilt ← map_err Forging (rewrite_for_test container secret None None id id);
  map_err Forging (replace_protected_for_test rebuilt secret protected).
End generator.

(** * The vectors that must be refused *)
Section rejections.
Context {C : Cbor} {Sig : SignatureScheme} {P : Crypto.Primitives}.
Context (secret : RecipientSecret) (public : RecipientPublic) (signer : SK).

(** [signed-public.hide], which another generator wrote and which is frozen. *)
Context (signed_public : bytes).

Definition hello_text : bytes := line (text "Hello HIDE 1.0").
Definition unsigned : result Trouble bytes :=
  seal public hello_text (metadata (text "r") false) None default_shape.
Definition v1_signed : result Trouble bytes :=
  seal public hello_text (metadata (text "v1-signed") false) (Some (signer, Public)) default_shape.
Definition v1_signed_confidential : result Trouble bytes :=
  seal public hello_text (metadata (text "v1-signed-confidential") false)
    (Some (signer, Confidential)) default_shape.
Definition grease_text : bytes := line (text "Readers skip what they do not know.").
Definition grease : result Trouble bytes :=
  seal public grease_text (metadata (text "grease") true) None (grease_shape 1).
Definition grease_signed : result Trouble bytes :=
  seal public grease_text (metadata (text "grease-signed") true) (Some (signer, Public)) (grease_shape 1).
Definition grease_minor : result Trouble bytes :=
  seal public (line (text "A newer minor is a non-breaking revision."))
    (metadata (text "grease-minor") false) None
    {| shape_minor := 7; header_extensions := []; leading_stanzas := [] |}.

Definition rewritten (base : result Trouble bytes) (minor flags : option N)
    (edit : ProtectedHeader → ProtectedHeader) (meta : bytes → bytes) : result Trouble bytes :=
  b ← base; map_err Forging (rewrite_for_test b secret minor flags edit meta).

Definition raw (base : result Trouble bytes) (build : ProtectedHeader → result Trouble bytes)
  : result Trouble bytes :=
  b ← base; rewrite_raw_header b secret build.

(** The unsigned container with other metadata, sealed as metadata is. *)
Definition with_metadata (m : bytes) : result Trouble bytes :=
  rewritten unsigned None None id (λ _, m).
Definition with_entry (entry : bytes) : result Trouble bytes :=
  base ← map_err Encoding (Metadata.encode (metadata (text "r") false));
  m ← metadata_with_raw base 1 entry;
  with_metadata m.

(** *** Preambles *)
Definition preamble_rejections : list Rejection :=
  [ {| file := text "unknown-flag"; made := rewritten unsigned None (Some 2) id id;
       reason := text "preamble flag 0x02 is not defined; every flag is critical";
       error := Format UnsupportedFeature |};
    {| file := text "minor-zero"; made := rewritten unsigned (Some 0) None id id;
       reason := text "preamble minor 0 is not a HIDE version";
       error := Format UnsupportedVersion |};
    {| file := text "legacy-minor-with-flag"; made := rewritten v1_signed (Some 2) None id id;
       reason := text "minor 2 (legacy signed) with a flag set is not a valid preamble";
       error := Format UnsupportedFeature |} ].

(** *** Signatures *)
Definition signature_rejections : list Rejection :=
  [ {| file := text "stripped-signature"; made := rewritten v1_signed None None clear_signatures id;
       reason := text "SIGNED flag set but no signature is present"; error := MissingSignature |};
    {| file := text "unexpected-signature"; made := rewritten v1_signed None (Some 0) id id;
       reason := text "a signature is present but the SIGNED flag is clear";
       error := UnexpectedSignature |};
    {| file := text "signature-extension-rewritten";
       made := rewritten grease_signed None None rewrite_extension id;
       reason := text "a recipient re-MACed a changed header extension; the 1.0 transcript binds it";
       error := InvalidSignature |};
    {| file := text "signature-unknown-stanza-removed";
       made := rewritten grease_signed None None remove_stanza id;
       reason := text "a recipient re-MACed with an unknown stanza removed; the 1.0 transcript binds every stanza";
       error := InvalidSignature |} ].

Definition legacy_rejections : list Rejection :=
  [ {| file := text "legacy-minor2-with-extension";
       made := rewritten (Ok signed_public) None None push_extension id;
       reason := text "minor 2 (legacy signed) carries a header extension its transcript cannot bind";
       error := Format MalformedHeader |} ].

Definition stanza_rejections : list Rejection :=
  [ {| file := text "only-unknown-stanzas"; made := rewritten grease None None keep_unknown id;
       reason := text "no recipient stanza of a known type; skipping unknown ones leaves nothing to open";
       error := NoMatchingRecipient |} ].

(** *** Headers *)
Definition header_rejections : list Rejection :=
  [ {| file := text "critical-header-key"; made := raw unsigned (λ h, raw_header h 6 [byte_of 0]);
       reason := text "header key 6 is in the critical range 6..=63 and not defined";
       error := Format UnsupportedFeature |};
    {| file := text "header-key-over-u16"; made := raw unsigned (λ h, raw_header h 65536 [byte_of 0]);
       reason := text "header key above 65535 is outside every range"; error := Format MalformedHeader |};
    {| file := text "ignorable-ext-oversize";
       made := raw unsigned (λ h, raw_header h 64250 (replicate (N.to_nat 65537) (byte_of 0)));
       reason := text "ignorable header extension value exceeds 65536 bytes";
       error := Format MalformedHeader |};
    {| file := text "ignorable-ext-not-bstr"; made := raw unsigned raw_not_bstr;
       reason := text "ignorable header extension value is not a byte string";
       error := Format MalformedHeader |};
    {| file := text "too-many-extensions"; made := raw unsigned raw_too_many;
       reason := text "17 ignorable header extensions; at most 16 are admitted";
       error := Format MalformedHeader |};
    {| file := text "two-signatures"; made := raw v1_signed raw_two_signatures;
       reason := text "two public signature stanzas; exactly one is verified, so a second is refused";
       error := Format MalformedHeader |};
    {| file := text "unknown-signature-tag"; made := raw v1_signed raw_signature_tag;
       reason := text "signature stanza tag 2 is unknown; unlike recipient stanzas it is refused, not skipped";
       error := Format UnsupportedFeature |} ].

(** *** Metadata *)
Definition metadata_rejections : list Rejection :=
  [ {| file := text "critical-metadata-key"; made := with_entry (cbor_uint 7 ++ cbor_bstr [byte_of 0]);
       reason := text "metadata key 7 is in the critical range and not defined";
       error := Format UnsupportedFeature |};
    {| file := text "reserved-metadata-key"; made := with_entry (cbor_uint 4 ++ cbor_bstr [byte_of 0]);
       reason := text "metadata key 4 is reserved core and not defined";
       error := Format UnsupportedFeature |};
    {| file := text "filename-dotdot";
       made := with_metadata (map byte_of [161; 1; 98] ++ text "..");
       reason := text "filename '..' is a path component, not a name"; error := Format InvalidMetadata |};
    {| file := text "non-canonical-metadata";
       made := with_metadata (map byte_of [161; 24; 1; 97] ++ text "a");
       reason := text "metadata integer key not in shortest form"; error := Format NonCanonical |} ].

Definition rejections : list Rejection :=
  preamble_rejections ++ signature_rejections ++ legacy_rejections ++ stanza_rejections
  ++ header_rejections ++ metadata_rejections.

(** *** Public keys: [bytes[1184..].copy_from_slice(&x25519)] of a genuine key;
    the last is of the generator before 1.0. *)
Definition key_with (x25519 : bytes) : bytes := take 1184 (public_to_bytes public) ++ x25519.
Definition key_rejections : list (bytes * bytes) :=
  [ (text "x25519-high-bit.test-public", key_with (replicate 31 (byte_of 0) ++ [byte_of 128]));
    (text "x25519-not-reduced.test-public",
     key_with (byte_of 238 :: replicate 30 (byte_of 255) ++ [byte_of 127]));
    (text "small-order.test-public", key_with (replicate 32 (byte_of 0))) ].

(** ** The rejections of the format before 1.0, each an edit of [hello.hide] *)
Definition hello : result Trouble bytes :=
  '(_, out) ← map_err Sealing (encrypt_for_vector (slice_reader (line (text "Hello HIDE"))) (vec [])
                public (metadata (text "hello") false));
  Ok out.(written).

Definition edited (edit : bytes → result Trouble bytes) : result Trouble bytes := b ← hello; edit b.

Definition alter_salt (b : bytes) : result Trouble bytes :=
  p ← map_err Encoding (Preamble.decode (take 16 b));
  change (N.to_nat (PREAMBLE_LEN + p.(Preamble.header_len))) (flip 255) b.

Definition early_rejections : list Rejection :=
  [ {| file := text "bad-magic"; made := edited (change 0 (flip 1));
       reason := text "preamble magic does not match"; error := Format InvalidContainer |};
    {| file := text "unsupported-major"; made := edited (change 8 (λ _, 1));
       reason := text "major version is not 0"; error := Format UnsupportedVersion |};
    {| file := text "header-len-overflow"; made := edited (λ b, Ok (take 12 b ++ u32be u32_max ++ drop 16 b));
       reason := text "header_len exceeds MAX_HEADER_LEN; refuse before allocating";
       error := Format HeaderTooLarge |};
    {| file := text "header-bit-flipped"; made := edited (change 24 (flip 128));
       reason := text "header MAC does not verify"; error := Format MalformedHeader |};
    {| file := text "final-record-bit-flipped"; made := edited (λ b, change (length b - 1) (flip 1) b);
       reason := text "FINAL record tag does not verify"; error := Crypto Authentication |};
    {| file := text "truncated-before-final"; made := edited (λ b, Ok (take (length b - 1) b));
       reason := text "stream ends before the FINAL record authenticates; no plaintext may be released";
       error := TruncatedPayload |};
    {| file := text "trailing-bytes-after-final"; made := edited (λ b, Ok (b ++ [byte_of 0]));
       reason := text "bytes after FINAL"; error := TrailingData |};
    {| file := text "payload-salt-altered"; made := edited alter_salt;
       reason := text "payload key derives from the altered salt; first record fails";
       error := Crypto Authentication |} ].
End rejections.

(** * What a reader makes of them *)

(** [Header.decode] from the signatures on, for the header read so far. *)
Definition finish_header `{Cbor} (h : ProtectedHeader) (n : N) (input d : bytes)
  : result FormatError ProtectedHeader :=
  d ← key d 5;
  '(signature_count, d) ← rd (dec_array d);
  signature_count ← ok_or signature_count MalformedHeader;
  refuse_if (MAX_SIGNATURES <? signature_count) MalformedHeader;;
  '(signatures, d) ← repeat_read decode_signature (N.to_nat signature_count) d;
  '(extensions, d) ←
    map_err (λ e, if bool_decide (e = UnsupportedFeature) then e else MalformedHeader)
      (decode_extensions d n 5);
  let header := {| object_id := h.(object_id); recipients := h.(recipients);
                   encrypted_metadata := h.(encrypted_metadata); signatures := signatures;
                   extensions := extensions |} in
  encoded ← Header.encode header;
  canonical input (position input d) encoded;;
  Ok header.

(** Two containers, one scheme of reading. *)
Definition refused_as `{Cbor} `{SignatureScheme} `{Crypto.Primitives} (secret : RecipientSecret)
    (b : bytes) (e : ObjectError) : Prop :=
  ∀ source staging, live source → accepting staging → contents source = b →
    decrypt_to_staging source staging secret = Err e.

Section headers.
Context {C : Cbor} {CL : CborLaws C}.

Lemma encoded_header h b :
  header_typed h → Header.encode h = Ok b →
  ∃ core sigs, collect (encode_signature MalformedHeader) h.(signatures) = Ok sigs ∧
    b = enc_map (5 + lenN h.(extensions)) ++ core ++ enc_u8 5 ++ enc_array (lenN h.(signatures))
          ++ concat sigs ++ concat (map encode_extension h.(extensions)) ∧
    ∀ n rest, n <= u16_max → let input := enc_map (5 + n) ++ core ++ rest in
      check_header_len (lenN input) = Ok tt →
      Header.decode input = if n <=? MAX_EXTENSIONS then finish_header h n input rest
                            else Err MalformedHeader.
Proof.
  intros [To Tr Te] H. unfold Header.encode, Header.encode_with_signatures in H. inv_ok. b2p.
  match goal with H : collect encode_stanza _ = Ok ?st |- _ => rename H into Hst; rename st into stanzas end.
  match goal with H : collect (encode_signature _) _ = Ok ?sg |- _ => rename H into Hsg; rename sg into sigs end.
  assert (lenN h.(recipients) ≠ 0) by (rewrite length_nil_iff; done).
  exists (enc_u8 1 ++ enc_u16 Format.SUITE ++ enc_u8 2 ++ enc_bytes h.(object_id) ++ enc_u8 3
    ++ enc_array (lenN h.(recipients)) ++ concat stanzas ++ enc_u8 4 ++ enc_bytes h.(encrypted_metadata)), sigs.
  split_and!; [done|by rewrite <- !app_assoc|].
  intros n rest Hu input Hlen. subst input. unfold Header.decode at 1. rewrite Hlen, bind_of_Ok.
  rewrite <- !app_assoc. limits. destruct (N.leb_spec n 16) as [Hn|Hn].
  - read. pass.
    rewrite key_enc by lia. cbn [mbind result_mbind result_bind]. read. pass.
    rewrite key_enc by lia. cbn [mbind result_mbind result_bind]. read. pass.
    rewrite key_enc by lia. cbn [mbind result_mbind result_bind]. read. pass.
    rewrite Nat2N.id, (decode_stanzas_encode _ _ _ Tr Hst), bind_of_Ok.
    rewrite key_enc by lia. cbn [mbind result_mbind result_bind]. read. pass.
    unfold finish_header. replace (5 + n - 5) with n by lia. limits. done.
  - read. rewrite (proj2 (N.leb_le 5 (5 + n))), (proj2 (N.leb_gt (5 + n) (5 + 16))) by lia. done.
Qed.

(** A header without extensions, with entries appended that do not decode. *)
Lemma appended_entries_refused h b n tail e :
  header_typed h → Header.encode h = Ok b → h.(extensions) = [] → n <= MAX_EXTENSIONS →
  decode_extensions tail n 5 = Err e →
  ∃ body, b = enc_map 5 ++ body ∧
    (check_header_len (lenN (enc_map (5 + n) ++ body ++ tail)) = Ok tt →
     Header.decode (enc_map (5 + n) ++ body ++ tail)
       = Err (if bool_decide (e = UnsupportedFeature) then e else MalformedHeader)).
Proof.
  intros T H Hx Hn Hd. pose proof H as H'.
  destruct (encoded_header _ _ T H) as (core & sigs & Hs & Eb & Hdec).
  rewrite Hx in Eb. cbn [map concat length] in Eb. rewrite app_nil_r in Eb.
  exists (core ++ enc_u8 5 ++ enc_array (lenN h.(signatures)) ++ concat sigs). split; [exact Eb|].
  rewrite <- !app_assoc. intros Hlen. rewrite Hdec by (done || limits; lia).
  rewrite (proj2 (N.leb_le n MAX_EXTENSIONS)) by done. unfold finish_header.
  assert (lenN h.(signatures) <= MAX_SIGNATURES) as Hm.
  { unfold Header.encode, Header.encode_with_signatures in H'. inv_ok. by b2p. }
  rewrite key_enc by lia. rewrite bind_of_Ok. limits. read. pass.
  rewrite Nat2N.id, (decode_signatures_encode _ _ _ _ Hs), bind_of_Ok.
  rewrite Hd. cbn [map_err]. done.
Qed.

(** A header whose signatures do not decode: too many of them, or one of an
    unknown kind. *)
Lemma changed_signatures_refused h b :
  header_typed h → Header.encode h = Ok b → h.(extensions) = [] → (∃ s, h.(signatures) = [s]) →
  ∃ front sg, encode_signature MalformedHeader sg = Ok (drop (length (front ++ enc_array 1)) b) ∧
    b = front ++ enc_array 1 ++ drop (length (front ++ enc_array 1)) b ∧
    (∀ c tail, MAX_SIGNATURES < c <= u16_max → check_header_len (lenN (front ++ enc_array c ++ tail)) = Ok tt →
       Header.decode (front ++ enc_array c ++ tail) = Err MalformedHeader) ∧
    (∀ tail, check_header_len (lenN (front ++ enc_array 1 ++ tail)) = Ok tt →
       decode_signature tail = Err UnsupportedFeature →
       Header.decode (front ++ enc_array 1 ++ tail) = Err UnsupportedFeature).
Proof.
  intros T H Hx [s Hs1]. destruct (encoded_header _ _ T H) as (core & sigs & Hs & Eb & Hdec).
  rewrite Hx, Hs1 in Eb. rewrite Hs1 in Hs. cbn [collect] in Hs.
  apply bind_Ok_iff in Hs as (sg & He & Hs). rewrite bind_of_Ok in Hs. apply Ok_inj in Hs as <-.
  cbn [map concat length] in Eb. rewrite !app_nil_r in Eb.
  set (front := enc_map (5 + lenN ([] : list Extension)) ++ core ++ enc_u8 5) in *.
  assert (b = front ++ enc_array 1 ++ sg) as E by (rewrite Eb; unfold front; by rewrite <- !app_assoc).
  assert (drop (length (front ++ enc_array 1)) b = sg) as Edrop.
  { rewrite E, app_assoc. apply drop_app_length. }
  exists front, s. rewrite Edrop. split_and!; [done|done| |].
  - intros c tail Hc Hlen. unfold front in *. rewrite <- !app_assoc in *.
    rewrite (Hdec 0) by (done || limits; lia). change (0 <=? MAX_EXTENSIONS) with true. cbv iota. unfold finish_header.
    rewrite key_enc by lia. rewrite bind_of_Ok. limits. read.
    by rewrite (proj2 (N.ltb_lt 1 c)) by lia.
  - intros tail Hlen Ht. unfold front in *. rewrite <- !app_assoc in *.
    rewrite (Hdec 0) by (done || limits; lia). change (0 <=? MAX_EXTENSIONS) with true. cbv iota. unfold finish_header.
    rewrite key_enc by lia. rewrite bind_of_Ok. limits. read.
    change (N.to_nat 1) with 1%nat. cbn [repeat_read N.ltb N.compare Pos.compare Pos.compare_cont].
    unfold mbind, result_mbind. cbn [result_bind refuse_if]. by rewrite Ht.
Qed.
End headers.

(** ** Headers that the encoder refuses, in the reference codec *)
Section malformed.
Import Cbor.Reference.

Lemma change_at f (front : bytes) x rest :
  change (length front) f (front ++ x :: rest) = Ok (front ++ [byte_of (f (Byte.to_N x))] ++ rest).
Proof. unfold change. rewrite list_lookup_middle by done. by rewrite insert_app_r_alt, Nat.sub_diag by lia. Qed.

Lemma drop_past (front : bytes) x rest : drop (S (length front)) (front ++ x :: rest) = rest.
Proof. by induction front. Qed.

Lemma cbor_uint_head n : n < u64_bound → cbor_uint n = head 0 n.
Proof.
  intros Hn. unfold cbor_uint, head, u64_bound in *.
  repeat match goal with |- context [?a <=? ?b] => destruct (N.leb_spec a b) end;
  repeat match goal with |- context [?a <? ?b] => destruct (N.ltb_spec a b) end; done || lia.
Qed.

Lemma cbor_bstr_enc v : lenN v <= u32_max → cbor_bstr v = enc_bytes v.
Proof.
  intros Hn. unfold cbor_bstr. rewrite cbor_uint_head by (unfold u64_bound, u32_max in *; lia).
  cbn [enc_bytes cbor]. f_equal. unfold head, u32_max in *.
  repeat match goal with |- context [?a <? ?b] => destruct (N.ltb_spec a b) end; try done.
  f_equal. assert (lenN v ∈ map N.of_nat (seq 0 24)) as Hin.
  { apply list_elem_of_fmap. exists (length v). split; [done|]. apply elem_of_seq. lia. }
  revert Hin. generalize (lenN v). apply Forall_forall. vm_compute. repeat constructor.
Qed.

(** Raising the count in a map's head. *)
Lemma change_map_head n m r :
  n < 24 → m < 24 → change 0 (λ _, 160 + m) (enc_map n ++ r) = Ok (enc_map m ++ r).
Proof.
  intros Hn Hm. cbn [enc_map cbor]. unfold head. rewrite !(proj2 (N.ltb_lt _ _)) by done.
  cbn. done.
Qed.

Lemma raise_map_head r : change 0 (λ n, n + 1) (enc_map 5 ++ r) = Ok (enc_map 6 ++ r).
Proof. done. Qed.

(** What [build] makes of a header is refused by the decoder. *)
Definition malforms (signed : bool) (build : ProtectedHeader → result Trouble bytes) (e : FormatError) : Prop :=
  ∀ h out, header_typed h → h.(extensions) = [] → (signed = true → ∃ s, h.(signatures) = [s]) →
    build h = Ok out → check_header_len (lenN out) = Ok tt → Header.decode out = Err e.

Lemma entry_malforms key value e :
  decode_extensions (cbor_uint key ++ cbor_bstr value) 1 5 = Err e →
  malforms false (λ h, raw_header h key value)
    (if bool_decide (e = UnsupportedFeature) then e else MalformedHeader).
Proof.
  intros Hd h out T Hx _ H Hlen. unfold raw_header, encodable in H. inv_ok.
  match goal with H : Header.encode h = Ok ?b |- _ =>
    destruct (appended_entries_refused h b 1 _ e T H Hx ltac:(limits; lia) Hd) as (body & -> & Hdec) end.
  match goal with H : change _ _ _ = Ok _ |- _ => rewrite raise_map_head in H; apply Ok_inj in H as <- end.
  rewrite <- app_assoc in *. by apply Hdec.
Qed.

Lemma not_bstr_malforms : malforms false raw_not_bstr MalformedHeader.
Proof.
  intros h out T Hx _ H Hlen. unfold raw_not_bstr, encodable in H. inv_ok.
  match goal with H : Header.encode h = Ok ?b |- _ =>
    destruct (appended_entries_refused h b 1 (cbor_uint 64250 ++ cbor_uint 1) MalformedHeader T H Hx
      ltac:(limits; lia)) as (body & -> & Hdec); [reflexivity|] end.
  match goal with H : change _ _ _ = Ok _ |- _ => rewrite raise_map_head in H; apply Ok_inj in H as <- end.
  rewrite <- app_assoc in *. by apply Hdec.
Qed.

Lemma too_many_malforms : malforms false raw_too_many MalformedHeader.
Proof.
  intros h out T Hx _ H Hlen. unfold raw_too_many, encodable in H. inv_ok.
  match goal with H : Header.encode h = Ok ?b |- _ =>
    destruct (encoded_header h b T H) as (core & sigs & _ & -> & Hdec) end.
  rewrite Hx in *. match goal with H : change _ _ _ = Ok _ |- _ =>
    change 182 with (160 + 22) in H; rewrite change_map_head in H by (cbn; lia); apply Ok_inj in H as <- end.
  rewrite <- !app_assoc in *. change 22 with (5 + 17) in *. rewrite Hdec by (done || limits; lia). done.
Qed.

Lemma length_head_small n : 256 <= n < 65536 → length (head 2 n) = 3%nat.
Proof. intros H. pose proof (length_head 2 n ltac:(unfold u64_bound; lia)) as L. repeat case_match; b2p; lia. Qed.

Lemma encoded_signature_length sg e :
  encode_signature MalformedHeader sg = Ok e →
  length e = stanza_len ∧ ∃ r, e = enc_array 3 ++ enc_u8 1 ++ r.
Proof.
  unfold encode_signature. intros H. inv_ok. b2p. limits. split; [|by eexists].
  cbn [enc_array enc_u8 enc_bytes cbor]. rewrite !length_app, !length_head_small by lia.
  unfold stanza_len. cbn -[Nat.add]. lia.
Qed.

Lemma two_signatures_malforms : malforms true raw_two_signatures MalformedHeader.
Proof.
  intros h out T Hx Hs H Hlen. unfold raw_two_signatures, encodable, last_stanza in H.
  apply bind_Ok_iff in H as (b & He & H). apply map_err_Ok_iff in He.
  inv_ok.
  destruct (changed_signatures_refused h b T He Hx (Hs eq_refl)) as (front & sg & Hsg & Eb & Hmany & _).
  apply encoded_signature_length in Hsg as [Hl _]. revert Eb Hl. generalize (drop (length (front ++ enc_array 1)) b).
  intros sig Eb Hl.
  change (enc_array 1) with [byte_of 129] in *. cbn [app] in Eb. subst b.
  assert (length (front ++ byte_of 129 :: sig) - stanza_len = S (length front))%nat as El
    by (rewrite length_app; cbn [length]; lia).
  rewrite El in *. replace (S (length front) - 1)%nat with (length front) in * by lia.
  match goal with H : change _ _ _ = Ok _ |- _ => rewrite change_at in H; apply Ok_inj in H as <- end.
  rewrite drop_past in *. change [byte_of (_ : N)] with (enc_array 2) in *. rewrite <- !app_assoc in *.
  apply Hmany; [limits; lia|exact Hlen].
Qed.

Lemma signature_tag_malforms : malforms true raw_signature_tag UnsupportedFeature.
Proof.
  intros h out T Hx Hs H Hlen. unfold raw_signature_tag, encodable, last_stanza in H.
  apply bind_Ok_iff in H as (b & He & H). apply map_err_Ok_iff in He. inv_ok.
  destruct (changed_signatures_refused h b T He Hx (Hs eq_refl)) as (front & sg & Hsg & Eb & _ & Hone).
  apply encoded_signature_length in Hsg as [Hl [r Er]]. revert Eb Hl Er. generalize (drop (length (front ++ enc_array 1)) b).
  intros sig Eb Hl ->. change (enc_array 1) with [byte_of 129] in *. cbn [app] in Eb. subst b.
  assert (length (front ++ byte_of 129 :: enc_array 3 ++ enc_u8 1 ++ r) - stanza_len = S (length front))%nat as El
    by (rewrite length_app; cbn [length]; lia).
  rewrite El in *. change (enc_array 3 ++ enc_u8 1 ++ r) with (byte_of 131 :: byte_of 1 :: r) in *.
  replace (front ++ byte_of 129 :: byte_of 131 :: byte_of 1 :: r)
    with ((front ++ [byte_of 129; byte_of 131]) ++ byte_of 1 :: r) in * by by rewrite <- app_assoc.
  replace (S (length front) + 1)%nat with (length (front ++ [byte_of 129; byte_of 131])) in *
    by (rewrite length_app; cbn; lia).
  rewrite change_at in H. apply Ok_inj in H as <-. rewrite <- app_assoc in *. apply Hone; [exact Hlen|reflexivity].
Qed.
End malformed.

(** ** Reading a rewritten container *)
Section reading.
Context {C : Cbor} {CL : CborLaws C} {Sig : SignatureScheme} {SL : SignatureLaws Sig}.
Context {P : Crypto.Primitives} {L : Crypto.PrimitivesLaws P}.

(** What [seal] puts at the front of a container, whoever reads it. *)
Lemma sealed_head public plaintext m signer shape b p h protected mac salt rest :
  seal public plaintext m signer shape = Ok b → metadata_typed m → m.(meta_signature) = None →
  shape_typed shape → framed (slice_reader b) p h protected mac salt rest →
  Preamble.minor p = written_minor signer shape ∧ Preamble.flags p = written_flags signer ∧
  (∃ s, h.(recipients) = shape.(leading_stanzas) ++ [XWing s]) ∧
  h.(extensions) = shape.(header_extensions) ∧ ∃ m, placed_as signer h m.
Proof.
  intros H Tm Hm [T8 Ts Tx] [(V & _) Hh (outer & Ho & Hlen & Hmac & _ & Hc) _]. unfold seal in H. inv_ok.
  match goal with H : encrypt_shaped_for_vector _ _ _ _ _ _ = Ok (_, ?w) |- _ =>
    rename H into He; rename w into out end.
  unfold encrypt_shaped_for_vector, encrypt_for_vector_inner in He. inv_ok.
  match goal with H : encrypt_inner _ _ _ _ _ _ _ = Ok _ |- _ => rename H into He end.
  destruct (slice_reader_live plaintext) as [Lp _]. assert (accepting (vec [])) as Av by constructor.
  destruct (encrypt_inner_Ok _ _ _ _ _ _ _ _ _ Lp Av Hm T8 He) as (base & header & m' & plain &
    sealed & protected' & sizing & preamble & outer' & ek & mk & pk & src & w & _ & Po & Pr & Px & _ & Pa & _ & _ & _
    & _ & Hprot & Hsz & Hpre & _ & Hout & _ & Ls & _ & Aw & Ew & Hrec).
  destruct (slice_reader_live (written out)) as [_ Co]. rewrite Co in Hc. clear Co.
  destruct (encrypt_records_seals pk (material_id vector_material) (hash [protected']) src w Ls Aw)
    as (frames & _ & Hr). destruct (lenN (contents src) <=? MAX_PAYLOAD); [|congruence].
  destruct Hr as (w' & Er & Ew' & _). rewrite Er in Hrec. apply Ok_inj in Hrec. simplify_eq.
  rewrite Ew', Ew in Hc. cbn [vec written app] in Hc. rewrite <- !app_assoc in Hc.
  destruct (preamble_for_written _ _ _ _ T8 Hpre) as (V' & Hl' & Emi & Efl).
  apply app_inj_len_1 in Hc as [Ep Hc]; [|pose proof (Preamble.length_preamble_encode p);
    pose proof (Preamble.length_preamble_encode preamble); lia].
  assert (preamble = p) as -> by (apply (f_equal Preamble.decode) in Ep;
    rewrite !Preamble.preamble_decode_encode in Ep by done; congruence).
  assert (lenN (Crypto.mac mk [Preamble.encode p; protected']) = 32) as Hm32 by apply mac_length.
  assert (lenN outer' = lenN sizing) as El.
  { eapply outer_length; [|exact Hout|exact Hsz]. rewrite length_replicate. lia. }
  apply app_inj_len_1 in Hc as [Eo _]; [|lia]. subst outer'.
  apply (outer_decode_encode _ _ _ Hmac) in Ho. apply (outer_decode_encode _ _ _ Hm32) in Hout.
  rewrite Ho in Hout. apply Ok_inj in Hout. injection Hout as <- _.
  assert (Header.decode protected = Ok (set_encrypted header sealed)) as Hd.
  { apply header_decode_encode; [|done]. split; cbn [set_encrypted object_id recipients extensions].
    - by rewrite Po.
    - rewrite Pr. apply Forall_app. split; [done|by repeat constructor].
    - by rewrite Px. }
  rewrite Hd in Hh. apply Ok_inj in Hh as <-. cbn [set_encrypted recipients extensions].
  split_and!; [done|done|rewrite Pr; by eexists|done|].
  exists m'. by destruct signer as [[? []]|].
Qed.

(** The head of a container, read. *)
Lemma read_head b q outer rest source :
  live source → contents source = b → b = Preamble.encode q ++ outer ++ rest →
  lenN outer = Preamble.header_len q →
  ∃ r1 r2, read_exact PREAMBLE_LEN source = Ok (Preamble.encode q, r1) ∧
    read_exact (Preamble.header_len q) r1 = Ok (outer, r2).
Proof.
  intros Ls Cs -> Hl.
  destruct (read_exact_app _ _ _ _ Ls Cs (Preamble.length_preamble_encode q)) as (r1 & E1 & L1 & C1).
  destruct (read_exact_app _ _ _ _ L1 C1 Hl) as (r2 & E2 & _). by exists r1, r2.
Qed.

Section rewritten.
Context (container : bytes) (secret : RecipientSecret) (minor flags : option N).
Context (edit : ProtectedHeader → ProtectedHeader) (edit_metadata : bytes → bytes) (out : bytes).
Context (o : VerifiedObject) (staged : writer) (p : Preamble.Preamble) (h : ProtectedHeader).
Context (protected mac salt : bytes) (rest : reader) (cek : ContentKey) (plain sealed : bytes).
Context (q : Preamble.Preamble) (outer payload protected' mac' : bytes).
Context (R : rewrites container secret minor flags edit edit_metadata out o staged p h protected mac salt rest
  cek plain sealed q outer payload protected' mac').

Let k := edit (set_encrypted h sealed).

Lemma rewritten_head source :
  live source → contents source = out →
  ∃ r1 r2, read_exact PREAMBLE_LEN source = Ok (Preamble.encode q, r1) ∧
    read_exact (Preamble.header_len q) r1 = Ok (outer, r2).
Proof. destruct R as [_ _ _ _ _ _ _ _ _ Ec [_ Hl] _ _ _]. intros Ls Cs. by eapply read_head. Qed.

Lemma rewritten_bad_preamble e :
  Preamble.decode (Preamble.encode q) = Err e → refused_as secret out (Format e).
Proof.
  intros He source staging Ls _ Cs. destruct (rewritten_head _ Ls Cs) as (r1 & r2 & E1 & _).
  unfold decrypt_to_staging. rewrite E1. cbn [map_err]. rewrite bind_of_Ok, He. done.
Qed.

(** [unfold]s the reader up to the header it decoded. *)
Ltac reads_header Ls Cs V :=
  let r1 := fresh "r" in let r2 := fresh "r" in let E1 := fresh "E" in let E2 := fresh "E" in
  destruct (rewritten_head _ Ls Cs) as (r1 & r2 & E1 & E2);
  destruct R as [_ _ Hrec _ _ Hsealed _ _ _ _ [Hod _] Hhd Hmac _];
  unfold decrypt_to_staging; rewrite E1; cbn [map_err];
  rewrite bind_of_Ok, Preamble.preamble_decode_encode by exact V; cbn [map_err];
  rewrite bind_of_Ok, E2; cbn [map_err]; rewrite bind_of_Ok, Hod; cbn [map_err];
  rewrite bind_of_Ok, Hhd; cbn [map_err]; rewrite bind_of_Ok; fold k.

Lemma rewritten_legacy_extensions :
  Preamble.valid q → Preamble.is_legacy q = true → k.(extensions) ≠ [] →
  refused_as secret out (Format MalformedHeader).
Proof.
  intros V Hq Hx source staging Ls _ Cs. reads_header Ls Cs V.
  rewrite Hq, bool_decide_eq_false_2 by done. done.
Qed.

Lemma rewritten_nothing_known :
  Preamble.valid q → Preamble.is_legacy q = false → omap as_xwing k.(recipients) = [] →
  refused_as secret out NoMatchingRecipient.
Proof.
  intros V Hq Hx source staging Ls _ Cs. reads_header Ls Cs V.
  rewrite Hq. cbn [andb refuse_if]. rewrite bind_of_Ok. unfold recover_cek. by rewrite Hx.
Qed.

Context (V : Preamble.valid q) (Hq : Preamble.is_legacy q = false).
Context (Ho : k.(object_id) = h.(object_id)).
Context (Hs : omap as_xwing k.(recipients) = omap as_xwing h.(recipients)).
Context (He : k.(encrypted_metadata) = sealed).

(** A reader finds the same content key in [out], or two of them. *)
Lemma rewritten_recovers :
  recover_cek secret k (Preamble.encode q) protected' mac' = Ok cek ∨
  two_keys secret k (Preamble.encode q) protected' mac'.
Proof.
  destruct (rewrites_recover _ _ _ _ _ _ _ _ _ _ _ _ _ _ _ _ _ _ _ _ _ _ _ R Ho Hs) as [|Hk]; [by left|right].
  destruct R as [_ _ Hrec _ _ _ _ _ _ _ _ _ (key & Hd & Hm) _].
  apply recover_from_Ok in Hrec as (s & _ & Hin & Hu & _). rewrite <- Hs in Hin. rewrite <- Ho in Hu.
  by eapply (second_key_two _ _ _ _ _ _ s key).
Qed.

Lemma rewritten_bad_metadata e :
  Metadata.decode (edit_metadata plain) = Err e →
  refused_as secret out (Format e) ∨ two_keys secret k (Preamble.encode q) protected' mac'.
Proof.
  intros Hd. destruct rewritten_recovers as [Hrk|]; [left|by right].
  intros source staging Ls _ Cs. reads_header Ls Cs V.
  rewrite Hq. cbn [andb refuse_if]. rewrite bind_of_Ok, Hrk, bind_of_Ok.
  destruct Hsealed as (ek & Hek & _ & Hse). rewrite Ho, Hek. cbn [map_err].
  rewrite bind_of_Ok, He, (open_seal _ _ _ _ _ Hse). cbn [map_err]. by rewrite bind_of_Ok, Hd.
Qed.

Lemma rewritten_bad_signature m e :
  Metadata.decode (edit_metadata plain) = Ok m →
  verify_signature q k m (hash [staged.(written)]) (lenN staged.(written)) = Err e →
  refused_as secret out e ∨ two_keys secret k (Preamble.encode q) protected' mac'.
Proof.
  intros Hm Hv. destruct rewritten_recovers as [Hrk|]; [|by right]. left.
  intros source staging Ls As Cs.
  destruct (rewrites_reach_signature _ _ _ _ _ _ _ _ _ _ _ _ _ _ _ _ _ _ _ _ _ _ _ m source staging
    R V Ho Hrk He Hm) as (st & _ & E); [by intros Hl; congruence|done..|].
  cbn zeta in E. fold k in E. rewrite E, Hv. done.
Qed.
End rewritten.
End reading.

(** * Each is refused for its reason *)
Section refusals.
Import Cbor.Reference.
Context {Sig : SignatureScheme} {SL : SignatureLaws Sig}.
Context {P : Crypto.Primitives} {L : Crypto.PrimitivesLaws P}.
Context (secret : RecipientSecret) (public : RecipientPublic) (identity : SK) (signed_public : bytes).

(** The header a container carries, after a preamble and with a MAC. *)
Definition carries (b lead protected mac : bytes) (h : ProtectedHeader) : Prop :=
  ∃ outer rest, b = lead ++ outer ++ rest ∧ lenN lead = PREAMBLE_LEN ∧
    Outer.decode_header outer = Ok (protected, mac) ∧ Header.decode protected = Ok h.

(** The one header of the container gives its recipient two content keys under
    one MAC. *)
Definition ambiguous (b : bytes) : Prop :=
  ∃ lead protected mac h, carries b lead protected mac h ∧ two_keys secret h lead protected mac.

(** The one signature of [container] is also valid for [b], with the metadata
    and the plaintext of [container], though [b] has other recipients or
    extensions. *)
Definition resigned (container b : bytes) : Prop :=
  ∃ o staged p protected mac h q protected' mac' k s id,
    decrypt_to_staging (slice_reader container) (vec []) secret = Ok (o, staged) ∧
    Preamble.valid p ∧ carries container (Preamble.encode p) protected mac h ∧
    Preamble.valid q ∧ carries b (Preamble.encode q) protected' mac' k ∧
    (k.(recipients) ≠ h.(recipients) ∨ k.(extensions) ≠ h.(extensions)) ∧
    h.(signatures) = [s] ∧ k.(signatures) = [s] ∧
    signs p h o.(object_metadata) (hash [staged.(written)]) (lenN staged.(written)) s id ∧
    signs q k o.(object_metadata) (hash [staged.(written)]) (lenN staged.(written)) s id.

(** Refused for its reason, or the exception holds of the vector. *)
Definition refuses (exception : bytes → Prop) (v : Rejection) : Prop :=
  ∀ b, v.(made) = Ok b → refused_as secret b v.(error) ∨ exception b.

Definition never (_ : bytes) : Prop := False.

(** A vector made from [grease_signed] whose signature covers what was edited. *)
Definition covered (v : Rejection) (b : bytes) : Prop :=
  v.(error) = InvalidSignature ∧
  ∃ container, grease_signed public identity = Ok container ∧ resigned container b.

Lemma rewrites_carries container minor flags edit edit_metadata out o staged p h
    protected mac salt rest cek plain sealed q outer payload protected' mac' :
  rewrites container secret minor flags edit edit_metadata out o staged p h protected mac salt rest
    cek plain sealed q outer payload protected' mac' →
  carries out (Preamble.encode q) protected' mac' (edit (set_encrypted h sealed)).
Proof.
  intros [_ _ _ _ _ _ _ _ _ Ec [Hod _] Hhd _ _]. exists outer, (salt ++ payload).
  by split_and!.
Qed.

Lemma vector_metadata_typed name grease :
  utf8_valid (name ++ text ".txt") = true → metadata_typed (metadata name grease).
Proof.
  intros Hn. split; cbn; [by intros f [= <-]|by intros t [= <-]|].
  destruct grease; repeat constructor; done.
Qed.

(** A row whose base this generator sealed. *)
Record edits (base : result Trouble bytes) (signer : option (SK * SignaturePlacement)) (shape : VectorShape)
    (minor flags : option N) (edit : ProtectedHeader → ProtectedHeader) (edit_metadata : bytes → bytes)
    (out : bytes) (o : VerifiedObject) (staged : writer) (p : Preamble.Preamble) (h : ProtectedHeader)
    (cek : ContentKey) (plain sealed : bytes) (q : Preamble.Preamble) (protected' mac' : bytes) : Prop := {
  ed_rewrites : ∃ container protected mac salt rest outer payload, base = Ok container ∧
    rewrites container secret minor flags edit edit_metadata out o staged p h protected mac salt rest
      cek plain sealed q outer payload protected' mac';
  ed_minor : Preamble.minor p = written_minor signer shape;
  ed_flags : Preamble.flags p = written_flags signer;
  ed_recipients : ∃ s, h.(recipients) = shape.(leading_stanzas) ++ [XWing s];
  ed_extensions : h.(extensions) = shape.(header_extensions);
  ed_placed : ∃ m, placed_as signer h m;
}.

Lemma rewritten_edits plaintext name grease signer shape minor flags edit edit_metadata out :
  rewritten secret (seal public plaintext (metadata name grease) signer shape) minor flags edit edit_metadata = Ok out →
  utf8_valid (name ++ text ".txt") = true → shape_typed shape →
  (∀ h, header_typed h → header_typed (edit h)) →
  ∃ o staged p h cek plain sealed q protected' mac',
    edits (seal public plaintext (metadata name grease) signer shape) signer shape minor flags edit
      edit_metadata out o staged p h cek plain sealed q protected' mac'.
Proof.
  intros H Hn Ts Te. unfold rewritten in H. apply bind_Ok_iff in H as (b & Hb & H).
  apply map_err_Ok_iff in H. destruct (rewrite_Ok _ _ _ _ _ _ _ H Te) as (o & staged & p & h & protected
    & mac & salt & rest & cek & plain & sealed & q & outer & payload & protected' & mac' & R).
  pose proof R as [_ Hf _ _ _ _ _ _ _ _ _ _ _ _].
  destruct (sealed_head _ _ _ _ _ _ _ _ _ _ _ _ Hb (vector_metadata_typed _ _ Hn) eq_refl Ts Hf)
    as (? & ? & ? & ? & ?).
  exists o, staged, p, h, cek, plain, sealed, q, protected', mac'. split; try done.
  by exists b, protected, mac, salt, rest, outer, payload.
Qed.

Lemma framed_carries container p h protected mac salt rest :
  framed (slice_reader container) p h protected mac salt rest →
  carries container (Preamble.encode p) protected mac h.
Proof.
  intros Hf. destruct (framed_bytes _ _ _ _ _ _ _ Hf) as (outer & Ho & _ & Hm & _ & Hc).
  destruct (slice_reader_live container) as [_ Cs]. rewrite Cs in Hc.
  exists outer, (salt ++ contents rest). split_and!; [done|apply Preamble.length_preamble_encode|by apply (outer_decode_encode _ _ _ Hm)|].
  by eapply framed_header.
Qed.

(** The preamble that was written, as a reader decodes it. *)
Lemma decode_fields_of q :
  Preamble.minor q < 256 → Preamble.flags q < 256 → Preamble.header_len q <= MAX_HEADER_LEN →
  Preamble.decode (Preamble.encode q)
    = Preamble.from_parts (Preamble.header_len q) (Preamble.minor q) (Preamble.flags q).
Proof.
  intros Hm Hf Hl. rewrite (Preamble.preamble_decode_fields _ (byte_of 0) (byte_of (Preamble.minor q))
    (byte_of 1) (byte_of (Preamble.flags q)) (u32be (Preamble.header_len q))) by (done || apply length_be).
  rewrite !to_N_byte_of, !N.mod_small by lia. cbn -[Preamble.from_parts].
  unfold u32be. by rewrite unbe_be_small by (unfold MAX_HEADER_LEN in *; cbn; lia).
Qed.

Lemma minor_kept base signer shape minor flags edit edit_metadata out o staged p h cek plain sealed q pr mac :
  edits base signer shape minor flags edit edit_metadata out o staged p h cek plain sealed q pr mac →
  Preamble.minor q = default (written_minor signer shape) minor ∧
  Preamble.flags q = default (written_flags signer) flags ∧ 0 < Preamble.header_len q <= MAX_HEADER_LEN.
Proof.
  intros [(container & protected & mc & salt & rest & outer & payload & _ & R) <- <- _ _ _].
  by destruct R.
Qed.

Ltac row Hout T :=
  let R := fresh "R" in
  apply rewritten_edits in Hout as (o & staged & p & h & cek & plain & sealed & q & pr & mc & R);
    [|reflexivity|by repeat constructor|exact T];
  destruct (minor_kept _ _ _ _ _ _ _ _ _ _ _ _ _ _ _ _ _ _ R) as (Hmi & Hfl & Hlen);
  cbn [default from_option id written_minor written_flags shape_minor default_shape grease_shape] in Hmi, Hfl;
  destruct R as [(container & protected & mac & salt & rest & outer & payload & Hbase & Hrw) Hpm Hpf Hrec Hext Hpl];
  cbn [written_minor written_flags shape_minor header_extensions leading_stanzas default_shape grease_shape
    placed_as] in Hpm, Hpf, Hrec, Hext, Hpl.

Lemma preambles_refused : Forall (refuses never) (preamble_rejections secret public identity).
Proof.
  repeat (apply Forall_cons_2; [intros b Hb; cbn [made error] in *; left|]); [..|by apply Forall_nil_2]; row Hb (λ (h : ProtectedHeader) (T : header_typed h), T);
    eapply rewritten_bad_preamble; try exact Hrw; rewrite decode_fields_of by (rewrite ?Hmi, ?Hfl; done || lia);
    by rewrite Hmi, Hfl.
Qed.

Lemma current q minor flags :
  Preamble.minor q = minor → Preamble.flags q = flags → 0 < Preamble.header_len q <= MAX_HEADER_LEN →
  0 < minor < 256 → minor ≠ LEGACY_SIGNED_MINOR → flags = 0 ∨ flags = FLAG_SIGNED →
  Preamble.valid q ∧ Preamble.is_legacy q = false.
Proof.
  intros <- <- Hl Hm Hn Hf. split; [split; [done|destruct Hf; auto|done]|].
  unfold Preamble.is_legacy. by apply N.eqb_neq.
Qed.

Lemma keep_unknown_typed h : header_typed h → header_typed (keep_unknown h).
Proof.
  intros [To Tr Te]. split; [done| |done]. cbn. revert Tr. rewrite !Forall_forall.
  intros Tr s Hs. apply Tr. apply list_elem_of_In, filter_In in Hs as [Hs _]. by apply list_elem_of_In.
Qed.

Lemma nothing_known l :
  omap as_xwing (List.filter (λ s, bool_decide (as_xwing s = None)) l) = [].
Proof. induction l as [|[s|s] l IH]; cbn; [done|exact IH|exact IH]. Qed.

Lemma stanzas_refused : Forall (refuses never) (stanza_rejections secret public).
Proof.
  apply Forall_cons_2; [|by apply Forall_nil_2]. intros b Hb. cbn [made error] in *. left.
  row Hb keep_unknown_typed.
  destruct (current q _ _ Hmi Hfl Hlen) as [V Hq]; [by split|done|auto|].
  eapply rewritten_nothing_known; [exact Hrw|done|done|]. apply nothing_known.
Qed.

Lemma push_extension_typed h : header_typed h → header_typed (push_extension h).
Proof. intros [To Tr Te]. split; [done|done|]. apply Forall_app. split; [done|by repeat constructor]. Qed.

(** The frozen vector is of the legacy minor. *)
Lemma legacy_refused : byte_at 9 signed_public = LEGACY_SIGNED_MINOR →
  Forall (refuses never) (legacy_rejections secret signed_public).
Proof.
  intros H9. apply Forall_cons_2; [|by apply Forall_nil_2]. intros b Hb. cbn [made error] in *. left.
  unfold rewritten in Hb. rewrite bind_of_Ok in Hb. apply map_err_Ok_iff in Hb.
  destruct (rewrite_Ok _ _ _ _ _ _ _ Hb push_extension_typed) as (o & staged & p & h & protected
    & mac & salt & rest & cek & plain & sealed & q & outer & payload & protected' & mac' & R).
  pose proof R as [_ Hf _ _ _ _ Hmi Hfl Hlen _ _ _ _ _]. cbn [default from_option id] in Hmi, Hfl.
  pose proof (framed_readable _ _ _ _ _ _ _ Hf) as (V & _ & _).
  destruct (framed_bytes _ _ _ _ _ _ _ Hf) as (outer0 & _ & _ & _ & _ & Hc).
  destruct (slice_reader_live signed_public) as [_ Cs]. rewrite Cs in Hc.
  assert (Preamble.minor p = LEGACY_SIGNED_MINOR) as Em.
  { rewrite <- H9, Hc. change (Preamble.minor p = Byte.to_N (byte_of (Preamble.minor p))).
    rewrite to_N_byte_of. destruct V as [V1 _ _]. symmetry. apply N.mod_small. exact (proj2 V1). }
  eapply rewritten_legacy_extensions; [exact R| | |].
  - destruct V as [V1 V2 V3]. split; rewrite ?Hmi, ?Hfl; done.
  - unfold Preamble.is_legacy. rewrite Hmi, Em. done.
  - cbn. by destruct (extensions h).
Qed.

(** *** Signatures *)
Lemma clear_typed h : header_typed h → header_typed (clear_signatures h).
Proof. by intros []. Qed.
Lemma rewrite_extension_typed h : header_typed h → header_typed (rewrite_extension h).
Proof.
  intros [To Tr Te]. unfold rewrite_extension. destruct (extensions h) as [|e l] eqn:E; [split; [done|done|by rewrite E]|].
  split; [done|done|]. cbn. apply Forall_cons in Te as [T1 T2]. by apply Forall_cons.
Qed.
Lemma remove_stanza_typed h : header_typed h → header_typed (remove_stanza h).
Proof. intros [To Tr Te]. split; [done| |done]. by apply Forall_drop. Qed.

(** A public signature that a reader accepted is the one in the header. *)
Lemma accepted_signature p h m hash n signer identity' :
  verify_signature p h m hash n = Ok signer → placed_as (Some (identity', Public)) h m ∨ (∃ s, h.(signatures) = [s]) →
  ∃ s id, h.(signatures) = [s] ∧ m.(meta_signature) = None ∧ Preamble.is_signed p = true ∧
    signer = Some id ∧ signs p h m hash n s id.
Proof.
  intros Hv Hp. assert (∃ s, h.(signatures) = [s]) as [s Es] by (destruct Hp as [[? _]|]; done).
  apply verify_signature_Ok_iff in Hv. destruct signer as [id|].
  - destruct Hv as (Hs & s' & [[E1 E2]|[E1 E2]] & Hsig); [|congruence].
    rewrite Es in E1. injection E1 as ->. by exists s', id.
  - destruct Hv as (_ & E & _). congruence.
Qed.

(** An edit under which the signature check fails, whatever came of the keys. *)
Lemma refused_by_signature minor flags edit container out o staged p h protected mac salt rest cek plain
    sealed q outer payload pr mc e :
  rewrites container secret minor flags edit id out o staged p h protected mac salt rest cek plain sealed
    q outer payload pr mc →
  Preamble.valid q → Preamble.is_legacy q = false →
  let k := edit (set_encrypted h sealed) in
  k.(object_id) = h.(object_id) → omap as_xwing k.(recipients) = omap as_xwing h.(recipients) →
  k.(encrypted_metadata) = sealed →
  verify_signature q k o.(object_metadata) (hash [staged.(written)]) (lenN staged.(written)) = Err e →
  refused_as secret out e ∨ ambiguous out.
Proof.
  intros R V Hq k Ho Hs He Hv.
  pose proof R as [_ _ _ [_ Hmd] _ _ _ _ _ _ _ _ _ _].
  destruct (rewritten_bad_signature _ _ _ _ _ _ _ _ _ _ _ _ _ _ _ _ _ _ _ _ _ _ _ R V Hq Ho Hs He _ _ Hmd Hv)
    as [|Hx]; [by left|]. right. eexists _, _, _, _. split; [by eapply rewrites_carries|exact Hx].
Qed.

(** An edit that the transcript covers. *)
Lemma covered_edit_refused edit container out o staged p h protected mac salt rest cek plain
    sealed q outer payload pr mc :
  rewrites container secret None None edit id out o staged p h protected mac salt rest cek plain sealed
    q outer payload pr mc →
  Preamble.valid q → Preamble.is_legacy q = false → (∃ s, h.(signatures) = [s]) →
  let k := edit (set_encrypted h sealed) in
  k.(object_id) = h.(object_id) → omap as_xwing k.(recipients) = omap as_xwing h.(recipients) →
  k.(encrypted_metadata) = sealed → k.(signatures) = h.(signatures) →
  k.(recipients) ≠ h.(recipients) ∨ k.(extensions) ≠ h.(extensions) →
  refused_as secret out InvalidSignature ∨ ambiguous out ∨ resigned container out.
Proof.
  intros R V Hq Hsig k Ho Hs He Hks Hne.
  pose proof R as [Hopen Hf _ [_ Hmd] Hv _ Hmi Hfl _ _ _ Hhd _ Hpay]. cbn [default from_option id] in Hmi, Hfl.
  destruct (accepted_signature _ _ _ _ _ _ identity Hv (or_intror Hsig)) as (s & id & Es & Em & Hsp & _ & Hsi).
  pose proof Hsi as (base & Hid & Hb & Hver).
  assert (Preamble.is_legacy p = false) as Hp by (unfold Preamble.is_legacy in *; congruence).
  assert (Preamble.is_signed q = true) as Hsq.
  { unfold Preamble.is_signed, Preamble.is_legacy in *. by rewrite Hmi, Hfl. }
  assert (only_signature k o.(object_metadata) s) as Hk1.
  { left. by rewrite Hks, Es. }
  destruct (verify id (signing_context q) (transcript q k base (hash [staged.(written)]) (lenN staged.(written)))
    s.(signature)) as [[]|e] eqn:E.
  - right. right. exists o, staged, p, protected, mac, h, q, pr, mc, k, s, id.
    pose proof (framed_readable _ _ _ _ _ _ _ Hf) as (Vp & _ & _).
    split_and!; try done; [by eapply framed_carries|by eapply rewrites_carries|by rewrite Hks|].
    by exists base.
  - destruct (refused_by_signature _ _ _ _ _ _ _ _ _ _ _ _ _ _ _ _ _ _ _ _ _ InvalidSignature R V Hq Ho Hs He)
      as [|]; [|by left|by right; left].
    rewrite (verify_signature_one q k _ s id base) by done.
    by rewrite E.
Qed.

Lemma covers v container out :
  grease_signed public identity = Ok container → v.(error) = InvalidSignature →
  refused_as secret out InvalidSignature ∨ ambiguous out ∨ resigned container out →
  refused_as secret out v.(error) ∨ ambiguous out ∨ covered v out.
Proof.
  intros Hc He [H|[H|H]]; rewrite He; [by left|by right; left|]. right. right. split; [done|]. by exists container.
Qed.

Lemma signatures_refused :
  Forall (λ v, refuses (λ b, ambiguous b ∨ covered v b) v) (signature_rejections secret public identity).
Proof.
  repeat (apply Forall_cons_2; [intros b Hb; cbn [made error] in *|]); [..|by apply Forall_nil_2].
  - row Hb clear_typed. destruct (current q _ _ Hmi Hfl Hlen) as [V Hq]; [by split|done|auto|].
    destruct (refused_by_signature _ _ _ _ _ _ _ _ _ _ _ _ _ _ _ _ _ _ _ _ _ MissingSignature Hrw V Hq eq_refl eq_refl eq_refl) as [|]; [|by left|by right; left].
    pose proof Hrw as [_ _ _ _ Hv _ _ _ _ _ _ _ _ _].
    destruct (accepted_signature _ _ _ _ _ _ identity Hv) as (s & id & Es & Em & Hsp & _); [right; by destruct Hpl as [? [? _]]|].
    unfold verify_signature. cbn [clear_signatures set_signatures signatures head]. rewrite Em.
    unfold Preamble.is_signed. by rewrite Hq, Hfl.
  - row Hb (λ (h : ProtectedHeader) (T : header_typed h), T).
    destruct (current q _ _ Hmi Hfl Hlen) as [V Hq]; [by split|done|auto|].
    destruct (refused_by_signature _ _ _ _ _ _ _ _ _ _ _ _ _ _ _ _ _ _ _ _ _ UnexpectedSignature Hrw V Hq eq_refl eq_refl eq_refl) as [|]; [|by left|by right; left].
    pose proof Hrw as [_ _ _ _ Hv _ _ _ _ _ _ _ _ _].
    destruct (accepted_signature _ _ _ _ _ _ identity Hv) as (s & id & Es & Em & Hsp & _); [right; by destruct Hpl as [? [? _]]|].
    unfold verify_signature. cbn [Datatypes.id set_encrypted signatures]. rewrite Es, Em. cbn [head].
    unfold Preamble.is_signed. by rewrite Hq, Hfl.
  - row Hb rewrite_extension_typed. destruct (current q _ _ Hmi Hfl Hlen) as [V Hq]; [by split|done|auto|].
    refine (covers (Build_Rejection _ _ _ InvalidSignature) container b Hbase eq_refl _). eapply covered_edit_refused; [exact Hrw|done|done|by destruct Hpl as [? [? _]]|..];
      unfold rewrite_extension; cbn [set_encrypted extensions]; rewrite Hext; try done.
    right. vm_compute. discriminate.
  - row Hb remove_stanza_typed. destruct (current q _ _ Hmi Hfl Hlen) as [V Hq]; [by split|done|auto|].
    destruct Hrec as [s Er]. refine (covers (Build_Rejection _ _ _ InvalidSignature) container b Hbase eq_refl _).
    eapply covered_edit_refused; [exact Hrw|done|done|by destruct Hpl as [? [? _]]|..]; try done;
      cbn [remove_stanza with_recipients set_encrypted recipients]; rewrite Er; [done|by left].
Qed.

(** *** Metadata *)
Lemma sealed_metadata_refused m e :
  Metadata.decode m = Err e → ∀ b, with_metadata secret public m = Ok b →
  refused_as secret b (Format e) ∨ ambiguous b.
Proof.
  intros He b Hb. unfold with_metadata, unsigned in Hb. row Hb (λ (h : ProtectedHeader) (T : header_typed h), T).
  destruct (current q _ _ Hmi Hfl Hlen) as [V Hq]; [by split|done|auto|].
  destruct (rewritten_bad_metadata _ _ _ _ _ _ _ _ _ _ _ _ _ _ _ _ _ _ _ _ _ _ _ Hrw V Hq eq_refl eq_refl eq_refl e He)
    as [|Hx]; [by left|]. right. eexists _, _, _, _. split; [by eapply rewrites_carries|exact Hx].
Qed.

Lemma sealed_entry_refused entry e :
  (base ← map_err Encoding (Metadata.encode (metadata (text "r") false));
   m ← metadata_with_raw base 1 entry; map_err Encoding (Metadata.decode m)) = Err (Encoding e) →
  ∀ b, with_entry secret public entry = Ok b →
  refused_as secret b (Format e) ∨ ambiguous b.
Proof.
  intros He b H. unfold with_entry in H. apply bind_Ok_iff in H as (base & Hb & H).
  apply bind_Ok_iff in H as (m & Hm & H). rewrite Hb, bind_of_Ok, Hm, bind_of_Ok in He.
  eapply sealed_metadata_refused; [|exact H]. destruct (Metadata.decode m); cbn in He; congruence.
Qed.

Lemma metadata_refused : Forall (refuses ambiguous) (metadata_rejections secret public).
Proof.
  repeat (apply Forall_cons_2; [intros b Hb; cbn [made error] in *|]); [..|by apply Forall_nil_2].
  - refine (sealed_entry_refused _ _ _ b Hb); (vm_compute; reflexivity).
  - refine (sealed_entry_refused _ _ _ b Hb); (vm_compute; reflexivity).
  - refine (sealed_metadata_refused _ _ _ b Hb); (vm_compute; reflexivity).
  - refine (sealed_metadata_refused _ _ _ b Hb); (vm_compute; reflexivity).
Qed.

(** *** Headers *)
Lemma raw_refused plaintext name signer build e :
  malforms (match signer with Some _ => true | None => false end) build e →
  utf8_valid (name ++ text ".txt") = true →
  ∀ b, raw secret (seal public plaintext (metadata name false)
           (match signer with Some id => Some (id, Public) | None => None end) default_shape) build = Ok b →
    refused_as secret b (Format e) ∨ never b.
Proof.
  intros Hm Hn b H. left. unfold raw in H. apply bind_Ok_iff in H as (container & Hb & H).
  unfold rewrite_raw_header in H. apply bind_Ok_iff in H as ([[head pt] header] & Hh & H).
  apply map_err_Ok_iff in Hh. apply bind_Ok_iff in H as (protected & Hp & H).
  apply bind_Ok_iff in H as (rebuilt & _ & H). apply map_err_Ok_iff in H.
  assert (Header.decode protected = Err e) as Hd.
  { unfold handed_over in Hh. inv_ok.
    match goal with H1 : open_head _ _ = Ok _, H2 : open_payload _ _ = Ok _ |- _ =>
      destruct (forger_opens _ _ _ _ H1 H2) as (o & staged & p & h & prot & mac & salt & rest & ek & plain
        & _ & _ & Hf & _ & _ & Eh & _) end.
    rewrite Eh in *.
    destruct (sealed_head _ _ _ _ _ _ _ _ _ _ _ _ Hb (vector_metadata_typed _ _ Hn) eq_refl default_shape_typed Hf)
      as (_ & _ & _ & Hx & m & Hpl).
    destruct (header_decode_inv _ _ (framed_header _ _ _ _ _ _ _ Hf)) as ([] & _).
    refine (Hm (set_encrypted h _) protected _ Hx _ Hp _); [by split| |].
    - destruct signer; [|done]. intros _. by destruct Hpl.
    - unfold replace_protected_for_test, Outer.encode_header in H. by inv_ok. }
  intros source staging Ls _ Cs. by eapply malformed_header_refused.
Qed.

Lemma headers_refused : Forall (refuses never) (header_rejections secret public identity).
Proof.
  repeat (apply Forall_cons_2; [intros b Hb; cbn [made error] in *|]); [..|by apply Forall_nil_2].
  - refine (raw_refused _ _ None _ _ _ _ b Hb); [|reflexivity]. apply (entry_malforms 6 [byte_of 0] UnsupportedFeature). vm_compute. reflexivity.
  - refine (raw_refused _ _ None _ _ _ _ b Hb); [|reflexivity]. apply (entry_malforms 65536 [byte_of 0] MalformedHeader). vm_compute. reflexivity.
  - refine (raw_refused _ _ None _ _ _ _ b Hb); [|reflexivity].
    apply (entry_malforms 64250 (replicate (N.to_nat 65537) (byte_of 0)) MalformedHeader). vm_compute. reflexivity.
  - refine (raw_refused _ _ None _ _ _ _ b Hb); [|reflexivity]. apply not_bstr_malforms.
  - refine (raw_refused _ _ None _ _ _ _ b Hb); [|reflexivity]. apply too_many_malforms.
  - refine (raw_refused _ _ (Some identity) _ _ _ _ b Hb); [|reflexivity]. apply two_signatures_malforms.
  - refine (raw_refused _ _ (Some identity) _ _ _ _ b Hb); [|reflexivity]. apply signature_tag_malforms.
Qed.

(** *** Public keys *)
Lemma keys_refused n b :
  (n, b) ∈ key_rejections public → public_from_bytes b = Err Hpke ∨ public_from_bytes b = Err DegeneratePublicKey.
Proof.
  intros H. assert (∃ x, x ∈ [replicate 31 (byte_of 0) ++ [byte_of 128];
      byte_of 238 :: replicate 30 (byte_of 255) ++ [byte_of 127]; replicate 32 (byte_of 0)] ∧ b = key_with public x) as (x & Hx & ->).
  { unfold key_rejections in H. repeat (apply elem_of_cons in H as [[= -> ->]|H];
      [by eexists; split; [|done]; set_solver|]). by apply elem_of_nil in H. }
  unfold key_with, public_from_bytes. destruct (hpke_public_from_bytes _) as [k|]; [right|by left].
  cbn [ok_or]. rewrite bind_of_Ok.
  pose proof (hpke_public_length public.(hpke_public)) as Hl.
  assert (length (take 1184 (public_to_bytes public)) = 1184%nat) as Ht
    by (rewrite length_take; unfold public_to_bytes; lia).
  rewrite (drop_app_length' _ _ _ (eq_sym Ht)).
  destruct ((X25519_OFFSET <=? _) && _); [|done]. cbn [negb refuse_if]. rewrite bind_of_Ok.
  repeat (apply elem_of_cons in Hx as [->|Hx]; [by vm_compute|]). by apply elem_of_nil in Hx.
Qed.

End refusals.

(** ** The generator, run on the toy primitives *)
Module Samples.
Import Cbor.Reference Sign.Toy Crypto.Toy.

Definition secret : RecipientSecret := {| recipient_seed := replicate 32 (byte_of 85) |}.
Definition signer : SK (SignatureScheme := Hybrid.scheme (P := Sign.Toy.primitives)) :=
  Hybrid.from_seed (P := Sign.Toy.primitives) (replicate 32 (byte_of 85)).
Definition public : result CryptoError (RecipientPublic (P := Crypto.Toy.primitives)) :=
  Crypto.public_key (P := Crypto.Toy.primitives) secret.

(** A container of the minor that signed before 1.0. *)
Definition legacy public : result Trouble bytes :=
  seal (C := cbor) (Sig := Hybrid.scheme (P := Sign.Toy.primitives)) (P := Crypto.Toy.primitives)
    public (line (text "Hello signed HIDE")) (metadata (text "signed") false)
    (Some (signer, LegacyPublic)) default_shape.

Definition rows public signed_public : list Rejection :=
  rejections (C := cbor) (Sig := Hybrid.scheme (P := Sign.Toy.primitives)) (P := Crypto.Toy.primitives)
    secret public signer signed_public
  ++ take 7 (early_rejections (C := cbor) (Sig := Hybrid.scheme (P := Sign.Toy.primitives))
    (P := Crypto.Toy.primitives) public).

(** Made, and refused with its error. *)
Definition as_told (v : Rejection) : bool :=
  match v.(made) with
  | Ok b =>
      match decrypt_to_staging (C := cbor) (Sig := Hybrid.scheme (P := Sign.Toy.primitives))
          (P := Crypto.Toy.primitives) (slice_reader b) (vec []) secret with
      | Ok _ => false
      | Err e => bool_decide (e = v.(error))
      end
  | Err _ => false
  end.

Definition all_as_told (public : result CryptoError (RecipientPublic (P := Crypto.Toy.primitives)))
    (legacy : RecipientPublic (P := Crypto.Toy.primitives) → result Trouble bytes) : bool :=
  match public with
  | Ok public =>
      match legacy public with
      | Ok b => (byte_at 9 b =? LEGACY_SIGNED_MINOR) && forallb as_told (rows public b)
      | Err _ => false
      end
  | Err _ => false
  end.
End Samples.

(** Thirty rows, each made and each refused as the index says. *)
Lemma sample_rejections : Samples.all_as_told Samples.public Samples.legacy = true.
Proof. vm_compute. reflexivity. Qed.

Lemma all_as_told_made p l :
  Samples.all_as_told p l = true →
  ∃ public legacy, p = Ok public ∧ l public = Ok legacy ∧ byte_at 9 legacy = LEGACY_SIGNED_MINOR.
Proof.
  unfold Samples.all_as_told. intros H. destruct p as [public|]; [|discriminate].
  destruct (l public) as [legacy|] eqn:El; [|discriminate].
  apply andb_prop in H as [H9 _]. apply N.eqb_eq in H9. by exists public, legacy.
Qed.

Section witnesses.
Import Cbor.Reference Sign.Toy Crypto.Toy.
#[local] Existing Instance Hybrid.scheme.
#[local] Existing Instance Hybrid.scheme_laws.

End witnesses.
