(* ===== verification/Frozen.v ===== *)
(** The [Writer] of [generate_v1_vectors.rs]: what a run of the generator may do
    to the files of the conformance suite, and how it merges the rows of the
    rejection index and what the manifest says of them. Which vectors there are is
    the matter of [Vectors]. *)
From Stdlib Require Import Strings.Byte.
From stdpp Require Import gmap.
From S2P Require Import Prelude Utf8 Cbor Format Sign Crypto Note Armor Vectors.
Local Open Scope N_scope.

Abbreviation Suite := (gmap bytes bytes).

(** [root] does not change; [drift] names what would change. *)
Record Writer := { check : bool; drift : list bytes }.

Definition drifted (w : Writer) (name : bytes) : Writer :=
  {| check := w.(check); drift := w.(drift) ++ [name] |}.

Definition is_comment (l : bytes) : bool := starts_with (text "#") l.

(** Every row of the index that is there is in the new one. *)
Definition kept (existing txt : bytes) : bool :=
  forallb (λ l, existsb (λ n, bool_decide (n = l)) (lines txt))
    (List.filter (λ l, negb (is_comment l)) (lines existing)).

(** What the run gives the [Writer]: a vector or an index. *)
Inductive Output :=
| Vector (relative content : bytes)
| Index (relative txt : bytes).

Definition target (o : Output) : bytes := match o with Vector r _ | Index r _ => r end.

(** * Writing *)
Section writing.
(** Which files of the suite can be read and written by this process. *)
Context (readable writable : bytes → bool).

(** [fs::read] *)
Definition read_file (files : Suite) (p : bytes) : option bytes :=
  if readable p then files !! p else None.

(** [fs::read_to_string] *)
Definition read_to_string (files : Suite) (p : bytes) : option bytes :=
  b ← read_file files p; if utf8_valid b then Some b else None.

(** [fs::write]; [None] is the error the generator stops with. *)
Definition write_file (files : Suite) (p b : bytes) : option Suite :=
  if writable p then Some (<[p := b]> files) else None.

Definition put_index (relative txt : bytes) (w : Writer) (files : Suite) : option (Writer * Suite) :=
  let write := files ← write_file files relative txt; Some (w, files) in
  match read_to_string files relative with
  | Some existing =>
      if bool_decide (existing = txt) then Some (w, files)
      else if negb (kept existing txt) || w.(check) then Some (drifted w relative, files)
      else write
  | None => write
  end.

Definition put (relative b : bytes) (w : Writer) (files : Suite) : option (Writer * Suite) :=
  match read_file files relative with
  | Some existing =>
      if bool_decide (existing = b) then Some (w, files) else Some (drifted w relative, files)
  | None =>
      if w.(check) then Some (drifted w (relative ++ text " (missing)"), files)
      else files ← write_file files relative b; Some (w, files)
  end.

Definition give (o : Output) (w : Writer) (files : Suite) : option (Writer * Suite) :=
  match o with Vector r b => put r b w files | Index r t => put_index r t w files end.

(** The run, up to the first [?] that fails. *)
Fixpoint give_all (outputs : list Output) (w : Writer) (files : Suite) : option (Writer * Suite) :=
  match outputs with
  | [] => Some (w, files)
  | o :: outputs => '(w, files) ← give o w files; give_all outputs w files
  end.

(** [main] ends well: nothing drifted. *)
Definition consistent (outputs : list Output) (check : bool) (files files' : Suite) : Prop :=
  ∃ w, give_all outputs {| check := check; drift := [] |} files = Some (w, files') ∧ w.(drift) = [].
End writing.

(** * The rows of the rejection index *)
Definition tab : byte := byte_of 9.

(** [text.lines().filter(|l| !l.starts_with('#') && !l.is_empty())] *)
Definition data_rows (txt : bytes) : list bytes :=
  List.filter (λ l, negb (is_comment l) && negb (bool_decide (l = []))) (lines txt).

(** [row.split('\t').next()] *)
Fixpoint row_name (row : bytes) : bytes :=
  match row with
  | [] => []
  | b :: row => if bool_decide (b = tab) then [] else b :: row_name row
  end.

(** The old rows first, then the new ones whose name has no row yet. *)
Fixpoint add_rows (rows new : list bytes) : list bytes :=
  match new with
  | [] => rows
  | row :: new =>
      if existsb (λ r, bool_decide (row_name r = row_name row)) rows then add_rows rows new
      else add_rows (rows ++ [row]) new
  end.

Definition index_head : bytes :=
  text "# name" ++ [tab] ++ text "reason" ++ [newline]
  ++ text "# Every file here MUST be refused: containers with recipient.test-secret, keys by their parser."
  ++ [newline].

Definition merged (old index : bytes) : bytes :=
  index_head ++ concat (map (λ row, row ++ [newline]) (add_rows (data_rows old) (data_rows index))).

(** * What the manifest expects of a vector *)
Definition strip_suffix (p s : bytes) : option bytes :=
  r ← strip_prefix (reverse p) (reverse s); Some (reverse r).

Definition ends_with (p s : bytes) : bool :=
  match strip_suffix p s with Some _ => true | None => false end.

Definition kind_of (relative : bytes) : bytes :=
  if starts_with (text "subsystems/") relative then text "subsystem"
  else if ends_with (text ".hide") relative then text "container"
  else if ends_with (text ".test-public") relative then text "public-key"
  else if ends_with (text ".sig") relative then text "detached-signature"
  else text "key".

(** The subsystem vectors that are broken, and how. *)
Definition broken_subsystems : list (bytes * bytes) :=
  [ (text "subsystems/identity-tampered.bin", text "entry 3 signature byte flipped; link check fails");
    (text "subsystems/identity-tampered-legacy.bin", text "entry 3 signature byte flipped; link check fails");
    (text "subsystems/epoch-broken.bin", text "epoch 1 key altered; chain hash breaks");
    (text "subsystems/other-leaf.bin", text "does not verify against the recorded proof");
    (text "subsystems/rewritten-root.bin", text "does not verify against the recorded proof");
    (text "subsystems/binding-recovery-forged.bin",
     text "recovery binding signed by the attacker, not the founder; refuse under the pinned root");
    (text "subsystems/binding-hijacked-log.bin",
     text "log with an attacker Recover appended; replays bare, refused under the recovery binding");
    (text "subsystems/binding-epoch-stranger.bin",
     text "epoch binding signed by a device the identity never enrolled");
    (text "subsystems/checkpoint-tampered.note",
     text "checkpoint size changed after signing; the log signature fails") ].

(** Kind, expectation and reason. *)
Definition classify (relative : bytes) (rows : list (bytes * bytes)) : bytes * bytes * bytes :=
  match strip_prefix (text "rejections/") relative with
  | Some name =>
      let stem := default name (strip_suffix (text ".hide") name) in
      (kind_of relative, text "reject",
       default [] (snd <$> List.find (λ r, bool_decide (r.1 = stem) || bool_decide (r.1 = name)) rows))
  | None =>
      match List.find (λ r, bool_decide (r.1 = relative)) broken_subsystems with
      | Some r => (kind_of relative, text "reject", r.2)
      | None => (kind_of relative, text "open", [])
      end
  end.

(** Every rejection of the generator is entered as a container to reject, for
    the reason its row gives. *)
Lemma rejections_classified `{Cbor} `{SignatureScheme} `{Crypto.Primitives} secret public signer legacy v :
  let vs := rejections secret public signer legacy in
  v ∈ vs →
  classify (text "rejections/" ++ v.(file) ++ text ".hide") (map (λ v, (v.(file), v.(reason))) vs)
    = (text "container", text "reject", v.(reason)).
Proof.
  cbv zeta. revert v. apply Forall_forall. unfold rejections, preamble_rejections, signature_rejections,
    legacy_rejections, stanza_rejections, header_rejections, metadata_rejections.
  cbn [app map file reason]. repeat (apply Forall_cons_2; [reflexivity|]). by apply Forall_nil_2.
Qed.

(** * What a run does to the suite *)
Lemma kept_spec a b :
  kept a b = true ↔ ∀ l, l ∈ lines a → is_comment l = false → l ∈ lines b.
Proof.
  unfold kept. rewrite forallb_forall. split.
  - intros H l Hl Hc. assert (In l (List.filter (λ l, negb (is_comment l)) (lines a))) as Hin.
    { apply filter_In. rewrite Hc. split; [by apply list_elem_of_In|done]. }
    apply H, existsb_exists in Hin as (n & Hn & E). apply bool_decide_eq_true in E as ->.
    by apply list_elem_of_In.
  - intros H l Hl. apply filter_In in Hl as [Hl Hc]. apply negb_true_iff in Hc.
    apply existsb_exists. exists l. split; [|by apply bool_decide_eq_true].
    apply list_elem_of_In. apply H; [|done]. by apply list_elem_of_In.
Qed.

Lemma kept_refl a : kept a a = true.
Proof. by apply kept_spec. Qed.

Lemma kept_trans a b c : kept a b = true → kept b c = true → kept a c = true.
Proof. rewrite !kept_spec. eauto. Qed.

Section runs.
Context (readable writable : bytes → bool).
Abbreviation give := (give readable writable).
Abbreviation give_all := (give_all readable writable).

Lemma give_all_app os os' w files :
  give_all (os ++ os') w files = ('(w, files) ← give_all os w files; give_all os' w files).
Proof.
  revert w files. induction os as [|o os IH]; intros w files; [done|]. cbn [app Frozen.give_all].
  destruct (give o w files) as [[w1 files1]|]; [|done]. cbn. apply IH.
Qed.

(** What one step did: nothing, a name to the drift, or one file. *)
Inductive step (o : Output) (w : Writer) (files : Suite) : Writer → Suite → Prop :=
| step_same b :
    read_file readable files (target o) = Some b →
    match o with Vector _ c => b = c | Index _ t => b = t end →
    step o w files w files
| step_drift name : step o w files (drifted w name) files
| step_vector r b :
    o = Vector r b → read_file readable files r = None → w.(check) = false → writable r = true →
    step o w files w (<[r := b]> files)
| step_index r t :
    o = Index r t → read_to_string readable files r = None → writable r = true →
    step o w files w (<[r := t]> files)
| step_grow r t existing :
    o = Index r t → read_to_string readable files r = Some existing → kept existing t = true →
    w.(check) = false → writable r = true →
    step o w files w (<[r := t]> files).

Lemma give_step o w files w' files' : give o w files = Some (w', files') → step o w files w' files'.
Proof.
  destruct o as [r b|r t]; cbn [Frozen.give]; unfold put, put_index, write_file.
  - destruct (read_file readable files r) as [e|] eqn:E.
    + case_bool_decide; intros [= <- <-]; [by eapply step_same|apply step_drift].
    + destruct (check w) eqn:Ec; [intros [= <- <-]; apply step_drift|].
      destruct (writable r) eqn:Ew; [|done]. intros [= <- <-]. by eapply step_vector.
  - destruct (read_to_string readable files r) as [e|] eqn:E.
    + case_bool_decide as He.
      * intros [= <- <-]. unfold read_to_string in E. apply bind_Some in E as (b & Eb & E).
        destruct (utf8_valid b); simplify_eq. by eapply step_same.
      * destruct (kept e t) eqn:Ek, (check w) eqn:Ec; cbn [negb orb]; try (intros [= <- <-]; apply step_drift).
        destruct (writable r) eqn:Ew; [|done]. intros [= <- <-]. by eapply step_grow.
    + destruct (writable r) eqn:Ew; [|done]. intros [= <- <-]. by eapply step_index.
Qed.

Lemma step_keeps_check o w files w' files' : step o w files w' files' → w'.(check) = w.(check).
Proof. by destruct 1. Qed.

(** A name in the drift stays there. *)
Lemma step_drift_grows o w files w' files' :
  step o w files w' files' → w'.(drift) = [] → w.(drift) = [].
Proof. destruct 1; try done. cbn. intros H. by apply app_eq_nil in H as [_ H]. Qed.

(** The files that may grow. *)
Definition indexes (os : list Output) : list bytes :=
  omap (λ o, match o with Index r _ => Some r | Vector _ _ => None end) os.

(** Index texts are strings, so they are UTF-8. *)
Definition output_typed (o : Output) : Prop :=
  match o with Index _ t => utf8_valid t = true | Vector _ _ => True end.

(** The bytes [b] of the file [p], later: the same, or an index with more rows. *)
Definition stays (ix : list bytes) (p b b' : bytes) : Prop :=
  (p ∉ ix → b' = b) ∧ (utf8_valid b = true → utf8_valid b' = true ∧ kept b b' = true).

Lemma step_stays o w files w' files' ix p b :
  step o w files w' files' → output_typed o →
  (∀ r t, o = Index r t → r ∈ ix) → read_file readable files p = Some b →
  ∃ b', read_file readable files' p = Some b' ∧ stays ix p b b'.
Proof.
  unfold stays. intros H T Hix Hb.
  assert (∀ r t, (r = p → r ∈ ix ∧ (utf8_valid b = true → utf8_valid t = true ∧ kept b t = true)) →
    ∃ b', read_file readable (<[r := t]> files) p = Some b' ∧ (p ∉ ix → b' = b) ∧
      (utf8_valid b = true → utf8_valid b' = true ∧ kept b b' = true)) as Hput.
  { intros r t Hr. unfold read_file in *. destruct (readable p); [|done].
    destruct (decide (r = p)) as [->|Hne].
    - exists t. rewrite lookup_insert_eq. destruct (Hr eq_refl). by split_and!.
    - exists b. rewrite lookup_insert_ne by done. split_and!; [done|done|intros; split; [done|apply kept_refl]]. }
  destruct H; try subst o; cbn in *.
  1,2: exists b; split_and!; [done|done|intros; split; [done|apply kept_refl]].
  - apply Hput. congruence.
  - apply Hput. intros ->. split; [by eapply Hix|]. intros Hu.
    unfold read_to_string in H0. rewrite Hb in H0. cbn in H0. by rewrite Hu in H0.
  - apply Hput. intros ->. split; [by eapply Hix|]. intros _. split; [done|].
    unfold read_to_string in H0. rewrite Hb in H0. cbn in H0. destruct (utf8_valid b); by simplify_eq.
Qed.

Lemma run_stays os w files w' files' p b :
  give_all os w files = Some (w', files') → Forall output_typed os →
  read_file readable files p = Some b →
  ∃ b', read_file readable files' p = Some b' ∧ stays (indexes os) p b b'.
Proof.
  intros H T. assert (∀ r t, Index r t ∈ os → r ∈ indexes os) as Hix.
  { intros r t Hin. apply list_elem_of_omap. by exists (Index r t). }
  revert Hix. generalize (indexes os) as ix. intros ix Hix.
  revert w files b H Hix. induction T as [|o os To T IH]; intros w files b H Hix Hb; cbn [Frozen.give_all] in H.
  - simplify_eq. exists b. split; [done|]. split; [done|]. intros Hu. by rewrite Hu, kept_refl.
  - destruct (give o w files) as [[w1 files1]|] eqn:E; [|done]. apply give_step in E. cbn in H.
    destruct (step_stays _ _ _ _ _ ix p b E To) as (b1 & Hb1 & S1 & K1); [|done|].
    { intros r t ->. eapply Hix, list_elem_of_here. }
    destruct (IH _ _ b1 H) as (b2 & Hb2 & S2 & K2); [|done|].
    { intros r t Hin. eapply Hix, list_elem_of_further, Hin. }
    exists b2. split; [done|]. split.
    + intros Hp. by rewrite S2, S1.
    + intros Hu. destruct (K1 Hu) as [U1 Q1], (K2 U1) as [U2 Q2]. split; [done|by eapply kept_trans].
Qed.

Lemma run_drift_grows os w files w' files' :
  give_all os w files = Some (w', files') → w'.(drift) = [] → w.(drift) = [].
Proof.
  revert w files. induction os as [|o os IH]; intros w files H Hd; cbn [Frozen.give_all] in H; [by simplify_eq|].
  destruct (give o w files) as [[w1 files1]|] eqn:E; [|done]. apply give_step in E.
  eapply step_drift_grows; [exact E|]. by eapply IH.
Qed.

Lemma run_vectors os w files w' files' r b :
  give_all os w files = Some (w', files') → Forall output_typed os → w'.(drift) = [] →
  Vector r b ∈ os → r ∉ indexes os → readable r = true → files' !! r = Some b.
Proof.
  intros H T Hd Hin Hr Hread. apply list_elem_of_split in Hin as (l1 & l2 & ->).
  rewrite give_all_app in H. destruct (give_all l1 w files) as [[w1 files1]|]; [|done]. cbn in H.
  apply Forall_app in T as [_ T]. apply Forall_cons in T as [_ T].
  destruct (put readable writable r b w1 files1) as [[w2 files2]|] eqn:E; [|done]. cbn in H.
  pose proof (run_drift_grows _ _ _ _ _ H Hd) as D2.
  assert (read_file readable files2 r = Some b) as Hb.
  { apply (give_step (Vector r b)) in E. destruct E; try simplify_eq; cbn in *; try done; try congruence.
    - by apply app_eq_nil in D2 as [_ D2].
    - unfold read_file. by rewrite Hread, lookup_insert_eq. }
  destruct (run_stays _ _ _ _ _ _ _ H T Hb) as (b' & Hb' & S & _).
  unfold indexes in Hr. rewrite omap_app in Hr. cbn [omap list_omap] in Hr.
  rewrite S in Hb'; [|intros Hi; apply Hr; apply elem_of_app; by right].
  unfold read_file in Hb'. by rewrite Hread in Hb'.
Qed.

Lemma run_elsewhere os w files w' files' p :
  give_all os w files = Some (w', files') → p ∉ map target os → files' !! p = files !! p.
Proof.
  revert w files. induction os as [|o os IH]; intros w files H Hp; cbn [Frozen.give_all] in H; [by simplify_eq|].
  destruct (give o w files) as [[w1 files1]|] eqn:E; [|done]. apply give_step in E. cbn in H, Hp.
  apply not_elem_of_cons in Hp as [Hne Hp]. rewrite (IH _ _ H Hp).
  destruct E; try subst o; cbn in *; rewrite ?lookup_insert_ne by done; done.
Qed.

Lemma run_checking os w files w' files' p :
  give_all os w files = Some (w', files') → w.(check) = true →
  p ∉ indexes os ∨ is_Some (read_to_string readable files p) → files' !! p = files !! p.
Proof.
  revert w files. induction os as [|o os IH]; intros w files H Hc Hp; cbn [Frozen.give_all] in H; [by simplify_eq|].
  destruct (give o w files) as [[w1 files1]|] eqn:E; [|done]. apply give_step in E. cbn in H.
  pose proof (step_keeps_check _ _ _ _ _ E) as Hc1. rewrite Hc in Hc1.
  assert (files1 !! p = files !! p) as Hs.
  { destruct E; try subst o; try congruence. cbn in Hp.
    apply lookup_insert_ne. intros ->. destruct Hp as [Hp|[x Hp]]; [|congruence].
    apply Hp. apply list_elem_of_here. }
  rewrite <- Hs. eapply IH; [exact H|exact Hc1|].
  destruct Hp as [Hp|Hp]; [left|right].
  - intros Hin. apply Hp. unfold indexes in *. cbn. destruct o; [done|by apply list_elem_of_further].
  - unfold read_to_string, read_file in *. by rewrite Hs.
Qed.
End runs.

(** C29. A run changes no vector. Whatever the generator gives its writer, and
    whatever was in the suite: a file that can be read keeps its bytes, or is an
    index and, if it was text, keeps every row; nothing else is written but what
    was given; a run that ends with no drift leaves every readable vector it gave
    with exactly the bytes it gave; and under [--check] nothing changes, but for
    an index that is missing or is no text. *)
Theorem frozen_vectors_stay readable writable outputs ck files w files' :
  Forall output_typed outputs →
  give_all readable writable outputs {| check := ck; drift := [] |} files = Some (w, files') →
  (∀ p b, readable p = true → files !! p = Some b →
     ∃ b', files' !! p = Some b' ∧ (p ∉ indexes outputs → b' = b) ∧
       (utf8_valid b = true → utf8_valid b' = true ∧ kept b b' = true)) ∧
  (∀ p, p ∉ map target outputs → files' !! p = files !! p) ∧
  (consistent readable writable outputs ck files files' →
     ∀ r b, Vector r b ∈ outputs → r ∉ indexes outputs → readable r = true → files' !! r = Some b) ∧
  (ck = true → ∀ p, p ∉ indexes outputs ∨ is_Some (read_to_string readable files p) →
     files' !! p = files !! p).
Proof.
  intros T H. split_and!.
  - intros p b Hp Hb. destruct (run_stays _ _ _ _ _ _ _ p b H T) as (b' & Hb' & S).
    + unfold read_file. by rewrite Hp.
    + exists b'. unfold read_file in Hb'. rewrite Hp in Hb'. by split.
  - intros p. by eapply run_elsewhere.
  - intros (w' & H' & Hd) r b. rewrite H in H'. simplify_eq. by eapply run_vectors.
  - intros -> p. by eapply run_checking.
Qed.

(** A check of a suite without its index writes it. *)
Lemma check_writes_index :
  give_all (λ _, true) (λ _, true) [Index (text "manifest.json") (text "{}")]
      {| check := true; drift := [] |} ∅
    = Some ({| check := true; drift := [] |}, {[ text "manifest.json" := text "{}" ]}).
Proof. reflexivity. Qed.

(** * What merging does to the rows *)
Definition plain_line (l : bytes) : Prop := no_newline l ∧ carriage ∉ l.

Lemma plain_clean l : plain_line l → clean_line l.
Proof. intros [Hn Hc]. split; [done|]. intros H%last_Some_elem_of. done. Qed.

Lemma lines_from_plain p s : plain_line p → carriage ∉ s → Forall plain_line (lines_from p s).
Proof.
  revert p. induction s as [|b s IH]; intros p Hp Hs; cbn [lines_from].
  - case_bool_decide; [constructor|]. by apply Forall_singleton.
  - apply not_elem_of_cons in Hs as [Hb Hs]. case_bool_decide as En.
    + rewrite strip_cr_clean by apply (plain_clean _ Hp). apply Forall_cons. split; [done|].
      apply IH; [|done]. split; apply not_elem_of_nil.
    + apply IH; [|done]. destruct Hp as [Hn Hc]. unfold plain_line, no_newline in *.
      rewrite !elem_of_app, !list_elem_of_singleton. naive_solver.
Qed.

Lemma lines_plain s : carriage ∉ s → Forall plain_line (lines s).
Proof. apply lines_from_plain. split; apply not_elem_of_nil. Qed.

(** A row: a plain line, neither empty nor a comment. *)
Definition is_row (l : bytes) : Prop := plain_line l ∧ is_comment l = false ∧ l ≠ [].

Lemma elem_of_data_rows l s : l ∈ data_rows s ↔ l ∈ lines s ∧ is_comment l = false ∧ l ≠ [].
Proof.
  unfold data_rows. rewrite list_elem_of_In, filter_In, <- list_elem_of_In.
  rewrite andb_true_iff, !negb_true_iff, bool_decide_eq_false. done.
Qed.

Lemma data_rows_are_rows s : carriage ∉ s → Forall is_row (data_rows s).
Proof.
  intros H. apply Forall_forall. intros l [Hl Hr]%elem_of_data_rows. split; [|done].
  eapply Forall_forall; [by apply lines_plain|done].
Qed.

Lemma add_rows_rows rows new : Forall is_row rows → Forall is_row new → Forall is_row (add_rows rows new).
Proof.
  intros Hr Hn. revert rows Hr. induction Hn as [|l new Hl _ IH]; intros rows Hr; [done|]. cbn [add_rows].
  destruct (existsb _ rows); [by apply IH|]. apply IH, Forall_app. split; [done|by apply Forall_singleton].
Qed.

Lemma add_rows_old rows new : ∃ added, add_rows rows new = rows ++ added.
Proof.
  revert rows. induction new as [|l new IH]; intros rows; cbn [add_rows]; [exists []; by rewrite app_nil_r|].
  destruct (existsb _ rows); [apply IH|]. destruct (IH (rows ++ [l])) as [a ->]. exists (l :: a).
  by rewrite <- app_assoc.
Qed.

Definition named (rows : list bytes) (n : bytes) : Prop := n ∈ map row_name rows.

Lemma named_spec rows l :
  existsb (λ r, bool_decide (row_name r = row_name l)) rows = true ↔ named rows (row_name l).
Proof.
  unfold named. rewrite existsb_exists, list_elem_of_fmap.
  split; intros (r & A & B); exists r; rewrite ?bool_decide_eq_true, <- ?list_elem_of_In in *; naive_solver.
Qed.

Lemma add_rows_names rows new :
  (∀ l, l ∈ new → named (add_rows rows new) (row_name l)) ∧
  (NoDup (map row_name rows) → NoDup (map row_name (add_rows rows new))).
Proof.
  revert rows. induction new as [|l new IH]; intros rows; cbn [add_rows].
  - split; [intros l H; by apply elem_of_nil in H|done].
  - destruct (existsb _ rows) eqn:E.
    + destruct (IH rows) as [Hn Hd]. split; [|done]. intros l' [->|Hl]%elem_of_cons; [|by apply Hn].
      apply named_spec in E. destruct (add_rows_old rows new) as [a ->]. unfold named in *.
      rewrite map_app. apply elem_of_app. by left.
    + destruct (IH (rows ++ [l])) as [Hn Hd]. split.
      * intros l' [->|Hl]%elem_of_cons; [|by apply Hn].
        destruct (add_rows_old (rows ++ [l]) new) as [a ->]. unfold named. rewrite !map_app, !elem_of_app.
        left. right. by apply list_elem_of_singleton.
      * intros H. apply Hd. rewrite map_app. apply NoDup_app. split; [done|]. split; [|apply NoDup_singleton].
        intros n Hn1 ->%list_elem_of_singleton. apply named_spec in Hn1. congruence.
Qed.

Lemma add_rows_named rows new : (∀ l, l ∈ new → named rows (row_name l)) → add_rows rows new = rows.
Proof.
  intros H. revert H. induction new as [|l new IH]; intros H; [done|]. cbn [add_rows].
  rewrite (proj2 (named_spec _ _)); [|apply H, list_elem_of_here]. apply IH. intros l' Hl.
  by apply H, list_elem_of_further.
Qed.

Lemma filter_rows rows :
  Forall is_row rows → List.filter (λ l, negb (is_comment l) && negb (bool_decide (l = []))) rows = rows.
Proof.
  induction 1 as [|l rows (_ & Hc & Hl) _ IH]; [done|]. cbn [List.filter].
  by rewrite Hc, bool_decide_eq_false_2, IH.
Qed.

Lemma data_rows_merged old index :
  carriage ∉ old → carriage ∉ index →
  data_rows (merged old index) = add_rows (data_rows old) (data_rows index).
Proof.
  intros Ho Hi. assert (Forall is_row (add_rows (data_rows old) (data_rows index))) as Hrows
    by by apply add_rows_rows; apply data_rows_are_rows.
  unfold merged. change (concat (map ?f ?l)) with (joined [newline] l).
  unfold data_rows at 1. rewrite lines_app by (right; reflexivity).
  rewrite <- (app_nil_r (joined _ _)), lines_joined; [|by left|].
  - change (lines []) with (@nil bytes). rewrite app_nil_r, List.filter_app, (filter_rows _ Hrows). reflexivity.
  - eapply Forall_impl; [exact Hrows|]. intros l [H _]. by apply plain_clean.
Qed.

Lemma merged_plain old index : carriage ∉ old → carriage ∉ index → carriage ∉ merged old index.
Proof.
  intros Ho Hi. assert (Forall is_row (add_rows (data_rows old) (data_rows index))) as Hrows
    by by apply add_rows_rows; apply data_rows_are_rows.
  unfold merged. rewrite elem_of_app. intros [H|H].
  - revert H. apply (bool_decide_unpack (carriage ∉ index_head)). by vm_compute.
  - rewrite list_elem_of_In, in_concat in H. destruct H as (r & Hr & H).
    apply in_map_iff in Hr as (l & <- & Hl). apply list_elem_of_In in Hl, H.
    rewrite Forall_forall in Hrows. destruct (Hrows _ Hl) as [[_ Hc] _].
    apply elem_of_app in H as [H|H%list_elem_of_singleton]; done.
Qed.

(** The rejection index never loses a row. For indexes without carriage
    returns, the merged text has exactly the old rows, in their order, and then
    the new ones of a name that had none: every rejection the run wrote is named,
    names stay distinct, [put_index] finds every old row in it, and merging the
    same rows again changes nothing, so a second run is consistent. *)
Theorem merged_index_keeps_rows old index :
  carriage ∉ old → carriage ∉ index →
  (∃ added, data_rows (merged old index) = data_rows old ++ added) ∧
  (∀ l, l ∈ data_rows index → named (data_rows (merged old index)) (row_name l)) ∧
  (NoDup (map row_name (data_rows old)) → NoDup (map row_name (data_rows (merged old index)))) ∧
  ([] ∉ lines old → kept old (merged old index) = true) ∧
  merged (merged old index) index = merged old index.
Proof.
  intros Ho Hi. rewrite (data_rows_merged old index) by done.
  destruct (add_rows_names (data_rows old) (data_rows index)) as [Hn Hd]. split_and!.
  - apply add_rows_old.
  - exact Hn.
  - exact Hd.
  - intros Hb. apply kept_spec. intros l Hl Hc.
    assert (l ∈ data_rows (merged old index)) as Hin.
    { rewrite data_rows_merged by done. destruct (add_rows_old (data_rows old) (data_rows index)) as [a ->].
      apply elem_of_app. left. apply elem_of_data_rows. split_and!; [done|done|congruence]. }
    by apply elem_of_data_rows in Hin as [Hin _].
  - unfold merged at 1. rewrite data_rows_merged by done. by rewrite (add_rows_named (add_rows _ _)).
Qed.

Section witnesses.
Definition sample_suite : Suite :=
  {[ text "hello.hide" := text "frozen"; text "manifest.json" := text "[1]" ++ [newline] ]}.
Definition sample_outputs : list Output :=
  [ Vector (text "hello.hide") (text "frozen"); Vector (text "new.hide") (text "made");
    Index (text "manifest.json") (text "[1]" ++ [newline] ++ text "[2]") ].

Definition no_drift (o : option (Writer * Suite)) : bool :=
  match o with Some (w, _) => bool_decide (w.(drift) = []) | None => false end.

Lemma no_drift_spec o : no_drift o = true → ∃ w files, o = Some (w, files) ∧ w.(drift) = [].
Proof. destruct o as [[w files]|]; [|done]. intros H%bool_decide_eq_true. by exists w, files. Qed.

Lemma sample_run :
  no_drift (give_all (λ _, true) (λ _, true) sample_outputs {| check := false; drift := [] |} sample_suite) = true.
Proof. vm_compute. reflexivity. Qed.

Lemma sample_not_index p : existsb (λ q, bool_decide (q = p)) (indexes sample_outputs) = false → p ∉ indexes sample_outputs.
Proof.
  intros H Hp. apply not_true_iff_false in H. apply H, existsb_exists. exists p.
  rewrite bool_decide_eq_true, <- list_elem_of_In. done.
Qed.

Lemma frozen_vectors_stay_witness :
  ∃ w files', give_all (λ _, true) (λ _, true) sample_outputs {| check := false; drift := [] |} sample_suite
      = Some (w, files') ∧
    files' !! text "new.hide" = Some (text "made") ∧
    files' !! text "hello.hide" = Some (text "frozen").
Proof.
  destruct (no_drift_spec _ sample_run) as (w & files' & E & Hd). exists w, files'. split; [exact E|].
  destruct (frozen_vectors_stay (λ _, true) (λ _, true) sample_outputs false sample_suite w files')
    as (_ & _ & Hv & _).
  - repeat constructor.
  - exact E.
  - split; apply (Hv (ex_intro _ w (conj E Hd))); try reflexivity.
    + apply list_elem_of_further, list_elem_of_here.
    + apply sample_not_index. vm_compute. reflexivity.
    + apply list_elem_of_here.
    + apply sample_not_index. vm_compute. reflexivity.
Defined.

Lemma merged_index_keeps_rows_witness :
  carriage ∉ text "a" ∧
  merged (merged (text "a") (text "b")) (text "b") = merged (text "a") (text "b").
Proof.
  assert (carriage ∉ text "a") as Ha by (apply (bool_decide_unpack (_ ∉ _)); vm_compute; exact I).
  assert (carriage ∉ text "b") as Hb by (apply (bool_decide_unpack (_ ∉ _)); vm_compute; exact I).
  split; [exact Ha|]. apply (merged_index_keeps_rows (text "a") (text "b") Ha Hb).
Defined.
End witnesses.
