(* ===== verification/EpochStore.v ===== *)
(** [hide-keyring/src/epoch_store.rs]: one passphrase-sealed file of every
    live epoch secret. The [BTreeMap] of the store is an association list
    ascending by number; section [map] has its operations. What [getrandom]
    gives is an argument: the salt, and the [i]th nonce drawn. *)
From stdpp Require Import gmap fin_maps sorting.
From S2P Require Import Prelude Cbor Crypto Keyring.
Local Open Scope N_scope.

Definition MAGIC : bytes := text "HIDE-EPK".
Definition VERSION : N := 1.
Definition HEAD_LEN : N := 32.
Definition SEALED_LEN : N := SEED_LEN + TAG_LEN.
Definition PARAMS_AT : N := lenN MAGIC + 1.
Definition SALT_AT : N := PARAMS_AT + PARAMS_LEN.
Definition HEAD_AT : N := SALT_AT + SALT_LEN.
Definition BODY_LEN_AT : N := HEAD_AT + HEAD_LEN.
Definition HEADER_LEN : N := BODY_LEN_AT + 4.
Definition TRAILER_LEN : N := NONCE_LEN + TAG_LEN.
Definition MAX_ENTRIES : N := 65536.
Definition MAX_ENTRY_BYTES : N := 1 + 9 + (1 + NONCE_LEN) + (2 + SEALED_LEN).
Definition MAX_BODY_LEN : N := 5 + MAX_ENTRIES * MAX_ENTRY_BYTES.
Definition MAX_FILE_LEN : N := HEADER_LEN + MAX_BODY_LEN + TRAILER_LEN.

(** ** [BTreeMap<u64, _>] *)
Section map.
Context {V : Type}.

Fixpoint map_insert (n : N) (v : V) (l : list (N * V)) : list (N * V) :=
  match l with
  | [] => [(n, v)]
  | (k, w) :: l' =>
      if n <? k then (n, v) :: l
      else if n =? k then (n, v) :: l'
      else (k, w) :: map_insert n v l'
  end.

Fixpoint map_get (n : N) (l : list (N * V)) : option V :=
  match l with
  | [] => None
  | (k, v) :: l => if n =? k then Some v else map_get n l
  end.

Fixpoint map_remove (n : N) (l : list (N * V)) : list (N * V) :=
  match l with
  | [] => []
  | (k, v) :: l => if n =? k then l else (k, v) :: map_remove n l
  end.
End map.

(** * The store in memory *)
Record EpochStore := { chain_head : bytes; entries : list (N * RecipientSecret) }.

Definition new (head : bytes) : EpochStore := {| chain_head := head; entries := [] |}.

Definition get (s : EpochStore) (n : N) : option RecipientSecret := map_get n s.(entries).

Definition insert (s : EpochStore) (n : N) (secret : RecipientSecret)
  : result KeyringError EpochStore :=
  refuse_if (match get s n with Some _ => false | None => MAX_ENTRIES <=? lenN s.(entries) end)
    (TooManyEntries MAX_ENTRIES);;
  copy ← crypto (secret_from_bytes (expose_seed_for_sealing secret));
  Ok {| chain_head := s.(chain_head); entries := map_insert n copy s.(entries) |}.

Definition remove (s : EpochStore) (n : N) : EpochStore * bool :=
  ({| chain_head := s.(chain_head); entries := map_remove n s.(entries) |},
   match get s n with Some _ => true | None => false end).

Definition numbers (s : EpochStore) : list N := map fst s.(entries).

Definition into_secrets (s : EpochStore) : list (N * RecipientSecret) := s.(entries).

Definition len (s : EpochStore) : N := lenN s.(entries).

Definition is_empty (s : EpochStore) : bool := len s =? 0.

Definition set_chain_head (s : EpochStore) (head : bytes) : EpochStore :=
  {| chain_head := head; entries := s.(entries) |}.

(** * The file *)
Record RawEntry := { number : N; entry_nonce : bytes; sealed : bytes }.

Record Layout := {
  params : Argon2Params;
  salt : bytes;
  layout_head : bytes;
  header : bytes;
  body_len : N;
  raw_entries : list RawEntry;
  trailer_nonce : bytes;
  trailer_tag : bytes;
}.

Definition encode_header (p : Argon2Params) (salt chain_head body_len : bytes) : bytes :=
  MAGIC ++ [byte_of VERSION] ++ encode_params p ++ salt ++ chain_head ++ body_len.

Definition entry_aad (header : bytes) (n : N) : bytes := header ++ u64be n.

Section codec.
Context {C : Cbor}.

Definition encode_entry (e : RawEntry) : bytes :=
  enc_array 3 ++ enc_u64 e.(number) ++ enc_bytes e.(entry_nonce) ++ enc_bytes e.(sealed).

Definition encode_body (es : list RawEntry) : bytes :=
  enc_array (lenN es) ++ concat (map encode_entry es).

(** One turn of the loop of [decode_body]: the number before, the input left. *)
Definition decode_entry (s : option N * bytes)
  : result KeyringError (RawEntry * (option N * bytes)) :=
  let '(previous, d) := s in
  '(fields, d) ← ok_or (dec_array d) Malformed;
  refuse_if (negb (bool_decide (fields = Some 3))) Malformed;;
  '(number, d) ← ok_or (dec_u64 d) Malformed;
  refuse_if (match previous with Some last => number <=? last | None => false end) Malformed;;
  '(nonce, d) ← ok_or (dec_bytes d) Malformed;
  refuse_if (negb (lenN nonce =? NONCE_LEN)) Malformed;;
  '(sealed, d) ← ok_or (dec_bytes d) Malformed;
  refuse_if (negb (lenN sealed =? SEALED_LEN)) Malformed;;
  Ok ({| number := number; entry_nonce := nonce; sealed := sealed |}, (Some number, d)).

Definition decode_body (body : bytes) : result KeyringError (list RawEntry) :=
  '(declared, d) ← ok_or (dec_array body) Malformed;
  count ← ok_or declared Malformed;
  refuse_if (MAX_ENTRIES <? count) (TooManyEntries MAX_ENTRIES);;
  '(es, s) ← repeat_read decode_entry (N.to_nat count) (None, d);
  refuse_if (negb (position body (snd s) =? lenN body)) Malformed;;
  refuse_if (negb (bool_decide (encode_body es = body))) Malformed;;
  Ok es.

Definition parse (b : bytes) : result KeyringError Layout :=
  refuse_if (negb (starts_with MAGIC b)) NotAnEpochStore;;
  refuse_if (MAX_FILE_LEN <? lenN b) Malformed;;
  version ← ok_or (b !! length MAGIC) Malformed;
  refuse_if (negb (Byte.to_N version =? VERSION)) (UnsupportedVersion (Byte.to_N version));;
  refuse_if (lenN b <? HEADER_LEN + TRAILER_LEN) Malformed;;
  params ← parse_params (slice PARAMS_AT SALT_AT b);
  let body_len := unbe (slice BODY_LEN_AT HEADER_LEN b) in
  refuse_if (MAX_BODY_LEN <? body_len) Malformed;;
  refuse_if (negb (lenN b =? HEADER_LEN + body_len + TRAILER_LEN)) Malformed;;
  let body_end := HEADER_LEN + body_len in
  es ← decode_body (slice HEADER_LEN body_end b);
  Ok {| params := params; salt := slice SALT_AT HEAD_AT b;
        layout_head := slice HEAD_AT BODY_LEN_AT b; header := slice 0 HEADER_LEN b;
        body_len := body_len; raw_entries := es;
        trailer_nonce := slice body_end (body_end + NONCE_LEN) b;
        trailer_tag := drop (N.to_nat (body_end + NONCE_LEN)) b |}.

Definition reencode_unauthenticated (b : bytes) : result KeyringError bytes :=
  layout ← parse b;
  let body := encode_body layout.(raw_entries) in
  refuse_if (u32_max <? lenN body) Malformed;;
  Ok (encode_header layout.(params) layout.(salt) layout.(layout_head) (u32be (lenN body))
        ++ body ++ layout.(trailer_nonce) ++ layout.(trailer_tag)).

(** ** Sealing and opening *)
Context {P : Primitives} {A : Argon2} {U : Unicode}.

Definition seal_seed (key : DerivedKey) (header : bytes) (e : N * RecipientSecret) (nonce : bytes)
  : result KeyringError bytes :=
  let seed := expose_seed_for_sealing e.2 in
  refuse_if (negb (lenN seed =? SEED_LEN)) Malformed;;
  '(c, t) ← ok_or (aead_encrypt key.(derived_key) nonce (entry_aad header e.1) seed)
              (CryptoFailed (Sealing (text "sealing an epoch secret failed")));
  Ok (c ++ t).

(** [keys().zip(&nonces).zip(&sealed)] *)
Fixpoint zip_entries (keys : list N) (nonces sealed : list bytes) : list RawEntry :=
  match keys, nonces, sealed with
  | k :: keys, iv :: nonces, s :: sealed =>
      {| number := k; entry_nonce := iv; sealed := s |} :: zip_entries keys nonces sealed
  | _, _, _ => []
  end.

Definition draw (nonces : nat → option bytes) (i : nat) : result KeyringError bytes :=
  ok_or (nonces i) (CryptoFailed NoRandomness).

Definition seal_with (s : EpochStore) (passphrase salt : bytes) (nonces : nat → option bytes)
  : result KeyringError bytes :=
  let passphrase := normalize_passphrase passphrase in
  refuse_if (lenN (Utf8.chars passphrase) <? MIN_PASSPHRASE_LEN) (PassphraseTooShort MIN_PASSPHRASE_LEN);;
  refuse_if (MAX_ENTRIES <? len s) (TooManyEntries MAX_ENTRIES);;
  ivs ← collect (draw nonces) (seq 0 (length s.(entries)));
  let placeholder := replicate (N.to_nat SEALED_LEN) Byte.x00 in
  let sized := encode_body (zip_entries (numbers s) ivs (map (λ _, placeholder) ivs)) in
  refuse_if (u32_max <? lenN sized) Malformed;;
  let header := encode_header WRITER salt s.(chain_head) (u32be (lenN sized)) in
  kek ← derive WRITER passphrase salt;
  sealed ← collect (λ p, seal_seed kek header p.1 p.2) (combine s.(entries) ivs);
  let out := header ++ encode_body (zip_entries (numbers s) ivs sealed) in
  trailer_nonce ← draw nonces (length s.(entries));
  '(_, tag) ← ok_or (aead_encrypt kek.(derived_key) trailer_nonce out [])
                (CryptoFailed (Sealing (text "sealing the epoch store failed")));
  Ok (out ++ trailer_nonce ++ tag).

Definition seal (s : EpochStore) (passphrase : bytes) (random_salt : option bytes)
    (nonces : nat → option bytes) : result KeyringError bytes :=
  salt ← ok_or random_salt (CryptoFailed NoRandomness);
  seal_with s passphrase salt nonces.

(** The spelling of the passphrase whose key authenticates the trailer. *)
Fixpoint choose (layout : Layout) (authenticated : bytes) (candidates : list bytes)
  : result KeyringError DerivedKey :=
  match candidates with
  | [] => Err WrongPassphrase
  | c :: candidates =>
      kek ← derive layout.(params) c layout.(salt);
      match aead_decrypt kek.(derived_key) layout.(trailer_nonce) authenticated []
              layout.(trailer_tag) with
      | Some _ => Ok kek
      | None => choose layout authenticated candidates
      end
  end.

Fixpoint open_entries (key : DerivedKey) (header : bytes) (es : list RawEntry)
    (opened : list (N * RecipientSecret)) : result KeyringError (list (N * RecipientSecret)) :=
  match es with
  | [] => Ok opened
  | e :: es =>
      seed ← ok_or (aead_decrypt key.(derived_key) e.(entry_nonce) (entry_aad header e.(number))
                      (take 32 e.(sealed)) (drop 32 e.(sealed))) WrongPassphrase;
      secret ← crypto (secret_from_bytes seed);
      open_entries key header es (map_insert e.(number) secret opened)
  end.

Definition open (b passphrase : bytes) : result KeyringError EpochStore :=
  layout ← parse b;
  let authenticated := take (N.to_nat (HEADER_LEN + layout.(body_len))) b in
  kek ← choose layout authenticated (passphrase_candidates passphrase);
  es ← open_entries kek layout.(header) layout.(raw_entries) [];
  Ok {| chain_head := layout.(layout_head); entries := es |}.
End codec.

(** * Ascending association lists are finite maps *)
Section map_laws.
Context {V : Type}.
Implicit Types l : list (N * V).

Definition ascending l : Prop := StronglySorted N.lt l.*1.

Lemma ascending_nil : ascending [].
Proof. constructor. Qed.

Lemma ascending_cons k v l : ascending ((k, v) :: l) ↔ (∀ n, n ∈ l.*1 → k < n) ∧ ascending l.
Proof.
  unfold ascending. cbn. split.
  - intros H. apply StronglySorted_inv in H as [H F]. split; [|done]. by rewrite Forall_forall in F.
  - intros [F H]. constructor; [done|]. by rewrite Forall_forall.
Qed.

Lemma ascending_NoDup l : ascending l → NoDup l.*1.
Proof.
  induction l as [|[k v] l IH]; [constructor|]. rewrite ascending_cons. intros [F H]. cbn.
  constructor; [|by apply IH]. intros Hin. specialize (F k Hin). lia.
Qed.

Lemma map_get_lookup n l : map_get n l = (list_to_map l : gmap N V) !! n.
Proof.
  induction l as [|[k v] l IH]; [done|]. cbn [map_get]. rewrite list_to_map_cons.
  destruct (N.eqb_spec n k) as [->|]; [by rewrite lookup_insert_eq|].
  by rewrite lookup_insert_ne by congruence.
Qed.

Lemma map_get_None n l : map_get n l = None ↔ n ∉ l.*1.
Proof. rewrite map_get_lookup. symmetry. apply not_elem_of_list_to_map. Qed.

Lemma map_get_elem n v l : ascending l → map_get n l = Some v ↔ (n, v) ∈ l.
Proof. intros Ha. rewrite map_get_lookup. symmetry. by apply elem_of_list_to_map, ascending_NoDup. Qed.

Lemma elem_of_map_insert n v l k : k ∈ (map_insert n v l).*1 ↔ k = n ∨ k ∈ l.*1.
Proof.
  induction l as [|[a w] l IH]; cbn [map_insert]; [cbn; set_solver|].
  destruct (N.ltb_spec n a); [cbn; set_solver|].
  destruct (N.eqb_spec n a) as [->|]; cbn; set_solver.
Qed.

Lemma ascending_insert n v l : ascending l → ascending (map_insert n v l).
Proof.
  induction l as [|[a w] l IH]; cbn [map_insert]; [intros _; by apply ascending_cons; split; [inversion 1|constructor]|].
  rewrite ascending_cons. intros [F H].
  destruct (N.ltb_spec n a); [|destruct (N.eqb_spec n a) as [->|]].
  - rewrite !ascending_cons. split; [|done]. intros k. cbn. rewrite elem_of_cons.
    intros [->|Hk]; [done|]. specialize (F k Hk). lia.
  - by rewrite ascending_cons.
  - rewrite ascending_cons. split; [|by apply IH]. intros k. rewrite elem_of_map_insert.
    intros [->|Hk]; [lia|by apply F].
Qed.

Lemma map_insert_to_map n v l :
  (list_to_map (map_insert n v l) : gmap N V) = <[n := v]> (list_to_map l).
Proof.
  induction l as [|[a w] l IH]; cbn [map_insert]; [done|].
  destruct (N.ltb_spec n a); [done|].
  destruct (N.eqb_spec n a) as [->|]; rewrite !list_to_map_cons.
  - by rewrite insert_insert_eq.
  - rewrite insert_insert_ne by congruence. f_equal. exact IH.
Qed.

Lemma elem_of_map_remove n l k : k ∈ (map_remove n l).*1 → k ∈ l.*1.
Proof.
  induction l as [|[a w] l IH]; cbn [map_remove]; [done|]. destruct (N.eqb_spec n a); cbn; set_solver.
Qed.

Lemma ascending_remove n l : ascending l → ascending (map_remove n l).
Proof.
  induction l as [|[a w] l IH]; cbn [map_remove]; [done|]. rewrite ascending_cons. intros [F H].
  destruct (N.eqb_spec n a); [done|]. rewrite ascending_cons. split; [|by apply IH].
  intros k Hk. by apply F, (elem_of_map_remove n).
Qed.

Lemma map_remove_to_map n l :
  ascending l → (list_to_map (map_remove n l) : gmap N V) = delete n (list_to_map l).
Proof.
  induction l as [|[a w] l IH]; cbn [map_remove]; [symmetry; apply delete_empty|].
  rewrite ascending_cons. intros [F H].
  destruct (N.eqb_spec n a) as [->|]; rewrite !list_to_map_cons.
  - rewrite delete_insert_id; [done|]. apply not_elem_of_list_to_map. intros Hin.
    specialize (F a Hin). lia.
  - rewrite delete_insert_ne by congruence. f_equal. by apply IH.
Qed.

Lemma ascending_pairs l : ascending l → StronglySorted (λ p q : N * V, p.1 < q.1) l.
Proof.
  induction l as [|[a v] l IH]; [constructor|]. rewrite ascending_cons. intros [F H].
  constructor; [by apply IH|]. apply Forall_forall. intros [n x] Hn. cbn. apply F.
  by apply (list_elem_of_fmap_2 fst) in Hn.
Qed.

(** Two ascending lists of one map are one list. *)
Lemma ascending_unique l k :
  ascending l → ascending k → (list_to_map l : gmap N V) = list_to_map k → l = k.
Proof.
  intros Hl Hk E.
  assert (AntiSymm (=) (λ p q : N * V, p.1 < q.1)) by (intros [a v] [b w]; cbn; lia).
  apply (StronglySorted_unique (λ p q : N * V, p.1 < q.1)).
  - by apply ascending_pairs.
  - by apply ascending_pairs.
  - by apply (list_to_map_inj (M := gmap N)); [apply ascending_NoDup..|].
Qed.

Lemma ascending_size l : ascending l → size (list_to_map l : gmap N V) = length l.
Proof. intros H. by apply map_size_list_to_map, ascending_NoDup. Qed.
End map_laws.

(** * The codec *)
Record raw_ok (e : RawEntry) : Prop := {
  raw_number : e.(number) < u64_bound;
  raw_nonce : lenN e.(entry_nonce) = NONCE_LEN;
  raw_sealed : lenN e.(sealed) = SEALED_LEN;
}.

(** Numbers strictly ascending, above the one before. *)
Definition above (previous : option N) (n : N) : Prop :=
  match previous with Some last => last < n | None => True end.

Definition ascending_from (previous : option N) (es : list RawEntry) : Prop :=
  StronglySorted N.lt (map number es) ∧ Forall (above previous) (map number es).

Lemma ascending_from_cons previous e es :
  ascending_from previous (e :: es) ↔ above previous e.(number) ∧ ascending_from (Some e.(number)) es.
Proof.
  unfold ascending_from. cbn [map]. split.
  - intros [H F]. apply StronglySorted_inv in H as [H1 H2]. apply Forall_cons in F as [F1 F2]. done.
  - intros (H1 & H2 & H3). split; [by constructor|]. constructor; [done|].
    eapply Forall_impl; [exact H3|]. intros n. destruct previous; cbn in *; [lia|done].
Qed.

Section codec_laws.
Context {C : Cbor} {CL : CborLaws C}.

Lemma raw_entry_decode_encode previous e d :
  raw_ok e → above previous e.(number) →
  decode_entry (previous, encode_entry e ++ d) = Ok (e, (Some e.(number), d)).
Proof.
  intros [Hn Hiv Hs] Ha. unfold decode_entry, encode_entry. rewrite <- !app_assoc.
  unfold NONCE_LEN, SEALED_LEN, SEED_LEN, TAG_LEN in *.
  rewrite dec_enc_array by done. cbn [ok_or]. rewrite !bind_of_Ok.
  rewrite bool_decide_eq_true_2 by done. cbn [negb refuse_if]. rewrite bind_of_Ok.
  rewrite dec_enc_u64 by done. cbn [ok_or]. rewrite !bind_of_Ok.
  rewrite (refuse_if_pass (match previous with Some _ => _ | None => _ end))
    by (destruct previous; cbn in Ha; [by apply N.leb_gt|done]).
  rewrite bind_of_Ok. rewrite dec_enc_bytes by (unfold u64_bound; lia). cbn [ok_or]. rewrite !bind_of_Ok.
  rewrite (refuse_if_pass (negb (_ =? 12))) by lia. rewrite bind_of_Ok.
  rewrite dec_enc_bytes by (unfold u64_bound; lia). cbn [ok_or]. rewrite !bind_of_Ok.
  rewrite (refuse_if_pass (negb (_ =? 32 + 16))) by lia. rewrite bind_of_Ok. by destruct e.
Qed.

Lemma decode_entry_Ok s e s' :
  decode_entry s = Ok (e, s') → raw_ok e ∧ above s.1 e.(number) ∧ s'.1 = Some e.(number).
Proof.
  intros H. unfold decode_entry in H. inv_ok. b2p.
  match goal with H : dec_u64 _ = Some _ |- _ => apply dec_u64_range in H end.
  split_and!; [by split|cbn|done]. by case_match; b2p.
Qed.

Lemma decode_entries_Ok n s es s' :
  repeat_read decode_entry n s = Ok (es, s') → Forall raw_ok es ∧ ascending_from s.1 es.
Proof.
  revert s es. induction n as [|n IH]; intros s es; cbn [repeat_read].
  - intros [= <- <-]. repeat constructor.
  - intros H. inv_ok.
    match goal with H : decode_entry _ = Ok _ |- _ => apply decode_entry_Ok in H as (He & Ha & E) end.
    match goal with H : repeat_read _ _ _ = Ok _ |- _ => apply IH in H as [F Hs] end.
    split; [by constructor|]. apply ascending_from_cons. rewrite <- E. done.
Qed.

Lemma raw_entries_decode_encode es previous d :
  Forall raw_ok es → ascending_from previous es →
  ∃ last, repeat_read decode_entry (length es) (previous, concat (map encode_entry es) ++ d)
    = Ok (es, (last, d)).
Proof.
  revert previous. induction es as [|e es IH]; intros previous F Ha; [by eexists|].
  apply Forall_cons in F as [Fe F]. apply ascending_from_cons in Ha as [He Ha].
  cbn [length map concat repeat_read]. rewrite <- app_assoc, raw_entry_decode_encode by done.
  rewrite bind_of_Ok. destruct (IH _ F Ha) as [last ->]. rewrite bind_of_Ok. by eexists.
Qed.

Lemma decode_body_Ok_iff x es :
  decode_body x = Ok es ↔
  encode_body es = x ∧ lenN es <= MAX_ENTRIES ∧ Forall raw_ok es ∧ ascending_from None es.
Proof.
  unfold decode_body. split.
  - intros H. inv_ok. b2p.
    match goal with H : repeat_read _ _ _ = Ok _ |- _ =>
      pose proof (repeat_read_length _ _ _ _ _ H); apply decode_entries_Ok in H as [F Ha] end.
    cbn in Ha. split_and!; [done|lia|done|done].
  - intros (<- & Hn & F & Ha). unfold MAX_ENTRIES in *.
    change (dec_array (encode_body es))
      with (dec_array (enc_array (lenN es) ++ concat (map encode_entry es))).
    rewrite dec_enc_array by (unfold u64_bound; lia). cbn [ok_or]. rewrite !bind_of_Ok. cbn [ok_or].
    rewrite bind_of_Ok, (refuse_if_pass (_ <? _)) by lia. rewrite bind_of_Ok, Nat2N.id.
    destruct (raw_entries_decode_encode es None [] F Ha) as [l E]. rewrite app_nil_r in E.
    rewrite E, bind_of_Ok. cbn [snd]. unfold position. cbn [length].
    rewrite (refuse_if_pass (negb (_ =? _))) by lia. rewrite bind_of_Ok.
    by rewrite bool_decide_eq_true_2.
Qed.

Context {CS : CborSizes C}.

Lemma length_encode_entry e : raw_ok e → lenN (encode_entry e) <= MAX_ENTRY_BYTES.
Proof.
  intros [Hn Hiv Hs]. unfold encode_entry. rewrite !length_app.
  unfold MAX_ENTRY_BYTES, NONCE_LEN, SEALED_LEN, SEED_LEN, TAG_LEN in *.
  pose proof (length_enc_array_small 3 ltac:(lia)). pose proof (length_enc_u64_le _ Hn).
  pose proof (length_enc_bytes_small e.(entry_nonce) ltac:(lia)).
  pose proof (length_enc_bytes_le e.(sealed) ltac:(lia)). lia.
Qed.

Lemma length_encode_entries es :
  Forall raw_ok es → lenN (concat (map encode_entry es)) <= lenN es * MAX_ENTRY_BYTES.
Proof.
  induction 1 as [|e es He _ IH]; [done|]. cbn [map concat]. rewrite length_app. cbn [length].
  pose proof (length_encode_entry e He). lia.
Qed.

Lemma length_encode_body es :
  lenN es <= MAX_ENTRIES → Forall raw_ok es → lenN (encode_body es) <= MAX_BODY_LEN.
Proof.
  intros Hn F. unfold encode_body. rewrite length_app. pose proof (length_encode_entries es F).
  assert (lenN (enc_array (lenN es)) <= 5)
    by (apply length_enc_array_le; unfold MAX_ENTRIES, u32_max in *; lia).
  unfold MAX_BODY_LEN, MAX_ENTRY_BYTES, MAX_ENTRIES in *. nia.
Qed.

(** ** The file *)
Record layout_ok (l : Layout) : Prop := {
  params_bounded : in_bounds l.(params);
  layout_salt : lenN l.(salt) = SALT_LEN;
  layout_head_length : lenN l.(layout_head) = HEAD_LEN;
  layout_count : lenN l.(raw_entries) <= MAX_ENTRIES;
  layout_entries : Forall raw_ok l.(raw_entries);
  layout_ascending : ascending_from None l.(raw_entries);
  layout_trailer_nonce : lenN l.(trailer_nonce) = NONCE_LEN;
  layout_trailer_tag : lenN l.(trailer_tag) = TAG_LEN;
  layout_body : l.(body_len) = lenN (encode_body l.(raw_entries));
  layout_header : l.(header) =
    encode_header l.(params) l.(salt) l.(layout_head) (u32be l.(body_len));
}.

Definition encode_layout (l : Layout) : bytes :=
  l.(header) ++ encode_body l.(raw_entries) ++ l.(trailer_nonce) ++ l.(trailer_tag).

Lemma length_encode_header p salt head b :
  lenN salt = SALT_LEN → lenN head = HEAD_LEN → length b = 4%nat →
  lenN (encode_header p salt head b) = HEADER_LEN.
Proof.
  intros Hs Hh Hb. unfold encode_header. rewrite !length_app, length_encode_params, Hb.
  unfold HEADER_LEN, BODY_LEN_AT, HEAD_AT, SALT_AT, PARAMS_AT, PARAMS_LEN, SALT_LEN, HEAD_LEN in *.
  change (lenN MAGIC) with 8. change (length MAGIC) with 8%nat. cbn [length]. lia.
Qed.

(** What stands before the parameters. *)
Lemma magic_version b a :
  starts_with MAGIC b = true → b !! length MAGIC = Some a → b = MAGIC ++ [a] ++ drop 9 b.
Proof.
  intros H E. apply starts_with_true_iff in H as [[|y r] ->]; [done|].
  change (Some y = Some a) in E. injection E as ->. done.
Qed.

Ltac offsets :=
  change PARAMS_AT with 9 in *; change SALT_AT with 18 in *; change HEAD_AT with 34 in *;
  change BODY_LEN_AT with 66 in *; change HEADER_LEN with 70 in *; change TRAILER_LEN with 28 in *;
  change NONCE_LEN with 12 in *; change TAG_LEN with 16 in *; change SALT_LEN with 16 in *;
  change HEAD_LEN with 32 in *.

Lemma parse_Ok b l : parse b = Ok l → layout_ok l ∧ b = encode_layout l ∧ lenN b <= MAX_FILE_LEN.
Proof.
  intros H. unfold parse in H. inv_ok. b2p.
  match goal with H : decode_body _ = Ok _ |- _ => apply decode_body_Ok_iff in H as (Eb & Hc & F & Ha) end.
  match goal with H : parse_params _ = Ok _ |- _ => apply parse_params_Ok_iff in H as [Ep Hp] end.
  match goal with H : b !! _ = Some ?v |- _ => rename v into version;
    pose proof (magic_version b version ltac:(done) H) as Em end.
  match goal with H : Byte.to_N version = _ |- _ => rename H into Ev end.
  offsets. set (n := unbe (slice 66 70 b)) in *.
  assert (lenN (slice 66 70 b) = 4) as H4 by (apply length_slice; lia).
  assert (slice 66 70 b = u32be n) as En by (unfold n, u32be; rewrite be_unbe_len; [done|lia]).
  assert (n = lenN (slice 70 (70 + n) b)) as Hb by (rewrite length_slice; lia).
  assert (slice 0 70 b = encode_header a4 (slice 18 34 b) (slice 34 66 b) (u32be n)) as Eh.
  { apply (app_inv_tail (drop (N.to_nat 70) b)). rewrite slice_drop by lia. unfold encode_header.
    rewrite <- !app_assoc, <- En, (slice_drop 66 70), (slice_drop 34 66), (slice_drop 18 34), <- Ep,
      (slice_drop 9 18) by lia.
    rewrite <- Ev, byte_of_to_N, drop_0. exact Em. }
  split_and!; [split; cbn [params salt layout_head header body_len raw_entries trailer_nonce trailer_tag]; offsets..| |lia].
  - done.
  - apply length_slice; lia.
  - apply length_slice; lia.
  - done.
  - done.
  - done.
  - rewrite length_slice by lia. lia.
  - rewrite length_drop. lia.
  - by rewrite Eb, <- Hb.
  - done.
  - unfold encode_layout. cbn [header raw_entries trailer_nonce trailer_tag].
    rewrite Eb, (slice_drop (70 + n)), (slice_drop 70), (slice_drop 0 70) by lia. done.
Qed.

Lemma parse_encode l : layout_ok l → parse (encode_layout l) = Ok l.
Proof.
  intros [Hp Hs Hh Hc F Ha Htn Htt Hb Eh].
  pose proof (length_encode_body _ Hc F) as Hbl. pose proof (length_encode_params l.(params)) as Hpl.
  destruct l as [p sa he hd bl es tn tt].
  cbn [params salt layout_head header body_len raw_entries trailer_nonce trailer_tag] in *.
  subst bl hd. set (body := encode_body es) in *. set (n := lenN body) in *.
  set (h := encode_header p sa he (u32be n)).
  assert (lenN h = 70) as Hhl by (apply length_encode_header; [done|done|apply length_u32be]).
  set (b := encode_layout _). assert (b = h ++ body ++ tn ++ tt) as Eb by done.
  assert (lenN b = 70 + n + 28) as Hl by (rewrite Eb, !length_app; offsets; lia).
  assert (b = MAGIC ++ [byte_of VERSION] ++ encode_params p ++ sa ++ he ++ u32be n ++ body ++ tn ++ tt)
    as Eb' by (rewrite Eb; unfold h, encode_header; rewrite <- !app_assoc; done).
  assert (lenN MAGIC = 8) as Hm by done. clearbody b.
  pose proof (length_u32be n) as H4. offsets.
  assert (slice 9 18 b = encode_params p ∧ slice 18 34 b = sa ∧ slice 34 66 b = he ∧
    slice 66 70 b = u32be n) as (E1 & E2 & E3 & E4).
  { split_and!; [eapply (slice_app _ _ (MAGIC ++ [byte_of VERSION]))
      |eapply (slice_app _ _ (MAGIC ++ [byte_of VERSION] ++ encode_params p))
      |eapply (slice_app _ _ (MAGIC ++ [byte_of VERSION] ++ encode_params p ++ sa))
      |eapply (slice_app _ _ (MAGIC ++ [byte_of VERSION] ++ encode_params p ++ sa ++ he))];
      first [rewrite Eb', <- !app_assoc; reflexivity|rewrite ?length_app; cbn [length]; lia]. }
  assert (slice 70 (70 + n) b = body ∧ slice (70 + n) (70 + n + 12) b = tn ∧
    drop (N.to_nat (70 + n + 12)) b = tt ∧ slice 0 70 b = h) as (E5 & E6 & E7 & E8).
  { split_and!; [eapply (slice_app _ _ h)|eapply (slice_app _ _ (h ++ body))|
      |eapply (slice_app _ _ [])];
      try first [rewrite Eb, <- ?app_assoc; reflexivity|rewrite ?length_app; cbn [length]; lia].
    rewrite Eb, !app_assoc. apply drop_app_len. rewrite !length_app. lia. }
  assert (Hmax : 70 + MAX_BODY_LEN + 28 = MAX_FILE_LEN) by done.
  unfold parse. offsets. rewrite Eb' at 1. rewrite starts_with_app. cbn [negb refuse_if]. rewrite bind_of_Ok.
  rewrite (refuse_if_pass (MAX_FILE_LEN <? _)) by lia. rewrite bind_of_Ok.
  assert (b !! length MAGIC = Some (byte_of VERSION)) as -> by (rewrite Eb'; reflexivity).
  cbn [ok_or]. rewrite bind_of_Ok. change (Byte.to_N (byte_of VERSION)) with 1. cbn [negb refuse_if N.eqb VERSION].
  rewrite (refuse_if_pass (negb (1 =? VERSION))) by done. rewrite bind_of_Ok.
  rewrite (refuse_if_pass (_ <? 70 + 28)) by lia. rewrite bind_of_Ok.
  rewrite E1, E2, E3, E4, (proj2 (parse_params_Ok_iff _ p)) by done. rewrite bind_of_Ok.
  assert (unbe (u32be n) = n) as ->
    by (apply unbe_u32be; assert (MAX_BODY_LEN <= u32_max) by (vm_compute; discriminate); lia).
  rewrite (refuse_if_pass (MAX_BODY_LEN <? _)) by lia. rewrite bind_of_Ok.
  rewrite (refuse_if_pass (negb (_ =? 70 + n + 28))) by lia. rewrite bind_of_Ok.
  rewrite E5, E6, E7, E8. unfold body at 1.
  rewrite (proj2 (decode_body_Ok_iff _ es)) by done. done.
Qed.

Lemma layout_header_length l : layout_ok l → lenN l.(header) = HEADER_LEN.
Proof.
  intros [_ Hs Hh _ _ _ _ _ _ ->]. apply length_encode_header; [done|done|apply length_u32be].
Qed.

Lemma store_parse_Ok_iff b l : parse b = Ok l ↔ layout_ok l ∧ b = encode_layout l.
Proof.
  split; [intros H; by apply parse_Ok in H as (? & ? & _)|]. intros [H ->]. by apply parse_encode.
Qed.
End codec_laws.

(** * Sealing and opening *)

(** What the type and [insert] keep of a store. *)
Record store_ok (s : EpochStore) : Prop := {
  store_head : lenN s.(chain_head) = HEAD_LEN;
  store_ascending : ascending s.(entries);
  store_entries : Forall (λ p, p.1 < u64_bound ∧ lenN p.2.(recipient_seed) = SEED_LEN) s.(entries);
  store_size : len s <= MAX_ENTRIES;
}.

Lemma map_insert_snoc {V} n (v : V) l : (∀ k, k ∈ l.*1 → k < n) → map_insert n v l = l ++ [(n, v)].
Proof.
  induction l as [|[k w] l IH]; intros H; [done|]. cbn [map_insert app].
  assert (k < n) by (apply H; by left).
  destruct (N.ltb_spec n k); [lia|]. destruct (N.eqb_spec n k); [lia|].
  by rewrite IH by (intros; apply H; by right).
Qed.

Section seal_laws.
Context {C : Cbor} {CL : CborLaws C} {CS : CborSizes C}.
Context {P : Primitives} {L : PrimitivesLaws P} {A : Argon2} {U : Unicode}.

(** A sealed entry and what it opens to. *)
Definition opens (key : DerivedKey) (header : bytes) (e : RawEntry) (p : N * RecipientSecret) : Prop :=
  raw_ok e ∧ e.(number) = p.1 ∧ lenN p.2.(recipient_seed) = SEED_LEN ∧
  aead_decrypt key.(derived_key) e.(entry_nonce) (entry_aad header e.(number))
    (take 32 e.(sealed)) (drop 32 e.(sealed)) = Some p.2.(recipient_seed).

Lemma opens_numbers key header es l : Forall2 (opens key header) es l → map number es = l.*1.
Proof. induction 1 as [|e p es l (_ & H & _) _ IH]; [done|]. cbn [map]. rewrite H, IH. done. Qed.

Lemma opens_raw key header es l : Forall2 (opens key header) es l → Forall raw_ok es.
Proof. induction 1 as [|e p es l (H & _) _ IH]; by constructor. Qed.

Lemma open_entries_opens key header es l opened :
  Forall2 (opens key header) es l → ascending (opened ++ l) →
  open_entries key header es opened = Ok (opened ++ l).
Proof.
  intros F. revert opened. induction F as [|e [n s] es l (_ & En & Hl & Ho) F IH]; intros opened Ha.
  - by rewrite app_nil_r.
  - cbn [fst snd] in *. subst n. cbn [open_entries]. rewrite Ho. cbn [ok_or]. rewrite bind_of_Ok.
    unfold secret_from_bytes, require_length. change KEY_LENGTH with SEED_LEN.
    rewrite Hl, N.eqb_refl. cbn [negb refuse_if]. rewrite bind_of_Ok. unfold crypto. cbn [map_err].
    rewrite bind_of_Ok, map_insert_snoc.
    + rewrite IH; rewrite <- app_assoc; cbn [app]; by destruct s.
    + intros k Hk. unfold ascending in Ha. rewrite fmap_app in Ha.
      eapply StronglySorted_app_1_elem_of; [exact Ha|done|by left].
Qed.

Lemma seal_seed_opens key header p iv c :
  p.1 < u64_bound → lenN iv = NONCE_LEN → seal_seed key header p iv = Ok c →
  lenN c = SEALED_LEN ∧ opens key header {| number := p.1; entry_nonce := iv; sealed := c |} p.
Proof.
  intros Hn Hiv H. unfold seal_seed, expose_seed_for_sealing in H. inv_ok. b2p.
  match goal with H : aead_encrypt _ _ _ _ = Some (?x, ?y) |- _ =>
    pose proof (aead_lengths _ _ _ _ _ _ H) as [Hc Ht]; apply aead_decrypt_encrypt in H as Hd;
    rename x into ct, y into tg end.
  unfold SEALED_LEN, SEED_LEN, TAG_LEN, TAG_LENGTH in *.
  assert (lenN (ct ++ tg) = 32 + 16) as Hl by (rewrite length_app; lia).
  split; [done|]. unfold opens. cbn [number entry_nonce sealed]. split_and!; [by split|done|done|].
  by rewrite take_app_len, drop_app_len by lia.
Qed.

Lemma seal_seeds_open key header l ivs cs :
  collect (λ p, seal_seed key header p.1 p.2) (combine l ivs) = Ok cs →
  length ivs = length l → Forall (λ iv, lenN iv = NONCE_LEN) ivs → Forall (λ p, p.1 < u64_bound) l →
  Forall2 (opens key header) (zip_entries (map fst l) ivs cs) l ∧ Forall (λ c, lenN c = SEALED_LEN) cs ∧
  length cs = length ivs.
Proof.
  revert ivs cs. induction l as [|p l IH]; intros [|iv ivs] cs H Hl Fi Fl; try done.
  - cbn in H. inv_ok. done.
  - cbn [combine collect] in H. inv_ok. cbn [fst snd] in *.
    apply Forall_cons in Fi as [Hi Fi], Fl as [Hp Fl].
    match goal with H : seal_seed _ _ _ _ = Ok _ |- _ => apply seal_seed_opens in H as [Hc Ho]; [|done..] end.
    match goal with H : collect _ _ = Ok _ |- _ => apply IH in H as (F & Fc & Hn); [|done..] end.
    cbn [map zip_entries length]. split_and!; [by constructor|by constructor|by f_equal].
Qed.

(** The placeholder has the size of what replaces it. *)
Lemma length_encode_body_zip keys ivs cs ds :
  length cs = length ds → Forall2 (λ c d : bytes, length c = length d) cs ds →
  length (encode_body (zip_entries keys ivs cs)) = length (encode_body (zip_entries keys ivs ds)).
Proof.
  intros Hl F. unfold encode_body.
  assert (∀ keys ivs, length (zip_entries keys ivs cs) = length (zip_entries keys ivs ds) ∧
    length (concat (map encode_entry (zip_entries keys ivs cs))) =
    length (concat (map encode_entry (zip_entries keys ivs ds)))) as H.
  { clear Hl keys ivs. induction F as [|c d cs ds Hcd F IH]; intros [|k keys] [|iv ivs]; try done.
    destruct (IH keys ivs) as [E1 E2]. cbn [zip_entries length map concat].
    rewrite !length_app, E1, E2. split; [done|]. f_equal.
    unfold encode_entry. cbn [number entry_nonce sealed]. rewrite !length_app.
    by rewrite (length_enc_bytes c d Hcd). }
  destruct (H keys ivs) as [E1 E2]. by rewrite !length_app, E1, E2.
Qed.

Lemma length_placeholder keys ivs cs :
  Forall (λ c, lenN c = SEALED_LEN) cs → length cs = length ivs →
  length (encode_body (zip_entries keys ivs
    (map (λ _, replicate (N.to_nat SEALED_LEN) Byte.x00) ivs))) =
  length (encode_body (zip_entries keys ivs cs)).
Proof.
  intros F Hl. apply length_encode_body_zip; [by rewrite length_map|].
  apply Forall2_same_length_lookup_2; [by rewrite length_map|]. intros i c d Hc Hd.
  apply list_lookup_fmap_Some in Hc as (x & -> & Hx). rewrite length_replicate.
  rewrite Forall_forall in F. specialize (F d (list_elem_of_lookup_2 _ _ _ Hd)). lia.
Qed.

(** The nonces drawn for [n] entries and the trailer. *)
Definition fresh (nonces : nat → option bytes) (n : nat) : Prop :=
  ∀ i, (i <= n)%nat → ∃ iv, nonces i = Some iv ∧ lenN iv = NONCE_LEN.

Lemma collect_draws nonces n :
  fresh nonces n → ∃ ivs, collect (draw nonces) (seq 0 n) = Ok ivs.
Proof.
  intros H. assert (∀ k j, (j + k <= n)%nat → ∃ ivs, collect (draw nonces) (seq j k) = Ok ivs) as G.
  { induction k as [|k IH]; intros j Hj; [by eexists|]. cbn [seq collect].
    destruct (H j) as (iv & E & _); [lia|]. 
    assert (draw nonces j = Ok iv) as -> by (unfold draw; by rewrite E). rewrite bind_of_Ok.
    destruct (IH (S j)) as [ivs ->]; [lia|]. rewrite bind_of_Ok. by eexists. }
  by apply G.
Qed.

Lemma drawn_nonces nonces n ivs :
  fresh nonces n → collect (draw nonces) (seq 0 n) = Ok ivs →
  length ivs = n ∧ Forall (λ iv, lenN iv = NONCE_LEN) ivs.
Proof.
  intros H Hc. apply collect_Ok_iff in Hc. split.
  - apply Forall2_length in Hc. by rewrite length_seq in Hc.
  - apply Forall_forall. intros iv Hiv. apply list_elem_of_lookup in Hiv as [i Hi].
    destruct (Forall2_lookup_r _ _ _ _ _ Hc Hi) as (j & Hj & E). apply lookup_seq in Hj as [-> Hj].
    destruct (H (0 + i)%nat) as (iv' & E' & Hl); [lia|]. unfold draw in E. rewrite E' in E. by inv_ok.
Qed.

(** A seal that succeeded drew what it needed. *)
Lemma seal_drew s pw random nonces b :
  seal s pw random nonces = Ok b →
  ∃ sa, random = Some sa ∧ ∀ i, (i <= length s.(entries))%nat → is_Some (nonces i).
Proof.
  intros H. unfold seal, seal_with in H. inv_ok.
  match goal with H : collect (draw nonces) _ = Ok _ |- _ => apply collect_Ok_iff in H as Hc end.
  match goal with H : draw nonces _ = Ok _ |- _ => unfold draw in H; apply ok_or_Ok_iff in H as Ht end.
  eexists. split; [done|]. intros i Hi. destruct (decide (i = length (entries s))) as [->|]; [by eexists|].
  assert (seq 0 (length (entries s)) !! i = Some i) as Hl by (apply lookup_seq; lia).
  destruct (Forall2_lookup_l _ _ _ _ _ Hc Hl) as (iv & _ & E). unfold draw in E.
  apply ok_or_Ok_iff in E. by eexists.
Qed.

(** What a sealed file holds. *)
Lemma seal_layout s pw sa nonces b :
  store_ok s → lenN sa = SALT_LEN → fresh nonces (length s.(entries)) →
  seal s pw (Some sa) nonces = Ok b →
  ∃ l kek, parse b = Ok l ∧ layout_ok l ∧ b = encode_layout l ∧ l.(params) = WRITER ∧ l.(salt) = sa ∧
    l.(layout_head) = s.(chain_head) ∧ derive WRITER (nfc pw) sa = Ok kek ∧
    Forall2 (opens kek l.(header)) l.(raw_entries) s.(entries) ∧
    aead_decrypt kek.(derived_key) l.(trailer_nonce) (l.(header) ++ encode_body l.(raw_entries)) []
      l.(trailer_tag) = Some [].
Proof.
  intros [Hh Ha F Hn] Hs Hf H. unfold seal, seal_with, normalize_passphrase, numbers, len in H.
  cbn [ok_or] in H. rewrite bind_of_Ok in H. inv_ok. b2p.
  destruct (drawn_nonces _ _ _ Hf Hok1) as [Hl Fi].
  destruct (Hf (length (entries s))) as (tn & Etn & Htn); [done|].
  unfold draw in Hok5. rewrite Etn in Hok5. cbn [ok_or] in Hok5. apply Ok_inj in Hok5 as <-.
  assert (Forall (λ p, p.1 < u64_bound) s.(entries)) as Fn by (eapply Forall_impl; [exact F|naive_solver]).
  apply seal_seeds_open in Hok4 as Ho; [|done..]. destruct Ho as (Ho & Fc & Hc).
  set (es := zip_entries (map fst (entries s)) a1 a4) in *.
  rewrite (length_placeholder _ _ _ Fc Hc) in Ho, Hok6 |- *. fold es in Ho, Hok6 |- *.
  set (h := encode_header WRITER sa (chain_head s) (u32be (lenN (encode_body es)))) in *.
  pose proof (opens_numbers _ _ _ _ Ho) as Hnum.
  apply aead_decrypt_encrypt in Hok6 as Hd. apply aead_lengths in Hok6 as [E0 Ht].
  destruct l; [|done]. exists {| params := WRITER; salt := sa; layout_head := s.(chain_head); header := h;
    body_len := lenN (encode_body es); raw_entries := es; trailer_nonce := tn; trailer_tag := l0 |}, a3.
  match goal with |- parse _ = Ok ?x ∧ _ => assert (layout_ok x) as Hok' end.
  { split; cbn [params salt layout_head header body_len raw_entries trailer_nonce trailer_tag].
    - apply in_bounds_writer.
    - done.
    - done.
    - rewrite (Forall2_length _ _ _ Ho). exact Hn.
    - by apply (opens_raw _ _ _ _ Ho).
    - unfold ascending_from. rewrite Hnum. split; [done|]. by apply Forall_forall.
    - done.
    - done.
    - done.
    - done. }
  split_and!; try done.
  - apply store_parse_Ok_iff. split; [done|]. unfold encode_layout.
    cbn [header raw_entries trailer_nonce trailer_tag]. by rewrite <- app_assoc.
  - unfold encode_layout. cbn [header raw_entries trailer_nonce trailer_tag]. by rewrite <- app_assoc.
Qed.

(** A sealed store opens to itself, under any spelling with its normal form. *)
Lemma store_open_seal s pw sa nonces b pw' :
  store_ok s → lenN sa = SALT_LEN → fresh nonces (length s.(entries)) →
  seal s pw (Some sa) nonces = Ok b → nfc pw' = nfc pw → open b pw' = Ok s.
Proof.
  intros Hok Hs Hf H Hpw.
  destruct (seal_layout _ _ _ _ _ Hok Hs Hf H) as (l & kek & Hp & Hl & Eb & Epa & Esa & Ehd & Hk & Ho & Hd).
  unfold open. rewrite Hp, bind_of_Ok. destruct (candidates_first pw') as (rest & -> & _).
  cbn [choose]. rewrite Hpw, Epa, Esa, Hk, bind_of_Ok.
  assert (take (N.to_nat (HEADER_LEN + body_len l)) b = l.(header) ++ encode_body l.(raw_entries)) as ->.
  { rewrite Eb. unfold encode_layout. rewrite app_assoc. apply take_app_len. rewrite length_app.
    pose proof (layout_header_length _ Hl). pose proof (layout_body _ Hl). lia. }
  rewrite Hd, bind_of_Ok, (open_entries_opens kek l.(header) l.(raw_entries) s.(entries) []);
    [|done|apply Hok].
  rewrite bind_of_Ok, Ehd. by destruct s.
Qed.

Lemma zip_raw_ok keys ivs cs :
  Forall (λ n, n < u64_bound) keys → Forall (λ iv, lenN iv = NONCE_LEN) ivs →
  Forall (λ c, lenN c = SEALED_LEN) cs →
  Forall raw_ok (zip_entries keys ivs cs) ∧ (length (zip_entries keys ivs cs) <= length keys)%nat.
Proof.
  revert ivs cs. induction keys as [|k keys IH]; intros [|iv ivs] [|c cs] Fk Fi Fc;
    try (split; [constructor|cbn; lia]).
  inversion Fk; inversion Fi; inversion Fc; subst. destruct (IH ivs cs) as [F Hl]; [done..|].
  cbn [zip_entries length]. split; [|lia]. by constructor.
Qed.

Lemma seal_seeds_total key header l ivs :
  Forall (λ p, lenN p.2.(recipient_seed) = SEED_LEN) l →
  ∃ cs, collect (λ p, seal_seed key header p.1 p.2) (combine l ivs) = Ok cs.
Proof.
  intros F. revert ivs. induction F as [|p l Hp F IH]; intros [|iv ivs]; try by eexists.
  cbn [combine collect fst snd].
  destruct (aead_encrypt_total key.(derived_key) iv (entry_aad header p.1) p.2.(recipient_seed))
    as [[c t] E]; [unfold SEED_LEN, AEAD_MAX in *; lia|].
  assert (seal_seed key header p iv = Ok (c ++ t)) as ->.
  { unfold seal_seed, expose_seed_for_sealing. rewrite (refuse_if_pass (negb _)) by lia.
    by rewrite bind_of_Ok, E. }
  rewrite bind_of_Ok. destruct (IH ivs) as [cs ->]. rewrite bind_of_Ok. by eexists.
Qed.

(** What a passphrase and what was drawn must be for a seal to succeed. *)
Record seal_inputs (pw sa : bytes) (nonces : nat → option bytes) (n : nat) : Prop := {
  long_enough : MIN_PASSPHRASE_LEN <= lenN (Utf8.chars (nfc pw));
  not_too_long : lenN (nfc pw) <= u32_max;
  fresh_salt : lenN sa = SALT_LEN;
  fresh_nonces : fresh nonces n;
}.

Lemma store_seal_total {AL : Argon2Laws A} s pw sa nonces :
  store_ok s → seal_inputs pw sa nonces (length s.(entries)) →
  ∃ b, seal s pw (Some sa) nonces = Ok b.
Proof.
  intros [Hh Ha F Hn] [Hc Hl Hs Hf]. unfold seal, seal_with, normalize_passphrase. cbn [ok_or].
  rewrite bind_of_Ok, (refuse_if_pass (_ <? MIN_PASSPHRASE_LEN)) by lia.
  rewrite bind_of_Ok, (refuse_if_pass (MAX_ENTRIES <? _)) by lia. rewrite bind_of_Ok.
  destruct (collect_draws _ _ Hf) as [ivs Hi]. destruct (drawn_nonces _ _ _ Hf Hi) as [Li Fi].
  rewrite Hi, bind_of_Ok.
  destruct (zip_raw_ok (numbers s) ivs (map (λ _, replicate (N.to_nat SEALED_LEN) Byte.x00) ivs)) as [Fz Lz].
  { apply Forall_map. eapply Forall_impl; [exact F|naive_solver]. }
  { done. }
  { apply Forall_map, Forall_forall. intros. by rewrite length_replicate. }
  pose proof (length_encode_body (zip_entries (numbers s) ivs
    (map (λ _, replicate (N.to_nat SEALED_LEN) Byte.x00) ivs))) as Hb.
  rewrite (refuse_if_pass (u32_max <? _)).
  2:{ apply N.ltb_ge. etransitivity; [apply Hb; [|done]|vm_compute; discriminate].
      unfold numbers in *. rewrite length_map in Lz. unfold len in Hn. lia. }
  rewrite bind_of_Ok.
  destruct (derive_total WRITER (nfc pw) sa in_bounds_writer Hl Hs) as [kek ->]. rewrite bind_of_Ok.
  match goal with |- context [collect (λ p, seal_seed ?k ?h p.1 p.2) _] =>
    destruct (seal_seeds_total k h s.(entries) ivs) as [cs ->] end.
  { eapply Forall_impl; [exact F|naive_solver]. }
  rewrite bind_of_Ok. destruct (Hf (length s.(entries))) as (tn & Et & _); [done|].
  unfold draw. rewrite Et. cbn [ok_or]. rewrite bind_of_Ok.
  match goal with |- context [aead_encrypt ?k ?n ?a []] =>
    destruct (aead_encrypt_total k n a []) as [[c t] ->]; [done|] end.
  cbn [ok_or]. rewrite bind_of_Ok. by eexists.
Qed.
End seal_laws.

(** * The abstract store: a finite map under a head

    What the file format promises its callers: commands on the store, sealing
    and reopening included, behave as on a map from epochs to secrets. *)
Section specification.
Context {C : Cbor} {P : Primitives} {A : Argon2} {U : Unicode}.

Inductive Command :=
| Insert (n : N) (s : RecipientSecret)
| Remove (n : N)
| Get (n : N)
| Numbers
| Len
| SetHead (head : bytes)
| Head
| Reseal (pw sa : bytes) (nonces : nat → option bytes) (pw' : bytes).

Inductive Output :=
| Done
| Refused (e : KeyringError)
| WasHeld (b : bool)
| Found (s : option RecipientSecret)
| Held (ns : list N)
| Count (n : N)
| HeadIs (head : bytes).

Definition settle (s : EpochStore) (r : result KeyringError EpochStore) : EpochStore * Output :=
  match r with Ok s' => (s', Done) | Err e => (s, Refused e) end.

(** The code; a refused command leaves the store as it was. *)
Definition exec (s : EpochStore) (c : Command) : EpochStore * Output :=
  match c with
  | Insert n secret => settle s (insert s n secret)
  | Remove n => let '(s', b) := remove s n in (s', WasHeld b)
  | Get n => (s, Found (get s n))
  | Numbers => (s, Held (numbers s))
  | Len => (s, Count (len s))
  | SetHead h => (set_chain_head s h, Done)
  | Head => (s, HeadIs s.(chain_head))
  | Reseal pw sa nonces pw' => settle s (b ← seal s pw (Some sa) nonces; open b pw')
  end.

Record Spec := { spec_head : bytes; spec_map : gmap N RecipientSecret }.

Definition spec_exec (s : Spec) (c : Command) : Spec * Output :=
  let m := s.(spec_map) in
  let with_map m' := {| spec_head := s.(spec_head); spec_map := m' |} in
  match c with
  | Insert n secret =>
      if bool_decide (m !! n = None ∧ 65536 <= N.of_nat (size m)) then (s, Refused (TooManyEntries 65536))
      else if negb (lenN secret.(recipient_seed) =? 32) then
        (s, Refused (CryptoFailed (Primitive
          (InvalidLength (text "recipient seed") 32 (lenN secret.(recipient_seed))))))
      else (with_map (<[n := secret]> m), Done)
  | Remove n => (with_map (delete n m), WasHeld (bool_decide (is_Some (m !! n))))
  | Get n => (s, Found (m !! n))
  | Numbers => (s, Held (merge_sort N.le (elements (dom m))))
  | Len => (s, Count (N.of_nat (size m)))
  | SetHead h => ({| spec_head := h; spec_map := m |}, Done)
  | Head => (s, HeadIs s.(spec_head))
  | Reseal _ _ _ _ => (s, Done)
  end.

Fixpoint run {S} (f : S → Command → S * Output) (s : S) (cs : list Command) : S * list Output :=
  match cs with
  | [] => (s, [])
  | c :: cs => let '(s, o) := f s c in let '(s, os) := run f s cs in (s, o :: os)
  end.

(** Arguments of the types the code gives them; a passphrase that is long
    enough, retyped in any spelling, when resealing. *)
Definition admissible (c : Command) : Prop :=
  match c with
  | Insert n _ => n < u64_bound
  | SetHead h => lenN h = HEAD_LEN
  | Reseal pw sa nonces pw' => seal_inputs pw sa nonces (N.to_nat MAX_ENTRIES) ∧ nfc pw' = nfc pw
  | _ => True
  end.

(** The refinement relation. *)
Record refines (s : EpochStore) (p : Spec) : Prop := {
  refines_ok : store_ok s;
  refines_head : s.(chain_head) = p.(spec_head);
  refines_map : list_to_map s.(entries) = p.(spec_map);
}.
End specification.

Section refinement.
Context {C : Cbor} {CL : CborLaws C} {CS : CborSizes C}.
Context {P : Primitives} {L : PrimitivesLaws P} {A : Argon2} {AL : Argon2Laws A} {U : Unicode}.

Lemma refines_get s p n : refines s p → get s n = p.(spec_map) !! n.
Proof. intros [_ _ <-]. apply map_get_lookup. Qed.

Lemma refines_len s p : refines s p → len s = N.of_nat (size p.(spec_map)).
Proof. intros [[_ Ha _ _] _ <-]. unfold len. by rewrite (ascending_size _ Ha). Qed.

Lemma refines_numbers s p :
  refines s p → numbers s = merge_sort N.le (elements (dom p.(spec_map))).
Proof.
  intros [[_ Ha _ _] _ <-]. unfold numbers.
  assert (∀ l : list N, StronglySorted N.lt l → StronglySorted N.le l) as Hle.
  { induction 1 as [|n l H IH F]; constructor; [done|]. eapply Forall_impl; [exact F|]. cbn. lia. }
  apply (StronglySorted_unique N.le).
  - by apply Hle.
  - apply StronglySorted_merge_sort; apply _.
  - rewrite merge_sort_Permutation. apply NoDup_Permutation; [by apply ascending_NoDup|apply NoDup_elements|].
    intros n. by rewrite elem_of_elements, dom_list_to_map_L, elem_of_list_to_set.
Qed.

Lemma store_ok_insert s n secret :
  store_ok s → n < u64_bound → lenN secret.(recipient_seed) = SEED_LEN →
  (get s n = None → len s < MAX_ENTRIES) →
  store_ok {| chain_head := s.(chain_head); entries := map_insert n secret s.(entries) |}.
Proof.
  intros [Hh Ha F Hn] Hb Hl Hroom. split; cbn; [done|by apply ascending_insert| |].
  - clear -F Hb Hl. induction F as [|[k v] l Hk F IH]; cbn [map_insert]; [by apply Forall_singleton|].
    repeat case_match; repeat apply Forall_cons_2; done.
  - unfold len, get in *. cbn [entries]. rewrite map_get_lookup in Hroom.
    rewrite <- (ascending_size _ (ascending_insert n secret _ Ha)), map_insert_to_map.
    rewrite <- (ascending_size _ Ha) in Hroom, Hn.
    destruct (list_to_map (entries s) !! n) as [x|] eqn:E.
    + rewrite (map_size_insert_Some n secret); done.
    + rewrite (map_size_insert_None n secret) by done. specialize (Hroom eq_refl). lia.
Qed.

Lemma store_ok_remove s n : store_ok s → store_ok (remove s n).1.
Proof.
  intros [Hh Ha F Hn]. split; cbn; [done|by apply ascending_remove| |].
  - clear -F. induction F as [|[k v] l Hk F IH]; cbn [map_remove]; [done|]. case_match; [done|by apply Forall_cons_2].
  - unfold len in *. cbn [entries remove fst].
    assert (length (map_remove n (entries s)) <= length (entries s))%nat; [|lia].
    clear. induction (entries s) as [|[k v] l IH]; cbn; [lia|]. case_match; cbn; lia.
Qed.

Lemma refines_exec s p c :
  refines s p → admissible c →
  refines (exec s c).1 (spec_exec p c).1 ∧ (exec s c).2 = (spec_exec p c).2.
Proof.
  intros R Hc. pose proof R as [Hok Hh Hm]. destruct c as [n secret|n|n| | |h| |pw sa nonces pw'];
    cbn [exec spec_exec settle fst snd].
  - unfold insert. rewrite (refines_get _ _ _ R), <- Hh.
    assert ((match spec_map p !! n with Some _ => false | None => MAX_ENTRIES <=? lenN (entries s) end)
      = bool_decide (spec_map p !! n = None ∧ 65536 <= N.of_nat (size (spec_map p)))) as ->.
    { rewrite <- (refines_len _ _ R). unfold len. change MAX_ENTRIES with 65536. symmetry.
      destruct (spec_map p !! n); [by apply bool_decide_eq_false_2; intros [? _]|].
      destruct (N.leb_spec 65536 (lenN (entries s)));
        [by apply bool_decide_eq_true_2|apply bool_decide_eq_false_2; lia]. }
    case_bool_decide as Hfull; [done|]. cbn [refuse_if]. rewrite bind_of_Ok.
    unfold secret_from_bytes, require_length, expose_seed_for_sealing. change KEY_LENGTH with 32.
    destruct (N.eqb_spec (lenN (recipient_seed secret)) 32) as [Hl|]; [|done].
    cbn [negb refuse_if]. rewrite bind_of_Ok. unfold crypto. cbn [map_err]. rewrite bind_of_Ok.
    cbn [settle fst snd]. split; [|done].
    destruct secret as [seed]. cbn [recipient_seed]. split; cbn.
    + apply (store_ok_insert s n {| recipient_seed := seed |}); [done|done|exact Hl|].
      rewrite (refines_get _ _ _ R), (refines_len _ _ R). intros E. unfold MAX_ENTRIES.
      apply N.lt_nge. intros ?. by apply Hfull.
    + done.
    + by rewrite map_insert_to_map, Hm.
  - unfold remove. cbn [fst snd]. rewrite (refines_get _ _ _ R). split; [|by destruct (spec_map p !! n)].
    split; cbn; [by apply (store_ok_remove s n)|done|]. rewrite map_remove_to_map by apply Hok. by rewrite Hm.
  - by rewrite (refines_get _ _ _ R).
  - by rewrite (refines_numbers _ _ R).
  - by rewrite (refines_len _ _ R).
  - split; [|done]. destruct Hok. by split.
  - by rewrite Hh.
  - destruct Hc as [[H1 H2 H3 H4] Hpw].
    assert (fresh nonces (length s.(entries))) as Hf.
    { intros i Hi. apply H4. pose proof (store_size _ Hok) as Hs. unfold len in Hs. lia. }
    destruct (store_seal_total s pw sa nonces Hok) as [b Hb]; [by split|].
    rewrite Hb, bind_of_Ok, (store_open_seal s pw sa nonces b pw') by done. done.
Qed.

Lemma refines_run s p cs :
  refines s p → Forall admissible cs →
  refines (run exec s cs).1 (run spec_exec p cs).1 ∧ (run exec s cs).2 = (run spec_exec p cs).2.
Proof.
  intros R F. revert s p R. induction F as [|c cs Hc F IH]; intros s p R; [done|]. cbn [run].
  destruct (refines_exec s p c R Hc) as [R' E].
  destruct (exec s c) as [s' o], (spec_exec p c) as [p' o']. cbn [fst snd] in *. subst o'.
  destruct (IH s' p' R') as [R'' E'].
  destruct (run exec s' cs), (run spec_exec p' cs). cbn [fst snd] in *. by subst.
Qed.

Lemma refines_new head : lenN head = HEAD_LEN → refines (new head) {| spec_head := head; spec_map := ∅ |}.
Proof. intros H. split; [|done|done]. split; [done|constructor|constructor|done]. Qed.
End refinement.

(** * Properties *)
Section typing.
Context {C : Cbor} {CL : CborLaws C} {CS : CborSizes C}.
Context {P : Primitives} {L : PrimitivesLaws P} {A : Argon2} {AL : Argon2Laws A} {U : Unicode}.

(** A store a program can hold: new or opened from any bytes under any
    passphrase, then changed through its methods. *)
Inductive obtained : EpochStore → Prop :=
| obtained_new head : lenN head = HEAD_LEN → obtained (new head)
| obtained_open b pw s : open b pw = Ok s → obtained s
| obtained_insert s n secret s' :
    obtained s → n < u64_bound → insert s n secret = Ok s' → obtained s'
| obtained_remove s n : obtained s → obtained (remove s n).1
| obtained_head s head : obtained s → lenN head = HEAD_LEN → obtained (set_chain_head s head).

Lemma map_insert_Forall {V} (Q : N * V → Prop) n v l :
  Forall Q l → Q (n, v) → Forall Q (map_insert n v l) ∧ (length (map_insert n v l) <= S (length l))%nat.
Proof.
  intros F Hn. induction F as [|[k w] l Hk F [IH1 IH2]]; cbn [map_insert length].
  - split; [by apply Forall_singleton|cbn; lia].
  - repeat case_match; cbn [length]; (split; [repeat apply Forall_cons_2; done|lia]).
Qed.

Lemma open_entries_Ok key header es opened r :
  open_entries key header es opened = Ok r → Forall raw_ok es → ascending opened →
  Forall (λ p, p.1 < u64_bound ∧ lenN p.2.(recipient_seed) = SEED_LEN) opened →
  ascending r ∧ Forall (λ p, p.1 < u64_bound ∧ lenN p.2.(recipient_seed) = SEED_LEN) r ∧
  (length r <= length opened + length es)%nat.
Proof.
  revert opened. induction es as [|e es IH]; intros opened H Fe Ha Fo; cbn [open_entries] in H.
  - inv_ok. split_and!; [done|done|lia].
  - apply Forall_cons in Fe as [[He _ _] Fe]. inv_ok.
    match goal with H : crypto (secret_from_bytes ?b) = Ok ?x |- _ =>
      apply map_err_Ok_iff in H as Hs; unfold secret_from_bytes, require_length in Hs end.
    inv_ok. b2p.
    match goal with H : open_entries _ _ _ (map_insert ?n ?v ?o) = _ |- _ =>
      destruct (map_insert_Forall _ n v o Fo) as [Fi Li]; [by split|];
      apply IH in H as (? & ? & ?); [|done|by apply ascending_insert|done] end.
    split_and!; [done|done|cbn [length]; lia].
Qed.

Lemma store_ok_open b pw s : open b pw = Ok s → store_ok s.
Proof.
  intros H. unfold open in H. inv_ok.
  match goal with H : parse _ = Ok _ |- _ => apply parse_Ok in H as (Hl & _) end.
  match goal with H : open_entries _ _ _ _ = Ok _ |- _ =>
    apply open_entries_Ok in H as (? & ? & ?); [|apply Hl|constructor|constructor] end.
  split; cbn; [apply Hl|done|done|]. pose proof (layout_count _ Hl). unfold len. cbn in *. lia.
Qed.

Lemma store_ok_obtained s : obtained s → store_ok s.
Proof.
  induction 1 as [head Hh|b pw s H|s n secret s' _ IH Hn H|s n _ IH|s head _ [Hh Ha F Hs] Hd].
  - split; [done|constructor|constructor|done].
  - by apply (store_ok_open b pw).
  - unfold insert in H. inv_ok.
    match goal with H : crypto (secret_from_bytes ?b) = Ok ?x |- _ =>
      apply map_err_Ok_iff in H as Hs; unfold secret_from_bytes, require_length in Hs end.
    inv_ok. b2p. apply store_ok_insert; [done..|]. intros E. rewrite E in *. unfold len. by b2p.
  - by apply store_ok_remove.
  - by split.
Qed.
End typing.

Section properties.
Context {C : Cbor} {CL : CborLaws C} {CS : CborSizes C}.
Context {P : Primitives} {L : PrimitivesLaws P} {A : Argon2} {AL : Argon2Laws A} {U : Unicode}.

(** C16. The sealed store implements a finite map: for any sequence of
    commands, sealing to a file and reopening it under another spelling of the
    passphrase included, the outputs are those of a map from epochs to
    secrets, refusals included, and the store at the end represents that
    map. *)
Theorem epoch_store_refines_map (head : bytes) (cs : list Command) :
  lenN head = HEAD_LEN → Forall admissible cs →
  let concrete := run exec (new head) cs in
  let abstract := run spec_exec {| spec_head := head; spec_map := ∅ |} cs in
  concrete.2 = abstract.2 ∧ concrete.1.(chain_head) = abstract.1.(spec_head) ∧
  list_to_map concrete.1.(entries) = abstract.1.(spec_map).
Proof.
  intros Hh F. destruct (refines_run _ _ cs (refines_new head Hh) F) as [[_ H1 H2] E].
  by split_and!.
Qed.

(** C36. A store is always well typed and can always be saved: whatever file it
    was opened from and whatever was done to it since, its numbers ascend
    strictly, its seeds are 32 bytes, it holds at most 65536 of them, and
    sealing it under an acceptable passphrase gives a file within the limit a
    reader imposes, which opens to the same store. *)
Theorem store_well_typed (s : EpochStore) :
  obtained s →
  lenN s.(chain_head) = 32 ∧ StronglySorted N.lt (numbers s) ∧ len s <= 65536 ∧
  (∀ n secret, get s n = Some secret → n < u64_bound ∧ lenN secret.(recipient_seed) = 32) ∧
  ∀ pw sa nonces pw', seal_inputs pw sa nonces (N.to_nat MAX_ENTRIES) → nfc pw' = nfc pw →
    ∃ b, seal s pw (Some sa) nonces = Ok b ∧ lenN b <= MAX_FILE_LEN ∧ open b pw' = Ok s.
Proof.
  intros H. apply store_ok_obtained in H as Hok. pose proof Hok as [Hh Ha F Hn].
  split_and!; [done|done|done| |].
  - intros n secret E. unfold get in E. rewrite map_get_lookup in E.
    apply elem_of_list_to_map_2 in E. rewrite Forall_forall in F. exact (F _ E).
  - intros pw sa nonces pw' [H1 H2 H3 H4] Hpw.
    assert (fresh nonces (length s.(entries))) as Hf
      by (intros i Hi; apply H4; unfold len in Hn; lia).
    destruct (store_seal_total s pw sa nonces Hok) as [b Hb]; [by split|].
    exists b. split_and!; [done| |by apply (store_open_seal s pw sa nonces)].
    destruct (seal_layout s pw sa nonces b) as (l & _ & Hp & _); [done..|].
    by apply parse_Ok in Hp as (_ & _ & ?).
Qed.

(** One store, one file form: the parser accepts exactly the encodings of
    well-formed layouts, header, canonical ascending body and trailer, so
    whatever it accepts re-encodes to the very bytes read, and nothing it
    accepts exceeds the file limit. *)
Theorem store_file_canonical (b : bytes) :
  (∀ l, parse b = Ok l ↔ layout_ok l ∧ b = encode_layout l) ∧
  (∀ l, parse b = Ok l → lenN b <= MAX_FILE_LEN ∧ reencode_unauthenticated b = Ok b) ∧
  (∀ b', reencode_unauthenticated b = Ok b' → b' = b).
Proof.
  assert (∀ l, parse b = Ok l → lenN b <= MAX_FILE_LEN ∧ reencode_unauthenticated b = Ok b) as Hre.
  { intros l Hp. apply parse_Ok in Hp as Hl. destruct Hl as (Hl & Eb & Hmax). split; [done|].
    unfold reencode_unauthenticated. rewrite Hp, bind_of_Ok.
    pose proof (length_encode_body _ (layout_count _ Hl) (layout_entries _ Hl)) as Hb.
    assert (MAX_BODY_LEN <= u32_max) by (vm_compute; discriminate).
    rewrite (refuse_if_pass (_ <? _)) by lia. rewrite bind_of_Ok. f_equal.
    rewrite Eb. unfold encode_layout. by rewrite (layout_header _ Hl), (layout_body _ Hl). }
  split_and!; [apply store_parse_Ok_iff|exact Hre|].
  intros b' H. destruct (parse b) as [l|] eqn:E.
  - destruct (Hre l eq_refl) as [_ H']. rewrite H' in H. by apply Ok_inj in H.
  - unfold reencode_unauthenticated in H. by rewrite E in H.
Qed.
End properties.

(** * Witnesses *)
Import Cbor.Reference Crypto.Toy Keyring.Toy.

Module Samples.
Definition head : bytes := replicate 32 Byte.x05.
Definition secret (b : byte) : RecipientSecret := {| recipient_seed := replicate 32 b |}.
Definition nonces (i : nat) : option bytes := Some (be 12 (N.of_nat i)).
Definition salt : bytes := replicate 16 Byte.x01.
Definition passphrase : bytes := text "correct horse".
Definition commands : list Command :=
  [Insert 7 (secret Byte.x07); Insert 3 (secret Byte.x03); Reseal passphrase salt nonces passphrase;
   Numbers; Remove 7; Get 7; Insert 4 {| recipient_seed := [] |}; Len].
Definition store : EpochStore := {| chain_head := head; entries := [(7, secret Byte.x07)] |}.
End Samples.

Lemma sample_fresh n : fresh Samples.nonces n.
Proof. intros i _. exists (be 12 (N.of_nat i)). split; [done|]. by rewrite length_be. Qed.

Lemma sample_inputs :
  seal_inputs Samples.passphrase Samples.salt Samples.nonces (N.to_nat MAX_ENTRIES).
Proof.
  split; [vm_compute; discriminate|vm_compute; discriminate|done|apply sample_fresh].
Qed.

Lemma sample_admissible : Forall admissible Samples.commands.
Proof.
  repeat apply Forall_cons_2; try exact I; try reflexivity; [|by apply Forall_nil].
  split; [apply sample_inputs|reflexivity].
Qed.

Lemma sample_obtained : obtained Samples.store.
Proof.
  apply (obtained_insert (new Samples.head) 7 (Samples.secret Byte.x07));
    [by apply obtained_new|done|reflexivity].
Qed.

Lemma epoch_store_refines_map_witness :
  (run exec (new Samples.head) Samples.commands).2 =
  (run spec_exec {| spec_head := Samples.head; spec_map := ∅ |} Samples.commands).2.
Proof.
  exact (proj1 (epoch_store_refines_map Samples.head Samples.commands eq_refl sample_admissible)).
Defined.

Lemma store_well_typed_witness :
  ∃ b, seal Samples.store Samples.passphrase (Some Samples.salt) Samples.nonces = Ok b ∧
       open b Samples.passphrase = Ok Samples.store.
Proof.
  destruct (store_well_typed Samples.store sample_obtained) as (_ & _ & _ & _ & H).
  destruct (H _ _ _ Samples.passphrase sample_inputs eq_refl) as (b & H1 & _ & H2).
  exists b. exact (conj H1 H2).
Defined.

Lemma store_file_canonical_witness :
  ∃ b, seal Samples.store Samples.passphrase (Some Samples.salt) Samples.nonces = Ok b ∧
       reencode_unauthenticated b = Ok b.
Proof.
  destruct (store_seal_total Samples.store Samples.passphrase Samples.salt Samples.nonces
    (store_ok_obtained _ sample_obtained)) as [b Hb].
  { destruct sample_inputs as [H1 H2 H3 H4]. split; [exact H1|exact H2|exact H3|apply sample_fresh]. }
  destruct (seal_layout Samples.store Samples.passphrase Samples.salt Samples.nonces b
    (store_ok_obtained _ sample_obtained)) as (l & _ & Hl & _); [reflexivity|apply sample_fresh|exact Hb|].
  exists b. split; [exact Hb|].
  exact (proj2 (proj1 (proj2 (store_file_canonical b)) l Hl)).
Defined.
