(* ===== verification/EpochCli.v ===== *)
(** [hide-cli/src/main.rs], the epoch commands: the public history and the
    sealed store of one chain, as two files that are replaced one after the
    other. A command is the list of file replacements it makes, in order; a
    crash leaves a prefix of them. *)
From stdpp Require Import gmap sorting.
From S2P Require Import Prelude Cbor Crypto Keyring Epoch EpochStore.
Local Open Scope N_scope.

Definition MAX_LOG_FILE : N := 16 * 1024 * 1024.

Inductive CliError :=
| EpochFailed (e : EpochError)
| KeyringFailed (e : KeyringError)
| Missing
| TooLarge
| SamePath
| OutputExists
| StoreMismatch
| StillCurrent (n : N)
| AlreadyErased (n : N).

(** The two files, when they exist. *)
Record Disk := { history : option bytes; store_file : option bytes }.

(** A whole file replaced by rename. *)
Inductive Write := WriteStore (b : bytes) | WriteHistory (b : bytes).

Definition apply_write (d : Disk) (w : Write) : Disk :=
  match w with
  | WriteStore b => {| history := d.(history); store_file := Some b |}
  | WriteHistory b => {| history := Some b; store_file := d.(store_file) |}
  end.

(** The disk when the process dies after [k] replacements. *)
Definition crashed (d : Disk) (ws : list Write) (k : nat) : Disk :=
  fold_left apply_write (take k ws) d.

Definition completed (d : Disk) (ws : list Write) : Disk := fold_left apply_write ws d.

Definition read_bounded (limit : N) (file : option bytes) : result CliError bytes :=
  b ← ok_or file Missing;
  refuse_if (limit <? lenN b) TooLarge;;
  Ok b.

Definition read_public_file (file : option bytes) : result CliError bytes :=
  read_bounded MAX_LOG_FILE file.

Definition read_epoch_store (file : option bytes) : result CliError bytes :=
  read_bounded MAX_FILE_LEN file.

(** What [getrandom] gives a command. *)
Record Draws := {
  epoch_seed : option bytes;
  store_salt : option bytes;
  store_nonces : nat → option bytes;
}.

Section cli.
Context {C : Cbor} {P : Primitives} {A : Argon2} {U : Unicode}.

(** The loop of [seal_chain]. *)
Fixpoint insert_all (s : EpochStore) (held : list (N * RecipientSecret))
  : result KeyringError EpochStore :=
  match held with
  | [] => Ok s
  | (n, secret) :: held => s ← EpochStore.insert s n secret; insert_all s held
  end.

Definition seal_chain (c : EpochChain) (passphrase : bytes) (draws : Draws) : result CliError bytes :=
  map_err KeyringFailed
    (s ← insert_all (EpochStore.new (Epoch.head c)) (held_secrets c);
     EpochStore.seal s passphrase draws.(store_salt) draws.(store_nonces)).

Definition load_epochs (d : Disk) (passphrase : bytes) : result CliError EpochChain :=
  b ← read_public_file d.(history);
  records ← map_err EpochFailed (decode_records b);
  map_err EpochFailed (Epoch.verify sha256 records);;
  f ← read_epoch_store d.(store_file);
  store ← map_err KeyringFailed (EpochStore.open f passphrase);
  refuse_if (negb (bool_decide (store.(chain_head) = last_link records))) StoreMismatch;;
  map_err EpochFailed (restore sha256 records (into_secrets store)).

(** [new_output]: nothing is overwritten. *)
Definition new_output (file : option bytes) : result CliError unit :=
  refuse_if (match file with Some _ => true | None => false end) OutputExists.

Definition epoch_init_with (d : Disk) (passphrase : bytes) (draws : Draws)
  : result CliError (list Write) :=
  new_output d.(history);;
  new_output d.(store_file);;
  c ← map_err EpochFailed (Epoch.new sha256 draws.(epoch_seed));
  sealed ← seal_chain c passphrase draws;
  Ok [WriteStore sealed; WriteHistory (encode_records c.(records))].

Definition epoch_advance_with (d : Disk) (passphrase : bytes) (draws : Draws)
  : result CliError (list Write) :=
  c ← load_epochs d passphrase;
  '(c, _) ← map_err EpochFailed (Epoch.advance sha256 c draws.(epoch_seed));
  sealed ← seal_chain c passphrase draws;
  Ok [WriteStore sealed; WriteHistory (encode_records c.(records))].

Definition epoch_erase_with (d : Disk) (number : N) (passphrase : bytes) (draws : Draws)
  : result CliError (list Write) :=
  c ← load_epochs d passphrase;
  map_err EpochFailed (chain_public_key c number);;
  refuse_if (number =? current c) (StillCurrent number);;
  refuse_if (negb (is_readable c number)) (AlreadyErased number);;
  c ← map_err EpochFailed (Epoch.erase c number);
  sealed ← seal_chain c passphrase draws;
  Ok [WriteStore sealed].
End cli.

(** * Lemmas *)
Section laws.
Context {C : Cbor} {CL : CborLaws C} {CS : CborSizes C}.
Context {P : Primitives} {L : PrimitivesLaws P} {A : Argon2} {U : Unicode}.

(** The types of what is drawn. *)
Definition draws_ok (draws : Draws) : Prop :=
  (∀ s, draws.(store_salt) = Some s → lenN s = SALT_LEN) ∧
  (∀ i iv, draws.(store_nonces) i = Some iv → lenN iv = NONCE_LEN).

(** What is held ascends by epoch. *)
Lemma held_from rs ss i p :
  verify_from sha256 i p rs = Ok tt → Forall2 slot_ok rs ss →
  let held := omap (λ s, k ← s.(secret_held); Some (s.(epoch), k)) ss in
  ascending held ∧ ∀ n, n ∈ held.*1 → i <= n < i + lenN rs.
Proof.
  intros H F. revert i p H. induction F as [|r s rs ss [He _] F IH]; intros i p H; cbn zeta.
  { split; [constructor|]. intros n Hn. cbn in Hn. by apply elem_of_nil in Hn. }
  cbn [verify_from] in H. inv_ok. b2p.
  match goal with H : verify_from _ _ _ _ = Ok _ |- _ => destruct (IH _ _ H) as [Ha Hn] end.
  cbn zeta in Ha, Hn. destruct s as [e [k|]]; cbn in *.
  - split.
    + apply ascending_cons. split; [|done]. intros n Hx. specialize (Hn n Hx). lia.
    + intros n. rewrite elem_of_cons. intros [->|Hx]; [lia|]. specialize (Hn n Hx). lia.
  - split; [done|]. intros n Hx. specialize (Hn n Hx). lia.
Qed.

Lemma held_ascending c :
  chain_ok sha256 c →
  ascending (held_secrets c) ∧ ∀ n, n ∈ (held_secrets c).*1 → n < lenN c.(records).
Proof.
  intros [Hv _ Hs]. apply verify_Ok in Hv as [_ Hv].
  destruct (held_from _ _ _ _ Hv Hs) as [Ha Hn]. split; [exact Ha|]. intros n Hx. specialize (Hn n Hx). lia.
Qed.

Lemma insert_all_Ok s held s' :
  insert_all s held = Ok s' → ascending (s.(entries) ++ held) → len s <= MAX_ENTRIES →
  s' = {| chain_head := s.(chain_head); entries := s.(entries) ++ held |} ∧
  Forall (λ p, lenN p.2.(recipient_seed) = SEED_LEN) held ∧ len s' <= MAX_ENTRIES.
Proof.
  revert s. induction held as [|[n k] held IH]; intros s H Ha Hl; cbn [insert_all] in H.
  - inv_ok. rewrite app_nil_r. split_and!; [by destruct s'|constructor|done].
  - apply bind_Ok_iff in H as (s1 & H1 & H). unfold EpochStore.insert in H1. inv_ok.
    match goal with H : crypto (secret_from_bytes ?b) = Ok ?x |- _ =>
      apply map_err_Ok_iff in H as Hs; unfold secret_from_bytes, require_length in Hs end.
    inv_ok. b2p. unfold expose_seed_for_sealing in *.
    assert (∀ x, x ∈ (entries s).*1 → x < n) as Hlt.
    { intros x Hx. unfold ascending in Ha. rewrite fmap_app in Ha.
      eapply StronglySorted_app_1_elem_of; [exact Ha|exact Hx|by left]. }
    unfold EpochStore.get in *. rewrite (proj2 (map_get_None n (entries s))) in *
      by (intros Hx; specialize (Hlt n Hx); lia).
    rewrite map_insert_snoc in H by done. b2p.
    apply IH in H as (-> & F & Hl'); cbn [entries chain_head].
    + rewrite <- app_assoc. destruct k as [ks]. cbn [app recipient_seed] in *.
      split_and!; [done|by constructor|]. unfold len in *. cbn in *. by rewrite <- app_assoc in Hl'.
    + rewrite <- app_assoc. by destruct k as [ks].
    + unfold len. cbn [entries]. rewrite length_app. cbn [length]. lia.
Qed.

Definition store_of (c : EpochChain) : EpochStore :=
  {| chain_head := Epoch.head c; entries := held_secrets c |}.

Lemma store_ok_of c :
  chain_ok sha256 c → Forall (λ p, lenN p.2.(recipient_seed) = SEED_LEN) (held_secrets c) →
  len (store_of c) <= MAX_ENTRIES → store_ok (store_of c).
Proof.
  intros Hc F Hl. destruct (held_ascending c Hc) as [Ha Hn]. pose proof Hc as [Hv _ _].
  apply verify_Ok in Hv as [Hm Hv]. split; cbn; [|done| |done].
  - unfold Epoch.head. apply (verify_links_32 _ sha256_length) in Hv. unfold HEAD_LEN. lia.
  - rewrite Forall_forall in *. intros p Hp. split; [|by apply F].
    specialize (Hn p.1 (list_elem_of_fmap_2 fst _ _ Hp)). unfold MAX_CHAIN_ENTRIES, u64_bound in *. lia.
Qed.

(** What [seal_chain] writes opens to the chain's head and held secrets. *)
Lemma seal_chain_opens c pw draws b :
  chain_ok sha256 c → draws_ok draws → seal_chain c pw draws = Ok b →
  lenN b <= MAX_FILE_LEN ∧ ∀ pw', nfc pw' = nfc pw → EpochStore.open b pw' = Ok (store_of c).
Proof.
  intros Hc [Hs Hn] H. unfold seal_chain in H. apply map_err_Ok_iff, bind_Ok_iff in H as (s & Hi & H).
  destruct (held_ascending c Hc) as [Ha _].
  apply insert_all_Ok in Hi as (-> & F & Hl); [|done|done].
  pose proof (store_ok_of c Hc F Hl) as Hok.
  destruct (seal_drew _ _ _ _ _ H) as (sa & Esa & Hd). rewrite Esa in H.
  assert (fresh draws.(store_nonces) (length (entries (store_of c)))) as Hf.
  { intros i Hi. destruct (Hd i Hi) as [iv Hiv]. exists iv. split; [done|by eapply Hn]. }
  split.
  - destruct (seal_layout (store_of c) pw sa _ b Hok (Hs _ Esa) Hf H) as (l & _ & Hp & _).
    by apply parse_Ok in Hp as (_ & _ & ?).
  - intros pw' Hpw. by apply (store_open_seal (store_of c) pw sa draws.(store_nonces) b pw' Hok (Hs _ Esa) Hf).
Qed.

(** A history and a store of one chain load as that chain. *)
Lemma load_written c pw f :
  chain_ok sha256 c → lenN (encode_records c.(records)) <= MAX_LOG_FILE →
  lenN f <= MAX_FILE_LEN → EpochStore.open f pw = Ok (store_of c) →
  load_epochs {| history := Some (encode_records c.(records)); store_file := Some f |} pw = Ok c.
Proof.
  intros Hc Hl Hf Ho. pose proof Hc as [Hv _ _]. apply verify_Ok in Hv as Hv'. destruct Hv' as [Hm Hv'].
  destruct (verify_typed sha256 0 zero_link c.(records) sha256_length Hv') as [Ft Fk];
    [unfold MAX_CHAIN_ENTRIES, u64_bound in *; lia|].
  unfold load_epochs, read_public_file, read_epoch_store, read_bounded. cbn [history store_file ok_or].
  rewrite !bind_of_Ok, (refuse_if_pass (MAX_LOG_FILE <? _)) by lia. rewrite !bind_of_Ok.
  rewrite records_decode_encode; [|done| |done].
  2:{ eapply Forall_impl; [exact Fk|]. cbn. intros r ->. unfold PUBLIC_KEY_LENGTH, u64_bound. lia. }
  cbn [map_err]. rewrite bind_of_Ok, Hv. cbn [map_err]. rewrite bind_of_Ok.
  rewrite (refuse_if_pass (MAX_FILE_LEN <? _)) by lia. rewrite !bind_of_Ok, Ho. cbn [map_err].
  rewrite bind_of_Ok. cbn [store_of chain_head]. rewrite bool_decide_eq_true_2 by done.
  cbn [negb refuse_if]. rewrite bind_of_Ok. unfold into_secrets. cbn [store_of entries].
  by rewrite (restore_held sha256 c Hc).
Qed.

Lemma load_Ok d pw c :
  load_epochs d pw = Ok c →
  chain_ok sha256 c ∧ d.(history) = Some (encode_records c.(records)) ∧
  lenN (encode_records c.(records)) <= MAX_LOG_FILE ∧
  ∃ f s, d.(store_file) = Some f ∧ EpochStore.open f pw = Ok s ∧
    s.(chain_head) = Epoch.head c ∧ restore sha256 c.(records) s.(entries) = Ok c.
Proof.
  intros H. unfold load_epochs, read_public_file, read_epoch_store, read_bounded in H. inv_ok. b2p.
  match goal with H : decode_records _ = Ok _ |- _ => apply records_decode_inv in H as (<- & _ & _) end.
  match goal with H : restore _ ?x _ = Ok _ |- _ => rename H into Hr, x into rs end.
  assert (c.(records) = rs) as E by (unfold restore in Hr; inv_ok; done).
  rewrite E. split_and!; [by eapply chain_ok_restore|done|done|].
  eexists _, _. split_and!; [done|eassumption| |done]. unfold Epoch.head. by rewrite E.
Qed.

(** ** One command *)

Lemma decode_chain c : chain_ok sha256 c → decode_records (encode_records c.(records)) = Ok c.(records).
Proof.
  intros [Hv _ _]. apply verify_Ok in Hv as [Hm Hv].
  destruct (verify_typed sha256 0 zero_link c.(records) sha256_length Hv) as [Ft Fk];
    [unfold MAX_CHAIN_ENTRIES, u64_bound in *; lia|].
  apply records_decode_encode; [done| |done].
  eapply Forall_impl; [exact Fk|]. cbn. intros r ->. unfold PUBLIC_KEY_LENGTH, u64_bound. lia.
Qed.

Lemma advance_writes d pw draws c ws :
  load_epochs d pw = Ok c → epoch_advance_with d pw draws = Ok ws → draws_ok draws →
  ∃ c' n f, advance sha256 c draws.(epoch_seed) = Ok (c', n) ∧ chain_ok sha256 c' ∧
    ws = [WriteStore f; WriteHistory (encode_records c'.(records))] ∧
    lenN f <= MAX_FILE_LEN ∧ EpochStore.open f pw = Ok (store_of c').
Proof.
  intros Hl H Hd. unfold epoch_advance_with in H. rewrite Hl, bind_of_Ok in H.
  apply bind_Ok_iff in H as ([c' n] & Ha & H). apply map_err_Ok_iff in Ha.
  apply bind_Ok_iff in H as (f & Hf & H). apply Ok_inj in H as <-.
  assert (chain_ok sha256 c') as Hc'
    by (apply (chain_ok_advance sha256 c draws.(epoch_seed) c' n); [right; by apply (load_Ok d pw)|exact Ha]).
  destruct (seal_chain_opens c' pw draws f Hc' Hd Hf) as [Hlen Ho].
  exists c', n, f. split_and!; [done..|by apply Ho].
Qed.

Lemma erase_writes d pw draws n c ws :
  load_epochs d pw = Ok c → epoch_erase_with d n pw draws = Ok ws → draws_ok draws →
  ∃ c' f, erase c n = Ok c' ∧ chain_ok sha256 c' ∧ ws = [WriteStore f] ∧
    n < current c ∧ is_Some (c.(records) !! N.to_nat n) ∧ is_readable c n = true ∧
    lenN f <= MAX_FILE_LEN ∧ EpochStore.open f pw = Ok (store_of c').
Proof.
  intros Hl H Hd. unfold epoch_erase_with in H. rewrite Hl, bind_of_Ok in H. inv_ok. b2p.
  match goal with H : erase c n = Ok ?x, Hf : seal_chain ?x pw draws = Ok ?y |- _ =>
    rename H into He, Hf into Hs, x into c', y into f end.
  assert (chain_ok sha256 c') as Hc'
    by (apply (chain_ok_step sha256 c c'); [by apply (load_Ok d pw)|by apply (step_erase sha256 c n)]).
  destruct (seal_chain_opens c' pw draws f Hc' Hd Hs) as [Hlen Ho].
  assert (is_Some (c.(records) !! N.to_nat n)) as Hr.
  { match goal with H : chain_public_key c n = Ok _ |- _ => unfold chain_public_key in H; inv_ok end.
    by eexists. }
  exists c', f. split_and!; [done|done|done| |done|done|done|by apply Ho].
  apply lookup_lt_is_Some in Hr. unfold current in *. lia.
Qed.

(** Advancing moves the head, or SHA-256 collides. *)
Lemma advance_moves_head c random c' n :
  chain_ok sha256 c → advance sha256 c random = Ok (c', n) → Epoch.head c' = Epoch.head c →
  collide sha256 (linked c'.(records)) (linked c.(records)).
Proof.
  intros [Hv Hne _] Ha E. apply verify_Ok in Hv as [Hm Hv].
  apply advance_ok in Ha as (-> & r & k & -> & _ & _ & Hn & Hlink & Hmax).
  unfold Epoch.head in E. cbn [records] in *. rewrite last_link_snoc, Hlink in E.
  destruct c.(records) as [|r0 rs _] eqn:Er using rev_ind; [done|].
  rewrite last_link_snoc in E. apply verify_from_snoc in Hv as (Hv0 & Hn0 & _ & Hl0).
  exists (link_input (last_link (rs ++ [r0])) (lenN (rs ++ [r0])) r.(public_key)),
    (link_input (last_link rs) r0.(Epoch.number) r0.(public_key)).
  split_and!.
  - apply epoch_linked_from_snoc. right. unfold last_link. rewrite Hn. reflexivity.
  - apply epoch_linked_from_snoc. by right.
  - intros Eq. rewrite length_app in Eq, Hm. cbn [length] in Eq, Hm.
    unfold MAX_CHAIN_ENTRIES in *. apply epoch_link_input_inj in Eq as (_ & En & _).
    + lia.
    + rewrite last_link_snoc, Hl0. unfold link_for. rewrite sha256_length.
      by rewrite (verify_links_32 sha256 sha256_length).
    + unfold u64_bound. lia.
    + unfold u64_bound. lia.
  - fold (last_link rs) in Hl0. unfold link_for in Hl0, E. rewrite last_link_snoc.
    rewrite <- Hl0. exact E.
Qed.

(** ** Sequences of commands and crashes *)

Inductive cli_step (pw : bytes) : Disk → Disk → Prop :=
| cli_advance d draws ws k :
    draws_ok draws → epoch_advance_with d pw draws = Ok ws → cli_step pw d (crashed d ws k)
| cli_erase d n draws ws k :
    draws_ok draws → epoch_erase_with d n pw draws = Ok ws → cli_step pw d (crashed d ws k).

Inductive cli_steps (pw : bytes) : Disk → Disk → Prop :=
| cli_refl d : cli_steps pw d d
| cli_next d d' d'' : cli_step pw d d' → cli_steps pw d' d'' → cli_steps pw d d''.

(** The history names the epoch and the store no longer holds it. *)
Definition lost (pw : bytes) (n : N) (d : Disk) : Prop :=
  ∃ h rs f s, d.(history) = Some h ∧ decode_records h = Ok rs ∧ n < lenN rs ∧
    d.(store_file) = Some f ∧ EpochStore.open f pw = Ok s ∧ n ∉ s.(entries).*1.

Lemma held_secret c n :
  chain_ok sha256 c → n ∈ (held_secrets c).*1 ↔ ∃ k, secret c n = Ok k.
Proof.
  intros Hc. split.
  - intros H. apply list_elem_of_fmap in H as ([m k] & -> & H). exists k. by apply (held_secrets_elem sha256 c _ k Hc).
  - intros [k H]. apply (held_secrets_elem sha256 c n k Hc) in H. by apply (list_elem_of_fmap_2 fst) in H.
Qed.

Lemma restored_from rs held given held' n k :
  restore_secrets rs held given = Ok held' →
  (∃ s, held' !! n = Some s ∧ s.(secret_held) = Some k) →
  (∃ s, held !! n = Some s ∧ s.(secret_held) = Some k) ∨ N.of_nat n ∈ given.*1.
Proof.
  revert held. induction given as [|[m s] given IH]; intros held H Hk; cbn [restore_secrets] in H.
  - inv_ok. by left.
  - inv_ok. destruct (IH _ H Hk) as [(t & Ht & Etk)|Hin]; [|right; by right].
    destruct (decide (N.to_nat m = n)) as [<-|Hne].
    + right. rewrite N2Nat.id. by left.
    + rewrite list_lookup_insert_ne in Ht by done. left. by exists t.
Qed.

Lemma lost_secret pw n d c :
  lost pw n d → load_epochs d pw = Ok c → secret c n = Err (Erased n).
Proof.
  intros (h & rs & f & s & Hh & Hrs & Hn & Hf & Ho & Hlost) H.
  apply load_Ok in H as (Hc & Eh & _ & f' & s' & Ef & Ho' & _ & Hr).
  assert (f' = f) as -> by congruence. assert (s' = s) as -> by congruence.
  assert (rs = c.(records)) as -> by (pose proof (decode_chain c Hc); congruence).
  destruct (secret c n) as [k|e] eqn:E.
  - exfalso. apply Hlost. unfold restore in Hr. inv_ok. unfold secret in E. cbn [secrets records] in *. inv_ok.
    match goal with H : restore_secrets _ _ _ = Ok ?x, Hl : secrets c !! _ = Some ?t |- _ =>
      assert (secrets c = x) as Es by (by rewrite <- Hr); rewrite Es in Hl;
      destruct (restored_from _ _ _ _ (N.to_nat n) k H) as [(u & Hu & Euk)|Hin]; [by exists t|..] end.
    + rewrite list_lookup_fmap in Hu. apply fmap_Some in Hu as (? & _ & ->). done.
    + by rewrite N2Nat.id in Hin.
  - destruct Hc as [_ _ Hs]. destruct (lookup_lt_is_Some_2 c.(records) (N.to_nat n)) as [r Hr']; [lia|].
    destruct (Forall2_lookup_l _ _ _ _ _ Hs Hr') as (t & Ht & _).
    unfold secret in E. rewrite Ht in E. cbn in E. destruct (secret_held t); cbn in E; congruence.
Qed.

Lemma lost_step pw n d d' : lost pw n d → cli_step pw d d' → lost pw n d'.
Proof.
  intros Hlost H. pose proof Hlost as (h & rs & f & s & Hh & Hrs & Hn & Hf & Ho & Hnin).
  destruct H as [d draws ws k Hd H|d m draws ws k Hd H].
  - destruct (load_epochs d pw) as [c|] eqn:Hl; [|by unfold epoch_advance_with in H; rewrite Hl in H].
    destruct (advance_writes _ _ _ _ _ Hl H Hd) as (c' & m & f' & Ha & Hc' & -> & Hlen & Ho').
    assert (lost pw n (crashed d [WriteStore f'] 1) ∧
            lost pw n (crashed d [WriteStore f'; WriteHistory (encode_records c'.(records))] 2)) as [L1 L2].
    { assert (rs = c.(records)) as ->.
      { apply load_Ok in Hl as (Hc & Eh & _). pose proof (decode_chain c Hc). congruence. }
      assert (n ∉ (held_secrets c').*1) as Hnew.
      { rewrite (held_secret c' n Hc'). intros [x Hx]. pose proof (lost_secret _ _ _ _ Hlost Hl) as He.
        apply load_Ok in Hl as (Hc & _). destruct Hc as [_ _ Hs].
        apply advance_ok in Ha as (_ & r & y & -> & _). unfold secret in *. cbn [secrets] in Hx.
        rewrite lookup_app_l in Hx; [congruence|]. apply Forall2_length in Hs. lia. }
      split; unfold lost; cbn.
      - exists h, c.(records), f', (store_of c'). by split_and!.
      - exists (encode_records c'.(records)), c'.(records), f', (store_of c').
        split_and!; [done|by apply decode_chain| |done|done|done].
        apply advance_ok in Ha as (_ & r & y & -> & _). cbn [records]. rewrite length_app. lia. }
    destruct k as [|[|[|k]]]; [exact Hlost|exact L1|exact L2|exact L2].
  - destruct (load_epochs d pw) as [c|] eqn:Hl; [|by unfold epoch_erase_with in H; rewrite Hl in H].
    destruct (erase_writes _ _ _ _ _ _ Hl H Hd) as (c' & f' & He & Hc' & -> & _ & _ & _ & Hlen & Ho').
    assert (lost pw n (crashed d [WriteStore f'] 1)) as L1.
    { exists h, rs, f', (store_of c'). cbn. split_and!; [done..|].
      rewrite (held_secret c' n Hc'). intros [x Hx]. pose proof (lost_secret _ _ _ _ Hlost Hl) as Hes.
      assert (erased_at c' n) as Hx'; [|by rewrite (erased_at_secret _ _ Hx') in Hx].
      apply (erased_at_step sha256 c c' n); [|by apply (step_erase sha256 c m)].
      unfold secret in Hes. destruct (secrets c !! N.to_nat n) as [t|] eqn:Et; [|done].
      exists t. split; [done|]. cbn in Hes. by destruct (secret_held t). }
    destruct k as [|[|k]]; [exact Hlost|exact L1|exact L1].
Qed.

Lemma lost_steps pw n d d' : lost pw n d → cli_steps pw d d' → lost pw n d'.
Proof. intros Hl H. induction H; [done|]. eauto using lost_step. Qed.
End laws.

(** * Properties *)
Section properties.
Context {C : Cbor} {CL : CborLaws C} {CS : CborSizes C}.
Context {P : Primitives} {L : PrimitivesLaws P} {A : Argon2} {U : Unicode}.

(** C8. A crash is never silent. The files of a chain that loads, after an
    advance: with no file replaced they load as the chain before; with only
    the store replaced they are refused as not belonging together, unless
    SHA-256 collides on the strings linking the two histories; with both
    replaced they load as the advanced chain, if its history is within the
    limit a reader imposes, and are refused otherwise. *)
Theorem crash_is_never_silent (d : Disk) (pw : bytes) (draws : Draws) (c : EpochChain) (ws : list Write) :
  load_epochs d pw = Ok c → draws_ok draws → epoch_advance_with d pw draws = Ok ws →
  ∃ c' n, Epoch.advance sha256 c draws.(epoch_seed) = Ok (c', n) ∧ length ws = 2%nat ∧
    load_epochs (crashed d ws 0) pw = Ok c ∧
    (load_epochs (crashed d ws 1) pw = Err StoreMismatch ∨
     collide sha256 (linked c'.(records)) (linked c.(records))) ∧
    (if lenN (encode_records c'.(records)) <=? MAX_LOG_FILE
     then load_epochs (completed d ws) pw = Ok c'
     else ∀ pw', load_epochs (completed d ws) pw' = Err TooLarge).
Proof.
  intros Hl Hd H. destruct (advance_writes _ _ _ _ _ Hl H Hd) as (c' & n & f & Ha & Hc' & -> & Hlen & Ho).
  exists c', n. split_and!; [done|done|exact Hl| |].
  - pose proof Hl as Hl'. apply load_Ok in Hl' as (Hc & Eh & Hlog & f0 & s & Ef & Ho0 & Es & Hr).
    destruct (decide (Epoch.head c' = Epoch.head c)) as [E|E].
    { right. by apply (advance_moves_head c draws.(epoch_seed) c' n). }
    left. unfold load_epochs, read_public_file, read_epoch_store, read_bounded. cbn [crashed take fold_left apply_write history store_file].
    rewrite Eh. cbn [ok_or]. rewrite !bind_of_Ok, (refuse_if_pass (MAX_LOG_FILE <? _)) by lia.
    rewrite !bind_of_Ok, (decode_chain c Hc). cbn [map_err]. rewrite bind_of_Ok.
    pose proof Hc as [-> _ _]. cbn [map_err]. rewrite bind_of_Ok.
    rewrite (refuse_if_pass (MAX_FILE_LEN <? _)) by lia. rewrite !bind_of_Ok, Ho. cbn [map_err].
    rewrite bind_of_Ok. cbn [store_of chain_head]. by rewrite bool_decide_eq_false_2.
  - unfold completed. cbn [fold_left apply_write store_file]. destruct (N.leb_spec (lenN (encode_records (records c'))) MAX_LOG_FILE).
    + by apply load_written.
    + intros pw'. unfold load_epochs, read_public_file, read_bounded. cbn [history ok_or].
      rewrite bind_of_Ok, (proj2 (N.ltb_lt _ _)) by done. done.
Qed.

(** What an erase command leaves has lost the epoch, and files that have lost
    it hold a store without it. *)
Lemma erase_loses d0 n pw draws ws :
  draws_ok draws → epoch_erase_with d0 n pw draws = Ok ws → lost pw n (completed d0 ws).
Proof.
  intros Hd H.
  destruct (load_epochs d0 pw) as [c|] eqn:Hl; [|by unfold epoch_erase_with in H; rewrite Hl in H].
  destruct (erase_writes _ _ _ _ _ _ Hl H Hd) as (c' & f' & He & Hc' & -> & _ & Hr & _ & Hlen & Ho).
  apply load_Ok in Hl as (Hc & Eh & _).
  exists (encode_records c.(records)), c.(records), f', (store_of c').
  apply lookup_lt_is_Some in Hr. split_and!; [done|by apply decode_chain|lia|done|done|].
  cbn [store_of entries]. rewrite (held_secret c' n Hc'). intros [x Hx].
  by rewrite (erased_at_secret _ _ (erase_erases _ _ _ He)) in Hx.
Qed.

Lemma lost_unreadable pw n d :
  lost pw n d →
  (∀ c, load_epochs d pw = Ok c → secret c n = Err (Erased n) ∧ is_readable c n = false) ∧
  ∃ f s, d.(store_file) = Some f ∧ EpochStore.open f pw = Ok s ∧ EpochStore.get s n = None.
Proof.
  intros Hx. split.
  - intros cd Hcd. pose proof (lost_secret _ _ _ _ Hx Hcd) as Hsec. split; [done|].
    unfold secret in Hsec. unfold is_readable. destruct (secrets cd !! N.to_nat n) as [t|]; [|done].
    cbn in Hsec. by destruct (secret_held t).
  - destruct Hx as (_ & _ & f & s & _ & _ & _ & Hf & Hop & Hnin). exists f, s. split_and!; [done..|].
    by apply map_get_None.
Qed.

(** Erasure survives restarts and crashes: once an erase command completed,
    no later sequence of commands on the files, each possibly cut short by a
    crash, leads to files from which the erased epoch can be read: the store
    opens without it, and a chain that loads reports it erased. *)
Theorem erased_epoch_never_returns (d0 d : Disk) (n : N) (pw : bytes) (draws : Draws) (ws : list Write) :
  draws_ok draws → epoch_erase_with d0 n pw draws = Ok ws → cli_steps pw (completed d0 ws) d →
  (∀ c, load_epochs d pw = Ok c → secret c n = Err (Erased n) ∧ is_readable c n = false) ∧
  ∃ f s, d.(store_file) = Some f ∧ EpochStore.open f pw = Ok s ∧ EpochStore.get s n = None.
Proof.
  intros Hd H Hs. eapply lost_unreadable, lost_steps; [by eapply erase_loses|done].
Qed.
End properties.

(** * Witnesses: a chain is started, advanced, and its first epoch erased *)
Import Cbor.Reference Crypto.Toy Keyring.Toy.

Module Samples.
Definition passphrase : bytes := text "correct horse".
Definition draws (b : byte) : Draws :=
  {| epoch_seed := Some (replicate 32 b); store_salt := Some (replicate 16 b);
     store_nonces := EpochStore.Samples.nonces |}.
Definition fallback (r : result CliError (list Write)) : list Write :=
  match r with Ok ws => ws | Err _ => [] end.
Definition empty : Disk := {| history := None; store_file := None |}.
Definition started : Disk :=
  completed empty (fallback (epoch_init_with empty passphrase (draws Byte.x05))).
Definition advanced_writes : list Write :=
  fallback (epoch_advance_with started passphrase (draws Byte.x06)).
Definition advanced : Disk := completed started advanced_writes.
Definition erase_writes : list Write :=
  fallback (epoch_erase_with advanced 0 passphrase (draws Byte.x07)).
End Samples.

Lemma sample_draws_ok b : draws_ok (Samples.draws b).
Proof.
  split; cbn.
  - intros s [= <-]. reflexivity.
  - intros i iv [= <-]. rewrite length_be. reflexivity.
Qed.

Lemma sample_fallback r : is_ok r = true → r = Ok (Samples.fallback r).
Proof. by destruct r. Qed.

Lemma sample_loads : ∃ c, load_epochs Samples.started Samples.passphrase = Ok c.
Proof. apply is_ok_true_iff. vm_compute. reflexivity. Qed.

Lemma sample_advances :
  epoch_advance_with Samples.started Samples.passphrase (Samples.draws Byte.x06)
  = Ok Samples.advanced_writes.
Proof. apply sample_fallback. vm_compute. reflexivity. Qed.

Lemma sample_erases :
  epoch_erase_with Samples.advanced 0 Samples.passphrase (Samples.draws Byte.x07)
  = Ok Samples.erase_writes.
Proof. apply sample_fallback. vm_compute. reflexivity. Qed.

Lemma crash_is_never_silent_witness :
  ∃ c c' n, load_epochs Samples.started Samples.passphrase = Ok c ∧
            Epoch.advance sha256 c (Some (replicate 32 Byte.x06)) = Ok (c', n).
Proof.
  destruct sample_loads as [c Hc].
  destruct (crash_is_never_silent Samples.started Samples.passphrase (Samples.draws Byte.x06) c
    Samples.advanced_writes Hc (sample_draws_ok _) sample_advances) as (c' & n & H & _).
  exists c, c', n. exact (conj Hc H).
Defined.

Lemma erased_epoch_never_returns_witness :
  ∃ f s, (completed Samples.advanced Samples.erase_writes).(store_file) = Some f ∧
         EpochStore.open f Samples.passphrase = Ok s ∧ EpochStore.get s 0 = None.
Proof.
  exact (proj2 (erased_epoch_never_returns Samples.advanced
    (completed Samples.advanced Samples.erase_writes) 0 Samples.passphrase (Samples.draws Byte.x07)
    Samples.erase_writes (sample_draws_ok _) sample_erases (cli_refl _ _))).
Defined.
