(* ===== verification/FileSystem.v ===== *)
(** What the commands of [hide-cli/src/main.rs] do with files: paths, bounded
    reads, staged outputs that are published without overwriting, whole-file
    replacement and passphrase prompts, as a state and error monad over the
    files. Other processes may change the files whenever a command publishes. *)
From Stdlib Require Import Strings.Byte.
From stdpp Require Import gmap.
From S2P Require Import Prelude Utf8 Crypto Stream Keyring EpochCli.
Local Open Scope N_scope.

(** * Paths, on Unix *)
Definition slash : byte := byte_of 47.

Fixpoint split_slash (piece p : bytes) : list bytes :=
  match p with
  | [] => [piece]
  | b :: p =>
      if bool_decide (b = slash) then piece :: split_slash [] p else split_slash (piece ++ [b]) p
  end.

Definition is_normal (c : bytes) : bool := negb (bool_decide (c = [])) && negb (bool_decide (c = text ".")).

(** [path.components()]: a root or a leading dot, then the names. *)
Definition components (p : bytes) : list bytes :=
  let parts := split_slash [] p in
  (if starts_with [slash] p then [text "/"]
   else if bool_decide (head parts = Some (text ".")) then [text "."] else [])
  ++ List.filter is_normal parts.

(** [PartialEq for Path] *)
Definition path_eqb (p q : bytes) : bool := bool_decide (components p = components q).

(** The file a path names in the working directory; no links are followed, so
    [..] stays as it is written. *)
Definition location (p : bytes) : list bytes :=
  List.filter (λ c, negb (bool_decide (c = text "."))) (components p).

(** [path.file_name()] *)
Definition file_name (p : bytes) : option bytes :=
  c ← last (components p);
  if existsb (λ d, bool_decide (c = d)) [text "/"; text "."; text ".."] then None else Some c.

Definition append_extension (p suffix : bytes) : bytes := p ++ text "." ++ suffix.

(** * The machine *)
Abbreviation Files := (gmap (list bytes) bytes).

(** How the machine behaves while one command runs: how the [i]th opening of a
    file delivers its bytes, how a staging file takes them, whether the [i]th
    flush and sync succeed, whether the directory syncs after a rename, what other processes do before the [i]th
    publication, what is typed at the [i]th prompt ([None] when standard input
    is no terminal) and what the [i]th call of [getrandom] gives. *)
Record Env := {
  reading : N → bytes → reader;
  sink : list write_event;
  synced : N → bool;
  directory_synced : bool;
  others : N → Files → Files;
  typed : N → option bytes;
  random : nat → option bytes;
}.

Inductive FileError :=
| Reading (e : CliError)
| Machine (e : io_error)
| NotATerminal
| TooShort
| Mismatch.

(** * Commands *)
Definition Cmd (E T : Type) : Type := Files → result E T * Files.

#[export] Instance cmd_mret E : MRet (Cmd E) := λ T a fs, (Ok a, fs).
#[export] Instance cmd_mbind E : MBind (Cmd E) := λ T U f m fs,
  match m fs with (Ok a, fs) => f a fs | (Err e, fs) => (Err e, fs) end.

(** A computation that touches no file. *)
Definition lift {E T} (m : result E T) : Cmd E T := λ fs, (m, fs).

Section machine.
Context (env : Env).

(** [prompt_passphrase] *)
Definition prompt_passphrase (i : N) : result FileError bytes := ok_or (env.(typed) i) NotATerminal.

(** [prompt_new_passphrase], asking twice. *)
Definition prompt_new_passphrase (i : N) : result FileError bytes :=
  first ← prompt_passphrase i;
  refuse_if (lenN (chars first) <? MIN_PASSPHRASE_LEN) TooShort;;
  second ← prompt_passphrase (i + 1);
  refuse_if (negb (bool_decide (first = second))) Mismatch;;
  Ok first.

(** [File::open] and what reading the file to its end gives. *)
Definition open_input (p : bytes) : Cmd FileError bytes :=
  λ fs, (ok_or (fs !! location p) (Reading Missing), fs).

Definition read_file (p : bytes) (limit : N) : Cmd FileError bytes :=
  λ fs, (map_err Reading (read_bounded limit (fs !! location p)), fs).

(** [new_output]: refuses a path that exists; the staging file has a fresh name
    and is gone unless it is published. *)
Definition new_output (p : bytes) : Cmd FileError unit :=
  λ fs, (map_err Reading (EpochCli.new_output (fs !! location p)), fs).

(** [write_all] of each part to a staging file. *)
Definition stage (parts : list bytes) : result FileError bytes :=
  w ← map_err Machine
        (fold_left (λ w b, w ← w; write_all b w) parts (Ok {| written := []; schedule := env.(sink) |}));
  Ok w.(written).

(** [commit_output], the [i]th publication of the command:
    [persist_noclobber] checks for the name again when it links the file. *)
Definition commit_output (i : N) (staged p : bytes) : Cmd FileError unit :=
  λ fs,
    if env.(synced) i then
      let fs := env.(others) i fs in
      match fs !! location p with
      | Some _ => (Err (Reading OutputExists), fs)
      | None => (Ok tt, <[location p := staged]> fs)
      end
    else (Err (Machine OtherIo), fs).

(** [write_public_file] and the end of [change_passphrase]: the file is staged,
    synced and renamed over the one before. *)
Definition rename_over (i : N) (p staged : bytes) : Cmd FileError unit :=
  λ fs,
    if env.(synced) i then
      (if env.(directory_synced) then Ok tt else Err (Machine OtherIo),
       <[location p := staged]> (env.(others) i fs))
    else (Err (Machine OtherIo), fs).

Definition replace_file (i : N) (p b : bytes) : Cmd FileError unit :=
  staged ← lift (stage [b]);
  rename_over i p staged.
End machine.

Definition cmd_map_err {E F T} (f : E → F) (m : Cmd E T) : Cmd F T :=
  λ fs, let '(r, fs) := m fs in (map_err f r, fs).

(** * Reasoning about commands *)
Section rules.
Context {E : Type}.

Lemma cmd_bind_Ok {T U} (m : Cmd E T) (f : T → Cmd E U) fs u fs' :
  (m ≫= f) fs = (Ok u, fs') ↔ ∃ a fs1, m fs = (Ok a, fs1) ∧ f a fs1 = (Ok u, fs').
Proof.
  unfold mbind, cmd_mbind. destruct (m fs) as [[a|e] fs1]; split; [by eauto|naive_solver|done|naive_solver].
Qed.

Lemma cmd_bind_of_Ok {T U} (m : Cmd E T) (f : T → Cmd E U) fs a fs1 :
  m fs = (Ok a, fs1) → (m ≫= f) fs = f a fs1.
Proof. unfold mbind, cmd_mbind. by intros ->. Qed.

Lemma cmd_bind_of_Err {T U} (m : Cmd E T) (f : T → Cmd E U) fs e fs1 :
  m fs = (Err e, fs1) → (m ≫= f) fs = (Err e, fs1).
Proof. unfold mbind, cmd_mbind. by intros ->. Qed.

Lemma lift_Ok {T} (m : result E T) a fs fs' : lift m fs = (Ok a, fs') ↔ m = Ok a ∧ fs' = fs.
Proof. unfold lift. naive_solver. Qed.

Lemma mret_Ok {T} (a b : T) fs fs' : (mret a : Cmd E T) fs = (Ok b, fs') ↔ b = a ∧ fs' = fs.
Proof. unfold mret, cmd_mret. naive_solver. Qed.

Lemma cmd_map_err_Ok {F T} (f : E → F) (m : Cmd E T) a fs fs' :
  cmd_map_err f m fs = (Ok a, fs') ↔ m fs = (Ok a, fs').
Proof.
  unfold cmd_map_err. destruct (m fs) as [[b|e] fs1]; cbn [map_err]; split; intros [= -> ->]; done.
Qed.
End rules.

Lemma open_input_Ok p b fs fs' : open_input p fs = (Ok b, fs') ↔ fs !! location p = Some b ∧ fs' = fs.
Proof. unfold open_input. destruct (fs !! location p); cbn; naive_solver. Qed.

Lemma read_file_Ok p limit b fs fs' :
  read_file p limit fs = (Ok b, fs') ↔ fs !! location p = Some b ∧ lenN b <= limit ∧ fs' = fs.
Proof.
  unfold read_file, read_bounded. destruct (fs !! location p) as [c|]; cbn [ok_or mbind result_mbind result_bind map_err].
  - destruct (N.ltb_spec limit (lenN c)); cbn; split; [done|naive_solver lia|by intros [= -> ->]|].
    by intros ([= ->] & _ & ->).
  - naive_solver.
Qed.

Lemma new_output_Ok p u fs fs' : new_output p fs = (Ok u, fs') ↔ fs !! location p = None ∧ fs' = fs.
Proof. unfold new_output, EpochCli.new_output. destruct u, (fs !! location p); cbn; naive_solver. Qed.

Lemma commit_output_Ok env i b p u fs fs' :
  commit_output env i b p fs = (Ok u, fs') ↔
  env.(synced) i = true ∧ env.(others) i fs !! location p = None ∧
  fs' = <[location p := b]> (env.(others) i fs).
Proof.
  unfold commit_output. destruct u, (env.(synced) i); [|naive_solver].
  destruct (env.(others) i fs !! location p); naive_solver.
Qed.

Lemma stage_Ok env parts b : stage env parts = Ok b → b = concat parts.
Proof.
  unfold stage. intros H. inv_ok. rename a into w, Hok into H.
  assert (∀ parts m w, fold_left (λ w b, w ← w; write_all b w) parts m = Ok w →
    ∃ w0, m = Ok w0 ∧ w.(written) = w0.(written) ++ concat parts) as Hf.
  { clear. induction parts as [|p parts IH]; intros m w H; cbn [fold_left concat] in *.
    - exists w. by rewrite app_nil_r.
    - apply IH in H as (w1 & H & ->). apply bind_Ok_iff in H as (w0 & -> & Hw).
      exists w0. split; [done|]. by rewrite (write_all_Ok _ _ _ Hw), <- app_assoc. }
  apply Hf in H as (w0 & [= <-] & ->). done.
Qed.

Lemma stage_accepting env parts :
  Forall accepting_event env.(sink) → stage env parts = Ok (concat parts).
Proof.
  intros Ha. assert (∀ w, accepting w → ∃ w',
    fold_left (λ w b, w ← w; write_all b w) parts (Ok w) = Ok w' ∧
    w'.(written) = w.(written) ++ concat parts) as Hf.
  { induction parts as [|p parts IH]; intros w Hw; cbn [fold_left concat].
    - exists w. by rewrite app_nil_r.
    - rewrite bind_of_Ok. destruct (write_all_accepting p w Hw) as (w1 & -> & E1 & H1).
      destruct (IH w1 H1) as (w2 & -> & E2). exists w2. by rewrite E2, E1, <- app_assoc. }
  unfold stage. destruct (Hf {| written := []; schedule := env.(sink) |} Ha) as (w & -> & E).
  cbn [map_err]. rewrite bind_of_Ok, E. done.
Qed.

(** Turns a successful command into the successes of its steps. *)
Ltac inv_cmd_step :=
  match goal with
  | H : (_ ≫= _) _ = (Ok _, _) |- _ =>
      let a := fresh "a" in let fs := fresh "fs" in let Ha := fresh "Hc" in
      apply cmd_bind_Ok in H as (a & fs & Ha & H)
  | H : lift _ _ = (Ok _, _) |- _ => apply lift_Ok in H as [H ?]
  | H : mret _ _ = (Ok _, _) |- _ => apply mret_Ok in H as [? ?]
  | H : cmd_map_err _ _ _ = (Ok _, _) |- _ => apply cmd_map_err_Ok in H
  | H : read_file _ _ _ = (Ok _, _) |- _ => apply read_file_Ok in H as (? & ? & ?)
  | H : open_input _ _ = (Ok _, _) |- _ => apply open_input_Ok in H as (? & ?)
  | H : FileSystem.new_output _ _ = (Ok _, _) |- _ => apply new_output_Ok in H as (? & ?)
  | H : commit_output _ _ _ _ _ = (Ok _, _) |- _ => apply commit_output_Ok in H as (? & ? & ?)
  | H : (let '(_, _) := ?p in _) _ = (Ok _, _) |- _ => is_var p; destruct p
  | H : stage _ _ = Ok _ |- _ => apply stage_Ok in H
  | _ => inv_ok_step
  end.
Ltac inv_cmd := repeat (inv_cmd_step; cbn beta iota in *); simplify_eq.

(** ** Commands that read, commands that publish *)
Section publishing.
Context (env : Env) {E : Type}.

Definition reads_only {T} (m : Cmd E T) : Prop := ∀ fs, (m fs).2 = fs.

(** Publishing complete files in order, each with its name and contents: the
    flag says that all were published. It stops at the first that cannot be
    synced or whose name is taken, and leaves nothing of that one. Between
    publications other processes act. *)
Inductive publishing : N → Files → list (bytes * bytes) → Files → bool → Prop :=
| all_published i fs : publishing i fs [] fs true
| not_synced i fs p b os : env.(synced) i = false → publishing i fs ((p, b) :: os) fs false
| name_taken i fs p b os c :
    env.(synced) i = true → env.(others) i fs !! location p = Some c →
    publishing i fs ((p, b) :: os) (env.(others) i fs) false
| published i fs p b os fs' ok :
    env.(synced) i = true → env.(others) i fs !! location p = None →
    publishing (i + 1) (<[location p := b]> (env.(others) i fs)) os fs' ok →
    publishing i fs ((p, b) :: os) fs' ok.

(** A command that only publishes these. *)
Definition commits (i : N) (fs : Files) (os : list (bytes * bytes)) {T} (m : Cmd E T) : Prop :=
  publishing i fs os (m fs).2 (is_ok (m fs).1).

(** A command that fails before it publishes anything, or publishes outputs as
    planned and succeeds exactly when all are. *)
Definition publishes_at (i : N) (fs : Files) (plan : list (bytes * bytes) → Prop) {T} (m : Cmd E T) : Prop :=
  is_ok (m fs).1 = false ∧ (m fs).2 = fs ∨ ∃ os, plan os ∧ commits i fs os m.

Definition publishes (i : N) (plan : Files → list (bytes * bytes) → Prop) {T} (m : Cmd E T) : Prop :=
  ∀ fs, publishes_at i fs (plan fs) m.

(** If other processes only add files, so does publishing. *)
Lemma publishing_adds i fs os fs' ok :
  (∀ i fs, fs ⊆ env.(others) i fs) → publishing i fs os fs' ok → fs ⊆ fs'.
Proof.
  intros Ho. induction 1 as [| | |i fs p b os fs' ok _ Hn _ IH]; [done..|apply Ho|].
  etransitivity; [apply (Ho i)|]. etransitivity; [by apply insert_subseteq|exact IH].
Qed.

(** Alone, what could not be published changed nothing. *)
Lemma publishing_one_fails i fs p b fs' :
  (∀ i fs, env.(others) i fs = fs) → publishing i fs [(p, b)] fs' false → fs' = fs.
Proof.
  intros Q H. inversion H as [|? ? ? ? ? _|? ? ? ? ? ? _ _|? ? ? ? ? ? ? _ _ H']; subst; [done|apply Q|].
  inversion H'.
Qed.

Lemma reads_lift {T} (m : result E T) : reads_only (lift m).
Proof. done. Qed.
Lemma reads_mret {T} (a : T) : reads_only (mret a).
Proof. done. Qed.
Lemma reads_bind {T U} (m : Cmd E T) (f : T → Cmd E U) :
  reads_only m → (∀ a, reads_only (f a)) → reads_only (m ≫= f).
Proof.
  intros Hm Hf fs. unfold mbind, cmd_mbind. specialize (Hm fs).
  destruct (m fs) as [[a|e] fs1]; cbn in *; subst; [apply Hf|done].
Qed.

Lemma commits_mret i fs {T} (a : T) : commits i fs [] (mret a).
Proof. constructor. Qed.

Lemma commits_cons i fs p b os {T} (inj : FileError → E) (f : unit → Cmd E T) :
  (∀ fs, commits (i + 1) fs os (f tt)) →
  commits i fs ((p, b) :: os) (cmd_map_err inj (commit_output env i b p) ≫= f).
Proof.
  intros Hf. unfold commits, mbind, cmd_mbind, cmd_map_err, commit_output.
  destruct (env.(synced) i) eqn:Es; [|by apply not_synced].
  destruct (env.(others) i fs !! location p) eqn:Ep; cbn; [by eapply name_taken|].
  eapply published; [done|done|apply Hf].
Qed.

Lemma commits_last i fs p b (inj : FileError → E) :
  commits i fs [(p, b)] (cmd_map_err inj (commit_output env i b p)).
Proof.
  unfold commits, cmd_map_err, commit_output.
  destruct (env.(synced) i) eqn:Es; [|by apply not_synced].
  destruct (env.(others) i fs !! location p) eqn:Ep; cbn; [by eapply name_taken|].
  eapply published; [done|done|constructor].
Qed.

Lemma publishes_by i fs (plan : list (bytes * bytes) → Prop) os {T} (m : Cmd E T) :
  commits i fs os m → plan os → publishes_at i fs plan m.
Proof. intros Hm Hp. right. by exists os. Qed.

(** What was read before is known when the outputs are planned. *)
Lemma publishes_after i fs plan {T U} (m : Cmd E T) (f : T → Cmd E U) :
  reads_only m → (∀ a, m fs = (Ok a, fs) → publishes_at i fs plan (f a)) →
  publishes_at i fs plan (m ≫= f).
Proof.
  intros Hm Hf. specialize (Hm fs). unfold publishes_at, commits, mbind, cmd_mbind.
  destruct (m fs) as [[a|e] fs1] eqn:Em; cbn in Hm; subst; [by apply (Hf a)|by left].
Qed.

Lemma publishes_mono i plan plan' {T} (m : Cmd E T) :
  publishes i plan m → (∀ fs os, plan fs os → plan' fs os) → publishes i plan' m.
Proof. intros Hm Hp fs. destruct (Hm fs) as [H|(os & H & K)]; [by left|right; eauto]. Qed.
End publishing.

Lemma reads_map_err {E F T} (f : E → F) (m : Cmd E T) : reads_only m → reads_only (cmd_map_err f m).
Proof. intros H fs. specialize (H fs). unfold cmd_map_err. by destruct (m fs). Qed.
Lemma reads_read_file p limit : reads_only (read_file p limit).
Proof. done. Qed.
Lemma reads_open_input p : reads_only (open_input p).
Proof. done. Qed.
Lemma reads_new_output p : reads_only (new_output p).
Proof. done. Qed.

(** ** Commands that replace a file *)

(** A failure leaves the files as they were, unless a replacement was done and
    only the directory failed to sync. *)
Definition careful (env : Env) {E T} (m : Cmd E T) : Prop :=
  ∀ fs e fs', m fs = (Err e, fs') → fs' = fs ∨ env.(directory_synced) = false.

Lemma careful_after env {E T V} (m : Cmd E T) (f : T → Cmd E V) :
  reads_only m → (∀ a, careful env (f a)) → careful env (m ≫= f).
Proof.
  intros Hm Hf fs e fs' H. unfold mbind, cmd_mbind in H. specialize (Hm fs).
  destruct (m fs) as [[a|e'] fs1]; cbn in *; subst; [by eapply Hf|left; congruence].
Qed.

Lemma replace_file_Ok env i p b u fs fs' :
  replace_file env i p b fs = (Ok u, fs') → fs' = <[location p := b]> (env.(others) i fs).
Proof.
  unfold replace_file, rename_over. intros H. inv_cmd.
  destruct (env.(synced) i), env.(directory_synced); simplify_eq/=. by rewrite app_nil_r.
Qed.

Lemma careful_replace env {E} (inj : FileError → E) i p b :
  careful env (cmd_map_err inj (replace_file env i p b)).
Proof.
  intros fs e fs'. unfold cmd_map_err, replace_file, rename_over, mbind, cmd_mbind, lift.
  destruct (stage env [b]); cbn; [|naive_solver].
  destruct (env.(synced) i), env.(directory_synced); cbn; naive_solver.
Qed.

Lemma careful_replace_then env {E T} (inj : FileError → E) i p b (a : T) :
  careful env (cmd_map_err inj (replace_file env i p b) ≫= λ _, mret a).
Proof.
  intros fs e fs' H. apply (careful_replace env inj i p b fs e fs').
  unfold mbind, cmd_mbind in H. by destruct (cmd_map_err inj (replace_file env i p b) fs) as [[?|?] ?]; simplify_eq/=.
Qed.

Create HintDb files.
#[export] Hint Resolve reads_lift reads_mret reads_read_file reads_open_input reads_new_output
  reads_map_err commits_mret commits_last careful_replace careful_replace_then : files.

(** Decides whether a command reads only or commits, step by step. *)
Ltac files_step :=
  first
    [ solve [auto with files]
    | progress intros
    | match goal with
      | |- reads_only (_ ≫= _) => apply reads_bind
      | |- commits _ _ _ _ (cmd_map_err _ (commit_output _ _ _ _) ≫= _) => apply commits_cons
      | |- careful _ (_ ≫= _) => apply careful_after
      | |- context [match ?x with _ => _ end] => destruct x
      end ].
Ltac files := repeat files_step.
