(* ===== verification/FileCli.v ===== *)
(** [hide-cli/src/main.rs], the commands that work on whole files: keys,
    containers, detached signatures, sealed messages, identity logs and opening
    with a store of epoch keys. A command is a computation over the files of
    FileSystem.v that composes the crates' own operations. *)
From Stdlib Require Import Strings.Byte.
From stdpp Require Import gmap sorting.
From S2P Require Import Prelude Utf8 Cbor Format Sign Note Crypto Stream Records Codec Object Keyring.
From S2P Require Import Epoch EpochStore EpochCli Identity Armor FileSystem.
Local Open Scope N_scope.

#[local] Existing Instance Hybrid.scheme.

Definition PUBLIC_KEY_LEN : N := 1216.
Definition MAX_KEY_FILE : N := 4096.
Definition SIGNING_PUBLIC_LEN : N := VERIFYING_KEY_LENGTH.
Definition MAX_SIGNING_KEY_FILE : N := 8192.
Definition DETACHED_CONTEXT : bytes := text "HIDE/0.5 detached".

Inductive CommandError :=
| File (e : FileError)
| Keys (e : KeyringError)
| Containers (e : ObjectError)
| Signatures (e : SignError)
| Cryptography (e : CryptoError)
| Identities (e : IdentityError)
| Epochs (e : EpochError)
| Texts (e : ArmorError)
| NotASecretKey
| NotASigningKey
| NotAPublicKey
| RecipientCount
| PredatesSignatures
| SamePaths
| NeedsSigner
| BadFilename
| NotASignature
| SignedByAnother
| EmptyMessage
| MessageNotText
| NoEpochOpens.

Abbreviation Command := (Cmd CommandError).

Section commands.
Context {C : Cbor} {SP : Sign.Primitives} {P : Crypto.Primitives}.
Context {A : Argon2} {U : Unicode} {X : Expand} {B : Base64} (env : Env).

(** ** Keys *)
Inductive LoadedKey :=
| LoadedIdentity (i : MasterIdentity)
| EncryptionOnly (s : RecipientSecret).

(** [prompt] is the number of the passphrase prompt the command is at. *)
Definition load_key (path : bytes) (prompt : N) : Command LoadedKey :=
  b ← cmd_map_err File (read_file path MAX_KEY_FILE);
  match inspect b with
  | Raw =>
      lift (refuse_if (negb (lenN b =? SEED_LEN)) NotASecretKey);;
      mret (LoadedIdentity {| Keyring.seed := b |})
  | Protected =>
      passphrase ← lift (map_err File (prompt_passphrase env prompt));
      '(s, purpose) ← lift (map_err Keys (unprotect_seed b passphrase));
      match purpose with
      | Keyring.Identity => mret (LoadedIdentity {| Keyring.seed := s |})
      | Encryption =>
          secret ← lift (map_err Cryptography (secret_from_bytes s));
          mret (EncryptionOnly secret)
      end
  end.

Definition load_secret (path : bytes) (prompt : N) : Command RecipientSecret :=
  loaded ← load_key path prompt;
  match loaded with
  | LoadedIdentity identity => lift (map_err Keys (recipient_secret identity))
  | EncryptionOnly secret => mret secret
  end.

Definition load_signing_identity (path : bytes) (prompt : N) : Command SK :=
  loaded ← load_key path prompt;
  match loaded with
  | LoadedIdentity identity => lift (map_err Signatures (Hybrid.from_bytes (signing_seed identity)))
  | EncryptionOnly _ => lift (Err PredatesSignatures)
  end.

Definition load_verifying_identity (path : bytes) : Command VK :=
  b ← cmd_map_err File (read_file path MAX_SIGNING_KEY_FILE);
  lift (refuse_if (negb (lenN b =? SIGNING_PUBLIC_LEN)) NotASigningKey);;
  lift (map_err Signatures (vk_from_bytes b)).

(** The body of [load_recipients]'s loop. *)
Definition load_recipient (path : bytes) : Command RecipientPublic :=
  b ← cmd_map_err File (read_file path MAX_KEY_FILE);
  raw ← lift (if starts_with PUBLIC_PREFIX b
              then refuse_if (negb (utf8_valid b)) NotAPublicKey;; map_err Keys (decode_public b)
              else Ok b);
  lift (refuse_if (negb (lenN raw =? PUBLIC_KEY_LEN)) NotAPublicKey);;
  lift (map_err Cryptography (public_from_bytes raw)).

Fixpoint load_each (paths : list bytes) : Command (list RecipientPublic) :=
  match paths with
  | [] => mret []
  | path :: paths => key ← load_recipient path; keys ← load_each paths; mret (key :: keys)
  end.

Definition load_recipients (paths : list bytes) : Command (list RecipientPublic) :=
  lift (refuse_if (bool_decide (paths = []) || (64 <? lenN paths)) RecipientCount);;
  load_each paths.

Definition staged (parts : list bytes) : Command bytes := lift (map_err File (stage env parts)).
Definition output_at (path : bytes) : Command unit := cmd_map_err File (FileSystem.new_output path).
Definition publish (i : N) (b path : bytes) : Command unit :=
  cmd_map_err File (commit_output env i b path).

(** [keygen]; [random] gives the master seed, then salt and nonce. The result is
    what [--armor] prints. *)
Definition keygen (secret_path public_path : bytes) (plaintext : bool)
    (signing_public_path : option bytes) : Command bytes :=
  lift (refuse_if (path_eqb secret_path public_path) SamePaths);;
  let signing_public_path := default (append_extension public_path (text "sign")) signing_public_path in
  lift (refuse_if (path_eqb signing_public_path secret_path || path_eqb signing_public_path public_path)
    SamePaths);;
  output_at secret_path;;
  output_at public_path;;
  output_at signing_public_path;;
  identity ← lift (map_err Keys (generate_identity (env.(random) 0)));
  secret ← lift (map_err Keys (recipient_secret identity));
  signing ← lift (map_err Signatures (Hybrid.from_bytes (signing_seed identity)));
  sealed ← (if (plaintext : bool) then mret identity.(Keyring.seed) else
            passphrase ← lift (map_err File (prompt_new_passphrase env 0));
            lift (map_err Keys (protect_identity identity.(Keyring.seed) passphrase
              (env.(random) 1) (env.(random) 2))));
  secret_file ← staged [sealed];
  public ← lift (map_err Cryptography (Crypto.public_key secret));
  public_file ← staged [public_to_bytes public];
  signing_file ← staged [vk_to_bytes (Sign.verifying_key signing)];
  publish 0 secret_file secret_path;;
  publish 1 signing_file signing_public_path;;
  publish 2 public_file public_path;;
  mret (encode_public (public_to_bytes public)).

Definition share (public_path : bytes) : Command bytes :=
  b ← cmd_map_err File (read_file public_path MAX_KEY_FILE);
  lift (refuse_if (negb (lenN b =? PUBLIC_KEY_LEN)) NotAPublicKey);;
  lift (map_err Cryptography (public_from_bytes b));;
  mret (encode_public b).

(** [change_passphrase]; [random] gives salt and nonce. *)
Definition change_passphrase (secret_path : bytes) : Command unit :=
  b ← cmd_map_err File (read_file secret_path MAX_KEY_FILE);
  secret ← (match inspect b with
            | Raw => lift (map_err Cryptography (secret_from_bytes b))
            | Protected =>
                current ← lift (map_err File (prompt_passphrase env 0));
                lift (map_err Keys (unprotect b current))
            end);
  passphrase ← lift (map_err File (prompt_new_passphrase env 1));
  sealed ← lift (map_err Keys (protect secret passphrase (env.(random) 0) (env.(random) 1)));
  cmd_map_err File (replace_file env 0 secret_path sealed).

(** ** Containers *)
Definition staging : writer := {| written := []; schedule := env.(sink) |}.

Definition encrypt_file (input : bytes) (recipients : list bytes) (output : bytes)
    (sign_with : option bytes) (public_signature : bool) : Command N :=
  lift (refuse_if (public_signature && bool_decide (sign_with = None)) NeedsSigner);;
  keys ← load_recipients recipients;
  b ← cmd_map_err File (open_input input);
  output_at output;;
  name ← lift (ok_or (file_name input) BadFilename);
  lift (refuse_if (negb (utf8_valid name)) BadFilename);;
  let metadata := {| filename := Some name; media_type := None; meta_signature := None;
                     meta_extensions := [] |} in
  let source := env.(reading) 0 b in
  '(n, w) ← (match sign_with with
             | None => lift (map_err Containers (encrypt env.(random) source staging keys metadata))
             | Some path =>
                 identity ← load_signing_identity path 0;
                 let placement := if public_signature then Public else Confidential in
                 lift (map_err Containers
                   (encrypt_signed env.(random) source staging keys metadata identity placement))
             end);
  publish 0 w.(written) output;;
  mret n.

Definition open_file (input secret_path output : bytes) : Command VerifiedObject :=
  secret ← load_secret secret_path 0;
  b ← cmd_map_err File (open_input input);
  output_at output;;
  '(verified, w) ← lift (map_err Containers (decrypt_to_staging (env.(reading) 0 b) staging secret));
  publish 0 w.(written) output;;
  mret verified.

(** The loop of [open_with_store], over what is held newest first; the [i]th
    attempt reads the input again. A failure to match happens before anything
    is written, so the next attempt finds the staging file empty. *)
Fixpoint try_epochs (i : N) (b : bytes) (held : list (N * RecipientSecret))
  : result CommandError (N * VerifiedObject * writer) :=
  match held with
  | [] => Err NoEpochOpens
  | (number, secret) :: held =>
      match decrypt_to_staging (env.(reading) i b) staging secret with
      | Ok (verified, w) => Ok (number, verified, w)
      | Err NoMatchingRecipient => try_epochs (i + 1) b held
      | Err e => Err (Containers e)
      end
  end.

Definition open_with_store (input : bytes) (store : EpochStore) (output : bytes)
  : Command (N * VerifiedObject) :=
  b ← cmd_map_err File (open_input input);
  output_at output;;
  '(number, verified, w) ← lift (try_epochs 0 b (rev store.(EpochStore.entries)));
  publish 0 w.(written) output;;
  mret (number, verified).

Definition open_with_epoch_store (input store_path output : bytes) : Command (N * VerifiedObject) :=
  sealed ← cmd_map_err File (read_file store_path MAX_FILE_LEN);
  passphrase ← lift (map_err File (prompt_passphrase env 0));
  store ← lift (map_err Keys (EpochStore.open sealed passphrase));
  open_with_store input store output.

(** ** Detached signatures *)
Definition detached_message (digest : bytes) (length : N) : bytes :=
  text "HIDE/0.5 detached-file" ++ digest ++ u64be length.

(** The loop of [hash_file], one event a read: an interrupted read is an error
    here, and a read of nothing is the end. *)
Fixpoint hash_loop (r : reader) (h : Hasher) (length : N) : result io_error (bytes * N) :=
  match r with
  | [] | Piece [] :: _ => Ok (hasher_finish h, length)
  | Piece b :: r => hash_loop r (hasher_update h b) (length + lenN b)
  | Interrupted :: _ | Failed :: _ => Err OtherIo
  end.

Definition hash_file (path : bytes) : Command (bytes * N) :=
  b ← cmd_map_err File (open_input path);
  lift (map_err (λ e, File (Machine e)) (hash_loop (env.(reading) 0 b) hasher_new 0)).

Definition signature_path (input : bytes) (explicit : option bytes) : bytes :=
  default (append_extension input (text "hide-sig")) explicit.

Definition sign_file (input secret_path : bytes) (output : option bytes) : Command unit :=
  let output := signature_path input output in
  identity ← load_signing_identity secret_path 0;
  output_at output;;
  '(digest, length) ← hash_file input;
  let signature := Sign.sign identity DETACHED_CONTEXT (detached_message digest length) in
  b ← staged [vk_to_bytes (Sign.verifying_key identity); signature];
  publish 0 b output.

Definition verify_file (input signer_path : bytes) (signature : option bytes) : Command unit :=
  let signature_file := signature_path input signature in
  expected ← load_verifying_identity signer_path;
  b ← cmd_map_err File (read_file signature_file MAX_SIGNING_KEY_FILE);
  lift (refuse_if (negb (lenN b =? SIGNING_PUBLIC_LEN + SIGNATURE_LENGTH)) NotASignature);;
  let embedded := take (N.to_nat SIGNING_PUBLIC_LEN) b in
  let signature := drop (N.to_nat SIGNING_PUBLIC_LEN) b in
  lift (if bool_decide (embedded = vk_to_bytes expected) then Ok tt
        else map_err Signatures (vk_from_bytes embedded);; Err SignedByAnother);;
  '(digest, length) ← hash_file input;
  lift (map_err Signatures
    (Sign.verify expected DETACHED_CONTEXT (detached_message digest length) signature)).

(** ** Sealed messages *)

(** [seal_message]: with no output the armour is printed, which is the result. *)
Definition seal_message (message : bytes) (recipients : list bytes) (output : option bytes)
  : Command (option bytes) :=
  keys ← load_recipients recipients;
  lift (refuse_if (bool_decide (message = [])) EmptyMessage);;
  let metadata := {| filename := None; media_type := Some (text "text/plain");
                     meta_signature := None; meta_extensions := [] |} in
  '(_, w) ← lift (map_err Containers
              (encrypt env.(random) (slice_reader message) {| written := []; schedule := [] |}
                 keys metadata));
  let armored := armor_message w.(written) in
  match output with
  | Some path => output_at path;; b ← staged [armored]; publish 0 b path;; mret None
  | None => mret (Some armored)
  end.

(** [unseal_message], on the text read from the input; the result is the
    message and its signer. *)
Definition unseal_message (input secret_path : bytes) : Command (bytes * option VK) :=
  s ← lift (map_err Texts (read_armored_message input));
  container ← lift (map_err Texts (dearmor_message s));
  secret ← load_secret secret_path 0;
  '(verified, w) ← lift (map_err Containers
      (decrypt_to_staging (slice_reader container) {| written := []; schedule := [] |} secret));
  lift (refuse_if (negb (utf8_valid w.(written))) MessageNotText);;
  mret (w.(written), verified.(Object.signer)).

(** ** Identity logs *)
Definition load_identity_log (log recovery : bytes) : Command IdentityLog :=
  recovery_key ← load_verifying_identity recovery;
  b ← cmd_map_err File (read_file log MAX_LOG_FILE);
  entries ← lift (map_err Identities (Identity.decode b));
  lift (map_err Identities (verify_log sha256 entries recovery_key));;
  lift (map_err Identities (from_entries sha256 entries recovery_key)).

Definition write_log (log : bytes) (l : IdentityLog) : Command unit :=
  cmd_map_err File (replace_file env 0 log (Identity.encode l.(Identity.entries))).

Definition identity_create (secret recovery label output : bytes) : Command unit :=
  founder ← load_signing_identity secret 0;
  recovery_key ← load_verifying_identity recovery;
  log ← lift (map_err Identities (Identity.create sha256 founder label recovery_key));
  write_log output log.

Definition identity_enrol (log_path secret device label recovery : bytes) : Command N :=
  log ← load_identity_log log_path recovery;
  author ← load_signing_identity secret 0;
  new_device ← load_verifying_identity device;
  '(log, at_entry) ← lift (map_err Identities (Identity.enrol sha256 log author new_device label));
  write_log log_path log;;
  mret at_entry.

Definition identity_revoke (log_path secret device recovery : bytes) : Command N :=
  log ← load_identity_log log_path recovery;
  author ← load_signing_identity secret 0;
  target ← load_verifying_identity device;
  '(log, at_entry) ← lift (map_err Identities (Identity.revoke sha256 log author (device_id sha256 target)));
  write_log log_path log;;
  mret at_entry.

(** ** A key of the chain *)

(** [hide_epoch::recipient_for] *)
Definition recipient_for (records : list EpochRecord) (number : N) : result CommandError RecipientPublic :=
  b ← map_err Epochs (recipient_bytes records number);
  map_err Cryptography (public_from_bytes b).

Definition epoch_public (number : option N) (chain_path output : bytes) : Command unit :=
  b ← cmd_map_err File (read_file chain_path MAX_LOG_FILE);
  records ← lift (map_err Epochs (decode_records b));
  lift (map_err Epochs (Epoch.verify sha256 records));;
  let number := default (lenN records - 1) number in
  public ← lift (recipient_for records number);
  output_at output;;
  b ← staged [public_to_bytes public];
  publish 0 b output.
End commands.

(** * What the commands do to the files *)
Section outputs.
Context {C : Cbor} {SP : Sign.Primitives} {P : Crypto.Primitives}.
Context {A : Argon2} {U : Unicode} {X : Expand} {B : Base64} (env : Env).

Lemma reads_Ok {T} (m : Command T) a fs fs' : reads_only m → m fs = (Ok a, fs') → fs' = fs.
Proof. intros R H. specialize (R fs). by rewrite H in R. Qed.

Lemma reads_load_key p i : reads_only (load_key env p i).
Proof. unfold load_key. files. Qed.
Hint Resolve reads_load_key : files.

Lemma reads_load_secret p i : reads_only (load_secret env p i).
Proof. unfold load_secret. files. Qed.
Lemma reads_load_signing_identity p i : reads_only (load_signing_identity env p i).
Proof. unfold load_signing_identity. files. Qed.
Lemma reads_load_verifying_identity p : reads_only (load_verifying_identity p).
Proof. unfold load_verifying_identity. files. Qed.
Lemma reads_load_recipient p : reads_only (load_recipient p).
Proof. unfold load_recipient. files. Qed.
Lemma reads_load_each ps : reads_only (load_each ps).
Proof. pose proof reads_load_recipient. induction ps; cbn [load_each]; files. Qed.
Hint Resolve reads_load_each : files.
Lemma reads_load_recipients ps : reads_only (load_recipients ps).
Proof. unfold load_recipients. files. Qed.
Lemma reads_hash_file p : reads_only (hash_file env p).
Proof. unfold hash_file. files. Qed.
Lemma reads_staged l : reads_only (staged env l).
Proof. unfold staged. files. Qed.
Lemma reads_output_at p : reads_only (output_at p).
Proof. unfold output_at. files. Qed.
Hint Resolve reads_load_secret reads_load_signing_identity reads_load_verifying_identity
  reads_load_recipients reads_hash_file reads_staged reads_output_at : files.

(** ** What a command publishes *)

(** The metadata [encrypt] writes for a file of this name. *)
Definition named (name : bytes) : Metadata :=
  {| filename := Some name; media_type := None; meta_signature := None; meta_extensions := [] |}.

Definition signs_with (sign_with : option bytes) (public_signature : bool) (fs : Files)
    (signer : option (SK * SignaturePlacement)) : Prop :=
  match sign_with with
  | None => signer = None
  | Some path => ∃ id, load_signing_identity env path 0 fs = (Ok id, fs) ∧
      signer = Some (id, if public_signature then Public else Confidential)
  end.

(** The outputs of each command that makes new files, whole: which files, in
    which order, with what in them, where the command finds the files [fs]. *)
Definition container_made (input : bytes) (recipients : list bytes) (output : bytes)
    (sign_with : option bytes) (public_signature : bool) (fs : Files) (os : list (bytes * bytes)) : Prop :=
  ∃ keys b name signer n w,
    load_recipients recipients fs = (Ok keys, fs) ∧ fs !! location input = Some b ∧
    file_name input = Some name ∧ utf8_valid name = true ∧ signs_with sign_with public_signature fs signer ∧
    encrypt_for env.(random) (env.(reading) 0 b) (staging env) keys (named name) signer = Ok (n, w) ∧
    os = [(output, w.(written))].

Definition plaintext_verified (input secret_path output : bytes) (fs : Files)
    (os : list (bytes * bytes)) : Prop :=
  ∃ secret b v w,
    load_secret env secret_path 0 fs = (Ok secret, fs) ∧ fs !! location input = Some b ∧
    decrypt_to_staging (env.(reading) 0 b) (staging env) secret = Ok (v, w) ∧
    os = [(output, w.(written))].

Definition plaintext_of_epoch (input store_path output : bytes) (fs : Files)
    (os : list (bytes * bytes)) : Prop :=
  ∃ sealed pw store b number secret i v w,
    fs !! location store_path = Some sealed ∧ env.(typed) 0 = Some pw ∧
    EpochStore.open sealed pw = Ok store ∧ (number, secret) ∈ store.(EpochStore.entries) ∧
    fs !! location input = Some b ∧
    decrypt_to_staging (env.(reading) i b) (staging env) secret = Ok (v, w) ∧
    os = [(output, w.(written))].

Definition signature_made (input secret_path : bytes) (output : option bytes) (fs : Files)
    (os : list (bytes * bytes)) : Prop :=
  ∃ id digest n,
    load_signing_identity env secret_path 0 fs = (Ok id, fs) ∧
    hash_file env input fs = (Ok (digest, n), fs) ∧
    os = [(signature_path input output, vk_to_bytes (Sign.verifying_key id)
             ++ Sign.sign id DETACHED_CONTEXT (detached_message digest n))].

Definition message_sealed (message : bytes) (recipients : list bytes) (output : option bytes)
    (fs : Files) (os : list (bytes * bytes)) : Prop :=
  ∃ keys n w,
    load_recipients recipients fs = (Ok keys, fs) ∧
    encrypt env.(random) (slice_reader message) {| written := []; schedule := [] |} keys
      {| filename := None; media_type := Some (text "text/plain"); meta_signature := None;
         meta_extensions := [] |} = Ok (n, w) ∧
    os = map (λ p, (p, armor_message w.(written))) (option_list output).

Definition epoch_key_written (number : option N) (chain_path output : bytes) (fs : Files)
    (os : list (bytes * bytes)) : Prop :=
  ∃ b records k,
    fs !! location chain_path = Some b ∧ decode_records b = Ok records ∧
    Epoch.verify sha256 records = Ok tt ∧
    recipient_for records (default (lenN records - 1) number) = Ok k ∧
    os = [(output, public_to_bytes k)].

Definition keys_made (secret_path public_path : bytes) (plaintext : bool)
    (signing_public_path : option bytes) (_ : Files) (os : list (bytes * bytes)) : Prop :=
  ∃ identity secret signing k sealed,
    generate_identity (env.(random) 0) = Ok identity ∧ recipient_secret identity = Ok secret ∧
    Hybrid.from_bytes (signing_seed identity) = Ok signing ∧ Crypto.public_key secret = Ok k ∧
    (if plaintext then sealed = identity.(Keyring.seed) else
     ∃ pw, prompt_new_passphrase env 0 = Ok pw ∧
       protect_identity identity.(Keyring.seed) pw (env.(random) 1) (env.(random) 2) = Ok sealed) ∧
    os = [(secret_path, sealed);
          (default (append_extension public_path (text "sign")) signing_public_path,
           vk_to_bytes (Sign.verifying_key signing));
          (public_path, public_to_bytes k)].

(** Walks over what a command reads to what it commits. *)
Ltac reads_first :=
  repeat first
    [ match goal with
      | |- publishes_at _ _ _ _ (cmd_map_err _ (commit_output _ _ _ _) ≫= _) => fail 1
      | |- publishes_at _ _ _ _ (_ ≫= _) => apply publishes_after; [solve [files]|intros ? ?]
      end
    | match goal with |- publishes_at _ _ _ _ (let '(_, _) := ?p in _) => destruct p end ];
  inv_cmd.
Ltac then_commits := eapply publishes_by; [solve [files]|].

Lemma encrypt_file_publishes input rs output sw pub :
  publishes env 0 (container_made input rs output sw pub) (encrypt_file env input rs output sw pub).
Proof.
  intros fs. unfold encrypt_file, publish, output_at. reads_first. then_commits. b2p.
  destruct sw as [path|]; inv_cmd.
  - match goal with H : load_signing_identity _ _ _ _ = _ |- _ =>
      pose proof (reads_Ok _ _ _ _ (reads_load_signing_identity path 0) H); subst end.
    eexists _, _, _, _, _, _. split_and!; [eassumption..|by eexists|eassumption|done].
  - eexists _, _, _, None, _, _. split_and!; [eassumption..|done|eassumption|done].
Qed.

Lemma open_file_publishes input secret_path output :
  publishes env 0 (plaintext_verified input secret_path output) (open_file env input secret_path output).
Proof.
  intros fs. unfold open_file, publish, output_at. reads_first. then_commits.
  eexists _, _, _, _. split_and!; [eassumption..|done].
Qed.

Lemma try_epochs_held i b held number v w :
  try_epochs env i b held = Ok (number, v, w) →
  ∃ j secret, (number, secret) ∈ held ∧
    decrypt_to_staging (env.(reading) j b) (staging env) secret = Ok (v, w).
Proof.
  revert i. induction held as [|[m s] held IH]; intros i; cbn [try_epochs]; [done|].
  destruct (decrypt_to_staging _ _ s) as [[v' w']|[]] eqn:Ed; try done.
  - intros [= <- <- <-]. exists i, s. split; [apply list_elem_of_here|done].
  - intros (j & secret & Hin & Hd)%IH. exists j, secret. split; [by apply list_elem_of_further|done].
Qed.

Lemma open_with_epoch_store_publishes input store_path output :
  publishes env 0 (plaintext_of_epoch input store_path output)
    (open_with_epoch_store env input store_path output).
Proof.
  intros fs. unfold open_with_epoch_store, open_with_store, publish, output_at, prompt_passphrase.
  reads_first. then_commits.
  match goal with H : try_epochs _ _ _ _ = Ok _ |- _ =>
    apply try_epochs_held in H as (i & secret & Hin & Hd) end.
  rewrite list_elem_of_In, <- in_rev, <- list_elem_of_In in Hin.
  eexists _, _, _, _, _, secret, i, _, _. split_and!; [eassumption..|done].
Qed.

Lemma sign_file_publishes input secret_path output :
  publishes env 0 (signature_made input secret_path output) (sign_file env input secret_path output).
Proof.
  intros fs. unfold sign_file, publish, output_at, staged. reads_first. then_commits.
  eexists _, _, _. split_and!; [eassumption..|cbn [concat]; by rewrite app_nil_r].
Qed.

Lemma seal_message_publishes message rs output :
  publishes env 0 (message_sealed message rs output) (seal_message env message rs output).
Proof.
  intros fs. unfold seal_message, publish, output_at, staged. destruct output as [p|]; reads_first; then_commits;
    (eexists _, _, _; split_and!; [eassumption..|cbn [concat option_list map]; by rewrite ?app_nil_r]).
Qed.

Lemma epoch_public_publishes number chain_path output :
  publishes env 0 (epoch_key_written number chain_path output) (epoch_public env number chain_path output).
Proof.
  intros fs. unfold epoch_public, publish, output_at, staged. reads_first. then_commits.
  eexists _, _, _. split_and!; [eassumption..|cbn [concat]; by rewrite app_nil_r].
Qed.

Lemma keygen_publishes secret_path public_path plaintext o :
  publishes env 0 (keys_made secret_path public_path plaintext o)
    (keygen env secret_path public_path plaintext o).
Proof.
  intros fs. unfold keygen, publish, output_at, staged. reads_first. then_commits.
  eexists _, _, _, _, _. split_and!; [eassumption..| |cbn [concat]; by rewrite !app_nil_r].
  destruct plaintext; inv_cmd; [done|eauto].
Qed.

(** What each command publishes; the last three only read. *)
Lemma commands_publish :
  (∀ i rs o s pub, publishes env 0 (container_made i rs o s pub) (encrypt_file env i rs o s pub)) ∧
  (∀ i s o, publishes env 0 (plaintext_verified i s o) (open_file env i s o)) ∧
  (∀ i s o, publishes env 0 (plaintext_of_epoch i s o) (open_with_epoch_store env i s o)) ∧
  (∀ i s o, publishes env 0 (signature_made i s o) (sign_file env i s o)) ∧
  (∀ m rs o, publishes env 0 (message_sealed m rs o) (seal_message env m rs o)) ∧
  (∀ n c o, publishes env 0 (epoch_key_written n c o) (epoch_public env n c o)) ∧
  (∀ s p plain o, publishes env 0 (keys_made s p plain o) (keygen env s p plain o)) ∧
  (∀ i s o, reads_only (verify_file env i s o)) ∧
  (∀ i s, reads_only (unseal_message env i s)) ∧
  (∀ p, reads_only (share p)).
Proof.
  split_and!; intros;
    auto using encrypt_file_publishes, open_file_publishes, open_with_epoch_store_publishes, sign_file_publishes,
      seal_message_publishes, epoch_public_publishes, keygen_publishes.
  - unfold verify_file. files.
  - unfold unseal_message. files.
  - unfold share. files.
Qed.

(** Their names alone. *)
Definition named_as (ps : list bytes) (_ : Files) (os : list (bytes * bytes)) : Prop := os.*1 = ps.

Lemma commands_publish_names :
  (∀ i rs o s pub, publishes env 0 (named_as [o]) (encrypt_file env i rs o s pub)) ∧
  (∀ i s o, publishes env 0 (named_as [o]) (open_file env i s o)) ∧
  (∀ i s o, publishes env 0 (named_as [o]) (open_with_epoch_store env i s o)) ∧
  (∀ i s o, publishes env 0 (named_as [signature_path i o]) (sign_file env i s o)) ∧
  (∀ m rs o, publishes env 0 (named_as (option_list o)) (seal_message env m rs o)) ∧
  (∀ n c o, publishes env 0 (named_as [o]) (epoch_public env n c o)) ∧
  (∀ s p plain o, publishes env 0 (named_as [s; default (append_extension p (text "sign")) o; p])
     (keygen env s p plain o)).
Proof.
  destruct commands_publish as (He & Ho & Hs & Hg & Hm & Hp & Hk & _).
  split_and!; intros; (eapply publishes_mono; [auto|]); unfold container_made, plaintext_verified,
    plaintext_of_epoch, signature_made, message_sealed, epoch_key_written, keys_made, named_as;
    intros fs os H; repeat match goal with
      | H : ∃ _, _ |- _ => destruct H as [? H]
      | H : _ ∧ _ |- _ => destruct H as [_ H]
      end; subst; try done.
  by destruct o.
Qed.

(** C13. Outputs appear whole or not at all, and never over a file. Whatever
    a command is given and wherever it fails (a bad key, a wrong passphrase, a
    forged or truncated container, a full disk, a file another process put
    there meanwhile): either it failed before it published anything, and changed
    no file; or everything it was to publish was ready and whole, a container for
    the recipients, plaintext that was authenticated to its end, the signature,
    the keys that belong together, and it published these files in order at free
    names, succeeding exactly when all of them were published, and otherwise
    stopping at one that could not be synced or whose name was taken. Reading
    commands write nothing. Hence no command takes a file away, and one with a
    single output that fails, alone, leaves the files as they were. *)
Theorem outputs_all_or_nothing :
  (∀ i rs o s pub, publishes env 0 (container_made i rs o s pub) (encrypt_file env i rs o s pub)) ∧
  (∀ i s o, publishes env 0 (plaintext_verified i s o) (open_file env i s o)) ∧
  (∀ i s o, publishes env 0 (plaintext_of_epoch i s o) (open_with_epoch_store env i s o)) ∧
  (∀ i s o, publishes env 0 (signature_made i s o) (sign_file env i s o)) ∧
  (∀ m rs o, publishes env 0 (message_sealed m rs o) (seal_message env m rs o)) ∧
  (∀ n c o, publishes env 0 (epoch_key_written n c o) (epoch_public env n c o)) ∧
  (∀ s p plain o, publishes env 0 (keys_made s p plain o) (keygen env s p plain o)) ∧
  (∀ i s o, reads_only (verify_file env i s o)) ∧
  (∀ i s, reads_only (unseal_message env i s)) ∧
  (∀ p, reads_only (share p)) ∧
  (∀ i fs os fs' ok, (∀ i fs, fs ⊆ env.(others) i fs) → publishing env i fs os fs' ok → fs ⊆ fs') ∧
  (∀ i fs p b fs', (∀ i fs, env.(others) i fs = fs) → publishing env i fs [(p, b)] fs' false → fs' = fs).
Proof.
  destruct commands_publish as (? & ? & ? & ? & ? & ? & ? & ? & ? & ?).
  split_and!; [done..| |]; intros; [by eapply publishing_adds|by eapply publishing_one_fails].
Qed.
End outputs.
#[export] Hint Resolve reads_load_key reads_load_secret reads_load_signing_identity
  reads_load_verifying_identity reads_load_recipients reads_hash_file : files.

(** * Key files *)
#[local] Existing Instance Hybrid.scheme_laws.

Section keys.
Context {C : Cbor} {SP : Sign.Primitives} {SL : Sign.PrimitivesLaws SP}.
Context {P : Crypto.Primitives} {L : Crypto.PrimitivesLaws P}.
Context {A : Argon2} {U : Unicode} {X : Expand} {XL : ExpandLaws X} {B : Base64} {BL : Base64Laws B}.

(** No other process touches the files meanwhile. *)
Definition quiet (env : Env) : Prop := ∀ i fs, env.(others) i fs = fs.

(** A file that holds the master seed [s], raw or sealed under what is typed at
    prompt [i]. *)
Definition holds_identity (env : Env) (i : N) (f s : bytes) : Prop :=
  lenN f <= MAX_KEY_FILE ∧
  (inspect f = Raw ∧ f = s ∧ lenN s = SEED_LEN ∨
   inspect f = Protected ∧ ∃ pw, env.(typed) i = Some pw ∧ unprotect_seed f pw = Ok (s, Keyring.Identity)).

Lemma read_file_here fs p f limit :
  fs !! location p = Some f → lenN f <= limit →
  cmd_map_err File (read_file p limit) fs = (Ok f, fs).
Proof. intros Hf Hl. apply cmd_map_err_Ok. by apply read_file_Ok. Qed.

Lemma lift_of {T} (m : result CommandError T) a fs : m = Ok a → lift m fs = (Ok a, fs).
Proof. by intros ->. Qed.

Lemma load_key_identity env p i fs f s :
  fs !! location p = Some f → holds_identity env i f s →
  load_key env p i fs = (Ok (LoadedIdentity {| Keyring.seed := s |}), fs).
Proof.
  intros Hf [Hl H]. unfold load_key. rewrite (cmd_bind_of_Ok _ _ _ _ _ (read_file_here _ _ _ _ Hf Hl)).
  destruct H as [(-> & -> & Hs)|(-> & pw & Hpw & Hu)].
  - rewrite (refuse_if_pass (negb _)) by lia. done.
  - rewrite (cmd_bind_of_Ok _ _ _ pw fs) by (apply lift_of; unfold prompt_passphrase; by rewrite Hpw).
    by rewrite (cmd_bind_of_Ok _ _ _ (s, Keyring.Identity) fs) by (apply lift_of; by rewrite Hu).
Qed.

Lemma secret_of_32 b : lenN b = SEED_LEN → secret_from_bytes b = Ok {| recipient_seed := b |}.
Proof. intros H. unfold secret_from_bytes, require_length, KEY_LENGTH, SEED_LEN in *. by rewrite H. Qed.

(** The two keys of the master seed [s]. *)
Definition encryption_key (s : bytes) : RecipientSecret := {| recipient_seed := expand_seed s ENCRYPTION_INFO |}.
Definition signing_key (s : bytes) : SK := Hybrid.from_seed (expand_seed s SIGNING_INFO).

Lemma recipient_secret_of s : recipient_secret {| Keyring.seed := s |} = Ok (encryption_key s).
Proof.
  unfold recipient_secret, derive_seed. cbn [Keyring.seed].
  by rewrite secret_of_32 by apply expand_seed_length.
Qed.

Lemma signing_identity_of s :
  Hybrid.from_bytes (signing_seed {| Keyring.seed := s |}) = Ok (signing_key s).
Proof.
  unfold signing_seed, derive_seed, Hybrid.from_bytes. cbn [Keyring.seed].
  rewrite (proj2 (Hybrid.require_length_Ok_iff _ _ _ tt)); [done|].
  by rewrite expand_seed_length.
Qed.

Lemma load_identity env p i fs f s :
  fs !! location p = Some f → holds_identity env i f s →
  load_secret env p i fs = (Ok (encryption_key s), fs) ∧
  load_signing_identity env p i fs = (Ok (signing_key s), fs).
Proof.
  intros Hf H. pose proof (load_key_identity _ _ _ _ _ _ Hf H) as Hk.
  unfold load_secret, load_signing_identity. rewrite !(cmd_bind_of_Ok _ _ _ _ _ Hk).
  by rewrite recipient_secret_of, signing_identity_of.
Qed.

Lemma load_encryption_only env p i fs f pw s :
  fs !! location p = Some f → lenN f <= MAX_KEY_FILE → inspect f = Protected →
  env.(typed) i = Some pw → unprotect_seed f pw = Ok (s, Encryption) → lenN s = SEED_LEN →
  load_secret env p i fs = (Ok {| recipient_seed := s |}, fs) ∧
  load_signing_identity env p i fs = (Err PredatesSignatures, fs).
Proof.
  intros Hf Hl Hi Hpw Hu Hs.
  assert (load_key env p i fs = (Ok (EncryptionOnly {| recipient_seed := s |}), fs)) as Hk.
  { unfold load_key. rewrite (cmd_bind_of_Ok _ _ _ _ _ (read_file_here _ _ _ _ Hf Hl)), Hi.
    rewrite (cmd_bind_of_Ok _ _ _ pw fs) by (apply lift_of; unfold prompt_passphrase; by rewrite Hpw).
    rewrite (cmd_bind_of_Ok _ _ _ (s, Encryption) fs) by (apply lift_of; by rewrite Hu).
    by rewrite secret_of_32. }
  unfold load_secret, load_signing_identity. by rewrite !(cmd_bind_of_Ok _ _ _ _ _ Hk).
Qed.

(** What [getrandom] gives [keygen]: a master seed, a salt and a nonce. *)
Definition keygen_draws (env : Env) : Prop :=
  (∀ b, env.(random) 0 = Some b → lenN b = SEED_LEN) ∧
  (∀ b, env.(random) 1 = Some b → lenN b = SALT_LEN) ∧
  (∀ b, env.(random) 2 = Some b → lenN b = NONCE_LEN).

Lemma keygen_Ok env s_path p_path plaintext o fs armor fs' :
  let o_path := default (append_extension p_path (text "sign")) o in
  quiet env → keygen env s_path p_path plaintext o fs = (Ok armor, fs') →
  ∃ s f k, env.(random) 0 = Some s ∧ Crypto.public_key (encryption_key s) = Ok k ∧
    armor = encode_public (public_to_bytes k) ∧
    (if plaintext then f = s else
     ∃ pw, env.(typed) 0 = Some pw ∧
       protect_seed s pw Keyring.Identity (env.(random) 1) (env.(random) 2) = Ok f) ∧
    fs !! location s_path = None ∧ fs !! location o_path = None ∧ fs !! location p_path = None ∧
    NoDup [location s_path; location o_path; location p_path] ∧
    fs' = <[location p_path := public_to_bytes k]>
            (<[location o_path := vk_to_bytes (Sign.verifying_key (signing_key s))]>
              (<[location s_path := f]> fs)).
Proof.
  intros o_path Q H. subst o_path. unfold keygen, output_at, publish, staged, generate_identity in H. inv_cmd.
  match goal with H : recipient_secret {| Keyring.seed := ?s |} = Ok _ |- _ =>
    rewrite recipient_secret_of in H; apply Ok_inj in H as <-; rename s into seed end.
  match goal with H : Hybrid.from_bytes _ = Ok _ |- _ =>
    rewrite signing_identity_of in H; apply Ok_inj in H as <- end.
  rewrite !Q in *.
  match goal with H : (if plaintext then _ else _) fs = (Ok ?f, ?fs1) |- _ =>
    rename H into Hf;
    assert (fs1 = fs ∧ if plaintext then f = seed else ∃ pw, env.(typed) 0 = Some pw ∧
      protect_seed seed pw Keyring.Identity (env.(random) 1) (env.(random) 2) = Ok f) as [-> Hf']
  end.
  { destruct plaintext; inv_cmd; [done|]. split; [done|].
    unfold prompt_new_passphrase, prompt_passphrase in *. inv_cmd. by eexists. }
  rewrite !lookup_insert_None in *. destruct_and!.
  match goal with H : Crypto.public_key _ = Ok ?k, Hf : _ = (Ok ?f, _) |- _ => exists seed, f, k end.
  cbn [concat]. rewrite !app_nil_r. split_and!; try done.
  rewrite !NoDup_cons, !not_elem_of_cons. split_and!; try done; try apply not_elem_of_nil. apply NoDup_nil_2.
Qed.

Lemma sealed_holds env i s pw pw' file salt nonce :
  protect_seed s pw Keyring.Identity salt nonce = Ok file →
  (∀ b, salt = Some b → lenN b = SALT_LEN) → (∀ b, nonce = Some b → lenN b = NONCE_LEN) →
  nfc pw' = nfc pw → env.(typed) i = Some pw' → holds_identity env i file s.
Proof.
  intros H Hs Hn Hpw Ht. assert (∃ sa no, salt = Some sa ∧ nonce = Some no) as (sa & no & -> & ->).
  { unfold protect_seed in H. inv_ok. by do 2 eexists. }
  destruct (unprotect_protect _ _ _ _ _ _ pw' H) as (Hl & Hi & Hu); [by apply Hs|by apply Hn|done|].
  split; [rewrite Hl; done|]. right. split; [done|]. by exists pw'.
Qed.

Lemma load_verifying fs p (k : VK) :
  fs !! location p = Some (vk_to_bytes k) → load_verifying_identity p fs = (Ok k, fs).
Proof.
  intros Hf. pose proof (length_vk_to_bytes k) as Hl. unfold load_verifying_identity.
  rewrite (cmd_bind_of_Ok _ _ _ _ _ (read_file_here _ _ _ MAX_SIGNING_KEY_FILE Hf ltac:(rewrite Hl; done))).
  rewrite (refuse_if_pass (negb _)) by (unfold SIGNING_PUBLIC_LEN; lia).
  rewrite (cmd_bind_of_Ok _ _ _ tt fs) by done. by rewrite vk_from_to_bytes.
Qed.

Lemma load_one_recipient fs p f k :
  fs !! location p = Some f → lenN f <= MAX_KEY_FILE → public_from_bytes (public_to_bytes k) = Ok k →
  f = public_to_bytes k ∧ starts_with PUBLIC_PREFIX f = false ∨ f = encode_public (public_to_bytes k) →
  load_recipients [p] fs = (Ok [k], fs).
Proof.
  intros Hf Hl Hk H. pose proof (hpke_public_length k.(hpke_public)) as Hlen.
  assert (load_recipient p fs = (Ok k, fs)) as Hr.
  { unfold load_recipient. rewrite (cmd_bind_of_Ok _ _ _ _ _ (read_file_here _ _ _ _ Hf Hl)).
    rewrite (cmd_bind_of_Ok _ _ _ (public_to_bytes k) fs).
    2:{ apply lift_of. destruct H as [[-> ->]| ->]; [done|].
        by rewrite starts_with_public, encode_public_utf8, decode_encode_public. }
    rewrite (refuse_if_pass (negb _)) by (unfold public_to_bytes, PUBLIC_KEY_LEN; lia).
    rewrite (cmd_bind_of_Ok _ _ _ tt fs) by done. by rewrite Hk. }
  unfold load_recipients. rewrite (cmd_bind_of_Ok _ _ _ tt fs) by done. cbn [load_each].
  by rewrite (cmd_bind_of_Ok _ _ _ _ _ Hr).
Qed.

(** The files of a new identity belong together. After [keygen] the
    secret file holds one master seed, readable under every spelling of the
    passphrase (at once when stored in plain); the encryption key loaded from
    it has exactly the public key of the public file, which others load as a
    recipient in raw or armoured form; the signing key loaded from it is
    verified by exactly the key of the signing file; the files are three
    different ones and none existed before. *)
Theorem keygen_files_agree env s_path p_path plaintext o fs armor fs' :
  let o_path := default (append_extension p_path (text "sign")) o in
  quiet env → keygen_draws env → keygen env s_path p_path plaintext o fs = (Ok armor, fs') →
  ∃ s secret signing k,
    env.(random) 0 = Some s ∧ Crypto.public_key secret = Ok k ∧
    NoDup [location s_path; location o_path; location p_path] ∧
    (∀ p, p ∈ [s_path; o_path; p_path] → fs !! location p = None) ∧
    (∀ p, location p ∉ [location s_path; location o_path; location p_path] →
       fs' !! location p = fs !! location p) ∧
    (∀ env' i,
       (if plaintext then inspect s = Raw
        else ∃ pw pw', env.(typed) 0 = Some pw ∧ env'.(typed) i = Some pw' ∧ nfc pw' = nfc pw) →
       load_secret env' s_path i fs' = (Ok secret, fs') ∧
       load_signing_identity env' s_path i fs' = (Ok signing, fs')) ∧
    load_verifying_identity o_path fs' = (Ok (Sign.verifying_key signing), fs') ∧
    (public_from_bytes (public_to_bytes k) = Ok k →
       (starts_with PUBLIC_PREFIX (public_to_bytes k) = false →
          load_recipients [p_path] fs' = (Ok [k], fs')) ∧
       ∀ p fs'', fs'' !! location p = Some armor → lenN armor <= MAX_KEY_FILE →
          load_recipients [p] fs'' = (Ok [k], fs'')).
Proof.
  intros o_path Q (D0 & D1 & D2) H.
  destruct (keygen_Ok _ _ _ _ _ _ _ _ Q H) as (s & f & k & Hs & Hk & -> & Hf & N1 & N2 & N3 & ND & ->).
  fold o_path in N2, ND |- *.
  exists s, (encryption_key s), (signing_key s), k.
  apply NoDup_cons in ND as [Nd1 ND]. apply NoDup_cons in ND as [Nd2 _].
  rewrite !not_elem_of_cons in *. destruct_and!.
  match goal with |- context [load_secret _ _ _ ?m] => set (fs' := m) in * end.
  assert (fs' !! location s_path = Some f) as L1 by (unfold fs'; by simplify_map_eq).
  assert (fs' !! location o_path = Some (vk_to_bytes (Sign.verifying_key (signing_key s)))) as L2
    by (unfold fs'; by simplify_map_eq).
  assert (fs' !! location p_path = Some (public_to_bytes k)) as L3 by (unfold fs'; by simplify_map_eq).
  split_and!; [done|done| | | | | |].
  - rewrite !NoDup_cons, !not_elem_of_cons. split_and!; try done; try apply not_elem_of_nil. apply NoDup_nil_2.
  - intros p. rewrite !elem_of_cons, elem_of_nil. naive_solver.
  - intros p. rewrite !not_elem_of_cons. intros (? & ? & ? & _). unfold fs'. by simplify_map_eq.
  - intros env' i Hi. apply (load_identity env' s_path i fs' f s L1). destruct plaintext; simplify_eq.
    + specialize (D0 s Hs). unfold SEED_LEN in D0. split; [unfold MAX_KEY_FILE; lia|by left].
    + destruct Hf as (pw0 & E0 & Hf), Hi as (pw & pw' & E1 & E2 & En).
      rewrite E0 in E1. injection E1 as <-. by apply (sealed_holds env' i s pw0 pw' f _ _ Hf D1 D2).
  - by apply load_verifying.
  - intros Hk'. pose proof (hpke_public_length k.(hpke_public)). split.
    + intros Hp. eapply load_one_recipient; [exact L3| |done|by left].
      unfold public_to_bytes, MAX_KEY_FILE. lia.
    + intros p fs'' Hp Hl. by eapply load_one_recipient; [exact Hp|done|done|right].
Qed.

Definition passwd_draws (env : Env) : Prop :=
  (∀ b, env.(random) 0 = Some b → lenN b = SALT_LEN) ∧
  (∀ b, env.(random) 1 = Some b → lenN b = NONCE_LEN).

(** The secret [passwd] found, and what the file was to the other commands. *)
Lemma passwd_reads env path fs f secret fs1 :
  fs !! location path = Some f → lenN f <= MAX_KEY_FILE →
  match inspect f with
  | Raw => lift (map_err Cryptography (secret_from_bytes f))
  | Protected =>
      current ← lift (map_err File (prompt_passphrase env 0));
      lift (map_err Keys (unprotect f current))
  end fs = (Ok secret, fs1) →
  let s := recipient_seed secret in
  fs1 = fs ∧ lenN s = SEED_LEN ∧
  (inspect f = Raw ∧ s = f ∧
     load_secret env path 0 fs = (Ok (encryption_key f), fs) ∧
     load_signing_identity env path 0 fs = (Ok (signing_key f), fs) ∨
   inspect f = Protected ∧
     load_secret env path 0 fs = (Ok {| recipient_seed := s |}, fs) ∧
     load_signing_identity env path 0 fs = (Err PredatesSignatures, fs)).
Proof.
  intros Hf Hl H. destruct (inspect f) eqn:Ei; unfold unprotect, prompt_passphrase in H; inv_cmd.
  - b2p. subst. match goal with H : crypto (secret_from_bytes ?b) = Ok _ |- _ =>
      apply map_err_Ok_iff in H as Hs; assert (lenN b = SEED_LEN) as Hb end.
    { unfold secret_from_bytes, require_length in Hs. inv_ok. by b2p. }
    rewrite secret_of_32 in Hs by done. apply Ok_inj in Hs as <-. cbn [recipient_seed].
    split_and!; [done|done|]. right. split; [done|]. by eapply load_encryption_only.
  - match goal with H : secret_from_bytes ?b = Ok _ |- _ => assert (lenN b = SEED_LEN) as Hb end.
    { unfold secret_from_bytes, require_length in *. inv_ok. by b2p. }
    rewrite secret_of_32 in * by done. inv_ok. split_and!; [done|done|]. left. split_and!; [done|done| |];
      eapply load_identity; [done|split; [done|by left]|done|split; [done|by left]].
Qed.

(** C25. What [passwd] does, and to which keys. A sealed identity, the kind of
    file [keygen] writes, is always refused, and nothing is written. A sealed
    encryption-only key is sealed anew and yields the same secret. A raw file
    does not: before, its bytes are a master seed, with an encryption key and a
    signing key derived from it; after, the same bytes are the encryption key
    itself and there is no signing key. A failure leaves every file as it was,
    unless only the directory failed to sync. *)
Theorem passwd_outcomes env path fs f :
  quiet env → passwd_draws env → fs !! location path = Some f → lenN f <= MAX_KEY_FILE →
  (∀ current s, inspect f = Protected → env.(typed) 0 = Some current →
     unprotect_seed f current = Ok (s, Keyring.Identity) →
     change_passphrase env path fs = (Err (Keys (WrongPurpose Encryption Keyring.Identity)), fs)) ∧
  (∀ fs', change_passphrase env path fs = (Ok tt, fs') →
     ∃ s pw, env.(typed) 1 = Some pw ∧ env.(typed) 2 = Some pw ∧
       (inspect f = Raw ∧ s = f ∧
          load_secret env path 0 fs = (Ok (encryption_key f), fs) ∧
          load_signing_identity env path 0 fs = (Ok (signing_key f), fs) ∨
        inspect f = Protected ∧
          load_secret env path 0 fs = (Ok {| recipient_seed := s |}, fs) ∧
          load_signing_identity env path 0 fs = (Err PredatesSignatures, fs)) ∧
       ∀ env' i pw', env'.(typed) i = Some pw' → nfc pw' = nfc pw →
         load_secret env' path i fs' = (Ok {| recipient_seed := s |}, fs') ∧
         load_signing_identity env' path i fs' = (Err PredatesSignatures, fs')) ∧
  (∀ e fs', change_passphrase env path fs = (Err e, fs') → fs' = fs ∨ env.(directory_synced) = false).
Proof.
  intros Q [D0 D1] Hf Hl. split_and!.
  - intros current s Hi Ht Hu. unfold change_passphrase.
    rewrite (cmd_bind_of_Ok _ _ _ _ _ (read_file_here _ _ _ _ Hf Hl)), Hi.
    apply cmd_bind_of_Err with (fs1 := fs).
    rewrite (cmd_bind_of_Ok _ _ _ current fs) by (apply lift_of; unfold prompt_passphrase; by rewrite Ht).
    unfold unprotect. by rewrite Hu.
  - intros fs' H. unfold change_passphrase in H. inv_cmd.
    match goal with H : replace_file _ _ _ _ _ = _ |- _ => apply replace_file_Ok in H; rewrite Q in H; subst end.
    unfold prompt_new_passphrase, prompt_passphrase, protect, expose_seed_for_sealing in *. inv_ok. b2p.
    match goal with H : _ fs = (Ok ?secret, _) |- _ =>
      destruct (passwd_reads env path fs f secret _ Hf Hl H) as (-> & Hs & Hold) end.
    match goal with H : protect_seed ?x ?pw _ _ _ = Ok ?g |- _ => exists x, pw; rename H into Hp end.
    split_and!; [done|by subst|done|]. intros env' i pw' Ht Hn.
    assert (∃ sa no, env.(random) 0 = Some sa ∧ env.(random) 1 = Some no) as (sa & no & Esa & Eno).
    { unfold protect_seed in Hp. inv_ok. by do 2 eexists. }
    rewrite Esa, Eno in Hp.
    destruct (unprotect_protect _ _ _ _ _ _ pw' Hp (D0 _ Esa) (D1 _ Eno) Hn) as (Hlen & Hi & Hu).
    eapply load_encryption_only; [apply lookup_insert_eq|rewrite Hlen; done|done..].
  - assert (careful env (change_passphrase env path)) as Hc; [|by intros; eapply Hc].
    unfold change_passphrase. files.
Qed.

(** ** Detached signatures *)

(** Reads of files are not interrupted and do not fail. *)
Definition steady_event (e : read_event) : Prop := match e with Piece b => b ≠ [] | _ => False end.
Definition steady (env : Env) : Prop :=
  ∀ i b, Forall steady_event (env.(reading) i b) ∧ contents (env.(reading) i b) = b.

Lemma hash_loop_steady r h n :
  Forall steady_event r → hash_loop r h n = Ok (sha256 (h ++ contents r), n + lenN (contents r)).
Proof.
  intros F. revert h n. induction F as [|e r He _ IH]; intros h n; cbn [hash_loop contents].
  - rewrite app_nil_r. do 2 f_equal. cbn. lia.
  - destruct e as [b| |]; [|done..]. cbn in He. destruct b as [|x b]; [done|].
    rewrite IH. unfold hasher_update. rewrite <- app_assoc. do 2 f_equal. rewrite length_app. lia.
Qed.

Lemma hash_file_Ok env p fs b :
  steady env → fs !! location p = Some b → hash_file env p fs = (Ok (sha256 b, lenN b), fs).
Proof.
  intros S Hb. destruct (S 0 b) as [F E]. unfold hash_file.
  rewrite (cmd_bind_of_Ok _ _ _ b fs) by by apply cmd_map_err_Ok, open_input_Ok.
  apply lift_of. rewrite hash_loop_steady by done. cbn [map_err app hasher_new]. rewrite E. do 2 f_equal.
Qed.

Lemma load_verifying_Ok fs fs' p (k : VK) :
  load_verifying_identity p fs = (Ok k, fs') ↔ fs' = fs ∧ fs !! location p = Some (vk_to_bytes k).
Proof.
  split; [|intros [-> H]; by apply load_verifying].
  intros H. unfold load_verifying_identity in H. inv_cmd.
  match goal with H : vk_from_bytes _ = Ok _ |- _ => apply vk_to_from_bytes in H as -> end. done.
Qed.

Definition signature_of (k : VK) (b sg : bytes) : Prop :=
  Sign.verify k DETACHED_CONTEXT (detached_message (sha256 b) (lenN b)) sg = Ok tt.

(** What [verify] reads and checks. *)
Lemma verify_file_Ok env input signer o fs fs' :
  steady env →
  (verify_file env input signer o fs = (Ok tt, fs') ↔
   fs' = fs ∧ ∃ k b sg, fs !! location signer = Some (vk_to_bytes k) ∧ fs !! location input = Some b ∧
     fs !! location (signature_path input o) = Some (vk_to_bytes k ++ sg) ∧ signature_of k b sg).
Proof.
  intros S. split.
  - intros H. unfold verify_file in H. inv_cmd.
    match goal with H : load_verifying_identity _ _ = (Ok ?k, _) |- _ =>
      apply load_verifying_Ok in H as [E Hk]; subst; rename k into key end.
    case_bool_decide as Ek; [|inv_ok].
    match goal with H : hash_file _ _ _ = (Ok _, _) |- _ => rename H into Hh end.
    match type of Hh with hash_file _ _ ?m = _ => assert (∃ b, m !! location input = Some b) as [b Hb] end.
    { unfold hash_file in Hh. inv_cmd. by eexists. }
    rewrite (hash_file_Ok _ _ _ b S Hb) in Hh. simplify_eq. split; [done|].
    match goal with H : _ !! location (signature_path input o) = Some ?f |- _ =>
      exists key, b, (drop (N.to_nat SIGNING_PUBLIC_LEN) f) end.
    split_and!; [done|done|by rewrite <- Ek, take_drop|done].
  - intros (-> & k & b & sg & Hk & Hb & Hs & Hv). unfold verify_file.
    pose proof (verify_length _ _ _ _ Hv) as Hl. pose proof (length_vk_to_bytes k) as Hlk.
    rewrite (cmd_bind_of_Ok _ _ _ _ _ (load_verifying _ _ _ Hk)).
    assert (lenN (vk_to_bytes k ++ sg) = SIGNING_PUBLIC_LEN + SIGNATURE_LENGTH) as Hlen
      by (rewrite length_app; unfold SIGNING_PUBLIC_LEN; lia).
    rewrite (cmd_bind_of_Ok _ _ _ _ _ (read_file_here _ _ _ MAX_SIGNING_KEY_FILE Hs
      ltac:(rewrite Hlen; done))).
    rewrite (refuse_if_pass (negb _)) by (apply negb_false_iff, N.eqb_eq; exact Hlen).
    rewrite (cmd_bind_of_Ok _ _ _ tt fs) by done.
    rewrite take_app_len, drop_app_len by (unfold SIGNING_PUBLIC_LEN; lia).
    rewrite bool_decide_eq_true_2 by done. rewrite (cmd_bind_of_Ok _ _ _ tt fs) by done.
    rewrite (cmd_bind_of_Ok _ _ _ _ _ (hash_file_Ok _ _ _ b S Hb)).
    apply lift_of. unfold signature_of in Hv. by rewrite Hv.
Qed.

Lemma hash_file_inv env p fs fs' digest n :
  steady env → hash_file env p fs = (Ok (digest, n), fs') →
  fs' = fs ∧ ∃ b, fs !! location p = Some b ∧ digest = sha256 b ∧ n = lenN b.
Proof.
  intros S H. assert (∃ b, fs !! location p = Some b) as [b Hb].
  { unfold hash_file in H. inv_cmd. by eexists. }
  rewrite (hash_file_Ok _ _ _ b S Hb) in H. simplify_eq. split; [done|]. by exists b.
Qed.

Lemma detached_message_inj b c :
  detached_message (sha256 c) (lenN c) = detached_message (sha256 b) (lenN b) → sha256 c = sha256 b.
Proof.
  unfold detached_message. intros H. apply app_inv_head in H.
  apply app_inj_len_1 in H as [H _]; [done|]. by rewrite !sha256_length.
Qed.

(** Detached signatures. [verify] succeeds exactly when the signature file
    is the expected key followed by a signature by that key over the hash and
    length of the file. What [sign] writes is accepted by everyone who holds
    the signer's key, and what is signed determines the file, up to a collision
    of the hash. *)
Theorem detached_signature_sound env input signer secret o fs fs' :
  steady env →
  (verify_file env input signer o fs = (Ok tt, fs') ↔
   fs' = fs ∧ ∃ k b sg, fs !! location signer = Some (vk_to_bytes k) ∧ fs !! location input = Some b ∧
     fs !! location (signature_path input o) = Some (vk_to_bytes k ++ sg) ∧ signature_of k b sg) ∧
  (quiet env → sign_file env input secret o fs = (Ok tt, fs') →
   ∃ id b sg, load_signing_identity env secret 0 fs = (Ok id, fs) ∧ fs !! location input = Some b ∧
     fs' = <[location (signature_path input o) := vk_to_bytes (Sign.verifying_key id) ++ sg]> fs ∧
     (fs' !! location signer = Some (vk_to_bytes (Sign.verifying_key id)) →
        verify_file env input signer o fs' = (Ok tt, fs')) ∧
     ∀ c,
       detached_message (sha256 c) (lenN c) = detached_message (sha256 b) (lenN b) →
       c = b ∨ collide sha256 (λ x, x = c) (λ x, x = b)).
Proof.
  intros S. split; [by apply verify_file_Ok|]. intros Q H. unfold sign_file, publish, staged, output_at in H.
  inv_cmd. rewrite Q in *.
  match goal with H : load_signing_identity _ _ _ _ = (Ok ?a, _) |- _ =>
    pose proof (reads_Ok _ _ _ _ (reads_load_signing_identity env secret 0) H); subst;
    rename a into id; rename H into Hid end.
  match goal with H : hash_file _ _ _ = _ |- _ =>
    apply (hash_file_inv _ _ _ _ _ _ S) in H as (-> & b & Hb & -> & ->) end.
  cbn [concat]. rewrite app_nil_r. eexists id, b, _. split_and!; [done|done|done| |].
  - intros Hk. apply verify_file_Ok; [done|]. split; [done|]. eexists _, b, _.
    split_and!; [done| |by rewrite lookup_insert_eq|apply verify_sign].
    rewrite lookup_insert_ne; [done|congruence].
  - intros c Hc%detached_message_inj. by apply hash_eq_or_collide.
Qed.

Context {CL : CborLaws C}.

(** ** Containers *)

(** Files deliver their bytes, in pieces and with interruptions, and staging
    files take what they are given. *)
Definition delivering (env : Env) : Prop :=
  (∀ i b, live (env.(reading) i b) ∧ contents (env.(reading) i b) = b) ∧
  Forall accepting_event env.(sink).

Lemma encrypt_file_Ok env input rs output sw pub fs n fs' :
  quiet env → encrypt_file env input rs output sw pub fs = (Ok n, fs') →
  ∃ keys b name signer w,
    load_recipients rs fs = (Ok keys, fs) ∧ fs !! location input = Some b ∧
    file_name input = Some name ∧ utf8_valid name = true ∧ signs_with env sw pub fs signer ∧
    encrypt_for env.(random) (env.(reading) 0 b) (staging env) keys (named name) signer = Ok (n, w) ∧
    fs !! location output = None ∧ fs' = <[location output := w.(written)]> fs.
Proof.
  intros Q H. unfold encrypt_file, publish, output_at in H. inv_cmd. rewrite Q in *. b2p.
  match goal with H : load_recipients _ _ = _ |- _ =>
    pose proof (reads_Ok _ _ _ _ (reads_load_recipients rs) H); subst end.
  destruct sw as [path|]; inv_cmd.
  - match goal with H : load_signing_identity _ _ _ _ = _ |- _ =>
      pose proof (reads_Ok _ _ _ _ (reads_load_signing_identity env path 0) H); subst;
      rename H into Hid end.
    eexists _, _, _, _, _. split_and!; [done|done|done|done|by eexists|eassumption|done|done].
  - eexists _, _, _, None, _. split_and!; [done|done|done|done|done|eassumption|done|done].
Qed.

Lemma open_file_of env input secret_path output fs secret b v w :
  quiet env → env.(synced) 0 = true → load_secret env secret_path 0 fs = (Ok secret, fs) →
  fs !! location input = Some b → fs !! location output = None →
  decrypt_to_staging (env.(reading) 0 b) (staging env) secret = Ok (v, w) →
  open_file env input secret_path output fs = (Ok v, <[location output := w.(written)]> fs).
Proof.
  intros Q S Hs Hb Ho Hd. unfold open_file, output_at, publish.
  rewrite (cmd_bind_of_Ok _ _ _ _ _ Hs).
  rewrite (cmd_bind_of_Ok _ _ _ b fs) by by apply cmd_map_err_Ok, open_input_Ok.
  rewrite (cmd_bind_of_Ok _ _ _ tt fs) by by apply cmd_map_err_Ok, new_output_Ok.
  rewrite (cmd_bind_of_Ok _ _ _ (v, w) fs) by (apply lift_of; by rewrite Hd).
  rewrite (cmd_bind_of_Ok _ _ _ tt (<[location output := w.(written)]> fs)); [done|].
  apply cmd_map_err_Ok, commit_output_Ok. by rewrite Q.
Qed.

(** The container that [encrypt] leaves, and where. *)
Lemma encrypt_file_writes env input rs output sw pub fs n fs' :
  quiet env → delivering env → draws_sized env.(random) →
  encrypt_file env input rs output sw pub fs = (Ok n, fs') →
  ∃ keys b name signer container material stanzas preamble h protected mac,
    load_recipients rs fs = (Ok keys, fs) ∧ fs !! location input = Some b ∧ n = lenN b ∧
    file_name input = Some name ∧ signs_with env sw pub fs signer ∧
    fs !! location output = None ∧ fs' = <[location output := container]> fs ∧
    env.(random) 0 = Some material.(cek).(content_key) ∧ material_sized material ∧
    wrap_stanzas material env.(random) keys = Ok stanzas ∧
    container_of material (map XWing stanzas) (named name) b (Ok (signer_key signer))
      container preamble h protected mac.
Proof.
  intros Q [R W] D H.
  destruct (encrypt_file_Ok _ _ _ _ _ _ _ _ _ Q H) as (keys & b & name & signer & w & Hk & Hb & Hn & Hu & Hs & He & Ho & ->).
  destruct (R 0 b) as [Lb Cb]. assert (accepting (staging env)) as As by exact W.
  assert (metadata_typed (named name)) as Tm by (split; cbn; [by intros ? [= <-]|done|constructor]).
  assert (production signer) as Hp.
  { unfold signs_with in Hs. destruct sw; [|by subst]. destruct Hs as (id & _ & ->). by destruct pub. }
  destruct (encrypt_for_writes _ _ _ _ _ _ _ _ Lb As Tm eq_refl D Hp He)
    as (material & stanzas & container & preamble & h & protected & mac & Hd & Hms & Hw & -> & Ew & Hc).
  rewrite Cb in *. cbn [staging written app] in Ew.
  exists keys, b, name, signer, container, material, stanzas, preamble, h, protected, mac.
  split_and!; try done; [by rewrite Ew|].
  unfold draw_material, generate_content_key, random_array in Hd. by inv_ok.
Qed.

(** What one person encrypts, another opens, file to file. When [encrypt]
    succeeds, the file it made opens with every key file whose public key is
    among the recipients', into a new file with exactly the input's bytes; the
    name recorded is the input's own, and the signer reported is the identity
    that signed, or none. The one alternative is a second content key that the
    same secret unwraps from this header under the same MAC. *)
Theorem encrypted_file_opens env input rs output sw pub fs n fs' :
  quiet env → delivering env → draws_sized env.(random) →
  encrypt_file env input rs output sw pub fs = (Ok n, fs') →
  ∃ keys b signer preamble h protected mac c,
    load_recipients rs fs = (Ok keys, fs) ∧ fs !! location input = Some b ∧ n = lenN b ∧
    signs_with env sw pub fs signer ∧ fs !! location output = None ∧ env.(random) 0 = Some c ∧
    (∀ p, location p ≠ location output → fs' !! location p = fs !! location p) ∧
    ∀ env' secret_path out secret k,
      quiet env' → delivering env' → env'.(synced) 0 = true →
      load_secret env' secret_path 0 fs' = (Ok secret, fs') → Crypto.public_key secret = Ok k → k ∈ keys →
      fs' !! location out = None →
      (∃ v, open_file env' output secret_path out fs' = (Ok v, <[location out := b]> fs') ∧
         v.(Object.signer) = signer_key signer ∧ v.(plaintext_len) = n ∧
         v.(object_metadata).(filename) = file_name input) ∨
      second_key secret h (Preamble.encode preamble) protected mac {| content_key := c |}.
Proof.
  intros Q R D H. destruct (encrypt_file_writes _ _ _ _ _ _ _ _ _ Q R D H)
    as (keys & b & name & signer & container & material & stanzas & preamble & h & protected & mac &
        Hk & Hb & -> & Hn & Hs & Ho & -> & Hc0 & Hms & Hw & Hc).
  exists keys, b, signer, preamble, h, protected, mac, material.(cek).(content_key).
  split_and!; try done.
  { intros p Hne. by rewrite lookup_insert_ne. }
  intros env' secret_path out secret k Q' [R' W'] S' Hl Hpk Hin Hout.
  destruct (wrap_stanzas_reach _ _ _ _ _ _ Hms Hw Hpk Hin) as (s & Hin' & Hun).
  destruct (R' 0 container) as [Lc Cc]. assert (accepting (staging env')) as As' by exact W'.
  destruct (container_opens _ _ _ _ _ _ _ _ _ _ _ _ _ (staging env') Hms Hc Hin' Hun Lc As' Cc)
    as [(m & w' & Hdec & Hw' & Hm)|Hx]; [left|right].
  - eexists. split_and!.
    + rewrite (open_file_of env' output secret_path out _ secret container _ _ Q' S' Hl) by
        (done || by rewrite lookup_insert_eq || exact Hdec).
      rewrite Hw'. reflexivity.
    + done.
    + done.
    + cbn [object_metadata]. unfold unsigned_metadata in Hm. rewrite Hn.
      change (Some name) with ((named name).(filename)). by rewrite <- Hm.
  - destruct (cek material). exact Hx.
Qed.

(** ** Opening with a store of epoch keys *)

Definition unmatched (env : Env) (b : bytes) (secret : RecipientSecret) : Prop :=
  ∃ i, decrypt_to_staging (env.(reading) i b) (staging env) secret = Err NoMatchingRecipient.

Lemma try_epochs_cases env i b held :
  match try_epochs env i b held with
  | Ok (n, v, w) => ∃ pre secret post j, held = pre ++ (n, secret) :: post ∧
      Forall (λ p, unmatched env b p.2) pre ∧
      decrypt_to_staging (env.(reading) j b) (staging env) secret = Ok (v, w)
  | Err NoEpochOpens => Forall (λ p, unmatched env b p.2) held
  | Err e => ∃ pre n secret post j err, held = pre ++ (n, secret) :: post ∧
      Forall (λ p, unmatched env b p.2) pre ∧ e = Containers err ∧ err ≠ NoMatchingRecipient ∧
      decrypt_to_staging (env.(reading) j b) (staging env) secret = Err err
  end.
Proof.
  revert i. induction held as [|[n secret] held IH]; intros i; cbn [try_epochs]; [constructor|].
  destruct (decrypt_to_staging (env.(reading) i b) (staging env) secret) as [[v w]|e] eqn:E.
  { exists [], secret, held, i. by split_and!. }
  destruct (decide (e = NoMatchingRecipient)) as [->|Hne].
  - assert (unmatched env b secret) as Hu by by exists i. specialize (IH (i + 1)).
    destruct (try_epochs env (i + 1) b held) as [[[m v] w]|e].
    + destruct IH as (pre & s & post & j & -> & F & Hd).
      exists ((n, secret) :: pre), s, post, j. split_and!; [done|by constructor|done].
    + destruct e; [destruct IH as (pre & m & s & post & j & err & -> & F & He & Hd);
        exists ((n, secret) :: pre), m, s, post, j, err; split_and!; [done|by constructor|apply He|apply Hd..] ..|
        by constructor].
  - assert (match e with NoMatchingRecipient => try_epochs env (i + 1) b held
            | _ => Err (Containers e) end = Err (Containers e)) as -> by by destruct e.
    exists [], n, secret, held, i, e. by split_and!.
Qed.

Lemma open_with_store_cases env input store output fs :
  quiet env → fs !! location output = None →
  open_with_store env input store output fs =
  match fs !! location input with
  | None => (Err (File (Reading Missing)), fs)
  | Some b =>
      match try_epochs env 0 b (rev store.(EpochStore.entries)) with
      | Err e => (Err e, fs)
      | Ok (n, v, w) =>
          if env.(synced) 0 then (Ok (n, v), <[location output := w.(written)]> fs)
          else (Err (File (Machine OtherIo)), fs)
      end
  end.
Proof.
  intros Q Ho. unfold open_with_store, open_input, output_at, publish, FileSystem.new_output, EpochCli.new_output,
    commit_output, cmd_map_err, lift, mbind, cmd_mbind, mret, cmd_mret.
  destruct (fs !! location input) as [b|]; [|done]. cbn [ok_or map_err]. rewrite Ho. cbn [refuse_if map_err].
  destruct (try_epochs env 0 b _) as [[[n v] w]|e]; [|done]. destruct (env.(synced) 0); [|done].
  rewrite Q, Ho. done.
Qed.

Lemma held_newest_first (store : EpochStore) pre n secret post :
  store_ok store → rev store.(EpochStore.entries) = pre ++ (n, secret) :: post →
  EpochStore.get store n = Some secret ∧
  ∀ m s, EpochStore.get store m = Some s → n < m → (m, s) ∈ pre.
Proof.
  intros Hs E. pose proof (f_equal (@rev _) E) as Er. rewrite rev_involutive, rev_app_distr in Er.
  cbn [rev] in Er. rewrite <- app_assoc in Er. cbn [app] in Er.
  pose proof (store_ascending _ Hs) as Ha. unfold EpochStore.get. split.
  - apply map_get_elem; [done|]. rewrite Er. set_solver.
  - intros m s Hm Hlt. apply map_get_elem in Hm; [|done]. rewrite Er in Hm, Ha.
    apply elem_of_app in Hm as [Hm|Hm].
    + unfold ascending in Ha. rewrite fmap_app in Ha.
      assert (m < n); [|lia]. eapply StronglySorted_app_1_elem_of; [exact Ha| |by left].
      by apply (list_elem_of_fmap_2 fst) in Hm.
    + apply elem_of_cons in Hm as [Hm|Hm]; [simplify_eq; lia|].
      by apply list_elem_of_In, in_rev, list_elem_of_In in Hm.
Qed.

(** A file opens with the newest epoch key that fits. With a store of
    epoch secrets, the input is tried under each from the newest to the
    oldest; the epoch reported holds a secret of the store that decrypts the
    whole container, every newer one is no recipient of it, and the new file is
    what that secret decrypts to. If none fits nothing is written, and every
    secret of the store was found to be no recipient; a container that matches
    but is damaged is reported as such and not tried further. *)
Theorem newest_epoch_opens env input store output fs fs' :
  quiet env → store_ok store → fs !! location output = None →
  (∀ n v, open_with_store env input store output fs = (Ok (n, v), fs') →
     ∃ secret b w j, EpochStore.get store n = Some secret ∧ fs !! location input = Some b ∧
       decrypt_to_staging (env.(reading) j b) (staging env) secret = Ok (v, w) ∧
       fs' = <[location output := w.(written)]> fs ∧
       ∀ m s, EpochStore.get store m = Some s → n < m → unmatched env b s) ∧
  (open_with_store env input store output fs = (Err NoEpochOpens, fs') →
     fs' = fs ∧ ∃ b, fs !! location input = Some b ∧
       ∀ m s, EpochStore.get store m = Some s → unmatched env b s) ∧
  (∀ err, open_with_store env input store output fs = (Err (Containers err), fs') →
     fs' = fs ∧ err ≠ NoMatchingRecipient).
Proof.
  intros Q Hs Ho. rewrite (open_with_store_cases env input store output fs Q Ho).
  destruct (fs !! location input) as [b|]; [|by split_and!].
  pose proof (try_epochs_cases env 0 b (rev store.(EpochStore.entries))) as Hc.
  destruct (try_epochs env 0 b _) as [[[n v] w]|e].
  - destruct Hc as (pre & secret & post & j & E & F & Hd).
    destruct (held_newest_first store pre n secret post Hs E) as [Hg Hn].
    destruct (env.(synced) 0); split_and!; try done. intros n' v' [= <- <- <-].
    exists secret, b, w, j. split_and!; [done..|]. intros m s Hm Hlt.
    rewrite Forall_forall in F. apply (F (m, s)). by apply Hn.
  - split_and!; [done| |].
    + intros [= -> ->]. split; [done|]. exists b. split; [done|]. intros m s Hm.
      apply map_get_elem in Hm; [|by apply store_ascending]. rewrite Forall_forall in Hc. apply (Hc (m, s)).
      by apply list_elem_of_In, in_rev; rewrite rev_involutive; apply list_elem_of_In.
    + intros err [= -> ->]. destruct Hc as (pre & n & s & post & j & err' & _ & _ & [= <-] & Hne & _). done.
Qed.

(** ** Identity logs *)

(** A log that is written can be read back, as far as its size allows. *)
Record log_writable (l : IdentityLog) : Prop := {
  writable_typed : Forall entry_typed l.(Identity.entries);
  writable_devices : Forall (λ e, lenN (event_device e.(event)) < u64_bound) l.(Identity.entries);
  writable_count : lenN l.(Identity.entries) <= Identity.MAX_ENTRIES;
  writable_replays : ∃ m, log_ok sha256 l m;
}.

Lemma load_identity_log_Ok log recovery fs fs' l :
  load_identity_log log recovery fs = (Ok l, fs') →
  fs' = fs ∧ log_writable l ∧ fs !! location recovery = Some (vk_to_bytes l.(Identity.recovery)).
Proof.
  intros H. unfold load_identity_log, verify_log, from_entries in H. inv_cmd.
  match goal with H : load_verifying_identity _ _ = (Ok ?k, _) |- _ =>
    apply load_verifying_Ok in H as [E Hk]; subst; rename k into key end.
  match goal with H : Identity.decode ?b = Ok ?es, Hl : lenN ?b <= MAX_LOG_FILE, Hr : replay _ ?es _ = Ok _ |- _ =>
    apply log_decode_inv in H as (f & Hf & Ht & Hn); rename Hr into Hrep; rename Hl into Hl' end.
  split_and!; [done| |done]. split; cbn [Identity.entries]; [done| |done|].
  - apply Forall_forall. intros e He. pose proof (encode_framed_device f _ e He) as Hd. rewrite Hf in Hd.
    unfold MAX_LOG_FILE, u64_bound in *. lia.
  - eexists. by apply log_ok_of_replay.
Qed.

Lemma load_written_log log recovery fs l :
  log_writable l → fs !! location recovery = Some (vk_to_bytes l.(Identity.recovery)) →
  fs !! location log = Some (Identity.encode l.(Identity.entries)) →
  load_identity_log log recovery fs =
    (if lenN (Identity.encode l.(Identity.entries)) <=? MAX_LOG_FILE then Ok l
     else Err (File (Reading TooLarge)), fs).
Proof.
  intros [Ht Hd Hn [m Hm]] Hk Hl. unfold load_identity_log.
  rewrite (cmd_bind_of_Ok _ _ _ _ _ (load_verifying _ _ _ Hk)).
  destruct (N.leb_spec (lenN (Identity.encode l.(Identity.entries))) MAX_LOG_FILE) as [Hle|Hgt].
  - rewrite (cmd_bind_of_Ok _ _ _ _ _ (read_file_here _ _ _ _ Hl Hle)).
    rewrite (cmd_bind_of_Ok _ _ _ l.(Identity.entries) fs)
      by (apply lift_of; unfold Identity.encode; by rewrite log_decode_encode).
    destruct Hm as [Hr _]. unfold verify_log, from_entries.
    rewrite (cmd_bind_of_Ok _ _ _ m fs) by (apply lift_of; by rewrite Hr).
    rewrite Hr, bind_of_Ok. by destruct l.
  - apply cmd_bind_of_Err with (fs1 := fs). unfold cmd_map_err, read_file, read_bounded.
    rewrite Hl. cbn [ok_or]. rewrite bind_of_Ok.
    assert (MAX_LOG_FILE <? lenN (Identity.encode l.(Identity.entries)) = true) as -> by by apply N.ltb_lt.
    done.
Qed.

Lemma signed_entry_typed author e es :
  lenN es < u64_bound → utf8_valid (label_or_empty e) = true →
  lenN (label_or_empty e) <= MAX_LABEL_BYTES → (∀ d, e = Revoke d → lenN d = 32) →
  entry_typed (signed_entry sha256 author e es).
Proof.
  intros Hn Hu Hl Hr. split; cbn; try done; try (unfold device_id, link_for; by rewrite sha256_length).
  apply (length_sign author).
Qed.

Lemma append_writable l author e l' n :
  log_writable l → Identity.append sha256 l author e = Ok (l', n) →
  utf8_valid (label_or_empty e) = true → lenN (event_device e) < u64_bound →
  (∀ d, e = Revoke d → lenN d = 32) →
  log_writable l' ∧ l'.(Identity.recovery) = l.(Identity.recovery).
Proof.
  intros [Ht Hd Hn [m Hm]] H Hu Hv Hr.
  assert (lenN l.(Identity.entries) < Identity.MAX_ENTRIES ∧ lenN (label_or_empty e) <= MAX_LABEL_BYTES) as [Hlt Hlab].
  { unfold Identity.append, check_event_label in H. inv_ok. b2p. split; [done|].
    destruct e; cbn in *; try (unfold check_label in *; inv_ok; b2p; done); done. }
  destruct (append_Ok _ _ _ _ _ _ _ Hm H) as (_ & Er & Ee & m' & Hm' & _).
  split; [|done]. split; rewrite ?Ee.
  - apply Forall_app. split; [done|]. constructor; [|constructor].
    apply signed_entry_typed; [unfold Identity.MAX_ENTRIES, u64_bound in *; lia|done..].
  - apply Forall_app. split; [done|]. by constructor; [|constructor].
  - rewrite length_app. cbn [length]. lia.
  - by exists m'.
Qed.

Lemma create_writable founder label r l :
  utf8_valid label = true → Identity.create sha256 founder label r = Ok l →
  log_writable l ∧ l.(Identity.recovery) = r.
Proof.
  intros Hu H. pose proof (create_replays _ _ _ _ _ H) as Hok.
  unfold Identity.create, check_label in H. inv_ok. b2p. split; [|done]. split; cbn [Identity.entries].
  - constructor; [|constructor]. apply signed_entry_typed; done.
  - constructor; [|constructor]. cbn [event signed_entry event_device]. rewrite length_vk_to_bytes. done.
  - done.
  - by eexists.
Qed.

(** What a command left in the log file, to whoever loads it next. *)
Definition reloads (log recovery : bytes) (l : IdentityLog) (fs : Files) : Prop :=
  load_identity_log log recovery fs =
    (if lenN (Identity.encode l.(Identity.entries)) <=? MAX_LOG_FILE then Ok l
     else Err (File (Reading TooLarge)), fs).

Lemma replaced_log_reloads log recovery l fs :
  log_writable l → fs !! location recovery = Some (vk_to_bytes l.(Identity.recovery)) →
  location recovery ≠ location log →
  reloads log recovery l (<[location log := Identity.encode l.(Identity.entries)]> fs).
Proof.
  intros Hw Hr Hne. apply load_written_log; [done|by rewrite lookup_insert_ne|by rewrite lookup_insert_eq].
Qed.

(** A grown log, written over the one it was loaded from. *)
Lemma grown_log_reloads log recovery fs l author e l' n :
  load_identity_log log recovery fs = (Ok l, fs) → Identity.append sha256 l author e = Ok (l', n) →
  utf8_valid (label_or_empty e) = true → lenN (event_device e) < u64_bound →
  (∀ d, e = Revoke d → lenN d = 32) → location recovery ≠ location log →
  reloads log recovery l' (<[location log := Identity.encode l'.(Identity.entries)]> fs).
Proof.
  intros Hl Ha Hu Hd Hr Hne. apply load_identity_log_Ok in Hl as (_ & Hw & Hk).
  destruct (append_writable _ _ _ _ _ Hw Ha Hu Hd Hr) as [Hw' Er].
  apply replaced_log_reloads; [done|by rewrite Er|done].
Qed.

Lemma reads_load_identity_log log recovery : reads_only (load_identity_log log recovery).
Proof. unfold load_identity_log. files. Qed.
Hint Resolve reads_load_identity_log : files.

(** What was loaded, was loaded from the files as they were. *)
Ltac settle :=
  repeat match goal with
  | H : ?m ?fs = (Ok _, ?fs1) |- _ =>
      is_var fs1; assert (fs1 = fs) by (eapply (reads_Ok m); [auto with files|exact H]); subst fs1
  end.

(** C24. The log file and the log. A command on an identity's log loads the
    file as a stranger would, verified against the recovery key; does the
    owner's operation on it; and leaves a file that loads as exactly the
    resulting log, as long as that file is within the 16 MiB a reader accepts:
    beyond, the command succeeds all the same and no later one can load the
    log. Other files are untouched, and a command that fails changes none. *)
Theorem log_file_is_the_log env log recovery secret device label fs fs' :
  quiet env → utf8_valid label = true → location recovery ≠ location log →
  (identity_create env secret recovery label log fs = (Ok tt, fs') →
   ∃ founder rk l, load_signing_identity env secret 0 fs = (Ok founder, fs) ∧
     load_verifying_identity recovery fs = (Ok rk, fs) ∧
     Identity.create sha256 founder label rk = Ok l ∧ reloads log recovery l fs') ∧
  (∀ n, identity_enrol env log secret device label recovery fs = (Ok n, fs') →
   ∃ l author k l', load_identity_log log recovery fs = (Ok l, fs) ∧
     load_signing_identity env secret 0 fs = (Ok author, fs) ∧
     load_verifying_identity device fs = (Ok k, fs) ∧
     Identity.enrol sha256 l author k label = Ok (l', n) ∧ reloads log recovery l' fs') ∧
  (∀ n, identity_revoke env log secret device recovery fs = (Ok n, fs') →
   ∃ l author k l', load_identity_log log recovery fs = (Ok l, fs) ∧
     load_signing_identity env secret 0 fs = (Ok author, fs) ∧
     load_verifying_identity device fs = (Ok k, fs) ∧
     Identity.revoke sha256 l author (device_id sha256 k) = Ok (l', n) ∧ reloads log recovery l' fs') ∧
  careful env (identity_create env secret recovery label log) ∧
  careful env (identity_enrol env log secret device label recovery) ∧
  careful env (identity_revoke env log secret device recovery).
Proof.
  intros Q Hu Hne. split_and!.
  - intros H. unfold identity_create, write_log in H. inv_cmd. settle.
    match goal with H : replace_file _ _ _ _ _ = _ |- _ => apply replace_file_Ok in H as ->; rewrite Q end.
    match goal with H : Identity.create _ _ _ _ = Ok _ |- _ =>
      pose proof (create_writable _ _ _ _ Hu H) as [Hw Er] end.
    match goal with H : load_verifying_identity _ _ = (Ok ?k, _) |- _ =>
      pose proof (proj1 (load_verifying_Ok _ _ _ _) H) as [_ Hk] end.
    eexists _, _, _. split_and!; [done..|]. apply replaced_log_reloads; [done|by rewrite Er|done].
  - intros n H. unfold identity_enrol, write_log in H. inv_cmd. settle.
    match goal with H : replace_file _ _ _ _ _ = _ |- _ => apply replace_file_Ok in H as ->; rewrite Q end.
    eexists _, _, _, _. split_and!; [done..|]. eapply grown_log_reloads; [done|eassumption|done| |done|done].
    cbn [event_device]. by rewrite length_vk_to_bytes.
  - intros n H. unfold identity_revoke, write_log in H. inv_cmd. settle.
    match goal with H : replace_file _ _ _ _ _ = _ |- _ => apply replace_file_Ok in H as ->; rewrite Q end.
    eexists _, _, _, _. split_and!; [done..|]. eapply grown_log_reloads; [done|eassumption|done| | |done].
    + cbn [event_device]. unfold device_id. by rewrite sha256_length.
    + intros d [= <-]. unfold device_id. by rewrite sha256_length.
  - unfold identity_create, write_log. files.
  - unfold identity_enrol, write_log. files.
  - unfold identity_revoke, write_log. files.
Qed.
End keys.

(** * Witnesses: Alice makes an identity, encrypts, signs and keeps a log *)
Import Cbor.Reference Sign.Toy Crypto.Toy Keyring.Toy HexBase64.

Module Samples.
Definition machine (r : nat → option bytes) : Env :=
  {| reading _ b := slice_reader b; sink := []; synced _ := true; directory_synced := true;
     others _ fs := fs; typed _ := Some (text "correct horse"); random := r |}.

Definition sizes (l : list N) (i : nat) : option bytes :=
  Some (replicate (N.to_nat (nth i l 32)) (byte_of (N.of_nat i + 1))).

Definition at_keygen : Env := machine (sizes [32; 16; 12]).
Definition at_passwd : Env := machine (sizes [16; 12]).
Definition at_encrypt : Env := machine (sizes [32; 32; 16]).

Definition secret_path : bytes := text "keys/alice".
Definition public_path : bytes := text "keys/alice.pub".
Definition signing_path : bytes := text "keys/alice.pub.sign".
Definition letter : bytes := text "letter.txt".
Definition sealed : bytes := text "letter.hide".

Definition start : Files := {[location letter := text "hello"]}.
Definition keyed : Files := (keygen at_keygen secret_path public_path false None start).2.
Definition encrypted : result CommandError N * Files :=
  encrypt_file at_encrypt letter [public_path] sealed (Some secret_path) false keyed.
Definition signed : result CommandError unit * Files :=
  sign_file at_encrypt letter secret_path None keyed.
Definition store : EpochStore :=
  {| chain_head := replicate 32 Byte.x00;
     EpochStore.entries := [(0, encryption_key (replicate 32 Byte.x01)); (1, encryption_key (replicate 32 Byte.x09))] |}.
Definition raw_key : Files := {[location secret_path := replicate 32 Byte.x07]}.
End Samples.

Lemma machine_quiet r : quiet (Samples.machine r).
Proof. done. Qed.

Lemma machine_delivering r : delivering (Samples.machine r).
Proof. split; [|constructor]. intros i b. apply slice_reader_live. Qed.

Lemma machine_steady r : steady (Samples.machine r).
Proof.
  intros i b. split; [|by apply slice_reader_live]. cbn. unfold slice_reader.
  destruct b; repeat constructor; done.
Qed.

Lemma sample_keygen :
  is_ok (keygen Samples.at_keygen Samples.secret_path Samples.public_path false None Samples.start).1 = true.
Proof. vm_compute. reflexivity. Qed.

Lemma sample_encrypt : is_ok Samples.encrypted.1 = true.
Proof. vm_compute. reflexivity. Qed.

Lemma sample_file_signed : is_ok Samples.signed.1 = true.
Proof. vm_compute. reflexivity. Qed.

Lemma sample_passwd : is_ok (change_passphrase Samples.at_passwd Samples.secret_path Samples.raw_key).1 = true.
Proof. vm_compute. reflexivity. Qed.

(** A run that succeeds, as an equation. *)
Lemma run_Ok {E T} (m : Cmd E T) fs : is_ok (m fs).1 = true → ∃ a fs', m fs = (Ok a, fs').
Proof. destruct (m fs) as [[a|e] fs']; [by eauto|done]. Qed.

Lemma outputs_all_or_nothing_witness :
  ∃ os, keys_made Samples.at_keygen Samples.secret_path Samples.public_path false None Samples.start os ∧
    publishing Samples.at_keygen 0 Samples.start os Samples.keyed true ∧ Samples.start ⊆ Samples.keyed.
Proof.
  pose proof (outputs_all_or_nothing Samples.at_keygen) as (_ & _ & _ & _ & _ & _ & Hk & _ & _ & _ & Ha & _).
  destruct (Hk Samples.secret_path Samples.public_path false None Samples.start) as [[Hf _]|(os & Hp & Hc)].
  - rewrite sample_keygen in Hf. discriminate Hf.
  - unfold commits in Hc. rewrite sample_keygen in Hc. exists os. split; [exact Hp|]. split; [exact Hc|].
    eapply Ha; [|exact Hc]. intros i fs. reflexivity.
Defined.

Lemma keygen_files_agree_witness :
  ∃ secret fs', load_secret Samples.at_passwd Samples.secret_path 0 fs' = (Ok secret, fs') ∧
    fs' !! location Samples.signing_path ≠ None.
Proof.
  destruct (run_Ok _ _ sample_keygen) as (armor & fs' & E).
  destruct (keygen_files_agree Samples.at_keygen Samples.secret_path Samples.public_path false None
    Samples.start armor fs') as (s & secret & signing & k & _ & _ & _ & _ & _ & Hl & Hv & _); [done| |exact E|].
  - split_and!; intros b [= <-]; reflexivity.
  - exists secret, fs'. split.
    + apply Hl. by exists (text "correct horse"), (text "correct horse").
    + apply load_verifying_Ok in Hv as [_ Hv]. cbn [default] in Hv.
      change (append_extension Samples.public_path (text "sign")) with Samples.signing_path in Hv.
      rewrite Hv. done.
Defined.

Lemma passwd_outcomes_witness :
  ∃ fs', load_secret Samples.at_passwd Samples.secret_path 0 fs'
           = (Ok {| recipient_seed := replicate 32 Byte.x07 |}, fs') ∧
    load_signing_identity Samples.at_passwd Samples.secret_path 0 fs' = (Err PredatesSignatures, fs').
Proof.
  destruct (run_Ok _ _ sample_passwd) as ([] & fs' & E).
  destruct (passwd_outcomes Samples.at_passwd Samples.secret_path Samples.raw_key (replicate 32 Byte.x07))
    as (_ & H & _); [done| |by apply lookup_singleton_eq|done|].
  - split; intros b [= <-]; reflexivity.
  - destruct (H fs' E) as (s & pw & Hpw & _ & Hold & Hl). exists fs'.
    destruct Hold as [(_ & -> & _)|(Hi & _)]; [|discriminate Hi].
    apply (Hl Samples.at_passwd 0 pw); [exact Hpw|reflexivity].
Defined.

Lemma detached_signature_sound_witness :
  ∃ id b, load_signing_identity Samples.at_encrypt Samples.secret_path 0 Samples.keyed = (Ok id, Samples.keyed) ∧
    Samples.keyed !! location Samples.letter = Some b.
Proof.
  destruct (run_Ok _ _ sample_file_signed) as ([] & fs' & E).
  destruct (detached_signature_sound Samples.at_encrypt Samples.letter Samples.signing_path
    Samples.secret_path None Samples.keyed fs' (machine_steady _)) as [_ H].
  destruct (H (machine_quiet _) E) as (id & b & sg & Hid & Hb & _).
  exists id, b. exact (conj Hid Hb).
Defined.

Lemma encrypted_file_opens_witness :
  ∃ n b, Samples.keyed !! location Samples.letter = Some b ∧ n = lenN b.
Proof.
  destruct (run_Ok (encrypt_file Samples.at_encrypt Samples.letter [Samples.public_path] Samples.sealed
    (Some Samples.secret_path) false) Samples.keyed sample_encrypt) as (n & fs' & E).
  destruct (encrypted_file_opens Samples.at_encrypt Samples.letter [Samples.public_path] Samples.sealed
    (Some Samples.secret_path) false Samples.keyed n fs') as (keys & b & signer & _ & _ & _ & _ & c & _ & Hb & Hn & _).
  - apply machine_quiet.
  - apply machine_delivering.
  - intros b. split_and!; intros [= <-]; reflexivity.
  - exact E.
  - exists n, b. exact (conj Hb Hn).
Defined.

Lemma sample_opens :
  is_ok (open_with_store Samples.at_encrypt Samples.sealed Samples.store (text "out") Samples.encrypted.2).1 = true.
Proof. vm_compute. reflexivity. Qed.

Lemma newest_epoch_opens_witness :
  ∃ n secret, EpochStore.get Samples.store n = Some secret ∧
    ∃ b, Samples.encrypted.2 !! location Samples.sealed = Some b.
Proof.
  destruct (run_Ok _ _ sample_opens) as ([n v] & fs' & E).
  destruct (newest_epoch_opens Samples.at_encrypt Samples.sealed Samples.store (text "out")
    Samples.encrypted.2 fs' (machine_quiet _)) as (H & _).
  - split; [reflexivity| | |done].
    + change (StronglySorted N.lt [0; 1]). repeat constructor; done.
    + repeat constructor.
  - vm_compute. reflexivity.
  - destruct (H n v E) as (secret & b & w & j & Hg & Hb & _). exists n, secret. split; [exact Hg|].
    exists b. exact Hb.
Defined.

Lemma sample_create :
  is_ok (identity_create Samples.at_encrypt Samples.secret_path Samples.signing_path (text "laptop")
    (text "log") Samples.keyed).1 = true.
Proof. vm_compute. reflexivity. Qed.

Lemma log_file_is_the_log_witness : ∃ l fs', reloads (text "log") Samples.signing_path l fs'.
Proof.
  destruct (run_Ok _ _ sample_create) as ([] & fs' & E).
  destruct (log_file_is_the_log Samples.at_encrypt (text "log") Samples.signing_path Samples.secret_path
    Samples.signing_path (text "laptop") Samples.keyed fs' (machine_quiet _)) as (H & _); [reflexivity|done|].
  destruct (H E) as (founder & rk & l & _ & _ & _ & Hr). exists l, fs'. exact Hr.
Defined.
