(* ===== verification/Transport.v ===== *)
(** [hide-cli/src/transport.rs] on Unix: the directory and the socket an agent
    listens at, in a tree of nodes with owners and modes where other users'
    processes act between any two system calls, and the loop over connections. *)
From Stdlib Require Import Strings.Byte.
From stdpp Require Import gmap.
From S2P Require Import Prelude Sign Crypto Stream Agent FileSystem.
Local Open Scope N_scope.

(** * What stands under a path *)
Abbreviation Location := (list bytes).

(** A link is recorded with the node it leads to in the end. *)
Inductive Kind := Directory | Regular | Socket | Link (target : Location).

#[export] Instance Kind_eq_dec : EqDecision Kind.
Proof. solve_decision. Defined.

Record Node := { kind : Kind; mode : N; owner : N }.

Abbreviation Tree := (gmap Location Node).

(** The user the process runs as, the bits its umask leaves, the mode a socket
    is born with, which system calls fail, counted from the start, and what
    other processes do before each. *)
Record Host := {
  uid : N;
  umask_leaves : N;
  socket_mode : N;
  denied : nat → bool;
  others : nat → Tree → Tree;
}.

(** [ErrorKind::NotFound], any other error of the system, and the two the
    source makes. *)
Inductive TransportError := NotFound | System | IsNotDirectory | OwnedByAnother.

Record Moment := { tree : Tree; calls : nat }.

(** * System calls *)
Definition Sys (A : Type) : Type := Moment → result TransportError A * Moment.

#[export] Instance sys_mret : MRet Sys := λ A a m, (Ok a, m).
#[export] Instance sys_mbind : MBind Sys := λ A B f x m,
  match x m with (Ok a, m) => f a m | (Err e, m) => (Err e, m) end.

(** The location of [path.parent()]; the root and the working directory have none. *)
Definition parent_of (l : Location) : option Location :=
  if bool_decide (l = [] ∨ l = [text "/"]) then None else Some (removelast l).

(** Where a path leads when its last name is a link. *)
Definition resolved (t : Tree) (l : Location) : Location :=
  match t !! l with Some {| kind := Link target |} => target | _ => l end.

(** [path.is_dir()] *)
Definition leads_to_directory (t : Tree) (l : Location) : bool :=
  match t !! resolved t l with Some n => bool_decide (n.(kind) = Directory) | None => false end.

Definition missing (t : Tree) (l : Location) : bool := bool_decide (t !! l = None).

(** No group or other bits. *)
Definition closed (mode : N) : bool := N.land mode 63 =? 0.

Section host.
Context (host : Host).

(** One call: the others act, then it is denied or takes place. *)
Definition call {A} (effect : Tree → result TransportError (A * Tree)) : Sys A := λ m,
  let t := host.(others) m.(calls) m.(tree) in
  match (if host.(denied) m.(calls) then Err System else effect t) with
  | Ok (a, t') => (Ok a, {| tree := t'; calls := S m.(calls) |})
  | Err e => (Err e, {| tree := t; calls := S m.(calls) |})
  end.

Definition made (k : Kind) (permitted : N) : Node :=
  {| kind := k; mode := permitted; owner := host.(uid) |}.

Definition parent_missing (t : Tree) (l : Location) : bool :=
  match parent_of l with Some p => missing t p | None => false end.

Definition mkdir (l : Location) (permitted : N) : Sys unit := call (λ t,
  refuse_if (negb (missing t l)) System;;
  refuse_if (parent_missing t l) NotFound;;
  Ok (tt, <[l := made Directory (N.land permitted host.(umask_leaves))]> t)).

(** A failing call counts as no. *)
Definition is_dir (l : Location) : Sys bool := λ m,
  match call (λ t, Ok (leads_to_directory t l, t)) m with
  | (Ok b, m) => (Ok b, m)
  | (Err _, m) => (Ok false, m)
  end.

Definition symlink_metadata (l : Location) : Sys Node := call (λ t,
  n ← ok_or (t !! l) NotFound; Ok (n, t)).

(** Links are followed; only the owner, or root, may. *)
Definition set_permissions (l : Location) (permitted : N) : Sys unit := call (λ t,
  n ← ok_or (t !! resolved t l) NotFound;
  refuse_if (negb ((n.(owner) =? host.(uid)) || (host.(uid) =? 0))) System;;
  Ok (tt, <[resolved t l := {| kind := n.(kind); mode := permitted; owner := n.(owner) |}]> t)).

(** The owner of a file just created. *)
Definition current_uid : Sys N := call (λ t, Ok (host.(uid), t)).

Definition remove_file (l : Location) : Sys unit := call (λ t,
  n ← ok_or (t !! l) NotFound;
  refuse_if (bool_decide (n.(kind) = Directory)) System;;
  Ok (tt, delete l t)).

(** [UnixListener::bind] *)
Definition bind (l : Location) : Sys unit := call (λ t,
  refuse_if (negb (missing t l)) System;;
  refuse_if (parent_missing t l) NotFound;;
  Ok (tt, <[l := made Socket host.(socket_mode)]> t)).

Definition fail {A} (e : TransportError) : Sys A := λ m, (Err e, m).
Definition refuse (bad : bool) (e : TransportError) : Sys unit := if bad then fail e else mret tt.

(** A call whose error is looked at, not passed on. *)
Definition attempt {A} (x : Sys A) : Sys (result TransportError A) := λ m,
  let '(r, m) := x m in (Ok r, m).

(** * The endpoint *)

(** [DirBuilder::new().recursive(true).mode(permitted).create(l)] of the standard
    library; the working directory is there, and the fuel is the number of names. *)
Fixpoint create_all (fuel : nat) (permitted : N) (l : Location) : Sys unit :=
  match fuel with
  | O => fail System
  | S fuel =>
      r ← attempt (mkdir l permitted);
      match r with
      | Ok tt => mret tt
      | Err NotFound =>
          match parent_of l with
          | None => fail System
          | Some p =>
              (if bool_decide (p = []) then mret tt else create_all fuel permitted p);;
              r ← attempt (mkdir l permitted);
              match r with
              | Ok tt => mret tt
              | Err e => directory ← is_dir l; refuse (negb directory) e
              end
          end
      | Err e => directory ← is_dir l; refuse (negb directory) e
      end
  end.

Definition create (l : Location) (permitted : N) : Sys unit :=
  create_all (S (length l)) permitted l.

Definition create_private_dir (directory : Location) : Sys unit :=
  create directory 448;;
  metadata ← symlink_metadata directory;
  refuse (negb (bool_decide (metadata.(kind) = Directory))) IsNotDirectory;;
  (if negb (closed metadata.(mode)) then set_permissions directory 448 else mret tt);;
  u ← current_uid;
  refuse (negb (metadata.(owner) =? u)) OwnedByAnother.

(** [Path::new(endpoint).parent()], or the working directory. *)
Definition endpoint_dir (endpoint : bytes) : Location :=
  default [] (parent_of (location endpoint)).

(** [listen], up to the bound socket, and up to its first connection. *)
Definition open_socket (endpoint : bytes) : Sys unit :=
  create_private_dir (endpoint_dir endpoint);;
  attempt (remove_file (location endpoint));;
  bind (location endpoint).

Definition listen (endpoint : bytes) : Sys unit :=
  open_socket endpoint;;
  set_permissions (location endpoint) 384.
End host.

(** ** Connections *)
Section serving.
Context (sha256 : bytes → bytes) (b64_no_pad : bytes → bytes).
Context {P : Sign.Primitives} {Ap : Approver}.

(** A connection as it comes in, and what its approver goes on from; or the
    error of [incoming]. *)
Record Connection := { received : reader; sent : writer; approving : Approval }.

Definition serve_connection (a : Agent) (c : Connection)
  : option (result AgentError (writer * Approval)) :=
  serve sha256 b64_no_pad (S (length (contents c.(received)))) a c.(received) c.(sent) c.(approving).

(** An error of a connection is printed, an error of [incoming] ends the loop. *)
Fixpoint serve_all (a : Agent) (incoming : list (result io_error Connection))
  : list (option (result AgentError (writer * Approval))) * result io_error unit :=
  match incoming with
  | [] => ([], Ok tt)
  | Err e :: _ => ([], Err e)
  | Ok c :: incoming =>
      let '(outcomes, ended) := serve_all a incoming in
      (serve_connection a c :: outcomes, ended)
  end.
End serving.

(** * What holds of the calls *)

(** Other users' processes leave alone what this user owns: it stands in a
    directory of this user's, or in one where only owners may remove. *)
Definition leaves_ours (host : Host) : Prop := ∀ i t l n,
  t !! l = Some n → n.(owner) = host.(uid) → host.(others) i t !! l = Some n.

(** No other process is at work. *)
Definition undisturbed (host : Host) : Prop := ∀ i t, host.(others) i t = t.

(** [t'] may come after [t] when this user changes nothing. *)
Definition later (host : Host) (t t' : Tree) : Prop := ∀ l n,
  t !! l = Some n → n.(owner) = host.(uid) → t' !! l = Some n.

(** A directory of this user's alone. *)
Definition private_at (host : Host) (t : Tree) (l : Location) : Prop :=
  ∃ n, t !! l = Some n ∧ n.(kind) = Directory ∧ n.(owner) = host.(uid) ∧ closed n.(mode) = true.

(** Whether user [u] may reach the socket: enter its directory, by a bit of
    its own, its group's or everyone's, and write to the socket. *)
Definition may_connect (u : N) (t : Tree) (endpoint : bytes) : bool :=
  match t !! endpoint_dir endpoint, t !! location endpoint with
  | Some d, Some s =>
      ((d.(owner) =? u) || negb (N.land d.(mode) 9 =? 0)) &&
      ((s.(owner) =? u) || negb (N.land s.(mode) 18 =? 0)) &&
      bool_decide (s.(kind) = Socket)
  | _, _ => false
  end.

Definition tightened (n : Node) : Node :=
  {| kind := n.(kind); mode := 448; owner := n.(owner) |}.

Section calls.
Context (host : Host).

Lemma call_Ok {A} effect m (a : A) m' :
  call host effect m = (Ok a, m') →
  effect (host.(others) m.(calls) m.(tree)) = Ok (a, m'.(tree)).
Proof.
  unfold call. destruct (host.(denied) m.(calls)); [done|].
  destruct (effect _) as [[b t]|e]; [|done]. by intros [= -> <-].
Qed.

Lemma sys_bind_Ok {A B} (x : Sys A) (f : A → Sys B) m b m' :
  (x ≫= f) m = (Ok b, m') → ∃ a m1, x m = (Ok a, m1) ∧ f a m1 = (Ok b, m').
Proof. unfold mbind, sys_mbind. destruct (x m) as [[a|e] m1]; [by eauto|done]. Qed.

Lemma refuse_Ok bad e m m' : refuse bad e m = (Ok tt, m') → bad = false ∧ m' = m.
Proof. by destruct bad; [|intros [= <-]]. Qed.

Lemma directory_resolves t l n : t !! l = Some n → n.(kind) = Directory → resolved t l = l.
Proof. intros H Hk. unfold resolved. rewrite H. destruct n as [[] ? ?]; done. Qed.

Lemma private_later t t' l : later host t t' → private_at host t l → private_at host t' l.
Proof. intros H (n & Hn & Hk & Ho & Hc). exists n. split_and!; try done. by apply H. Qed.

Lemma later_trans t1 t2 t3 : later host t1 t2 → later host t2 t3 → later host t1 t3.
Proof. unfold later. eauto. Qed.

Section ours.
Context (Ho : leaves_ours host).

Lemma others_later i t : later host t (host.(others) i t).
Proof. intros l n. apply Ho. Qed.

Lemma set_permissions_Ok l p m m' n :
  set_permissions host l p m = (Ok tt, m') → m.(tree) !! l = Some n → n.(owner) = host.(uid) →
  (∀ q, n.(kind) ≠ Link q) →
  m'.(tree) !! l = Some {| kind := n.(kind); mode := p; owner := n.(owner) |} ∧
  ∀ l' n', l' ≠ l → m.(tree) !! l' = Some n' → n'.(owner) = host.(uid) → m'.(tree) !! l' = Some n'.
Proof.
  intros H Hl Hu Hk. apply call_Ok in H. pose proof (Ho m.(calls) _ _ _ Hl Hu) as Hl'.
  assert (resolved (host.(others) m.(calls) m.(tree)) l = l) as Er.
  { unfold resolved. rewrite Hl'. destruct n as [[] ? ?]; try done. by destruct (Hk target). }
  rewrite Er, Hl' in H. inv_ok. 
  match goal with H : _ = m'.(tree) |- _ => rewrite <- H end. split; [by rewrite lookup_insert_eq|].
  intros l' n' Hne H' Hu'. rewrite lookup_insert_ne by done. by apply Ho.
Qed.

Lemma create_private_dir_Ok d m m' :
  create_private_dir host d m = (Ok tt, m') → private_at host m'.(tree) d.
Proof.
  intros H. unfold create_private_dir in H.
  apply sys_bind_Ok in H as ([] & m1 & _ & H).
  apply sys_bind_Ok in H as (n & m2 & Hn & H). apply call_Ok in Hn. inv_ok.
  apply sys_bind_Ok in H as ([] & m3 & Hk & H). apply refuse_Ok in Hk as [Hk ->].
  apply sys_bind_Ok in H as ([] & m4 & Hc & H).
  apply sys_bind_Ok in H as (u & m5 & Hu & H). apply call_Ok in Hu.
  apply refuse_Ok in H as [H ->]. injection Hu as <- <-. b2p.
  match goal with H : _ = m2.(tree) |- _ => rewrite H in * end.
  apply (private_later m4.(tree)); [apply others_later|].
  destruct (closed n.(mode)) eqn:Ec; cbn [negb] in Hc.
  - injection Hc as <-. by exists n.
  - apply (set_permissions_Ok _ _ _ _ n) in Hc as [Hc _]; [|done|done|by rewrite Hk].
    eexists. split_and!; [exact Hc|done..].
Qed.

(** A directory is never removed as a stale socket. *)
Lemma remove_keeps_private l d m r m' :
  attempt (remove_file host l) m = (Ok r, m') →
  private_at host m.(tree) d → private_at host m'.(tree) d.
Proof.
  intros H Hd. apply (private_later _ (host.(others) m.(calls) m.(tree))) in Hd as (n & Hn & Hk & Hu & Hc);
    [|apply others_later].
  unfold attempt, remove_file, call in H. destruct (host.(denied) m.(calls)).
  - injection H as <- <-. by exists n.
  - destruct (host.(others) m.(calls) m.(tree) !! l) as [s|] eqn:Es;
      cbn [ok_or mbind result_mbind result_bind] in H; [|injection H as <- <-; by exists n].
    case_bool_decide as Hs; cbn in H; injection H as <- <-; cbn [tree]; [by exists n|].
    exists n. split_and!; try done. rewrite lookup_delete_ne; [done|congruence].
Qed.

(** The bound socket stands in a directory of this user's alone. *)
Lemma open_socket_Ok endpoint m m' :
  open_socket host endpoint m = (Ok tt, m') →
  private_at host m'.(tree) (endpoint_dir endpoint) ∧
  m'.(tree) !! location endpoint = Some (made host Socket host.(socket_mode)) ∧
  location endpoint ≠ endpoint_dir endpoint.
Proof.
  intros H. unfold open_socket in H.
  apply sys_bind_Ok in H as ([] & m1 & Hd & H). apply create_private_dir_Ok in Hd.
  apply sys_bind_Ok in H as (r & m2 & Hr & H).
  pose proof (remove_keeps_private _ _ _ _ _ Hr Hd) as Hp.
  apply (private_later _ (host.(others) m2.(calls) m2.(tree))) in Hp as (n & Hn & Hk & Hu & Hc);
    [|apply others_later].
  apply call_Ok in H. inv_ok. b2p. match goal with H : _ = m'.(tree) |- _ => rewrite <- H end.
  unfold missing in *. case_bool_decide as Hm; [|done].
  assert (location endpoint ≠ endpoint_dir endpoint) as Hne by congruence.
  split_and!; [|by rewrite lookup_insert_eq|done].
  exists n. split_and!; try done. by rewrite lookup_insert_ne.
Qed.

Lemma closed_bits n : closed n = true → N.land n 9 = 0.
Proof.
  unfold closed. intros H. apply N.eqb_eq in H.
  change 9 with (N.land 63 9). by rewrite N.land_assoc, H.
Qed.

Lemma private_unreachable t endpoint u :
  private_at host t (endpoint_dir endpoint) → u ≠ host.(uid) → may_connect u t endpoint = false.
Proof.
  intros (n & Hn & _ & Hu & Hc) Hne. unfold may_connect. rewrite Hn.
  destruct (t !! location endpoint); [|done]. rewrite (closed_bits _ Hc).
  rewrite (proj2 (N.eqb_neq n.(owner) u)) by congruence. done.
Qed.
End ours.

(** With nobody else at work, creating a directory that stands changes nothing. *)
Lemma create_standing d p m n r m' :
  undisturbed host → m.(tree) !! d = Some n → create host d p m = (r, m') → m'.(tree) = m.(tree).
Proof.
  intros Q Hd H. unfold create in H. cbn [create_all] in H.
  unfold mbind, sys_mbind, attempt, mkdir, call, missing, is_dir, refuse, fail in H.
  rewrite Q, Hd in H. cbn in H. destruct (host.(denied) m.(calls)); cbn in H.
  all: unfold call in H; cbn [tree calls] in H; rewrite Q in H;
    destruct (host.(denied) (S m.(calls))); cbn in H;
    [by injection H as _ <-|destruct (leads_to_directory _ _); by injection H as _ <-].
Qed.
End calls.

(** ** Files stay files *)

(** A regular file stands there. *)
Definition is_file (t : Tree) (l : Location) : bool :=
  match t !! l with Some n => bool_decide (n.(kind) = Regular) | None => false end.

(** A call that leaves the file at [l] in place, whatever its outcome. *)
Definition spares (l : Location) {A} (x : Sys A) : Prop :=
  ∀ m, is_file m.(tree) l = true → is_file (x m).2.(tree) l = true.

Section files.
Context (host : Host) (l : Location) (Hadd : ∀ i t, t ⊆ host.(others) i t).

Lemma is_file_add t t' : t ⊆ t' → is_file t l = true → is_file t' l = true.
Proof.
  intros Ht. unfold is_file. destruct (t !! l) as [n|] eqn:E; [|done].
  by rewrite (lookup_weaken _ _ _ _ E Ht).
Qed.

Lemma is_file_insert t k n :
  is_file t l = true → (k = l → n.(kind) = Regular) → is_file (<[k := n]> t) l = true.
Proof.
  intros H Hn. unfold is_file. destruct (decide (k = l)) as [->|Hne].
  - rewrite lookup_insert_eq. by apply bool_decide_eq_true, Hn.
  - by rewrite lookup_insert_ne.
Qed.

Lemma spares_mret {A} (a : A) : spares l (mret a).
Proof. by intros m. Qed.
Lemma spares_fail {A} e : spares l (fail e : Sys A).
Proof. by intros m. Qed.
Lemma spares_refuse bad e : spares l (refuse bad e).
Proof. destruct bad; by intros m. Qed.

Lemma spares_bind {A B} (x : Sys A) (f : A → Sys B) :
  spares l x → (∀ a, spares l (f a)) → spares l (x ≫= f).
Proof.
  intros Hx Hf m Hm. specialize (Hx m Hm). unfold mbind, sys_mbind.
  destruct (x m) as [[a|e] m1]; [by apply Hf|done].
Qed.

Lemma spares_attempt {A} (x : Sys A) : spares l x → spares l (attempt x).
Proof. intros Hx m Hm. specialize (Hx m Hm). unfold attempt. by destruct (x m). Qed.

Lemma spares_call {A} (effect : Tree → result TransportError (A * Tree)) :
  (∀ t a t', is_file t l = true → effect t = Ok (a, t') → is_file t' l = true) →
  spares l (call host effect).
Proof.
  intros He m Hm. apply (is_file_add _ _ (Hadd m.(calls) m.(tree))) in Hm. unfold call.
  destruct (host.(denied) m.(calls)); [done|].
  destruct (effect _) as [[a t']|e] eqn:E; [by eapply He|done].
Qed.

Lemma is_file_fresh t k n : is_file t l = true → missing t k = true → is_file (<[k := n]> t) l = true.
Proof.
  intros H Hk. apply is_file_insert; [done|]. intros ->. unfold missing, is_file in *.
  apply bool_decide_eq_true in Hk. by rewrite Hk in H.
Qed.

Lemma spares_mkdir k p : spares l (mkdir host k p).
Proof.
  apply spares_call. intros t a t' H E. inv_ok. b2p. by apply is_file_fresh.
Qed.

Lemma spares_is_dir k : spares l (is_dir host k).
Proof.
  intros m Hm. unfold is_dir.
  assert (spares l (call host (λ t, Ok (leads_to_directory t k, t)))) as H
    by (apply spares_call; intros t a t' Ht E; by injection E as _ <-).
  specialize (H m Hm). by destruct (call host _ m) as [[b|e] m1].
Qed.

Lemma spares_symlink_metadata k : spares l (symlink_metadata host k).
Proof.
  apply spares_call. intros t a t' H E. destruct (t !! k); [cbn in E; by injection E as _ <-|done].
Qed.

Lemma spares_set_permissions k p : spares l (set_permissions host k p).
Proof.
  apply spares_call. intros t a t' H E. inv_ok. apply is_file_insert; [done|]. intros Hk. cbn [kind].
  unfold is_file in H. match goal with E : t !! resolved t k = Some ?n |- _ => rewrite Hk in E; rewrite E in H end.
  by apply bool_decide_eq_true in H.
Qed.

Lemma spares_current_uid : spares l (current_uid host).
Proof. apply spares_call. intros t a t' H E. by injection E as _ <-. Qed.

Lemma spares_remove_file k : k ≠ l → spares l (remove_file host k).
Proof.
  intros Hne. apply spares_call. intros t a t' H E. inv_ok. unfold is_file in *. by rewrite lookup_delete_ne.
Qed.

Lemma spares_socket k : spares l (bind host k).
Proof.
  apply spares_call. intros t a t' H E. inv_ok. b2p. by apply is_file_fresh.
Qed.

Lemma spares_create_all fuel p k : spares l (create_all host fuel p k).
Proof.
  revert k. induction fuel as [|fuel IH]; intros k; cbn [create_all]; [apply spares_fail|].
  apply spares_bind; [apply spares_attempt, spares_mkdir|]. intros [[]|[]];
    try (apply spares_bind; [apply spares_is_dir|intros ?; apply spares_refuse]); [apply spares_mret|].
  destruct (parent_of k) as [q|]; [|apply spares_fail].
  apply spares_bind; [destruct (bool_decide _); [apply spares_mret|apply IH]|intros _].
  apply spares_bind; [apply spares_attempt, spares_mkdir|]. intros [[]|e]; [apply spares_mret|].
  apply spares_bind; [apply spares_is_dir|intros ?; apply spares_refuse].
Qed.

Lemma spares_create k p : spares l (create host k p).
Proof. apply spares_create_all. Qed.

(** Listening takes no file away but one at the endpoint. *)
Lemma listen_spares endpoint : location endpoint ≠ l → spares l (listen host endpoint).
Proof.
  intros Hne. unfold listen, open_socket, create_private_dir.
  repeat first [apply spares_create | apply spares_bind; [|intros ?] | apply spares_symlink_metadata
    | apply spares_refuse | apply spares_set_permissions | apply spares_current_uid | apply spares_mret
    | apply spares_socket | apply spares_attempt, spares_remove_file; done
    | match goal with |- spares _ (if ?b then _ else _) => destruct b end].
Qed.
End files.

(** * Properties *)

(** C15. Nobody else reaches the agent's socket. From the moment it is bound,
    before its own mode is tightened and at every later one, whatever processes
    of other users do that may not touch what this user owns, and whatever was
    under the path before: no other user but root can enter the directory the
    socket is in. When listening succeeds the socket also has mode 0600. *)
Theorem socket_is_private (host : Host) (endpoint : bytes) (m m' : Moment) :
  leaves_ours host →
  (open_socket host endpoint m = (Ok tt, m') → ∀ t u,
     later host m'.(tree) t → u ≠ host.(uid) → may_connect u t endpoint = false) ∧
  (listen host endpoint m = (Ok tt, m') →
     m'.(tree) !! location endpoint
       = Some {| kind := Socket; mode := 384; owner := host.(uid) |} ∧
     ∀ t u, later host m'.(tree) t → u ≠ host.(uid) → may_connect u t endpoint = false).
Proof.
  intros Ho. split.
  - intros H t u Hl Hu. apply open_socket_Ok in H as [Hp _]; [|done].
    eapply private_unreachable; [|done]. by eapply private_later.
  - intros H. unfold listen in H. apply sys_bind_Ok in H as ([] & m1 & H & Hs).
    apply open_socket_Ok in H as (Hp & Hsock & Hne); [|done].
    destruct (set_permissions_Ok host Ho _ _ _ _ _ Hs Hsock eq_refl) as [Hs' Hrest]; [done|].
    split; [exact Hs'|]. intros t u Hl Hu. eapply private_unreachable; [|done].
    eapply private_later; [exact Hl|]. destruct Hp as (n & Hn & Hk & How & Hc).
    exists n. split_and!; try done. by apply Hrest.
Qed.

(** What becomes of a path that is taken, with nobody else at work. The
    agent goes on only with a directory of this user's, and closes it to others
    if it was not; a link, a file, a socket and a directory of another user are
    refused. Nothing but that directory's mode changes in any case, and then
    only if this user owns it or is root. *)
Theorem taken_directory_outcomes (host : Host) (d : Location) (m m' : Moment) (n : Node)
    (r : result TransportError unit) :
  undisturbed host → m.(tree) !! d = Some n → create_private_dir host d m = (r, m') →
  (r = Ok tt → n.(kind) = Directory ∧ n.(owner) = host.(uid) ∧
     m'.(tree) = if closed n.(mode) then m.(tree) else <[d := tightened n]> m.(tree)) ∧
  (m'.(tree) = m.(tree) ∨
   m'.(tree) = <[d := tightened n]> m.(tree) ∧ n.(kind) = Directory ∧ closed n.(mode) = false ∧
   (n.(owner) = host.(uid) ∨ host.(uid) = 0)).
Proof.
  intros Q Hd H. unfold create_private_dir, mbind, sys_mbind in H.
  destruct (create host d 448 m) as [r1 m1] eqn:E. apply (create_standing host _ _ _ _ _ _ Q Hd) in E.
  rewrite <- E in Hd |- *. clear m E.
  destruct r1 as [[]|e]; [|injection H as <- <-; by split; [|left]].
  unfold symlink_metadata, call at 1 in H. rewrite Q, Hd in H. cbn [ok_or mbind result_mbind result_bind] in H.
  destruct (host.(denied) m1.(calls)); cbn in H; [injection H as <- <-; by split; [|left]|].
  case_bool_decide as Hk; cbn in H; [|injection H as <- <-; by split; [|left]].
  destruct (closed n.(mode)) eqn:Ec; cbn [negb mret sys_mret] in H.
  - unfold current_uid, call in H. cbn [calls tree] in H. rewrite Q in H.
    destruct (host.(denied) _); cbn in H; [injection H as <- <-; by split; [|left]|].
    destruct (N.eqb_spec n.(owner) host.(uid)); cbn in H; injection H as <- <-; by split; [|left].
  - unfold set_permissions, call at 1 in H. cbn [calls tree] in H. rewrite Q in H.
    rewrite (directory_resolves _ _ _ Hd Hk), Hd in H. cbn [ok_or mbind result_mbind result_bind] in H.
    destruct (host.(denied) _); cbn in H; [injection H as <- <-; by split; [|left]|].
    destruct ((owner n =? uid host) || (uid host =? 0)) eqn:Eu; cbn in H;
      [|injection H as <- <-; by split; [|left]].
    assert (n.(owner) = host.(uid) ∨ host.(uid) = 0) as Hu by lia.
    unfold current_uid, call in H. cbn [calls tree] in H. rewrite Q in H. fold (tightened n) in H.
    destruct (host.(denied) _); cbn in H; [injection H as <- <-; split; [done|by right]|].
    destruct (N.eqb_spec n.(owner) host.(uid)); cbn in H; injection H as <- <-; (split; [done|by right]).
Qed.

(** Fuel: a location has fewer parents than names. *)
Lemma create_all_enough host p l fuel m :
  (length l < fuel)%nat → create_all host fuel p l m = create host l p m.
Proof.
  unfold create. remember (S (length l)) as k eqn:Ek. assert (length l < k)%nat as Hk by lia. clear Ek.
  revert k l m Hk. induction fuel as [|fuel IH]; intros [|k] l m Hk Hf; [lia..|].
  cbn [create_all]. unfold mbind, sys_mbind.
  destruct (attempt (mkdir host l p) m) as [[[[]|[]]|e] m1]; try done.
  destruct (parent_of l) as [q|] eqn:Eq; [|done].
  case_bool_decide as Hq; [done|].
  assert (S (length q) = length l) as El.
  { unfold parent_of in Eq. case_bool_decide as Hl; [done|]. injection Eq as <-.
    assert (l ≠ []) as Hne by naive_solver.
    destruct (exists_last Hne) as (l' & x & ->). rewrite removelast_last, length_app. cbn. lia. }
  by rewrite (IH k) by lia.
Qed.

(** One connection's failure does not keep another from being served: what
    comes before the first error of [incoming] is served in full. *)
Lemma connections_are_independent sha256 b64 {P : Sign.Primitives} {Ap : Approver} a
    (conns : list Connection) rest :
  let '(outcomes, ended) := serve_all sha256 b64 a (map Ok conns ++ rest) in
  take (length conns) outcomes = map (serve_connection sha256 b64 a) conns ∧
  Forall is_Some outcomes ∧ (rest = [] → ended = Ok tt).
Proof.
  induction conns as [|c conns IH]; cbn [map app serve_all length take].
  - destruct (serve_all sha256 b64 a rest) as [outcomes ended] eqn:E. split; [done|].
    revert outcomes ended E. induction rest as [|[c|e] rest IH]; intros outcomes ended; cbn [serve_all].
    + intros [= <- <-]. by split.
    + destruct (serve_all sha256 b64 a rest) as [os en]. intros [= <- <-].
      destruct (IH _ _ eq_refl) as [F _]. split; [|done].
      constructor; [apply serve_enough; lia|done].
    + intros [= <- <-]. by split.
  - destruct (serve_all sha256 b64 a (map Ok conns ++ rest)) as [outcomes ended].
    destruct IH as (Ht & F & He). cbn [take]. split_and!; [by rewrite Ht| |done].
    constructor; [apply serve_enough; lia|done].
Qed.

(** * Witnesses: a neighbour fills free names, and every call is granted *)
Module Samples.
Definition alice : N := 1000.
Definition mallory : N := 2000.
Definition dir (mode owner : N) : Node := {| kind := Directory; mode := mode; owner := owner |}.
Definition tmp : Location := [text "/"; text "tmp"].
Definition squatted : Location := tmp ++ [text "elsewhere"].
Definition endpoint : bytes := text "/tmp/hide-agent/agent.sock".
Definition neighbour (t : Tree) : Tree :=
  if missing t squatted then <[squatted := dir 511 mallory]> t else t.
Definition host (u : N) (o : Tree → Tree) : Host :=
  {| uid := u; umask_leaves := 493; socket_mode := 493; denied _ := false; others _ := o |}.
Definition at_start : Moment := {| tree := {[[text "/"] := dir 493 0; tmp := dir 1023 0]}; calls := 0 |}.

(** A working directory with a letter in it. *)
Definition letter : Location := [text "letter.txt"].
Definition working : Moment :=
  {| tree := {[[] := dir 493 alice; letter := {| kind := Regular; mode := 420; owner := alice |}]}; calls := 0 |}.
Definition theirs : Moment := {| tree := {[letter := dir 493 alice]}; calls := 0 |}.
End Samples.

Lemma neighbour_leaves_ours : leaves_ours (Samples.host Samples.alice Samples.neighbour).
Proof.
  intros i t l n Hl _. unfold Samples.host, others, Samples.neighbour, missing.
  case_bool_decide as Hm; [|done]. rewrite lookup_insert_ne; [done|congruence].
Qed.

Lemma sample_listens :
  is_ok (listen (Samples.host Samples.alice Samples.neighbour) Samples.endpoint Samples.at_start).1 = true.
Proof. vm_compute. reflexivity. Qed.

Lemma socket_is_private_witness :
  ∃ m', listen (Samples.host Samples.alice Samples.neighbour) Samples.endpoint Samples.at_start = (Ok tt, m') ∧
    may_connect Samples.mallory m'.(tree) Samples.endpoint = false.
Proof.
  pose proof sample_listens as H.
  destruct (listen _ Samples.endpoint Samples.at_start) as [[[]|e] m'] eqn:E; [|discriminate H].
  exists m'. split; [reflexivity|].
  destruct (socket_is_private (Samples.host Samples.alice Samples.neighbour) Samples.endpoint
    Samples.at_start m' neighbour_leaves_ours) as [_ Hl].
  destruct (Hl E) as [_ Hu]. apply Hu; [by intros l n|discriminate].
Defined.

Lemma taken_directory_outcomes_witness :
  ∃ r m', create_private_dir (Samples.host 0 (λ t, t)) Samples.letter Samples.theirs = (r, m') ∧ r ≠ Ok tt.
Proof.
  destruct (create_private_dir (Samples.host 0 (λ t, t)) Samples.letter Samples.theirs) as [r m'] eqn:E.
  exists r, m'. split; [reflexivity|]. intros Hr.
  destruct (proj1 (taken_directory_outcomes (Samples.host 0 (λ t, t)) Samples.letter Samples.theirs m'
    (Samples.dir 493 Samples.alice) r (λ _ _, eq_refl) eq_refl E) Hr) as (_ & Hu & _).
  discriminate Hu.
Defined.

(** What stood at the endpoint is removed, socket or not, and the directory the
    endpoint is in, here the working directory, is closed to others. *)
Lemma endpoint_file_removed :
  let '(r, m) := listen (Samples.host Samples.alice (λ t, t)) (text "letter.txt") Samples.working in
  r = Ok tt ∧ m.(tree) !! Samples.letter = Some {| kind := Socket; mode := 384; owner := Samples.alice |} ∧
  m.(tree) !! ([] : Location) = Some (Samples.dir 448 Samples.alice).
Proof. vm_compute. by split_and!. Qed.

(** Root closes another user's directory before refusing it. *)
Lemma root_tightens_before_refusing :
  let '(r, m) := create_private_dir (Samples.host 0 (λ t, t)) Samples.letter Samples.theirs in
  r = Err OwnedByAnother ∧ m.(tree) !! Samples.letter = Some (Samples.dir 448 Samples.alice).
Proof. vm_compute. by split. Qed.
