(* ===== verification/Cli.v ===== *)
(** [hide-cli/src/main.rs]: the commands as the binary takes them. [Arguments]
    and [Command] are what the parser hands over, [run] dispatches them, and a
    command that reports gives what it reports. The epoch commands of EpochCli.v
    work here on the files of FileSystem.v, and the agent listens with the calls
    of Transport.v on a tree that holds those files. *)
From Stdlib Require Import Strings.Byte.
From stdpp Require Import gmap sorting.
From S2P Require Import Transport.
From S2P Require Import Prelude Utf8 Cbor Format Sign Note Crypto Stream Records Codec Object Keyring.
From S2P Require Import Epoch Identity Agent EpochStore EpochCli Armor FileSystem FileCli.
Local Open Scope N_scope.

#[local] Existing Instance Hybrid.scheme.

(** * Text *)

(** [{byte:02x}] *)
Definition hex_digit (n : N) : byte := byte_of (if n <? 10 then 48 + n else 87 + n).
Definition hex_byte (b : byte) : bytes :=
  [hex_digit (Byte.to_N b / 16); hex_digit (Byte.to_N b mod 16)].

Definition short_hex (b : bytes) : bytes := concat (map hex_byte (take 8 b)).

(** [path.display()] on Unix: the path's bytes, with each longest part that
    could begin a character and does not replaced by U+FFFD. *)
Definition lead_byte (n : N) : option (nat * N * N) :=
  if n <? 194 then None
  else if n <? 224 then Some (1%nat, 128, 191)
  else if n <? 240 then Some (2%nat, if n =? 224 then 160 else 128, if n =? 237 then 159 else 191)
  else if n <? 245 then Some (3%nat, if n =? 240 then 144 else 128, if n =? 244 then 143 else 191)
  else None.

(** How many of the [count] bytes a character still needs follow. *)
Fixpoint following (count : nat) (lo hi : N) (l : bytes) : nat * bool :=
  match count, l with
  | O, _ => (O, true)
  | S _, [] => (O, false)
  | S count, b :: l =>
      if (lo <=? Byte.to_N b) && (Byte.to_N b <=? hi)
      then let '(n, whole) := following count 128 191 l in (S n, whole) else (O, false)
  end.

Definition next_char (b : byte) (l : bytes) : nat * bool :=
  if Byte.to_N b <? 128 then (1%nat, true) else
  match lead_byte (Byte.to_N b) with
  | None => (1%nat, false)
  | Some (count, lo, hi) => let '(n, whole) := following count lo hi l in (S n, whole)
  end.

Fixpoint lossy (fuel : nat) (l : bytes) : bytes :=
  match fuel, l with
  | S fuel, b :: r =>
      let '(n, whole) := next_char b r in
      (if whole then take n l else map byte_of [239; 191; 189]) ++ lossy fuel (drop n l)
  | _, _ => []
  end.

Definition display (p : bytes) : bytes := lossy (length p) p.

Example display_text : display (text "keys/alice") = text "keys/alice".
Proof. reflexivity. Qed.
(** A truncated character is one replacement, a stray byte another. *)
Example display_broken :
  display (map byte_of [226; 130; 255; 65]) = map byte_of [239; 191; 189; 239; 191; 189; 65].
Proof. reflexivity. Qed.

(** * What the parser hands over *)
Inductive Command :=
| Keygen (secret public : bytes) (insecure_plaintext armor : bool) (signing_public : option bytes)
| TestKeygen (secret public : bytes)
| Encrypt (input : bytes) (recipient : list bytes) (output : bytes) (sign : option bytes)
    (public_signature : bool)
| Open (input : bytes) (secret epoch_store : option bytes) (output : bytes)
| Seal (message : option bytes) (recipient : list bytes) (output : option bytes)
| Unseal (input : option bytes) (secret : bytes)
| Info (path : bytes)
| Share (public : bytes)
| Passwd (secret : bytes)
| SignFile (input secret : bytes) (output : option bytes)
| VerifyFile (input signer : bytes) (signature : option bytes)
| SshKey (secret : bytes) (comment : option bytes)
| RunAgent (secret : bytes) (endpoint : option bytes) (no_confirm : bool) (comment : option bytes)
| IdentityCreate (secret recovery label output : bytes)
| IdentityEnrol (log secret device label recovery : bytes)
| IdentityRevoke (log secret device recovery : bytes)
| IdentityShow (log recovery : bytes)
| EpochInit (output store : bytes)
| EpochAdvance (chain store : bytes)
| EpochErase (epoch : N) (chain store : bytes)
| EpochShow (chain : bytes)
| EpochPublic (epoch : option N) (chain output : bytes).

Record Arguments := { experimental : bool; quiet_banner : bool; command : Command }.

(** The terminal and the environment of the process: what standard input holds,
    whether a person can be asked on the terminal, and [XDG_RUNTIME_DIR]; for the
    agent, the system it listens on, the directories, links and sockets there,
    and the mode and owner of each file. *)
Record Console := {
  stdin : bytes;
  terminal : bool;
  runtime_dir : option bytes;
  host : Transport.Host;
  around : Transport.Tree;
  permissions : list bytes → N * N;
}.

Inductive RunError :=
| Unacknowledged
| SecretOrStore
| MissingFile
| TooShortForContainer
| NotAContainer
| StdinNotText
| NoTerminal
| NotListening (e : Transport.TransportError)
| Failed (e : CommandError).

(** ** What a command prints, and what an agent goes on with *)

Inductive Description :=
| ProtectedKey
| PlainKey
| PublicKeyFile
| SigningKeyFile (fingerprint : option bytes)
| DetachedSignature (signer : option bytes)
| ContainerFile (major minor flags size : N) (signed : result FormatError bool).

(** A device as [identity-show] lists it: short id, label, entry. *)
Record Listed := { listed_id : bytes; listed_label : bytes; listed_at : N }.

Inductive Report :=
| Nothing
| Printed (b : bytes)
| Described (d : Description)
| Identities_ (head : bytes) (entries : N) (devices : list Listed)
| Epochs_ (links : list (N * bytes))
| Serving (agent : Agent.Agent) (endpoint : bytes) (asks : bool).

Definition id_le `{SignatureScheme} (a b : Device) : Prop :=
  unbe a.(Identity.id) <= unbe b.(Identity.id).
#[export] Instance id_le_dec `{SignatureScheme} a b : Decision (id_le a b).
Proof. unfold id_le. apply _. Defined.

Section cli.
Context {C : Cbor} {SP : Sign.Primitives} {P : Crypto.Primitives}.
Context {A : Argon2} {U : Unicode} {X : Expand} {B : Base64}.
Context (env : Env) (con : Console).

(** A command of FileCli.v, its error under this file's. *)
Abbreviation Run := (Cmd RunError).
Definition from {T} (m : FileCli.Command T) : Run T := cmd_map_err Failed m.

Definition fingerprint (k : VK) : bytes := short_hex (hash [vk_to_bytes k]).

(** ** [info] *)

(** The preamble of anything that is not a key. *)
Definition describe_container (p : bytes) : Run Description :=
  b ← (λ fs, (ok_or (fs !! location p) MissingFile, fs));
  '(preamble, _) ← lift (map_err (λ _, TooShortForContainer) (read_exact 16 (env.(reading) 0 b)));
  lift (refuse_if (negb (bool_decide (take 8 preamble = Format.MAGIC))) NotAContainer);;
  mret (ContainerFile (byte_at 8 preamble) (byte_at 9 preamble) (byte_at 11 preamble) (lenN b)
    (decoded ← Preamble.decode preamble; Ok (Preamble.is_signed decoded))).

Definition key_fingerprint (b : bytes) : option bytes :=
  match vk_from_bytes b with Ok k => Some (fingerprint k) | Err _ => None end.

Definition describe (p : bytes) : Run Description := λ fs,
  match read_file p MAX_SIGNING_KEY_FILE fs with
  | (Ok b, fs) =>
      match inspect b with
      | Protected => (Ok ProtectedKey, fs)
      | Raw =>
          if lenN b =? 32 then (Ok PlainKey, fs)
          else if lenN b =? PUBLIC_KEY_LEN then (Ok PublicKeyFile, fs)
          else if lenN b =? SIGNING_PUBLIC_LEN then (Ok (SigningKeyFile (key_fingerprint b)), fs)
          else if lenN b =? SIGNING_PUBLIC_LEN + SIGNATURE_LENGTH
          then (Ok (DetachedSignature (key_fingerprint (take (N.to_nat SIGNING_PUBLIC_LEN) b))), fs)
          else describe_container p fs
      end
  | (Err _, fs) => describe_container p fs
  end.

(** ** Identities and epochs, shown *)

(** [BTreeMap::values]: ids are 32 bytes, ordered as they are numbered. *)
Definition in_order : list Device → list Device := merge_sort id_le.

Definition identity_show (log_path recovery : bytes) : Run Report :=
  log ← from (load_identity_log log_path recovery);
  let membership := Identity.membership sha256 log in
  mret (Identities_ (short_hex (Identity.head log)) (lenN log.(Identity.entries))
    (map (λ d, {| listed_id := short_hex d.(Identity.id); listed_label := d.(Identity.label);
                  listed_at := d.(Identity.enrolled_at) |})
       (in_order (map snd (map_to_list membership.(Identity.devices)))))).

Definition epoch_show (chain : bytes) : Run Report :=
  b ← from (cmd_map_err File (read_file chain MAX_LOG_FILE));
  records ← lift (map_err (λ e, Failed (Epochs e)) (decode_records b));
  lift (map_err (λ e, Failed (Epochs e)) (Epoch.verify sha256 records));;
  mret (Epochs_ (map (λ r, (r.(Epoch.number), short_hex r.(Epoch.link))) records)).

(** ** Epoch commands, on files *)

Definition on_disk (chain store : bytes) (fs : Files) : Disk :=
  {| history := fs !! location chain; store_file := fs !! location store |}.

(** What the process draws: a seed where the command makes an epoch, then the
    salt and the nonces of the store. *)
Definition draws_for (makes_epoch : bool) : Draws :=
  let first := if makes_epoch then 1%nat else 0%nat in
  {| epoch_seed := env.(random) 0; store_salt := env.(random) first;
     store_nonces i := env.(random) (S first + i) |}.

Definition write_at (chain store : bytes) (w : Write) : bytes :=
  match w with WriteStore _ => store | WriteHistory _ => chain end.
Definition write_bytes (w : Write) : bytes :=
  match w with WriteStore b | WriteHistory b => b end.

Definition planned (chain store : bytes) (plan : Disk → result CliError (list Write))
  : Run (list Write) :=
  λ fs, (map_err (λ e, Failed (File (Reading e))) (plan (on_disk chain store fs)), fs).

(** [write_public_file] for each. *)
Fixpoint replace_each (i : N) (chain store : bytes) (ws : list Write) : Run unit :=
  match ws with
  | [] => mret tt
  | w :: ws =>
      cmd_map_err (λ e, Failed (File e))
        (replace_file env i (write_at chain store w) (write_bytes w));;
      replace_each (i + 1) chain store ws
  end.

(** All are staged before the first is published. *)
Fixpoint stage_each (ws : list Write) : Run (list bytes) :=
  match ws with
  | [] => mret []
  | w :: ws => b ← from (staged env [write_bytes w]); bs ← stage_each ws; mret (b :: bs)
  end.

Fixpoint publish_each (i : N) (files : list (bytes * bytes)) : Run unit :=
  match files with
  | [] => mret tt
  | (p, b) :: files => from (publish env i b p);; publish_each (i + 1) files
  end.

Definition ask (i : N) : Run bytes :=
  lift (map_err (λ e, Failed (File e)) (prompt_passphrase env i)).

Definition epoch_init (output store : bytes) : Run Report :=
  lift (refuse_if (path_eqb output store) (Failed (File (Reading SamePath))));;
  from (output_at output);;
  from (output_at store);;
  passphrase ← lift (map_err (λ e, Failed (File e)) (prompt_new_passphrase env 0));
  ws ← planned output store (λ d, EpochCli.epoch_init_with d passphrase (draws_for true));
  bs ← stage_each ws;
  publish_each 0 (zip (map (write_at output store) ws) bs);;
  mret Nothing.

Definition epoch_advance (chain store : bytes) : Run Report :=
  passphrase ← ask 0;
  ws ← planned chain store (λ d, EpochCli.epoch_advance_with d passphrase (draws_for true));
  replace_each 0 chain store ws;;
  mret Nothing.

Definition epoch_erase (number : N) (chain store : bytes) : Run Report :=
  passphrase ← ask 0;
  ws ← planned chain store (λ d, EpochCli.epoch_erase_with d number passphrase (draws_for false));
  replace_each 0 chain store ws;;
  mret Nothing.

(** ** ssh *)

(** [agent::authorized_key_line] *)
Definition authorized_key_line (public comment : bytes) : bytes :=
  KEY_TYPE ++ text " " ++ b64_encode (public_key_blob public) ++ text " " ++ comment.

Definition ssh_agent_for (secret : bytes) (comment : option bytes) : Run Agent.Agent :=
  identity ← from (load_signing_identity env secret 0);
  mret (new_agent identity (default (text "hide:" ++ display secret) comment)).

Definition print_ssh_key (secret : bytes) (comment : option bytes) : Run Report :=
  agent ← ssh_agent_for secret comment;
  mret (Printed (authorized_key_line agent.(agent_public) agent.(Agent.comment) ++ [byte_of 10])).

(** [transport::default_endpoint], on Unix *)
Definition default_endpoint : bytes :=
  default (text "/tmp") con.(runtime_dir) ++ text "/hide-agent/agent.sock".

(** The files as [listen] finds them among everything else, and which of them
    are there when it is done. *)
Definition standing (fs : Files) : Transport.Tree :=
  map_imap (λ l _, Some {| Transport.kind := Transport.Regular; Transport.mode := (con.(permissions) l).1;
                           Transport.owner := (con.(permissions) l).2 |}) fs ∪ con.(around).

Definition remaining (t : Transport.Tree) (fs : Files) : Files :=
  map_imap (λ l b, if Transport.is_file t l then Some b else None) fs.

(** [transport::listen], up to the first connection. *)
Definition listening (endpoint : bytes) : Run unit := λ fs,
  let '(r, m) := Transport.listen con.(host) endpoint
                   {| Transport.tree := standing fs; Transport.calls := 0 |} in
  (map_err NotListening r, remaining m.(Transport.tree) fs).

(** Serving a connection is [Agent.serve], and all of them [Transport.serve_all]. *)
Definition run_agent (secret : bytes) (endpoint : option bytes) (no_confirm : bool)
    (comment : option bytes) : Run Report :=
  agent ← ssh_agent_for secret comment;
  let endpoint := default default_endpoint endpoint in
  (if no_confirm then mret tt else lift (refuse_if (negb con.(terminal)) NoTerminal));;
  listening endpoint;;
  mret (Serving agent endpoint (negb no_confirm)).

(** ** Dispatch *)

Definition silently {T} (m : Run T) : Run Report := m;; mret Nothing.

Definition open_command (input : bytes) (secret store : option bytes) (output : bytes) : Run Report :=
  match secret, store with
  | Some secret, None => silently (from (open_file env input secret output))
  | None, Some store => silently (from (open_with_epoch_store env input store output))
  | _, _ => lift (Err SecretOrStore)
  end.

(** The message is read once the recipients are known. *)
Definition seal_command (message : option bytes) (recipients : list bytes) (output : option bytes)
  : Run Report :=
  armored ← (match message with
             | Some text => from (seal_message env text recipients output)
             | None =>
                 if utf8_valid con.(stdin) then from (seal_message env con.(stdin) recipients output)
                 else from (load_recipients recipients);; lift (Err StdinNotText)
             end);
  mret (match armored with Some b => Printed b | None => Nothing end).

(** What is printed ends with a line feed. *)
Definition ended (b : bytes) : bytes :=
  if bool_decide (last b = Some (byte_of 10)) then b else b ++ [byte_of 10].

Definition unseal_command (input : option bytes) (secret : bytes) : Run Report :=
  b ← (match input with
       | Some path => λ fs, (ok_or (fs !! location path) MissingFile, fs)
       | None => mret con.(stdin)
       end);
  '(message, _) ← from (unseal_message env b secret);
  mret (Printed (ended message)).

Definition keygen_command (secret public : bytes) (plaintext armor : bool)
    (signing_public : option bytes) : Run Report :=
  armored ← from (keygen env secret public plaintext signing_public);
  mret (if armor then Printed armored else Nothing).

Definition execute (c : Command) : Run Report :=
  match c with
  | Keygen secret public plaintext armor signing =>
      keygen_command secret public plaintext armor signing
  | TestKeygen secret public => keygen_command secret public true false None
  | Encrypt input recipient output sign public_signature =>
      silently (from (encrypt_file env input recipient output sign public_signature))
  | Open input secret store output => open_command input secret store output
  | Seal message recipient output => seal_command message recipient output
  | Unseal input secret => unseal_command input secret
  | Info path => d ← describe path; mret (Described d)
  | Share public => b ← from (share public); mret (Printed b)
  | Passwd secret => silently (from (change_passphrase env secret))
  | SignFile input secret output => silently (from (sign_file env input secret output))
  | VerifyFile input signer signature => silently (from (verify_file env input signer signature))
  | SshKey secret comment => print_ssh_key secret comment
  | RunAgent secret endpoint no_confirm comment => run_agent secret endpoint no_confirm comment
  | IdentityCreate secret recovery label output =>
      silently (from (identity_create env secret recovery label output))
  | IdentityEnrol log secret device label recovery =>
      silently (from (identity_enrol env log secret device label recovery))
  | IdentityRevoke log secret device recovery =>
      silently (from (identity_revoke env log secret device recovery))
  | IdentityShow log recovery => identity_show log recovery
  | EpochInit output store => epoch_init output store
  | EpochAdvance chain store => epoch_advance chain store
  | EpochErase epoch chain store => epoch_erase epoch chain store
  | EpochShow chain => epoch_show chain
  | EpochPublic epoch chain output => silently (from (epoch_public env epoch chain output))
  end.

Definition run (args : Arguments) : Run Report :=
  lift (refuse_if (negb args.(experimental)) Unacknowledged);;
  execute args.(command).
End cli.

(** * What the commands may touch *)

(** The files a command renews, in place; those it overwrites or removes though
    it is to make something new there; and those it makes. *)
Definition renews (c : Command) : list bytes :=
  match c with
  | Passwd p | IdentityEnrol p _ _ _ _ | IdentityRevoke p _ _ _
  | EpochErase _ _ p => [p]
  | EpochAdvance chain store => [store; chain]
  | _ => []
  end.

Definition clobbers (con : Console) (c : Command) : list bytes :=
  match c with
  | IdentityCreate _ _ _ p => [p]
  | RunAgent _ endpoint _ _ => [default (default_endpoint con) endpoint]
  | _ => []
  end.

Definition replaces (con : Console) (c : Command) : list bytes := renews c ++ clobbers con c.

Definition creates (c : Command) : list bytes :=
  match c with
  | Keygen secret public _ _ signing =>
      [secret; default (append_extension public (text "sign")) signing; public]
  | TestKeygen secret public => [secret; append_extension public (text "sign"); public]
  | Encrypt _ _ p _ _ | Open _ _ _ p | Seal _ _ (Some p) | EpochPublic _ _ p => [p]
  | SignFile input _ output => [signature_path input output]
  | EpochInit output store => [store; output]
  | _ => []
  end.

Section touching.
Context (env : Env) (con : Console).

(** Other processes only add files; or there are none at work. *)
Definition additive : Prop :=
  (∀ i fs, fs ⊆ env.(others) i fs) ∧ ∀ i t, t ⊆ Transport.others con.(host) i t.
Definition alone : Prop := quiet env ∧ Transport.undisturbed con.(host).

Lemma alone_additive : alone → additive.
Proof. intros [Q H]. split; intros; [by rewrite Q|by rewrite H]. Qed.

(** Whatever happens, files outside [reps] keep what they hold, while other
    processes only add files; and with no other process at work, nothing
    changes outside [reps] and [news]. *)
Definition touches (reps news : list bytes) {E T} (m : Cmd E T) : Prop := ∀ fs,
  (additive → ∀ l b, l ∉ map location reps → fs !! l = Some b → (m fs).2 !! l = Some b) ∧
  (alone → ∀ l, l ∉ map location (reps ++ news) → (m fs).2 !! l = fs !! l).

Lemma touches_reads reps news {E T} (m : Cmd E T) : reads_only m → touches reps news m.
Proof. intros H fs. by rewrite H. Qed.

Lemma touches_bind reps news {E T V} (m : Cmd E T) (f : T → Cmd E V) :
  touches reps news m → (∀ a, touches reps news (f a)) → touches reps news (m ≫= f).
Proof.
  intros Hm Hf fs. destruct (Hm fs) as [H1 H2]. unfold mbind, cmd_mbind.
  destruct (m fs) as [[a|e] fs1]; cbn [snd] in *; [|done].
  destruct (Hf a fs1) as [G1 G2]. split.
  - intros Ho l b Hl Hb. by apply G1, H1.
  - intros Q l Hl. by rewrite G2, H2.
Qed.

Lemma touches_map_err reps news {E F T} (g : E → F) (m : Cmd E T) :
  touches reps news m → touches reps news (cmd_map_err g m).
Proof. intros H fs. specialize (H fs). unfold cmd_map_err. by destruct (m fs). Qed.

Lemma touches_more reps news reps' news' {E T} (m : Cmd E T) :
  reps ⊆ reps' → news ⊆ news' → touches reps news m → touches reps' news' m.
Proof.
  intros Hr Hn H fs. destruct (H fs) as [H1 H2]. split.
  - intros Ho l b Hl. apply H1; [done|]. contradict Hl. revert Hl.
    rewrite !list_elem_of_fmap. intros (x & -> & Hx). eauto.
  - intros Q l Hl. apply H2; [done|]. contradict Hl. revert Hl.
    rewrite !list_elem_of_fmap. intros (x & -> & Hx). exists x. split; [done|].
    rewrite elem_of_app in *. destruct Hx; eauto.
Qed.

Lemma touches_publishing i ps {E T} (m : Cmd E T) :
  publishes env i (named_as ps) m → touches [] ps m.
Proof.
  intros H fs. destruct (H fs) as [[_ He]|(os & <- & Hc)]; [by rewrite He|].
  unfold commits in Hc. clear H. split.
  - intros [Ho _] l b _ Hb. eapply lookup_weaken; [exact Hb|]. by eapply publishing_adds.
  - intros [Q _] l Hl. cbn [app] in Hl. revert Hl.
    induction Hc as [| |i fs p b os c|i fs p b os fs' ok _ Hn _ IH]; intros Hl; [done|done|by rewrite Q|].
    cbn in Hl. apply not_elem_of_cons in Hl as [Hne Hl]. rewrite IH by done. rewrite Q.
    by rewrite lookup_insert_ne.
Qed.

(** Listening removes at most what stands at the endpoint. *)
Lemma touches_listening endpoint : touches [endpoint] [] (listening con endpoint).
Proof.
  assert (∀ fs l b, additive → l ≠ location endpoint → fs !! l = Some b →
    (listening con endpoint fs).2 !! l = Some b) as Hkeep.
  { intros fs l b [_ Ha] Hl Hb. unfold listening.
    pose proof (Transport.listen_spares con.(host) l Ha endpoint (not_eq_sym Hl)
      {| Transport.tree := standing con fs; Transport.calls := 0 |}) as Hs.
    destruct (Transport.listen _ _ _) as [r m]. cbn [snd] in *. unfold remaining.
    rewrite map_lookup_imap, Hb. cbn. rewrite Hs; [done|]. cbn.
    unfold Transport.is_file, standing. rewrite (lookup_union_Some_l _ _ l
      {| Transport.kind := Transport.Regular; Transport.mode := (con.(permissions) l).1;
         Transport.owner := (con.(permissions) l).2 |}); [done|]. by rewrite map_lookup_imap, Hb. }
  intros fs. split; [intros Ha l b Hl; apply Hkeep; [done|]|intros Q l Hl].
  - cbn [map] in Hl. by rewrite list_elem_of_singleton in Hl.
  - cbn [map app] in Hl. rewrite list_elem_of_singleton in Hl. destruct (fs !! l) as [b|] eqn:E.
    + by apply Hkeep; [apply alone_additive|..].
    + unfold listening, remaining. destruct (Transport.listen _ _ _) as [r m]. cbn.
      by rewrite map_lookup_imap, E.
Qed.

(** It adds no file. *)
Lemma listening_removes endpoint fs : (listening con endpoint fs).2 ⊆ fs.
Proof.
  unfold listening, remaining. destruct (Transport.listen _ _ _) as [r m]. cbn.
  apply map_subseteq_spec. intros l b. rewrite map_lookup_imap.
  destruct (fs !! l) as [c|]; [cbn|done]. by destruct (Transport.is_file _ l).
Qed.

Lemma touches_replace i p b : touches [p] [] (replace_file env i p b).
Proof.
  intros fs. unfold replace_file, rename_over, mbind, cmd_mbind, lift.
  destruct (stage env [b]) as [staged|e]; cbn [snd]; [|done].
  destruct (env.(synced) i); cbn [snd]; [|done]. split.
  - intros [Ho _] l c Hl Hc. rewrite lookup_insert_ne by (cbn in Hl; set_solver).
    eapply lookup_weaken; [exact Hc|apply Ho].
  - intros [Q _] l Hl. rewrite lookup_insert_ne by (cbn in Hl; set_solver). by rewrite Q.
Qed.

(** As [touches_bind], knowing that the first command gave [a]. *)
Lemma touches_then reps news {E T V} (m : Cmd E T) (f : T → Cmd E V) :
  reads_only m → (∀ fs a fs', m fs = (Ok a, fs') → touches reps news (f a)) →
  touches reps news (m ≫= f).
Proof.
  intros Hm Hf fs. specialize (Hm fs). unfold mbind, cmd_mbind.
  destruct (m fs) as [[a|e] fs1] eqn:Em; cbn [snd] in *; subst; [by eapply Hf|done].
Qed.
End touching.

Create HintDb touch.
#[export] Hint Resolve touches_replace touches_listening : touch.

(** Decides what a command touches, step by step. *)
Ltac touch_step :=
  first
    [ apply touches_reads; solve [files]
    | solve [auto with touch]
    | match goal with
      | |- ∀ _, _ => intros
      | |- touches _ _ _ _ (cmd_map_err _ _) => apply touches_map_err
      | |- touches _ _ _ _ (_ ≫= _) => apply touches_bind
      | |- context [match ?x with _ => _ end] => destruct x
      end ].
Ltac touch := repeat touch_step.

Section commands.
Context {C : Cbor} {SP : Sign.Primitives} {P : Crypto.Primitives}.
Context {A : Argon2} {U : Unicode} {X : Expand} {B : Base64}.
Context (env : Env) (con : Console).

Lemma touches_change_passphrase p : touches env con [p] [] (change_passphrase env p).
Proof. unfold change_passphrase. touch. Qed.

Lemma touches_write_log p l : touches env con [p] [] (write_log env p l).
Proof. unfold write_log. touch. Qed.

Lemma reads_load_log log recovery : reads_only (load_identity_log log recovery).
Proof. apply reads_load_identity_log. Qed.
Hint Resolve reads_load_log : files.

Hint Resolve touches_write_log touches_change_passphrase : touch.

Lemma touches_identity_create s r l p : touches env con [p] [] (identity_create env s r l p).
Proof. unfold identity_create. touch. Qed.
Lemma touches_identity_enrol p s d l r : touches env con [p] [] (identity_enrol env p s d l r).
Proof. unfold identity_enrol. touch. Qed.
Lemma touches_identity_revoke p s d r : touches env con [p] [] (identity_revoke env p s d r).
Proof. unfold identity_revoke. touch. Qed.
Hint Resolve touches_identity_create touches_identity_enrol touches_identity_revoke : touch.

Lemma touches_replace_each chain store ws i :
  touches env con (map (write_at chain store) ws) [] (replace_each env i chain store ws).
Proof.
  revert i. induction ws as [|w ws IH]; intros i; cbn [replace_each map]; [touch|].
  apply touches_bind; [apply touches_map_err|intros _];
    eapply touches_more; [| |apply touches_replace| | |apply IH]; set_solver.
Qed.

Lemma reads_planned chain store plan : reads_only (planned chain store plan).
Proof. done. Qed.
Lemma reads_stage_each ws : reads_only (stage_each env ws).
Proof. induction ws; cbn [stage_each]; [files|]. unfold from, staged. files. Qed.
Lemma reads_lookup {E} p (e : E) : reads_only (λ fs : Files, (ok_or (fs !! location p) e, fs)).
Proof. done. Qed.
Hint Resolve reads_planned reads_stage_each reads_lookup reads_output_at reads_staged : files.

Lemma reads_describe_container p : reads_only (describe_container env p).
Proof. unfold describe_container. files. Qed.

Lemma reads_describe p : reads_only (describe env p).
Proof.
  intros fs. pose proof (reads_describe_container p) as Hc. unfold describe.
  pose proof (reads_read_file p MAX_SIGNING_KEY_FILE fs) as H.
  destruct (read_file p MAX_SIGNING_KEY_FILE fs) as [[b|e] fs1]; cbn [snd] in H; subst;
    repeat case_match; try done; apply Hc.
Qed.
Hint Resolve reads_describe : files.

Lemma reads_ssh_agent_for p c : reads_only (ssh_agent_for env p c).
Proof. unfold ssh_agent_for, from. files. Qed.
Hint Resolve reads_ssh_agent_for : files.

(** A command of FileCli.v that publishes its outputs. *)
Lemma touches_from_publishing {T} (m : FileCli.Command T) ps :
  publishes env 0 (named_as ps) m → touches env con [] ps (from m).
Proof. intros H. by eapply touches_map_err, touches_publishing. Qed.

Lemma touches_silently {T} (m : Cmd RunError T) reps news :
  touches env con reps news m → touches env con reps news (silently m).
Proof. intros H. apply touches_bind; [done|touch]. Qed.

Lemma erase_plan d n pw draws ws :
  EpochCli.epoch_erase_with d n pw draws = Ok ws → ∃ f, ws = [WriteStore f].
Proof. unfold epoch_erase_with. intros H. inv_ok. by eexists. Qed.

Lemma advance_plan d pw draws ws :
  EpochCli.epoch_advance_with d pw draws = Ok ws → ∃ f h, ws = [WriteStore f; WriteHistory h].
Proof. unfold epoch_advance_with. intros H. inv_ok. by do 2 eexists. Qed.

Lemma init_plan d pw draws ws :
  EpochCli.epoch_init_with d pw draws = Ok ws → ∃ f h, ws = [WriteStore f; WriteHistory h].
Proof. unfold epoch_init_with. intros H. inv_ok. by do 2 eexists. Qed.

Lemma planned_Ok chain store plan fs ws fs' :
  planned chain store plan fs = (Ok ws, fs') → plan (on_disk chain store fs) = Ok ws ∧ fs' = fs.
Proof. unfold planned. destruct (plan _); cbn; naive_solver. Qed.

Lemma touches_epoch_advance chain store : touches env con [store; chain] [] (epoch_advance env chain store).
Proof.
  unfold epoch_advance, ask. apply touches_bind; [touch|intros pw].
  apply touches_then; [files|]. intros fs ws fs' H. apply planned_Ok in H as [H _].
  apply advance_plan in H as (f & h & ->).
  apply touches_bind; [exact (touches_replace_each chain store [WriteStore f; WriteHistory h] 0)|touch].
Qed.

Lemma touches_epoch_erase n chain store : touches env con [store] [] (epoch_erase env n chain store).
Proof.
  unfold epoch_erase, ask. apply touches_bind; [touch|intros pw].
  apply touches_then; [files|]. intros fs ws fs' H. apply planned_Ok in H as [H _].
  apply erase_plan in H as (f & ->).
  apply touches_bind; [exact (touches_replace_each chain store [WriteStore f] 0)|touch].
Qed.

Lemma touches_publish_each i files :
  touches env con [] (map fst files) (publish_each env i files).
Proof.
  revert i. induction files as [|[p b] files IH]; intros i; cbn [publish_each map fst]; [touch|].
  apply touches_bind; [|intros _; eapply touches_more; [| |apply IH]; set_solver].
  eapply touches_more; [| |apply touches_map_err, (touches_publishing env con i [p]);
    intros fs; eapply publishes_by; [apply commits_last|done]]; set_solver.
Qed.

Lemma touches_epoch_init output store : touches env con [] [store; output] (epoch_init env output store).
Proof.
  unfold epoch_init, from. do 4 (apply touches_bind; [touch|intros ?]).
  apply touches_then; [files|]. intros fs ws fs' H. apply planned_Ok in H as [H _].
  apply init_plan in H as (f & h & ->). apply touches_then; [files|]. intros fs1 bs fs2 _.
  apply touches_bind; [|touch]. eapply touches_more; [| |apply touches_publish_each]; [done|].
  destruct bs as [|b [|c bs]]; cbn; set_solver.
Qed.

Lemma run_agent_removes secret endpoint no_confirm comment fs :
  (run_agent env con secret endpoint no_confirm comment fs).2 ⊆ fs.
Proof.
  unfold run_agent. pose proof (reads_ssh_agent_for secret comment fs) as Ha.
  unfold mbind, cmd_mbind in *. destruct (ssh_agent_for env secret comment fs) as [[a|e] fs1]; cbn in Ha; subst; [|done].
  destruct no_confirm; cbn; [|destruct (terminal con); cbn; [|done]];
    match goal with |- context [listening con ?p fs] =>
      pose proof (listening_removes con p fs) as Hl; by destruct (listening con p fs) as [[]] end.
Qed.

Lemma run_touches args :
  touches env con (replaces con args.(command)) (creates args.(command)) (run env con args).
Proof.
  destruct commands_publish_names with (env := env) as (He & Ho & Hs & Hg & Hm & Hp & Hk).
  destruct commands_publish with (env := env) as (_ & _ & _ & _ & _ & _ & _ & Hv & Hu & Hh).
  unfold run. apply touches_bind; [touch|intros _].
  destruct args.(command); unfold replaces; cbn [execute renews clobbers app creates];
    unfold keygen_command, open_command, seal_command, unseal_command, identity_show, epoch_show,
      print_ssh_key, run_agent.
  all: repeat first
    [ apply touches_silently
    | apply touches_from_publishing; solve [auto]
    | apply touches_epoch_advance | apply touches_epoch_erase | apply touches_epoch_init
    | progress touch ].
  all: try solve [apply touches_map_err; touch].
  - exact (touches_from_publishing _ _ (Hk secret public true None)).
  - exact (touches_from_publishing _ _ (Hm _ _ (Some _))).
  - exact (touches_from_publishing _ _ (Hm _ _ (Some _))).
  - exact (touches_from_publishing _ _ (Hm _ _ None)).
  - exact (touches_from_publishing _ _ (Hm _ _ None)).
Qed.

(** C14. What the command line touches. Without [--experimental] it refuses and
    changes nothing. With it, whatever the command, its arguments and its
    outcome, and while other processes only add files, every existing file keeps
    its contents but the few a command renews in place (the key whose passphrase
    changes, the log it extends, the history and the store of the epochs), and
    two it should have left alone: what stands at the output of
    [identity-create], and at the endpoint of [agent], which serves with no new
    file and only takes away. When nothing else is at work, no file appears or
    changes but those and the command's own outputs. *)
Theorem run_keeps_files args fs :
  let fs' := (run env con args fs).2 in
  (additive env con → ∀ l b,
     l ∉ map location (renews args.(command) ++ clobbers con args.(command)) →
     fs !! l = Some b → fs' !! l = Some b) ∧
  (alone env con → ∀ l,
     l ∉ map location (renews args.(command) ++ clobbers con args.(command) ++ creates args.(command)) →
     fs' !! l = fs !! l) ∧
  (∀ secret endpoint no_confirm comment,
     args.(command) = RunAgent secret endpoint no_confirm comment → fs' ⊆ fs) ∧
  (args.(experimental) = false → run env con args fs = (Err Unacknowledged, fs)).
Proof.
  destruct (run_touches args fs) as [H1 H2]. unfold replaces in *. rewrite <- app_assoc in H2.
  split_and!; [exact H1|exact H2| |].
  - intros secret endpoint no_confirm comment E. unfold run. rewrite E. cbn [execute].
    destruct args.(experimental); [|done]. by apply run_agent_removes.
  - intros H. unfold run. by rewrite H.
Qed.
End commands.

(** * The epoch commands on files *)
Section epochs.
Context {C : Cbor} {CL : CborLaws C} {CS : CborSizes C} {SP : Sign.Primitives}.
Context {P : Crypto.Primitives} {L : Crypto.PrimitivesLaws P}.
Context {A : Argon2} {U : Unicode} {X : Expand} {B : Base64}.

Lemma write_on_disk chain store fs w :
  location chain ≠ location store →
  on_disk chain store (<[location (write_at chain store w) := write_bytes w]> fs)
    = apply_write (on_disk chain store fs) w.
Proof.
  intros Hne. unfold on_disk. destruct w; cbn [write_at write_bytes apply_write history store_file];
    by rewrite lookup_insert_eq, lookup_insert_ne.
Qed.

(** Replacing files one after the other leaves what a crash after some of the
    replacements leaves, and when it succeeds, what all of them leave. *)
Lemma replace_each_crashes env chain store ws i fs r fs' :
  quiet env → location chain ≠ location store →
  replace_each env i chain store ws fs = (r, fs') →
  ∃ k, on_disk chain store fs' = crashed (on_disk chain store fs) ws k ∧
    (is_ok r = true → on_disk chain store fs' = completed (on_disk chain store fs) ws).
Proof.
  intros Q Hne. revert i fs. induction ws as [|w ws IH]; intros i fs; cbn [replace_each].
  - intros [= <- <-]. by exists 0%nat.
  - unfold replace_file, rename_over, mbind, cmd_mbind, cmd_map_err, lift.
    pose proof (stage_Ok env [write_bytes w]) as Hs.
    destruct (stage env [write_bytes w]) as [b|e]; cbn [map_err].
    2:{ intros [= <- <-]. by exists 0%nat. }
    rewrite (Hs b eq_refl). cbn [concat]. rewrite app_nil_r, Q.
    destruct (env.(synced) i); [|intros [= <- <-]; by exists 0%nat].
    destruct env.(directory_synced); cbn [map_err].
    + intros H. apply IH in H as (k & Hk & Ho). rewrite write_on_disk in Hk, Ho by done.
      by exists (S k).
    + intros [= <- <-]. exists 1%nat. split; [|done]. rewrite write_on_disk by done.
      by destruct ws.
Qed.

(** A command that plans its writes from the two files and makes them. *)
Lemma renews_crashes env chain store plan fs r fs' :
  quiet env → location chain ≠ location store →
  (ws ← planned chain store plan; replace_each env 0 chain store ws;; mret Nothing) fs = (r, fs') →
  fs' = fs ∧ is_ok r = false ∨
  ∃ ws k, plan (on_disk chain store fs) = Ok ws ∧
    on_disk chain store fs' = crashed (on_disk chain store fs) ws k ∧
    (is_ok r = true → on_disk chain store fs' = completed (on_disk chain store fs) ws).
Proof.
  intros Q Hne H. unfold mbind, cmd_mbind in H. unfold planned in H at 1.
  destruct (plan (on_disk chain store fs)) as [ws|e]; cbn [map_err] in H; [right|left; naive_solver].
  destruct (replace_each env 0 chain store ws fs) as [r1 fs1] eqn:E.
  destruct (replace_each_crashes _ _ _ _ _ _ _ _ Q Hne E) as (k & Hk & Ho).
  exists ws, k. destruct r1 as [u|e]; cbn in H; injection H as <- <-; by split_and!.
Qed.

Lemma ask_Ok env i fs pw fs' : ask env i fs = (Ok pw, fs') → env.(typed) i = Some pw ∧ fs' = fs.
Proof. unfold ask, prompt_passphrase. intros H. inv_cmd. done. Qed.

(** An epoch command, as a step of the disk of EpochCli.v. *)
Lemma asked_renews env chain store (plan : bytes → Disk → result CliError (list Write)) fs r fs' :
  quiet env → location chain ≠ location store →
  (pw ← ask env 0; ws ← planned chain store (plan pw);
   replace_each env 0 chain store ws;; mret Nothing) fs = (r, fs') →
  fs' = fs ∧ is_ok r = false ∨
  ∃ pw ws k, env.(typed) 0 = Some pw ∧ plan pw (on_disk chain store fs) = Ok ws ∧
    on_disk chain store fs' = crashed (on_disk chain store fs) ws k ∧
    (is_ok r = true → on_disk chain store fs' = completed (on_disk chain store fs) ws).
Proof.
  intros Q Hne H. unfold mbind at 1, cmd_mbind at 1 in H.
  destruct (ask env 0 fs) as [[pw|e] fs1] eqn:E; [|left; unfold ask, lift in E; naive_solver].
  apply ask_Ok in E as [Hpw ->].
  apply (renews_crashes env chain store) in H as [?|(ws & k & ?)]; [by left|right|done..].
  by exists pw, ws, k.
Qed.

(** One command of a person who uses the two files for one chain, under one
    passphrase: an epoch command on exactly these files, or any command that
    neither renews nor clobbers one of them (as an agent would whose endpoint is
    the store). *)
Definition keeps_pair (chain store pw : bytes) (env : Env) (con : Console) (c : Command) : Prop :=
  match c with
  | EpochAdvance chain' store' =>
      location chain' = location chain ∧ location store' = location store ∧
      env.(typed) 0 = Some pw ∧ draws_ok (draws_for env true)
  | EpochErase _ chain' store' =>
      location chain' = location chain ∧ location store' = location store ∧
      env.(typed) 0 = Some pw ∧ draws_ok (draws_for env false)
  | _ => False
  end ∨
  ∀ p, p ∈ replaces con c → location p ≠ location chain ∧ location p ≠ location store.

(** What the files become under such commands, one after the other, each with
    its own outcome: a command may also fail between two replacements. No other
    process changes the files, or takes one away while an agent starts. *)
Inductive session (chain store pw : bytes) : Files → Files → Prop :=
| session_end fs : session chain store pw fs fs
| session_run env con args fs fs' :
    quiet env → (∀ i t, t ⊆ Transport.others con.(host) i t) →
    keeps_pair chain store pw env con args.(command) →
    session chain store pw (run env con args fs).2 fs' → session chain store pw fs fs'.

Lemma on_disk_same chain store fs fs' :
  fs' !! location chain = fs !! location chain → fs' !! location store = fs !! location store →
  on_disk chain store fs' = on_disk chain store fs.
Proof. intros H1 H2. unfold on_disk. by rewrite H1, H2. Qed.

Lemma on_disk_at chain store chain' store' fs :
  location chain' = location chain → location store' = location store →
  on_disk chain' store' fs = on_disk chain store fs.
Proof. intros H1 H2. unfold on_disk. by rewrite H1, H2. Qed.

Lemma run_execute env con args fs :
  run env con args fs = (Err Unacknowledged, fs) ∨ run env con args fs = execute env con args.(command) fs.
Proof. unfold run. destruct args.(experimental); [by right|by left]. Qed.

Lemma renewed_lost env chain store pw n plan fs r fs' :
  quiet env → location chain ≠ location store → env.(typed) 0 = Some pw →
  (∀ d ws k, plan pw d = Ok ws → cli_step pw d (crashed d ws k)) →
  lost pw n (on_disk chain store fs) →
  (pw ← ask env 0; ws ← planned chain store (plan pw);
   replace_each env 0 chain store ws;; mret Nothing) fs = (r, fs') →
  lost pw n (on_disk chain store fs').
Proof.
  intros Q Hne Hpw Hstep Hl H.
  apply asked_renews in H as [[-> _]|(pw' & ws & k & Hpw' & Hp & Hd & _)]; [done| |done..].
  assert (pw' = pw) as -> by congruence. rewrite Hd. by eapply lost_step, Hstep.
Qed.

Lemma run_keeps_lost env con args chain store pw n fs :
  location chain ≠ location store → quiet env → (∀ i t, t ⊆ Transport.others con.(host) i t) →
  keeps_pair chain store pw env con args.(command) →
  lost pw n (on_disk chain store fs) → lost pw n (on_disk chain store (run env con args fs).2).
Proof.
  intros Hne Q Hadd Hk Hl.
  destruct Hk as [Hk|Hk].
  - destruct (run_execute env con args fs) as [-> | ->]; [done|].
    destruct args.(command) as [| | | | | | | | | | | | | | | | | |chain' store'|m chain' store'| |];
      try done; destruct Hk as (Ec & Es & Hpw & D);
      rewrite <- (on_disk_at chain store chain' store') in Hl |- * by done;
      cbn [execute]; match goal with |- context [(?m fs).2] => destruct (m fs) as [r fs'] eqn:E end;
      (eapply renewed_lost; [exact Q|congruence|exact Hpw| |exact Hl|exact E]);
      intros d ws k Hp; first [eapply cli_advance; [exact D|exact Hp] | eapply cli_erase; [exact D|exact Hp]].
  - assert (additive env con) as Ho by (split; [intros; by rewrite Q|done]).
    destruct (run_touches env con args fs) as [Hkeep _]. specialize (Hkeep Ho).
    assert (∀ p b, (p = chain ∨ p = store) → fs !! location p = Some b →
      (run env con args fs).2 !! location p = Some b) as Hp.
    { intros p b Hp. apply Hkeep. rewrite list_elem_of_fmap. intros (x & Ex & Hx).
      destruct (Hk x Hx). destruct Hp as [-> | ->]; congruence. }
    pose proof Hl as (h & rs & f & s & Hh & _ & _ & Hf & _). cbn [on_disk history store_file] in Hh, Hf.
    rewrite (on_disk_same chain store fs); [done|rewrite Hh; auto|rewrite Hf; auto].
Qed.

(** C5. An erased epoch does not come back through the program. Once
    [epoch-erase] succeeded, whatever commands follow, of any kind and with any
    outcome, each of them using the two files together under their passphrase or
    replacing neither: the erased epoch cannot be read from the files, whose
    store opens without it. *)
Theorem erased_epoch_stays_erased env con args chain store n pw fs0 report fs1 fs2 :
  location chain ≠ location store → quiet env → env.(typed) 0 = Some pw →
  draws_ok (draws_for env false) → args.(command) = EpochErase n chain store →
  run env con args fs0 = (Ok report, fs1) → session chain store pw fs1 fs2 →
  (∀ c, load_epochs (on_disk chain store fs2) pw = Ok c →
     Epoch.secret c n = Err (Erased n) ∧ is_readable c n = false) ∧
  ∃ f s, fs2 !! location store = Some f ∧ EpochStore.open f pw = Ok s ∧ EpochStore.get s n = None.
Proof.
  intros Hne Q Hpw D Hc H Hs.
  assert (lost pw n (on_disk chain store fs1)) as Hl.
  { destruct (run_execute env con args fs0) as [E|E]; [congruence|]. rewrite H, Hc in E. cbn [execute] in E.
    symmetry in E. apply (asked_renews env chain store) in E
      as [[_ E]|(pw' & ws & k & Hpw' & Hp & _ & Ho)]; [done| |done..].
    assert (pw' = pw) as -> by congruence. rewrite (Ho eq_refl). by eapply erase_loses. }
  apply lost_unreadable. clear -Hs Hl Hne CL CS L. induction Hs as [|env con args fs fs' Q Hadd Hk Hs IH]; [done|].
  apply IH. by apply run_keeps_lost.
Qed.
End epochs.

(** * What [info] says of the files the program writes *)
Section described.
Context {C : Cbor} {CL : CborLaws C} {SP : Sign.Primitives} {SL : Sign.PrimitivesLaws SP}.
Context {P : Crypto.Primitives} {L : Crypto.PrimitivesLaws P}.
Context {A : Argon2} {U : Unicode} {X : Expand} {XL : ExpandLaws X} {B : Base64}.
#[local] Existing Instance Hybrid.scheme_laws.

Definition asking (c : Command) : Arguments :=
  {| experimental := true; quiet_banner := true; command := c |}.

(** The lengths by which [info] knows a file that is not a protected key. *)
Definition key_file_lengths : list N :=
  [32; PUBLIC_KEY_LEN; SIGNING_PUBLIC_LEN; SIGNING_PUBLIC_LEN + SIGNATURE_LENGTH].

(** [info p] prints [d]. *)
Definition told (env : Env) (con : Console) (p : bytes) (d : Description) (fs : Files) : Prop :=
  run env con (asking (Info p)) fs = (Ok (Described d), fs).

Lemma told_iff env con p d fs : told env con p d fs ↔ describe env p fs = (Ok d, fs).
Proof.
  unfold told, run. cbn [asking experimental command negb refuse_if execute].
  unfold mbind, cmd_mbind, lift. split; [|by intros ->].
  pose proof (reads_describe env p fs) as H. destruct (describe env p fs) as [[d'|e] fs1];
    cbn in *; [|done]. by intros [= -> ->].
Qed.

(** A file read whole, by its format and length. *)
Lemma describe_short env p b fs :
  fs !! location p = Some b → lenN b <= MAX_SIGNING_KEY_FILE →
  describe env p fs =
    match inspect b with
    | Protected => (Ok ProtectedKey, fs)
    | Raw =>
        if lenN b =? 32 then (Ok PlainKey, fs)
        else if lenN b =? PUBLIC_KEY_LEN then (Ok PublicKeyFile, fs)
        else if lenN b =? SIGNING_PUBLIC_LEN then (Ok (SigningKeyFile (key_fingerprint b)), fs)
        else if lenN b =? SIGNING_PUBLIC_LEN + SIGNATURE_LENGTH
        then (Ok (DetachedSignature (key_fingerprint (take (N.to_nat SIGNING_PUBLIC_LEN) b))), fs)
        else describe_container env p fs
    end.
Proof.
  intros Hp Hl. unfold describe. by rewrite (proj2 (read_file_Ok p _ b fs fs)).
Qed.

Lemma describe_as_container env p b fs :
  fs !! location p = Some b → inspect b = Raw → lenN b ∉ key_file_lengths →
  describe env p fs = describe_container env p fs.
Proof.
  intros Hp Hi Hn. destruct (N.le_gt_cases (lenN b) MAX_SIGNING_KEY_FILE) as [Hl|Hl].
  - rewrite (describe_short _ _ _ _ Hp Hl), Hi.
    assert (∀ n, n ∈ key_file_lengths → (lenN b =? n) = false) as Hne.
    { intros n H. apply N.eqb_neq. by intros <-. }
    by rewrite !Hne by (unfold key_file_lengths; set_solver).
  - unfold describe. pose proof (reads_read_file p MAX_SIGNING_KEY_FILE fs) as H.
    destruct (read_file p MAX_SIGNING_KEY_FILE fs) as [[c|e] fs1] eqn:E; cbn [snd] in H; subst; [|done].
    apply read_file_Ok in E as (? & ? & _). simplify_eq. lia.
Qed.

(** The preamble of a container, as [describe_container] finds it. *)
Lemma describe_preamble env p b preamble rest fs :
  delivering env → fs !! location p = Some b → b = Preamble.encode preamble ++ rest →
  Preamble.valid preamble →
  describe_container env p fs = (Ok (ContainerFile 0 preamble.(Preamble.minor)
    preamble.(Preamble.flags) (lenN b) (Ok (Preamble.is_signed preamble))), fs).
Proof.
  intros [R _] Hp E V. destruct (R 0 b) as [Lb Cb]. assert (contents (env.(reading) 0 b) = Preamble.encode preamble ++ rest) as Cb' by congruence.
  assert (lenN (Preamble.encode preamble) = 16) as H16 by (apply Preamble.length_preamble_encode).
  destruct (read_exact_app 16 _ _ _ Lb Cb' H16) as (r & Hr & _).
  assert (take 8 (Preamble.encode preamble) = Format.MAGIC) as Hm by reflexivity.
  assert (byte_at 8 (Preamble.encode preamble) = 0) as H8 by reflexivity.
  assert (byte_at 9 (Preamble.encode preamble) = preamble.(Preamble.minor)) as H9.
  { change (Byte.to_N (byte_of preamble.(Preamble.minor)) = preamble.(Preamble.minor)).
    rewrite to_N_byte_of. destruct V. apply N.mod_small. lia. }
  assert (byte_at 11 (Preamble.encode preamble) = preamble.(Preamble.flags)) as H11.
  { change (Byte.to_N (byte_of preamble.(Preamble.flags)) = preamble.(Preamble.flags)).
    rewrite to_N_byte_of. destruct V as [_ V _]. apply N.mod_small. unfold FLAG_SIGNED in V. lia. }
  unfold describe_container, mbind, cmd_mbind, lift. rewrite Hp. cbn [ok_or].
  rewrite Hr. cbn [map_err]. rewrite Hm, bool_decide_true by done. cbn [negb refuse_if].
  unfold mret, cmd_mret. by rewrite H8, H9, H11, Preamble.preamble_decode_encode.
Qed.

Lemma container_not_key preamble rest : inspect (Preamble.encode preamble ++ rest) = Raw.
Proof. reflexivity. Qed.

Lemma run_asking env con c fs : run env con (asking c) fs = execute env con c fs.
Proof. reflexivity. Qed.

Lemma silently_Ok {T} (m : Cmd RunError T) fs r fs' :
  silently m fs = (Ok r, fs') → r = Nothing ∧ ∃ a, m fs = (Ok a, fs').
Proof.
  unfold silently, mbind, cmd_mbind. destruct (m fs) as [[a|e] fs1]; [|done].
  intros [= <- <-]. by eauto.
Qed.

Lemma from_Ok {T} (m : FileCli.Command T) fs a fs' : from m fs = (Ok a, fs') → m fs = (Ok a, fs').
Proof. unfold from, cmd_map_err. destruct (m fs) as [[b|e] fs1]; cbn; [|done]. by intros [= -> ->]. Qed.

Lemma keygen_command_Ok env secret public plaintext armor signing fs (r : Report) fs' :
  keygen_command env secret public plaintext armor signing fs = (Ok r, fs') →
  ∃ armored, r = (if armor then Printed armored else Nothing) ∧
    keygen env secret public plaintext signing fs = (Ok armored, fs').
Proof.
  unfold keygen_command, mbind, cmd_mbind.
  destruct (from (keygen env secret public plaintext signing) fs) as [[a|e] fs1] eqn:E; [|done].
  intros [= <- <-]. apply from_Ok in E. by eauto.
Qed.

(** The secret file [keygen] writes: its length, and what marks it. *)
Lemma sealed_secret_file env (plaintext : bool) s f :
  keygen_draws env → env.(random) 0 = Some s →
  (if plaintext then f = s else
     ∃ pw, env.(typed) 0 = Some pw ∧
       protect_seed s pw Keyring.Identity (env.(random) 1) (env.(random) 2) = Ok f) →
  (plaintext = true → inspect s = Raw) →
  lenN f <= MAX_SIGNING_KEY_FILE ∧
  (if plaintext then inspect f = Raw ∧ lenN f = 32 else inspect f = Protected).
Proof.
  intros (D0 & D1 & D2) Hs Hf Hi. specialize (D0 _ Hs). destruct plaintext.
  - subst f. rewrite D0. by split_and!; [|apply Hi|].
  - destruct Hf as (pw & _ & Hf).
    assert (∃ sa no, env.(random) 1 = Some sa ∧ env.(random) 2 = Some no) as (sa & no & Esa & Eno)
      by (unfold protect_seed in Hf; inv_ok; by do 2 eexists).
    rewrite Esa, Eno in Hf.
    destruct (unprotect_protect _ _ _ _ _ _ _ Hf (D1 _ Esa) (D2 _ Eno) eq_refl) as (Hl & Hi' & _).
    by rewrite Hl.
Qed.

(** C23. [info] tells what the program made. A container that [encrypt] wrote
    is told as a container, with its size and whether it is signed, whenever its
    length is not one of those by which keys are known; at the length of a
    signing public key it is told as one. The three files [keygen] wrote are
    told for what they are, the signing key with its fingerprint, when the bytes
    that carry no mark of their own do not begin with the mark of a protected
    key. *)
Theorem info_tells_what_was_made env con :
  quiet env → delivering env →
  (∀ input rs output sw pub fs report fs',
     draws_sized env.(random) →
     run env con (asking (Encrypt input rs output sw pub)) fs = (Ok report, fs') →
     ∃ b minor flags, report = Nothing ∧ fs' !! location output = Some b ∧
       (lenN b ∉ key_file_lengths →
          told env con output
            (ContainerFile 0 minor flags (lenN b) (Ok match sw with Some _ => true | None => false end)) fs') ∧
       (lenN b = SIGNING_PUBLIC_LEN → told env con output (SigningKeyFile (key_fingerprint b)) fs')) ∧
  (∀ secret public plaintext armor signing fs report fs',
     keygen_draws env →
     run env con (asking (Keygen secret public plaintext armor signing)) fs = (Ok report, fs') →
     ∃ s k, env.(random) 0 = Some s ∧ Crypto.public_key (encryption_key s) = Ok k ∧
       let id := Sign.verifying_key (signing_key s) in
       report = (if armor then Printed (encode_public (public_to_bytes k)) else Nothing) ∧
       ((plaintext = true → inspect s = Raw) →
          told env con secret (if plaintext then PlainKey else ProtectedKey) fs') ∧
       (inspect (public_to_bytes k) = Raw → told env con public PublicKeyFile fs') ∧
       (inspect (vk_to_bytes id) = Raw →
          told env con (default (append_extension public (text "sign")) signing)
            (SigningKeyFile (Some (fingerprint id))) fs')).
Proof.
  intros Q D. split.
  - intros input rs output sw pub fs report fs' Hd H. rewrite run_asking in H. cbn [execute] in H.
    apply silently_Ok in H as (-> & n & H). apply from_Ok in H.
    destruct (encrypt_file_writes _ _ _ _ _ _ _ _ _ Q D Hd H)
      as (keys & b & name & signer & container & material & stanzas & preamble & h & protected & mac &
          _ & _ & _ & _ & Hs & _ & -> & _ & _ & _ & [(outer & payload & pk & Hb & _) [V _] _ _ _ _ Hm _]).
    destruct Hm as (key & plain & m & _ & _ & _ & _ & Hv).
    assert (Preamble.is_signed preamble = match sw with Some _ => true | None => false end) as Es.
    { apply verify_signature_Ok_iff in Hv. unfold signs_with in Hs. destruct sw.
      - destruct Hs as (id & _ & ->). cbn in Hv. by destruct pub, Hv.
      - subst signer. by destruct Hv. }
    exists container, preamble.(Preamble.minor), preamble.(Preamble.flags).
    assert (inspect container = Raw) as Hi by (by rewrite Hb; apply container_not_key).
    split_and!; [done|by rewrite lookup_insert_eq| |].
    + intros Hn. apply told_iff. rewrite (describe_as_container _ _ container) by
        (done || by rewrite lookup_insert_eq).
      rewrite <- Es. by eapply describe_preamble; [done|by rewrite lookup_insert_eq|exact Hb|].
    + intros Hl. apply told_iff. rewrite (describe_short _ _ container) by
        (by rewrite ?lookup_insert_eq, ?Hl).
      by rewrite Hi, Hl.
  - intros secret public plaintext armor signing fs report fs' Hd H. rewrite run_asking in H.
    cbn [execute] in H. apply keygen_command_Ok in H as (armored & -> & H).
    destruct (keygen_Ok _ _ _ _ _ _ _ _ Q H)
      as (s & f & k & Hs & Hk & -> & Hf & _ & _ & _ & Hnd & ->).
    apply NoDup_cons in Hnd as [N1 Hnd]. apply NoDup_cons in Hnd as [N2 _].
    apply not_elem_of_cons in N1 as [N1 [N3 _]%not_elem_of_cons].
    apply not_elem_of_cons in N2 as [N2 _]. exists s, k. cbv zeta.
    split_and!; try done; intros Hi; apply told_iff.
    + rewrite (describe_short _ _ f).
      * destruct (sealed_secret_file _ _ _ _ Hd Hs Hf Hi) as [_ E]. by destruct plaintext;
          [destruct E as [-> ->]|rewrite E].
      * rewrite !lookup_insert_ne by done. by rewrite lookup_insert_eq.
      * by destruct (sealed_secret_file _ _ _ _ Hd Hs Hf Hi).
    + pose proof (hpke_public_length k.(hpke_public)) as Hl.
      change (lenN (public_to_bytes k) = PUBLIC_KEY_LEN) in Hl.
      rewrite (describe_short _ _ (public_to_bytes k)) by (by rewrite ?lookup_insert_eq || by rewrite Hl).
      by rewrite Hi, Hl.
    + pose proof (length_vk_to_bytes (Sign.verifying_key (signing_key s))) as Hl.
      rewrite (describe_short _ _ (vk_to_bytes (Sign.verifying_key (signing_key s)))).
      * rewrite Hi, Hl. unfold key_fingerprint. by rewrite vk_from_to_bytes.
      * rewrite lookup_insert_ne by done. by rewrite lookup_insert_eq.
      * by rewrite Hl.
Qed.
End described.

(** * Witnesses: keys, a letter and a chain of epochs, from the command line *)
Import Cbor.Reference Sign.Toy Crypto.Toy Keyring.Toy HexBase64.

Module Samples.
Definition at_terminal : Console :=
  {| stdin := []; terminal := true; runtime_dir := None;
     host := {| Transport.uid := 1000; Transport.umask_leaves := 493; Transport.socket_mode := 493;
                Transport.denied _ := false; Transport.others _ t := t |};
     around := {[ [] := {| Transport.kind := Transport.Directory; Transport.mode := 493;
                           Transport.owner := 1000 |} ]};
     permissions _ := (420, 1000) |}.
Definition chain_path : bytes := text "epochs".
Definition store_path : bytes := text "epochs.store".

(** An epoch command draws a seed when it makes an epoch, then a salt and nonces. *)
Definition at_epoch (b : byte) : Env := FileCli.Samples.machine
  (λ i, Some (match i with O => replicate 32 b | S O => replicate 16 b | _ => be 12 (N.of_nat i) end)).
Definition at_erase : Env := FileCli.Samples.machine
  (λ i, Some (match i with O => replicate 16 Byte.x07 | _ => be 12 (N.of_nat i) end)).

(** A file of 644 bytes; its container has 1984, a signing public key's length. *)
Definition page : Files := {[location FileCli.Samples.letter := replicate 644 Byte.x41]}.
End Samples.


Abbreviation chain_started :=
  (run (Samples.at_epoch Byte.x05) Samples.at_terminal
     (asking (EpochInit Samples.chain_path Samples.store_path)) ∅).
Abbreviation chain_advanced :=
  (run (Samples.at_epoch Byte.x06) Samples.at_terminal
     (asking (EpochAdvance Samples.chain_path Samples.store_path)) chain_started.2).
Abbreviation epoch_erased :=
  (run Samples.at_erase Samples.at_terminal
     (asking (EpochErase 0 Samples.chain_path Samples.store_path)) chain_advanced.2).

Lemma sample_starts : is_ok chain_started.1 && is_ok chain_advanced.1 && is_ok epoch_erased.1 = true.
Proof. vm_compute. reflexivity. Qed.

Lemma sample_epoch_draws b : draws_ok (draws_for (Samples.at_epoch b) true).
Proof.
  split; cbn.
  - intros s [= <-]. reflexivity.
  - intros i iv [= <-]. rewrite length_be. reflexivity.
Qed.

Lemma sample_erase_draws : draws_ok (draws_for Samples.at_erase false).
Proof.
  split; cbn.
  - intros s [= <-]. reflexivity.
  - intros i iv [= <-]. rewrite length_be. reflexivity.
Qed.

(** The command after the erasure advances the chain. *)
Lemma erased_epoch_stays_erased_witness :
  ∃ (fs : Files) f s, fs !! location Samples.store_path = Some f ∧
    EpochStore.open f EpochCli.Samples.passphrase = Ok s ∧ EpochStore.get s 0 = None.
Proof.
  pose proof sample_starts as H. apply andb_prop in H as [_ H].
  destruct (run_Ok _ _ H) as (r & fs1 & E).
  exists (run (Samples.at_epoch Byte.x08) Samples.at_terminal
     (asking (EpochAdvance Samples.chain_path Samples.store_path)) fs1).2.
  refine (proj2 (erased_epoch_stays_erased Samples.at_erase Samples.at_terminal
    (asking (EpochErase 0 Samples.chain_path Samples.store_path)) Samples.chain_path Samples.store_path 0
    EpochCli.Samples.passphrase _ r fs1 _ _ (machine_quiet _) eq_refl sample_erase_draws eq_refl E _)).
  - vm_compute. discriminate.
  - eapply (session_run _ _ _ _ Samples.at_terminal); [apply machine_quiet|intros i t; reflexivity| |apply session_end].
    left. split_and!; [done..|apply sample_epoch_draws].
Defined.

Lemma sample_terminal_alone env : quiet env → alone env Samples.at_terminal.
Proof. intros Q. by split. Qed.

(** The agent, asked to listen where a document stands. *)
Definition at_the_letter : Arguments :=
  asking (RunAgent FileCli.Samples.secret_path (Some FileCli.Samples.letter) false None).

Abbreviation agent_ran :=
  (run FileCli.Samples.at_encrypt Samples.at_terminal at_the_letter FileCli.Samples.keyed).

(** It removes the document, and serves. *)
Lemma agent_removes_document :
  is_ok agent_ran.1 && bool_decide (is_Some (FileCli.Samples.keyed !! location FileCli.Samples.letter))
    && bool_decide (agent_ran.2 !! location FileCli.Samples.letter = None) = true.
Proof. vm_compute. reflexivity. Qed.

Lemma run_keeps_files_witness :
  agent_ran.2 !! location FileCli.Samples.secret_path
    = FileCli.Samples.keyed !! location FileCli.Samples.secret_path ∧
  agent_ran.2 ⊆ FileCli.Samples.keyed ∧
  run FileCli.Samples.at_encrypt Samples.at_terminal
    {| experimental := false; quiet_banner := false; command := at_the_letter.(command) |} FileCli.Samples.keyed
  = (Err Unacknowledged, FileCli.Samples.keyed).
Proof.
  destruct (run_keeps_files FileCli.Samples.at_encrypt Samples.at_terminal at_the_letter FileCli.Samples.keyed)
    as (_ & Hq & Hr & _).
  split; [|split].
  - apply Hq; [apply sample_terminal_alone, machine_quiet|].
    apply (bool_decide_unpack (_ ∉ _)). vm_compute. exact I.
  - by eapply Hr.
  - exact (proj2 (proj2 (proj2 (run_keeps_files FileCli.Samples.at_encrypt Samples.at_terminal
      {| experimental := false; quiet_banner := false; command := at_the_letter.(command) |}
      FileCli.Samples.keyed))) eq_refl).
Defined.

Abbreviation keys_made :=
  (run FileCli.Samples.at_keygen Samples.at_terminal
     (asking (Keygen FileCli.Samples.secret_path FileCli.Samples.public_path false true None))
     FileCli.Samples.start).

Lemma sample_told : is_ok keys_made.1 = true.
Proof. vm_compute. reflexivity. Qed.

Lemma info_tells_what_was_made_witness :
  ∃ fs, told FileCli.Samples.at_keygen Samples.at_terminal FileCli.Samples.secret_path ProtectedKey fs.
Proof.
  destruct (run_Ok _ _ sample_told) as (r & fs & E). exists fs.
  destruct (info_tells_what_was_made FileCli.Samples.at_keygen Samples.at_terminal) as [_ H].
  - apply machine_quiet.
  - apply machine_delivering.
  - destruct (H FileCli.Samples.secret_path FileCli.Samples.public_path false true None
      FileCli.Samples.start r fs) as (s & k & _ & _ & _ & Ht & _); [|exact E|by apply Ht].
    split_and!; intros b [= <-]; reflexivity.
Defined.

(** A container of 1,984 bytes is told as a signing public key. *)
Lemma container_told_as_key :
  let fs := (run FileCli.Samples.at_keygen Samples.at_terminal
    (asking (Keygen FileCli.Samples.secret_path FileCli.Samples.public_path false false None)) Samples.page).2 in
  let '(r, fs) := run FileCli.Samples.at_encrypt Samples.at_terminal
    (asking (Encrypt FileCli.Samples.letter [FileCli.Samples.public_path] FileCli.Samples.sealed None false)) fs in
  is_ok r && match (run FileCli.Samples.at_encrypt Samples.at_terminal
    (asking (Info FileCli.Samples.sealed)) fs).1 with
  | Ok (Described (SigningKeyFile _)) => true
  | _ => false
  end = true.
Proof. vm_compute. reflexivity. Qed.

(** [identity-create] takes the place of whatever its output held. *)
Lemma identity_create_overwrites :
  let fs := FileCli.Samples.keyed in
  let '(r, fs') := run FileCli.Samples.at_encrypt Samples.at_terminal
    (asking (IdentityCreate FileCli.Samples.secret_path FileCli.Samples.signing_path (text "laptop")
       FileCli.Samples.letter)) fs in
  is_ok r && bool_decide (is_Some (fs !! location FileCli.Samples.letter))
    && bool_decide (fs' !! location FileCli.Samples.letter ≠ fs !! location FileCli.Samples.letter) = true.
Proof. vm_compute. reflexivity. Qed.
