(* ===== verification/Abi.v ===== *)
(** The memory the C interface of [hide-ffi] works on, and the conventions its
    entry points share: pointers a caller passes, buffers and opaque handles the
    library allocates, early returns with a status code, and the guard that
    keeps a panic from unwinding into C. Undefined behaviour is an outcome of
    its own, so a theorem that a call has another outcome says it is defined. *)
From stdpp Require Import gmap.
From S2P Require Import Prelude Utf8 Sign Challenge Crypto.
Local Open Scope N_scope.

Create HintDb abi.

(** ** Memory

    A pointer is null, the dangling address of a vector that never allocated,
    or an offset into a block. *)
Inductive Pointer := Null | Dangling | At (block : positive) (offset : N).

#[export] Instance Pointer_eq_dec : EqDecision Pointer.
Proof. solve_decision. Defined.

Definition is_null (p : Pointer) : bool := bool_decide (p = Null).

Lemma is_null_At l o : is_null (At l o) = false.
Proof. done. Qed.

(** [struct HideBuffer] *)
Record HideBuffer := { data : Pointer; len : N; capacity : N }.

(** What a handle's [Box] holds. *)
Inductive Boxed :=
| SecretBox (s : RecipientSecret)
| IdentityBox (i : Hybrid.SigningIdentity)
| NoncesBox (s : SpentNonces).

Inductive Kind := SecretKind | IdentityKind | NoncesKind.

#[export] Instance Kind_eq_dec : EqDecision Kind.
Proof. solve_decision. Defined.

Definition kind_of (b : Boxed) : Kind :=
  match b with SecretBox _ => SecretKind | IdentityBox _ => IdentityKind | NoncesBox _ => NoncesKind end.

(** A block is bytes of the caller's, a vector or a box of the library's, or a
    variable of the caller's whose address it passes to be written. *)
Inductive Cell :=
| Foreign (b : bytes)
| Vector (b : bytes) (room : N)
| Owned (b : Boxed)
| BufferVar (b : HideBuffer)
| HandleVar (k : Kind) (p : Pointer)
| WordVar (n : N).

Abbreviation Cells := (gmap positive Cell).

(** A block given back to the allocator, and what it held then. *)
Inductive Freed :=
| FreedVector (b : bytes)
| FreedBox (k : Kind) (b : bytes).

Record Memory := { cells : Cells; freed : list Freed }.

Definition set_cell (l : positive) (c : Cell) (m : Memory) : Memory :=
  {| cells := <[l := c]> m.(cells); freed := m.(freed) |}.

Definition release (l : positive) (b : Freed) (m : Memory) : Memory :=
  {| cells := delete l m.(cells); freed := m.(freed) ++ [b] |}.

(** The global allocator: where it puts a block, and the capacity a vector has
    grown to when it holds some bytes (none at all when it stayed empty). *)
Class Allocator := {
  place : Cells → positive;
  room_for : bytes → N;
}.

Class AllocatorLaws (G : Allocator) : Prop := {
  place_fresh m : m !! place m = None;
  room_enough b : lenN b <= room_for b;
}.

(** ** Computations of an entry point *)
Inductive outcome (A : Type) :=
| Done (a : A) (m : Memory)
| Returned (code : Z) (m : Memory)
| Panicked (m : Memory)
| Undefined.
Arguments Done {A}. Arguments Returned {A}. Arguments Panicked {A}. Arguments Undefined {A}.

Definition Body (A : Type) : Type := Memory → outcome A.

#[export] Instance Body_ret : MRet Body := λ A a m, Done a m.
#[export] Instance Body_bind : MBind Body := λ A B k f m,
  match f m with
  | Done a m => k a m
  | Returned c m => Returned c m
  | Panicked m => Panicked m
  | Undefined => Undefined
  end.

Definition give_back {A} (code : Z) : Body A := λ m, Returned code m.
Definition panic {A} : Body A := λ m, Panicked m.
Definition undefined {A} : Body A := λ m, Undefined.

(** [if bad { return code; }], [let Some(a) = o else { return code; }] and
    [let Ok(a) = r else { return code(error); }] *)
Definition return_if (bad : bool) (code : Z) : Body unit := if bad then give_back code else mret tt.
Definition or_return {A} (o : option A) (code : Z) : Body A :=
  match o with Some a => mret a | None => give_back code end.
Definition ok_or_return {E A} (r : result E A) (code : E → Z) : Body A :=
  match r with Ok a => mret a | Err e => give_back (code e) end.

Definition HIDE_OK : Z := 0.
Definition HIDE_ERR_INVALID_ARGUMENT : Z := 1.
Definition HIDE_ERR_WRONG_PASSPHRASE : Z := 2.
Definition HIDE_ERR_NOT_A_KEY : Z := 3.
Definition HIDE_ERR_AUTHENTICATION : Z := 4.
Definition HIDE_ERR_NO_MATCHING_RECIPIENT : Z := 5.
Definition HIDE_ERR_MALFORMED : Z := 6.
Definition HIDE_ERR_TOO_LARGE : Z := 7.
Definition HIDE_ERR_CHALLENGE_EXPIRED : Z := 8.
Definition HIDE_ERR_CHALLENGE_REPLAYED : Z := 9.
Definition HIDE_ERR_PANIC : Z := 98.
Definition HIDE_ERR_INTERNAL : Z := 99.

(** What a C caller sees: a status code and the memory, or nothing at all. *)
Definition Abi : Type := Memory → option (Z * Memory).

(** [guard], on a body that ends with its own code *)
Definition guard (body : Body Z) : Abi := λ m,
  match body m with
  | Done c m | Returned c m => Some (c, m)
  | Panicked m => Some (HIDE_ERR_PANIC, m)
  | Undefined => None
  end.

(** ** Reading what the caller passed *)
Definition bytes_at (m : Memory) (p : Pointer) (len : N) : option bytes :=
  match p with
  | At l o =>
      match m.(cells) !! l with
      | Some (Foreign b) | Some (Vector b _) =>
          if o + len <=? lenN b then Some (slice o (o + len) b) else None
      | _ => None
      end
  | _ => None
  end.

(** [slice::from_raw_parts(data, len)] *)
Definition from_raw_parts (p : Pointer) (len : N) : Body bytes := λ m,
  match bytes_at m p len with Some b => Done b m | None => Undefined end.

(** [unsafe fn borrow] *)
Definition borrow (data : Pointer) (len limit : N) : Body (option bytes) :=
  if limit <? len then mret None
  else if len =? 0 then mret (Some [])
  else if is_null data then mret None
  else b ← from_raw_parts data len; mret (Some b).

(** The bytes before the first NUL. *)
Fixpoint before_nul (b : bytes) : option bytes :=
  match b with
  | [] => None
  | x :: b => if bool_decide (x = Byte.x00) then Some [] else s ← before_nul b; Some (x :: s)
  end.

Definition c_string_at (m : Memory) (p : Pointer) : option bytes :=
  match p with
  | At l o =>
      match m.(cells) !! l with
      | Some (Foreign b) | Some (Vector b _) => before_nul (drop (N.to_nat o) b)
      | _ => None
      end
  | _ => None
  end.

(** [CStr::from_ptr(text)] *)
Definition c_str (p : Pointer) : Body bytes := λ m,
  match c_string_at m p with Some s => Done s m | None => Undefined end.

(** [unsafe fn borrow_str]; the outer option is the answer, the inner one null. *)
Definition borrow_str (p : Pointer) : Body (option (option bytes)) :=
  if is_null p then mret (Some None)
  else s ← c_str p; mret (if utf8_valid s then Some (Some s) else None).

Definition box_at (m : Memory) (p : Pointer) : option Boxed :=
  match p with
  | At l 0 => match m.(cells) !! l with Some (Owned b) => Some b | _ => None end
  | _ => None
  end.

(** [&*secret], [&*identity], [&mut *spent] *)
Definition deref {T} (select : Boxed → option T) (p : Pointer) : Body T := λ m,
  match box_at m p ≫= select with Some s => Done s m | None => Undefined end.

Definition a_secret (b : Boxed) : option RecipientSecret :=
  match b with SecretBox s => Some s | _ => None end.
Definition an_identity (b : Boxed) : option Hybrid.SigningIdentity :=
  match b with IdentityBox i => Some i | _ => None end.
Definition a_record (b : Boxed) : option SpentNonces :=
  match b with NoncesBox s => Some s | _ => None end.

(** ** Writing through what the caller passed *)
Definition write_var (ok : Cell → bool) (c : Cell) (p : Pointer) : Body unit := λ m,
  match p with
  | At l 0 =>
      match m.(cells) !! l with
      | Some old => if ok old then Done tt (set_cell l c m) else Undefined
      | None => Undefined
      end
  | _ => Undefined
  end.

Definition is_buffer_var (c : Cell) : bool := match c with BufferVar _ => true | _ => false end.
Definition is_word_var (c : Cell) : bool := match c with WordVar _ => true | _ => false end.
Definition is_handle_var (k : Kind) (c : Cell) : bool :=
  match c with HandleVar k' _ => bool_decide (k' = k) | _ => false end.
Definition is_box (k : Kind) (c : Cell) : bool :=
  match c with Owned b => bool_decide (kind_of b = k) | _ => false end.

Definition write_buffer (p : Pointer) (b : HideBuffer) : Body unit :=
  write_var is_buffer_var (BufferVar b) p.
Definition write_word (p : Pointer) (n : N) : Body unit := write_var is_word_var (WordVar n) p.
Definition write_handle (k : Kind) (p h : Pointer) : Body unit :=
  write_var (is_handle_var k) (HandleVar k h) p.
Definition write_record (p : Pointer) (s : SpentNonces) : Body unit :=
  write_var (is_box NoncesKind) (Owned (NoncesBox s)) p.

(** ** Allocating and freeing *)
Section heap.
Context {G : Allocator}.

Definition allocate (c : Cell) : Body Pointer := λ m,
  let l := place m.(cells) in Done (At l 0) (set_cell l c m).

(** [HideBuffer::from_vec]; a vector that never grew has no block. *)
Definition from_vec (b : bytes) : Body HideBuffer :=
  let room := room_for b in
  if room =? 0 then mret {| data := Dangling; len := lenN b; capacity := 0 |}
  else p ← allocate (Vector b room); mret {| data := p; len := lenN b; capacity := room |}.

(** [Box::into_raw(Box::new(_))] *)
Definition into_raw (b : Boxed) : Body Pointer := allocate (Owned b).
End heap.

(** [hide_buffer_empty] *)
Definition hide_buffer_empty : HideBuffer := {| data := Null; len := 0; capacity := 0 |}.

(** [Vec::from_raw_parts(data, len, capacity)]: defined on exactly what
    [from_vec] forgot. The vector's bytes come with the block that holds them. *)
Definition vec_from_raw (b : HideBuffer) : Body (option positive * bytes) := λ m,
  match b.(data) with
  | Dangling => if (b.(capacity) =? 0) && (b.(len) =? 0) then Done (None, []) m else Undefined
  | At l 0 =>
      match m.(cells) !! l with
      | Some (Vector bytes room) =>
          if (b.(capacity) =? room) && (b.(len) <=? lenN bytes) then Done (Some l, bytes) m
          else Undefined
      | _ => Undefined
      end
  | _ => Undefined
  end.

Definition drop_vec (v : option positive * bytes) : Body unit := λ m,
  match v.1 with Some l => Done tt (release l (FreedVector v.2) m) | None => Done tt m end.

(** [bytes.iter_mut().for_each(|byte| *byte = 0)] on the first [n] *)
Definition zero_first (n : N) (b : bytes) : bytes :=
  replicate (N.to_nat n) Byte.x00 ++ drop (N.to_nat n) b.

Definition read_buffer (p : Pointer) : Body HideBuffer := λ m,
  match p with
  | At l 0 => match m.(cells) !! l with Some (BufferVar b) => Done b m | _ => Undefined end
  | _ => Undefined
  end.

(** [hide_buffer_free] *)
Definition hide_buffer_free (buffer : Pointer) : Body unit :=
  if is_null buffer then mret tt else
  b ← read_buffer buffer;
  if is_null b.(data) then mret tt else
  v ← vec_from_raw b;
  let v := (v.1, zero_first b.(len) v.2) in
  drop_vec v;;
  write_buffer buffer hide_buffer_empty.

(** What a box holds once its destructor has run: a seed is zeroized, a record
    of nonces is not. *)
Definition residue (b : Boxed) : bytes :=
  match b with
  | SecretBox s => replicate (length s.(recipient_seed)) Byte.x00
  | IdentityBox i => replicate (length i.(Hybrid.seed)) Byte.x00
  | NoncesBox s => concat (map fst s)
  end.

(** [drop(Box::from_raw(p))] *)
Definition drop_box (k : Kind) (p : Pointer) : Body unit := λ m,
  match p with
  | At l 0 =>
      match m.(cells) !! l with
      | Some (Owned b) =>
          if bool_decide (kind_of b = k) then Done tt (release l (FreedBox k (residue b)) m) else Undefined
      | _ => Undefined
      end
  | _ => Undefined
  end.

Definition hide_secret_key_free (p : Pointer) : Body unit :=
  if is_null p then mret tt else drop_box SecretKind p.
Definition hide_signing_identity_free (p : Pointer) : Body unit :=
  if is_null p then mret tt else drop_box IdentityKind p.
Definition hide_spent_nonces_free (p : Pointer) : Body unit :=
  if is_null p then mret tt else drop_box NoncesKind p.

(** ** What a body does *)
Definition wp {A} (f : Body A) (Q : A → Memory → Prop) (R : Z → Memory → Prop) (m : Memory) : Prop :=
  match f m with
  | Done a m => Q a m
  | Returned c m => R c m
  | Panicked _ | Undefined => False
  end.

Section rules.
Context {A T : Type}.
Implicit Types (Q : A → Memory → Prop) (R : Z → Memory → Prop) (m : Memory).

Lemma wp_ret (a : A) Q R m : Q a m → wp (mret a) Q R m.
Proof. done. Qed.

Lemma wp_bind (f : Body T) (k : T → Body A) Q R m :
  wp f (λ a m', wp (k a) Q R m') R m → wp (f ≫= k) Q R m.
Proof. unfold wp, mbind, Body_bind. by destruct (f m). Qed.

Lemma wp_mono (f : Body A) Q Q' R R' m :
  wp f Q R m → (∀ a m', Q a m' → Q' a m') → (∀ c m', R c m' → R' c m') → wp f Q' R' m.
Proof. unfold wp. destruct (f m); naive_solver. Qed.

Lemma wp_give_back c Q R m : R c m → wp (give_back c) Q R m.
Proof. done. Qed.

Lemma wp_or_return (o : option A) c Q R m :
  (∀ a, o = Some a → Q a m) → (o = None → R c m) → wp (or_return o c) Q R m.
Proof. destruct o; cbn; eauto. Qed.

Lemma wp_ok_or_return {E} (r : result E A) c Q R m :
  (∀ a, r = Ok a → Q a m) → (∀ e, r = Err e → R (c e) m) → wp (ok_or_return r c) Q R m.
Proof. destruct r; cbn; eauto. Qed.
End rules.

Lemma wp_return_if bad c (Q : unit → Memory → Prop) R m :
  (bad = false → Q tt m) → (bad = true → R c m) → wp (return_if bad c) Q R m.
Proof. destruct bad; cbn; eauto. Qed.

(** The contract on a pair of pointer and length: valid for that many bytes, or
    null, or of no length. *)
Definition readable (m : Memory) (p : Pointer) (n : N) : Prop :=
  n = 0 ∨ p = Null ∨ is_Some (bytes_at m p n).

Definition readable_str (m : Memory) (p : Pointer) : Prop :=
  p = Null ∨ is_Some (c_string_at m p).

Lemma wp_borrow p n limit (Q : option bytes → Memory → Prop) R m :
  readable m p n → (∀ o, Q o m) → wp (borrow p n limit) Q R m.
Proof.
  intros H HQ. unfold borrow. destruct (limit <? n); [apply HQ|].
  destruct (N.eqb_spec n 0); [apply HQ|]. unfold is_null. case_bool_decide; [apply HQ|].
  destruct H as [|[|[b Hb]]]; [done..|]. cbn. unfold wp, from_raw_parts, mbind, Body_bind.
  rewrite Hb. apply HQ.
Qed.

Lemma wp_borrow_str p (Q : option (option bytes) → Memory → Prop) R m :
  readable_str m p → (∀ o, Q o m) → wp (borrow_str p) Q R m.
Proof.
  intros H HQ. unfold borrow_str, is_null. case_bool_decide; [apply HQ|].
  destruct H as [|[s Hs]]; [done|]. unfold wp, c_str, mbind, Body_bind. rewrite Hs. apply HQ.
Qed.

Lemma wp_deref {T} (select : Boxed → option T) p b s (Q : T → Memory → Prop) R m :
  box_at m p = Some b → select b = Some s → Q s m → wp (deref select p) Q R m.
Proof. intros Hb Hs HQ. unfold wp, deref. by rewrite Hb; cbn; rewrite Hs. Qed.

(** ** Pointers that denote bytes

    [denotes m p n b]: the pair holds exactly [b]. *)
Definition denotes (m : Memory) (p : Pointer) (n : N) (b : bytes) : Prop :=
  n = lenN b ∧ (b = [] ∨ bytes_at m p n = Some b).

Definition spells (m : Memory) (p : Pointer) (s : option bytes) : Prop :=
  match s with None => p = Null | Some s => c_string_at m p = Some s ∧ utf8_valid s = true end.

Lemma borrow_denotes m p n b limit :
  denotes m p n b → borrow p n limit m = Done (if limit <? lenN b then None else Some b) m.
Proof.
  intros [-> H]. unfold borrow. destruct (limit <? lenN b) eqn:Hl; [done|].
  destruct H as [->|H]; [done|].
  destruct (N.eqb_spec (lenN b) 0) as [E|E]; [by destruct b|].
  unfold is_null. case_bool_decide; subst; [done|].
  unfold from_raw_parts, mbind, Body_bind. by rewrite H.
Qed.

Lemma borrow_str_spells m p s : spells m p s → borrow_str p m = Done (Some s) m.
Proof.
  unfold borrow_str, is_null. destruct s as [s|]; cbn.
  - intros [H V]. case_bool_decide; subst; [done|].
    unfold c_str, mbind, Body_bind. by rewrite H, V.
  - by intros ->.
Qed.

Lemma denotes_readable m p n b : denotes m p n b → readable m p n.
Proof. intros [-> [->|H]]; [by left|right; right; by eexists]. Qed.

Lemma spells_readable m p s : spells m p s → readable_str m p.
Proof. destruct s; cbn; [intros [H _]; right; by eexists|by left]. Qed.

Lemma bytes_at_length m p n b : bytes_at m p n = Some b → lenN b = n.
Proof.
  unfold bytes_at. destruct p as [| |l o]; [done..|].
  intros H.
  assert (∃ c, o + n <=? lenN c = true ∧ b = slice o (o + n) c) as (c & Hc & ->).
  { destruct (cells m !! l) as [[]|]; try done; destruct (o + n <=? _) eqn:E; try done;
      injection H as <-; eauto. }
  b2p. unfold slice. rewrite length_take, length_drop. lia.
Qed.

#[export] Hint Resolve denotes_readable spells_readable : abi.

(** An allocator to run examples with: a block at the first free address, and
    vectors with no spare room. *)
Module FirstFit.
#[export] Instance heap : Allocator := {
  place m := fresh (dom m : gset positive);
  room_for b := lenN b;
}.

#[export] Instance heap_laws : AllocatorLaws heap.
Proof.
  split; [|done]. intros m. apply not_elem_of_dom. exact (is_fresh (dom m : gset positive)).
Qed.
End FirstFit.
