(* ===== verification/Ffi.v ===== *)
(** [hide-ffi/src/lib.rs]: the C interface. Every entry point is a computation
    over the memory of Abi.v in the order the code has it: null checks, borrows
    with their bounds, the crates' own operation, the writes through the
    caller's pointers, and the status code each failure is given. *)
From stdpp Require Import gmap.
From S2P Require Import Prelude Utf8 Cbor Sign Challenge Merkle Note Crypto Epoch Identity.
From S2P Require Import Bindings Stream Codec Records Object Keyring Armor Abi.
Local Open Scope N_scope.

#[local] Existing Instance Hybrid.scheme.

Definition HIDE_KEY_RAW : N := 0.
Definition HIDE_KEY_PROTECTED : N := 1.
Definition HIDE_PUBLIC_KEY_LEN : N := 1216.
Definition HIDE_SIGNATURE_LEN : N := SIGNATURE_LENGTH.
Definition HIDE_VERIFYING_KEY_LEN : N := VERIFYING_KEY_LENGTH.
Definition MAX_INPUT : N := 1073741824.
Definition MAX_KEY_FILE : N := 4096.
Definition MAX_LOG_BYTES : N := 16777216.

(** A [usize] is 64 bits wide on the targets the library is built for. *)
Definition usize_max : N := u64_max.

Definition object_error_code (e : ObjectError) : Z :=
  match e with
  | NoMatchingRecipient => HIDE_ERR_NO_MATCHING_RECIPIENT
  | Crypto _ => HIDE_ERR_AUTHENTICATION
  | ObjectTooLarge => HIDE_ERR_TOO_LARGE
  | _ => HIDE_ERR_MALFORMED
  end.

Definition keyring_error_code (e : KeyringError) : Z :=
  match e with
  | WrongPassphrase => HIDE_ERR_WRONG_PASSPHRASE
  | NotAKeyFile | UnsupportedVersion _ => HIDE_ERR_NOT_A_KEY
  | PassphraseTooShort _ => HIDE_ERR_INVALID_ARGUMENT
  | _ => HIDE_ERR_MALFORMED
  end.

Definition challenge_error_code (e : ChallengeError) : Z :=
  match e with
  | Expired => HIDE_ERR_CHALLENGE_EXPIRED
  | Replayed => HIDE_ERR_CHALLENGE_REPLAYED
  | NotSigned => HIDE_ERR_AUTHENTICATION
  end.

Definition log_error_code (e : LogError) : Z :=
  match e with Merkle.Malformed => HIDE_ERR_MALFORMED | _ => HIDE_ERR_AUTHENTICATION end.

(** [hide_error_message], the text before its NUL *)
Definition hide_error_message (code : Z) : bytes :=
  if bool_decide (code = HIDE_OK) then text "success"
  else if bool_decide (code = HIDE_ERR_INVALID_ARGUMENT) then text "invalid argument"
  else if bool_decide (code = HIDE_ERR_WRONG_PASSPHRASE)
  then text "incorrect passphrase, or the key file was modified"
  else if bool_decide (code = HIDE_ERR_NOT_A_KEY) then text "not a HIDE key file"
  else if bool_decide (code = HIDE_ERR_AUTHENTICATION)
  then text "authentication failed; the data was altered"
  else if bool_decide (code = HIDE_ERR_NO_MATCHING_RECIPIENT)
  then text "no matching recipient for this key"
  else if bool_decide (code = HIDE_ERR_MALFORMED) then text "malformed or corrupt input"
  else if bool_decide (code = HIDE_ERR_TOO_LARGE) then text "input is too large"
  else if bool_decide (code = HIDE_ERR_CHALLENGE_EXPIRED)
  then text "the challenge expired before it was answered"
  else if bool_decide (code = HIDE_ERR_CHALLENGE_REPLAYED)
  then text "this challenge was already answered"
  else if bool_decide (code = HIDE_ERR_PANIC) then text "internal error (panic)"
  else text "internal error".

(** [hide_test_panic] *)
Definition hide_test_panic : Abi := guard panic.

Fixpoint chunks_of (n size : nat) (b : bytes) : list bytes :=
  match n with O => [] | S n => take size b :: chunks_of n size (drop size b) end.

(** [b.chunks_exact(size)] *)
Definition chunks_exact (size : N) (b : bytes) : list bytes :=
  chunks_of (N.to_nat (lenN b / size)) (N.to_nat size) b.

(** [let mut array = [0; size]; array.copy_from_slice(b)] panics on another length. *)
Definition copied (size : N) (b : bytes) : Body bytes := if lenN b =? size then mret b else panic.

Definition copied_hashes (b : bytes) : Body (list bytes) := mapM (copied 32) (chunks_exact 32 b).

(** Two or three of a tuple pattern's options at once. *)
Definition both {A B} (a : option A) (b : option B) : option (A * B) := x ← a; y ← b; Some (x, y).
Definition all3 {A B C} (a : option A) (b : option B) (c : option C) : option (A * B * C) :=
  both (both a b) c.
Definition ok {E A} (r : result E A) : option A := match r with Ok a => Some a | Err _ => None end.

(** [Membership::len] *)
Definition member_count {S : SignatureScheme} (m : Membership) : N := N.of_nat (base.size m.(devices)).

Section entry_points.
Context {C : Cbor} {SP : Sign.Primitives} {P : Crypto.Primitives}.
Context {A : Argon2} {U : Unicode} {X : Expand} {B : Base64} {G : Allocator}.

(** ** Keys *)
Definition hide_keypair_generate (random : option bytes) (out_secret out_public : Pointer) : Abi :=
  guard (
    return_if (is_null out_secret || is_null out_public) HIDE_ERR_INVALID_ARGUMENT;;
    secret ← ok_or_return (generate_secret random) (λ _, HIDE_ERR_INTERNAL);
    public ← ok_or_return (Crypto.public_key secret) (λ _, HIDE_ERR_INTERNAL);
    v ← from_vec (public_to_bytes public);
    write_buffer out_public v;;
    h ← into_raw (SecretBox secret);
    write_handle SecretKind out_secret h;;
    mret HIDE_OK).

Definition hide_inspect_key (data : Pointer) (len : N) (out_kind : Pointer) : Abi :=
  guard (
    return_if (is_null out_kind) HIDE_ERR_INVALID_ARGUMENT;;
    b ← borrow data len MAX_KEY_FILE;
    b ← or_return b HIDE_ERR_INVALID_ARGUMENT;
    let kind := match inspect b with Raw => HIDE_KEY_RAW | Protected => HIDE_KEY_PROTECTED end in
    write_word out_kind kind;;
    mret HIDE_OK).

Definition hide_secret_key_open (data : Pointer) (len : N) (passphrase out_secret : Pointer) : Abi :=
  guard (
    return_if (is_null out_secret) HIDE_ERR_INVALID_ARGUMENT;;
    b ← borrow data len MAX_KEY_FILE;
    b ← or_return b HIDE_ERR_INVALID_ARGUMENT;
    passphrase ← borrow_str passphrase;
    passphrase ← or_return passphrase HIDE_ERR_INVALID_ARGUMENT;
    secret ← ok_or_return (open_key b passphrase) keyring_error_code;
    h ← into_raw (SecretBox secret);
    write_handle SecretKind out_secret h;;
    mret HIDE_OK).

(** [let Some(Some(text)) = borrow_str(p) else { return INVALID_ARGUMENT }] *)
Definition required_str (p : Pointer) : Body bytes :=
  s ← borrow_str p;
  s ← or_return s HIDE_ERR_INVALID_ARGUMENT;
  or_return s HIDE_ERR_INVALID_ARGUMENT.

Definition hide_secret_key_protect (salt nonce : option bytes) (secret passphrase out : Pointer) : Abi :=
  guard (
    return_if (is_null secret || is_null out) HIDE_ERR_INVALID_ARGUMENT;;
    passphrase ← required_str passphrase;
    secret ← deref a_secret secret;
    sealed ← ok_or_return (protect secret passphrase salt nonce) keyring_error_code;
    v ← from_vec sealed;
    write_buffer out v;;
    mret HIDE_OK).

Definition hide_secret_key_public (secret out : Pointer) : Abi :=
  guard (
    return_if (is_null secret || is_null out) HIDE_ERR_INVALID_ARGUMENT;;
    secret ← deref a_secret secret;
    public ← ok_or_return (Crypto.public_key secret) (λ _, HIDE_ERR_INTERNAL);
    v ← from_vec (public_to_bytes public);
    write_buffer out v;;
    mret HIDE_OK).

(** ** Containers *)
Definition hide_encrypt (draw : nat → option bytes) (plaintext : Pointer) (plaintext_len : N)
    (recipients : Pointer) (recipient_count : N) (filename media_type out : Pointer) : Abi :=
  guard (
    return_if (is_null out) HIDE_ERR_INVALID_ARGUMENT;;
    return_if ((recipient_count =? 0) || (64 <? recipient_count)) HIDE_ERR_INVALID_ARGUMENT;;
    plaintext ← borrow plaintext plaintext_len MAX_INPUT;
    plaintext ← or_return plaintext HIDE_ERR_INVALID_ARGUMENT;
    keys ← borrow recipients (recipient_count * HIDE_PUBLIC_KEY_LEN) MAX_INPUT;
    keys ← or_return keys HIDE_ERR_INVALID_ARGUMENT;
    parsed ← ok_or_return (collect public_from_bytes (chunks_exact HIDE_PUBLIC_KEY_LEN keys))
               (λ _, HIDE_ERR_INVALID_ARGUMENT);
    filename ← borrow_str filename;
    media_type ← borrow_str media_type;
    '(filename, media_type) ← or_return (both filename media_type) HIDE_ERR_INVALID_ARGUMENT;
    let metadata := {| Codec.filename := filename; Codec.media_type := media_type;
                       meta_signature := None; meta_extensions := [] |} in
    '(_, container) ← ok_or_return
      (Object.encrypt draw (slice_reader plaintext) {| written := []; schedule := [] |} parsed metadata)
      object_error_code;
    v ← from_vec container.(written);
    write_buffer out v;;
    mret HIDE_OK).

(** [if !out.is_null() { *out = HideBuffer::from_vec(value.unwrap_or_default()) }] *)
Definition write_optional (out : Pointer) (value : option bytes) : Body unit :=
  if is_null out then mret tt
  else v ← from_vec (default [] value); write_buffer out v.

Definition hide_decrypt (container : Pointer) (container_len : N)
    (secret out out_filename out_media_type : Pointer) : Abi :=
  guard (
    return_if (is_null secret || is_null out) HIDE_ERR_INVALID_ARGUMENT;;
    container ← borrow container container_len MAX_INPUT;
    container ← or_return container HIDE_ERR_INVALID_ARGUMENT;
    secret ← deref a_secret secret;
    '(verified, plaintext) ← ok_or_return
      (decrypt_to_staging (slice_reader container) {| written := []; schedule := [] |} secret)
      object_error_code;
    write_optional out_filename verified.(object_metadata).(Codec.filename);;
    write_optional out_media_type verified.(object_metadata).(Codec.media_type);;
    v ← from_vec plaintext.(written);
    write_buffer out v;;
    mret HIDE_OK).

Definition hide_public_key_armor (data : Pointer) (len : N) (out : Pointer) : Abi :=
  guard (
    return_if (is_null out) HIDE_ERR_INVALID_ARGUMENT;;
    b ← borrow data len MAX_KEY_FILE;
    b ← or_return b HIDE_ERR_INVALID_ARGUMENT;
    return_if (negb (lenN b =? HIDE_PUBLIC_KEY_LEN)) HIDE_ERR_INVALID_ARGUMENT;;
    v ← from_vec (encode_public b);
    write_buffer out v;;
    mret HIDE_OK).

Definition hide_public_key_dearmor (text out : Pointer) : Abi :=
  guard (
    return_if (is_null out) HIDE_ERR_INVALID_ARGUMENT;;
    text ← required_str text;
    b ← ok_or_return (decode_public text) keyring_error_code;
    return_if (negb (lenN b =? HIDE_PUBLIC_KEY_LEN)) HIDE_ERR_INVALID_ARGUMENT;;
    v ← from_vec b;
    write_buffer out v;;
    mret HIDE_OK).

(** ** Signing *)
Definition hide_identity_generate (random salt nonce : option bytes) (passphrase out_key_file : Pointer)
  : Abi :=
  guard (
    return_if (is_null out_key_file) HIDE_ERR_INVALID_ARGUMENT;;
    passphrase ← required_str passphrase;
    identity ← ok_or_return (generate_identity random) (λ _, HIDE_ERR_INTERNAL);
    sealed ← ok_or_return (protect_identity identity.(Keyring.seed) passphrase salt nonce)
               keyring_error_code;
    v ← from_vec sealed;
    write_buffer out_key_file v;;
    mret HIDE_OK).

(** The signing seed of a key file, or the status code [hide_signing_identity_open]
    gives up with. *)
Definition signing_seed_of (b : bytes) (passphrase : option bytes) : Body bytes :=
  match inspect b with
  | Raw =>
      return_if (negb (lenN b =? 32)) HIDE_ERR_NOT_A_KEY;;
      seed ← copied 32 b;
      mret (signing_seed {| Keyring.seed := seed |})
  | Protected =>
      passphrase ← or_return passphrase HIDE_ERR_INVALID_ARGUMENT;
      '(seed, purpose) ← ok_or_return (unprotect_seed b passphrase) keyring_error_code;
      return_if (negb (bool_decide (purpose = Keyring.Identity))) HIDE_ERR_NOT_A_KEY;;
      mret (signing_seed {| Keyring.seed := seed |})
  end.

Definition hide_signing_identity_open (data : Pointer) (len : N) (passphrase out_identity : Pointer)
  : Abi :=
  guard (
    return_if (is_null out_identity) HIDE_ERR_INVALID_ARGUMENT;;
    b ← borrow data len MAX_KEY_FILE;
    b ← or_return b HIDE_ERR_INVALID_ARGUMENT;
    passphrase ← borrow_str passphrase;
    passphrase ← or_return passphrase HIDE_ERR_INVALID_ARGUMENT;
    seed ← signing_seed_of b passphrase;
    identity ← ok_or_return (Hybrid.from_bytes seed) (λ _, HIDE_ERR_NOT_A_KEY);
    h ← into_raw (IdentityBox identity);
    write_handle IdentityKind out_identity h;;
    mret HIDE_OK).

Definition hide_signing_identity_public (identity out : Pointer) : Abi :=
  guard (
    return_if (is_null identity || is_null out) HIDE_ERR_INVALID_ARGUMENT;;
    identity ← deref an_identity identity;
    v ← from_vec (vk_to_bytes (Sign.verifying_key identity));
    write_buffer out v;;
    mret HIDE_OK).

Definition hide_sign_message (identity context : Pointer) (context_len : N) (message : Pointer)
    (message_len : N) (out : Pointer) : Abi :=
  guard (
    return_if (is_null identity || is_null out) HIDE_ERR_INVALID_ARGUMENT;;
    context ← borrow context context_len MAX_KEY_FILE;
    context ← or_return context HIDE_ERR_INVALID_ARGUMENT;
    message ← borrow message message_len MAX_INPUT;
    message ← or_return message HIDE_ERR_INVALID_ARGUMENT;
    identity ← deref an_identity identity;
    signature ← ok_or_return (Hybrid.sign_application identity context message)
                  (λ _, HIDE_ERR_INVALID_ARGUMENT);
    v ← from_vec signature;
    write_buffer out v;;
    mret HIDE_OK).

Definition hide_verify_message (public_key : Pointer) (public_key_len : N) (context : Pointer)
    (context_len : N) (message : Pointer) (message_len : N) (signature : Pointer)
    (signature_len : N) : Abi :=
  guard (
    public_key ← borrow public_key public_key_len MAX_KEY_FILE;
    public_key ← or_return public_key HIDE_ERR_INVALID_ARGUMENT;
    context ← borrow context context_len MAX_KEY_FILE;
    context ← or_return context HIDE_ERR_INVALID_ARGUMENT;
    message ← borrow message message_len MAX_INPUT;
    message ← or_return message HIDE_ERR_INVALID_ARGUMENT;
    return_if (negb (signature_len =? HIDE_SIGNATURE_LEN)
               || negb (public_key_len =? HIDE_VERIFYING_KEY_LEN)) HIDE_ERR_INVALID_ARGUMENT;;
    signature ← borrow signature signature_len (MAX_KEY_FILE * 4);
    signature ← or_return signature HIDE_ERR_INVALID_ARGUMENT;
    verifying ← ok_or_return (vk_from_bytes public_key) (λ _, HIDE_ERR_NOT_A_KEY);
    ok_or_return (Sign.verify verifying context message signature) (λ _, HIDE_ERR_AUTHENTICATION);;
    mret HIDE_OK).

(** ** Challenges *)
Definition hide_challenge_new (random : option bytes) (audience : Pointer) (now valid_for : N)
    (out : Pointer) : Abi :=
  guard (
    return_if (is_null out) HIDE_ERR_INVALID_ARGUMENT;;
    audience ← required_str audience;
    challenge ← ok_or_return (Challenge.new random audience now valid_for) (λ _, HIDE_ERR_INTERNAL);
    v ← from_vec (Challenge.encode challenge);
    write_buffer out v;;
    mret HIDE_OK).

Definition hide_challenge_answer (identity challenge : Pointer) (challenge_len : N) (out : Pointer)
  : Abi :=
  guard (
    return_if (is_null identity || is_null out) HIDE_ERR_INVALID_ARGUMENT;;
    b ← borrow challenge challenge_len MAX_KEY_FILE;
    b ← or_return b HIDE_ERR_INVALID_ARGUMENT;
    challenge ← ok_or_return (Challenge.decode b) (λ _, HIDE_ERR_MALFORMED);
    identity ← deref an_identity identity;
    v ← from_vec (answer challenge identity);
    write_buffer out v;;
    mret HIDE_OK).

(** [hide_spent_nonces_new] returns the pointer itself. *)
Definition hide_spent_nonces_new : Body Pointer := into_raw (NoncesBox no_nonces).

Definition hide_challenge_accept (spent challenge : Pointer) (challenge_len : N) (signature : Pointer)
    (signature_len : N) (public_key : Pointer) (public_key_len now : N) : Abi :=
  guard (
    return_if (is_null spent) HIDE_ERR_INVALID_ARGUMENT;;
    b ← borrow challenge challenge_len MAX_KEY_FILE;
    b ← or_return b HIDE_ERR_INVALID_ARGUMENT;
    return_if (negb (signature_len =? HIDE_SIGNATURE_LEN)
               || negb (public_key_len =? HIDE_VERIFYING_KEY_LEN)) HIDE_ERR_INVALID_ARGUMENT;;
    signature ← borrow signature signature_len (MAX_KEY_FILE * 4);
    signature ← or_return signature HIDE_ERR_INVALID_ARGUMENT;
    public_key ← borrow public_key public_key_len MAX_KEY_FILE;
    public_key ← or_return public_key HIDE_ERR_INVALID_ARGUMENT;
    challenge ← ok_or_return (Challenge.decode b) (λ _, HIDE_ERR_MALFORMED);
    prover ← ok_or_return (vk_from_bytes public_key) (λ _, HIDE_ERR_NOT_A_KEY);
    seen ← deref a_record spent;
    let '(r, seen) := accept seen challenge signature prover now in
    write_record spent seen;;
    ok_or_return r challenge_error_code;;
    mret HIDE_OK).

(** ** Identity logs *)
Definition hide_identity_verify (log : Pointer) (log_len : N) (recovery : Pointer) (recovery_len : N)
    (out_devices : Pointer) : Abi :=
  guard (
    return_if (is_null out_devices) HIDE_ERR_INVALID_ARGUMENT;;
    log ← borrow log log_len MAX_LOG_BYTES;
    log ← or_return log HIDE_ERR_INVALID_ARGUMENT;
    recovery ← borrow recovery recovery_len MAX_KEY_FILE;
    recovery ← or_return recovery HIDE_ERR_INVALID_ARGUMENT;
    recovery_key ← ok_or_return (vk_from_bytes recovery) (λ _, HIDE_ERR_NOT_A_KEY);
    entries ← ok_or_return (Identity.decode log) (λ _, HIDE_ERR_MALFORMED);
    membership ← ok_or_return (verify_log sha256 entries recovery_key) (λ _, HIDE_ERR_AUTHENTICATION);
    write_word out_devices (member_count membership);;
    mret HIDE_OK).

Definition hide_identity_trusts_device (log : Pointer) (log_len : N) (recovery : Pointer)
    (recovery_len : N) (device_public : Pointer) (device_public_len : N) (out_trusted : Pointer) : Abi :=
  guard (
    return_if (is_null out_trusted) HIDE_ERR_INVALID_ARGUMENT;;
    log ← borrow log log_len MAX_LOG_BYTES;
    log ← or_return log HIDE_ERR_INVALID_ARGUMENT;
    recovery ← borrow recovery recovery_len MAX_KEY_FILE;
    recovery ← or_return recovery HIDE_ERR_INVALID_ARGUMENT;
    device ← borrow device_public device_public_len MAX_KEY_FILE;
    device ← or_return device HIDE_ERR_INVALID_ARGUMENT;
    '(recovery_key, device) ←
      or_return (both (ok (vk_from_bytes recovery)) (ok (vk_from_bytes device))) HIDE_ERR_NOT_A_KEY;
    entries ← ok_or_return (Identity.decode log) (λ _, HIDE_ERR_MALFORMED);
    membership ← ok_or_return (verify_log sha256 entries recovery_key) (λ _, HIDE_ERR_AUTHENTICATION);
    let trusted := contains membership (device_id sha256 device) in
    write_word out_trusted (if trusted then 1 else 0);;
    mret HIDE_OK).

Definition hide_identity_head (log : Pointer) (log_len : N) (recovery : Pointer) (recovery_len : N)
    (out : Pointer) : Abi :=
  guard (
    return_if (is_null out) HIDE_ERR_INVALID_ARGUMENT;;
    log ← borrow log log_len MAX_LOG_BYTES;
    log ← or_return log HIDE_ERR_INVALID_ARGUMENT;
    recovery ← borrow recovery recovery_len MAX_KEY_FILE;
    recovery ← or_return recovery HIDE_ERR_INVALID_ARGUMENT;
    recovery_key ← ok_or_return (vk_from_bytes recovery) (λ _, HIDE_ERR_NOT_A_KEY);
    entries ← ok_or_return (Identity.decode log) (λ _, HIDE_ERR_MALFORMED);
    log ← ok_or_return (from_entries sha256 entries recovery_key) (λ _, HIDE_ERR_AUTHENTICATION);
    v ← from_vec (Identity.head log);
    write_buffer out v;;
    mret HIDE_OK).

(** ** Epoch chains *)
Definition hide_epoch_verify (chain : Pointer) (chain_len : N) (out_epochs : Pointer) : Abi :=
  guard (
    return_if (is_null out_epochs) HIDE_ERR_INVALID_ARGUMENT;;
    b ← borrow chain chain_len MAX_LOG_BYTES;
    b ← or_return b HIDE_ERR_INVALID_ARGUMENT;
    records ← ok_or_return (decode_records b) (λ _, HIDE_ERR_MALFORMED);
    return_if (negb (is_ok (Epoch.verify sha256 records))) HIDE_ERR_AUTHENTICATION;;
    write_word out_epochs (lenN records);;
    mret HIDE_OK).

Definition hide_epoch_public_key (chain : Pointer) (chain_len epoch : N) (out : Pointer) : Abi :=
  guard (
    return_if (is_null out) HIDE_ERR_INVALID_ARGUMENT;;
    b ← borrow chain chain_len MAX_LOG_BYTES;
    b ← or_return b HIDE_ERR_INVALID_ARGUMENT;
    records ← ok_or_return (decode_records b) (λ _, HIDE_ERR_MALFORMED);
    return_if (negb (is_ok (Epoch.verify sha256 records))) HIDE_ERR_AUTHENTICATION;;
    return_if (usize_max <? epoch) HIDE_ERR_INVALID_ARGUMENT;;
    record ← or_return (records !! N.to_nat epoch) HIDE_ERR_INVALID_ARGUMENT;
    v ← from_vec record.(Epoch.public_key);
    write_buffer out v;;
    mret HIDE_OK).

(** ** Transparency proofs *)
Definition hide_transparency_verify_inclusion (leaf : Pointer) (leaf_len index size : N)
    (path : Pointer) (path_len : N) (root : Pointer) (root_len : N) : Abi :=
  guard (
    leaf ← borrow leaf leaf_len 32;
    path ← borrow path path_len (64 * 32);
    root ← borrow root root_len 32;
    '(leaf, path, root) ← or_return (all3 leaf path root) HIDE_ERR_INVALID_ARGUMENT;
    return_if (negb (lenN leaf =? 32) || negb (lenN root =? 32) || negb (lenN path mod 32 =? 0))
      HIDE_ERR_INVALID_ARGUMENT;;
    hashes ← copied_hashes path;
    let proof := {| Merkle.index := index; Merkle.size := size; Merkle.path := hashes |} in
    leaf ← copied 32 leaf;
    root ← copied 32 root;
    ok_or_return (Merkle.verify_inclusion sha256 proof leaf root) (λ _, HIDE_ERR_AUTHENTICATION);;
    mret HIDE_OK).

Definition hide_transparency_verify_consistency (old_size new_size : N) (path : Pointer) (path_len : N)
    (old_root : Pointer) (old_root_len : N) (new_root : Pointer) (new_root_len : N) : Abi :=
  guard (
    path ← borrow path path_len (64 * 32);
    old ← borrow old_root old_root_len 32;
    new ← borrow new_root new_root_len 32;
    '(path, old, new) ← or_return (all3 path old new) HIDE_ERR_INVALID_ARGUMENT;
    return_if (negb (lenN old =? 32) || negb (lenN new =? 32) || negb (lenN path mod 32 =? 0))
      HIDE_ERR_INVALID_ARGUMENT;;
    hashes ← copied_hashes path;
    let proof := {| Merkle.old_size := old_size; Merkle.new_size := new_size; cpath := hashes |} in
    old ← copied 32 old;
    new ← copied 32 new;
    ok_or_return (Merkle.verify_consistency sha256 proof old new) (λ _, HIDE_ERR_AUTHENTICATION);;
    mret HIDE_OK).

(** ** Relying-party checks *)
Definition pinned_log (log : Pointer) (log_len : N) (binding : Pointer) (binding_len : N)
    (root : Pointer) (root_len : N) : Body IdentityLog :=
  log ← borrow log log_len MAX_LOG_BYTES;
  binding ← borrow binding binding_len RECOVERY_BINDING_LENGTH;
  root ← borrow root root_len 32;
  '(log, binding, root) ← or_return (all3 log binding root) HIDE_ERR_INVALID_ARGUMENT;
  return_if (negb (lenN root =? 32)) HIDE_ERR_INVALID_ARGUMENT;;
  binding ← ok_or_return (decode_recovery binding) (λ _, HIDE_ERR_MALFORMED);
  entries ← ok_or_return (Identity.decode log) (λ _, HIDE_ERR_MALFORMED);
  ok_or_return (verify_pinned sha256 binding entries root) (λ _, HIDE_ERR_AUTHENTICATION).

Definition hide_identity_verify_pinned (log : Pointer) (log_len : N) (recovery_binding : Pointer)
    (recovery_binding_len : N) (pinned_root : Pointer) (pinned_root_len : N) (out_devices : Pointer)
  : Abi :=
  guard (
    return_if (is_null out_devices) HIDE_ERR_INVALID_ARGUMENT;;
    log ← pinned_log log log_len recovery_binding recovery_binding_len pinned_root pinned_root_len;
    write_word out_devices (member_count (membership sha256 log));;
    mret HIDE_OK).

Definition hide_epoch_verify_bound (log : Pointer) (log_len : N) (recovery_binding : Pointer)
    (recovery_binding_len : N) (pinned_root : Pointer) (pinned_root_len : N) (chain : Pointer)
    (chain_len : N) (epoch_binding : Pointer) (epoch_binding_len : N) (out_epochs : Pointer) : Abi :=
  guard (
    return_if (is_null out_epochs) HIDE_ERR_INVALID_ARGUMENT;;
    chain ← borrow chain chain_len MAX_LOG_BYTES;
    binding ← borrow epoch_binding epoch_binding_len EPOCH_BINDING_LENGTH;
    '(chain, binding) ← or_return (both chain binding) HIDE_ERR_INVALID_ARGUMENT;
    log ← pinned_log log log_len recovery_binding recovery_binding_len pinned_root pinned_root_len;
    '(records, binding) ←
      or_return (both (ok (decode_records chain)) (ok (decode_epoch binding))) HIDE_ERR_MALFORMED;
    return_if (negb (is_ok (verify_epoch sha256 binding log records))) HIDE_ERR_AUTHENTICATION;;
    write_word out_epochs (lenN records);;
    mret HIDE_OK).

Definition hide_checkpoint_verify (note : Pointer) (note_len : N) (origin log_public : Pointer)
    (log_public_len : N) (out_size out_root : Pointer) : Abi :=
  guard (
    return_if (is_null out_size || is_null out_root || is_null origin) HIDE_ERR_INVALID_ARGUMENT;;
    note ← borrow note note_len MAX_NOTE_BYTES;
    key ← borrow log_public log_public_len MAX_KEY_FILE;
    '(note, key) ← or_return (both note key) HIDE_ERR_INVALID_ARGUMENT;
    origin ← c_str origin;
    return_if (negb (utf8_valid origin)) HIDE_ERR_INVALID_ARGUMENT;;
    key ← ok_or_return (vk_from_bytes key) (λ _, HIDE_ERR_NOT_A_KEY);
    checkpoint ← ok_or_return (verify_note sha256 note origin key) log_error_code;
    write_word out_size checkpoint.(csize);;
    v ← from_vec checkpoint.(croot);
    write_buffer out_root v;;
    mret HIDE_OK).
End entry_points.
