(* ===== verification/FfiClient.v ===== *)
(** What the C interface promises its callers, over sequences of calls: a call
    that respects the documented contract is defined, never panics, and writes
    through the caller's pointers only when it succeeds; a caller that frees
    what it was given, once, leaks nothing. *)
From stdpp Require Import gmap.
From S2P Require Import Prelude Utf8 Cbor Sign Challenge Merkle Note Crypto Epoch Identity.
From S2P Require Import Bindings Stream Codec Records Object Keyring Armor Abi Ffi.
Local Open Scope N_scope.

#[local] Existing Instance Hybrid.scheme.

(** ** What a call may write *)
Inductive Sort := BufferSort | HandleSort (k : Kind) | WordSort | RecordSort.

#[export] Instance Sort_eq_dec : EqDecision Sort.
Proof. solve_decision. Defined.

Definition fits (s : Sort) (c : Cell) : bool :=
  match s with
  | BufferSort => is_buffer_var c
  | HandleSort k => is_handle_var k c
  | WordSort => is_word_var c
  | RecordSort => is_box NoncesKind c
  end.

Abbreviation Out := (Sort * Pointer)%type.

(** The pointer is the address of a live cell of its sort. *)
Definition target (m : Memory) (o : Out) : Prop :=
  ∃ l c, o.2 = At l 0 ∧ m.(cells) !! l = Some c ∧ fits o.1 c = true.

Definition given (o : Out) : bool := negb (is_null o.2).

Section writes.
Context {G : Allocator}.

(** One output: a fresh block or box named by the caller's variable, a number,
    or the verifier's record of nonces brought up to date. *)
Inductive wrote (m : Memory) : Out → Memory → Prop :=
| wrote_buffer l b v m1 :
    target m (BufferSort, At l 0) → from_vec b m = Done v m1 →
    wrote m (BufferSort, At l 0) (set_cell l (BufferVar v) m1)
| wrote_handle l b h m1 :
    target m (HandleSort (kind_of b), At l 0) → into_raw b m = Done h m1 →
    wrote m (HandleSort (kind_of b), At l 0) (set_cell l (HandleVar (kind_of b) h) m1)
| wrote_word l n :
    target m (WordSort, At l 0) → wrote m (WordSort, At l 0) (set_cell l (WordVar n) m)
| wrote_record l s :
    target m (RecordSort, At l 0) →
    wrote m (RecordSort, At l 0) (set_cell l (Owned (NoncesBox s)) m).

Inductive writes : Memory → list Out → Memory → Prop :=
| writes_nothing m : writes m [] m
| writes_more m o m1 os m2 : wrote m o m1 → writes m1 os m2 → writes m (o :: os) m2.

Lemma writes_app m os m1 os' m2 : writes m os m1 → writes m1 os' m2 → writes m (os ++ os') m2.
Proof. induction 1; [done|]. intros. econstructor; eauto. Qed.

Lemma writes_one m o m' : wrote m o m' → writes m [o] m'.
Proof. intros. econstructor; [done|constructor]. Qed.
End writes.

(** ** Rules for the steps that write *)
Section emit.
Context {G : Allocator} {GL : AllocatorLaws G} {A : Type}.
Implicit Types (Q : A → Memory → Prop) (R : Z → Memory → Prop) (m : Memory).

Lemma place_not_in m l c : m.(cells) !! l = Some c → place m.(cells) ≠ l.
Proof. intros H E. pose proof (place_fresh m.(cells)). rewrite E in *. congruence. Qed.

(** Allocation leaves every live cell as it was. *)
Lemma allocate_keeps c m p m1 l c' :
  allocate c m = Done p m1 → m.(cells) !! l = Some c' → m1.(cells) !! l = Some c'.
Proof.
  unfold allocate. intros [= <- <-] H. cbn.
  rewrite lookup_insert_ne; [done|by eapply place_not_in].
Qed.

Lemma from_vec_keeps b m v m1 l c :
  from_vec b m = Done v m1 → m.(cells) !! l = Some c → m1.(cells) !! l = Some c.
Proof.
  unfold from_vec. destruct (room_for b =? 0); [by intros [= <- <-]|].
  unfold mbind, Body_bind. destruct (allocate _ m) eqn:E; try done. intros [= <- <-] H.
  by eapply allocate_keeps.
Qed.

Lemma from_vec_done b m : ∃ v m1, from_vec b m = Done v m1.
Proof. unfold from_vec. destruct (room_for b =? 0); cbn; eauto. Qed.

Lemma target_keeps m m1 o :
  (∀ l c, m.(cells) !! l = Some c → m1.(cells) !! l = Some c) → target m o → target m1 o.
Proof. intros H (l & c & Hp & Hl & Hf). exists l, c. eauto. Qed.

Lemma write_var_done m s l c (v : Cell) :
  m.(cells) !! l = Some c → fits s c = true →
  write_var (fits s) v (At l 0) m = Done tt (set_cell l v m).
Proof. intros H F. cbn. by rewrite H, F. Qed.

Lemma wp_emit_buffer p b (k : Body A) Q R m :
  target m (BufferSort, p) → (∀ m', wrote m (BufferSort, p) m' → wp k Q R m') →
  wp (v ← from_vec b; write_buffer p v;; k) Q R m.
Proof.
  intros T H. pose proof T as (l & c & Hp & Hl & Hf). cbn [fst snd] in *. subst p.
  destruct (from_vec_done b m) as (v & m1 & E).
  unfold wp, mbind, Body_bind, write_buffer. rewrite E.
  rewrite (write_var_done m1 BufferSort l c) by eauto using from_vec_keeps.
  apply H. by econstructor.
Qed.

Lemma wp_emit_last p b (Q' : unit → Memory → Prop) R m :
  target m (BufferSort, p) → (∀ m', wrote m (BufferSort, p) m' → Q' tt m') →
  wp (v ← from_vec b; write_buffer p v) Q' R m.
Proof.
  intros T H. pose proof T as (l & c & Hp & Hl & Hf). cbn [fst snd] in *. subst p.
  destruct (from_vec_done b m) as (v & m1 & E).
  unfold wp, mbind, Body_bind, write_buffer. rewrite E.
  rewrite (write_var_done m1 BufferSort l c) by eauto using from_vec_keeps.
  apply H. by econstructor.
Qed.

Lemma wp_emit_handle p b (k : Body A) Q R m :
  target m (HandleSort (kind_of b), p) → (∀ m', wrote m (HandleSort (kind_of b), p) m' → wp k Q R m') →
  wp (h ← into_raw b; write_handle (kind_of b) p h;; k) Q R m.
Proof.
  intros T H. pose proof T as (l & c & Hp & Hl & Hf). cbn [fst snd] in *. subst p.
  unfold wp, mbind, Body_bind, write_handle. destruct (into_raw b m) as [h m1| | |] eqn:E; try done.
  rewrite (write_var_done m1 (HandleSort (kind_of b)) l c) by eauto using allocate_keeps.
  apply H. by econstructor.
Qed.

Lemma wp_emit_word p n (k : Body A) Q R m :
  target m (WordSort, p) → (∀ m', wrote m (WordSort, p) m' → wp k Q R m') →
  wp (write_word p n;; k) Q R m.
Proof.
  intros T H. pose proof T as (l & c & Hp & Hl & Hf). cbn [fst snd] in *. subst p.
  unfold wp, mbind, Body_bind, write_word. rewrite (write_var_done m WordSort l c) by done.
  apply H. by econstructor.
Qed.

Lemma wp_emit_record p s (k : Body A) Q R m :
  target m (RecordSort, p) → (∀ m', wrote m (RecordSort, p) m' → wp k Q R m') →
  wp (write_record p s;; k) Q R m.
Proof.
  intros T H. pose proof T as (l & c & Hp & Hl & Hf). cbn [fst snd] in *. subst p.
  unfold wp, mbind, Body_bind, write_record. rewrite (write_var_done m RecordSort l c) by done.
  apply H. by econstructor.
Qed.

Lemma fits_kind s c c' : fits s c = true → fits s c' = true → ∀ s', fits s' c = true → fits s' c' = true.
Proof.
  destruct s, c, c'; cbn; intros ??; try discriminate; intros []; cbn; try done;
    rewrite ?bool_decide_eq_true in *; congruence.
Qed.

(** A variable stays a variable of its sort whatever is written. *)
Lemma wrote_target m o m' o' : wrote m o m' → target m o' → target m' o'.
Proof.
  intros W (l' & c' & Hp & Hl' & Hf'). destruct o' as [s' p']; cbn [fst snd] in *. subst p'.
  assert (set_target : ∀ m1 l c v s, m.(cells) !! l = Some c → fits s c = true → fits s v = true →
    (∀ k d, m.(cells) !! k = Some d → m1.(cells) !! k = Some d) →
    target (set_cell l v m1) (s', At l' 0)).
  { intros m1 l c v s Hl Hf Hv K. unfold target, set_cell. cbn.
    destruct (decide (l = l')) as [->|].
    - exists l', v. rewrite lookup_insert_eq. repeat split. simplify_eq.
      eapply fits_kind; [exact Hf|exact Hv|done].
    - exists l', c'. rewrite lookup_insert_ne by done. eauto. }
  inversion W as [l b v m1 T E|l b h m1 T E|l n T|l s T]; subst;
    destruct T as (? & c & [= <-] & Hl & Hf); eapply set_target; try done.
  - intros. by eapply from_vec_keeps.
  - cbn. by apply bool_decide_eq_true.
  - intros. by eapply allocate_keeps.
Qed.
(** One output leaves every other live cell as it was. *)
Lemma wrote_elsewhere m o m' k c :
  wrote m o m' → o.2 ≠ At k 0 → m.(cells) !! k = Some c → m'.(cells) !! k = Some c.
Proof.
  intros W Hk Hc. destruct W as [l b v m1 T E|l b h m1 T E|l n T|l s T]; cbn in *;
    rewrite lookup_insert_ne by congruence; try done.
  - by eapply from_vec_keeps.
  - by eapply allocate_keeps.
Qed.

Lemma writes_elsewhere m os m' k c :
  writes m os m' → At k 0 ∉ os.*2 → m.(cells) !! k = Some c → m'.(cells) !! k = Some c.
Proof.
  induction 1 as [|m o m1 os m2 W _ IH]; [done|]. cbn. intros Hn Hc.
  apply not_elem_of_cons in Hn as [Hn1 Hn2]. apply IH; [done|]. by eapply wrote_elsewhere.
Qed.
End emit.

(** ** The calls

    One constructor per guarded entry point, with the arguments it takes; the
    randomness it draws comes first. *)
Inductive Call :=
| KeypairGenerate (random : option bytes) (out_secret out_public : Pointer)
| InspectKey (data : Pointer) (len : N) (out_kind : Pointer)
| SecretKeyOpen (data : Pointer) (len : N) (passphrase out_secret : Pointer)
| SecretKeyProtect (salt nonce : option bytes) (secret passphrase out : Pointer)
| SecretKeyPublic (secret out : Pointer)
| Encrypt (draw : nat → option bytes) (plaintext : Pointer) (plaintext_len : N)
    (recipients : Pointer) (recipient_count : N) (filename media_type out : Pointer)
| Decrypt (container : Pointer) (container_len : N) (secret out out_filename out_media_type : Pointer)
| PublicKeyArmor (data : Pointer) (len : N) (out : Pointer)
| PublicKeyDearmor (text out : Pointer)
| IdentityGenerate (random salt nonce : option bytes) (passphrase out_key_file : Pointer)
| SigningIdentityOpen (data : Pointer) (len : N) (passphrase out_identity : Pointer)
| SigningIdentityPublic (identity out : Pointer)
| SignMessage (identity context : Pointer) (context_len : N) (message : Pointer) (message_len : N)
    (out : Pointer)
| VerifyMessage (public_key : Pointer) (public_key_len : N) (context : Pointer) (context_len : N)
    (message : Pointer) (message_len : N) (signature : Pointer) (signature_len : N)
| ChallengeNew (random : option bytes) (audience : Pointer) (now valid_for : N) (out : Pointer)
| ChallengeAnswer (identity challenge : Pointer) (challenge_len : N) (out : Pointer)
| ChallengeAccept (spent challenge : Pointer) (challenge_len : N) (signature : Pointer)
    (signature_len : N) (public_key : Pointer) (public_key_len now : N)
| IdentityVerify (log : Pointer) (log_len : N) (recovery : Pointer) (recovery_len : N)
    (out_devices : Pointer)
| IdentityTrustsDevice (log : Pointer) (log_len : N) (recovery : Pointer) (recovery_len : N)
    (device_public : Pointer) (device_public_len : N) (out_trusted : Pointer)
| IdentityHead (log : Pointer) (log_len : N) (recovery : Pointer) (recovery_len : N) (out : Pointer)
| EpochVerify (chain : Pointer) (chain_len : N) (out_epochs : Pointer)
| EpochPublicKey (chain : Pointer) (chain_len epoch : N) (out : Pointer)
| VerifyInclusion (leaf : Pointer) (leaf_len index size : N) (path : Pointer) (path_len : N)
    (root : Pointer) (root_len : N)
| VerifyConsistency (old_size new_size : N) (path : Pointer) (path_len : N) (old_root : Pointer)
    (old_root_len : N) (new_root : Pointer) (new_root_len : N)
| IdentityVerifyPinned (log : Pointer) (log_len : N) (binding : Pointer) (binding_len : N)
    (root : Pointer) (root_len : N) (out_devices : Pointer)
| EpochVerifyBound (log : Pointer) (log_len : N) (binding : Pointer) (binding_len : N)
    (root : Pointer) (root_len : N) (chain : Pointer) (chain_len : N) (epoch_binding : Pointer)
    (epoch_binding_len : N) (out_epochs : Pointer)
| CheckpointVerify (note : Pointer) (note_len : N) (origin log_public : Pointer) (log_public_len : N)
    (out_size out_root : Pointer).

(** The caller's variables a call may write, in the order it writes them. *)
Definition outs (c : Call) : list Out :=
  match c with
  | KeypairGenerate _ s p => [(BufferSort, p); (HandleSort SecretKind, s)]
  | InspectKey _ _ o => [(WordSort, o)]
  | SecretKeyOpen _ _ _ o => [(HandleSort SecretKind, o)]
  | SecretKeyProtect _ _ _ _ o | SecretKeyPublic _ o | Encrypt _ _ _ _ _ _ _ o
  | PublicKeyArmor _ _ o | PublicKeyDearmor _ o | IdentityGenerate _ _ _ _ o
  | SigningIdentityPublic _ o | SignMessage _ _ _ _ _ o | ChallengeNew _ _ _ _ o
  | ChallengeAnswer _ _ _ o | IdentityHead _ _ _ _ o | EpochPublicKey _ _ _ o => [(BufferSort, o)]
  | Decrypt _ _ _ o f t => List.filter given [(BufferSort, f); (BufferSort, t)] ++ [(BufferSort, o)]
  | SigningIdentityOpen _ _ _ o => [(HandleSort IdentityKind, o)]
  | IdentityVerify _ _ _ _ o | IdentityTrustsDevice _ _ _ _ _ _ o | EpochVerify _ _ o
  | IdentityVerifyPinned _ _ _ _ _ _ o | EpochVerifyBound _ _ _ _ _ _ _ _ _ _ o => [(WordSort, o)]
  | CheckpointVerify _ _ _ _ _ n r => [(WordSort, n); (BufferSort, r)]
  | ChallengeAccept s _ _ _ _ _ _ _ => [(RecordSort, s)]
  | VerifyMessage _ _ _ _ _ _ _ _ | VerifyInclusion _ _ _ _ _ _ _ _
  | VerifyConsistency _ _ _ _ _ _ _ _ => []
  end.

(** The contract on inputs: readable ranges and strings, and live handles. *)
Definition handle_ok (m : Memory) (k : Kind) (p : Pointer) : Prop :=
  p = Null ∨ ∃ b, box_at m p = Some b ∧ kind_of b = k.

Definition inputs_ok (c : Call) (m : Memory) : Prop :=
  match c with
  | KeypairGenerate _ _ _ => True
  | InspectKey d n _ | PublicKeyArmor d n _ | EpochVerify d n _ | EpochPublicKey d n _ _ => readable m d n
  | SecretKeyOpen d n s _ | SigningIdentityOpen d n s _ => readable m d n ∧ readable_str m s
  | SecretKeyProtect _ _ k s _ => handle_ok m SecretKind k ∧ readable_str m s
  | SecretKeyPublic k _ => handle_ok m SecretKind k
  | Encrypt _ d n r k f t _ =>
      readable m d n ∧ readable m r (k * HIDE_PUBLIC_KEY_LEN) ∧ readable_str m f ∧ readable_str m t
  | Decrypt d n k _ _ _ => readable m d n ∧ handle_ok m SecretKind k
  | PublicKeyDearmor s _ | IdentityGenerate _ _ _ s _ | ChallengeNew _ s _ _ _ => readable_str m s
  | SigningIdentityPublic i _ => handle_ok m IdentityKind i
  | SignMessage i x nx d n _ => handle_ok m IdentityKind i ∧ readable m x nx ∧ readable m d n
  | VerifyMessage k nk x nx d n s ns => readable m k nk ∧ readable m x nx ∧ readable m d n ∧ readable m s ns
  | ChallengeAnswer i d n _ => handle_ok m IdentityKind i ∧ readable m d n
  | ChallengeAccept _ d n s ns k nk _ => readable m d n ∧ readable m s ns ∧ readable m k nk
  | IdentityVerify d n r nr _ | IdentityHead d n r nr _ => readable m d n ∧ readable m r nr
  | IdentityTrustsDevice d n r nr e ne _ => readable m d n ∧ readable m r nr ∧ readable m e ne
  | VerifyInclusion l nl _ _ p np r nr | VerifyConsistency _ _ l nl p np r nr =>
      readable m l nl ∧ readable m p np ∧ readable m r nr
  | IdentityVerifyPinned d n b nb r nr _ => readable m d n ∧ readable m b nb ∧ readable m r nr
  | EpochVerifyBound d n b nb r nr e ne x nx _ =>
      readable m d n ∧ readable m b nb ∧ readable m r nr ∧ readable m e ne ∧ readable m x nx
  | CheckpointVerify d n o k nk _ _ => readable m d n ∧ readable_str m o ∧ readable m k nk
  end.

(** The whole contract: the outputs that are not null are live variables of the
    sort the call writes. *)
Definition contract (c : Call) (m : Memory) : Prop :=
  inputs_ok c m ∧ Forall (λ o, o.2 = Null ∨ target m o) (outs c).

Section perform.
Context {C : Cbor} {SP : Sign.Primitives} {P : Crypto.Primitives}.
Context {A : Argon2} {U : Unicode} {X : Expand} {B : Base64} {G : Allocator}.

Definition perform (c : Call) : Abi :=
  match c with
  | KeypairGenerate r s p => hide_keypair_generate r s p
  | InspectKey d n o => hide_inspect_key d n o
  | SecretKeyOpen d n s o => hide_secret_key_open d n s o
  | SecretKeyProtect a b k s o => hide_secret_key_protect a b k s o
  | SecretKeyPublic k o => hide_secret_key_public k o
  | Encrypt w d n r k f t o => hide_encrypt w d n r k f t o
  | Decrypt d n k o f t => hide_decrypt d n k o f t
  | PublicKeyArmor d n o => hide_public_key_armor d n o
  | PublicKeyDearmor s o => hide_public_key_dearmor s o
  | IdentityGenerate r a b s o => hide_identity_generate r a b s o
  | SigningIdentityOpen d n s o => hide_signing_identity_open d n s o
  | SigningIdentityPublic i o => hide_signing_identity_public i o
  | SignMessage i x nx d n o => hide_sign_message i x nx d n o
  | VerifyMessage k nk x nx d n s ns => hide_verify_message k nk x nx d n s ns
  | ChallengeNew r s t v o => hide_challenge_new r s t v o
  | ChallengeAnswer i d n o => hide_challenge_answer i d n o
  | ChallengeAccept p d n s ns k nk t => hide_challenge_accept p d n s ns k nk t
  | IdentityVerify d n r nr o => hide_identity_verify d n r nr o
  | IdentityTrustsDevice d n r nr e ne o => hide_identity_trusts_device d n r nr e ne o
  | IdentityHead d n r nr o => hide_identity_head d n r nr o
  | EpochVerify d n o => hide_epoch_verify d n o
  | EpochPublicKey d n e o => hide_epoch_public_key d n e o
  | VerifyInclusion l nl i s p np r nr => hide_transparency_verify_inclusion l nl i s p np r nr
  | VerifyConsistency a b p np l nl r nr => hide_transparency_verify_consistency a b p np l nl r nr
  | IdentityVerifyPinned d n b nb r nr o => hide_identity_verify_pinned d n b nb r nr o
  | EpochVerifyBound d n b nb r nr e ne x nx o => hide_epoch_verify_bound d n b nb r nr e ne x nx o
  | CheckpointVerify d n o k nk s r => hide_checkpoint_verify d n o k nk s r
  end.
End perform.

(** The codes of a refusal. [HIDE_ERR_PANIC] is not among them. *)
Definition refusal (c : Z) : Prop :=
  c ∈ [HIDE_ERR_INVALID_ARGUMENT; HIDE_ERR_WRONG_PASSPHRASE; HIDE_ERR_NOT_A_KEY;
       HIDE_ERR_AUTHENTICATION; HIDE_ERR_NO_MATCHING_RECIPIENT; HIDE_ERR_MALFORMED;
       HIDE_ERR_TOO_LARGE; HIDE_ERR_CHALLENGE_EXPIRED; HIDE_ERR_CHALLENGE_REPLAYED;
       HIDE_ERR_INTERNAL].

Definition keeps_record (c : Call) : list Out :=
  match c with ChallengeAccept s _ _ _ _ _ _ _ => [(RecordSort, s)] | _ => [] end.

Lemma refusal_object e : refusal (object_error_code e).
Proof. unfold refusal. destruct e; cbn; set_solver. Qed.
Lemma refusal_keyring e : refusal (keyring_error_code e).
Proof. unfold refusal. destruct e; cbn; set_solver. Qed.
Lemma refusal_challenge e : refusal (challenge_error_code e).
Proof. unfold refusal. destruct e; cbn; set_solver. Qed.
Lemma refusal_log e : refusal (log_error_code e).
Proof. unfold refusal. destruct e; cbn; set_solver. Qed.

Section settling.
Context {G : Allocator} {GL : AllocatorLaws G}.

Definition settled (m : Memory) (os kept : list Out) (code : Z) (m' : Memory) : Prop :=
  code = HIDE_OK ∧ writes m os m' ∨ refusal code ∧ (m' = m ∨ writes m kept m').

Abbreviation succeeds m os := (λ (c : Z) (m' : Memory), c = HIDE_OK ∧ writes m os m').
Abbreviation refuses m kept :=
  (λ (c : Z) (m' : Memory), refusal c ∧ (m' = m ∨ writes m kept m')).

Lemma guard_settles m os kept body :
  wp body (succeeds m os) (refuses m kept) m →
  ∃ code m', guard body m = Some (code, m') ∧ settled m os kept code m'.
Proof.
  unfold wp, guard, settled. destruct (body m) as [c m1|c m1| |]; [| |done..].
  - intros [-> W]. exists HIDE_OK, m1. eauto.
  - intros [Hr H]. exists c, m1. eauto.
Qed.

Lemma handle_target m k p : handle_ok m k p → is_null p = false → ∃ b, box_at m p = Some b ∧ kind_of b = k.
Proof. unfold is_null. intros [->|H]; [done|eauto]. Qed.

Lemma out_target m s p : p = Null ∨ target m (s, p) → is_null p = false → target m (s, p).
Proof. unfold is_null. by intros [->|H]. Qed.

Lemma copied_ok n b m : lenN b = n → copied n b m = Done b m.
Proof. intros <-. unfold copied. by rewrite N.eqb_refl. Qed.

Lemma chunks_of_length k n b : (k * n <= length b)%nat → Forall (λ c, length c = n) (chunks_of k n b).
Proof.
  revert b. induction k as [|k IH]; intros b H; cbn; constructor.
  - rewrite length_take. lia.
  - apply IH. rewrite length_drop. lia.
Qed.

Lemma chunks_exact_length n b : n ≠ 0 → Forall (λ c, lenN c = n) (chunks_exact n b).
Proof.
  intros Hn. eapply Forall_impl; [apply chunks_of_length|].
  - pose proof (N.Div0.mul_div_le (lenN b) n). lia.
  - cbn. intros. lia.
Qed.

Lemma copied_hashes_ok b m : copied_hashes b m = Done (chunks_exact 32 b) m.
Proof.
  unfold copied_hashes.
  assert (H : Forall (λ c, lenN c = 32) (chunks_exact 32 b)) by by apply chunks_exact_length.
  induction H as [|c cs Hc _ IH]; [done|].
  change (mapM (copied 32) (c :: cs))
    with (y ← copied 32 c; ys ← mapM (copied 32) cs; mret (y :: ys) : Body (list bytes)).
  unfold mbind, Body_bind in *. rewrite copied_ok by done. by rewrite IH.
Qed.

Lemma wp_c_str p (Q : bytes → Memory → Prop) R m :
  readable_str m p → is_null p = false → (∀ s, Q s m) → wp (c_str p) Q R m.
Proof.
  unfold is_null. intros [->|[s Hs]] Hn HQ; [done|]. unfold wp, c_str. by rewrite Hs.
Qed.

Lemma wp_copied n b (Q : bytes → Memory → Prop) R m : lenN b = n → Q b m → wp (copied n b) Q R m.
Proof. intros. unfold wp. by rewrite copied_ok. Qed.

Lemma wp_copied_hashes b (Q : list bytes → Memory → Prop) R m :
  Q (chunks_exact 32 b) m → wp (copied_hashes b) Q R m.
Proof. intros. unfold wp. by rewrite copied_hashes_ok. Qed.

Lemma both_eq {A B} (a : option A) (b : option B) x y :
  both a b = Some (x, y) → a = Some x ∧ b = Some y.
Proof. destruct a, b; cbn; naive_solver. Qed.

Lemma all3_eq {A B D} (a : option A) (b : option B) (d : option D) x y z :
  all3 a b d = Some (x, y, z) → a = Some x ∧ b = Some y ∧ d = Some z.
Proof. unfold all3. intros [[? ?]%both_eq ?]%both_eq. done. Qed.
End settling.

#[export] Hint Resolve refusal_object refusal_keyring refusal_challenge refusal_log : abi.

(** A refusal before anything was written. *)
Ltac a_refusal := first [by auto with abi | unfold refusal; set_solver].
Ltac refused :=
  match goal with
  | H : ∀ c, refusal c → ?R c ?m |- _ => apply H; a_refusal
  | _ => split; [a_refusal | by left]
  end.

(** One step of an entry point: the rule for its first operation, and what the
    contract says about it. *)
Ltac abi_step :=
  lazymatch goal with
  | |- wp (from_vec _ ≫= _) _ _ _ =>
      apply wp_emit_buffer; [eauto 6 using out_target, wrote_target|intros ? ?]
  | |- wp (into_raw _ ≫= _) _ _ _ =>
      apply wp_emit_handle; [eauto 6 using out_target, wrote_target|intros ? ?]
  | |- wp (write_word _ _ ≫= _) _ _ _ =>
      apply wp_emit_word; [eauto 6 using out_target, wrote_target|intros ? ?]
  | |- wp (write_optional _ _ ≫= _) _ _ _ => fail
  | |- wp (_ ≫= _) _ _ _ => apply wp_bind
  | |- wp (mret HIDE_OK) _ _ _ => apply wp_ret
  | |- wp (mret _) _ _ _ => apply wp_ret
  | |- wp (return_if _ _) _ _ _ => apply wp_return_if; [intros ?; b2p|intros; refused]
  | |- wp (or_return _ _) _ _ _ => apply wp_or_return; [intros ? ?|intros; refused]
  | |- wp (ok_or_return _ _) _ _ _ => apply wp_ok_or_return; [intros ? ?|intros; refused]
  | |- wp (borrow _ _ _) _ _ _ => apply wp_borrow; [assumption|intros ?]
  | |- wp (borrow_str _) _ _ _ => apply wp_borrow_str; [assumption|intros ?]
  | |- wp (required_str _) _ _ _ => unfold required_str
  | |- wp (deref _ _) _ _ _ =>
      match goal with
      | Hp : handle_ok ?m ?k ?p, Hn : is_null ?p = false |- wp (deref _ ?p) _ _ _ =>
          let b := fresh "b" in let Hb := fresh "Hb" in let Hk := fresh "Hk" in
          destruct (handle_target m k p Hp Hn) as (b & Hb & Hk); destruct b; try discriminate Hk;
          eapply wp_deref; [exact Hb|reflexivity|]
      end
  | |- wp (let x := _ in _) _ _ _ => cbv zeta
  | |- wp (c_str _) _ _ _ => apply wp_c_str; [assumption..|intros ?]
  | |- wp (copied _ _) _ _ _ => apply wp_copied; [done|]
  | |- wp (copied_hashes _) _ _ _ => apply wp_copied_hashes
  | |- wp (let '(_, _) := ?p in _) _ _ _ => destruct p
  end.

Section settle.
Context {C : Cbor} {SP : Sign.Primitives} {P : Crypto.Primitives}.
Context {A : Argon2} {U : Unicode} {X : Expand} {B : Base64} {G : Allocator} {GL : AllocatorLaws G}.

(** The seed routine only reads and refuses. *)
Lemma wp_signing_seed_of b pass (Q : bytes → Memory → Prop) (R : Z → Memory → Prop) m :
  (∀ s, Q s m) → (∀ c, refusal c → R c m) → wp (signing_seed_of b pass) Q R m.
Proof.
  intros HQ HR. unfold signing_seed_of. destruct (inspect b); repeat abi_step; auto.
Qed.

Lemma wp_pinned_log l nl b nb r nr (Q : IdentityLog → Memory → Prop) (R : Z → Memory → Prop) m :
  readable m l nl → readable m b nb → readable m r nr → (∀ s, Q s m) → (∀ c, refusal c → R c m) →
  wp (pinned_log l nl b nb r nr) Q R m.
Proof. intros ??? HQ HR. unfold pinned_log. repeat abi_step; auto. Qed.

Lemma wp_write_optional {T} s p v (k : Body T) os Q m m0 :
  writes m0 os m → p = Null ∨ target m (BufferSort, p) →
  (∀ m', writes m0 (os ++ List.filter given [(BufferSort, p)]) m' →
         (∀ o, target m o → target m' o) → wp k Q s m') →
  wp (write_optional p v;; k) Q s m.
Proof.
  intros W Ht H. apply wp_bind. unfold write_optional, given in *. cbn in H.
  destruct (is_null p) eqn:Hp; cbn in H.
  - apply wp_ret, H; [by rewrite app_nil_r|done].
  - apply wp_emit_last; [by apply out_target|]. intros m' Hw. apply H.
    + eapply writes_app; [done|by apply writes_one].
    + intros o. by eapply wrote_target.
Qed.
Lemma decrypt_settles m d n k o f t :
  contract (Decrypt d n k o f t) m →
  ∃ code m', hide_decrypt d n k o f t m = Some (code, m') ∧
    settled m (outs (Decrypt d n k o f t)) [] code m'.
Proof.
  intros [[Hd Hk] Ho]. cbn [outs] in Ho. apply guard_settles.
  assert (Hf : f = Null ∨ target m (BufferSort, f)).
  { unfold given in Ho. cbn in Ho. destruct (is_null f) eqn:E; [|by inversion Ho; subst].
    left. by apply bool_decide_eq_true in E. }
  assert (Ht : t = Null ∨ target m (BufferSort, t)).
  { unfold given in Ho. cbn in Ho. destruct (is_null f), (is_null t) eqn:E; cbn in Ho;
      try (left; by apply bool_decide_eq_true in E); inv Ho; try done; by decompose_Forall_hyps. }
  assert (Hout : o = Null ∨ target m (BufferSort, o)).
  { apply Forall_app in Ho as [_ Ho]. by inversion Ho. }
  unfold hide_decrypt. repeat abi_step.
  eapply wp_write_optional; [constructor|done|]. intros m1 W1 K1. cbn [app] in W1.
  eapply wp_write_optional; [done|by destruct Ht; auto|]. intros m2 W2 K2.
  repeat abi_step. split; [done|].
  eapply writes_app; [|by apply writes_one].
  cbn. unfold given in *. cbn in *. by destruct (is_null f), (is_null t).
Qed.
Lemma accept_settles m p d n s ns k nk t :
  contract (ChallengeAccept p d n s ns k nk t) m →
  ∃ code m', hide_challenge_accept p d n s ns k nk t m = Some (code, m') ∧
    settled m [(RecordSort, p)] [(RecordSort, p)] code m'.
Proof.
  intros [(Hd & Hs & Hk) Ho]. cbn [outs] in Ho. assert (Hp0 : p = Null ∨ target m (RecordSort, p)) by by inversion Ho.
  apply guard_settles.
  repeat abi_step.
  destruct (out_target m RecordSort p Hp0 H) as (l & c & Hp & Hl & Hf). cbn [fst snd] in *.
  destruct c as [| |[]| | |]; try discriminate Hf.
  eapply wp_deref; [by rewrite Hp; cbn; rewrite Hl|reflexivity|].
  destruct (accept _ _ _ _ _) as [r seen].
  apply wp_emit_record; [by eapply out_target|]. intros m' W.
  apply wp_bind, wp_ok_or_return.
  - intros _ _. split; [done|by apply writes_one].
  - intros e _. split; [a_refusal|]. right. by apply writes_one.
Qed.

(** A call within the contract is defined, and it settles. *)
Lemma call_settles c m :
  contract c m →
  ∃ code m', perform c m = Some (code, m') ∧ settled m (outs c) (keeps_record c) code m'.
Proof.
  destruct c; cbn [perform keeps_record];
    try (by apply decrypt_settles); try (by apply accept_settles);
    intros [Hi Ho]; cbn [inputs_ok outs] in *; destruct_and?; decompose_Forall_hyps;
    apply guard_settles; repeat abi_step;
    try (apply wp_signing_seed_of; [intros ?|intros; split; auto]; repeat abi_step);
    try (apply wp_pinned_log; [done..|intros ?|intros; split; auto]; repeat abi_step);
    (split; [done|eauto using writes, writes_one]).
Qed.
End settle.

Lemma refusal_not_panic : ¬ refusal HIDE_ERR_PANIC.
Proof. unfold refusal. intros H. apply list_elem_of_In in H. cbn in H. repeat destruct H as [H|H]; done. Qed.

(** A settled call that failed changed nothing but the verifier's record. *)
Lemma refused_keeps {G : Allocator} c m m' :
  m' = m ∨ writes m (keeps_record c) m' →
  m' = m ∨ ∃ l s, keeps_record c = [(RecordSort, At l 0)] ∧ m' = set_cell l (Owned (NoncesBox s)) m.
Proof.
  intros [->|W]; [by left|]. destruct c; cbn [keeps_record] in *; inversion W as [|? ? ? ? ? W1 W2]; subst; auto.
  inversion W2; subst. inversion W1; subst; eauto.
Qed.

Section contracts.
Context {C : Cbor} {SP : Sign.Primitives} {P : Crypto.Primitives}.
Context {A : Argon2} {U : Unicode} {X : Expand} {B : Base64} {G : Allocator} {GL : AllocatorLaws G}.

(** C12. The contract of every guarded function of the C header. A call whose
    ranges are readable, whose strings are terminated, whose handles are live
    and of their kind, and whose outputs are null or live variables, is defined
    whatever the bytes are: it ends, and no panic is ever caught. It answers
    [HIDE_OK], every output it was given was then written, in order, with a
    fresh block, handle or number; or it answers one of the documented codes of
    a refusal and the memory is as it was, except that accepting a challenge
    may leave the verifier's record of nonces pruned. In either case no cell but the call's own
    outputs changes. *)
Theorem calls_keep_their_contract c m :
  contract c m →
  ∃ code m', perform c m = Some (code, m') ∧
    (code = HIDE_OK ∧ writes m (outs c) m' ∨
     refusal code ∧
       (m' = m ∨ ∃ l s, keeps_record c = [(RecordSort, At l 0)] ∧
          m' = set_cell l (Owned (NoncesBox s)) m)) ∧
    code ≠ HIDE_ERR_PANIC ∧
    (∀ l d, m.(cells) !! l = Some d → At l 0 ∉ (outs c).*2 → m'.(cells) !! l = Some d).
Proof.
  intros Hc. destruct (call_settles c m Hc) as (code & m' & E & S). exists code, m'.
  split; [done|]. destruct S as [[-> W]|[Hr K]]; (split_and!; [|try done|]).
  - by left.
  - intros l d Hl Hn. by eapply writes_elsewhere.
  - right. split; [done|]. by apply refused_keeps.
  - intros ->. by apply refusal_not_panic in Hr.
  - apply refused_keeps in K as [->|(l & s & Ek & ->)]; [done|].
    intros k d Hk Hn. cbn. rewrite lookup_insert_ne; [done|]. intros <-. apply Hn.
    destruct c; try discriminate Ek. injection Ek as ->. cbn. set_solver.
Qed.
End contracts.

(** A raw key inspected, with the answer in the caller's variable. *)
Module Samples.
Definition a_key_file : Memory :=
  {| cells := {[ 1%positive := Foreign (replicate 32 Byte.x07); 2%positive := WordVar 0 ]}; freed := [] |}.

Definition inspecting : Call := InspectKey (At 1 0) 32 (At 2 0).
End Samples.

Section contract_witness.
Import Cbor.Reference Sign.Toy Crypto.Toy Keyring.Toy HexBase64 FirstFit.
Import FfiClient.Samples.

Lemma calls_keep_their_contract_witness :
  contract inspecting a_key_file ∧
  ∃ code m', perform inspecting a_key_file = Some (code, m') ∧ code ≠ HIDE_ERR_PANIC.
Proof.
  assert (H : contract inspecting a_key_file).
  { split; [right; right; by eexists|]. apply Forall_singleton. right. exists 2%positive. by eexists. }
  split; [exact H|].
  destruct (calls_keep_their_contract inspecting a_key_file H) as (code & m' & E & _ & Hp & _).
  exists code, m'. split; [exact E|exact Hp].
Defined.
End contract_witness.
