(* ===== verification/FfiOwner.v ===== *)
(** Who owns what across the C interface. A caller's program is a sequence of
    calls, frees and assignments of its own; one that initialises its outputs
    and gives back what it was handed keeps every block of the library named by
    exactly one of its variables. *)
From stdpp Require Import gmap.
From S2P Require Import Prelude Utf8 Cbor Sign Challenge Crypto Keyring Note Abi Ffi FfiClient.
Local Open Scope N_scope.

(** The block a variable owns. *)
Definition block_of (p : Pointer) : option positive :=
  match p with At l 0 => Some l | _ => None end.

Definition ref_of (c : Cell) : option positive :=
  match c with
  | BufferVar b => block_of b.(data)
  | HandleVar _ p => block_of p
  | _ => None
  end.

Definition library (c : Cell) : Prop :=
  match c with Vector _ _ | Owned _ => True | _ => False end.

(** A variable is as the library left it: empty, the dangling buffer of an empty
    vector, or the name of a live block of the right sort and size. *)
Definition backed (m : Cells) (c : Cell) : Prop :=
  match c with
  | BufferVar b =>
      match b.(data) with
      | Null => b = hide_buffer_empty
      | Dangling => b.(len) = 0 ∧ b.(capacity) = 0
      | At l o => o = 0 ∧ ∃ s, m !! l = Some (Vector s b.(capacity)) ∧ b.(len) = lenN s
      end
  | HandleVar k p =>
      match p with
      | Null => True
      | Dangling => False
      | At l o => o = 0 ∧ ∃ b, m !! l = Some (Owned b) ∧ kind_of b = k
      end
  | _ => True
  end.

Definition refers (m : Cells) (v l : positive) : Prop := m !! v ≫= ref_of = Some l.

Record balanced (m : Cells) : Prop := {
  bal_backed v c : m !! v = Some c → backed m c;
  bal_once v v' l : refers m v l → refers m v' l → v = v';
  bal_named l c : m !! l = Some c → library c → ∃ v, refers m v l;
}.

(** A variable whose content the caller may overwrite without losing a block. *)
Definition vacant (c : Cell) : Prop :=
  match c with
  | BufferVar b => b.(data) = Dangling ∧ b.(len) = 0 ∧ b.(capacity) = 0 ∨ b = hide_buffer_empty
  | HandleVar _ p => p = Null
  | WordVar _ => True
  | _ => False
  end.

Definition callers_own (c : Cell) : Prop :=
  match c with Foreign _ => True | _ => vacant c end.

(** Vectors and keys go back as zeros; a record of nonces, which holds nothing
    secret, as it is. *)
Definition wiped (f : Freed) : Prop :=
  match f with
  | FreedVector b | FreedBox SecretKind b | FreedBox IdentityKind b => Forall (λ x, x = Byte.x00) b
  | FreedBox NoncesKind _ => True
  end.

Lemma vacant_ref c : vacant c → ref_of c = None.
Proof. destruct c as [| | |b|k p|]; cbn; try done; [intros [[-> _]| ->]| intros ->]; done. Qed.

Lemma callers_own_ref c : callers_own c → ref_of c = None.
Proof. intros H. destruct c; try done; by apply vacant_ref. Qed.

Lemma callers_own_not_library c : callers_own c → ¬ library c.
Proof. destruct c; cbn; tauto. Qed.

Lemma callers_own_backed m c : callers_own c → backed m c.
Proof.
  destruct c as [| | |b|k p|]; cbn; try done; [|by intros ->].
  by intros [(-> & ? & ?)| ->].
Qed.

(** What backs a variable is only the block it refers to. *)
Lemma backed_agree m m' c :
  backed m c → (∀ l d, ref_of c = Some l → m !! l = Some d → m' !! l = Some d) → backed m' c.
Proof.
  intros H K. destruct c as [| | |b|k p|]; cbn in *; try done.
  - destruct (data b) as [| |l o]; cbn in *; try done. destruct H as (-> & s & Hl & Hs); cbn in *. eauto.
  - destruct p as [| |l o]; cbn in *; try done. destruct H as (-> & d & Hl & Hk); cbn in *. eauto.
Qed.

Lemma backed_library m c l : backed m c → ref_of c = Some l → ∃ d, m !! l = Some d ∧ library d.
Proof.
  intros H R. destruct c as [| | |b|k p|]; cbn in *; try done.
  - destruct (data b) as [| |l' o]; cbn in *; try done. destruct H as (-> & s & Hl & Hs); cbn in *.
    injection R as ->. eexists. split; [exact Hl|done].
  - destruct p as [| |l' o]; cbn in *; try done. destruct H as (-> & d & Hl & Hk); cbn in *.
    injection R as ->. eexists. split; [exact Hl|done].
Qed.

Lemma refers_live m v l : balanced m → refers m v l → ∃ d, m !! l = Some d ∧ library d.
Proof.
  unfold refers. intros HB H. destruct (m !! v) as [c|] eqn:E; [|done]. cbn in H.
  eapply backed_library; [by eapply bal_backed|done].
Qed.

Lemma refers_insert_ne m v c w l : w ≠ v → refers (<[v := c]> m) w l ↔ refers m w l.
Proof. intros. unfold refers. by rewrite lookup_insert_ne. Qed.

Lemma refers_insert_eq m v c l : refers (<[v := c]> m) v l ↔ ref_of c = Some l.
Proof. unfold refers. by rewrite lookup_insert_eq. Qed.

(** ** What keeps the balance *)
Section balance.
Implicit Types (m : Cells).

(** Nothing refers to a cell that is not the library's. *)
Lemma unreferred m l w : balanced m → (∀ c, m !! l = Some c → ¬ library c) → ¬ refers m w l.
Proof. intros HB H R. destruct (refers_live m w l HB R) as (d & Hd & Ld). by eapply H. Qed.

(** A cell stays backed where its block does. *)
Lemma backed_keeps m m' v c :
  balanced m → m !! v = Some c →
  (∀ l d, refers m v l → m !! l = Some d → m' !! l = Some d) → backed m' c.
Proof.
  intros HB E K. eapply backed_agree; [by eapply bal_backed|]. intros l d R. apply K.
  unfold refers. by rewrite E.
Qed.

Lemma assign_balanced m v c c' :
  balanced m → m !! v = Some c → callers_own c → callers_own c' → balanced (<[v := c']> m).
Proof.
  intros HB E Hc Hc'.
  assert (NV : ∀ w, ¬ refers m w v).
  { intros w. apply unreferred; [done|]. intros d Ed. rewrite E in Ed. injection Ed as <-.
    by apply callers_own_not_library. }
  assert (RV : ∀ w l, refers (<[v := c']> m) w l → w ≠ v ∧ refers m w l).
  { intros w l R. destruct (decide (w = v)) as [->|].
    - apply refers_insert_eq in R. by rewrite callers_own_ref in R.
    - by apply refers_insert_ne in R. }
  split.
  - intros w d Hw. destruct (decide (w = v)) as [->|].
    + rewrite lookup_insert_eq in Hw. injection Hw as <-. by apply callers_own_backed.
    + rewrite lookup_insert_ne in Hw by done. eapply backed_keeps; [done..|].
      intros l e R He. rewrite lookup_insert_ne; [done|]. intros <-. by eapply NV.
  - intros w w' l [? R]%RV [? R']%RV. by eapply bal_once.
  - intros l d Hl Hd. destruct (decide (l = v)) as [->|].
    + rewrite lookup_insert_eq in Hl. injection Hl as <-. by apply callers_own_not_library in Hc'.
    + rewrite lookup_insert_ne in Hl by done. destruct (bal_named m HB l d Hl Hd) as [w R].
      exists w. apply refers_insert_ne; [|done]. intros ->. unfold refers in R. rewrite E in R.
      cbn in R. by rewrite callers_own_ref in R.
Qed.

Lemma record_balanced m v b b' :
  balanced m → m !! v = Some (Owned b) → kind_of b' = kind_of b → balanced (<[v := Owned b']> m).
Proof.
  intros HB E Hk.
  assert (RV : ∀ w l, refers (<[v := Owned b']> m) w l ↔ refers m w l).
  { intros w l. destruct (decide (w = v)) as [->|]; [|by apply refers_insert_ne].
    rewrite refers_insert_eq. unfold refers. by rewrite E. }
  split.
  - intros w d Hw. destruct (decide (w = v)) as [->|].
    + rewrite lookup_insert_eq in Hw. by injection Hw as <-.
    + rewrite lookup_insert_ne in Hw by done. pose proof (bal_backed m HB w d Hw) as Bd.
      destruct d as [| | |x|k p|]; cbn in *; try done.
      * destruct (data x) as [| |l o]; try done. destruct Bd as (-> & s & Hl & Hs). split; [done|].
        exists s. split; [|done]. rewrite lookup_insert_ne; [done|]. congruence.
      * destruct p as [| |l o]; try done. destruct Bd as (-> & d & Hl & Hd). split; [done|].
        destruct (decide (l = v)) as [->|].
        -- exists b'. rewrite lookup_insert_eq. split; [done|]. congruence.
        -- exists d. by rewrite lookup_insert_ne.
  - intros w w' l R R'. eapply bal_once; [done|by apply RV..].
  - intros l d Hl Hd. destruct (decide (l = v)) as [->|].
    + destruct (bal_named m HB v _ E) as [w R]; [done|]. exists w. by apply RV.
    + rewrite lookup_insert_ne in Hl by done.
      destruct (bal_named m HB l d Hl Hd) as [w R]. exists w. by apply RV.
Qed.

(** A fresh block handed to a vacant variable. *)
Lemma own_balanced m v c l d c' :
  balanced m → m !! v = Some c → vacant c → m !! l = None → library d →
  ref_of c' = Some l → ¬ library c' → backed (<[l := d]> m) c' → balanced (<[v := c']> (<[l := d]> m)).
Proof.
  intros HB E Hc Hl Hd R' NL Bc.
  assert (Hvl : v ≠ l) by congruence.
  assert (FR : ∀ w, ¬ refers m w l) by (intros w; apply unreferred; [done|congruence]).
  assert (RV : ∀ w k, refers (<[v := c']> (<[l := d]> m)) w k →
    w = v ∧ k = l ∨ w ≠ v ∧ refers m w k).
  { intros w k R. destruct (decide (w = v)) as [->|].
    - apply refers_insert_eq in R. left. split; [done|congruence].
    - apply refers_insert_ne in R; [|done]. right. split; [done|].
      destruct (decide (w = l)) as [->|]; [|by apply refers_insert_ne in R].
      apply refers_insert_eq in R. by destruct d. }
  split.
  - intros w e Hw. destruct (decide (w = v)) as [->|].
    + rewrite lookup_insert_eq in Hw. injection Hw as <-. eapply backed_agree; [done|].
      intros k x Hk Hx. rewrite R' in Hk. injection Hk as <-. by rewrite lookup_insert_ne.
    + rewrite lookup_insert_ne in Hw by done. destruct (decide (w = l)) as [->|].
      * rewrite lookup_insert_eq in Hw. injection Hw as <-. by destruct d.
      * rewrite lookup_insert_ne in Hw by done. eapply backed_keeps; [done..|].
        intros k x R Hk. destruct (decide (k = v)) as [->|].
        -- exfalso. destruct (refers_live m w v HB R) as (y & Hy & Ly).
           rewrite E in Hy. injection Hy as <-. by destruct c.
        -- rewrite !lookup_insert_ne; congruence.
  - intros w w' k [[-> ->]|[? R]]%RV [[-> Hk]|[? R2]]%RV; try done.
    + by apply FR in R2.
    + subst k. by apply FR in R.
    + by eapply bal_once.
  - intros k x Hk Lx. destruct (decide (k = l)) as [->|].
    + exists v. by apply refers_insert_eq.
    + destruct (decide (k = v)) as [->|].
      * rewrite lookup_insert_eq in Hk. injection Hk as <-. contradiction.
      * rewrite !lookup_insert_ne in Hk by done. destruct (bal_named m HB k x Hk Lx) as [w R].
        exists w. apply refers_insert_ne.
        { intros ->. unfold refers in R. rewrite E in R. cbn in R. by rewrite vacant_ref in R. }
        apply refers_insert_ne; [|done]. intros ->. unfold refers in R. by rewrite Hl in R.
Qed.

(** A block given back, and its variable emptied. *)
Lemma free_balanced m v l c' :
  balanced m → refers m v l → vacant c' → balanced (<[v := c']> (delete l m)).
Proof.
  intros HB R Hc'.
  destruct (refers_live m v l HB R) as (d & Hd & Ld).
  assert (Hvl : v ≠ l). { intros ->. unfold refers in R. rewrite Hd in R. by destruct d. }
  assert (RV : ∀ w k, refers (<[v := c']> (delete l m)) w k → w ≠ v ∧ refers m w k ∧ k ≠ l).
  { intros w k R2. destruct (decide (w = v)) as [->|].
    - apply refers_insert_eq in R2. by rewrite vacant_ref in R2.
    - apply refers_insert_ne in R2; [|done].
      assert (R3 : refers m w k).
      { unfold refers in *. destruct (decide (w = l)) as [->|]; [by rewrite lookup_delete_eq in R2|].
        by rewrite lookup_delete_ne in R2. }
      repeat split; try done. intros ->. by eapply bal_once in R; [|done..]. }
  split.
  - intros w e Hw. destruct (decide (w = v)) as [->|].
    + rewrite lookup_insert_eq in Hw. injection Hw as <-. apply callers_own_backed.
      by destruct c'.
    + rewrite lookup_insert_ne in Hw by done. apply lookup_delete_Some in Hw as [Hlw Hw].
      eapply backed_keeps; [done..|]. intros k x R2 Hk.
      destruct (decide (k = l)) as [->|]; [by eapply bal_once in R; [|done..]|].
      destruct (decide (k = v)) as [->|].
      * exfalso. destruct (refers_live m w v HB R2) as (y & Hy & Ly).
        unfold refers in R. rewrite Hy in R. by destruct y.
      * by rewrite lookup_insert_ne, lookup_delete_ne.
  - intros w w' k (? & R2 & _)%RV (? & R3 & _)%RV. by eapply bal_once.
  - intros k x Hk Lx. destruct (decide (k = v)) as [->|].
    + rewrite lookup_insert_eq in Hk. injection Hk as <-. by destruct c'.
    + rewrite lookup_insert_ne in Hk by done. apply lookup_delete_Some in Hk as [Hlk Hk].
      destruct (bal_named m HB k x Hk Lx) as [w R2]. exists w.
      assert (w ≠ v). { intros ->. unfold refers in R, R2. congruence. }
      apply refers_insert_ne; [done|]. unfold refers. rewrite lookup_delete_ne; [done|].
      intros <-. unfold refers in R2. rewrite Hd in R2. by destruct d.
Qed.

Lemma declare_balanced m l c :
  balanced m → m !! l = None → callers_own c → balanced (<[l := c]> m).
Proof.
  intros HB E Hc.
  assert (FR : ∀ w, ¬ refers m w l) by (intros w; apply unreferred; [done|congruence]).
  assert (RV : ∀ w k, refers (<[l := c]> m) w k → w ≠ l ∧ refers m w k).
  { intros w k R. destruct (decide (w = l)) as [->|].
    - apply refers_insert_eq in R. by rewrite callers_own_ref in R.
    - by apply refers_insert_ne in R. }
  split.
  - intros w d Hw. destruct (decide (w = l)) as [->|].
    + rewrite lookup_insert_eq in Hw. injection Hw as <-. by apply callers_own_backed.
    + rewrite lookup_insert_ne in Hw by done. eapply backed_keeps; [done..|].
      intros k x R Hk. rewrite lookup_insert_ne; congruence.
  - intros w w' k [_ R]%RV [_ R']%RV. by eapply bal_once.
  - intros k x Hk Lx. destruct (decide (k = l)) as [->|].
    + rewrite lookup_insert_eq in Hk. injection Hk as <-. by apply callers_own_not_library in Hc.
    + rewrite lookup_insert_ne in Hk by done. destruct (bal_named m HB k x Hk Lx) as [w R].
      exists w. apply refers_insert_ne; [|done]. intros ->. unfold refers in R. by rewrite E in R.
Qed.

Lemma forget_balanced m l c :
  balanced m → m !! l = Some c → callers_own c → balanced (delete l m).
Proof.
  intros HB E Hc.
  assert (NV : ∀ w, ¬ refers m w l).
  { intros w. apply unreferred; [done|]. intros d Ed. rewrite E in Ed. injection Ed as <-.
    by apply callers_own_not_library. }
  assert (RV : ∀ w k, refers (delete l m) w k ↔ w ≠ l ∧ refers m w k).
  { intros w k. unfold refers. destruct (decide (w = l)) as [->|].
    - rewrite lookup_delete_eq. naive_solver.
    - rewrite lookup_delete_ne by done. naive_solver. }
  split.
  - intros w d [Hw Hd]%lookup_delete_Some. eapply backed_keeps; [done..|].
    intros k x R Hk. rewrite lookup_delete_ne; [done|]. intros <-. by eapply NV.
  - intros w w' k [_ R]%RV [_ R']%RV. by eapply bal_once.
  - intros k x [Hk Hx]%lookup_delete_Some Lx. destruct (bal_named m HB k x Hx Lx) as [w R].
    exists w. apply RV. split; [|done]. intros ->. unfold refers in R. rewrite E in R.
    cbn in R. by rewrite callers_own_ref in R.
Qed.
End balance.

(** ** Calls *)
Definition fresh_output (m : Memory) (o : Out) : Prop :=
  o.1 = RecordSort ∨ ∀ l, o.2 = At l 0 → ∃ c, m.(cells) !! l = Some c ∧ vacant c.

Section outputs.
Context {G : Allocator} {GL : AllocatorLaws G}.

Lemma wrote_balanced m o m' :
  wrote m o m' → fresh_output m o → balanced m.(cells) →
  balanced m'.(cells) ∧ m'.(freed) = m.(freed).
Proof.
  intros W F HB.
  destruct W as [l b v m1 T E|l b h m1 T E|l n T|l s T];
    destruct T as (l' & c & [= <-] & Hl & Hf); cbn [fst] in Hf.
  4: { destruct c as [| |b| | |]; try discriminate Hf. split; [|done].
       eapply record_balanced; [done..|]. cbn in *. by apply bool_decide_eq_true in Hf. }
  all: destruct F as [F|F]; [done|]; destruct (F l eq_refl) as (c' & Hc' & Vc);
    rewrite Hl in Hc'; injection Hc' as <-.
  - unfold from_vec in E. pose proof (room_enough b) as Hroom.
    destruct (N.eqb_spec (room_for b) 0) as [Hz|Hz].
    + injection E as <- <-. split; [|done]. eapply assign_balanced; [done|done|by destruct c|].
      cbn. left. repeat split. lia.
    + unfold mbind, Body_bind, allocate in E. injection E as <- <-. split; [|done].
      eapply own_balanced; try done; [apply place_fresh|tauto|]. cbn. split; [done|].
      eexists. by rewrite lookup_insert_eq.
  - unfold into_raw, allocate in E. injection E as <- <-. split; [|done].
    eapply own_balanced; try done; [apply place_fresh|tauto|]. cbn. split; [done|].
    eexists. by rewrite lookup_insert_eq.
  - split; [|done]. eapply assign_balanced; [done|done|by destruct c|done].
Qed.

Lemma wrote_fresh_output m o m' o' :
  wrote m o m' → o.2 ≠ o'.2 → fresh_output m o' → fresh_output m' o'.
Proof.
  intros W Hne [F|F]; [by left|right]. intros l Hl. destruct (F l Hl) as (c & Hc & Vc).
  exists c. split; [|done]. eapply wrote_elsewhere; [done|congruence|done].
Qed.

Lemma writes_balanced m os m' :
  writes m os m' → NoDup os.*2 → Forall (fresh_output m) os → balanced m.(cells) →
  balanced m'.(cells) ∧ m'.(freed) = m.(freed).
Proof.
  induction 1 as [|m o m1 os m2 W _ IH]; [done|]. cbn. intros [Hn ND]%NoDup_cons F HB.
  apply Forall_cons in F as [F1 F2].
  destruct (wrote_balanced _ _ _ W F1 HB) as [HB1 Hf1].
  destruct IH as [HB2 Hf2]; [done| |done|split; [done|congruence]].
  rewrite Forall_forall in *. intros o' Ho'. eapply wrote_fresh_output; [done| |by apply F2].
  intros E. apply Hn. rewrite E. by apply list_elem_of_fmap_2.
Qed.
End outputs.

(** ** Frees *)
Definition handle_free (k : Kind) : Pointer → Body unit :=
  match k with
  | SecretKind => hide_secret_key_free
  | IdentityKind => hide_signing_identity_free
  | NoncesKind => hide_spent_nonces_free
  end.

Lemma handle_free_is_drop k p : is_null p = false → handle_free k p = drop_box k p.
Proof.
  intros Hp. destruct k; cbn;
    unfold hide_secret_key_free, hide_signing_identity_free, hide_spent_nonces_free; by rewrite Hp.
Qed.

Lemma residue_wiped b : wiped (FreedBox (kind_of b) (residue b)).
Proof. by destruct b; [apply Forall_replicate..|]. Qed.

(** Freeing a buffer variable: defined, it empties the variable, and nothing of
    what the block held is left. *)
Lemma buffer_free_balanced m v b :
  balanced m.(cells) → m.(cells) !! v = Some (BufferVar b) →
  ∃ m', hide_buffer_free (At v 0) m = Done tt m' ∧ balanced m'.(cells) ∧
    (m'.(cells) !! v = Some (BufferVar hide_buffer_empty)) ∧
    ∃ gone, m'.(freed) = m.(freed) ++ gone ∧ Forall wiped gone.
Proof.
  intros HB E. pose proof (bal_backed _ HB _ _ E) as Bb. cbn in Bb.
  unfold hide_buffer_free, read_buffer, mbind, Body_bind. rewrite is_null_At, E.
  destruct b as [p n cap]; cbn in *. destruct p as [| |l o]; cbn; rewrite ?is_null_At.
  - rewrite Bb in E. exists m. split_and!; try done. exists []. by rewrite app_nil_r.
  - destruct Bb as [-> ->]. change (is_null Dangling) with false. cbn. rewrite E. cbn. eexists. split; [done|]. cbn.
    rewrite lookup_insert_eq. split_and!; [|done|by exists []; rewrite app_nil_r].
    eapply (assign_balanced _ _ _ _ HB E); cbn; tauto.
  - destruct Bb as (-> & s & Hl & Hn); cbn in *. rewrite Hl, N.eqb_refl. subst n. rewrite N.leb_refl. cbn.
    assert (Hvl : l ≠ v) by congruence.
    rewrite lookup_delete_ne, E by done. cbn. eexists. split; [done|]. cbn.
    rewrite lookup_insert_eq. split_and!.
    + eapply free_balanced; [done| |by right]. unfold refers. by rewrite E.
    + done.
    + eexists. split; [done|]. apply Forall_singleton. unfold zero_first.
      rewrite drop_ge, app_nil_r by lia. by apply Forall_replicate.
Qed.

Lemma handle_free_balanced m v k p :
  balanced m.(cells) → m.(cells) !! v = Some (HandleVar k p) →
  ∃ m1, handle_free k p m = Done tt m1 ∧
    balanced (set_cell v (HandleVar k Null) m1).(cells) ∧
    ∃ gone, m1.(freed) = m.(freed) ++ gone ∧ Forall wiped gone.
Proof.
  intros HB E. pose proof (bal_backed _ HB _ _ E) as Bp. cbn in Bp.
  destruct p as [| |l o]; [|done|].
  - exists m. split_and!; [by destruct k| |by exists []; rewrite app_nil_r].
    by eapply (assign_balanced _ _ _ _ HB E).
  - destruct Bp as (-> & b & Hl & Hk). rewrite handle_free_is_drop by done. cbn. rewrite Hl, Hk.
    rewrite bool_decide_eq_true_2 by done. eexists. split; [done|]. subst k. cbn. split.
    + eapply free_balanced; [done| |done]. unfold refers. by rewrite E.
    + eexists. split; [done|]. apply Forall_singleton, residue_wiped.
Qed.

(** ** A caller's program *)
Section program.
Context {C : Cbor} {SP : Sign.Primitives} {P : Crypto.Primitives}.
Context {A : Argon2} {U : Unicode} {X : Expand} {B : Base64} {G : Allocator}.

(** What a careful caller does next. Before a call its outputs are distinct
    variables, initialised or emptied; a buffer is freed through its variable; a
    handle is freed by its value, and the variable forgets it. *)
Inductive step (m : Memory) : Memory → Prop :=
| step_call c code m' :
    contract c m → NoDup (outs c).*2 → Forall (fresh_output m) (outs c) →
    perform c m = Some (code, m') → step m m'
| step_new_nonces v h m1 :
    m.(cells) !! v = Some (HandleVar NoncesKind Null) → hide_spent_nonces_new m = Done h m1 →
    step m (set_cell v (HandleVar NoncesKind h) m1)
| step_free_buffer v b m' :
    m.(cells) !! v = Some (BufferVar b) → hide_buffer_free (At v 0) m = Done tt m' → step m m'
| step_free_handle v k p m1 :
    m.(cells) !! v = Some (HandleVar k p) → handle_free k p m = Done tt m1 →
    step m (set_cell v (HandleVar k Null) m1)
| step_declare v c : m.(cells) !! v = None → callers_own c → step m (set_cell v c m)
| step_assign v c c' :
    m.(cells) !! v = Some c → callers_own c → callers_own c' → step m (set_cell v c' m)
| step_forget v c :
    m.(cells) !! v = Some c → callers_own c →
    step m {| cells := delete v m.(cells); freed := m.(freed) |}.

Definition start : Memory := {| cells := ∅; freed := [] |}.

Inductive reachable : Memory → Prop :=
| reachable_start : reachable start
| reachable_step m m' : reachable m → step m m' → reachable m'.

Context {GL : AllocatorLaws G}.

(** The invariant of such a program. *)
Record tidy (m : Memory) : Prop := {
  tidy_balanced : balanced m.(cells);
  tidy_wiped : Forall wiped m.(freed);
}.

Lemma fresh_elsewhere c m code m' :
  contract c m → NoDup (outs c).*2 → Forall (fresh_output m) (outs c) → balanced m.(cells) →
  perform c m = Some (code, m') → balanced m'.(cells) ∧ m'.(freed) = m.(freed).
Proof.
  intros Hc ND F HB E. destruct (call_settles c m Hc) as (code' & m2 & E' & S).
  rewrite E in E'. injection E' as <- <-.
  destruct S as [[_ W]|[_ [->|W]]]; [by eapply writes_balanced|done|].
  destruct c; cbn [keeps_record outs] in *; try (by inversion W; subst).
  by eapply writes_balanced.
Qed.

Lemma step_tidy m m' : tidy m → step m m' → tidy m'.
Proof.
  intros [HB HW] S.
  destruct S as [c code m' Hc ND F E|v h m1 Hv E|v b m' Hv E|v k p m1 Hv E|v c Hv Hc|v c c' Hv Hc Hc'|v c Hv Hc].
  - destruct (fresh_elsewhere c m code m') as [HB' Hf]; [done..|]. split; [done|by rewrite Hf].
  - destruct (wrote_balanced m (HandleSort NoncesKind, At v 0) (set_cell v (HandleVar NoncesKind h) m1))
      as [HB' Hf]; [|by right; intros l [= <-]; eexists|done|split; [done|by rewrite Hf]].
    eapply (wrote_handle m v (NoncesBox no_nonces)); [|exact E]. exists v, (HandleVar NoncesKind Null).
    split_and!; [done..|]. by apply bool_decide_eq_true.
  - destruct (buffer_free_balanced m v b HB Hv) as (m2 & E' & HB' & _ & gone & Hf & Hg).
    rewrite E in E'. injection E' as <-. split; [done|]. rewrite Hf. by apply Forall_app.
  - destruct (handle_free_balanced m v k p HB Hv) as (m2 & E' & HB' & gone & Hf & Hg).
    rewrite E in E'. injection E' as <-. split; [done|]. cbn. rewrite Hf. by apply Forall_app.
  - split; [by apply declare_balanced|done].
  - split; [by eapply assign_balanced|done].
  - split; [by eapply forget_balanced|done].
Qed.

Lemma start_tidy : tidy start.
Proof.
  split; [|constructor]. split; unfold refers; cbn; intros *; rewrite ?lookup_empty; try done.
Qed.

Lemma reachable_tidy m : reachable m → tidy m.
Proof. induction 1; [apply start_tidy|by eapply step_tidy]. Qed.

(** C6. The life of what the C library hands out. Take any program of a caller
    that passes valid arguments, starts its outputs from an empty buffer or a
    null handle, frees a buffer through its variable and forgets a handle it
    freed. At every point of it: each block and each handle of the library is
    named by exactly one of the caller's variables; freeing any of those
    variables is defined, so nothing is ever freed twice; every buffer and key
    that went back to the allocator held nothing but zeros; and once the variables are
    all empty, nothing of the library's is left allocated. *)
Theorem every_block_has_one_owner m :
  reachable m →
  (∀ l c, m.(cells) !! l = Some c → library c →
     ∃ v, refers m.(cells) v l ∧ ∀ v', refers m.(cells) v' l → v' = v) ∧
  (∀ v b, m.(cells) !! v = Some (BufferVar b) → ∃ m', hide_buffer_free (At v 0) m = Done tt m') ∧
  (∀ v k p, m.(cells) !! v = Some (HandleVar k p) → ∃ m', handle_free k p m = Done tt m') ∧
  Forall wiped m.(freed) ∧
  ((∀ v, m.(cells) !! v ≫= ref_of = None) → ∀ l c, m.(cells) !! l = Some c → ¬ library c).
Proof.
  intros [HB HW]%reachable_tidy. split_and!; [| | |done|].
  - intros l c Hl Lc. destruct (bal_named _ HB l c Hl Lc) as [v R]. exists v. split; [done|].
    intros v' R'. by eapply bal_once.
  - intros v b Hv. destruct (buffer_free_balanced m v b HB Hv) as (m' & E & _). eauto.
  - intros v k p Hv. destruct (handle_free_balanced m v k p HB Hv) as (m' & E & _). eauto.
  - intros Hn l c Hl Lc. destruct (bal_named _ HB l c Hl Lc) as [v R]. unfold refers in R.
    by rewrite Hn in R.
Qed.
End program.

(** A caller that asks for a challenge and frees it. *)
Module Samples.
Import Cbor.Reference Sign.Toy Crypto.Toy Keyring.Toy HexBase64 FirstFit.

Definition declared : Memory :=
  set_cell 2 (BufferVar hide_buffer_empty) (set_cell 1 (Foreign (text "door" ++ [Byte.x00])) start).

Definition asking : Call := ChallengeNew (Some (replicate 32 Byte.x05)) (At 1 0) 10 20 (At 2 0).

Definition asked : Memory :=
  match perform asking declared with Some (_, m) => m | None => start end.

Definition given_back : Memory :=
  match hide_buffer_free (At 2 0) asked with Done _ m => m | _ => start end.

Definition is_vector (c : Cell) : bool := match c with Vector (_ :: _) _ => true | _ => false end.

(** The call hands out a block; the free leaves none, and zeros behind it. *)
Definition lived : bool :=
  match perform asking declared with Some (code, _) => Z.eqb code HIDE_OK | None => false end
  && existsb (λ p, is_vector p.2) (map_to_list asked.(cells))
  && match hide_buffer_free (At 2 0) asked with Done _ _ => true | _ => false end
  && match asked.(cells) !! 2%positive with Some c => is_buffer_var c | None => false end
  && negb (existsb (λ p, is_vector p.2) (map_to_list given_back.(cells)))
  && match given_back.(freed) with [FreedVector (_ :: _)] => true | _ => false end.

Lemma it_lived : lived = true.
Proof. vm_compute. reflexivity. Qed.

Lemma asking_runs : ∃ code, perform asking declared = Some (code, asked).
Proof.
  pose proof it_lived as H. unfold lived, asked in *.
  destruct (perform asking declared) as [[code m]|]; [eauto|done].
Qed.
End Samples.

Section owner_witness.
Import Cbor.Reference Sign.Toy Crypto.Toy Keyring.Toy HexBase64 FirstFit.
Import FfiOwner.Samples.

Lemma reach_declared : reachable declared.
Proof.
  eapply reachable_step; [eapply reachable_step; [apply reachable_start|]|]; apply step_declare;
    first [done|by right].
Qed.

Lemma reach_asked : reachable asked.
Proof.
  eapply reachable_step; [apply reach_declared|].
  destruct asking_runs as [code E].
  eapply step_call; [| | |exact E].
  - split; [right; by eexists|]. apply Forall_singleton. right. exists 2%positive. by eexists.
  - apply NoDup_singleton.
  - apply Forall_singleton. right. intros l [= <-]. eexists. split; [done|by right].
Qed.

Lemma reach_given_back : reachable given_back.
Proof.
  eapply reachable_step; [apply reach_asked|]. pose proof it_lived as H. unfold lived in H. b2p.
  unfold given_back. destruct (asked.(cells) !! 2%positive) as [[]|] eqn:E; try done.
  destruct (hide_buffer_free (At 2 0) asked) as [[] m| | |] eqn:F; try done.
  by eapply step_free_buffer.
Qed.

Lemma every_block_has_one_owner_witness :
  lived = true ∧
  (∀ l c, asked.(cells) !! l = Some c → library c → ∃ v, refers asked.(cells) v l) ∧
  Forall wiped given_back.(freed).
Proof.
  split; [exact it_lived|]. split.
  - intros l c Hl Hc. destruct (every_block_has_one_owner asked reach_asked) as [H _].
    destruct (H l c Hl Hc) as (v & R & _). exists v. exact R.
  - destruct (every_block_has_one_owner given_back reach_given_back) as (_ & _ & _ & H & _). exact H.
Defined.
End owner_witness.
