(* ===== verification/Wasm.v ===== *)
(** [hide-wasm/src/lib.rs]: the bindings for JavaScript. Each is a function of
    its arguments to a value or a thrown error; a thrown error is the text it
    says itself, or the crate's error it prints, apart from those it marks as
    malformed input. *)
From stdpp Require Import gmap.
From S2P Require Import Prelude Utf8 Cbor Sign Challenge Merkle Note Crypto Epoch Identity.
From S2P Require Import Bindings Stream Codec Records Object Keyring Armor Ffi.
Local Open Scope N_scope.

#[local] Existing Instance Hybrid.scheme.

Definition PUBLIC_KEY_LEN : N := 1216.
Definition SIGNATURE_LEN : N := SIGNATURE_LENGTH.
Definition VERIFYING_KEY_LEN : N := VERIFYING_KEY_LENGTH.
Definition MAX_INPUT : N := 67108864.
Definition MAX_CHALLENGE : N := 4096.
Definition MAX_LOG_BYTES : N := 16777216.

(** A [usize] of wasm32. *)
Definition usize_max : N := u32_max.

Inductive JsError :=
| Says (message : bytes)
| Keys (e : KeyringError)
| Containers (e : ObjectError)
| Cryptography (e : CryptoError)
| Signatures (e : SignError)
| Identities (e : IdentityError)
| Epochs (e : EpochError)
| Proofs (e : LogError)
| MalformedIdentity (e : IdentityError)
| MalformedEpochs (e : EpochError).

(** What [SpentNonces::accept] says of a refusal *)
Definition refused_answer (e : ChallengeError) : JsError :=
  Says match e with
       | NotSigned => text "signature verification failed"
       | Expired => text "expired"
       | Replayed => text "replayed"
       end.

Section wasm.
Context {C : Cbor} {SP : Sign.Primitives} {P : Crypto.Primitives}.
Context {A : Argon2} {U : Unicode} {X : Expand} {B : Base64}.

(** ** Keys: [SecretKey] *)
Definition secret_generate (random : option bytes) : result JsError RecipientSecret :=
  map_err Cryptography (generate_secret random).

Definition secret_load (data : bytes) (passphrase : option bytes) : result JsError RecipientSecret :=
  refuse_if (4096 <? lenN data) (Says (text "that file is too large to be a HIDE key"));;
  map_err Keys (open_key data passphrase).

Definition secret_public_key (s : RecipientSecret) : result JsError bytes :=
  k ← map_err Cryptography (Crypto.public_key s); Ok (public_to_bytes k).

Definition secret_protect (s : RecipientSecret) (passphrase : bytes) (salt nonce : option bytes)
  : result JsError bytes :=
  map_err Keys (protect s passphrase salt nonce).

(** ** Containers *)
Record Decrypted := {
  decrypted_data : bytes;
  decrypted_filename : option bytes;
  decrypted_media_type : option bytes;
}.

Definition parse_recipients (recipients : bytes) : result JsError (list RecipientPublic) :=
  refuse_if (bool_decide (recipients = []) || negb (lenN recipients mod PUBLIC_KEY_LEN =? 0))
    (Says (text "recipients must be whole public keys"));;
  refuse_if (64 <? lenN recipients / PUBLIC_KEY_LEN)
    (Says (text "there must be between 1 and 64 recipients"));;
  map_err Cryptography (collect public_from_bytes (chunks_exact PUBLIC_KEY_LEN recipients)).

Definition encrypt (draw : nat → option bytes) (plaintext recipients : bytes)
    (filename media_type : option bytes) : result JsError bytes :=
  refuse_if (MAX_INPUT <? lenN plaintext)
    (Says (text "that payload is too large for the browser build"));;
  keys ← parse_recipients recipients;
  let metadata := {| Codec.filename := filename; Codec.media_type := media_type;
                     meta_signature := None; meta_extensions := [] |} in
  '(_, container) ← map_err Containers
    (Object.encrypt draw (slice_reader plaintext) {| written := []; schedule := [] |} keys metadata);
  Ok container.(written).

Definition decrypt (container : bytes) (secret : RecipientSecret) : result JsError Decrypted :=
  refuse_if (MAX_INPUT <? lenN container)
    (Says (text "that container is too large for the browser build"));;
  '(verified, plaintext) ← map_err Containers
    (decrypt_to_staging (slice_reader container) {| written := []; schedule := [] |} secret);
  Ok {| decrypted_data := plaintext.(written);
        decrypted_filename := verified.(object_metadata).(Codec.filename);
        decrypted_media_type := verified.(object_metadata).(Codec.media_type) |}.

Definition armor_public_key (public_key : bytes) : result JsError bytes :=
  refuse_if (negb (lenN public_key =? PUBLIC_KEY_LEN)) (Says (text "that is not a HIDE public key"));;
  Ok (encode_public public_key).

Definition dearmor_public_key (s : bytes) : result JsError bytes :=
  b ← map_err Keys (decode_public s);
  refuse_if (negb (lenN b =? PUBLIC_KEY_LEN)) (Says (text "that is not a HIDE public key"));;
  Ok b.

Definition inspect_key (data : bytes) : bytes :=
  match inspect data with Protected => text "protected" | Raw => text "raw" end.

(** ** Signing: [SigningIdentity] *)
Definition identity_generate (random salt nonce : option bytes) (passphrase : bytes)
  : result JsError bytes :=
  identity ← map_err Keys (generate_identity random);
  map_err Keys (protect_identity identity.(Keyring.seed) passphrase salt nonce).

Definition identity_load (data : bytes) (passphrase : option bytes)
  : result JsError Hybrid.SigningIdentity :=
  refuse_if (4096 <? lenN data) (Says (text "that file is too large to be a HIDE key"));;
  seed ←
    match inspect data with
    | Raw =>
        refuse_if (negb (lenN data =? 32)) (Says (text "that file is not a HIDE key"));;
        Ok data
    | Protected =>
        passphrase ← ok_or passphrase (Says (text "that key file needs its passphrase"));
        '(seed, purpose) ← map_err Keys (unprotect_seed data passphrase);
        refuse_if (negb (bool_decide (purpose = Keyring.Identity)))
          (Says (text "that key predates signatures and holds no signing key; create a new identity"));;
        Ok seed
    end;
  map_err Signatures (Hybrid.from_bytes (signing_seed {| Keyring.seed := seed |})).

Definition identity_public_key (i : Hybrid.SigningIdentity) : bytes :=
  vk_to_bytes (Sign.verifying_key i).

Definition identity_sign (i : Hybrid.SigningIdentity) (context message : bytes)
  : result JsError bytes :=
  refuse_if (MAX_INPUT <? lenN message)
    (Says (text "that message is too large for the browser build"));;
  map_err Signatures (Hybrid.sign_application i context message).

Definition decode_challenge (b : bytes) : result JsError Challenge :=
  refuse_if (MAX_CHALLENGE <? lenN b) (Says (text "that is too large to be a HIDE challenge"));;
  map_err Signatures (Challenge.decode b).

Definition identity_answer (i : Hybrid.SigningIdentity) (challenge : bytes) : result JsError bytes :=
  c ← decode_challenge challenge; Ok (answer c i).

Definition verify (public_key context message signature : bytes) : result JsError unit :=
  refuse_if (MAX_INPUT <? lenN message)
    (Says (text "that message is too large for the browser build"));;
  key ← map_err Signatures (vk_from_bytes public_key);
  map_err Signatures (Sign.verify key context message signature).

(** ** Challenges *)
Definition new_challenge (random : option bytes) (audience : bytes) (now valid_for : N)
  : result JsError bytes :=
  c ← map_err Signatures (Challenge.new random audience now valid_for); Ok (Challenge.encode c).

(** [SpentNonces::accept]: what it throws, and the record it leaves *)
Definition accept (seen : SpentNonces) (challenge signature public_key : bytes) (now : N)
  : result JsError unit * SpentNonces :=
  match decode_challenge challenge with
  | Err e => (Err e, seen)
  | Ok c =>
      match map_err Signatures (vk_from_bytes public_key) with
      | Err e => (Err e, seen)
      | Ok prover =>
          let '(r, seen) := Challenge.accept seen c signature prover now in
          (map_err refused_answer r, seen)
      end
  end.

Definition spent_size (seen : SpentNonces) : N := lenN seen.

(** ** Identity logs and epoch chains *)
Definition recovery_key (b : bytes) : result JsError VK := map_err Signatures (vk_from_bytes b).

Definition identity_entries (log : bytes) : result JsError (list Entry) :=
  refuse_if (MAX_LOG_BYTES <? lenN log) (Says (text "that log is too large for the browser build"));;
  map_err MalformedIdentity (Identity.decode log).

Definition verify_identity (log recovery : bytes) : result JsError N :=
  entries ← identity_entries log;
  key ← recovery_key recovery;
  membership ← map_err Identities (verify_log sha256 entries key);
  Ok (member_count membership).

Definition identity_trusts_device (log recovery device_public : bytes) : result JsError bool :=
  device ← map_err Signatures (vk_from_bytes device_public);
  entries ← identity_entries log;
  key ← recovery_key recovery;
  membership ← map_err Identities (verify_log sha256 entries key);
  Ok (contains membership (device_id sha256 device)).

Definition identity_head (log recovery : bytes) : result JsError bytes :=
  entries ← identity_entries log;
  key ← recovery_key recovery;
  log ← map_err Identities (from_entries sha256 entries key);
  Ok (Identity.head log).

Definition epoch_records (chain : bytes) : result JsError (list EpochRecord) :=
  refuse_if (MAX_LOG_BYTES <? lenN chain)
    (Says (text "that chain is too large for the browser build"));;
  records ← map_err MalformedEpochs (decode_records chain);
  map_err Epochs (Epoch.verify sha256 records);;
  Ok records.

Definition verify_epoch_chain (chain : bytes) : result JsError N :=
  records ← epoch_records chain; Ok (lenN records).

Definition epoch_public_key (chain : bytes) (epoch : N) : result JsError bytes :=
  records ← epoch_records chain;
  refuse_if (usize_max <? epoch) (Says (text "that epoch is beyond the chain"));;
  record ← ok_or (records !! N.to_nat epoch) (Says (text "that epoch is beyond the chain"));
  Ok record.(Epoch.public_key).

(** ** Transparency proofs *)
Definition hash_path (path : bytes) : result JsError (list bytes) :=
  refuse_if (negb (lenN path mod 32 =? 0) || (64 * 32 <? lenN path))
    (Says (text "a proof path must be whole 32-byte hashes"));;
  Ok (chunks_exact 32 path).

Definition hash (b what : bytes) : result JsError bytes :=
  refuse_if (negb (lenN b =? 32)) (Says (text "the " ++ what ++ text " must be 32 bytes"));;
  Ok b.

Definition verify_inclusion (leaf : bytes) (index size : N) (path root : bytes) : result JsError unit :=
  path ← hash_path path;
  leaf ← hash leaf (text "leaf");
  root ← hash root (text "root");
  map_err Proofs (Merkle.verify_inclusion sha256
    {| Merkle.index := index; Merkle.size := size; Merkle.path := path |} leaf root).

Definition verify_consistency (old_size new_size : N) (path old_root new_root : bytes)
  : result JsError unit :=
  path ← hash_path path;
  old ← hash old_root (text "old root");
  new ← hash new_root (text "new root");
  map_err Proofs (Merkle.verify_consistency sha256
    {| Merkle.old_size := old_size; Merkle.new_size := new_size; cpath := path |} old new).

(** ** Relying-party checks *)
Definition pinned_log (log recovery_binding pinned_root : bytes) : result JsError IdentityLog :=
  binding ← map_err MalformedIdentity (decode_recovery recovery_binding);
  entries ← identity_entries log;
  root ← hash pinned_root (text "pinned root");
  map_err Identities (verify_pinned sha256 binding entries root).

Definition verify_identity_pinned (log recovery_binding pinned_root : bytes) : result JsError N :=
  log ← pinned_log log recovery_binding pinned_root;
  Ok (member_count (membership sha256 log)).

Definition verify_epoch_chain_bound (log recovery_binding pinned_root chain epoch_binding : bytes)
  : result JsError N :=
  log ← pinned_log log recovery_binding pinned_root;
  records ← epoch_records chain;
  binding ← map_err MalformedIdentity (decode_epoch epoch_binding);
  map_err Identities (verify_epoch sha256 binding log records);;
  Ok (lenN records).

Definition verify_checkpoint (note origin log_public : bytes) (expected_size : N)
  : result JsError bytes :=
  key ← map_err Signatures (vk_from_bytes log_public);
  checkpoint ← map_err Proofs (verify_note sha256 note origin key);
  refuse_if (negb (checkpoint.(csize) =? expected_size))
    (Says (text "the checkpoint is for a different tree size"));;
  Ok checkpoint.(croot).
End wasm.
