(* ===== verification/FfiWasm.v ===== *)
(** One implementation behind every surface: the C interface and the bindings
    for JavaScript answer the same questions alike. *)
From stdpp Require Import gmap.
From S2P Require Import Prelude Utf8 Cbor Sign Challenge Merkle Note Crypto Epoch Identity.
From S2P Require Import Bindings Stream Codec Records Object Keyring Armor Abi Ffi FfiClient Wasm.
Local Open Scope N_scope.

#[local] Existing Instance Hybrid.scheme.

(** ** What a caller finds in its variables *)
Definition reads_word (m : Memory) (p : Pointer) (n : N) : Prop :=
  ∃ l, p = At l 0 ∧ m.(cells) !! l = Some (WordVar n).

Definition reads_buffer (m : Memory) (p : Pointer) (b : bytes) : Prop :=
  ∃ l v, p = At l 0 ∧ m.(cells) !! l = Some (BufferVar v) ∧ denotes m v.(data) v.(len) b.

Lemma denotes_inj m p n b b' : denotes m p n b → denotes m p n b' → b = b'.
Proof.
  intros [-> H] [Hn H']. destruct H as [->|H].
  - cbn in *. destruct b'; [done|]. cbn in Hn. lia.
  - destruct H' as [->|H']; [|congruence]. cbn in Hn. destruct b; [done|]. cbn in Hn. lia.
Qed.

Section outputs.
Context {G : Allocator} {GL : AllocatorLaws G} {A : Type}.
Implicit Types (Q : A → Memory → Prop) (R : Z → Memory → Prop) (m : Memory).

Lemma slice_full {T} (l : list T) : slice 0 (lenN l) l = l.
Proof. unfold slice. rewrite N.sub_0_r, Nat2N.id. cbn. apply take_ge. lia. Qed.

(** A cell that is not a vector is where the block of a fresh one is not. *)
Lemma wp_emit_data p b (k : Body A) Q R m :
  target m (BufferSort, p) →
  (∀ m', wrote m (BufferSort, p) m' → reads_buffer m' p b → wp k Q R m') →
  wp (v ← from_vec b; write_buffer p v;; k) Q R m.
Proof.
  intros T H. pose proof T as (l & c & Hp & Hl & Hf). cbn [fst snd] in *. subst p.
  destruct (from_vec_done b m) as (v & m1 & E).
  unfold wp, mbind, Body_bind, write_buffer. rewrite E.
  rewrite (write_var_done m1 BufferSort l c) by eauto using from_vec_keeps.
  apply H; [by econstructor|].
  exists l, v. split_and!; [done|by cbn; rewrite lookup_insert_eq|].
  unfold from_vec in E. pose proof (room_enough b) as Hroom.
  destruct (N.eqb_spec (room_for b) 0).
  - injection E as <- <-. split; [done|]. left. destruct b; [done|]. cbn in Hroom. lia.
  - unfold mbind, Body_bind, allocate in E. injection E as <- <-. split; [done|]. right.
    cbn. rewrite lookup_insert_ne by by eapply not_eq_sym, place_not_in.
    rewrite lookup_insert_eq, N.leb_refl. f_equal. apply slice_full.
Qed.

Lemma wp_emit_number p n (k : Body A) Q R m :
  target m (WordSort, p) →
  (∀ m', wrote m (WordSort, p) m' → reads_word m' p n → wp k Q R m') →
  wp (write_word p n;; k) Q R m.
Proof.
  intros T H. pose proof T as (l & c & Hp & Hl & Hf). cbn [fst snd] in *. subst p.
  unfold wp, mbind, Body_bind, write_word. rewrite (write_var_done m WordSort l c) by done.
  apply H; [by econstructor|]. exists l. split; [done|]. cbn. by rewrite lookup_insert_eq.
Qed.

(** What was read stays readable while other variables are written. *)
Lemma wrote_keeps_bytes m o m' p n b : wrote m o m' → bytes_at m p n = Some b → bytes_at m' p n = Some b.
Proof.
  intros W. unfold bytes_at. destruct p as [| |l i]; try done.
  destruct (cells m !! l) as [c|] eqn:E; [|done]. intros H.
  assert (Ho : o.2 ≠ At l 0).
  { intros Ho. destruct W as [k ? ? ? T|k ? ? ? T|k ? T|k ? T]; cbn in Ho; injection Ho as ->;
      destruct T as (? & d & [= <-] & Hd & Hf); rewrite E in Hd; injection Hd as <-; by destruct c. }
  by rewrite (wrote_elsewhere _ _ _ _ _ W Ho E).
Qed.

Lemma wrote_keeps_denotes m o m' p n b : wrote m o m' → denotes m p n b → denotes m' p n b.
Proof. intros W [Hn [->|H]]; split; try done; [by left|right]. by eapply wrote_keeps_bytes. Qed.

Lemma wrote_keeps_buffer m o m' p b :
  wrote m o m' → o.2 ≠ p → reads_buffer m p b → reads_buffer m' p b.
Proof.
  intros W Ho (l & v & -> & Hl & Hd). exists l, v. split_and!; [done| |].
  - by eapply wrote_elsewhere.
  - by eapply wrote_keeps_denotes.
Qed.

Lemma wrote_keeps_word m o m' p n :
  wrote m o m' → o.2 ≠ p → reads_word m p n → reads_word m' p n.
Proof. intros W Ho (l & -> & Hl). exists l. split; [done|]. by eapply wrote_elsewhere. Qed.
End outputs.

(** ** The questions both surfaces answer *)
Inductive Question :=
| AskEncrypt (draw : nat → option bytes) (plaintext recipients : bytes) (filename media_type : option bytes)
| AskDecrypt (container : bytes) (secret : RecipientSecret)
| AskSign (identity : Hybrid.SigningIdentity) (context message : bytes)
| AskVerify (public_key context message signature : bytes)
| AskAnswer (identity : Hybrid.SigningIdentity) (challenge : bytes)
| AskIdentity (log recovery : bytes)
| AskDevice (log recovery device : bytes)
| AskHead (log recovery : bytes)
| AskEpochs (chain : bytes)
| AskEpochKey (chain : bytes) (epoch : N)
| AskInclusion (leaf : bytes) (index size : N) (path root : bytes)
| AskConsistency (old_size new_size : N) (path old_root new_root : bytes)
| AskPinned (log binding root : bytes)
| AskBound (log binding root chain epoch_binding : bytes)
| AskCheckpoint (note origin log_public : bytes) (size : N).

Inductive Answer :=
| Nothing
| Number (n : N)
| Data (b : bytes)
| Sized (n : N) (b : bytes)
| Opened (data filename media_type : bytes).

(** What the caller's variables say after a call that succeeded *)
Definition shown (m : Memory) (os : list Out) (a : Answer) : Prop :=
  match os, a with
  | [], Nothing => True
  | [(WordSort, p)], Number n => reads_word m p n
  | [(BufferSort, p)], Data b => reads_buffer m p b
  | [(WordSort, p); (BufferSort, q)], Sized n b => reads_word m p n ∧ reads_buffer m q b
  | [(BufferSort, f); (BufferSort, t); (BufferSort, p)], Opened d filename media_type =>
      reads_buffer m f filename ∧ reads_buffer m t media_type ∧ reads_buffer m p d
  | _, _ => False
  end.

(** A call that puts a question: its pointers denote the question's inputs. *)
Inductive asks (m : Memory) : Question → Call → Prop :=
| asks_encrypt w d n b r k rs f filename t media o :
    denotes m d n b → denotes m r (k * HIDE_PUBLIC_KEY_LEN) rs → spells m f filename → spells m t media →
    asks m (AskEncrypt w b rs filename media) (Encrypt w d n r k f t o)
| asks_decrypt d n b p s o f t :
    denotes m d n b → box_at m p = Some (SecretBox s) → given (BufferSort, f) = true →
    given (BufferSort, t) = true → asks m (AskDecrypt b s) (Decrypt d n p o f t)
| asks_sign p i x nx context d n b o :
    box_at m p = Some (IdentityBox i) → denotes m x nx context → denotes m d n b →
    asks m (AskSign i context b) (SignMessage p x nx d n o)
| asks_verify k nk key x nx context d n b s ns signature :
    denotes m k nk key → denotes m x nx context → denotes m d n b → denotes m s ns signature →
    asks m (AskVerify key context b signature) (VerifyMessage k nk x nx d n s ns)
| asks_answer p i d n b o :
    box_at m p = Some (IdentityBox i) → denotes m d n b → asks m (AskAnswer i b) (ChallengeAnswer p d n o)
| asks_identity l nl log r nr recovery o :
    denotes m l nl log → denotes m r nr recovery →
    asks m (AskIdentity log recovery) (IdentityVerify l nl r nr o)
| asks_device l nl log r nr recovery d nd device o :
    denotes m l nl log → denotes m r nr recovery → denotes m d nd device →
    asks m (AskDevice log recovery device) (IdentityTrustsDevice l nl r nr d nd o)
| asks_head l nl log r nr recovery o :
    denotes m l nl log → denotes m r nr recovery → asks m (AskHead log recovery) (IdentityHead l nl r nr o)
| asks_epochs c nc chain o : denotes m c nc chain → asks m (AskEpochs chain) (EpochVerify c nc o)
| asks_epoch_key c nc chain e o :
    denotes m c nc chain → asks m (AskEpochKey chain e) (EpochPublicKey c nc e o)
| asks_inclusion l nl leaf i s p np path r nr root :
    denotes m l nl leaf → denotes m p np path → denotes m r nr root →
    asks m (AskInclusion leaf i s path root) (VerifyInclusion l nl i s p np r nr)
| asks_consistency a b p np path l nl old r nr new :
    denotes m p np path → denotes m l nl old → denotes m r nr new →
    asks m (AskConsistency a b path old new) (VerifyConsistency a b p np l nl r nr)
| asks_pinned l nl log b nb binding r nr root o :
    denotes m l nl log → denotes m b nb binding → denotes m r nr root →
    asks m (AskPinned log binding root) (IdentityVerifyPinned l nl b nb r nr o)
| asks_bound l nl log b nb binding r nr root c nc chain e ne epoch_binding o :
    denotes m l nl log → denotes m b nb binding → denotes m r nr root → denotes m c nc chain →
    denotes m e ne epoch_binding →
    asks m (AskBound log binding root chain epoch_binding) (EpochVerifyBound l nl b nb r nr c nc e ne o)
| asks_checkpoint d n note p origin k nk key size s r :
    denotes m d n note → spells m p (Some origin) → denotes m k nk key →
    asks m (AskCheckpoint note origin key size) (CheckpointVerify d n p k nk s r).

(** What the browser build bounds below the C library's own limits, and the one
    limit it does not have. *)
Definition browser_sized (q : Question) : Prop :=
  match q with
  | AskEncrypt _ b _ _ _ | AskDecrypt b _ => lenN b <= Wasm.MAX_INPUT
  | AskSign _ context b | AskVerify _ context b _ => lenN context <= MAX_KEY_FILE ∧ lenN b <= Wasm.MAX_INPUT
  | _ => True
  end.

Section surfaces.
Context {C : Cbor} {SP : Sign.Primitives} {P : Crypto.Primitives}.
Context {A : Argon2} {U : Unicode} {X : Expand} {B : Base64} {G : Allocator}.

(** The same question put to the JavaScript bindings. The C library returns a
    checkpoint's size where the browser build is told the size to expect. *)
Definition on_the_web (q : Question) : result JsError Answer :=
  match q with
  | AskEncrypt w b rs f t => Data <$> Wasm.encrypt w b rs f t
  | AskDecrypt b s =>
      (λ d, Opened d.(decrypted_data) (default [] d.(decrypted_filename)) (default [] d.(decrypted_media_type)))
      <$> Wasm.decrypt b s
  | AskSign i x b => Data <$> identity_sign i x b
  | AskVerify k x b s => (λ _, Nothing) <$> Wasm.verify k x b s
  | AskAnswer i b => Data <$> identity_answer i b
  | AskIdentity l r => Number <$> verify_identity l r
  | AskDevice l r d => (λ t : bool, Number (if t then 1 else 0)) <$> identity_trusts_device l r d
  | AskHead l r => Data <$> identity_head l r
  | AskEpochs c => Number <$> verify_epoch_chain c
  | AskEpochKey c e => Data <$> epoch_public_key c e
  | AskInclusion l i s p r => (λ _, Nothing) <$> Wasm.verify_inclusion l i s p r
  | AskConsistency a b p l r => (λ _, Nothing) <$> Wasm.verify_consistency a b p l r
  | AskPinned l b r => Number <$> verify_identity_pinned l b r
  | AskBound l b r c e => Number <$> verify_epoch_chain_bound l b r c e
  | AskCheckpoint n o k s => Sized s <$> verify_checkpoint n o k s
  end.
End surfaces.

(** The browser build is told which checkpoint size to expect. *)
Definition expected (q : Question) (a : Answer) : Prop :=
  match q, a with AskCheckpoint _ _ _ s, Sized n _ => n = s | _, _ => True end.

Lemma reads_word_inj m p n n' : reads_word m p n → reads_word m p n' → n = n'.
Proof. intros (l & -> & H) (l' & [= <-] & H'). congruence. Qed.

Lemma reads_buffer_inj m p b b' : reads_buffer m p b → reads_buffer m p b' → b = b'.
Proof.
  intros (l & v & -> & H & D) (l' & v' & [= <-] & H' & D'). rewrite H in H'. injection H' as <-.
  by eapply denotes_inj.
Qed.

Lemma shown_inj m os a a' : shown m os a → shown m os a' → a = a'.
Proof.
  unfold shown. intros H H'. repeat case_match; try done; destruct_and?;
    f_equal; eauto using reads_word_inj, reads_buffer_inj.
Qed.

(** ** Rules for pointers that denote *)
Section denoting.
Context {A : Type}.
Implicit Types (Q : A → Memory → Prop) (R : Z → Memory → Prop) (m : Memory).

Lemma wp_borrow_denotes p n b limit (Q : option bytes → Memory → Prop) R m :
  denotes m p n b → Q (if limit <? lenN b then None else Some b) m → wp (borrow p n limit) Q R m.
Proof. intros H HQ. unfold wp. by rewrite (borrow_denotes _ _ _ _ _ H). Qed.

Lemma wp_borrow_str_spells p s (Q : option (option bytes) → Memory → Prop) R m :
  spells m p s → Q (Some s) m → wp (borrow_str p) Q R m.
Proof. intros H HQ. unfold wp. by rewrite (borrow_str_spells _ _ _ H). Qed.

Lemma wp_c_str_spells p s (Q : bytes → Memory → Prop) R m :
  spells m p (Some s) → Q s m → wp (c_str p) Q R m.
Proof. intros [H _] HQ. unfold wp, c_str. by rewrite H. Qed.

Lemma wp_if_return (bad : bool) (b : bytes) c (Q : bytes → Memory → Prop) R m :
  (bad = false → Q b m) → (bad = true → R c m) →
  wp (or_return (if bad then None else Some b) c) Q R m.
Proof. destruct bad; cbn; eauto. Qed.

Lemma wp_both {T V} (a : option T) (b : option V) c (Q : T * V → Memory → Prop) R m :
  (∀ x y, a = Some x → b = Some y → Q (x, y) m) → (a = None ∨ b = None → R c m) →
  wp (or_return (both a b) c) Q R m.
Proof. destruct a, b; cbn; eauto. Qed.

Lemma wp_all3 {T V W} (a : option T) (b : option V) (d : option W) c (Q : T * V * W → Memory → Prop) R m :
  (∀ x y z, a = Some x → b = Some y → d = Some z → Q (x, y, z) m) →
  (a = None ∨ b = None ∨ d = None → R c m) → wp (or_return (all3 a b d) c) Q R m.
Proof. destruct a, b, d; cbn; eauto. Qed.
End denoting.

Lemma ok_Some {E T} (r : result E T) a : ok r = Some a → r = Ok a.
Proof. destruct r; cbn; congruence. Qed.
Lemma ok_None {E T} (r : result E T) : ok r = None → is_ok r = false.
Proof. by destruct r. Qed.
Lemma within_Some (bad : bool) (b x : bytes) : (if bad then None else Some b) = Some x → bad = false ∧ x = b.
Proof. destruct bad; naive_solver. Qed.
Lemma within_None (bad : bool) (b : bytes) : (if bad then None else Some b) = None → bad = true.
Proof. by destruct bad. Qed.

(** The options of a tuple pattern, one by one. *)
Ltac found :=
  repeat match goal with
  | H : ok _ = Some _ |- _ => apply ok_Some in H
  | H : ok _ = None |- _ => apply ok_None in H
  | H : (if _ then None else Some _) = Some _ |- _ => apply within_Some in H as [? ->]
  | H : (if _ then None else Some _) = None |- _ => apply within_None in H
  | H : negb (is_ok ?r) = _ |- _ => destruct r eqn:?; cbn in H; simplify_eq; clear H
  | H : _ ∨ _ |- _ => destruct H as [H|H]
  end.

Definition matches (w : result JsError Answer) (ex : Answer → Prop) (os : list Out) (m' : Memory) : Prop :=
  ∃ a, shown m' os a ∧ (w = Ok a ∧ ex a ∨ is_ok w = false ∧ ¬ ex a).

Lemma guard_matches w ex os body m :
  wp body (λ c m', c = HIDE_OK ∧ matches w ex os m') (λ c _, c ≠ HIDE_OK ∧ is_ok w = false) m →
  ∃ code m', guard body m = Some (code, m') ∧
    ∀ a, w = Ok a ∧ ex a ↔ code = HIDE_OK ∧ shown m' os a ∧ ex a.
Proof.
  unfold wp, guard. destruct (body m) as [c m1|c m1| |]; [| |done..]; intros H.
  - destruct H as [-> (a & Ha & H)]. exists HIDE_OK, m1. split; [done|]. intros a'. split.
    + intros [Hw He]. destruct H as [[Hw' _]|[Hf _]]; [|by rewrite Hw in Hf].
      rewrite Hw in Hw'. injection Hw' as ->. done.
    + intros (_ & Ha' & He). rewrite (shown_inj _ _ _ _ Ha' Ha) in *. naive_solver.
  - destruct H as [Hc Hw]. exists c, m1. split; [done|]. intros a'. split; [|naive_solver].
    intros [Hw' _]. by rewrite Hw' in Hw.
Qed.

Lemma refusal_nonzero c : refusal c → c ≠ HIDE_OK.
Proof.
  unfold refusal. intros H ->. rewrite !elem_of_cons, elem_of_nil in H.
  by destruct_or!.
Qed.

Lemma target_given m s p : target m (s, p) → is_null p = false.
Proof. intros (l & c & Hp & _). cbn in Hp. by subst. Qed.

Lemma box_given m p b : box_at m p = Some b → is_null p = false.
Proof. by destruct p. Qed.

Lemma vk_length {SP : Sign.Primitives} b k : vk_from_bytes b = Ok k → lenN b = VERIFYING_KEY_LENGTH.
Proof.
  cbn. unfold Hybrid.key_from_bytes, Sign.require_length. intros H. inv_ok.
  case_match; [by b2p|done].
Qed.

Lemma signature_length {SP : Sign.Primitives} k c b s u :
  Sign.verify k c b s = Ok u → lenN s = SIGNATURE_LENGTH.
Proof.
  intros H. apply bind_Ok_iff in H as (? & H & _). unfold Sign.require_length in H.
  case_match; [by b2p|done].
Qed.

Lemma recovery_length {SP : Sign.Primitives} b x :
  decode_recovery b = Ok x → lenN b = RECOVERY_BINDING_LENGTH.
Proof. unfold decode_recovery. intros H. inv_ok. by b2p. Qed.

Lemma checkpoint_length {SP : Sign.Primitives} {P : Crypto.Primitives} {B : Base64} note origin k x :
  verify_note sha256 note origin k = Ok x → lenN note <= MAX_NOTE_BYTES.
Proof. unfold verify_note, verify_witnessed, Note.decode. intros H. inv_ok. b2p. lia. Qed.

Lemma epoch_binding_length b x : decode_epoch b = Ok x → lenN b = EPOCH_BINDING_LENGTH.
Proof. unfold decode_epoch. intros H. inv_ok. by b2p. Qed.

Ltac web_known :=
  match goal with
  | H : ?t = Ok _ |- context [?t] => rewrite H
  | H : ?t = Err _ |- context [?t] => rewrite H
  | H : ?t = Some _ |- context [?t] => rewrite H
  | H : ?t = None |- context [?t] => rewrite H
  | H : ?t = true |- context [?t] => rewrite H
  | H : ?t = false |- context [?t] => rewrite H
  end.

(** Decides what the JavaScript function does from what the C one found. *)
Ltac web :=
  unfold on_the_web, Wasm.encrypt, Wasm.decrypt, identity_sign, Wasm.verify, identity_answer,
    verify_identity, Wasm.identity_trusts_device, Wasm.identity_head, verify_epoch_chain,
    Wasm.epoch_public_key, Wasm.verify_inclusion, Wasm.verify_consistency, verify_identity_pinned,
    verify_epoch_chain_bound, verify_checkpoint, Wasm.pinned_log, epoch_records, identity_entries,
    Wasm.recovery_key, hash_path, Wasm.hash, Wasm.decode_challenge, fmap, result_fmap, mbind, result_mbind,
    result_bind, refuse_if, ok_or, map_err, ok in *;
  unfold both, all3, Ffi.MAX_LOG_BYTES, Wasm.MAX_LOG_BYTES, Ffi.MAX_INPUT, Wasm.MAX_INPUT, MAX_KEY_FILE,
    MAX_CHALLENGE, member_count in *; cbn beta iota zeta in *;
  repeat (first [web_known | case_match]; simplify_eq; try done).
Ltac web_lengths :=
  repeat match goal with
  | H : vk_from_bytes _ = Ok _ |- _ => apply vk_length in H
  | H : verify_note _ _ _ _ = Ok _ |- _ => apply checkpoint_length in H
  | H : Sign.verify _ _ _ _ = Ok _ |- _ => apply signature_length in H
  | H : decode_recovery _ = Ok _ |- _ => apply recovery_length in H
  | H : decode_epoch _ = Ok _ |- _ => apply epoch_binding_length in H
  end.
Ltac web_closed :=
  first [done | congruence
        | exfalso; web_lengths;
          unfold Ffi.usize_max, Wasm.usize_max, u32_max, u64_max, HIDE_PUBLIC_KEY_LEN, HIDE_SIGNATURE_LEN,
            HIDE_VERIFYING_KEY_LEN, RECOVERY_BINDING_LENGTH, EPOCH_BINDING_LENGTH, VERIFYING_KEY_LENGTH,
            SIGNATURE_LENGTH, ED25519_PUBLIC_LEN, ML_DSA_PUBLIC_LEN, ED25519_SIGNATURE_LEN,
            ML_DSA_SIGNATURE_LEN in *;
          repeat match goal with H : _ || _ = true |- _ => apply orb_true_iff in H as [H|H] end; b2p; lia].
Ltac web_refuses := split; [first [done|apply refusal_nonzero; auto with abi]|web; web_closed].
Ltac web_shows :=
  split; [done|]; eexists; split; [|left; split; [web; web_closed|done]]; cbn; eauto.

Ltac ask_step :=
  lazymatch goal with
  | |- wp (from_vec _ ≫= _) _ _ _ =>
      apply wp_emit_data; [eauto 6 using out_target, wrote_target|intros ? ? ?]
  | |- wp (write_word _ _ ≫= _) _ _ _ =>
      apply wp_emit_number; [eauto 6 using out_target, wrote_target|intros ? ? ?]
  | |- wp (write_optional _ _ ≫= _) _ _ _ => fail
  | |- wp (_ ≫= _) _ _ _ => apply wp_bind
  | |- wp (mret _) _ _ _ => apply wp_ret
  | |- wp (return_if _ _) _ _ _ => apply wp_return_if; intros ?; found
  | |- wp (or_return (if _ then None else Some _) _) _ _ _ => apply wp_if_return; intros ?
  | |- wp (or_return (both _ _) _) _ _ _ => apply wp_both; intros; found
  | |- wp (or_return (all3 _ _ _) _) _ _ _ => apply wp_all3; intros; found
  | |- wp (or_return _ _) _ _ _ => apply wp_or_return; intros
  | |- wp (ok_or_return _ _) _ _ _ => apply wp_ok_or_return; intros
  | |- wp (borrow _ _ _) _ _ _ => eapply wp_borrow_denotes; [eassumption|]
  | |- wp (borrow_str _) _ _ _ => eapply wp_borrow_str_spells; [eassumption|]
  | |- wp (c_str _) _ _ _ => eapply wp_c_str_spells; [eassumption|]
  | |- wp (deref _ _) _ _ _ => eapply wp_deref; [eassumption|reflexivity|]
  | |- wp (let '(_, _) := ?p in _) _ _ _ => first [is_var p; destruct p | destruct p eqn:?]
  | |- wp (let x := _ in _) _ _ _ => cbv zeta
  | |- wp (copied _ _) _ _ _ => apply wp_copied; [b2p; done|]
  | |- wp (copied_hashes _) _ _ _ => apply wp_copied_hashes
  end.

Section surfaces_agree.
Context {C : Cbor} {SP : Sign.Primitives} {P : Crypto.Primitives}.
Context {A : Argon2} {U : Unicode} {X : Expand} {B : Base64} {G : Allocator} {GL : AllocatorLaws G}.

Definition answered (m : Memory) (q : Question) (c : Call) : Prop :=
  ∃ code m', perform c m = Some (code, m') ∧
    ∀ a, on_the_web q = Ok a ∧ expected q a ↔ code = HIDE_OK ∧ shown m' (outs c) a ∧ expected q a.

Ltac answers := repeat ask_step; first [web_refuses | web_shows].

Lemma sign_answered m p i x nx context d n b o :
  box_at m p = Some (IdentityBox i) → denotes m x nx context → denotes m d n b →
  target m (BufferSort, o) → lenN context <= MAX_KEY_FILE → lenN b <= Wasm.MAX_INPUT →
  answered m (AskSign i context b) (SignMessage p x nx d n o).
Proof.
  intros Hp Hx Hd T Hc Hb. apply guard_matches. rewrite (target_given _ _ _ T), (box_given _ _ _ Hp).
  answers.
Qed.

Lemma verify_answered m k nk key x nx context d n b s ns signature :
  denotes m k nk key → denotes m x nx context → denotes m d n b → denotes m s ns signature →
  lenN context <= MAX_KEY_FILE → lenN b <= Wasm.MAX_INPUT →
  answered m (AskVerify key context b signature) (VerifyMessage k nk x nx d n s ns).
Proof.
  intros Hk Hx Hd Hs Hc Hb. pose proof Hk as [-> _]. pose proof Hs as [-> _]. apply guard_matches.
  answers.
Qed.

Lemma answer_answered m p i d n b o :
  box_at m p = Some (IdentityBox i) → denotes m d n b → target m (BufferSort, o) →
  answered m (AskAnswer i b) (ChallengeAnswer p d n o).
Proof.
  intros Hp Hd T. apply guard_matches. rewrite (target_given _ _ _ T), (box_given _ _ _ Hp). answers.
Qed.

Lemma identity_answered m l nl log r nr recovery o :
  denotes m l nl log → denotes m r nr recovery → target m (WordSort, o) →
  answered m (AskIdentity log recovery) (IdentityVerify l nl r nr o).
Proof. intros Hl Hr T. apply guard_matches. rewrite (target_given _ _ _ T). answers. Qed.

Lemma device_answered m l nl log r nr recovery d nd device o :
  denotes m l nl log → denotes m r nr recovery → denotes m d nd device → target m (WordSort, o) →
  answered m (AskDevice log recovery device) (IdentityTrustsDevice l nl r nr d nd o).
Proof. intros Hl Hr Hd T. apply guard_matches. rewrite (target_given _ _ _ T). answers. Qed.

Lemma head_answered m l nl log r nr recovery o :
  denotes m l nl log → denotes m r nr recovery → target m (BufferSort, o) →
  answered m (AskHead log recovery) (IdentityHead l nl r nr o).
Proof. intros Hl Hr T. apply guard_matches. rewrite (target_given _ _ _ T). answers. Qed.

Lemma epochs_answered m c nc chain o :
  denotes m c nc chain → target m (WordSort, o) → answered m (AskEpochs chain) (EpochVerify c nc o).
Proof. intros Hc T. apply guard_matches. rewrite (target_given _ _ _ T). answers. Qed.

Lemma wp_pinned_answered m l nl log b nb binding r nr root (Q : IdentityLog → Memory → Prop) R :
  denotes m l nl log → denotes m b nb binding → denotes m r nr root →
  (∀ x, Wasm.pinned_log log binding root = Ok x → Q x m) →
  (∀ c, refusal c → is_ok (Wasm.pinned_log log binding root) = false → R c m) →
  wp (Ffi.pinned_log l nl b nb r nr) Q R m.
Proof.
  intros Hl Hb Hr HQ HR. unfold Ffi.pinned_log. repeat ask_step.
  all: try (apply HR; [a_refusal|clear HQ HR; web; web_closed]).
  apply HQ. clear HQ HR. web; web_closed.
Qed.

Lemma pinned_answered m l nl log b nb binding r nr root o :
  denotes m l nl log → denotes m b nb binding → denotes m r nr root → target m (WordSort, o) →
  answered m (AskPinned log binding root) (IdentityVerifyPinned l nl b nb r nr o).
Proof.
  intros Hl Hb Hr T. apply guard_matches. rewrite (target_given _ _ _ T). repeat ask_step; [|done].
  eapply wp_pinned_answered; [done..|intros x Hx|intros c Hc Hx].
  - answers.
  - split; [by apply refusal_nonzero|]. unfold on_the_web, verify_identity_pinned.
    by destruct (Wasm.pinned_log log binding root).
Qed.

Lemma bound_chain_verifies b x records :
  verify_epoch sha256 b x records = Ok tt → Epoch.verify sha256 records = Ok tt.
Proof. unfold verify_epoch. intros H. by inv_ok. Qed.

Lemma bound_answered m l nl log b nb binding r nr root c nc chain e ne epoch_binding o :
  denotes m l nl log → denotes m b nb binding → denotes m r nr root → denotes m c nc chain →
  denotes m e ne epoch_binding → target m (WordSort, o) →
  answered m (AskBound log binding root chain epoch_binding)
    (EpochVerifyBound l nl b nb r nr c nc e ne o).
Proof.
  intros Hl Hb Hr Hc He T. apply guard_matches. rewrite (target_given _ _ _ T).
  repeat ask_step; try web_refuses.
  - eapply wp_pinned_answered; [done..|intros x Hx|intros d Hd Hx].
    + unfold on_the_web, verify_epoch_chain_bound. rewrite Hx. clear Hx. repeat ask_step; try web_refuses.
      match goal with H : verify_epoch _ _ _ _ = Ok ?u |- _ =>
        destruct u; pose proof (bound_chain_verifies _ _ _ H) end.
      web_shows.
    + split; [by apply refusal_nonzero|]. unfold on_the_web, verify_epoch_chain_bound.
      by destruct (Wasm.pinned_log log binding root).
Qed.

Lemma inclusion_answered m l nl leaf i s p np path r nr root :
  denotes m l nl leaf → denotes m p np path → denotes m r nr root →
  answered m (AskInclusion leaf i s path root) (VerifyInclusion l nl i s p np r nr).
Proof. intros Hl Hp Hr. apply guard_matches. answers. Qed.

Lemma consistency_answered m a b p np path l nl old r nr new :
  denotes m p np path → denotes m l nl old → denotes m r nr new →
  answered m (AskConsistency a b path old new) (VerifyConsistency a b p np l nl r nr).
Proof. intros Hp Hl Hr. apply guard_matches. answers. Qed.

(** No chain is long enough for the two widths of a [usize] to matter. *)
Lemma epoch_index_fits records e record :
  Epoch.verify sha256 records = Ok tt → records !! N.to_nat e = Some record → e <= Wasm.usize_max.
Proof.
  intros [Hn _]%Epoch.verify_Ok H%lookup_lt_Some.
  unfold MAX_CHAIN_ENTRIES, Wasm.usize_max, u32_max in *. lia.
Qed.

Lemma epoch_key_answered m c nc chain e o :
  denotes m c nc chain → target m (BufferSort, o) →
  answered m (AskEpochKey chain e) (EpochPublicKey c nc e o).
Proof.
  intros Hc T. apply guard_matches. rewrite (target_given _ _ _ T). repeat ask_step.
  all: try match goal with
    | H : Epoch.verify _ ?r = Ok ?u, H' : ?r !! _ = Some _ |- _ =>
        destruct u; pose proof (epoch_index_fits _ _ _ H H') end.
  all: first [web_refuses | web_shows].
Qed.

Lemma whole_recipients rs k :
  lenN rs = k * HIDE_PUBLIC_KEY_LEN → (k =? 0) || (64 <? k) = false →
  parse_recipients rs
    = map_err Cryptography (collect public_from_bytes (chunks_exact HIDE_PUBLIC_KEY_LEN rs)).
Proof.
  intros Hn Hk. b2p. unfold parse_recipients, PUBLIC_KEY_LEN, HIDE_PUBLIC_KEY_LEN in *.
  rewrite Hn, N.Div0.mod_mul, N.div_mul by done.
  rewrite bool_decide_eq_false_2 by (intros ->; cbn in Hn; lia).
  by destruct (N.ltb_spec 64 k); [lia|].
Qed.

Lemma wrong_recipients rs k :
  lenN rs = k * HIDE_PUBLIC_KEY_LEN → (k =? 0) || (64 <? k) = true →
  is_ok (parse_recipients rs) = false.
Proof.
  intros Hn Hk. unfold parse_recipients, PUBLIC_KEY_LEN, HIDE_PUBLIC_KEY_LEN in *.
  apply orb_true_iff in Hk as [Hk|Hk]; b2p.
  - subst k. destruct rs; [done|cbn in Hn; lia].
  - rewrite Hn, N.Div0.mod_mul, N.div_mul by done. cbn.
    destruct (bool_decide _); [done|]. cbn. by destruct (N.ltb_spec 64 k); [|lia].
Qed.

Lemma encrypt_answered m w d n b r k rs f filename t media o :
  denotes m d n b → denotes m r (k * HIDE_PUBLIC_KEY_LEN) rs → spells m f filename →
  spells m t media → lenN b <= Wasm.MAX_INPUT → target m (BufferSort, o) →
  answered m (AskEncrypt w b rs filename media) (Encrypt w d n r k f t o).
Proof.
  intros Hd Hr Hf Ht Hb T. pose proof Hr as [Hn _]. apply guard_matches. rewrite (target_given _ _ _ T).
  unfold on_the_web, Wasm.encrypt. rewrite (proj2 (N.ltb_ge _ _) Hb). cbn [refuse_if mbind result_mbind result_bind].
  repeat ask_step; simplify_eq.
  all: try (pose proof (wrong_recipients rs k (eq_sym Hn) ltac:(assumption)); web_refuses).
  all: try (rewrite (whole_recipients rs k (eq_sym Hn)) by assumption; first [web_refuses|web_shows]).
Qed.

Lemma wp_optional_data {T} p v (k : Body T) Q R m :
  target m (BufferSort, p) →
  (∀ m', wrote m (BufferSort, p) m' → reads_buffer m' p (default [] v) → wp k Q R m') →
  wp (write_optional p v;; k) Q R m.
Proof.
  intros Ht H. pose proof (wp_emit_data p (default [] v) k Q R m Ht H) as W. revert W.
  unfold write_optional. rewrite (target_given _ _ _ Ht). unfold wp, mbind, Body_bind.
  by destruct (from_vec _ m).
Qed.

Lemma decrypt_answered m d n b p s o f t :
  denotes m d n b → box_at m p = Some (SecretBox s) → lenN b <= Wasm.MAX_INPUT →
  target m (BufferSort, f) → target m (BufferSort, t) → target m (BufferSort, o) →
  NoDup [f; t; o] → answered m (AskDecrypt b s) (Decrypt d n p o f t).
Proof.
  intros Hd Hp Hb Tf Tt To ND. apply guard_matches.
  rewrite (target_given _ _ _ To), (box_given _ _ _ Hp).
  unfold on_the_web, Wasm.decrypt. rewrite (proj2 (N.ltb_ge _ _) Hb).
  cbn [refuse_if mbind result_mbind result_bind outs List.filter]. unfold given. cbn [snd].
  rewrite (target_given _ _ _ Tf), (target_given _ _ _ Tt).
  apply NoDup_cons in ND as [Nf ND]. apply NoDup_cons in ND as [Nt _].
  repeat ask_step; try web_refuses.
  apply wp_optional_data; [done|]. intros m1 W1 R1.
  apply wp_optional_data; [by eapply wrote_target|]. intros m2 W2 R2.
  apply wp_emit_data; [eauto using wrote_target|]. intros m3 W3 R3.
  apply wp_ret. split; [done|]. eexists. split; [|left; split; [by web_known|done]].
  cbn. split_and!; [| |done]; repeat (eapply wrote_keeps_buffer; [eassumption|cbn; set_solver|]); done.
Qed.

Lemma checkpoint_answered m d n note p origin k nk key size s r :
  denotes m d n note → spells m p (Some origin) → denotes m k nk key →
  target m (WordSort, s) → target m (BufferSort, r) → s ≠ r →
  answered m (AskCheckpoint note origin key size) (CheckpointVerify d n p k nk s r).
Proof.
  intros Hd Hp Hk Ts Tr Hne. apply guard_matches.
  rewrite (target_given _ _ _ Ts), (target_given _ _ _ Tr).
  assert (is_null p = false) as -> by (destruct Hp as [H _]; by destruct p).
  pose proof (proj2 Hp) as Hutf. repeat ask_step; try web_refuses.
  split; [done|]. eexists (Sized _ _). split; [cbn; split; [|eassumption]|].
  - eapply wrote_keeps_word; [eassumption|done|eassumption].
  - cbn [expected on_the_web]. unfold verify_checkpoint. repeat web_known. cbn.
    match goal with H : verify_note _ _ _ _ = _ |- _ => rewrite H end. cbn.
    destruct (N.eqb_spec (csize a0) size) as [<-|Hs]; cbn; [by left|by right].
Qed.

(** C7. One implementation behind every surface. Put the same question to the C
    library, through pointers that denote its inputs and distinct live
    variables for its answer, and to the JavaScript bindings: encrypt for these
    recipients, open this container, sign, verify, answer this challenge, replay
    this identity log, look up this device, check this epoch chain, this proof,
    this pinned identity, this binding, this checkpoint. Whatever the input, one
    succeeds exactly when the other does and then they give the same answer. The
    only inputs set apart are those beyond the browser's 64 MiB and signing
    contexts beyond the C library's 4 KiB. *)
Theorem every_surface_agrees m q c :
  asks m q c → browser_sized q → Forall (target m) (outs c) → NoDup (outs c).*2 →
  ∃ code m', perform c m = Some (code, m') ∧
    ∀ a, on_the_web q = Ok a ∧ expected q a ↔ code = HIDE_OK ∧ shown m' (outs c) a ∧ expected q a.
Proof.
  intros As Hq T ND. change (answered m q c).
  destruct As as [| ???????? Hd Hp Hf Ht | | | | | | | | | | | | |];
    cbn [outs browser_sized List.filter] in T, ND, Hq; try rewrite Hf, Ht in T, ND;
    cbn [app] in T, ND; decompose_Forall_hyps; destruct_and?;
    eauto using encrypt_answered, decrypt_answered, sign_answered, verify_answered, answer_answered,
      identity_answered, device_answered, head_answered, epochs_answered, epoch_key_answered,
      inclusion_answered, consistency_answered, pinned_answered, bound_answered.
  apply NoDup_cons in ND as [ND _]. eapply checkpoint_answered; [done..|]. intros ->. cbn in ND. set_solver.
Qed.
End surfaces_agree.

(** ** A challenge answered on both surfaces *)
Module Samples.
Import Cbor.Reference Sign.Toy Crypto.Toy Keyring.Toy HexBase64 FirstFit.

Definition challenge : bytes := Challenge.encode (Challenge.Samples.ask 5).

Definition desk : Memory :=
  {| cells := {[ 1%positive := Owned (IdentityBox Challenge.Samples.identity);
                 2%positive := Foreign challenge; 3%positive := BufferVar hide_buffer_empty ]};
     freed := [] |}.

Definition question : Question := AskAnswer Challenge.Samples.identity challenge.
Definition call : Call := ChallengeAnswer (At 1 0) (At 2 0) (lenN challenge) (At 3 0).
End Samples.

Section surface_witness.
Import Cbor.Reference Sign.Toy Crypto.Toy Keyring.Toy HexBase64 FirstFit.
Import FfiWasm.Samples.

Lemma every_surface_agrees_witness :
  asks desk question call ∧
  ∃ code m', perform call desk = Some (code, m') ∧
    ∀ a, on_the_web question = Ok a ↔ code = HIDE_OK ∧ shown m' (outs call) a.
Proof.
  assert (Ha : asks desk question call).
  { apply asks_answer; [reflexivity|]. split; [reflexivity|]. right. vm_compute. reflexivity. }
  split; [exact Ha|].
  destruct (every_surface_agrees desk question call Ha) as (code & m' & E & H).
  - exact I.
  - apply Forall_singleton. exists 3%positive. by eexists.
  - apply NoDup_singleton.
  - exists code, m'. split; [exact E|]. intros a. specialize (H a). cbn [expected question] in H. tauto.
Defined.
End surface_witness.
