(* ===== verification/FfiFlows.v ===== *)
(** Whole flows through the C interface: what one call hands out, another takes. *)
From stdpp Require Import gmap.
From S2P Require Import Prelude Utf8 Cbor Format Sign Challenge Note Crypto Epoch Identity Stream.
From S2P Require Import Codec Records Object Keyring Armor Abi Ffi FfiClient Wasm FfiWasm.
Local Open Scope N_scope.

#[local] Existing Instance Hybrid.scheme.
#[local] Existing Instance Hybrid.scheme_laws.

(** ** Containers *)
Section lengths.
Context {P : Crypto.Primitives} {L : Crypto.PrimitivesLaws P}.

Lemma opened_length k n a c p : Crypto.open k n a c = Ok p → lenN c = lenN p + TAG_LENGTH.
Proof.
  unfold Crypto.open. intros H. inv_ok. b2p.
  match goal with H : aead_decrypt _ _ _ _ _ = Some _ |- _ => apply aead_decrypt_length in H end.
  unfold TAG_LENGTH in *. rewrite length_take in *. lia.
Qed.

(** A payload is longer than what it opens to. *)
Lemma opens_as_longer key id hh counter s ps :
  opens_as key id hh counter s ps → lenN (concat ps) < lenN s.
Proof.
  induction 1 as [counter c p Ho _ _|counter c p s ps Ho _ _ IH]; apply opened_length in Ho;
    unfold frame, TAG_LENGTH, u32be in *; cbn [concat]; rewrite ?length_app; cbn [length];
    rewrite ?length_app, length_be in *; cbn [length]; lia.
Qed.
End lengths.

(** A guarded body ends as its triple says. *)
Lemma guard_gives (body : Body Z) (Q : Z → Memory → Prop) m c m' :
  wp body Q Q m → guard body m = Some (c, m') → Q c m'.
Proof. unfold wp, guard. destruct (body m); naive_solver. Qed.

Lemma guard_ends (body : Body Z) (Q : Z → Memory → Prop) m :
  wp body Q Q m → ∃ c m', guard body m = Some (c, m') ∧ Q c m'.
Proof. unfold wp, guard. destruct (body m); naive_solver. Qed.

Section containers.
Context {C : Cbor} {CL : CborLaws C} {SP : Sign.Primitives} {SL : Sign.PrimitivesLaws SP}.
Context {P : Crypto.Primitives} {L : Crypto.PrimitivesLaws P}.
Context {A : Argon2} {U : Unicode} {X : Expand} {B : Base64} {G : Allocator} {GL : AllocatorLaws G}.

Abbreviation no_output := ({| written := []; schedule := [] |} : writer).

Definition named_metadata (filename media : option bytes) : Metadata :=
  {| Codec.filename := filename; Codec.media_type := media; meta_signature := None; meta_extensions := [] |}.

(** What a successful [hide_encrypt] did *)
Lemma encrypt_runs m w d n b r k rs f filename t media o m' :
  denotes m d n b → denotes m r (k * HIDE_PUBLIC_KEY_LEN) rs → spells m f filename →
  spells m t media → target m (BufferSort, o) →
  hide_encrypt w d n r k f t o m = Some (HIDE_OK, m') →
  ∃ keys count out, collect public_from_bytes (chunks_exact HIDE_PUBLIC_KEY_LEN rs) = Ok keys ∧
    Object.encrypt w (slice_reader b) no_output keys (named_metadata filename media) = Ok (count, out) ∧
    reads_buffer m' o out.(written).
Proof.
  intros Hd Hr Hf Ht T E.
  set (Q := λ (c : Z) (m' : Memory), c = HIDE_OK → ∃ keys count out,
    collect public_from_bytes (chunks_exact HIDE_PUBLIC_KEY_LEN rs) = Ok keys ∧
    Object.encrypt w (slice_reader b) no_output keys (named_metadata filename media) = Ok (count, out) ∧
    reads_buffer m' o out.(written)).
  eapply (guard_gives _ Q) in E; [by apply E|].
  rewrite (target_given _ _ _ T). repeat ask_step; unfold Q; try done.
  - intros _. simplify_eq. by eexists _, _, _.
  - intros F. exfalso. eapply refusal_nonzero; [apply refusal_object|exact F].
Qed.

(** [hide_decrypt], when the container opens *)
Lemma decrypt_runs m d n b p s o f t v w :
  denotes m d n b → box_at m p = Some (SecretBox s) → lenN b <= Ffi.MAX_INPUT →
  target m (BufferSort, f) → target m (BufferSort, t) → target m (BufferSort, o) → NoDup [f; t; o] →
  decrypt_to_staging (slice_reader b) no_output s = Ok (v, w) →
  ∃ m', hide_decrypt d n p o f t m = Some (HIDE_OK, m') ∧ reads_buffer m' o w.(written) ∧
    reads_buffer m' f (default [] v.(object_metadata).(Codec.filename)) ∧
    reads_buffer m' t (default [] v.(object_metadata).(Codec.media_type)).
Proof.
  intros Hd Hp Hb Tf Tt To ND E.
  set (Q := λ (c : Z) (m' : Memory), c = HIDE_OK ∧ reads_buffer m' o w.(written) ∧
    reads_buffer m' f (default [] v.(object_metadata).(Codec.filename)) ∧
    reads_buffer m' t (default [] v.(object_metadata).(Codec.media_type))).
  assert (∃ c m', hide_decrypt d n p o f t m = Some (c, m') ∧ Q c m') as (c & m' & H & -> & HQ);
    [|by exists m'].
  apply guard_ends. rewrite (target_given _ _ _ To), (box_given _ _ _ Hp).
  apply NoDup_cons in ND as [Nf ND]. apply NoDup_cons in ND as [Nt _].
  repeat ask_step; try done; b2p; try lia; [|congruence].
  match goal with H : decrypt_to_staging _ _ _ = _ |- _ => rewrite E in H end. simplify_eq.
  apply wp_optional_data; [done|]. intros m1 W1 R1.
  apply wp_optional_data; [by eapply wrote_target|]. intros m2 W2 R2.
  apply wp_emit_data; [eauto using wrote_target|]. intros m3 W3 R3.
  apply wp_ret. split_and!; [done..| |];
    repeat (eapply wrote_keeps_buffer; [eassumption|cbn; set_solver|]); done.
Qed.

(** The container is longer than the plaintext, whoever made it. *)
Lemma container_longer material stanzas metadata p id container preamble h protected mac :
  container_of material stanzas metadata p id container preamble h protected mac →
  lenN p < lenN container.
Proof.
  intros [(outer & payload & key & -> & _ & _ & _ & Ho) _ _ _ _ _ _ _].
  apply opens_as_longer in Ho. rewrite (proj2 (chunks_chunked p)) in Ho.
  rewrite !length_app. lia.
Qed.

(** C18. What one program encrypts through the C library, another opens through
    it. When [hide_encrypt] answers [HIDE_OK], its buffer holds a container
    longer than the plaintext; wherever that container is passed to
    [hide_decrypt] with a handle on a secret key of one of the recipients and
    three distinct variables, the call answers [HIDE_OK] and the variables hold
    the plaintext, the filename and the media type, the last two empty when
    there was none, provided the container itself is within the library's 1 GiB.
    (The one alternative is a second content key that the same secret unwraps
    from this header under the same MAC.) *)
Theorem container_crosses_the_abi m draw d n p r k rs f filename t media o m1 :
  denotes m d n p → denotes m r (k * HIDE_PUBLIC_KEY_LEN) rs → spells m f filename →
  spells m t media → target m (BufferSort, o) → draws_sized draw →
  hide_encrypt draw d n r k f t o m = Some (HIDE_OK, m1) →
  ∃ keys container preamble h protected mac c,
    collect public_from_bytes (chunks_exact HIDE_PUBLIC_KEY_LEN rs) = Ok keys ∧
    reads_buffer m1 o container ∧ lenN p < lenN container ∧ draw 0%nat = Some c ∧
    ∀ m2 d2 s secret key o2 f2 t2,
      denotes m2 d2 (lenN container) container → box_at m2 s = Some (SecretBox secret) →
      Crypto.public_key secret = Ok key → key ∈ keys → NoDup [f2; t2; o2] →
      Forall (λ v, target m2 (BufferSort, v)) [f2; t2; o2] → lenN container <= Ffi.MAX_INPUT →
      (∃ m3, hide_decrypt d2 (lenN container) s o2 f2 t2 m2 = Some (HIDE_OK, m3) ∧
         reads_buffer m3 o2 p ∧ reads_buffer m3 f2 (default [] filename) ∧
         reads_buffer m3 t2 (default [] media)) ∨
      second_key secret h (Preamble.encode preamble) protected mac {| content_key := c |}.
Proof.
  intros Hd Hr Hf Ht T D E.
  destruct (encrypt_runs _ _ _ _ _ _ _ _ _ _ _ _ _ _ Hd Hr Hf Ht T E) as (keys & count & out & Hk & He & Ho).
  assert (metadata_typed (named_metadata filename media)) as Tm.
  { split; cbn; [intros g ->; by destruct Hf|intros g ->; by destruct Ht|constructor]. }
  destruct (slice_reader_live p) as [Lp Cp].
  destruct (encrypt_for_writes _ (slice_reader p) no_output keys _ None _ _ Lp ltac:(constructor) Tm eq_refl
    D I He) as (material & stanzas & container & preamble & h & protected & mac & Hdm & Hms & Hw & -> & Ew & Hc).
  rewrite Cp in Hc. cbn [written app] in Ew. rewrite Ew in Ho.
  exists keys, container, preamble, h, protected, mac, material.(cek).(content_key).
  split_and!; [done|done|by eapply container_longer| |].
  { unfold draw_material, generate_content_key, random_array in Hdm. by inv_ok. }
  intros m2 d2 s secret key o2 f2 t2 Hd2 Hs2 Hpk Hin ND Tv Hlen. rewrite !Forall_cons in Tv.
  destruct Tv as (Tf & Tt & To & _).
  destruct (wrap_stanzas_reach _ _ _ _ _ _ Hms Hw Hpk Hin) as (st & Hst & Hun).
  destruct (slice_reader_live container) as [Lc Cc].
  destruct (container_opens _ _ _ _ _ _ _ _ _ _ _ _ _ no_output Hms Hc Hst Hun Lc ltac:(constructor) Cc)
    as [(md & w2 & Hdec & Hw2 & Hm)|Hx]; [left|right; by destruct (cek material)].
  destruct (decrypt_runs m2 d2 _ container s secret o2 f2 t2 _ _ Hd2 Hs2 Hlen Tf Tt To ND Hdec)
    as (m3 & E3 & Ro & Rf & Rt).
  exists m3. cbn [written app object_metadata] in *. rewrite Hw2 in Ro.
  destruct md as [g t' sg ex]. unfold unsigned_metadata, named_metadata in Hm. by simplify_eq/=.
Qed.
End containers.

(** The library takes a plaintext of 1 GiB and no container of more than that;
    the container of such a plaintext is one. *)
Lemma oversized_container_refused `{C : Cbor, SP : Sign.Primitives, P : Crypto.Primitives, G : Allocator}
    m d b p o f t :
  denotes m d (lenN b) b → Ffi.MAX_INPUT < lenN b → is_null p = false → is_null o = false →
  hide_decrypt d (lenN b) p o f t m = Some (HIDE_ERR_INVALID_ARGUMENT, m).
Proof.
  intros Hd Hb Hp Ho.
  assert (∃ c m', hide_decrypt d (lenN b) p o f t m = Some (c, m') ∧ c = HIDE_ERR_INVALID_ARGUMENT ∧ m' = m)
    as (? & ? & H & -> & ->); [|done].
  apply (guard_ends _ (λ c m', c = HIDE_ERR_INVALID_ARGUMENT ∧ m' = m)). rewrite Hp, Ho.
  apply wp_bind, wp_return_if; [intros _|done]. apply wp_bind. eapply wp_borrow_denotes; [done|].
  by rewrite (proj2 (N.ltb_lt _ _) Hb).
Qed.

(** ** Challenges *)
Section challenges.
Context {C : Cbor} {SP : Sign.Primitives} {SL : Sign.PrimitivesLaws SP} {P : Crypto.Primitives}.
Context {A : Argon2} {U : Unicode} {X : Expand} {B : Base64} {G : Allocator} {GL : AllocatorLaws G}.

(** One answer put to a verifier, and what it was told *)
Record Visit := {
  asked : bytes; signed : bytes; key_shown : bytes; at_time : N; told : Z;
}.

(** A verifier's day: any number of answers put to [hide_challenge_accept] with
    a handle on the same record, whatever else happens to the memory between
    them as long as the record is left as the last call left it. *)
Inductive session : SpentNonces → list Visit → Prop :=
| session_over seen : session seen []
| session_visit seen m p d n s ns k nk v m' seen' vs :
    box_at m p = Some (NoncesBox seen) → denotes m d n v.(asked) → denotes m s ns v.(signed) →
    denotes m k nk v.(key_shown) →
    hide_challenge_accept p d n s ns k nk v.(at_time) m = Some (v.(told), m') →
    box_at m' p = Some (NoncesBox seen') → session seen' vs → session seen (v :: vs).

Fixpoint on_the_clock (from : N) (vs : list Visit) : Prop :=
  match vs with [] => True | v :: vs => from <= v.(at_time) ∧ on_the_clock v.(at_time) vs end.

(** What an accepted visit showed *)
Definition admitted (v : Visit) (c : Challenge) : Prop :=
  Challenge.decode v.(asked) = Ok c ∧ v.(at_time) <= expires_at c ∧
  ∃ key, vk_from_bytes v.(key_shown) = Ok key ∧
    Sign.verify key CHALLENGE_CONTEXT (to_signed_bytes c) v.(signed) = Ok tt.

Definition visited (seen : SpentNonces) (v : Visit) (code : Z) (seen' : SpentNonces) : Prop :=
  code ≠ HIDE_OK ∧ (seen' = seen ∨ ∃ c s k, seen' = (Challenge.accept seen c s k v.(at_time)).2) ∨
  code = HIDE_OK ∧ ∃ c k, Challenge.decode v.(asked) = Ok c ∧ vk_from_bytes v.(key_shown) = Ok k ∧
    Challenge.accept seen c v.(signed) k v.(at_time) = (Ok tt, seen').

Lemma wp_record_value m l x s (Q : unit → Memory → Prop) R :
  m.(cells) !! l = Some (Owned (NoncesBox x)) → Q tt (set_cell l (Owned (NoncesBox s)) m) →
  wp (write_record (At l 0) s) Q R m.
Proof.
  intros Hl H. unfold wp, write_record. by rewrite (write_var_done m RecordSort l _ _ Hl eq_refl).
Qed.

Lemma visit_runs seen m p d n s ns k nk v m' seen' code :
  box_at m p = Some (NoncesBox seen) → denotes m d n v.(asked) → denotes m s ns v.(signed) →
  denotes m k nk v.(key_shown) →
  hide_challenge_accept p d n s ns k nk v.(at_time) m = Some (code, m') →
  box_at m' p = Some (NoncesBox seen') → visited seen v code seen'.
Proof.
  intros Hp Hd Hs Hk E. revert code m' seen' E.
  set (Q := λ (code : Z) (m' : Memory), ∀ seen', box_at m' p = Some (NoncesBox seen') →
    visited seen v code seen').
  intros code m' seen' E. revert seen'. eapply (guard_gives _ Q); [|exact E]. clear E.
  rewrite (box_given _ _ _ Hp).
  assert (Same : ∀ code, code ≠ HIDE_OK → Q code m).
  { intros c Hc seen' Hp'. left. split; [done|left]. congruence. }
  assert (Hl : ∃ l, p = At l 0 ∧ m.(cells) !! l = Some (Owned (NoncesBox seen))).
  { unfold box_at in Hp. destruct p as [| |l [|]]; try done. exists l. repeat case_match; naive_solver. }
  destruct Hl as (l & -> & Hl).
  repeat ask_step; try (by apply Same).
  match goal with H : Challenge.accept _ _ _ _ _ = _ |- _ => rename H into Ha end.
  eapply wp_record_value; [exact Hl|]. apply wp_bind, wp_ok_or_return.
  - intros [] ->. apply wp_ret. intros seen' Hp'. right. split; [done|].
    cbn in Hp'. rewrite lookup_insert_eq in Hp'. simplify_eq. by eexists _, _.
  - intros e ->. intros seen' Hp'. left. split; [apply refusal_nonzero, refusal_challenge|right].
    cbn in Hp'. rewrite lookup_insert_eq in Hp'. simplify_eq. eexists _, _, _. by rewrite Ha.
Qed.
Lemma session_after_entry seen vs e j v c from :
  session seen vs → on_the_clock from vs → e ∈ seen → vs !! j = Some v → v.(told) = HIDE_OK →
  Challenge.decode v.(asked) = Ok c → c.(Challenge.nonce) = e.1 → e.2 < v.(at_time).
Proof.
  intros S. revert e j v c from. induction S as [|seen m p d n s ns k nk v0 m' seen' vs Hp Hd Hs Hk E Hp' S IH];
    intros e j v c from Hclk He Hj Hok Hdec Hn; [done|].
  pose proof (visit_runs _ _ _ _ _ _ _ _ _ _ _ _ _ Hp Hd Hs Hk E Hp') as V.
  destruct Hclk as [_ Hclk]. destruct (N.lt_ge_cases e.2 v0.(at_time)) as [Hlt|Hge].
  - destruct j as [|j]; cbn in Hj; simplify_eq; [done|].
    assert (v0.(at_time) <= v.(at_time)); [|lia].
    clear -Hclk Hj. revert j Hj Hclk. generalize (v0.(at_time)).
    induction vs as [|w vs IH]; intros t [|j]; cbn; [done..|naive_solver|].
    intros Hj [? H]. specialize (IH _ _ Hj H). lia.
  - destruct j as [|j]; cbn in Hj.
    + injection Hj as ->. destruct V as [[Hne _]|(_ & c' & k' & Hc & _ & Ha)]; [done|].
      rewrite Hdec in Hc. injection Hc as <-.
      assert ((Challenge.accept seen c v.(signed) k' v.(at_time)).1 = Ok tt) as Hok1 by by rewrite Ha.
      apply accept_Ok_iff in Hok1 as (_ & _ & H). by apply H.
    + eapply IH; [exact Hclk| |done..].
      destruct V as [[_ [->|(c' & s' & k' & ->)]]|(_ & c' & k' & _ & _ & Ha)]; [done|by apply accept_keeps|].
      replace seen' with (Challenge.accept seen c' v0.(signed) k' v0.(at_time)).2 by by rewrite Ha.
      by apply accept_keeps.
Qed.

Lemma session_admits seen vs i v :
  session seen vs → vs !! i = Some v → v.(told) = HIDE_OK → ∃ c, admitted v c.
Proof.
  intros S. revert i v. induction S as [|seen m p d n s ns k nk v0 m' seen' vs Hp Hd Hs Hk E Hp' S IH];
    intros [|i] v Hi Hok; [done..| |by eapply IH].
  injection Hi as ->.
  destruct (visit_runs _ _ _ _ _ _ _ _ _ _ _ _ _ Hp Hd Hs Hk E Hp') as [[Hne _]|(_ & c & k' & Hc & Hkey & Ha)];
    [done|]. exists c. split; [done|].
  assert ((Challenge.accept seen c v.(signed) k' v.(at_time)).1 = Ok tt) as Hok1 by by rewrite Ha.
  apply accept_Ok_iff in Hok1 as (Ht & [[] Hv]%is_ok_true_iff & _). eauto.
Qed.

(** C19. A challenge is answered once across the C library too. In any session
    of answers put to [hide_challenge_accept] against one record, on a clock
    that does not run backwards: each [HIDE_OK] means the bytes were a
    challenge, still valid, and the signature over it verifies under the key
    that was shown; and of two visits that were told [HIDE_OK] for one nonce,
    the second came after the first challenge had expired, so it was for
    another challenge. *)
Theorem abi_challenge_once seen vs from :
  session seen vs → on_the_clock from vs →
  (∀ i v, vs !! i = Some v → v.(told) = HIDE_OK → ∃ c, admitted v c) ∧
  ∀ i j vi vj ci cj, (i < j)%nat → vs !! i = Some vi → vs !! j = Some vj →
    vi.(told) = HIDE_OK → vj.(told) = HIDE_OK → admitted vi ci → admitted vj cj →
    cj.(Challenge.nonce) = ci.(Challenge.nonce) → expires_at ci < vj.(at_time) ∧ cj ≠ ci.
Proof.
  intros S Hclk. split; [intros; by eapply session_admits|].
  intros i j vi vj ci cj Hij Hi Hj Hoi Hoj (Hci & Hti & _) (Hcj & Htj & _) Hn.
  assert (expires_at ci < vj.(at_time)) as Hlt; [|split; [done|intros ->; lia]].
  clear Htj. revert from i j Hclk Hij Hi Hj. induction S as [|seen m p d n s ns k nk v0 m' seen' vs Hp Hd Hs Hk E Hp' S IH];
    intros from i j Hclk Hij Hi Hj; [done|]. destruct Hclk as [_ Hclk].
  destruct j as [|j]; [lia|]. cbn in Hj. destruct i as [|i]; cbn in Hi.
  - injection Hi as ->. eapply (session_after_entry seen' vs (ci.(Challenge.nonce), expires_at ci)); try done.
    destruct (visit_runs _ _ _ _ _ _ _ _ _ _ _ _ _ Hp Hd Hs Hk E Hp') as [[Hne _]|(_ & c & k' & Hc & _ & Ha)]; [done|].
    rewrite Hci in Hc. injection Hc as <-.
    replace seen' with (Challenge.accept seen ci vi.(signed) k' vi.(at_time)).2 by by rewrite Ha.
    apply accept_records. by rewrite Ha.
  - eapply IH; [done| |done..]. lia.
Qed.
End challenges.

(** A challenge for an audience of more than 4 KiB is made, but no surface reads
    it back. *)
Lemma long_audience_unanswerable `{SP : Sign.Primitives} random audience now valid_for b i :
  new_challenge random audience now valid_for = Ok b → MAX_CHALLENGE < lenN audience →
  identity_answer i b = Err (Says (text "that is too large to be a HIDE challenge")).
Proof.
  unfold new_challenge. intros H Ha. inv_ok. unfold identity_answer, decode_challenge.
  rewrite (proj2 (N.ltb_lt _ _)); [done|].
  match goal with H : Challenge.new _ _ _ _ = Ok _ |- _ => unfold Challenge.new in H end. inv_ok.
  unfold Challenge.encode, to_signed_bytes. cbn [Challenge.nonce Challenge.audience]. rewrite !length_app. lia.
Qed.

(** ** A container and a challenge through the C library *)
Module Samples.
Import Cbor.Reference Sign.Toy Crypto.Toy Keyring.Toy HexBase64 FirstFit.

Definition key : bytes := public_to_bytes Crypto.Samples.public.

Definition sender : Memory :=
  {| cells := {[ 1%positive := Foreign (text "hello"); 2%positive := Foreign key;
                 3%positive := Foreign (text "a.txt" ++ [Byte.x00]);
                 4%positive := BufferVar hide_buffer_empty ]};
     freed := [] |}.

Definition sending : option (Z * Memory) :=
  hide_encrypt Object.Samples.draw (At 1 0) 5 (At 2 0) 1 (At 3 0) Null (At 4 0) sender.

Definition sent : Memory := match sending with Some (_, m) => m | None => sender end.

Definition sending_ok : bool :=
  match sending with Some (code, _) => Z.eqb code HIDE_OK | None => false end.

Lemma it_was_sent : sending_ok = true.
Proof. vm_compute. reflexivity. Qed.

(** A verifier with a record, and the visitor's answer in its memory. *)
Definition asked : bytes := Challenge.encode (Challenge.Samples.ask 5).
Definition signed : bytes := answer (Challenge.Samples.ask 5) Challenge.Samples.identity.
Definition shown : bytes := vk_to_bytes (Sign.verifying_key (SignatureScheme := Hybrid.scheme) Challenge.Samples.identity).

Definition verifier (seen : SpentNonces) : Memory :=
  {| cells := {[ 1%positive := Owned (NoncesBox seen); 2%positive := Foreign asked;
                 3%positive := Foreign signed; 4%positive := Foreign shown ]};
     freed := [] |}.

Definition visit (now : N) (seen : SpentNonces) : option (Z * Memory) :=
  hide_challenge_accept (At 1 0) (At 2 0) (lenN asked) (At 3 0) (lenN signed) (At 4 0) (lenN shown)
    now (verifier seen).

Definition outcome (now : N) (seen : SpentNonces) : Z * SpentNonces :=
  match visit now seen with
  | Some (code, m) => (code, match box_at m (At 1 0) with Some (NoncesBox s) => s | _ => [] end)
  | None => (HIDE_ERR_PANIC, seen)
  end.

Definition first := outcome 7 no_nonces.
Definition second := outcome 8 first.2.

Definition a_visit (now : N) (code : Z) : Visit :=
  {| FfiFlows.asked := asked; FfiFlows.signed := signed; key_shown := shown; at_time := now; told := code |}.

Definition visits : list Visit := [a_visit 7 first.1; a_visit 8 second.1].

Definition defined (now : N) (seen : SpentNonces) : bool :=
  match visit now seen with
  | Some (_, m) => match box_at m (At 1 0) with Some (NoncesBox _) => true | _ => false end
  | None => false
  end.

(** The first visit is admitted, the same answer a second later is not. *)
Definition once : bool :=
  defined 7 no_nonces && defined 8 first.2 && Z.eqb first.1 HIDE_OK &&
  Z.eqb second.1 HIDE_ERR_CHALLENGE_REPLAYED.

Lemma it_was_once : once = true.
Proof. vm_compute. reflexivity. Qed.
End Samples.

Section flow_witnesses.
Import Cbor.Reference Sign.Toy Crypto.Toy Keyring.Toy HexBase64 FirstFit.
Import FfiFlows.Samples.

Lemma sending_runs : sending = Some (HIDE_OK, sent).
Proof.
  pose proof it_was_sent as H. unfold sending_ok, sent in *. destruct sending as [[code m]|]; [|done].
  by apply Z.eqb_eq in H as ->.
Qed.

Lemma container_crosses_the_abi_witness :
  ∃ container, reads_buffer sent (At 4 0) container ∧ 5 < lenN container.
Proof.
  destruct (container_crosses_the_abi sender Object.Samples.draw (At 1 0) 5 (text "hello")
    (At 2 0) 1 key (At 3 0) (Some (text "a.txt")) Null None (At 4 0) sent) as (ks & c & H).
  - split; [reflexivity|right; reflexivity].
  - split; [vm_compute; reflexivity|right; vm_compute; reflexivity].
  - split; reflexivity.
  - reflexivity.
  - exists 4%positive. by eexists.
  - apply sample_draws.
  - apply sending_runs.
  - destruct H as (p & h & pr & mac & k & _ & H & Hl & _). exists c. split; [exact H|exact Hl].
Defined.

Lemma visit_made now seen vs :
  defined now seen = true → session (outcome now seen).2 vs →
  session seen (a_visit now (outcome now seen).1 :: vs).
Proof.
  unfold defined, outcome. destruct (visit now seen) as [[code m]|] eqn:E; [|done].
  destruct (box_at m (At 1 0)) as [[]|] eqn:Eb; try done. intros _ S. cbn [fst snd] in *.
  eapply session_visit; [| | | |exact E|exact Eb|exact S]; cbn [FfiFlows.asked FfiFlows.signed key_shown a_visit].
  - reflexivity.
  - split; [done|right; vm_compute; reflexivity].
  - split; [done|right; vm_compute; reflexivity].
  - split; [done|right; vm_compute; reflexivity].
Qed.

Lemma abi_challenge_once_witness :
  once = true ∧ ∃ c, admitted (a_visit 7 HIDE_OK) c.
Proof.
  pose proof it_was_once as H. split; [exact H|]. unfold once in H. b2p.
  assert (S : session no_nonces visits) by (repeat (apply visit_made; [done|]); constructor).
  assert (T : on_the_clock 7 visits) by (cbn; lia).
  destruct (abi_challenge_once no_nonces visits 7 S T) as [A _].
  destruct (A 0%nat (a_visit 7 first.1) eq_refl) as [c Hc]; [|exists c].
  - by apply Z.eqb_eq.
  - destruct Hc as (Hd & Ht & Hk). split; [exact Hd|]. split; [exact Ht|exact Hk].
Defined.
End flow_witnesses.
