(* ===== verification/Desktop.v ===== *)
(** [hide-desktop/src-tauri/src/lib.rs]: the commands behind the window. They
    create their output under its own name and fill it there, or fill a file
    beside it that is renamed; a passphrase is an argument, not a prompt. *)
From Stdlib Require Import Strings.Byte.
From stdpp Require Import gmap.
From S2P Require Import Prelude Utf8 Cbor Format Sign Note Crypto Stream Records Codec Object Keyring.
From S2P Require Import EpochCli Armor FileSystem FileCli.
Local Open Scope N_scope.

#[local] Existing Instance Hybrid.scheme.

Definition PUBLIC_KEY_LEN : N := 1216.
Definition MAX_KEY_FILE : N := 4096.
Definition MAX_MESSAGE_LEN : N := 1048576.

(** What is shown to the person: a sentence, or a sentence and a cause. *)
Inductive DesktopError :=
| Says (sentence : bytes)
| System (context : bytes)
| Keys (context : bytes) (e : KeyringError)
| Cryptography (context : bytes) (e : CryptoError)
| Containers (context : bytes) (e : ObjectError).

Abbreviation Command := (Cmd DesktopError).

(** What the machine decides besides: whether the [i]th creation is allowed, what
    is left of a file whose writing failed, and whether a rename and a removal
    work. *)
Record Desk := {
  machine : Env;
  creates : N → bool;
  leftover : N → bytes;
  renames : bool;
  removes : bool;
}.

(** * Paths *)

(** [directory.join(name)], for a name that is no absolute path *)
Definition join (directory name : bytes) : bytes :=
  if bool_decide (directory = []) || bool_decide (last directory = Some slash) then directory ++ name
  else directory ++ [slash] ++ name.

Definition dot : byte := byte_of 46.

(** A name's bytes up to its last dot and after it. *)
Definition rsplit_dot (name : bytes) : option (bytes * bytes) :=
  match list_find (λ b, b = dot) (rev name) with
  | Some (i, _) => Some (take (length name - S i) name, drop (length name - i) name)
  | None => None
  end.

(** [path.file_stem()] of a file name; a leading dot starts no extension. *)
Definition file_stem (name : bytes) : bytes :=
  match rsplit_dot name with Some (_ :: _ as stem, _) => stem | _ => name end.

(** The file that [path.with_extension(extension)] names. *)
Definition with_extension (p extension : bytes) : list bytes :=
  match file_name p with
  | Some name => removelast (location p) ++ [file_stem name ++ [dot] ++ extension]
  | None => location p
  end.

(** * Steps *)
Section desktop.
Context {C : Cbor} {SP : Sign.Primitives} {P : Crypto.Primitives}.
Context {A : Argon2} {U : Unicode} {X : Expand} {B : Base64} (desk : Desk).

Abbreviation env := desk.(machine).

Definition read_bounded (p : bytes) (limit : N) : Command bytes := λ fs,
  (b ← ok_or (fs !! location p) (System (text "could not open the file"));
   refuse_if (limit <? lenN b) (Says (text "that file is too large to be a HIDE key"));;
   Ok b, fs).

Definition open_input (p : bytes) : Command bytes := λ fs,
  (ok_or (fs !! location p) (System (text "could not open the input")), fs).

(** [create_new], the [i]th of the command *)
Definition create_new (i : N) (at_ : list bytes) : Command unit := λ fs,
  let fs := env.(others) i fs in
  match fs !! at_ with
  | Some _ => (Err (Says (text "that file already exists; choose another name")), fs)
  | None =>
      if desk.(creates) i then (Ok tt, <[at_ := []]> fs)
      else (Err (System (text "could not create the file")), fs)
  end.

(** Writing the file just created, up to its [flush] or [sync_all] *)
Definition fill {T} (i : N) (at_ : list bytes) (context : bytes) (r : result DesktopError (T * bytes))
  : Command T := λ fs,
  match r with
  | Ok (a, b) =>
      if env.(synced) i then (Ok a, <[at_ := b]> fs)
      else (Err (System context), <[at_ := desk.(leftover) i]> fs)
  | Err e => (Err e, <[at_ := desk.(leftover) i]> fs)
  end.

(** [file.write_all(bytes)] *)
Definition whole (context b : bytes) : result DesktopError (unit * bytes) :=
  b ← map_err (λ _, System context) (stage env [b]); Ok (tt, b).

(** [std::fs::rename], which replaces what it finds *)
Definition rename (i : N) (from to : list bytes) : Command unit := λ fs,
  let fs := env.(others) i fs in
  match fs !! from with
  | Some b =>
      if desk.(renames) then (Ok tt, <[to := b]> (delete from fs))
      else (Err (System (text "could not publish the output")), fs)
  | None => (Err (System (text "could not publish the output")), fs)
  end.

(** [let _ = std::fs::remove_file(_)] *)
Definition remove_file (at_ : list bytes) : Command unit := λ fs,
  (Ok tt, if desk.(removes) then delete at_ fs else fs).

(** [match result], with the files as the computation left them *)
Definition attempt {T V} (m : Command T) (k : result DesktopError T → Command V) : Command V := λ fs,
  let '(r, fs) := m fs in k r fs.

Definition load_public (p : bytes) : Command RecipientPublic :=
  b ← read_bounded p MAX_KEY_FILE;
  raw ← lift (if starts_with PUBLIC_PREFIX b
              then refuse_if (negb (utf8_valid b)) (Says (text "that public key file is not valid text"));;
                   map_err (Keys (text "public key")) (decode_public b)
              else Ok b);
  lift (refuse_if (negb (lenN raw =? PUBLIC_KEY_LEN)) (Says (text "that file is not a HIDE public key")));;
  lift (map_err (Cryptography (text "public key")) (public_from_bytes raw)).

Definition load_secret (p : bytes) (passphrase : option bytes) : Command RecipientSecret :=
  b ← read_bounded p MAX_KEY_FILE;
  lift (refuse_if (match inspect b, passphrase with Protected, None => true | _, _ => false end)
    (Says (text "this key is protected; enter its passphrase")));;
  lift (map_err (Keys []) (open_key b passphrase)).

Fixpoint load_each (paths : list bytes) : Command (list RecipientPublic) :=
  match paths with
  | [] => mret []
  | path :: paths => key ← load_public path; keys ← load_each paths; mret (key :: keys)
  end.

Definition load_recipients (paths : list bytes) : Command (list RecipientPublic) :=
  lift (refuse_if (bool_decide (paths = []) || (64 <? lenN paths))
    (Says (text "choose between 1 and 64 recipients")));;
  load_each paths.

(** * Commands *)
Record KeyPair := {
  public_path : bytes;
  secret_path : bytes;
  armored_public : bytes;
  protected : bool;
}.

(** [name.contains(['/', '\\', ':']) || name.starts_with('.')] *)
Definition improper (name : bytes) : bool :=
  existsb (λ b, existsb (λ c, bool_decide (b = c)) (map byte_of [47; 92; 58])) name
  || starts_with [dot] name.

Definition generate_keys (directory name : bytes) (passphrase : option bytes) : Command KeyPair :=
  let name := trim name in
  lift (refuse_if (bool_decide (name = [])) (Says (text "choose a name for the key")));;
  lift (refuse_if (improper name) (Says (text "the name may not contain a path or start with a dot")));;
  let secret_path := join directory (name ++ text ".hide-key") in
  let public_path := join directory (name ++ text ".hide-pub") in
  identity ← lift (map_err (Keys []) (generate_identity (env.(random) 0)));
  secret ← lift (map_err (Keys []) (recipient_secret identity));
  public ← lift (map_err (Cryptography (text "key generation")) (Crypto.public_key secret));
  let public := public_to_bytes public in
  sealed ← (match passphrase with
            | Some passphrase =>
                lift (map_err (Keys []) (protect_identity identity.(Keyring.seed) passphrase
                  (env.(random) 1) (env.(random) 2)))
            | None => mret identity.(Keyring.seed)
            end);
  let failed := text "could not write the secret key" in
  create_new 0 (location secret_path);;
  fill 0 (location secret_path) failed (whole failed sealed);;
  let failed := text "could not write the public key" in
  create_new 1 (location public_path);;
  fill 1 (location public_path) failed (whole failed public);;
  mret {| public_path := public_path; secret_path := secret_path;
          armored_public := encode_public public;
          protected := match passphrase with Some _ => true | None => false end |}.

Definition sink_for (w : result ObjectError (N * writer)) (context : bytes)
  : result DesktopError (N * bytes) :=
  '(n, w) ← map_err (Containers context) w; Ok (n, w.(written)).

Definition encrypt_file (input : bytes) (recipients : list bytes) (output : bytes)
  : Command (N * N) :=
  keys ← load_recipients recipients;
  name ← lift (ok_or (file_name input) (Says (text "that filename cannot be represented as text")));
  lift (refuse_if (negb (utf8_valid name)) (Says (text "that filename cannot be represented as text")));;
  let metadata := {| filename := Some name; media_type := None; meta_signature := None;
                     meta_extensions := [] |} in
  b ← open_input input;
  create_new 0 (location output);;
  let failed := text "encryption failed" in
  n ← fill 0 (location output) failed
        (sink_for (encrypt env.(FileSystem.random) (env.(reading) 0 b) (staging env) keys metadata) failed);
  mret (n, lenN keys).

Definition decrypt_file (input secret : bytes) (passphrase : option bytes) (output : bytes)
  : Command VerifiedObject :=
  secret ← load_secret secret passphrase;
  b ← open_input input;
  let staging_file := with_extension output (text "hide-part") in
  create_new 0 staging_file;;
  let failed := text "decryption failed" in
  attempt
    (fill 0 staging_file failed
      ('(v, w) ← map_err (Containers failed)
                   (decrypt_to_staging (env.(reading) 0 b) (staging env) secret);
       Ok (v, w.(written))))
    (λ result,
      match result with
      | Ok verified => rename 1 staging_file (location output);; mret verified
      | Err error => remove_file staging_file;; lift (Err error)
      end).

Definition seal_message (message : bytes) (recipients : list bytes) : Command bytes :=
  lift (refuse_if (bool_decide (message = [])) (Says (text "write a message first")));;
  lift (refuse_if (MAX_MESSAGE_LEN <? lenN message)
    (Says (text "that message is too long; encrypt it as a file instead")));;
  keys ← load_recipients recipients;
  let metadata := {| filename := None; media_type := Some (text "text/plain");
                     meta_signature := None; meta_extensions := [] |} in
  '(_, w) ← lift (map_err (Containers (text "encryption failed"))
              (encrypt env.(FileSystem.random) (slice_reader message) {| written := []; schedule := [] |}
                 keys metadata));
  mret (armor_message w.(written)).

Definition unseal_message (armored secret : bytes) (passphrase : option bytes) : Command bytes :=
  container ← lift (map_err (λ e, Says match e with
                      | NoMessage => text "no HIDE message found in that text"
                      | _ => text "that message is damaged or incomplete" end)
                    (dearmor_message armored));
  secret ← load_secret secret passphrase;
  '(_, w) ← lift (map_err (Containers (text "decryption failed"))
      (decrypt_to_staging (slice_reader container) {| written := []; schedule := [] |} secret));
  lift (refuse_if (negb (utf8_valid w.(written)))
    (Says (text "this is not a text message; open it as a file instead")));;
  mret w.(written).

(** What a file is said to be; a stored secret key comes with a warning when it
    is not protected. *)
Inductive Description :=
| SecretKey (is_protected : bool)
| PublicKey
| Container (major minor size : N).

Definition describe_container (p : bytes) : Command Description :=
  b ← (λ fs, (ok_or (fs !! location p) (System (text "could not open the file")), fs));
  let unknown := Says (text "that file is not a HIDE container or key") in
  '(preamble, _) ← lift (map_err (λ _, unknown) (read_exact 16 (env.(reading) 0 b)));
  lift (refuse_if (negb (bool_decide (take 8 preamble = Format.MAGIC))) unknown);;
  mret (Container (byte_at 8 preamble) (byte_at 9 preamble) (lenN b)).

Definition describe (p : bytes) : Command Description := λ fs,
  match read_bounded p MAX_KEY_FILE fs with
  | (Ok b, fs) =>
      match inspect b with
      | Protected => (Ok (SecretKey true), fs)
      | Raw =>
          if lenN b =? 32 then (Ok (SecretKey false), fs)
          else if lenN b =? PUBLIC_KEY_LEN then (Ok PublicKey, fs)
          else describe_container p fs
      end
  | (Err _, fs) => describe_container p fs
  end.

Definition read_public_armor (p : bytes) : Command bytes :=
  b ← read_bounded p MAX_KEY_FILE;
  lift (refuse_if (negb (lenN b =? PUBLIC_KEY_LEN)) (Says (text "that file is not a HIDE public key")));;
  lift (map_err (Cryptography (text "public key")) (public_from_bytes b));;
  mret (encode_public b).
End desktop.

(** * Paths of the key pair *)
Lemma split_slash_app piece a f :
  split_slash piece (a ++ [slash] ++ f) = split_slash piece a ++ split_slash [] f.
Proof.
  revert piece. induction a as [|b a IH]; intros piece; cbn [app split_slash].
  - by rewrite bool_decide_eq_true_2.
  - case_bool_decide; cbn [app] in *; [by rewrite IH|apply IH].
Qed.

Lemma split_slash_name piece f : slash ∉ f → split_slash piece f = [piece ++ f].
Proof.
  revert piece. induction f as [|b f IH]; intros piece; cbn [split_slash]; [by rewrite app_nil_r|].
  intros [Hb Hf]%not_elem_of_cons. rewrite bool_decide_eq_false_2, IH by done. by rewrite <- app_assoc.
Qed.

Lemma location_parts p :
  location p = (if starts_with [slash] p then [text "/"] else []) ++ List.filter is_normal (split_slash [] p).
Proof.
  unfold location, components. rewrite List.filter_app. f_equal.
  - destruct (starts_with [slash] p); [done|]. by case_bool_decide.
  - induction (split_slash [] p) as [|c l IH]; [done|]. cbn [List.filter]. unfold is_normal in *.
    destruct (decide (c = [])) as [->|]; [done|]. destruct (decide (c = text ".")) as [->|]; [done|].
    rewrite !bool_decide_eq_false_2 by done. cbn [negb andb List.filter].
    by rewrite bool_decide_eq_false_2, IH by done.
Qed.

Lemma starts_slash_app a f : a ≠ [] → starts_with [slash] (a ++ f) = starts_with [slash] a.
Proof. by destruct a as [|x []]. Qed.

Lemma location_join directory name :
  slash ∉ name → is_normal name = true → location (join directory name) = location directory ++ [name].
Proof.
  intros Hs Hn. unfold join.
  assert (F : ∀ l, List.filter is_normal (l ++ [name]) = List.filter is_normal l ++ [name]).
  { intros l. rewrite List.filter_app. cbn. by rewrite Hn. }
  destruct (decide (directory = [])) as [->|Hd].
  - rewrite bool_decide_eq_true_2 by done. cbn [orb app]. rewrite location_parts, split_slash_name by done. cbn [app].
    change (location []) with (@nil bytes). cbn [List.filter app]. rewrite Hn. destruct (starts_with [slash] name) eqn:E; [|done].
    apply starts_with_true_iff in E as [r ->]. exfalso. apply Hs. by left.
  - rewrite (bool_decide_eq_false_2 (directory = [])) by done. cbn [orb]. case_bool_decide as Hl.
    + rewrite !location_parts, starts_slash_app by done. rewrite <- app_assoc. f_equal.
      apply last_Some in Hl as [d ->]. rewrite <- app_assoc, !split_slash_app.
      rewrite (split_slash_name [] name), F by done.
      rewrite (split_slash_app [] d [] : split_slash [] (d ++ [slash]) = _).
      rewrite List.filter_app. cbn [split_slash List.filter]. by rewrite app_nil_r.
    + rewrite !location_parts, starts_slash_app by done. rewrite <- app_assoc. f_equal.
      by rewrite split_slash_app, (split_slash_name [] name), F.
Qed.

(** * What the steps do *)
Lemma read_bounded_Ok p limit b fs fs' :
  read_bounded p limit fs = (Ok b, fs') ↔ fs !! location p = Some b ∧ lenN b <= limit ∧ fs' = fs.
Proof.
  unfold read_bounded. destruct (fs !! location p) as [c|]; cbn [ok_or mbind result_mbind result_bind].
  - destruct (N.ltb_spec limit (lenN c)); cbn; split; [done|naive_solver lia|by intros [= -> ->]|].
    by intros ([= ->] & _ & ->).
  - naive_solver.
Qed.

Lemma desk_open_Ok p b fs fs' : open_input p fs = (Ok b, fs') ↔ fs !! location p = Some b ∧ fs' = fs.
Proof. unfold open_input. destruct (fs !! location p); cbn; naive_solver. Qed.

Lemma lift_is {E T} (m : result E T) a fs : m = Ok a → lift m fs = (Ok a, fs).
Proof. by intros ->. Qed.

Ltac inv_desk_step :=
  match goal with
  | H : read_bounded _ _ _ = (Ok _, _) |- _ => apply read_bounded_Ok in H as (? & ? & ?)
  | H : open_input _ _ = (Ok _, _) |- _ => apply desk_open_Ok in H as (? & ?)
  | _ => inv_cmd_step
  end.
Ltac inv_desk := repeat (inv_desk_step; cbn beta iota in *); simplify_eq.

#[local] Existing Instance Hybrid.scheme_laws.

Section loading.
Context {C : Cbor} {SP : Sign.Primitives} {SL : Sign.PrimitivesLaws SP}.
Context {P : Crypto.Primitives} {L : Crypto.PrimitivesLaws P}.
Context {A : Argon2} {U : Unicode} {X : Expand} {XL : ExpandLaws X} {B : Base64} {BL : Base64Laws B}.

(** Runs two commands on the same files, deciding what either asks of them. *)
Ltac run_both :=
  unfold read_bounded, cmd_map_err, read_file, EpochCli.read_bounded, lift, mbind, cmd_mbind, mret, cmd_mret,
    result_mbind, result_bind, refuse_if, ok_or, map_err;
  change FileCli.MAX_KEY_FILE with MAX_KEY_FILE; change FileCli.PUBLIC_KEY_LEN with PUBLIC_KEY_LEN;
  repeat (cbn beta iota;
    match goal with
    | |- context [match ?x with _ => _ end] =>
        lazymatch x with context [match _ with _ => _ end] => fail | _ => destruct x end
    end);
  try (split; congruence).

(** A public key file means the same to the desktop and to the CLI. *)
Lemma load_public_iff p k fs fs' :
  load_public p fs = (Ok k, fs') ↔ load_recipient p fs = (Ok k, fs').
Proof. unfold load_public, load_recipient. run_both. Qed.

(** So does a secret key file, where the CLI is typed the passphrase the desktop
    is passed. *)
Lemma load_secret_iff env p i s fs fs' :
  load_secret p (env.(typed) i) fs = (Ok s, fs') ↔ FileCli.load_secret env p i fs = (Ok s, fs').
Proof.
  unfold load_secret, FileCli.load_secret, load_key, open_key, crypto, prompt_passphrase.
  change FileCli.MAX_KEY_FILE with MAX_KEY_FILE. run_both.
Qed.

(** Loading touches no file. *)
Lemma load_secret_reads p pw s fs fs' :
  load_secret p pw fs = (Ok s, fs') → fs' = fs.
Proof. unfold load_secret. intros H. by inv_desk. Qed.

Lemma load_each_iff ps ks fs fs' :
  load_each ps fs = (Ok ks, fs') ↔ FileCli.load_each ps fs = (Ok ks, fs').
Proof.
  revert ks fs fs'. induction ps as [|p ps IH]; intros ks fs fs'; [cbn; unfold mret, cmd_mret; naive_solver|].
  cbn [load_each FileCli.load_each]. rewrite !cmd_bind_Ok.
  setoid_rewrite load_public_iff. setoid_rewrite cmd_bind_Ok. setoid_rewrite IH.
  by setoid_rewrite mret_Ok.
Qed.

Lemma load_recipients_iff ps ks fs fs' :
  load_recipients ps fs = (Ok ks, fs') ↔ FileCli.load_recipients ps fs = (Ok ks, fs').
Proof.
  unfold load_recipients, FileCli.load_recipients. rewrite !cmd_bind_Ok.
  setoid_rewrite load_each_iff. setoid_rewrite lift_Ok. unfold refuse_if.
  destruct (_ || _); naive_solver.
Qed.

Lemma load_recipients_reads ps ks fs fs' : load_recipients ps fs = (Ok ks, fs') → fs' = fs.
Proof. rewrite load_recipients_iff. apply reads_Ok, reads_load_recipients. Qed.
End loading.

(** * Creating and filling a file *)
Section files.
Context (desk : Desk).
Abbreviation env := desk.(machine).

(** Nothing that was there changes. *)
Definition adds {T} (m : Command T) : Prop := ∀ fs, fs ⊆ (m fs).2.

Lemma adds_mret {T} (a : T) : adds (mret a).
Proof. intros fs. done. Qed.

Lemma adds_lift {T} (r : result DesktopError T) : adds (lift r).
Proof. intros fs. done. Qed.

Lemma adds_bind {T V} (m : Command T) (f : T → Command V) :
  adds m → (∀ a, adds (f a)) → adds (m ≫= f).
Proof.
  intros Hm Hf fs. unfold mbind, cmd_mbind. specialize (Hm fs).
  destruct (m fs) as [[a|e] fs1]; cbn in *; [|done]. etransitivity; [exact Hm|apply Hf].
Qed.

(** The file being filled is the one just created. *)
Lemma adds_create_fill {T V} i l c (r : result DesktopError (T * bytes)) (f : T → Command V) :
  quiet env → (∀ a, adds (f a)) →
  adds (create_new desk i l ≫= λ _, fill desk i l c r ≫= f).
Proof.
  intros Q Hf fs. unfold create_new, fill, mbind, cmd_mbind. rewrite Q.
  destruct (fs !! l) eqn:E; cbn; [done|]. destruct (creates desk i); cbn; [|done].
  assert (∀ b, fs ⊆ <[l := b]> (<[l := []]> fs)) as Hs.
  { intros b. rewrite insert_insert_eq. by apply insert_subseteq. }
  destruct r as [[a b]|e]; cbn; [|apply Hs]. destruct (synced env i); cbn; [|apply Hs].
  etransitivity; [apply Hs|apply Hf].
Qed.

Lemma create_new_Ok i l u fs fs' :
  quiet env → create_new desk i l fs = (Ok u, fs') ↔
  fs !! l = None ∧ desk.(creates) i = true ∧ fs' = <[l := []]> fs.
Proof.
  intros Q. unfold create_new. rewrite Q. destruct u, (fs !! l), (creates desk i); cbn; naive_solver.
Qed.

Lemma fill_Ok {T} i l c (r : result DesktopError (T * bytes)) a fs fs' :
  fill desk i l c r fs = (Ok a, fs') ↔
  ∃ b, r = Ok (a, b) ∧ env.(synced) i = true ∧ fs' = <[l := b]> fs.
Proof.
  unfold fill. destruct r as [[x b]|e]; [|naive_solver]. destruct (synced env i); naive_solver.
Qed.

Lemma create_fill_Ok {T V} i l c (r : result DesktopError (T * bytes)) (f : T → Command V) v fs fs' :
  quiet env → (create_new desk i l ≫= λ _, fill desk i l c r ≫= f) fs = (Ok v, fs') ↔
  ∃ a b, r = Ok (a, b) ∧ fs !! l = None ∧ desk.(creates) i = true ∧ env.(synced) i = true ∧
    f a (<[l := b]> fs) = (Ok v, fs').
Proof.
  intros Q. rewrite cmd_bind_Ok. setoid_rewrite cmd_bind_Ok. setoid_rewrite (create_new_Ok _ _ _ _ _ Q).
  setoid_rewrite fill_Ok. split.
  - intros (_ & ? & (Hl & Hc & ->) & a & ? & (b & -> & Hs & ->) & H).
    rewrite insert_insert_eq in H. naive_solver.
  - intros (a & b & -> & Hl & Hc & Hs & H). exists tt. eexists. split; [done|].
    exists a. eexists. split; [by exists b|]. by rewrite insert_insert_eq.
Qed.

Lemma whole_Ok c b u x : whole desk c b = Ok (u, x) → x = b.
Proof. unfold whole. intros H. inv_ok. match goal with H : stage _ _ = _ |- _ => apply stage_Ok in H as -> end. cbn. by rewrite app_nil_r. Qed.
End files.

(** A proper name stays in the directory it is joined to. *)
Lemma proper_location directory name ext :
  name ≠ [] → improper name = false → slash ∉ ext →
  location (join directory (name ++ ext)) = location directory ++ [name ++ ext].
Proof.
  intros Hn Hi He. unfold improper in Hi. apply orb_false_iff in Hi as [Hc Hd]. apply location_join.
  - rewrite elem_of_app. intros [H|H]; [|done]. apply list_elem_of_In in H.
    rewrite (proj2 (existsb_exists _ _)) in Hc; [done|]. exists slash. by split.
  - unfold is_normal. rewrite bool_decide_eq_false_2 by by destruct name.
    rewrite bool_decide_eq_false_2; [done|]. intros E. destruct name as [|x name]; [done|].
    injection E as -> _. by cbn in Hd.
Qed.

Section commands.
Context {C : Cbor} {SP : Sign.Primitives} {SL : Sign.PrimitivesLaws SP}.
Context {P : Crypto.Primitives} {L : Crypto.PrimitivesLaws P}.
Context {A : Argon2} {U : Unicode} {X : Expand} {XL : ExpandLaws X} {B : Base64} {BL : Base64Laws B}.

(** What the secret file is made of *)
Definition secret_file (desk : Desk) (pw : option bytes) (s f : bytes) : Prop :=
  match pw with
  | Some pw => protect_seed s pw Keyring.Identity (desk.(machine).(random) 1) (desk.(machine).(random) 2) = Ok f
  | None => f = s
  end.

(** The passphrase typed or passed opens it. *)
Definition opening (pw pw' : option bytes) (s : bytes) : Prop :=
  match pw with Some pw => ∃ p, pw' = Some p ∧ nfc p = nfc pw | None => inspect s = Raw end.

Lemma generate_keys_Ok desk directory name pw fs kp fs' :
  quiet desk.(machine) → generate_keys desk directory name pw fs = (Ok kp, fs') →
  let n := trim name in
  ∃ s f k, desk.(machine).(random) 0 = Some s ∧ Crypto.public_key (encryption_key s) = Ok k ∧
    n ≠ [] ∧ improper n = false ∧
    kp = {| public_path := join directory (n ++ text ".hide-pub");
            secret_path := join directory (n ++ text ".hide-key");
            armored_public := encode_public (public_to_bytes k);
            protected := match pw with Some _ => true | None => false end |} ∧
    secret_file desk pw s f ∧
    fs !! location kp.(secret_path) = None ∧
    <[location kp.(secret_path) := f]> fs !! location kp.(public_path) = None ∧
    fs' = <[location kp.(public_path) := public_to_bytes k]> (<[location kp.(secret_path) := f]> fs).
Proof.
  intros Q H n. unfold generate_keys, generate_identity in H. fold n in H. cbv zeta in H.
  repeat first
    [ apply (create_fill_Ok _ _ _ _ _ _ _ _ _ Q) in H as (? & ? & ?Hw & ? & _ & _ & H)
    | inv_desk_step; cbn beta iota in * ]; simplify_eq.
  match goal with Hs : recipient_secret {| seed := ?x |} = _, Hp : Crypto.public_key _ = Ok ?y |- _ =>
    rewrite recipient_secret_of in Hs; apply Ok_inj in Hs as <-; rename x into s, y into k end.
  apply whole_Ok in Hw as ->. apply whole_Ok in Hw0 as ->. b2p.
  match goal with H : _ fs = (Ok ?x, ?fs1) |- _ => rename H into Hf, x into f;
    assert (fs1 = fs ∧ secret_file desk pw s f) as [-> Hf'] by (destruct pw; by inv_desk) end.
  exists s, f, k. by split_and!.
Qed.

Lemma adds_generate_keys desk directory name pw :
  quiet desk.(machine) → adds (generate_keys desk directory name pw).
Proof.
  intros Q. unfold generate_keys. repeat (intros; first
    [ apply adds_lift | apply adds_mret | apply (adds_create_fill _ _ _ _ _ _ Q)
    | apply adds_bind | case_match ]).
Qed.

Lemma inspect_prefix b : inspect b = Protected → starts_with PUBLIC_PREFIX b = false.
Proof. unfold inspect. destruct b as [|x b]; [done|]. cbn. by destruct x. Qed.

Lemma secret_file_holds desk pw s f env i :
  keygen_draws desk.(machine) → desk.(machine).(random) 0 = Some s → secret_file desk pw s f →
  opening pw (env.(typed) i) s → holds_identity env i f s.
Proof.
  intros (D0 & D1 & D2) Hs Hf Hi. destruct pw as [pw|]; cbn in *.
  - destruct Hi as (p & Hp & En). by eapply sealed_holds.
  - subst f. specialize (D0 _ Hs). unfold SEED_LEN in D0.
    split; [unfold FileCli.MAX_KEY_FILE; lia|by left].
Qed.

Lemma key_file_loads env p i fs f s :
  fs !! location p = Some f → holds_identity env i f s →
  load_secret p (env.(typed) i) fs = (Ok (encryption_key s), fs) ∧
  FileCli.load_secret env p i fs = (Ok (encryption_key s), fs) ∧
  load_signing_identity env p i fs = (Ok (signing_key s), fs).
Proof.
  intros Hf Hh. destruct (load_identity env p i fs f s Hf Hh) as [H1 H2].
  split_and!; [by apply load_secret_iff|done..].
Qed.

Lemma secret_file_described desk pw s f p fs :
  keygen_draws desk.(machine) → desk.(machine).(random) 0 = Some s → secret_file desk pw s f →
  (pw = None → inspect s = Raw) → fs !! location p = Some f →
  describe desk p fs = (Ok (SecretKey match pw with Some _ => true | None => false end), fs).
Proof.
  intros D Hs Hf Hr Hp.
  pose (env := {| reading := λ _ _, []; FileSystem.sink := []; synced := λ _, true;
    directory_synced := true; others := λ _ m, m; typed := λ _, pw; FileSystem.random := λ _, None |}).
  destruct (secret_file_holds desk pw s f env 0 D Hs Hf) as [Hl H].
  { destruct pw; cbn; eauto. }
  unfold describe. rewrite (proj2 (read_bounded_Ok p MAX_KEY_FILE f fs fs)) by done.
  destruct pw; cbn in Hf, H.
  - destruct H as [(Hi & -> & _)|(-> & _)]; [|done]. exfalso.
    destruct D as (_ & D1 & D2). assert (∃ sa no, random (machine desk) 1 = Some sa ∧
      random (machine desk) 2 = Some no) as (sa & no & Esa & Eno) by (unfold protect_seed in Hf; inv_ok; by do 2 eexists).
    rewrite Esa, Eno in Hf. by destruct (unprotect_protect _ _ _ _ _ _ _ Hf (D1 _ Esa) (D2 _ Eno) eq_refl) as (_ & ? & _);
      congruence.
  - subst f. rewrite Hr by done. destruct D as (D0 & _). specialize (D0 _ Hs). unfold SEED_LEN in D0.
    by rewrite D0.
Qed.

Lemma public_file_serves p k fs :
  fs !! location p = Some (public_to_bytes k) → public_from_bytes (public_to_bytes k) = Ok k →
  starts_with PUBLIC_PREFIX (public_to_bytes k) = false →
  load_recipients [p] fs = (Ok [k], fs) ∧
  read_public_armor p fs = (Ok (encode_public (public_to_bytes k)), fs).
Proof.
  intros Hp Hpk Hpre. assert (lenN (public_to_bytes k) = PUBLIC_KEY_LEN) as Hlen.
  { pose proof (hpke_public_length k.(hpke_public)). unfold public_to_bytes, PUBLIC_KEY_LEN. lia. }
  split.
  - apply load_recipients_iff. eapply load_one_recipient; [exact Hp|by rewrite Hlen|done|by left].
  - unfold read_public_armor. rewrite (cmd_bind_of_Ok _ _ _ (public_to_bytes k) fs).
    2:{ apply read_bounded_Ok. split; [done|]. split; [by rewrite Hlen|done]. }
    rewrite Hlen. change (negb _) with false. rewrite (cmd_bind_of_Ok _ _ _ tt fs) by done.
    rewrite Hpk. by rewrite (cmd_bind_of_Ok _ _ _ k fs).
Qed.

(** A key pair made in the window. Whatever becomes of the command, no file
    that was there changes. When it succeeds, both files are new, in the chosen
    directory itself, under the name's two extensions, and they belong together:
    under every spelling of the passphrase, or at once when there was none, the
    secret file opens to one encryption key, in the window and at the command
    line alike, and at the command line also to the signing key of the same
    seed; the public file holds that encryption key's public key, is accepted
    as a recipient and copied out as exactly the armoured text that was shown;
    and the file is described as a secret key, protected or not. *)
Theorem generated_keys_agree desk directory name pw fs r fs' :
  quiet desk.(machine) → keygen_draws desk.(machine) →
  generate_keys desk directory name pw fs = (r, fs') →
  fs ⊆ fs' ∧
  ∀ kp, r = Ok kp → ∃ s k,
    let n := trim name in
    desk.(machine).(random) 0 = Some s ∧ Crypto.public_key (encryption_key s) = Ok k ∧
    location kp.(secret_path) = location directory ++ [n ++ text ".hide-key"] ∧
    location kp.(public_path) = location directory ++ [n ++ text ".hide-pub"] ∧
    fs !! location kp.(secret_path) = None ∧ fs !! location kp.(public_path) = None ∧
    (∀ l, l ≠ location kp.(secret_path) → l ≠ location kp.(public_path) → fs' !! l = fs !! l) ∧
    (∀ env i, opening pw (env.(typed) i) s →
       load_secret kp.(secret_path) (env.(typed) i) fs' = (Ok (encryption_key s), fs') ∧
       FileCli.load_secret env kp.(secret_path) i fs' = (Ok (encryption_key s), fs') ∧
       load_signing_identity env kp.(secret_path) i fs' = (Ok (signing_key s), fs')) ∧
    (public_from_bytes (public_to_bytes k) = Ok k →
       starts_with PUBLIC_PREFIX (public_to_bytes k) = false →
       load_recipients [kp.(public_path)] fs' = (Ok [k], fs') ∧
       read_public_armor kp.(public_path) fs' = (Ok kp.(armored_public), fs') ∧
       decode_public kp.(armored_public) = Ok (public_to_bytes k)) ∧
    ((pw = None → inspect s = Raw) →
       describe desk kp.(secret_path) fs' = (Ok (SecretKey kp.(protected)), fs')).
Proof.
  intros Q D H. split.
  { pose proof (adds_generate_keys desk directory name pw Q fs) as Ha. by rewrite H in Ha. }
  intros kp ->. destruct (generate_keys_Ok _ _ _ _ _ _ _ Q H) as (s & f & k & Hs & Hk & Hn & Hi & E & Hf & N1 & N2 & ->).
  exists s, k. intros n. fold n in Hn, Hi, E. apply lookup_insert_None in N2 as [N2 Hne].
  assert (location kp.(secret_path) = location directory ++ [n ++ text ".hide-key"]) as L1
    by (rewrite E; by apply proper_location; [..|apply (bool_decide_unpack _)]).
  assert (location kp.(public_path) = location directory ++ [n ++ text ".hide-pub"]) as L2
    by (rewrite E; by apply proper_location; [..|apply (bool_decide_unpack _)]).
  set (fs' := <[location kp.(public_path) := _]> _).
  assert (F1 : fs' !! location kp.(secret_path) = Some f) by (unfold fs'; by simplify_map_eq).
  assert (F2 : fs' !! location kp.(public_path) = Some (public_to_bytes k)) by (unfold fs'; by simplify_map_eq).
  split_and!; try done.
  - intros l H1 H2. unfold fs'. by rewrite !lookup_insert_ne.
  - intros env i Ho. eapply key_file_loads; [done|]. by eapply secret_file_holds.
  - intros Hpk Hpre. rewrite E. cbn [armored_public]. split_and!.
    + rewrite E in F2. by apply public_file_serves.
    + rewrite E in F2. by apply public_file_serves.
    + apply decode_encode_public.
  - intros Hr. rewrite (secret_file_described desk pw s f _ _ D Hs Hf Hr F1), E. done.
Qed.
End commands.

(** * Containers *)
Section containers.
Context {C : Cbor} {CL : CborLaws C} {SP : Sign.Primitives} {SL : Sign.PrimitivesLaws SP}.
Context {P : Crypto.Primitives} {L : Crypto.PrimitivesLaws P}.
Context {A : Argon2} {U : Unicode} {X : Expand} {XL : ExpandLaws X} {B : Base64} {BL : Base64Laws B}.

(** The container's own header gives the secret two content keys under one MAC. *)
Definition two_content_keys (secret : RecipientSecret) (container : bytes) : Prop :=
  ∃ preamble outer rest h protected mac,
    container = Preamble.encode preamble ++ outer ++ rest ∧
    lenN outer = Preamble.header_len preamble ∧
    Outer.decode_header outer = Ok (protected, mac) ∧ Header.decode protected = Ok h ∧
    two_keys secret h (Preamble.encode preamble) protected mac.

(** The container opens for every one of the keys, to these bytes. *)
Definition opens_for (keys : list RecipientPublic) (container p : bytes) (metadata : Metadata)
    (id : option VK) : Prop :=
  ∀ secret k source staging, Crypto.public_key secret = Ok k → k ∈ keys →
    live source → accepting staging → contents source = container →
    (∃ m staging', decrypt_to_staging source staging secret
        = Ok ({| object_metadata := m; plaintext_len := lenN p; Object.signer := id |}, staging') ∧
      staging'.(written) = staging.(written) ++ p ∧ unsigned_metadata m = metadata) ∨
    two_content_keys secret container.

Lemma encrypt_for_opens draw input output keys metadata signer n output' :
  live input → accepting output → metadata_typed metadata → metadata.(meta_signature) = None →
  draws_sized draw → production signer →
  encrypt_for draw input output keys metadata signer = Ok (n, output') →
  n = lenN (contents input) ∧ ∃ container, output'.(written) = output.(written) ++ container ∧
    container ≠ [] ∧ opens_for keys container (contents input) metadata (signer_key signer).
Proof.
  intros Li Ao Tm Hm D Hp H.
  destruct (encrypt_for_writes _ _ _ _ _ _ _ _ Li Ao Tm Hm D Hp H)
    as (material & stanzas & container & preamble & h & protected & mac & Hd & Hms & Hw & -> & Ew & Hc).
  split; [done|]. exists container. split_and!; [done| |].
  { destruct (of_bytes _ _ _ _ _ _ _ _ _ _ Hc) as (outer & payload & pk & -> & _). done. }
  intros secret k source staging Hk Hin Ls As Hsrc.
  destruct (wrap_stanzas_reach _ _ _ _ _ _ Hms Hw Hk Hin) as (s & Hs & Hu).
  destruct (container_opens _ _ _ _ _ _ _ _ _ _ _ _ _ _ Hms Hc Hs Hu Ls As Hsrc) as [|Hx]; [by left|right].
  destruct (of_bytes _ _ _ _ _ _ _ _ _ _ Hc) as (outer & payload & pk & Hb & Hlen & Ho & _).
  eexists preamble, outer, _, h, protected, mac.
  split_and!; [exact Hb|done|done|by eapply of_header|by eapply container_two_keys].
Qed.

(** What the two programs make of a file: a new one beside it. *)
Lemma desktop_encrypt_Ok desk input rs output fs n count fs' :
  quiet desk.(machine) → encrypt_file desk input rs output fs = (Ok (n, count), fs') →
  ∃ keys b name w, load_recipients rs fs = (Ok keys, fs) ∧ count = lenN keys ∧
    fs !! location input = Some b ∧ file_name input = Some name ∧ utf8_valid name = true ∧
    encrypt desk.(machine).(FileSystem.random) (desk.(machine).(reading) 0 b) (staging desk.(machine)) keys
      (named name) = Ok (n, w) ∧
    fs !! location output = None ∧ fs' = <[location output := w.(written)]> fs.
Proof.
  intros Q H. unfold encrypt_file in H.
  repeat first
    [ apply (create_fill_Ok _ _ _ _ _ _ _ _ _ Q) in H as (? & ? & ?Hw & ? & _ & _ & H)
    | inv_desk_step; cbn beta iota in * ]; simplify_eq.
  match goal with H : load_recipients _ _ = _ |- _ =>
    pose proof (load_recipients_reads _ _ _ _ H); subst end.
  unfold sink_for in *. inv_ok. b2p. eexists _, _, _, _. split_and!; try eassumption; done.
Qed.

Definition part_of (output : bytes) : list bytes := with_extension output (text "hide-part").

Definition decrypts (desk : Desk) (input secret : bytes) (pw : option bytes) (fs : Files)
    (v : VerifiedObject) (b : bytes) : Prop :=
  ∃ key container w, load_secret secret pw fs = (Ok key, fs) ∧ fs !! location input = Some container ∧
    decrypt_to_staging (desk.(machine).(reading) 0 container) (staging desk.(machine)) key = Ok (v, w) ∧
    b = w.(written).

(** Filling the staging file and publishing it, once it was created *)
Lemma publish_part desk l out c (r : result DesktopError (VerifiedObject * bytes)) fs :
  quiet desk.(machine) → fs !! l = None →
  attempt (fill desk 0 l c r)
    (λ result,
      match result with
      | Ok verified => rename desk 1 l out;; mret verified
      | Err error => remove_file desk l;; lift (Err error)
      end) (<[l := []]> fs) =
  let failed e := (Err e, if desk.(removes) then fs else <[l := desk.(leftover) 0]> fs) in
  match r with
  | Ok (v, b) =>
      if desk.(machine).(synced) 0 then
        if desk.(renames) then (Ok v, <[out := b]> fs)
        else (Err (System (text "could not publish the output")), <[l := b]> fs)
      else failed (System c)
  | Err e => failed e
  end.
Proof.
  intros Q Hl. unfold attempt, fill, rename, remove_file, lift, mbind, cmd_mbind.
  destruct r as [[v b]|e].
  - destruct (synced (machine desk) 0).
    + rewrite insert_insert_eq, Q, lookup_insert_eq. destruct (renames desk); [|done].
      cbn. by rewrite delete_insert_id.
    + rewrite insert_insert_eq. destruct (removes desk); [|done]. by rewrite delete_insert_id.
  - rewrite insert_insert_eq. destruct (removes desk); [|done]. by rewrite delete_insert_id.
Qed.

(** C22. What opening a container in the window does to the files. When it
    succeeds, the output holds exactly the plaintext of a container that was
    authenticated to its end under the key that was loaded, in place of
    whatever stood under that name, and nothing else changed: the file beside
    it, where the plaintext was staged, is gone. When it fails, the output and
    every file that was there are as they were; at most the staging file is
    left, holding plaintext that was never authenticated only if the machine
    refused to remove it, and authenticated plaintext only if the machine
    refused to rename it. *)
Theorem window_publishes_only_verified desk input secret pw output fs r fs' :
  quiet desk.(machine) → decrypt_file desk input secret pw output fs = (r, fs') →
  match r with
  | Ok v => ∃ b, decrypts desk input secret pw fs v b ∧ fs !! part_of output = None ∧
      fs' = <[location output := b]> fs
  | Err _ =>
      fs' = fs ∨
      ∃ x, fs !! part_of output = None ∧ fs' = <[part_of output := x]> fs ∧
        (desk.(removes) = false ∧ x = desk.(leftover) 0 ∨
         desk.(renames) = false ∧ ∃ v, decrypts desk input secret pw fs v x)
  end.
Proof.
  intros Q H. unfold decrypt_file in H. fold (part_of output) in H.
  destruct (load_secret secret pw fs) as [[key|e] fs1] eqn:El.
  2:{ rewrite (cmd_bind_of_Err _ _ _ _ _ El) in H. simplify_eq. left.
      unfold load_secret, read_bounded, lift, mbind, cmd_mbind in El. repeat case_match; by simplify_eq. }
  pose proof (load_secret_reads _ _ _ _ _ El) as ->. rewrite (cmd_bind_of_Ok _ _ _ _ _ El) in H.
  destruct (fs !! location input) as [container|] eqn:Ei.
  2:{ unfold open_input, mbind, cmd_mbind in H. rewrite Ei in H. simplify_eq/=. by left. }
  rewrite (cmd_bind_of_Ok _ _ _ container fs) in H by by apply desk_open_Ok.
  destruct (create_new desk 0 (part_of output) fs) as [[[]|e] fs1] eqn:Ec.
  2:{ rewrite (cmd_bind_of_Err _ _ _ _ _ Ec) in H. simplify_eq. left. unfold create_new in Ec.
      rewrite Q in Ec. repeat case_match; by simplify_eq. }
  rewrite (cmd_bind_of_Ok _ _ _ _ _ Ec) in H. apply (create_new_Ok _ _ _ _ _ _ Q) in Ec as (Hp & _ & ->).
  cbv zeta in H. rewrite (publish_part _ _ _ _ _ _ Q Hp) in H.
  destruct (decrypt_to_staging _ _ key) as [[v w]|e] eqn:Ed; cbn [map_err] in H;
    rewrite ?bind_of_Ok, ?bind_of_Err in H; cbv beta iota zeta in H.
  - assert (decrypts desk input secret pw fs v w.(written)) as Hd by (exists key, container, w; by split_and!).
    destruct (synced _ 0), (renames desk) eqn:Er, (removes desk) eqn:Em; simplify_eq; eauto 10.
  - destruct (removes desk) eqn:Em; simplify_eq; eauto 10.
Qed.

(** A file encrypted in the window or at the command line, by whom if signed. *)
Inductive encrypted_by (input : bytes) (rs : list bytes) (output : bytes) (fs : Files) :
    N → option VK → Files → Prop :=
| in_window desk n count fs' :
    quiet desk.(machine) → delivering desk.(machine) → draws_sized desk.(machine).(FileSystem.random) →
    encrypt_file desk input rs output fs = (Ok (n, count), fs') →
    encrypted_by input rs output fs n None fs'
| at_command_line env sw pub n signer fs' :
    quiet env → delivering env → draws_sized env.(FileSystem.random) →
    signs_with env sw pub fs signer → FileCli.encrypt_file env input rs output sw pub fs = (Ok n, fs') →
    encrypted_by input rs output fs n (signer_key signer) fs'.

Lemma named_typed name : utf8_valid name = true → metadata_typed (named name).
Proof. intros H. split; cbn; [by intros ? [= <-]|done|constructor]. Qed.

Lemma signs_with_production env sw pub fs signer : signs_with env sw pub fs signer → production signer.
Proof. unfold signs_with. destruct sw; [|by intros ->]. intros (id & _ & ->). by destruct pub. Qed.

Lemma signs_with_same env sw pub fs s1 s2 : signs_with env sw pub fs s1 → signs_with env sw pub fs s2 → s1 = s2.
Proof. unfold signs_with. destruct sw; [|by intros -> ->]. intros (i & Hi & ->) (j & Hj & ->).
  rewrite Hi in Hj. by injection Hj as ->. Qed.

Lemma encrypted_by_opens input rs output fs n id fs' :
  encrypted_by input rs output fs n id fs' →
  ∃ keys b container name, load_recipients rs fs = (Ok keys, fs) ∧
    fs !! location input = Some b ∧ n = lenN b ∧ file_name input = Some name ∧
    fs !! location output = None ∧ fs' = <[location output := container]> fs ∧
    opens_for keys container b (named name) id.
Proof.
  destruct 1 as [desk n count fs' Q [R W] D H|env sw pub n signer fs' Q [R W] D Hs H].
  - destruct (desktop_encrypt_Ok _ _ _ _ _ _ _ _ Q H) as (keys & b & name & w & Hk & _ & Hb & Hn & Hu & He & Ho & ->).
    destruct (R 0 b) as [Lb Cb].
    destruct (encrypt_for_opens _ _ (staging (machine desk)) keys (named name) None _ _ Lb W (named_typed _ Hu) eq_refl D I He)
      as (-> & container & Ew & _ & Hc). rewrite Cb in *. exists keys, b, container, name.
    cbn [staging written app] in Ew. by rewrite Ew.
  - destruct (encrypt_file_Ok _ _ _ _ _ _ _ _ _ Q H) as (keys & b & name & signer' & w & Hk & Hb & Hn & Hu & Hs' & He & Ho & ->).
    rewrite (signs_with_same _ _ _ _ _ _ Hs' Hs) in *. destruct (R 0 b) as [Lb Cb].
    destruct (encrypt_for_opens _ _ (staging env) keys (named name) signer _ _ Lb W (named_typed _ Hu) eq_refl D
      (signs_with_production _ _ _ _ _ Hs) He) as (-> & container & Ew & _ & Hc).
    rewrite Cb in *. exists keys, b, container, name. cbn [staging written app] in Ew.
    rewrite Ew, load_recipients_iff. by split_and!.
Qed.

Lemma decrypt_file_of desk input secret_path pw out fs secret b v w :
  quiet desk.(machine) → desk.(creates) 0 = true → desk.(machine).(synced) 0 = true → desk.(renames) = true →
  load_secret secret_path pw fs = (Ok secret, fs) → fs !! location input = Some b →
  fs !! part_of out = None →
  decrypt_to_staging (desk.(machine).(reading) 0 b) (staging desk.(machine)) secret = Ok (v, w) →
  decrypt_file desk input secret_path pw out fs = (Ok v, <[location out := w.(written)]> fs).
Proof.
  intros Q Hc Hs Hr Hl Hb Hp Hd. unfold decrypt_file. fold (part_of out).
  rewrite (cmd_bind_of_Ok _ _ _ _ _ Hl).
  rewrite (cmd_bind_of_Ok _ _ _ b fs) by by apply desk_open_Ok.
  rewrite (cmd_bind_of_Ok _ _ _ tt (<[part_of out := []]> fs)) by by apply create_new_Ok.
  cbv zeta. rewrite (publish_part _ _ _ _ _ _ Q Hp), Hd. cbn [map_err].
  rewrite bind_of_Ok. by rewrite Hs, Hr.
Qed.

(** C4. Files cross between the window and the command line. A file encrypted
    by either program, signed or not, opens in either with every key file
    whose public key is among the recipients', under whatever name it arrives,
    into exactly the bytes of the input, and both report the input's own name
    and the same signer. (The one alternative, here too, is a container whose
    own header gives the secret two content keys under one MAC.) *)
Theorem files_cross_programs input rs output fs n id fs' :
  encrypted_by input rs output fs n id fs' →
  ∃ keys b container name, load_recipients rs fs = (Ok keys, fs) ∧
    fs !! location input = Some b ∧ n = lenN b ∧ file_name input = Some name ∧
    fs !! location output = None ∧ fs' = <[location output := container]> fs ∧
    ∀ fs2 arrived secret_path secret k out,
      Crypto.public_key secret = Ok k → k ∈ keys → fs2 !! location arrived = Some container →
      (∀ desk pw, quiet desk.(machine) → delivering desk.(machine) → desk.(creates) 0 = true →
         desk.(machine).(synced) 0 = true → desk.(renames) = true →
         load_secret secret_path pw fs2 = (Ok secret, fs2) → fs2 !! part_of out = None →
         (∃ v, decrypt_file desk arrived secret_path pw out fs2 = (Ok v, <[location out := b]> fs2) ∧
            v.(Object.signer) = id ∧ v.(plaintext_len) = n ∧ v.(object_metadata).(filename) = Some name) ∨
         two_content_keys secret container) ∧
      (∀ env, quiet env → delivering env → env.(synced) 0 = true →
         FileCli.load_secret env secret_path 0 fs2 = (Ok secret, fs2) → fs2 !! location out = None →
         (∃ v, open_file env arrived secret_path out fs2 = (Ok v, <[location out := b]> fs2) ∧
            v.(Object.signer) = id ∧ v.(plaintext_len) = n ∧ v.(object_metadata).(filename) = Some name) ∨
         two_content_keys secret container).
Proof.
  intros (keys & b & container & name & Hk & Hb & Hn & Hf & Ho & -> & Hc)%encrypted_by_opens.
  exists keys, b, container, name. split_and!; try done.
  intros fs2 arrived secret_path secret k out Hpk Hin Ha.
  assert (∀ m, unsigned_metadata m = named name → m.(filename) = Some name) as Hname.
  { intros m Hm. change (Some name) with (filename (named name)). by rewrite <- Hm. }
  split.
  - intros desk pw Q [R W] Hcr Hsy Hre Hl Hp. destruct (R 0 container) as [Lc Cc].
    destruct (Hc secret k _ (staging (machine desk)) Hpk Hin Lc W Cc) as [(m & w & Hd & Hw & Hm)|]; [left|by right].
    cbn [staging written app] in Hw. exists {| object_metadata := m; plaintext_len := lenN b; Object.signer := id |}.
    split_and!; [|done|done|by apply Hname].
    rewrite (decrypt_file_of _ _ _ _ _ _ _ _ _ _ Q Hcr Hsy Hre Hl Ha Hp Hd). by rewrite Hw.
  - intros env Q [R W] Hsy Hl Hp. destruct (R 0 container) as [Lc Cc].
    destruct (Hc secret k _ (staging env) Hpk Hin Lc W Cc) as [(m & w & Hd & Hw & Hm)|]; [left|by right].
    cbn [staging written app] in Hw. exists {| object_metadata := m; plaintext_len := lenN b; Object.signer := id |}.
    split_and!; [|done|done|by apply Hname].
    rewrite (open_file_of _ _ _ _ _ _ _ _ _ Q Hsy Hl Ha Hp Hd). by rewrite Hw.
Qed.

(** ** Messages *)

(** A message sealed in the window, or at the command line and printed. *)
Inductive sealed_by (message : bytes) (rs : list bytes) (fs : Files) : bytes → Prop :=
| sealed_in_window desk armored fs' :
    draws_sized desk.(machine).(FileSystem.random) →
    seal_message desk message rs fs = (Ok armored, fs') → sealed_by message rs fs armored
| sealed_at_command_line env armored fs' :
    draws_sized env.(FileSystem.random) →
    FileCli.seal_message env message rs None fs = (Ok (Some armored), fs') → sealed_by message rs fs armored.

Definition text_metadata : Metadata :=
  {| filename := None; media_type := Some (text "text/plain"); meta_signature := None; meta_extensions := [] |}.

Lemma encrypted_message_opens draw message keys n w :
  draws_sized draw →
  encrypt draw (slice_reader message) {| written := []; schedule := [] |} keys text_metadata = Ok (n, w) →
  w.(written) ≠ [] ∧ opens_for keys w.(written) message text_metadata None.
Proof.
  intros D H. destruct (slice_reader_live message) as [Lm Cm].
  assert (metadata_typed text_metadata) as Tm by (split; cbn; [done|by intros ? [= <-]|constructor]).
  destruct (encrypt_for_opens draw (slice_reader message) {| written := []; schedule := [] |} keys text_metadata
    None n w Lm ltac:(constructor) Tm eq_refl D I H) as (_ & container & Ew & Hne & Hc).
  cbn [written app] in Ew. rewrite Ew. rewrite Cm in Hc. eauto.
Qed.

Lemma sealed_by_opens message rs fs armored :
  sealed_by message rs fs armored →
  ∃ keys container, load_recipients rs fs = (Ok keys, fs) ∧ armored = armor_message container ∧
    container ≠ [] ∧ opens_for keys container message text_metadata None.
Proof.
  destruct 1 as [desk armored fs' D H|env armored fs' D H].
  - unfold seal_message in H. inv_desk. inv_ok.
    match goal with H : load_recipients _ _ = _ |- _ => pose proof (load_recipients_reads _ _ _ _ H); subst end.
    match goal with H : encrypt _ _ _ _ _ = Ok (_, ?w), K : load_recipients _ _ = (Ok ?keys, _) |- _ =>
      destruct (encrypted_message_opens _ _ _ _ _ D H) as (Hne & ?); by exists keys, w.(written) end.
  - unfold FileCli.seal_message in H. inv_desk. inv_ok.
    match goal with H : FileCli.load_recipients _ _ = _ |- _ =>
      apply load_recipients_iff in H; pose proof (load_recipients_reads _ _ _ _ H); subst end.
    match goal with H : encrypt _ _ _ _ _ = Ok (_, ?w), K : load_recipients _ _ = (Ok ?keys, _) |- _ =>
      destruct (encrypted_message_opens _ _ _ _ _ D H) as (Hne & ?); by exists keys, w.(written) end.
Qed.

Lemma dearmor_pasted e pre post container :
  line_end e → container ≠ [] → pre = [] ∨ last pre = Some newline →
  Forall (λ l, contains_text MESSAGE_HEADER l = false) (lines pre) →
  dearmor_message (pre ++ with_line_ends e (armor_message container) ++ post) = Ok container.
Proof.
  intros He Hne Hpre Hh. destruct (armor_lines container) as [-> Hc].
  rewrite with_line_ends_joined by done. by apply dearmor_lines.
Qed.

(** A sealed message opens wherever it was pasted, in either program.
    Sealed in the window or at the command line, and then pasted into any text
    with either kind of line end (no earlier line carrying the header mark), it
    is found, and opened by every key file whose public key is among the
    recipients', to exactly the message. The window opens it whatever its size;
    the command line when the text pasted is at most 1 MiB, and it refuses a
    longer one before anything else. *)
Theorem sealed_message_opens message rs fs armored :
  utf8_valid message = true → sealed_by message rs fs armored →
  ∃ keys container, load_recipients rs fs = (Ok keys, fs) ∧
    ∀ e pre post secret k secret_path fs2,
      line_end e → pre = [] ∨ last pre = Some newline →
      Forall (λ l, contains_text MESSAGE_HEADER l = false) (lines pre) →
      Crypto.public_key secret = Ok k → k ∈ keys →
      let pasted := pre ++ with_line_ends e armored ++ post in
      (∀ pw, load_secret secret_path pw fs2 = (Ok secret, fs2) →
         unseal_message pasted secret_path pw fs2 = (Ok message, fs2) ∨
         two_content_keys secret container) ∧
      (∀ env, FileCli.load_secret env secret_path 0 fs2 = (Ok secret, fs2) → utf8_valid pasted = true →
         (lenN pasted <= MAX_ARMORED_MESSAGE →
            FileCli.unseal_message env pasted secret_path fs2 = (Ok (message, None), fs2) ∨
            two_content_keys secret container) ∧
         (MAX_ARMORED_MESSAGE < lenN pasted →
            FileCli.unseal_message env pasted secret_path fs2 = (Err (Texts MessageTooLong), fs2))).
Proof.
  intros Hu (keys & container & Hk & -> & Hne & Hc)%sealed_by_opens.
  exists keys, container. split; [done|]. intros e pre post secret k secret_path fs2 He Hpre Hh Hpk Hin pasted.
  assert (dearmor_message pasted = Ok container) as Hd by by apply dearmor_pasted.
  destruct (slice_reader_live container) as [Lc Cc].
  destruct (Hc secret k (slice_reader container) {| written := []; schedule := [] |} Hpk Hin Lc
    ltac:(constructor) Cc) as [(m & w & Hdec & Hw & _)|Hx].
  - cbn [written app] in Hw. split.
    + intros pw Hl. left. unfold unseal_message.
      rewrite (cmd_bind_of_Ok _ _ _ container fs2) by (apply lift_is; by rewrite Hd).
      rewrite (cmd_bind_of_Ok _ _ _ _ _ Hl).
      rewrite (cmd_bind_of_Ok _ _ _ _ fs2) by (apply lift_is; by rewrite Hdec). cbv beta iota.
      rewrite Hw, Hu. by rewrite (cmd_bind_of_Ok _ _ _ tt fs2).
    + intros env Hl Hpu. unfold FileCli.unseal_message, read_armored_message. split; intros Hlen.
      * left. rewrite (proj2 (N.ltb_ge _ _) Hlen), Hpu.
        rewrite (cmd_bind_of_Ok _ _ _ pasted fs2) by done.
        rewrite (cmd_bind_of_Ok _ _ _ container fs2) by (apply lift_is; by rewrite Hd).
        rewrite (cmd_bind_of_Ok _ _ _ _ _ Hl).
        rewrite (cmd_bind_of_Ok _ _ _ _ fs2) by (apply lift_is; by rewrite Hdec). cbv beta iota.
        rewrite Hw, Hu. by rewrite (cmd_bind_of_Ok _ _ _ tt fs2).
      * by rewrite (proj2 (N.ltb_lt _ _) Hlen).
  - split; [by right|]. intros env _ _. split; intros Hlen; [by right|].
    unfold FileCli.unseal_message, read_armored_message. by rewrite (proj2 (N.ltb_lt _ _) Hlen).
Qed.
End containers.

(** * Witnesses: Alice at her desk *)
Import Cbor.Reference Sign.Toy Crypto.Toy Keyring.Toy HexBase64.

Module Samples.
Definition at_desk (e : Env) : Desk :=
  {| machine := e; creates _ := true; leftover _ := text "part"; renames := true; removes := true |}.

Definition making : Desk := at_desk FileCli.Samples.at_keygen.
Definition working : Desk := at_desk FileCli.Samples.at_encrypt.

Definition pass : option bytes := Some (text "correct horse").
Definition letter : bytes := text "letter.txt".
Definition sealed : bytes := text "letter.hide".
Definition secret : bytes := text "keys/alice.hide-key".
Definition public : bytes := text "keys/alice.hide-pub".

Definition start : Files := {[location letter := text "hello"]}.
Definition made := generate_keys making (text "keys") (text " alice ") pass start.
Definition keyed : Files := made.2.
Definition encrypted := encrypt_file working letter [public] sealed keyed.
Definition opened := decrypt_file working sealed secret pass (text "out.txt") encrypted.2.
Definition message := seal_message working (text "hello") [public] keyed.

Definition all_went_well : bool :=
  is_ok made.1 && is_ok encrypted.1 && is_ok opened.1 && is_ok message.1.

(** A public file in the way: the secret key has already been written. *)
Definition in_the_way : Files := {[location public := text "hers"]}.
Definition abandoned := generate_keys making (text "keys") (text "alice") pass in_the_way.

(** An output that exists is replaced. *)
Definition replacing := decrypt_file working sealed secret pass letter
  (<[location letter := text "an older letter"]> encrypted.2).

(** An encryption that failed at its end leaves what it had written. *)
Definition failing : Desk :=
  {| machine := {| reading _ b := slice_reader b; FileSystem.sink := []; synced _ := false;
       directory_synced := true; others _ fs := fs; typed _ := None;
       FileSystem.random := FileCli.Samples.at_encrypt.(FileSystem.random) |};
     creates _ := true; leftover _ := text "part"; renames := true; removes := true |}.
Definition unfinished := encrypt_file failing letter [public] sealed keyed.

(** A public key as armoured text *)
Definition armoured : Files :=
  {[location public := encode_public (public_to_bytes Crypto.Samples.public)]}.

Definition holds (p : bytes) (fs : Files) (b : bytes) : bool := bool_decide (fs !! location p = Some b).
Definition free (p : bytes) (fs : Files) : bool := bool_decide (fs !! location p = None).

Definition abandons_the_secret : bool :=
  negb (is_ok abandoned.1) && negb (free secret abandoned.2) &&
  holds public abandoned.2 (text "hers").

Definition replaces_the_output : bool :=
  is_ok replacing.1 && holds letter replacing.2 (text "hello").

Definition leaves_a_part : bool :=
  negb (is_ok unfinished.1) && holds sealed unfinished.2 (text "part").

Definition armour_unrecognised : bool :=
  is_ok (load_public public armoured).1 &&
  negb (is_ok (describe working public armoured).1) &&
  negb (is_ok (read_public_armor public armoured).1).
End Samples.

Lemma it_all_went_well : Samples.all_went_well = true.
Proof. vm_compute. reflexivity. Qed.

(** The secret key is written before the public one, and stays when that fails. *)
Lemma generation_abandons_the_secret : Samples.abandons_the_secret = true.
Proof. vm_compute. reflexivity. Qed.

(** Opening into a name that is taken replaces that file. *)
Lemma opening_replaces_the_output : Samples.replaces_the_output = true.
Proof. vm_compute. reflexivity. Qed.

Lemma failed_encryption_leaves_a_part : Samples.leaves_a_part = true.
Proof. vm_compute. reflexivity. Qed.

(** An armoured public key is a recipient but no key to [describe]. *)
Lemma describe_ignores_armour : Samples.armour_unrecognised = true.
Proof. vm_compute. reflexivity. Qed.

Lemma each_went_well :
  is_ok Samples.made.1 = true ∧ is_ok Samples.encrypted.1 = true ∧ is_ok Samples.opened.1 = true ∧
  is_ok Samples.message.1 = true.
Proof. pose proof it_all_went_well as W. unfold Samples.all_went_well in W. rewrite !andb_true_iff in W. tauto. Qed.

Lemma desk_draws : keygen_draws Samples.making.(machine).
Proof. split_and!; intros b [= <-]; reflexivity. Qed.

Lemma generated_keys_agree_witness :
  ∃ fs' s, Samples.start ⊆ fs' ∧
    load_secret Samples.secret Samples.pass fs' = (Ok (encryption_key s), fs').
Proof.
  destruct each_went_well as (W1 & W2 & W3 & W4).
  destruct (run_Ok (generate_keys Samples.making (text "keys") (text " alice ") Samples.pass) Samples.start)
    as (kp & fs' & E); [exact W1|].
  destruct (generated_keys_agree Samples.making (text "keys") (text " alice ") Samples.pass Samples.start
    (Ok kp) fs' (machine_quiet _) desk_draws E) as [Hs Hk].
  destruct (generate_keys_Ok Samples.making _ _ _ _ _ _ (machine_quiet _) E) as (x1 & x2 & x3 & _ & _ & _ & _ & Ekp & _).
  destruct (Hk kp eq_refl) as (s & k & _ & _ & _ & _ & _ & _ & _ & Hl & _). exists fs', s.
  split; [exact Hs|]. rewrite Ekp in Hl. cbn [secret_path] in Hl.
  assert (Ho : opening Samples.pass (typed Samples.making.(machine) 0) s)
    by exact (ex_intro _ (text "correct horse") (conj eq_refl eq_refl)).
  exact (proj1 (Hl Samples.making.(machine) 0 Ho)).
Defined.

Lemma window_publishes_only_verified_witness :
  ∃ v b (fs' : Files), decrypts Samples.working Samples.sealed Samples.secret Samples.pass Samples.encrypted.2 v b ∧
    fs' !! location (text "out.txt") = Some b.
Proof.
  destruct each_went_well as (W1 & W2 & W3 & W4).
  destruct (run_Ok (decrypt_file Samples.working Samples.sealed Samples.secret Samples.pass (text "out.txt"))
    Samples.encrypted.2) as (v & fs' & E); [exact W3|].
  destruct (window_publishes_only_verified Samples.working Samples.sealed Samples.secret Samples.pass
    (text "out.txt") Samples.encrypted.2 (Ok v) fs' (machine_quiet _) E) as (b & Hd & _ & Hfs).
  exists v, b, fs'. split; [exact Hd|]. rewrite Hfs. apply lookup_insert_eq.
Defined.

Lemma files_cross_programs_witness :
  ∃ n id fs', encrypted_by Samples.letter [Samples.public] Samples.sealed Samples.keyed n id fs' ∧
    ∃ b, Samples.keyed !! location Samples.letter = Some b ∧ n = lenN b.
Proof.
  destruct each_went_well as (W1 & W2 & W3 & W4).
  destruct (run_Ok (encrypt_file Samples.working Samples.letter [Samples.public] Samples.sealed) Samples.keyed)
    as ([n count] & fs' & E); [exact W2|].
  assert (H : encrypted_by Samples.letter [Samples.public] Samples.sealed Samples.keyed n None fs').
  { eapply (in_window _ _ _ _ Samples.working); [apply machine_quiet|apply machine_delivering| |exact E].
    intros b. split_and!; intros [= <-]; reflexivity. }
  exists n, None, fs'. split; [exact H|].
  destruct (files_cross_programs Samples.letter [Samples.public] Samples.sealed Samples.keyed n None fs' H)
    as (keys & b & container & name & _ & Hb & Hn & _). exists b. exact (conj Hb Hn).
Defined.

Lemma sealed_message_opens_witness :
  ∃ armored, sealed_by (text "hello") [Samples.public] Samples.keyed armored ∧
    ∃ keys, load_recipients [Samples.public] Samples.keyed = (Ok keys, Samples.keyed).
Proof.
  destruct each_went_well as (W1 & W2 & W3 & W4).
  destruct (run_Ok (seal_message Samples.working (text "hello") [Samples.public]) Samples.keyed)
    as (armored & fs' & E); [exact W4|].
  assert (H : sealed_by (text "hello") [Samples.public] Samples.keyed armored).
  { eapply (sealed_in_window _ _ _ Samples.working); [|exact E]. intros b. split_and!; intros [= <-]; reflexivity. }
  exists armored. split; [exact H|].
  destruct (sealed_message_opens (text "hello") [Samples.public] Samples.keyed armored eq_refl H)
    as (keys & container & Hk & _). exists keys. exact Hk.
Defined.
